(* ===== verification/_CoqProject ===== *)
-Q . S2P
Prelude.v
Messages.v
Storage.v
RocksStorage.v
Subscriptions.v
Crud.v
PbftOperation.v
Json.v
PbftConfig.v
FailureDetector.v
PbftService.v
Pbft.v
PbftProps.v
PbftVotes.v
PbftProgress.v
PbftErrors.v
Auditor.v
RaftLog.v
Raft.v
RaftProps.v
Replication.v
RaftCrud.v
RaftErrors.v
RaftElections.v
RaftRecovery.v
Http.v
Node.v
RaftEvents.v
Network.v
PbftSwarm.v
PbftLiveness.v
RaftSwarm.v
RaftCommits.v
Bootstrap.v
Security.v
Options.v
Status.v
Swarm.v
