(* ===== verification/Prelude.v ===== *)
(** * SwarmDB: a verification library

    SwarmDB (the Bluzelle daemon) keeps a replicated key-value store.  A swarm
    of nodes agrees on the order of the clients' requests, by PBFT or by Raft;
    each node executes the ordered requests against its own store and answers
    the clients.  This library models the daemon of [src/] as executable
    functions and proves what makes it correct.

    ** The program

    - [swarm/main.cpp] reads the options ([options/]), asks for the balance of an
      account ([ethereum/]), collects the peers to start with ([bootstrap/],
      [utils/blacklist.cpp]) and builds one node ([node/], [crypto/], [chaos/]),
      an auditor ([audit/]) and a status module ([status/]);
    - with PBFT: [pbft/pbft.cpp] orders requests over operations
      ([pbft_operation]), configurations and a failure detector;
      [database_pbft_service] executes the committed ones in order through
      [crud/crud.cpp] against a store ([storage/]);
    - with Raft: [raft/raft.cpp] replicates a log ([raft_log]); [raft_crud.cpp]
      answers requests by the role of the node, appends writes to the log and
      applies what Raft commits to the store; [http/] is a second front end to
      it;
    - [subscription_manager] tells sessions of the keys that changed.

    ** How the code is modelled

    A component is a [Record] of its fields and a function per method, written in
    the state monad [M] below: a method takes the state and returns a [result] (a
    value, an exception with its text, or undefined behaviour), the state that
    was reached, and the list of its calls to the outside ([effect]): messages
    sent, timers set, handlers called.  The state is kept when an exception
    leaves the method, as in C++.  Completions of asynchronous calls are methods
    of their own, with the error code as an argument, and a run is a sequence of
    such events in any order, so the theorems about runs hold for every
    interleaving.  A swarm is a world of nodes ([Network]): one node handles one
    event at a time, and which messages may arrive depends on what the nodes have
    sent, so the theorems about swarms hold of networks that lose, repeat, delay
    and reorder messages.  Integers are [N]s with the wrap-around of their width written
    out ([u16], [u32], [add64], [sub64]); strings are byte strings; an
    [unordered_set] is a list without duplicates, and where the order of its
    enumeration shows, it is a parameter.  Shared objects that are changed
    through several pointers are named by keys into the state (the operations of
    [Pbft], the sessions by their ids).

    What is not part of the repository is a class with the calls the code makes,
    and a class of laws with the documented behaviour that theorems use:
    [Jsoncpp], [StdHash] (Json), [Boost], [Message] for protobuf (Messages: a message
    parses back when its [string] fields are UTF-8 and its numbers fit their fields),
    [RocksDB] (RocksStorage), [Base64Laws] (RaftLog), [OpenSSL] (Node),
    [RsaVerifier] (Security), [ProgramOptions] (Options), [JsonAssign] (Status).
    [JsoncppThrows] says which exceptions the readers of JSON throw,
    [JsoncppMissing] (RaftElections) what a missing member reads as.  Each has a
    concrete instance, with its laws proved, on which the witnesses evaluate the
    theorems: [json_tree], [letters], [list_engine], [sample_keys],
    [sample_contract], [sample_options], [sample_status].

    Components meet at interfaces: [Storage] with its specification
    [StorageRefines] and [ReliableStorage] (proved of [mem_storage] and
    [rocksdb_storage], used by [Crud], [PbftService] and [RaftCrud]),
    [CrudBackend] (implemented by [RaftCrud], used by [Http]) and [Security] with
    [SecurityThrows], the exceptions it may throw (implemented by [crypto_utils] and
    [blacklist], used by [Raft] and [RaftErrors]).

    ** The files

    - [Prelude]: results, the monad, reasoning about methods ([respects],
      [pure_method], [query], [maintains], the [run] rewrite database; [safe] and
      [answers], the calculus of what a method may throw and of undefined behaviour), machine
      integers, decimal numbers, strings, sizes of sets.
    - [Messages]: [proto/*.proto], [bootstrap/peer_address.hpp],
      [utils/make_endpoint.cpp].  [Json]: jsoncpp.
    - [Storage]: [storage/storage_base.hpp], [mem_storage.cpp], the abstract map.
      [RocksStorage]: [storage/rocksdb_storage.cpp].
    - [Subscriptions]: [crud/subscription_manager.cpp].  [Crud]: [crud/crud.cpp].
    - [PbftOperation], [PbftConfig], [FailureDetector], [PbftService], [Pbft]:
      the files of [pbft/] with these names ([PbftConfig] has the configuration
      and its store, [PbftService] both services).  [PbftProps]: the invariant
      and the runs of a PBFT node.  [PbftVotes]: where its votes and proofs come
      from.  [PbftProgress]: the steps it takes on its votes.  [PbftErrors]: what
      its handlers throw, and that they are defined.  [PbftSwarm]: a swarm
      of them, some of which misbehave.  [PbftLiveness]: what the swarm executes.
    - [Auditor]: [audit/audit.cpp].
    - [RaftLog]: [raft/log_entry.hpp], [raft/raft_log.cpp] with the file the log
      is kept in, character by character.  [Raft]: [raft/raft.cpp],
      [raft_base.hpp].  [RaftProps]: runs of a Raft node.  [Replication]: one
      round of AppendEntries between two nodes.  [RaftEvents]: what each event does
      to the log and to what a leader counts, and what is sent of the log.  [RaftSwarm]:
      a swarm of Raft nodes.  [RaftCommits]: what its majorities have.
      [RaftElections]: votes of one term.
    - [Network]: nodes of one kind that exchange messages, and schedules.
    - [RaftCrud]: [crud/raft_crud.cpp], with Raft, the store and the
      subscriptions in one state.  [RaftErrors]: what the handlers of such a node
      throw, and when they are defined.  [RaftRecovery]: the restart in
      [swarm/main.cpp] ([recovery.boot]).
    - [Http]: [http/connection.cpp], [http/server.cpp].  [Node]:
      [chaos/chaos.cpp], [crypto/crypto.cpp], [node/session.cpp],
      [node/node.cpp].  [Bootstrap]: [utils/blacklist.cpp],
      [bootstrap/bootstrap_peers.cpp].  [Security]: [utils/crypto.cpp] and what
      it gives to Raft.  [Options]: [options/simple_options.cpp], [options.cpp].
      [Status]: [status/status.cpp].  [Swarm]: [utils/http_get.cpp],
      [ethereum/ethereum.cpp], [swarm/main.cpp].

    A module has the name of the class it models, a definition the name of the
    method; a lambda that the code hands to an asynchronous call is named after
    the completion ([handle_accepted], [handle_read_done]).

    ** What is shown

    - The PBFT swarm ([PbftSwarm]): with 3f+1 peers and at most f that misbehave,
      no two correct nodes execute different requests under one sequence number,
      their databases differ only in how far they are, and their stable
      checkpoints agree and have f+1 correct nodes behind them.  And the swarm
      makes progress ([PbftLiveness]): a client's request at a correct primary is
      executed by all correct nodes when their messages about it have arrived, and by
      the database of each once it was handed the numbers before it, unless one of
      them has accepted another request under its number, which the code
      allows any peer to bring about ([handle_preprepare] does not ask who sent the
      preprepare).  The channels are taken to be authenticated and to deliver
      envelopes of peers only; the nodes do not move to another configuration after
      their start, which nothing in the program makes them do.  A node that checks signatures takes no part: the
      messages are not signed.
    - A PBFT node ([PbftProps], [PbftOperation]): it never votes for two requests;
      what it executes is committed, each sequence number once; watermarks and
      checkpoints; quorums intersect when n = 3f+1; the service executes exactly
      the committed prefix, replicas converge whatever the order of arrival, and
      a restarted service resumes ([PbftService]).  As long as it stays in a
      configuration with a valid peer, no event takes a handler into undefined
      behaviour, and what leaves a handler is an exception of a library it calls
      ([PbftErrors]); with no valid peer it divides by zero.
    - The Raft swarm ([RaftSwarm]): as long as elections are safe the logs match,
      and while one node leads the others commit what it commits, in its order: its
      store is what applying the rest of its log makes of another node's store.
      When a leader commits, the logs of more than half of every quorum it is in reach
      the new commit index ([RaftCommits]), with its entries as long as it is the only
      leader.  That elections are safe is a hypothesis about the run, because the code
      does not see to it: any two candidates of a term can both lead in it when a late
      message of an earlier term comes between their requests ([RaftElections]), and
      [raft_nodes_disagree] is a run in which nothing but what was sent is delivered,
      two nodes lead in one term and two nodes commit different messages.
    - A Raft node ([RaftProps], [Replication], [RaftLog]): the commit handler gets
      the log in order without gaps; a leader needs the votes of a majority; one round
      of replication, with the answer; the
      log is read back from its file after a restart, and reading a file ends.  The
      handlers of the node are defined, and throw only what they mean to, away from
      four places ([RaftErrors]): an index behind the log, a quorum of one, a
      signature larger than its buffer, and a timeout scale that empties the range of
      the election timer.  Messages that the program sends take it to the first two,
      an environment variable to the last.
    - Stores ([Storage], [RocksStorage], [Crud]): every sequence of calls is
      answered as by the abstract map; CRUD answers with the map's answer.
    - The Raft database ([RaftCrud], [RaftRecovery], [Http]): the store is the
      replay of the committed log; the logs that leaders write are grounded, so a
      restart that replays the whole log and commits it again recovers the map; a
      request over HTTP at the leader is answered like one over a websocket.
    - Membership ([PbftConfig], [Security]): configurations stay conflict-free and
      are read back as printed; with validation Raft admits only signed peers;
      the key of the contract is read back; bounds of the base64 buffer.
    - Monitoring ([FailureDetector], [Auditor], [Subscriptions], [Status]): when
      failures, contradictions and notifications are reported, and bounded memory.
    - The edge ([Node], [Bootstrap], [Options], [Swarm]): a signed message sent by
      one node reaches the handler of another; the peers read are usable and read
      back as written; every option is asked for with its declared type; [main]
      builds the components only from accepted options, a balance and usable peers.

    Theorems that hold of a defect say so in their names and comments (for
    instance [raft_nodes_disagree], [raft_votes_twice_in_a_term],
    [raft_log_truncation_loses_file], [six_peers_commit_conflicting_requests],
    [checking_node_drops_votes], [removing_one_of_two_is_undefined],
    [wiped_follower_is_undefined], [large_timeout_scale_is_undefined],
    [raft_two_leaders_in_a_term], [no_valid_peer_divides_by_zero],
    [unnamed_peers_are_left_out], [http_create_off_leader_is_lost],
    [signed_status_request_throws]).

    ** Fuel and bounds

    [read_entries] gets the number of characters of the file, of which every turn
    consumes one ([raft_log_reading_terminates]); [commit_until] and [commit_from]
    get the distance to their bound, which every turn shortens
    ([safe_commit_until], [safe_commit_from]); [drain] gets the number of waiting requests
    ([drain_idle], [drain_enough]).  [read_chunks] asks the contract for the number
    of chunks on every turn, so its fuel is an argument; a contract that holds n
    chunks needs n ([public_key_round_trip]).  Counters that the code lets wrap
    are shown not to wrap under a bound on the length of the run where a theorem
    needs it.

    ** Not modelled

    Logging, mutexes and threads: each handler is one step, as under the locks the
    code holds.  The transport: Boost.Asio, Beast and curl (the wrappers of
    [include/boost_asio_beast.hpp] forward to them and have no logic), HTTP and
    websocket framing, the UDP socket of the auditor beyond the datagrams sent.
    Opening RocksDB, and the parsers of JSON, protobuf and the command line, which
    are parameters.  Wall-clock time and randomness are arguments.  The options of
    [chaos] are rationals, not doubles; the balance of [ethereum] is an IEEE
    double.  Exhausted memory, and protobuf's limit of 2 GB for a message.  Bindings, tests, scripts and generated code are left aside. *)

From stdpp Require Export base tactics list gmap strings numbers option
  sorting fin_maps fin_map_dom fin_sets pretty.
From Stdlib Require Export Ascii NArith ZArith Lia.

#[export] Set Default Goal Selector "!".

(** ** Results, state and effects *)

(** The outcome of a C++ call: it returns, a [std::runtime_error] (or another
    standard exception) leaves it, or it runs into undefined behaviour (an
    element past the end of a vector, [front()] of an empty list). *)
Inductive result (A : Type) : Type :=
| Ok (a : A)
| Throw (what : string)
| Undefined.
Arguments Ok {A} a.
Arguments Throw {A} what.
Arguments Undefined {A}.
#[export] Instance Ok_inj {A} : Inj (=) (=) (@Ok A).
Proof. by injection 1. Qed.

(** A method of an object with state [St] that makes the external calls [Ef]
    (messages sent, timers set, closures posted).  The state that was reached
    is kept when an exception leaves the method, as in C++. *)
Definition M (St Ef A : Type) : Type := St → result A * St * list Ef.

Section Monad.
Context {St Ef : Type}.

#[global] Instance M_ret : MRet (M St Ef) := λ A a s, (Ok a, s, []).

#[global] Instance M_bind : MBind (M St Ef) := λ A B k m s,
  match m s with
  | (Ok a, s', e) => let '(r, s'', e') := k a s' in (r, s'', e ++ e')
  | (Throw w, s', e) => (Throw w, s', e)
  | (Undefined, s', e) => (Undefined, s', e)
  end.

Definition gets {A} (f : St → A) : M St Ef A := λ s, (Ok (f s), s, []).
Definition modify (f : St → St) : M St Ef unit := λ s, (Ok tt, f s, []).
Definition emit (e : Ef) : M St Ef unit := λ s, (Ok tt, s, [e]).
Definition throw {A} (w : string) : M St Ef A := λ s, (Throw w, s, []).
Definition undefined {A} : M St Ef A := λ s, (Undefined, s, []).
Definition when (b : bool) (m : M St Ef unit) : M St Ef unit :=
  if b then m else mret tt.

Definition lift {A} (r : result A) : M St Ef A := λ s, (r, s, []).

(** A range-based [for] loop. *)
Fixpoint for_each {A} (f : A → M St Ef unit) (l : list A) : M St Ef unit :=
  match l with
  | [] => mret tt
  | x :: l => f x;; for_each f l
  end.

(** The result, the state after and the calls made by a method. *)
Definition res {A} (m : M St Ef A) (s : St) : result A := (m s).1.1.
Definition post {A} (m : M St Ef A) (s : St) : St := (m s).1.2.
Definition out {A} (m : M St Ef A) (s : St) : list Ef := (m s).2.

Lemma run_eta {A} (m : M St Ef A) s : m s = (res m s, post m s, out m s).
Proof. unfold res, post, out. by destruct (m s) as [[??]?]. Qed.

Lemma post_bind {A B} (m : M St Ef A) (k : A → M St Ef B) s :
  post (m ≫= k) s =
  match res m s with Ok a => post (k a) (post m s) | _ => post m s end.
Proof.
  unfold post, res, mbind, M_bind. destruct (m s) as [[[]?]?]; simpl; try done.
  by destruct (k _ _) as [[??]?].
Qed.

Lemma res_bind {A B} (m : M St Ef A) (k : A → M St Ef B) s :
  res (m ≫= k) s =
  match res m s with
  | Ok a => res (k a) (post m s)
  | Throw w => Throw w
  | Undefined => Undefined
  end.
Proof.
  unfold post, res, mbind, M_bind. destruct (m s) as [[[]?]?]; simpl; try done.
  by destruct (k _ _) as [[??]?].
Qed.

(** A sequence returns when its parts do. *)
Lemma res_bind_ok {A B} (m : M St Ef A) (k : A → M St Ef B) s b :
  res (m ≫= k) s = Ok b ↔ ∃ a, res m s = Ok a ∧ res (k a) (post m s) = Ok b.
Proof. rewrite res_bind. destruct (res m s); naive_solver. Qed.

Lemma post_bind_ok {A B} (m : M St Ef A) (k : A → M St Ef B) s a :
  res m s = Ok a → post (m ≫= k) s = post (k a) (post m s).
Proof. intros H. by rewrite post_bind, H. Qed.

Lemma bind_ok {A B} (m : M St Ef A) (k : A → M St Ef B) s a s' e x :
  m s = (Ok a, s', e) → k a s' = x → (m ≫= k) s = (x.1.1, x.1.2, e ++ x.2).
Proof. intros Hm <-. unfold mbind, M_bind. rewrite Hm. by destruct (k a s') as [[??]?]. Qed.

Lemma run_gets {A B} (f : St → A) (k : A → M St Ef B) s : (gets f ≫= k) s = k (f s) s.
Proof. unfold mbind, M_bind, gets. by destruct (k (f s) s) as [[??]?]. Qed.

Lemma run_lift {A B} (a : A) (k : A → M St Ef B) s : (lift (Ok a) ≫= k) s = k a s.
Proof. unfold mbind, M_bind, lift. by destruct (k a s) as [[??]?]. Qed.

Lemma run_bind {A B} (m : M St Ef A) (k : A → M St Ef B) s a s' :
  m s = (Ok a, s', []) → (m ≫= k) s = k a s'.
Proof. intros Hm. unfold mbind, M_bind. rewrite Hm. by destruct (k a s') as [[??]?]. Qed.

Lemma run_state {A B} (m : M St Ef A) (k : A → M St Ef B) s a s' :
  m s = (Ok a, s', []) → post (m ≫= k) s = post (k a) s'.
Proof. intros Hm. unfold post. by rewrite (run_bind _ _ _ _ _ Hm). Qed.

Lemma run_result {A B} (m : M St Ef A) (k : A → M St Ef B) s a s' :
  m s = (Ok a, s', []) → res (m ≫= k) s = res (k a) s'.
Proof. intros Hm. unfold res. by rewrite (run_bind _ _ _ _ _ Hm). Qed.

Lemma run_modify {A} (f : St → St) (k : unit → M St Ef A) s : (modify f ≫= k) s = k tt (f s).
Proof. unfold mbind, M_bind, modify. by destruct (k tt (f s)) as [[??]?]. Qed.

Lemma run_emit {A} (e : Ef) (k : unit → M St Ef A) s :
  (emit e ≫= k) s = (res (k tt) s, post (k tt) s, e :: out (k tt) s).
Proof. unfold mbind, M_bind, emit, res, post, out. by destruct (k tt s) as [[??]?]. Qed.

Lemma out_bind {A B} (m : M St Ef A) (k : A → M St Ef B) s :
  out (m ≫= k) s =
  out m s ++ match res m s with Ok a => out (k a) (post m s) | _ => [] end.
Proof.
  unfold out, post, res, mbind, M_bind.
  destruct (m s) as [[[]?]?]; simpl; rewrite ?app_nil_r; try done.
  by destruct (k _ _) as [[??]?].
Qed.

Lemma post_ret {A} (a : A) s : post (mret a : M St Ef A) s = s.
Proof. done. Qed.
Lemma res_ret {A} (a : A) s : res (mret a : M St Ef A) s = Ok a.
Proof. done. Qed.
Lemma out_ret {A} (a : A) s : out (mret a : M St Ef A) s = [].
Proof. done. Qed.
Lemma post_gets {A} (f : St → A) s : post (gets f) s = s.
Proof. done. Qed.
Lemma res_gets {A} (f : St → A) s : res (gets f) s = Ok (f s).
Proof. done. Qed.
Lemma out_gets {A} (f : St → A) s : out (gets f) s = [].
Proof. done. Qed.
Lemma post_modify (f : St → St) s : post (modify f) s = f s.
Proof. done. Qed.
Lemma res_modify (f : St → St) s : res (modify f) s = Ok tt.
Proof. done. Qed.
Lemma out_modify (f : St → St) s : out (modify f) s = [].
Proof. done. Qed.
Lemma post_emit (e : Ef) s : post (emit e) s = s.
Proof. done. Qed.
Lemma res_emit (e : Ef) s : res (emit e) s = Ok tt.
Proof. done. Qed.
Lemma out_emit (e : Ef) s : out (emit e) s = [e].
Proof. done. Qed.
Lemma post_lift {A} (r : result A) s : post (lift r) s = s.
Proof. done. Qed.
Lemma res_lift {A} (r : result A) s : res (lift r) s = r.
Proof. done. Qed.
Lemma out_lift {A} (r : result A) s : out (lift r) s = [].
Proof. done. Qed.
Lemma post_throw {A} w s : post (throw w : M St Ef A) s = s.
Proof. done. Qed.
Lemma res_throw {A} w s : res (throw w : M St Ef A) s = Throw w.
Proof. done. Qed.
Lemma out_throw {A} w s : out (throw w : M St Ef A) s = [].
Proof. done. Qed.
Lemma post_undefined {A} s : post (undefined : M St Ef A) s = s.
Proof. done. Qed.
Lemma res_undefined {A} s : res (undefined : M St Ef A) s = Undefined.
Proof. done. Qed.

(** *** Invariants and monotone relations of a method

    [respects R m]: whatever the outcome, the state after [m] is [R]-related to
    the state before.  An invariant [I] is the relation [λ s s', I s → I s']. *)
Definition respects {A} (R : relation St) (m : M St Ef A) : Prop :=
  ∀ s, R s (post m s).

Lemma respects_bind_at {A B} (R : relation St) `{!Transitive R}
    (m : M St Ef A) (k : A → M St Ef B) s :
  R s (post m s) →
  (∀ a, res m s = Ok a → R (post m s) (post (k a) (post m s))) →
  R s (post (m ≫= k) s).
Proof.
  intros Hm Hk. rewrite post_bind. destruct (res m s) eqn:E; [|done..].
  etrans; [done|]. by apply Hk.
Qed.

Lemma respects_bind {A B} (R : relation St) `{!Transitive R}
    (m : M St Ef A) (k : A → M St Ef B) :
  respects R m → (∀ a, respects R (k a)) → respects R (m ≫= k).
Proof. intros Hm Hk s. apply respects_bind_at; [done|auto|intros; apply Hk]. Qed.

Lemma respects_ret {A} (R : relation St) `{!Reflexive R} (a : A) :
  respects R (mret a).
Proof. intros s. rewrite post_ret. reflexivity. Qed.

Lemma respects_gets {A} (R : relation St) `{!Reflexive R} (f : St → A) :
  respects R (gets f).
Proof. intros s. rewrite post_gets. reflexivity. Qed.

Lemma respects_emit (R : relation St) `{!Reflexive R} (e : Ef) :
  respects R (emit e).
Proof. intros s. rewrite post_emit. reflexivity. Qed.

Lemma respects_lift {A} (R : relation St) `{!Reflexive R} (r : result A) :
  respects R (lift r).
Proof. intros s. rewrite post_lift. reflexivity. Qed.

Lemma respects_throw {A} (R : relation St) `{!Reflexive R} w :
  respects R (throw w : M St Ef A).
Proof. intros s. rewrite post_throw. reflexivity. Qed.

Lemma respects_undefined {A} (R : relation St) `{!Reflexive R} :
  respects R (undefined : M St Ef A).
Proof. intros s. rewrite post_undefined. reflexivity. Qed.

Lemma respects_modify (R : relation St) (f : St → St) :
  (∀ s, R s (f s)) → respects R (modify f).
Proof. intros H s. rewrite post_modify. apply H. Qed.

Lemma respects_when (R : relation St) `{!Reflexive R} b (m : M St Ef unit) :
  (b = true → respects R m) → respects R (when b m).
Proof. destruct b; intros H; [by apply H|by apply respects_ret]. Qed.

Lemma respects_for_each {A} (R : relation St) `{!PreOrder R}
    (f : A → M St Ef unit) l :
  (∀ x, x ∈ l → respects R (f x)) → respects R (for_each f l).
Proof.
  induction l as [|x l IH]; intros H; simpl.
  - apply respects_ret, _.
  - apply respects_bind; [apply _|apply H; left|].
    intros []. apply IH. intros y Hy. apply H. by right.
Qed.

(** The pure methods: those that leave the object as it is. *)
Definition pure_method {A} (m : M St Ef A) : Prop := respects eq m.

(** What follows a change. *)
Lemma post_bind_pure {A B} (m : M St Ef A) (k : A → M St Ef B) s :
  (∀ a, pure_method (k a)) → post (m ≫= k) s = post m s.
Proof. intros Hk. rewrite post_bind. by destruct (res m s) as [a| |]; [rewrite <-(Hk a _)|..]. Qed.

(** The steps of a method that returned. *)
Lemma finished_bind {A B} (m : M St Ef A) (k : A → M St Ef B) s b :
  res (m ≫= k) s = Ok b →
  ∃ a, res m s = Ok a ∧ res (k a) (post m s) = Ok b ∧ post (m ≫= k) s = post (k a) (post m s).
Proof. rewrite res_bind, post_bind. destruct (res m s) as [a| |]; [eauto|done..]. Qed.

(** What changes a field is behind the pure methods that come first. *)
Lemma changed_bind {A B T} (f : St → T) (m : M St Ef A) (k : A → M St Ef B) s :
  pure_method m → f (post (m ≫= k) s) ≠ f s → ∃ a, res m s = Ok a ∧ f (post (k a) s) ≠ f s.
Proof. intros Hm. rewrite post_bind, <-(Hm s). destruct (res m s) as [a| |]; [eauto|done..]. Qed.

(** What a method returns behind a pure method. *)
Lemma returned_bind {A B} (m : M St Ef A) (k : A → M St Ef B) s b :
  pure_method m → res (m ≫= k) s = Ok b → ∃ a, res m s = Ok a ∧ res (k a) s = Ok b.
Proof. intros Hm. rewrite res_bind, <-(Hm s). destruct (res m s) as [a| |]; [eauto|done..]. Qed.

(** The queries: methods that change nothing and call nobody. *)
Definition query {A} (m : M St Ef A) : Prop := ∀ s, m s = (res m s, s, []).

Lemma query_ret {A} (a : A) : query (mret a).
Proof. done. Qed.
Lemma query_gets {A} (f : St → A) : query (gets f).
Proof. done. Qed.
Lemma query_lift {A} (r : result A) : query (lift r).
Proof. done. Qed.
Lemma query_throw {A} w : query (throw w : M St Ef A).
Proof. done. Qed.
Lemma query_undefined {A} : query (undefined : M St Ef A).
Proof. done. Qed.
Lemma query_bind {A B} (m : M St Ef A) (k : A → M St Ef B) : query m → (∀ a, query (k a)) → query (m ≫= k).
Proof.
  intros Hm Hk s. unfold mbind, M_bind, res. rewrite (Hm s). destruct (res m s) as [a| |]; [|done..].
  by rewrite (Hk a s).
Qed.

(** *** Invariants together with the calls that are made

    [maintains I Q m]: from a state with [I], whatever the outcome, [m] reaches a
    state with [I] and every call it makes satisfies [Q]. *)
Definition maintains_at {A} (I : St → Prop) (Q : Ef → Prop) (m : M St Ef A) (s : St) : Prop :=
  I s → I (post m s) ∧ Forall Q (out m s).
Definition maintains {A} (I : St → Prop) (Q : Ef → Prop) (m : M St Ef A) : Prop := ∀ s, maintains_at I Q m s.

Lemma maintains_bind_at {A B} I Q (m : M St Ef A) (k : A → M St Ef B) s :
  maintains_at I Q m s → (∀ a, res m s = Ok a → maintains_at I Q (k a) (post m s)) →
  maintains_at I Q (m ≫= k) s.
Proof.
  intros Hm Hk Hi. destruct (Hm Hi) as [Hi1 Hq1]. rewrite post_bind, out_bind.
  destruct (res m s) as [a| |] eqn:E; [|by rewrite app_nil_r..].
  destruct (Hk a eq_refl Hi1) as [Hi2 Hq2]. split; [done|]. by apply Forall_app.
Qed.

Lemma maintains_bind {A B} I Q (m : M St Ef A) (k : A → M St Ef B) :
  maintains I Q m → (∀ a, maintains I Q (k a)) → maintains I Q (m ≫= k).
Proof. intros Hm Hk s. apply maintains_bind_at; [apply Hm|intros a _; apply Hk]. Qed.

Lemma maintains_query {A} I Q (m : M St Ef A) : query m → maintains I Q m.
Proof. intros Hq s Hi. unfold post, out. rewrite (Hq s). by split; [|constructor]. Qed.

Lemma maintains_emit I (Q : Ef → Prop) e : Q e → maintains I Q (emit e).
Proof. intros He s Hi. split; [done|]. by repeat constructor. Qed.

Lemma maintains_modify (I : St → Prop) (Q : Ef → Prop) f : (∀ s, I s → I (f s)) → maintains I Q (modify f).
Proof. intros Hf s Hi. split; [by apply Hf|constructor]. Qed.

Lemma maintains_when I Q b (m : M St Ef unit) : (b = true → maintains I Q m) → maintains I Q (when b m).
Proof. destruct b; intros Hm; [by apply Hm|by apply maintains_query]. Qed.

Lemma maintains_for_each {A} I Q (f : A → M St Ef unit) l :
  (∀ x, x ∈ l → maintains I Q (f x)) → maintains I Q (for_each f l).
Proof.
  induction l as [|x l IH]; intros Hf; simpl; [by apply maintains_query|].
  apply maintains_bind; [apply Hf; by left|]. intros []. apply IH. intros y Hy. apply Hf. by right.
Qed.

(** *** What a method can end with

    [throws_only E r]: the outcome [r] is a value or an exception with a text in
    [E].  [safe E m Q s]: called in the state [s], [m] runs into no undefined behaviour,
    throws only texts in [E], and when it returns, result and state satisfy [Q]. *)
Definition throws_only {A} (E : string → Prop) (r : result A) : Prop :=
  match r with Ok _ => True | Throw w => E w | Undefined => False end.

Definition safe {A} (E : string → Prop) (m : M St Ef A) (Q : A → St → Prop) (s : St) : Prop :=
  match res m s with Ok a => Q a (post m s) | Throw w => E w | Undefined => False end.

Lemma safe_bind {A B} E (m : M St Ef A) (k : A → M St Ef B) Q s :
  safe E m (λ a, safe E (k a) Q) s → safe E (m ≫= k) Q s.
Proof. unfold safe. rewrite res_bind, post_bind. by destruct (res m s). Qed.

Lemma safe_mono {A} E (m : M St Ef A) (Q Q' : A → St → Prop) s :
  safe E m Q s → (∀ a s', Q a s' → Q' a s') → safe E m Q' s.
Proof. unfold safe. destruct (res m s); auto. Qed.

(** What else is known of a method can be added. *)
Lemma safe_and {A} E (m : M St Ef A) (Q Q' : A → St → Prop) s :
  safe E m Q s → (∀ a, res m s = Ok a → Q a (post m s) → Q' a (post m s)) → safe E m Q' s.
Proof. unfold safe. destruct (res m s); auto. Qed.

Lemma safe_ret {A} E (a : A) (Q : A → St → Prop) s : Q a s → safe E (mret a) Q s.
Proof. done. Qed.
Lemma safe_gets {A} E (f : St → A) (Q : A → St → Prop) s : Q (f s) s → safe E (gets f) Q s.
Proof. done. Qed.
Lemma safe_modify E f (Q : unit → St → Prop) s : Q tt (f s) → safe E (modify f) Q s.
Proof. done. Qed.
Lemma safe_emit E e (Q : unit → St → Prop) s : Q tt s → safe E (emit e) Q s.
Proof. done. Qed.
Lemma safe_throw {A} (E : string → Prop) w (Q : A → St → Prop) s : E w → safe E (throw w) Q s.
Proof. done. Qed.
Lemma safe_lift {A} (E : string → Prop) (r : result A) (Q : A → St → Prop) s :
  throws_only E r → (∀ a, r = Ok a → Q a s) → safe E (lift r) Q s.
Proof. unfold safe, throws_only, lift, res, post. destruct r; simpl; auto. Qed.
Lemma safe_throws_only {A} E (m : M St Ef A) (Q : A → St → Prop) s : safe E m Q s → throws_only E (res m s).
Proof. unfold safe, throws_only. by destruct (res m s). Qed.
Lemma safe_result {A} E (m : M St Ef A) s : throws_only E (res m s) → safe E m (λ a s', res m s = Ok a ∧ s' = post m s) s.
Proof. unfold safe, throws_only. by destruct (res m s). Qed.
Lemma safe_query {A} E (m : M St Ef A) (Q : A → St → Prop) s :
  query m → throws_only E (res m s) → (∀ a, res m s = Ok a → Q a s) → safe E m Q s.
Proof. intros Hq Ht HQ. unfold safe, post. rewrite (Hq s). unfold throws_only in Ht. destruct (res m s); simpl; auto. Qed.
Lemma throws_only_weaken {A} (E E' : string → Prop) (r : result A) : (∀ w, E w → E' w) → throws_only E r → throws_only E' r.
Proof. destruct r; simpl; auto. Qed.

(** [answers I E m]: called in a state with [I], [m] is defined, throws only texts in
    [E], and leaves a state with [I]. *)
Definition answers {A} (I : St → Prop) (E : string → Prop) (m : M St Ef A) : Prop :=
  ∀ s, I s → throws_only E (res m s) ∧ I (post m s).
Lemma answers_ret {A} I E (a : A) : answers I E (mret a).
Proof. done. Qed.
Lemma answers_gets {A} I E (f : St → A) : answers I E (gets f).
Proof. done. Qed.
Lemma answers_lift {A} I E (r : result A) : throws_only E r → answers I E (lift r).
Proof. done. Qed.
Lemma answers_emit I E e : answers I E (emit e).
Proof. done. Qed.
Lemma answers_modify (I : St → Prop) E f : (∀ s, I s → I (f s)) → answers I E (modify f).
Proof. intros Hf s Hs. split; [done|by apply Hf]. Qed.
Lemma answers_throw {A} I (E : string → Prop) w : E w → answers I E (throw w : M St Ef A).
Proof. done. Qed.
Lemma answers_bind_ok {A B} I E (m : M St Ef A) (k : A → M St Ef B) :
  answers I E m → (∀ s a, res m s = Ok a → answers I E (k a)) → answers I E (m ≫= k).
Proof.
  intros Hm Hk s Hs. rewrite res_bind, post_bind. destruct (Hm s Hs) as [Hr Hi].
  destruct (res m s) as [a| |] eqn:E'; [by eapply Hk|done..].
Qed.
Lemma answers_bind {A B} I E (m : M St Ef A) (k : A → M St Ef B) :
  answers I E m → (∀ a, answers I E (k a)) → answers I E (m ≫= k).
Proof. intros Hm Hk. apply answers_bind_ok; auto. Qed.
Lemma answers_when I E b (m : M St Ef unit) : (b = true → answers I E m) → answers I E (when b m).
Proof. destruct b; [auto|done]. Qed.
Lemma answers_for_each {A} I E (f : A → M St Ef unit) l : (∀ x, x ∈ l → answers I E (f x)) → answers I E (for_each f l).
Proof.
  induction l as [|x l IH]; intros Hf; [done|]. apply answers_bind; [apply Hf; by left|]. intros _.
  apply IH. intros y Hy. apply Hf. by right.
Qed.

Lemma safe_when E b (m : M St Ef unit) (Q : unit → St → Prop) s :
  (b = true → safe E m Q s) → (b = false → Q tt s) → safe E (when b m) Q s.
Proof. destruct b; simpl; eauto using safe_ret. Qed.

(** A loop whose body keeps [I]. *)
Lemma safe_for_each {A} E (f : A → M St Ef unit) l (I : St → Prop) s :
  (∀ x s', x ∈ l → I s' → safe E (f x) (λ _, I) s') → I s → safe E (for_each f l) (λ _, I) s.
Proof.
  revert s. induction l as [|x l IH]; intros s Hf Hi; [done|]. apply safe_bind.
  eapply safe_mono; [by apply Hf; [left|]|]. intros [] s' Hi'. apply IH; [|done]. intros y s2 Hy. apply Hf. by right.
Qed.

End Monad.

Create HintDb query.
#[export] Hint Resolve query_ret query_gets query_lift query_throw query_undefined query_bind : query.

(** Invariants as relations between the state before and the state after. *)
Definition preserved {St} (I : St → Prop) : relation St := λ s s', I s → I s'.

#[export] Instance preserved_preorder {St} (I : St → Prop) : PreOrder (preserved I).
Proof. split; unfold preserved; [by intros ?|intros ???; naive_solver]. Qed.

Create Rewrite HintDb run.
#[export] Hint Rewrite @post_bind @res_bind @out_bind @post_ret @res_ret @out_ret
  @post_gets @res_gets @out_gets @post_modify @res_modify @out_modify
  @post_emit @res_emit @out_emit @post_lift @res_lift @out_lift @post_throw @res_throw @out_throw
  @post_undefined @res_undefined @app_nil_r : run.

(** [run_simpl] evaluates the methods of a goal as far as their structure
    allows; [respects_step] walks down a method and leaves the state changes. *)
Ltac run_simpl := autorewrite with run; simpl.
Ltac run_simpl_in H := autorewrite with run in H; simpl in H.

Ltac respects_step :=
  lazymatch goal with
  | |- respects _ (mbind _ _) => apply respects_bind; [apply _| |intros ?]
  | |- respects _ (mret _) => apply respects_ret; apply _
  | |- respects _ (gets _) => apply respects_gets; apply _
  | |- respects _ (lift _) => apply respects_lift; apply _
  | |- respects _ (emit _) => apply respects_emit; apply _
  | |- respects _ (throw _) => apply respects_throw; apply _
  | |- respects _ undefined => apply respects_undefined; apply _
  | |- respects _ (modify _) => apply respects_modify; intros ?
  | |- respects _ (when _ _) => apply respects_when; [apply _|intros ?]
  | |- respects _ (for_each _ _) => apply respects_for_each; [apply _|intros ? _]
  | |- respects _ (match ?x with _ => _ end) => destruct x
  end.
Ltac respects_steps := repeat respects_step.

(** The same for [maintains]: what remains are the state changes, the calls and
    the methods that have lemmas of their own (in [maintains]). *)
Create HintDb maintains.
Ltac maintains_step :=
  lazymatch goal with
  | |- maintains _ _ (mbind _ _) => apply maintains_bind; [|intros ?]
  | |- maintains _ _ (mret _) => apply maintains_query, query_ret
  | |- maintains _ _ (gets _) => apply maintains_query, query_gets
  | |- maintains _ _ (lift _) => apply maintains_query, query_lift
  | |- maintains _ _ (throw _) => apply maintains_query, query_throw
  | |- maintains _ _ undefined => apply maintains_query, query_undefined
  | |- maintains _ _ (emit _) => apply maintains_emit
  | |- maintains _ _ (modify _) => apply maintains_modify; intros ? ?
  | |- maintains _ _ (when _ _) => apply maintains_when; intros ?
  | |- maintains _ _ (for_each _ _) => apply maintains_for_each; intros ? _
  | |- maintains _ _ (match ?x with _ => _ end) => destruct x
  end.
Ltac maintains_steps := repeat first [solve [auto with maintains nocore] | maintains_step].

(** Walking down a method for [safe]; what remains are the methods that have
    lemmas of their own (in [safe]) and the calls of other components. *)
Create HintDb safe.
Ltac safe_step :=
  lazymatch goal with
  | |- safe _ (mbind _ _) _ _ => apply safe_bind
  | |- safe _ (mret _) _ _ => apply safe_ret
  | |- safe _ (gets _) _ _ => apply safe_gets
  | |- safe _ (modify _) _ _ => apply safe_modify
  | |- safe _ (emit _) _ _ => apply safe_emit
  | |- safe _ (throw _) _ _ => apply safe_throw
  | |- safe _ (when _ _) _ _ => apply safe_when; intros ?
  end.
Ltac safe_steps := repeat safe_step.

(** The same for [answers]. *)
Create HintDb answers.
Ltac answers_step :=
  lazymatch goal with
  | |- answers _ _ (mbind _ _) => apply answers_bind; [|intros ?]
  | |- answers _ _ (mret _) => apply answers_ret
  | |- answers _ _ (gets _) => apply answers_gets
  | |- answers _ _ (emit _) => apply answers_emit
  | |- answers _ _ (modify _) => apply answers_modify; intros ? ?
  | |- answers _ _ (throw _) => apply answers_throw
  | |- answers _ _ (when _ _) => apply answers_when; intros ?
  | |- answers _ _ (for_each _ _) => apply answers_for_each; intros ? _
  | |- answers _ _ (match ?x with _ => _ end) => destruct x eqn:?
  end.
Ltac answers_steps := repeat first [solve [auto with answers nocore] | answers_step].

(** ** Machine integers

    [uint16_t], [uint32_t], [uint64_t] and [size_t] values are [N]s below their
    modulus; arithmetic that can leave the range wraps around. *)
Declare Scope swarm_scope.
Delimit Scope swarm_scope with swarm.

Definition u16 (n : N) : N := (n mod 2 ^ 16)%N.
Definition u32 (n : N) : N := (n mod 2 ^ 32)%N.
Definition u64 (n : N) : N := (n mod 2 ^ 64)%N.
Definition add64 (a b : N) : N := u64 (a + b).
Definition sub64 (a b : N) : N := u64 (a + 2 ^ 64 - b).
Definition mul64 (a b : N) : N := u64 (a * b).

Infix "+64" := add64 (at level 50, left associativity) : swarm_scope.
Infix "-64" := sub64 (at level 50, left associativity) : swarm_scope.
Infix "*64" := mul64 (at level 40, left associativity) : swarm_scope.

(** The conversion of a [size_t] to a protobuf [int32] field. *)
Definition to_int32 (n : N) : Z :=
  let m := Z.of_N (u32 n) in if (m <? 2 ^ 31)%Z then m else (m - 2 ^ 32)%Z.

(** [size()] of a sequence and of a [std::string]. *)
Definition lengthN {A} (l : list A) : N := N.of_nat (length l).
Definition strlen (s : string) : N := N.of_nat (String.length s).

Lemma u64_small n : (n < 2 ^ 64)%N → u64 n = n.
Proof. apply N.mod_small. Qed.
Lemma u32_small n : (n < 2 ^ 32)%N → u32 n = n.
Proof. apply N.mod_small. Qed.
Lemma u16_small n : (n < 2 ^ 16)%N → u16 n = n.
Proof. apply N.mod_small. Qed.
Lemma u16_bound n : (u16 n < 2 ^ 16)%N.
Proof. by apply N.mod_lt. Qed.
Lemma u64_bound n : (u64 n < 2 ^ 64)%N.
Proof. by apply N.mod_lt. Qed.

Lemma add64_small a b : (a + b < 2 ^ 64)%N → add64 a b = (a + b)%N.
Proof. apply u64_small. Qed.

Lemma sub64_small a b : (b ≤ a)%N → (a < 2 ^ 64)%N → sub64 a b = (a - b)%N.
Proof.
  intros Hb Ha. unfold sub64, u64.
  replace (a + 2 ^ 64 - b)%N with ((a - b) + 1 * 2 ^ 64)%N by lia.
  rewrite N.Div0.mod_add. apply N.mod_small. lia.
Qed.

Lemma lengthN_app {A} (l1 l2 : list A) : lengthN (l1 ++ l2) = (lengthN l1 + lengthN l2)%N.
Proof. unfold lengthN. rewrite length_app. lia. Qed.

#[export] Hint Rewrite @lengthN_app @length_app : run.

Lemma Forall_sublist {A} (P : A → Prop) l k : l `sublist_of` k → Forall P k → Forall P l.
Proof. induction 1; rewrite ?Forall_cons; naive_solver. Qed.

(** ** Decimal numbers in strings

    [std::to_string] of an unsigned integer is stdpp's [pretty]; the inverse,
    [boost::lexical_cast], accepts a non-empty string of digits whose value
    fits the type and throws [bad_lexical_cast] on every other string. *)
Definition to_string (n : N) : string := pretty n.

Definition digit_value (c : ascii) : option N :=
  let n := N_of_ascii c in
  if ((48 <=? n) && (n <=? 57))%N then Some (n - 48)%N else None.

Fixpoint digits_value (acc : N) (s : string) : option N :=
  match s with
  | EmptyString => Some acc
  | String c s => d ← digit_value c; digits_value (10 * acc + d)%N s
  end.

Definition lexical_cast_u64 (s : string) : option N :=
  match s with
  | EmptyString => None
  | _ => n ← digits_value 0 s; if (n <? 2 ^ 64)%N then Some n else None
  end.

Lemma digit_value_pretty (x : N) : (x < 10)%N → digit_value (pretty_N_char x) = Some x.
Proof.
  intros Hx. assert (x ∈ (N.of_nat <$> seq 0 10)) as Hin.
  { apply list_elem_of_fmap. exists (N.to_nat x). split; [lia|].
    apply elem_of_seq. lia. }
  clear Hx. revert x Hin. apply Forall_forall. by repeat constructor.
Qed.

Lemma digits_value_go (x acc : N) s :
  digits_value acc (pretty_N_go x s) =
  digits_value (acc * 10 ^ N.of_nat (String.length (pretty_N_go x ""))
                + x)%N s.
Proof.
  revert acc s. induction (N.lt_wf_0 x) as [x _ IH]. intros acc s.
  assert (x = 0 ∨ 0 < x)%N as [->|Hx] by lia.
  { rewrite !pretty_N_go_0. simpl. f_equal. lia. }
  rewrite (pretty_N_go_step x s), (pretty_N_go_step x "") by done.
  assert (x `div` 10 < x)%N as Hlt by (apply N.div_lt; lia).
  assert (∀ y t, String.length (pretty_N_go y t)
             = String.length (pretty_N_go y "") + String.length t) as Hlen.
  { clear. intros y. induction (N.lt_wf_0 y) as [y _ IH]. intros t.
    assert (y = 0 ∨ 0 < y)%N as [->|Hy] by lia; [by rewrite !pretty_N_go_0|].
    rewrite (pretty_N_go_step y t), (pretty_N_go_step y "") by done.
    assert (y `div` 10 < y)%N as Hlt by (apply N.div_lt; lia).
    rewrite (IH _ Hlt (String _ t)), (IH _ Hlt (String _ _)). simpl. lia. }
  rewrite (IH _ Hlt). simpl.
  rewrite digit_value_pretty by (by apply N.mod_lt). simpl.
  f_equal. rewrite (Hlen _ (String _ _)). simpl.
  rewrite Nat.add_1_r, Nat2N.inj_succ, N.pow_succ_r by lia.
  pose proof (N.div_mod x 10 ltac:(done)). nia.
Qed.

Lemma pretty_nonempty (n : N) : ∃ c s, pretty n = String c s.
Proof.
  unfold pretty, pretty_N. case_decide as Hn; [by eexists _, _|].
  assert (∀ x s, (s ≠ "" ∨ 0 < x)%N → ∃ c t, pretty_N_go x s = String c t) as H.
  { intros x. induction (N.lt_wf_0 x) as [x _ IH]. intros s Hs.
    assert (x = 0 ∨ 0 < x)%N as [->|Hx] by lia.
    - rewrite pretty_N_go_0. destruct s; [naive_solver lia|by eexists _, _].
    - rewrite pretty_N_go_step by done. apply IH; [by apply N.div_lt; lia|by left]. }
  apply H. right. lia.
Qed.

Lemma digits_value_to_string (n : N) : digits_value 0 (to_string n) = Some n.
Proof.
  unfold to_string, pretty, pretty_N. case_decide as Hz; [by subst|]. by rewrite digits_value_go.
Qed.

(** A [uint64_t] has at most twenty digits. *)
Lemma pretty_N_go_length (k : nat) (x : N) s :
  (x < 10 ^ N.of_nat k)%N → String.length (pretty_N_go x s) ≤ k + String.length s.
Proof.
  revert x s. induction k as [|k IH]; intros x s Hx.
  { assert (x = 0%N) as -> by (simpl in Hx; lia). by rewrite pretty_N_go_0. }
  destruct (decide (x = 0%N)) as [->|Hz]; [rewrite pretty_N_go_0; lia|].
  rewrite pretty_N_go_step by lia. etrans; [apply IH|simpl; lia].
  rewrite Nat2N.inj_succ, N.pow_succ_r in Hx by lia. apply N.Div0.div_lt_upper_bound. lia.
Qed.

Lemma strlen_to_string (n : N) : (n < 2 ^ 64)%N → (strlen (to_string n) ≤ 20)%N.
Proof.
  intros Hn. unfold to_string, pretty, pretty_N, strlen. case_decide; [done|].
  pose proof (pretty_N_go_length 20 n "") as Hl. simpl in Hl. specialize (Hl ltac:(lia)). lia.
Qed.

(** [lexical_cast<uint64_t>(std::to_string(n))] is [n]. *)
Lemma lexical_cast_to_string (n : N) :
  (n < 2 ^ 64)%N → lexical_cast_u64 (to_string n) = Some n.
Proof.
  intros Hn. pose proof (digits_value_to_string n) as Hd. unfold lexical_cast_u64.
  destruct (pretty_nonempty n) as (c & s & Hp). unfold to_string in *. rewrite Hp in *.
  rewrite Hd. simpl. by rewrite (proj2 (N.ltb_lt _ _) Hn).
Qed.

Lemma to_string_inj (m n : N) : to_string m = to_string n → m = n.
Proof. apply (inj pretty). Qed.

(** ** Concatenation of strings *)

Lemma string_app_assoc (s t r : string) : ((s ++ t) ++ r = s ++ (t ++ r))%string.
Proof. induction s as [|c s IH]; [done|]. change (String c ((s ++ t) ++ r) = String c (s ++ (t ++ r))). by rewrite IH. Qed.

Lemma string_app_nil_r (s : string) : (s ++ "" = s)%string.
Proof. induction s as [|c s IH]; [done|]. change (String c (s ++ "") = String c s). by rewrite IH. Qed.

Lemma strlen_app (s t : string) : strlen (s ++ t) = (strlen s + strlen t)%N.
Proof.
  unfold strlen. induction s as [|c s IH]; [done|]. change (String c s ++ t)%string with (String c (s ++ t)).
  cbn [String.length]. lia.
Qed.

(** ** The order of strings

    [std::string::operator<] compares byte by byte. *)

Fixpoint string_ltb (s t : string) : bool :=
  match s, t with
  | _, EmptyString => false
  | EmptyString, String _ _ => true
  | String a s, String b t =>
      let x := N_of_ascii a in let y := N_of_ascii b in
      (x <? y)%N || ((x =? y)%N && string_ltb s t)
  end.

Lemma string_ltb_irrefl s : string_ltb s s = false.
Proof.
  induction s as [|a s IH]; [done|]. simpl. rewrite IH, N.ltb_irrefl. by rewrite andb_false_r.
Qed.

Lemma string_ltb_trans s t r :
  string_ltb s t = true → string_ltb t r = true → string_ltb s r = true.
Proof.
  revert t r. induction s as [|a s IH]; intros [|b t] [|c r]; simpl; try done.
  rewrite !orb_true_iff, !andb_true_iff, !N.ltb_lt, !N.eqb_eq.
  intros [?|[? ?]] [?|[? ?]]; try (left; lia). right. split; [lia|]. by eapply IH.
Qed.

Lemma N_of_ascii_inj a b : N_of_ascii a = N_of_ascii b → a = b.
Proof. intros E. by rewrite <-(ascii_N_embedding a), <-(ascii_N_embedding b), E. Qed.

Lemma string_ltb_total s t : string_ltb s t = true ∨ s = t ∨ string_ltb t s = true.
Proof.
  revert t. induction s as [|a s IH]; intros [|b t]; simpl; auto.
  rewrite !orb_true_iff, !andb_true_iff, !N.ltb_lt, !N.eqb_eq.
  destruct (N.lt_trichotomy (N_of_ascii a) (N_of_ascii b)) as [?|[E|?]]; [auto| |auto].
  destruct (IH t) as [?|[->|?]]; [auto|rewrite (N_of_ascii_inj _ _ E); auto|auto].
Qed.

(** Not greater: the order a sorted sequence of strings is in. *)
Definition string_le (s t : string) : Prop := string_ltb t s = false.

#[export] Instance string_le_dec s t : Decision (string_le s t).
Proof. unfold string_le. apply _. Defined.

#[export] Instance string_le_total : Total string_le.
Proof.
  intros s t. unfold string_le.
  destruct (string_ltb t s) eqn:E1; [|by left]. destruct (string_ltb s t) eqn:E2; [|by right].
  pose proof (string_ltb_trans _ _ _ E1 E2) as H. by rewrite string_ltb_irrefl in H.
Qed.

#[export] Instance string_le_trans : Transitive string_le.
Proof.
  intros s t r Hst Htr. unfold string_le in *.
  destruct (string_ltb r s) eqn:E; [|done].
  destruct (string_ltb_total s t) as [H|[->|H]]; [|congruence..].
  pose proof (string_ltb_trans _ _ _ E H). congruence.
Qed.

#[export] Instance string_le_antisymm : AntiSymm (=) string_le.
Proof.
  intros s t. unfold string_le. destruct (string_ltb_total s t) as [?|[?|?]]; congruence.
Qed.

(** ** Sizes of sets *)
Section Sizes.
Context `{Countable A}.
Implicit Types X Y : gset A.

Lemma size_without X Y : size X ≤ size (X ∖ Y) + size Y.
Proof.
  rewrite <-size_union by set_solver. apply subseteq_size. intros x Hx. destruct (decide (x ∈ Y)); set_solver.
Qed.

Lemma size_list_to_set_le (l : list A) : size (list_to_set l : gset A) ≤ length l.
Proof.
  induction l as [|x l IH]; simpl; [done|]. rewrite size_union_alt, size_singleton.
  assert (size (list_to_set l ∖ {[x]} : gset A) ≤ size (list_to_set l : gset A)) by (apply subseteq_size; set_solver).
  lia.
Qed.
End Sizes.
