(* ===== verification/Messages.v ===== *)
(** * The data the components exchange

    Peer addresses ([bootstrap/peer_address.hpp]) and the protobuf messages of
    [proto/].  A protobuf message is the record of what its generated accessors
    return: an unset scalar field holds its default value, a [oneof] is an
    inductive type with a constructor for "not set".  Byte strings are
    [string]s, [uint64] and [uint32] fields are [N]s. *)

From S2P Require Import Prelude.

Abbreviation uuid_t := string (only parsing).
Abbreviation hash_t := string (only parsing).
Abbreviation key_t := string (only parsing).
Abbreviation value_t := string (only parsing).
Abbreviation session_id := N (only parsing).

(** ** Peer addresses *)

Record peer_address_t := Peer {
  host : string;
  port : N;
  http_port : N;
  name : string;
  uuid : uuid_t
}.

#[export] Instance peer_address_eq_dec : EqDecision peer_address_t.
Proof. solve_decision. Defined.

(** [peer_address_t::operator==]: the name is not compared. *)
Definition peer_eqb (this other : peer_address_t) : bool :=
  bool_decide (host this = host other) && (port this =? port other)%N
  && (http_port this =? http_port other)%N && bool_decide (uuid this = uuid other).

(** A [std::unordered_set<peer_address_t>] is the list of its elements in
    iteration order (which C++ leaves open); membership is by [operator==]. *)
Definition set_find (p : peer_address_t) (s : list peer_address_t) : option peer_address_t :=
  List.find (peer_eqb p) s.
Definition set_contains (p : peer_address_t) (s : list peer_address_t) : bool :=
  existsb (peer_eqb p) s.
Definition set_insert (p : peer_address_t) (s : list peer_address_t) : list peer_address_t :=
  if set_contains p s then s else s ++ [p].
Fixpoint set_erase (p : peer_address_t) (s : list peer_address_t) : list peer_address_t :=
  match s with
  | [] => []
  | q :: s => if peer_eqb p q then s else q :: set_erase p s
  end.

Lemma peer_eqb_spec p q :
  peer_eqb p q = true ↔
  host p = host q ∧ port p = port q ∧ http_port p = http_port q ∧ uuid p = uuid q.
Proof.
  unfold peer_eqb. rewrite !andb_true_iff, !bool_decide_eq_true, !N.eqb_eq. tauto.
Qed.

Lemma peer_eqb_refl p : peer_eqb p p = true.
Proof. by apply peer_eqb_spec. Qed.

Lemma peer_eqb_sym p q : peer_eqb p q = peer_eqb q p.
Proof. apply eq_true_iff_eq. rewrite !peer_eqb_spec. naive_solver. Qed.

Lemma peer_eqb_trans p q r : peer_eqb p q = true → peer_eqb q r = true → peer_eqb p r = true.
Proof. rewrite !peer_eqb_spec. naive_solver congruence. Qed.

Lemma set_contains_spec p s :
  set_contains p s = true ↔ ∃ q, q ∈ s ∧ peer_eqb p q = true.
Proof.
  unfold set_contains. rewrite existsb_exists.
  by setoid_rewrite list_elem_of_In.
Qed.

(** ** Database messages ([proto/database.proto]) *)

Record database_header := DbHeader { db_uuid : uuid_t; transaction_id : N }.

Inductive database_op :=
| DbNotSet
| DbCreate (key : key_t) (value : value_t)
| DbRead (key : key_t)
| DbUpdate (key : key_t) (value : value_t)
| DbDelete (key : key_t)
| DbHas (key : key_t)
| DbKeys
| DbSize
| DbSubscribe (key : key_t)
| DbUnsubscribe (key : key_t) (subscription : N).

Record database_msg := DbMsg { header : database_header; msg : database_op }.

Inductive operation_type := UPDATE | DELETE.

Record redirect_info := Redirect {
  leader_id : uuid_t; leader_name : string; leader_host : string;
  leader_port : N; leader_http_port : N
}.

Inductive database_result :=
| RespNotSet
| RespRedirect (r : redirect_info)
| RespSubscriptionUpdate (key : key_t) (value : value_t) (operation : operation_type)
| RespRead (key : key_t) (value : value_t)
| RespHas (key : key_t) (has : bool)
| RespKeys (keys : list key_t)
| RespSize (bytes : Z) (keys : Z)
| RespError (message : string).

Record database_response := DbResponse {
  resp_header : database_header; response : database_result
}.

Definition default_header : database_header := DbHeader "" 0.
Definition default_response : database_response := DbResponse default_header RespNotSet.

(** [*response.mutable_header() = h] and [response.mutable_error()->set_message(m)]:
    setting a member of the [oneof] drops the one that was set. *)
Definition set_header (h : database_header) (r : database_response) : database_response :=
  DbResponse h (response r).
Definition set_response (x : database_result) (r : database_response) : database_response :=
  DbResponse (resp_header r) x.
Definition set_error (m : string) : database_response → database_response :=
  set_response (RespError m).

#[export] Instance database_header_eq_dec : EqDecision database_header.
Proof. solve_decision. Defined.
#[export] Instance database_op_eq_dec : EqDecision database_op.
Proof. solve_decision. Defined.
#[export] Instance database_msg_eq_dec : EqDecision database_msg.
Proof. solve_decision. Defined.

(** ** PBFT messages ([proto/pbft.proto]) *)

Inductive pbft_request_type := PBFT_REQ_UNDEFINED | PBFT_REQ_DATABASE | PBFT_REQ_NEW_CONFIG.

(** The [oneof] of a request: [config] holds [pbft_config_msg::configuration]. *)
Inductive pbft_request_body :=
| ReqNotSet
| ReqOperation (operation : database_msg)
| ReqConfig (configuration : string).

Record pbft_request := PbftRequest {
  req_type : pbft_request_type;
  req_msg : pbft_request_body;
  req_timestamp : N;
  req_client : string
}.

Definition default_request : pbft_request := PbftRequest PBFT_REQ_UNDEFINED ReqNotSet 0 "".

#[export] Instance pbft_request_type_eq_dec : EqDecision pbft_request_type.
Proof. solve_decision. Defined.
#[export] Instance pbft_request_body_eq_dec : EqDecision pbft_request_body.
Proof. solve_decision. Defined.
#[export] Instance pbft_request_eq_dec : EqDecision pbft_request.
Proof. solve_decision. Defined.

(** [request.operation()], [request.has_config()] and
    [request.config().configuration()]. *)
Definition req_operation (r : pbft_request) : database_msg :=
  match req_msg r with
  | ReqOperation m => m
  | _ => DbMsg default_header DbNotSet
  end.
Definition has_config (r : pbft_request) : bool :=
  match req_msg r with ReqConfig _ => true | _ => false end.
Definition req_configuration (r : pbft_request) : string :=
  match req_msg r with ReqConfig c => c | _ => "" end.

Inductive pbft_msg_type :=
| PBFT_MSG_UNDEFINED | PBFT_MSG_PREPREPARE | PBFT_MSG_PREPARE
| PBFT_MSG_COMMIT | PBFT_MSG_CHECKPOINT.

#[export] Instance pbft_msg_type_eq_dec : EqDecision pbft_msg_type.
Proof. solve_decision. Defined.

(** [pm_request] is [None] when the field is not present ([has_request()]). *)
Record pbft_msg := PbftMsg {
  pm_type : pbft_msg_type;
  pm_view : N;
  pm_sequence : N;
  pm_request : option pbft_request;
  pm_state_hash : hash_t
}.

#[export] Instance pbft_msg_eq_dec : EqDecision pbft_msg.
Proof. solve_decision. Defined.

Definition get_request (m : pbft_msg) : pbft_request := default default_request (pm_request m).
Definition has_request (m : pbft_msg) : bool := bool_decide (is_Some (pm_request m)).

Inductive pbft_membership_msg_type := PBFT_MMSG_UNDEFINED | PBFT_MMSG_JOIN | PBFT_MMSG_LEAVE.

Record pbft_peer_info := PeerInfo {
  pi_host : string; pi_port : N; pi_http_port : N; pi_name : string; pi_uuid : uuid_t
}.

Record pbft_membership_msg := MembershipMsg {
  mm_type : pbft_membership_msg_type;
  mm_peer_info : option pbft_peer_info
}.

(** ** Audit messages ([proto/audit.proto]) *)

Record leader_status := LeaderStatus {
  ls_term : N; ls_leader : uuid_t; ls_current_log_index : N; ls_current_commit_index : N
}.
Record raft_commit_notification := RaftCommit {
  rc_sender_uuid : uuid_t; rc_log_index : N; rc_operation : string
}.
Record primary_status := PrimaryStatus { ps_view : N; ps_primary : uuid_t }.
Record pbft_commit_notification := PbftCommit {
  pc_sender_uuid : uuid_t; pc_sequence_number : N; pc_operation : string
}.
Record failure_detected := FailureDetected { fd_sender_uuid : uuid_t }.

Inductive audit_message :=
| AuditNotSet
| AuditRaftCommit (m : raft_commit_notification)
| AuditLeaderStatus (m : leader_status)
| AuditPbftCommit (m : pbft_commit_notification)
| AuditPrimaryStatus (m : primary_status)
| AuditFailureDetected (m : failure_detected).

(** ** Envelopes ([proto/bluzelle.proto]) *)

Inductive payload_case :=
| PAYLOAD_NOT_SET | kPbftRequest | kDatabaseResponse | kJson | kAudit
| kPbft | kPbftMembership | kStatusRequest.

#[export] Instance payload_case_eq_dec : EqDecision payload_case.
Proof. solve_decision. Defined.

Record bzn_envelope := Envelope {
  sender : uuid_t;
  signature : string;
  env_case : payload_case;
  payload : string
}.

#[export] Instance bzn_envelope_eq_dec : EqDecision bzn_envelope.
Proof. solve_decision. Defined.

(** [msg.pbft()] and [msg.pbft_membership()]: the bytes when the [oneof] holds
    that member, the empty string otherwise. *)
Definition payload_of (c : payload_case) (m : bzn_envelope) : string :=
  if decide (env_case m = c) then payload m else "".

(** [bzn_msg]: [msg.db()] of a message without a database message is the default. *)
Inductive bzn_msg := BznNotSet | BznDb (db : database_msg) | BznJson (json : string).

#[export] Instance bzn_msg_eq_dec : EqDecision bzn_msg.
Proof. solve_decision. Defined.

Definition bzn_msg_db (m : bzn_msg) : database_msg :=
  match m with BznDb db => db | _ => DbMsg default_header DbNotSet end.

(** ** Boost: addresses and base64

    [address_v4::from_string] throws on a string that is not an IPv4 address;
    [base64_encode] and [base64_decode] work on any string. *)
Class Boost := {
  address_v4_from_string : string → option N;
  base64_encode : string → string;
  base64_decode : string → string
}.

Record endpoint := Endpoint { ep_address : N; ep_port : N }.

#[export] Instance endpoint_eq_dec : EqDecision endpoint.
Proof. solve_decision. Defined.

(** [utils/make_endpoint.cpp]. *)
Definition make_endpoint `{!Boost} (peer : peer_address_t) : result endpoint :=
  match address_v4_from_string (host peer) with
  | Some a => Ok (Endpoint a (port peer))
  | None => Throw "Invalid argument"
  end.

Lemma make_endpoint_throws `{!Boost} (E : string → Prop) p : E "Invalid argument"%string → throws_only E (make_endpoint p).
Proof. intros HE. unfold make_endpoint. by destruct (address_v4_from_string _). Qed.

(** ** Serialization

    [SerializeAsString] and [ParseFromString] of a message type are protobuf's
    generated code.  A field of type [string] must hold UTF-8: a message with another
    string is serialized, but does not parse. *)

(** UTF-8: no overlong form, no surrogate, nothing above U+10FFFF. *)
Definition continuation (c : ascii) : bool := let b := N_of_ascii c in (128 <=? b)%N && (b <=? 191)%N.
Definition second_of_three (b : N) (c : ascii) : bool :=
  continuation c && (negb (b =? 224) || (160 <=? N_of_ascii c))%N && (negb (b =? 237) || (N_of_ascii c <=? 159))%N.
Definition second_of_four (b : N) (c : ascii) : bool :=
  continuation c && (negb (b =? 240) || (144 <=? N_of_ascii c))%N && (negb (b =? 244) || (N_of_ascii c <=? 143))%N.

Fixpoint utf8 (s : string) : bool :=
  match s with
  | EmptyString => true
  | String c s1 =>
      let b := N_of_ascii c in
      if (b <? 128)%N then utf8 s1
      else match s1 with
           | EmptyString => false
           | String c1 s2 =>
               if (194 <=? b)%N && (b <=? 223)%N then continuation c1 && utf8 s2
               else match s2 with
                    | EmptyString => false
                    | String c2 s3 =>
                        if (224 <=? b)%N && (b <=? 239)%N then second_of_three b c1 && continuation c2 && utf8 s3
                        else match s3 with
                             | EmptyString => false
                             | String c3 s4 =>
                                 (240 <=? b)%N && (b <=? 244)%N && second_of_four b c1 && continuation c2 &&
                                 continuation c3 && utf8 s4
                             end
                    end
           end
  end.

Example utf8_samples :
  utf8 "key" = true ∧
  utf8 (String "195" (String "169" "")) = true ∧                                     (* é *)
  utf8 (String "226" (String "130" (String "172" ""))) = true ∧                      (* the euro sign *)
  utf8 (String "240" (String "159" (String "152" (String "128" "")))) = true ∧       (* U+1F600 *)
  utf8 (String "255" "") = false ∧ utf8 (String "192" (String "175" "")) = false ∧   (* overlong *)
  utf8 (String "237" (String "160" (String "128" ""))) = false.                      (* a surrogate *)
Proof. by vm_compute. Qed.

(** The messages that parse back: their [string] fields are UTF-8 (a [bytes] field
    holds anything), and their numbers fit their fields. *)
Class WellFormed (A : Type) := well_formed : A → bool.

Definition fits_uint64 (n : N) : bool := (n <? 2 ^ 64)%N.

#[export] Instance wf_database_msg : WellFormed database_msg := λ m,
  utf8 (db_uuid (header m)) && fits_uint64 (transaction_id (header m)) &&
  match msg m with
  | DbNotSet | DbKeys | DbSize => true
  | DbCreate k _ | DbUpdate k _ | DbRead k | DbDelete k | DbHas k | DbSubscribe k => utf8 k
  | DbUnsubscribe k n => utf8 k && fits_uint64 n
  end.

#[export] Instance wf_pbft_request : WellFormed pbft_request := λ r,
  match req_msg r with
  | ReqNotSet => true
  | ReqOperation m => well_formed m
  | ReqConfig c => utf8 c
  end && fits_uint64 (req_timestamp r) && utf8 (req_client r).

#[export] Instance wf_pbft_msg : WellFormed pbft_msg := λ m,
  fits_uint64 (pm_view m) && fits_uint64 (pm_sequence m) &&
  match pm_request m with Some r => well_formed r | None => true end && utf8 (pm_state_hash m).

#[export] Instance wf_bzn_msg : WellFormed bzn_msg := λ m,
  match m with BznNotSet => true | BznDb db => well_formed db | BznJson json => utf8 json end.

(** Every member of the [oneof] is of type [bytes]; without one there is no payload. *)
#[export] Instance wf_bzn_envelope : WellFormed bzn_envelope := λ e,
  utf8 (sender e) && match env_case e with PAYLOAD_NOT_SET => bool_decide (payload e = ""%string) | _ => true end.

Class Message (A : Type) := {
  SerializeAsString : A → string;
  ParseFromString : string → option A
}.

(** What is serialized parses back when it is well formed, and never as anything else
    (protobuf's limit of 2 GB for a message is left aside, like memory). *)
Class MessageLaws (A : Type) `{!Message A, !WellFormed A} : Prop := {
  parse_serialize (a : A) : well_formed a = true → ParseFromString (SerializeAsString a) = Some a;
  parse_serialized (a b : A) : ParseFromString (SerializeAsString a) = Some b → b = a
}.

(** A concrete codec for countable message types: the number that encodes the
    message, in decimal. *)
Definition countable_message (A : Type) `{Countable A} : Message A := {|
  SerializeAsString a := to_string (Npos (encode a));
  ParseFromString s := n ← digits_value 0 s; match n with Npos p => decode p | N0 => None end
|}.

(** A codec that parses back more than protobuf does. *)
Lemma round_trip_laws `{Message A, WellFormed A} :
  (∀ a : A, ParseFromString (SerializeAsString a) = Some a) → MessageLaws A.
Proof. intros Hp. split; [auto|]. intros a b. rewrite Hp. congruence. Qed.

Lemma countable_message_laws (A : Type) `{Countable A, WellFormed A} : MessageLaws A (Message0 := countable_message A).
Proof. apply round_trip_laws. intros a. simpl. by rewrite digits_value_to_string; simpl; rewrite decode_encode. Qed.

#[export] Instance database_op_countable : Countable database_op.
Proof.
  refine (inj_countable'
    (λ o, match o with
          | DbNotSet => (0, "", "", 0%N) | DbCreate k v => (1, k, v, 0%N) | DbRead k => (2, k, "", 0%N)
          | DbUpdate k v => (3, k, v, 0%N) | DbDelete k => (4, k, "", 0%N) | DbHas k => (5, k, "", 0%N)
          | DbKeys => (6, "", "", 0%N) | DbSize => (7, "", "", 0%N) | DbSubscribe k => (8, k, "", 0%N)
          | DbUnsubscribe k n => (9, k, "", n)
          end)
    (λ x, match x with
          | (1, k, v, _) => DbCreate k v | (2, k, _, _) => DbRead k
          | (3, k, v, _) => DbUpdate k v | (4, k, _, _) => DbDelete k | (5, k, _, _) => DbHas k
          | (6, _, _, _) => DbKeys | (7, _, _, _) => DbSize | (8, k, _, _) => DbSubscribe k
          | (9, k, _, n) => DbUnsubscribe k n | _ => DbNotSet
          end) _).
  by intros [].
Defined.

#[export] Instance pbft_request_countable : Countable pbft_request.
Proof.
  refine (inj_countable'
    (λ r, (match req_type r with PBFT_REQ_UNDEFINED => 0 | PBFT_REQ_DATABASE => 1 | PBFT_REQ_NEW_CONFIG => 2 end,
           match req_msg r with
           | ReqNotSet => inl None
           | ReqOperation m => inl (Some (db_uuid (header m), transaction_id (header m), msg m))
           | ReqConfig c => inr c
           end, req_timestamp r, req_client r))
    (λ x, let '(t, m, n, c) := x in
      PbftRequest (match t with 0 => PBFT_REQ_UNDEFINED | 1 => PBFT_REQ_DATABASE | _ => PBFT_REQ_NEW_CONFIG end)
        (match m with
         | inl None => ReqNotSet
         | inl (Some (u, i, o)) => ReqOperation (DbMsg (DbHeader u i) o)
         | inr s => ReqConfig s
         end) n c) _).
  by intros [[] [|[[] ?]|] ? ?].
Defined.

#[export] Instance pbft_msg_countable : Countable pbft_msg.
Proof.
  refine (inj_countable'
    (λ m, (match pm_type m with
           | PBFT_MSG_UNDEFINED => 0 | PBFT_MSG_PREPREPARE => 1 | PBFT_MSG_PREPARE => 2
           | PBFT_MSG_COMMIT => 3 | PBFT_MSG_CHECKPOINT => 4 end,
           pm_view m, pm_sequence m, pm_request m, pm_state_hash m))
    (λ x, let '(t, v, n, r, h) := x in
      PbftMsg (match t with
               | 0 => PBFT_MSG_UNDEFINED | 1 => PBFT_MSG_PREPREPARE | 2 => PBFT_MSG_PREPARE
               | 3 => PBFT_MSG_COMMIT | _ => PBFT_MSG_CHECKPOINT end) v n r h) _).
  by intros [[] ? ? ? ?].
Defined.

#[export] Instance bzn_msg_countable : Countable bzn_msg.
Proof.
  refine (inj_countable'
    (λ m, match m with
          | BznNotSet => inl None
          | BznDb d => inl (Some (db_uuid (header d), transaction_id (header d), msg d))
          | BznJson j => inr j
          end)
    (λ x, match x with
          | inl None => BznNotSet
          | inl (Some (u, i, o)) => BznDb (DbMsg (DbHeader u i) o)
          | inr j => BznJson j
          end) _).
  by intros [|[[]]|].
Defined.

#[export] Instance bzn_envelope_countable : Countable bzn_envelope.
Proof.
  refine (inj_countable'
    (λ e, (sender e, signature e, match env_case e with
           | PAYLOAD_NOT_SET => 0 | kPbftRequest => 1 | kDatabaseResponse => 2 | kJson => 3 | kAudit => 4
           | kPbft => 5 | kPbftMembership => 6 | kStatusRequest => 7 end, payload e))
    (λ x, let '(u, s, c, p) := x in
      Envelope u s (match c with
                    | 0 => PAYLOAD_NOT_SET | 1 => kPbftRequest | 2 => kDatabaseResponse | 3 => kJson | 4 => kAudit
                    | 5 => kPbft | 6 => kPbftMembership | _ => kStatusRequest end) p) _).
  by intros [? ? [] ?].
Defined.
