(* ===== verification/Storage.v ===== *)
(** * Storage: the interface, its abstract specification and [mem_storage]

    [storage/storage_base.hpp] is the interface every store offers to CRUD and
    to the PBFT service; [storage_spec] states what it promises over one map
    from (database, key) to value, and [StorageRefines] is the simulation that
    an implementation has to discharge.  [mem_storage] models
    [storage/mem_storage.cpp]. *)

From S2P Require Import Prelude Messages.

(** ** The interface *)
Module storage_base.

Definition MAX_KEY_SIZE : N := 4096.
Definition MAX_VALUE_SIZE : N := 256000.

Inductive storage_result :=
| ok | not_found | exists_ | not_saved | value_too_large | key_too_large.

#[global] Instance storage_result_eq_dec : EqDecision storage_result.
Proof. solve_decision. Defined.

(** The virtual methods of [storage_base]; the writers return the new store. *)
Class Storage (S : Type) := {
  create : uuid_t → key_t → value_t → S → storage_result * S;
  read : uuid_t → key_t → S → option value_t;
  update : uuid_t → key_t → value_t → S → storage_result * S;
  remove : uuid_t → key_t → S → storage_result * S;
  get_keys : uuid_t → S → list key_t;
  has : uuid_t → key_t → S → bool;
  get_size : uuid_t → S → N * N
}.

End storage_base.

(** ** The abstract specification: one map from (database, key) to value *)
Module storage_spec.
Import storage_base.

Abbreviation contents := (gmap (uuid_t * key_t) value_t).

Definition create (u : uuid_t) (k : key_t) (v : value_t) (m : contents) : storage_result * contents :=
  if (MAX_VALUE_SIZE <? strlen v)%N then (value_too_large, m)
  else if (MAX_KEY_SIZE <? strlen k)%N then (key_too_large, m)
  else match m !! (u, k) with
       | Some _ => (exists_, m)
       | None => (ok, <[(u, k) := v]> m)
       end.

Definition update (u : uuid_t) (k : key_t) (v : value_t) (m : contents) : storage_result * contents :=
  if (MAX_VALUE_SIZE <? strlen v)%N then (value_too_large, m)
  else match m !! (u, k) with
       | Some _ => (ok, <[(u, k) := v]> m)
       | None => (not_found, m)
       end.

Definition remove (u : uuid_t) (k : key_t) (m : contents) : storage_result * contents :=
  match m !! (u, k) with
  | Some _ => (ok, delete (u, k) m)
  | None => (not_found, m)
  end.

(** Every stored value obeys the size limits. *)
Definition within_limits (m : contents) : Prop :=
  map_Forall (λ uk v, strlen v ≤ MAX_VALUE_SIZE ∧ strlen uk.2 ≤ MAX_KEY_SIZE)%N m.

Lemma create_within_limits u k v m :
  within_limits m → within_limits (create u k v m).2.
Proof.
  intros Hm. unfold create. destruct (N.ltb_spec MAX_VALUE_SIZE (strlen v)); [done|].
  destruct (N.ltb_spec MAX_KEY_SIZE (strlen k)); [done|].
  destruct (m !! (u, k)); [done|]. by apply map_Forall_insert_2.
Qed.

Lemma update_within_limits u k v m :
  within_limits m → within_limits (update u k v m).2.
Proof.
  intros Hm. unfold update. destruct (N.ltb_spec MAX_VALUE_SIZE (strlen v)); [done|].
  destruct (m !! (u, k)) eqn:E; [|done].
  apply map_Forall_insert_2; [|done]. split; [done|]. by apply (Hm _ _ E).
Qed.

Lemma remove_within_limits u k m :
  within_limits m → within_limits (remove u k m).2.
Proof. intros Hm. unfold remove. destruct (m !! _); [by apply map_Forall_delete|done]. Qed.

End storage_spec.

(** ** What an implementation has to show

    [valid_uuid] restricts the database names the claim is about.  A failed
    write of the underlying engine is reported as [not_saved] (or, by
    [remove], as [not_found]) and is left out of the simulation. *)
Class StorageRefines (S : Type) `{!storage_base.Storage S}
    (valid_uuid : uuid_t → Prop) (wf : S → Prop)
    (R : S → storage_spec.contents → Prop) : Prop := {
  refines_read s m u k :
    wf s → R s m → valid_uuid u → storage_base.read u k s = m !! (u, k);
  refines_has s m u k :
    wf s → R s m → valid_uuid u →
    storage_base.has u k s = bool_decide (is_Some (m !! (u, k)));
  refines_keys s m u :
    wf s → R s m → valid_uuid u →
    NoDup (storage_base.get_keys u s) ∧
    (∀ k, k ∈ storage_base.get_keys u s ↔ is_Some (m !! (u, k)));
  refines_size s m u :
    wf s → R s m → valid_uuid u →
    storage_base.get_size u s =
    (u64 (lengthN (storage_base.get_keys u s)),
     u64 (foldr N.add 0%N ((λ k, strlen (default "" (m !! (u, k)))) <$> storage_base.get_keys u s)));
  refines_create s m u k v :
    wf s → R s m → valid_uuid u →
    let '(r, s') := storage_base.create u k v s in
    let '(r', m') := storage_spec.create u k v m in
    wf s' ∧ (r = storage_base.not_saved ∨ r = r' ∧ R s' m');
  refines_update s m u k v :
    wf s → R s m → valid_uuid u →
    let '(r, s') := storage_base.update u k v s in
    let '(r', m') := storage_spec.update u k v m in
    wf s' ∧ (r = storage_base.not_saved ∨ r = r' ∧ R s' m');
  refines_remove s m u k :
    wf s → R s m → valid_uuid u →
    let '(r, s') := storage_base.remove u k s in
    let '(r', m') := storage_spec.remove u k m in
    wf s' ∧ (r = storage_base.not_found ∧ r' = storage_base.ok ∨ r = r' ∧ R s' m')
}.

(** The engine below the store does not refuse writes. *)
Class ReliableStorage (S : Type) `{!storage_base.Storage S} (valid_uuid : uuid_t → Prop) : Prop := {
  create_saved u k v s : valid_uuid u → (storage_base.create u k v s).1 ≠ storage_base.not_saved;
  update_saved u k v s : valid_uuid u → (storage_base.update u k v s).1 ≠ storage_base.not_saved;
  remove_done u k s : valid_uuid u →
    storage_base.has u k s = true → (storage_base.remove u k s).1 = storage_base.ok
}.

(** ** Clients: sequences of calls and what they are answered *)
Module storage_client.

Inductive call :=
| Create (u : uuid_t) (k : key_t) (v : value_t)
| Read (u : uuid_t) (k : key_t)
| Update (u : uuid_t) (k : key_t) (v : value_t)
| Remove (u : uuid_t) (k : key_t)
| Has (u : uuid_t) (k : key_t).

Definition call_uuid (c : call) : uuid_t :=
  match c with
  | Create u _ _ | Read u _ | Update u _ _ | Remove u _ | Has u _ => u
  end.

Inductive answer :=
| Code (r : storage_base.storage_result) | Value (v : option value_t) | Found (b : bool).

Definition perform {S} `{!storage_base.Storage S} (c : call) (s : S) : answer * S :=
  match c with
  | Create u k v => let '(r, s) := storage_base.create u k v s in (Code r, s)
  | Read u k => (Value (storage_base.read u k s), s)
  | Update u k v => let '(r, s) := storage_base.update u k v s in (Code r, s)
  | Remove u k => let '(r, s) := storage_base.remove u k s in (Code r, s)
  | Has u k => (Found (storage_base.has u k s), s)
  end.

Definition perform_spec (c : call) (m : storage_spec.contents) : answer * storage_spec.contents :=
  match c with
  | Create u k v => let '(r, m) := storage_spec.create u k v m in (Code r, m)
  | Read u k => (Value (m !! (u, k)), m)
  | Update u k v => let '(r, m) := storage_spec.update u k v m in (Code r, m)
  | Remove u k => let '(r, m) := storage_spec.remove u k m in (Code r, m)
  | Has u k => (Found (bool_decide (is_Some (m !! (u, k)))), m)
  end.

Fixpoint trace {S} (step : call → S → answer * S) (cs : list call) (s : S) : list answer :=
  match cs with
  | [] => []
  | c :: cs => let '(a, s) := step c s in a :: trace step cs s
  end.

Section Traces.
Context {S : Type} `{!storage_base.Storage S} (valid_uuid : uuid_t → Prop)
  (wf : S → Prop) (R : S → storage_spec.contents → Prop)
  `{Href : !StorageRefines S valid_uuid wf R} `{Hrel : !ReliableStorage S valid_uuid}.

Lemma perform_refines c s m :
  wf s → R s m → valid_uuid (call_uuid c) →
  (perform c s).1 = (perform_spec c m).1 ∧
  wf (perform c s).2 ∧ R (perform c s).2 (perform_spec c m).2.
Proof using Href Hrel.
  intros Hwf HR Hu. destruct c as [u k v|u k|u k v|u k|u k]; simpl in *.
  - pose proof (refines_create s m u k v Hwf HR Hu) as Hs.
    pose proof (create_saved u k v s Hu).
    destruct (storage_base.create u k v s), (storage_spec.create u k v m).
    naive_solver.
  - by rewrite (refines_read s m u k Hwf HR Hu).
  - pose proof (refines_update s m u k v Hwf HR Hu) as Hs.
    pose proof (update_saved u k v s Hu).
    destruct (storage_base.update u k v s), (storage_spec.update u k v m).
    naive_solver.
  - pose proof (refines_remove s m u k Hwf HR Hu) as Hs.
    pose proof (remove_done u k s Hu) as Hd. rewrite (refines_has s m u k Hwf HR Hu) in Hd.
    unfold storage_spec.remove in *.
    destruct (storage_base.remove u k s), (m !! (u, k)); simpl in *; [|naive_solver].
    rewrite Hd in Hs by done. naive_solver.
  - by rewrite (refines_has s m u k Hwf HR Hu).
Qed.

Lemma trace_refines cs s m :
  wf s → R s m → Forall (λ c, valid_uuid (call_uuid c)) cs →
  trace perform cs s = trace perform_spec cs m.
Proof using Href Hrel.
  intros Hwf HR Hcs. revert s m Hwf HR. induction Hcs as [|c cs Hc _ IH]; intros s m Hwf HR; [done|].
  simpl. destruct (perform_refines c s m Hwf HR Hc) as (?&?&?).
  destruct (perform c s), (perform_spec c m). simplify_eq/=. f_equal. by apply IH.
Qed.

End Traces.
End storage_client.

(** ** The in-memory store *)
Module mem_storage.
Import storage_base.

Record mem_storage := MemStorage { kv_store : gmap uuid_t (gmap key_t value_t) }.

Definition empty : mem_storage := MemStorage ∅.

(** Both lookups of the key are kept: the second one works on the database
    that [kv_store\[uuid\]] may have created. *)
Definition create (u : uuid_t) (k : key_t) (v : value_t) (s : mem_storage) : storage_result * mem_storage :=
  if (MAX_VALUE_SIZE <? strlen v)%N then (value_too_large, s)
  else if (MAX_KEY_SIZE <? strlen k)%N then (key_too_large, s)
  else
    let found :=
      match kv_store s !! u with
      | Some inner => bool_decide (is_Some (inner !! k))
      | None => false
      end in
    if found then (exists_, s)
    else
      let inner_db := default ∅ (kv_store s !! u) in
      match inner_db !! k with
      | None => (ok, MemStorage (<[u := <[k := v]> inner_db]> (kv_store s)))
      | Some _ => (exists_, MemStorage (<[u := inner_db]> (kv_store s)))
      end.

Definition read (u : uuid_t) (k : key_t) (s : mem_storage) : option value_t :=
  match kv_store s !! u with
  | None => None
  | Some inner_db => inner_db !! k
  end.

Definition update (u : uuid_t) (k : key_t) (v : value_t) (s : mem_storage) : storage_result * mem_storage :=
  if (MAX_VALUE_SIZE <? strlen v)%N then (value_too_large, s)
  else
    match kv_store s !! u with
    | None => (not_found, s)
    | Some inner_db =>
        match inner_db !! k with
        | None => (not_found, s)
        | Some _ => (ok, MemStorage (<[u := <[k := v]> inner_db]> (kv_store s)))
        end
    end.

Definition remove (u : uuid_t) (k : key_t) (s : mem_storage) : storage_result * mem_storage :=
  match kv_store s !! u with
  | None => (not_found, s)
  | Some inner_db =>
      match inner_db !! k with
      | None => (not_found, s)
      | Some _ => (ok, MemStorage (<[u := delete k inner_db]> (kv_store s)))
      end
  end.

Definition get_keys (u : uuid_t) (s : mem_storage) : list key_t :=
  match kv_store s !! u with
  | None => []
  | Some inner_db => (map_to_list inner_db).*1
  end.

Definition has (u : uuid_t) (k : key_t) (s : mem_storage) : bool :=
  bool_decide (k ∈ get_keys u s).

(** The loop over the records: [++keys; size += record.second.size()]. *)
Definition size_step (acc : N * N) (record : key_t * value_t) : N * N :=
  let '(keys, size) := acc in (add64 keys 1, add64 size (strlen record.2)).

Definition get_size (u : uuid_t) (s : mem_storage) : N * N :=
  match kv_store s !! u with
  | None => (0, 0)%N
  | Some inner_db => foldl size_step (0, 0)%N (map_to_list inner_db)
  end.

#[global] Instance mem_storage_ops : Storage mem_storage := {|
  storage_base.create := create;
  storage_base.read := read;
  storage_base.update := update;
  storage_base.remove := remove;
  storage_base.get_keys := get_keys;
  storage_base.has := has;
  storage_base.get_size := get_size
|}.

(** *** Refinement *)

(** The store represents the map with the same lookups. *)
Definition represents (s : mem_storage) (m : storage_spec.contents) : Prop :=
  ∀ u k, read u k s = m !! (u, k).

Lemma read_insert u k v u' k' s inner :
  (kv_store s !! u = Some inner ∨ kv_store s !! u = None ∧ inner = ∅) →
  read u' k' (MemStorage (<[u := <[k := v]> inner]> (kv_store s))) =
  if decide ((u, k) = (u', k')) then Some v else read u' k' s.
Proof.
  intros Hin. unfold read. simpl. destruct (decide (u = u')) as [<-|Hu].
  - rewrite lookup_insert_eq, lookup_insert.
    destruct Hin as [->|[-> ->]]; repeat case_decide; simplify_eq; by simplify_map_eq.
  - rewrite lookup_insert_ne by done. case_decide; congruence.
Qed.

Lemma read_delete u k u' k' s inner :
  kv_store s !! u = Some inner →
  read u' k' (MemStorage (<[u := delete k inner]> (kv_store s))) =
  if decide ((u, k) = (u', k')) then None else read u' k' s.
Proof.
  intros Hin. unfold read. simpl. destruct (decide (u = u')) as [<-|Hu].
  - rewrite lookup_insert_eq, lookup_delete, Hin.
    repeat case_decide; congruence.
  - rewrite lookup_insert_ne by done. case_decide; congruence.
Qed.

Lemma elem_of_get_keys u k s : k ∈ get_keys u s ↔ is_Some (read u k s).
Proof.
  unfold get_keys, read. destruct (kv_store s !! u) as [inner|].
  - rewrite list_elem_of_fmap. split.
    + intros ([k' v] & -> & H). apply elem_of_map_to_list in H. by exists v.
    + intros [v H]. exists (k, v). split; [done|]. by apply elem_of_map_to_list.
  - split; [by intros ?%elem_of_nil|by intros [??]].
Qed.

Lemma has_read u k s : has u k s = bool_decide (is_Some (read u k s)).
Proof. unfold has. apply bool_decide_ext, elem_of_get_keys. Qed.

Lemma size_step_sum l acc :
  foldl size_step acc l =
  (if l is [] then acc.1 else u64 (acc.1 + lengthN l),
   if l is [] then acc.2 else u64 (acc.2 + foldr N.add 0 ((λ r, strlen r.2) <$> l)))%N.
Proof.
  revert acc. induction l as [|r l IH]; intros [a b]; [done|]. simpl foldl. rewrite IH.
  unfold add64, u64, lengthN. destruct l as [|r' l].
  - simpl. f_equal; f_equal; lia.
  - cbn [fst snd length fmap list_fmap foldr]. rewrite !N.Div0.add_mod_idemp_l.
    f_equal; f_equal; lia.
Qed.

Lemma get_size_spec u s :
  get_size u s =
  (u64 (lengthN (get_keys u s)),
   u64 (foldr N.add 0%N ((λ k, strlen (default "" (read u k s))) <$> get_keys u s))).
Proof.
  unfold get_size, get_keys. destruct (kv_store s !! u) as [inner|] eqn:E; [|done].
  rewrite size_step_sum, <-list_fmap_compose. simpl fst. simpl snd.
  assert ((λ k, strlen (default "" (read u k s))) ∘ fst <$> map_to_list inner
          = (λ r, strlen r.2) <$> map_to_list inner) as ->.
  { apply list_fmap_ext. intros i [k v] Hi. simpl. unfold read. rewrite E.
    apply list_elem_of_lookup_2, elem_of_map_to_list in Hi. by rewrite Hi. }
  unfold lengthN. rewrite length_fmap.
  by destruct (map_to_list inner).
Qed.

(** The simulation, method by method: same result, same map afterwards. *)
Definition simulates (c : storage_result * mem_storage)
    (a : storage_result * storage_spec.contents) : Prop :=
  c.1 = a.1 ∧ represents c.2 a.2.

Lemma simulates_intro r s m : represents s m → simulates (r, s) (r, m).
Proof. done. Qed.

Lemma create_simulates u k v s m :
  represents s m → simulates (create u k v s) (storage_spec.create u k v m).
Proof.
  intros HR. unfold create, storage_spec.create.
  destruct (MAX_VALUE_SIZE <? strlen v)%N; [by apply simulates_intro|].
  destruct (MAX_KEY_SIZE <? strlen k)%N; [by apply simulates_intro|].
  pose proof (HR u k) as Hk. unfold read in Hk.
  destruct (kv_store s !! u) as [inner|] eqn:Eu; simpl.
  - destruct (inner !! k) eqn:Ei; rewrite <-Hk.
    { rewrite bool_decide_true by eauto. by apply simulates_intro. }
    rewrite bool_decide_false by (by intros [??]). apply simulates_intro.
    intros u' k'. rewrite read_insert by (by left). by rewrite HR, lookup_insert.
  - rewrite lookup_empty, <-Hk. apply simulates_intro.
    intros u' k'. rewrite read_insert by (by right). by rewrite HR, lookup_insert.
Qed.

Lemma update_simulates u k v s m :
  represents s m → simulates (update u k v s) (storage_spec.update u k v m).
Proof.
  intros HR. unfold update, storage_spec.update.
  destruct (MAX_VALUE_SIZE <? strlen v)%N; [by apply simulates_intro|].
  pose proof (HR u k) as Hk. unfold read in Hk.
  destruct (kv_store s !! u) as [inner|] eqn:Eu; [|by rewrite <-Hk].
  destruct (inner !! k) eqn:Ei; rewrite <-Hk; [|done]. apply simulates_intro.
  intros u' k'. rewrite read_insert by (by left). by rewrite HR, lookup_insert.
Qed.

Lemma remove_simulates u k s m :
  represents s m → simulates (remove u k s) (storage_spec.remove u k m).
Proof.
  intros HR. unfold remove, storage_spec.remove.
  pose proof (HR u k) as Hk. unfold read in Hk.
  destruct (kv_store s !! u) as [inner|] eqn:Eu; [|by rewrite <-Hk].
  destruct (inner !! k) eqn:Ei; rewrite <-Hk; [|done]. apply simulates_intro.
  intros u' k'. rewrite (read_delete _ _ _ _ _ _ Eu). by rewrite HR, lookup_delete.
Qed.

#[global] Instance mem_storage_refines :
  StorageRefines mem_storage (λ _, True) (λ _, True) represents.
Proof.
  split; simpl.
  - intros s m u k _ HR _. apply HR.
  - intros s m u k _ HR _. by rewrite has_read, HR.
  - intros s m u _ HR _. split.
    + unfold get_keys. destruct (_ !! u); [apply NoDup_fst_map_to_list|constructor].
    + intros k. by rewrite elem_of_get_keys, HR.
  - intros s m u _ HR _. rewrite get_size_spec. do 3 f_equal.
    apply list_fmap_ext. intros i k _. by rewrite HR.
  - intros s m u k v _ HR _. pose proof (create_simulates u k v s m HR) as [??].
    destruct (create _ _ _ _), (storage_spec.create _ _ _ _). auto.
  - intros s m u k v _ HR _. pose proof (update_simulates u k v s m HR) as [??].
    destruct (update _ _ _ _), (storage_spec.update _ _ _ _). auto.
  - intros s m u k _ HR _. pose proof (remove_simulates u k s m HR) as [??].
    destruct (remove _ _ _), (storage_spec.remove _ _ _). auto.
Qed.

#[global] Instance mem_storage_reliable : ReliableStorage mem_storage (λ _, True).
Proof.
  split; simpl.
  - intros u k v s _. unfold create. repeat case_match; by intros [=].
  - intros u k v s _. unfold update. repeat case_match; by intros [=].
  - intros u k s _ Hh. rewrite has_read, bool_decide_eq_true in Hh. unfold read, remove in *.
    destruct (kv_store s !! u) as [inner|]; [|by destruct Hh].
    destruct Hh as [v ->]. done.
Qed.

End mem_storage.

(** ** Claims *)

(** C30: the in-memory store is a map.  Every sequence of calls on an empty
    [mem_storage] is answered exactly as the abstract map from (database, key)
    to value answers it: result codes, values read and membership. *)
Theorem mem_storage_trace_refines (cs : list storage_client.call) :
  storage_client.trace storage_client.perform cs mem_storage.empty =
  storage_client.trace storage_client.perform_spec cs ∅.
Proof.
  apply (storage_client.trace_refines (λ _, True) (λ _, True) mem_storage.represents); [done| |].
  - intros u k. unfold mem_storage.read. simpl. by rewrite !lookup_empty.
  - by apply Forall_true.
Qed.
