(* ===== verification/RocksStorage.v ===== *)
(** * RocksDB storage

    [storage/rocksdb_storage.cpp] over RocksDB.  The engine is not part of the
    repository: [RocksDB] lists the calls the code makes and [RocksDBLaws] the
    documented behaviour the theorems use.  All databases share one key space,
    in which the record [key] of database [uuid] is stored under [uuid ++ key],
    and a database is enumerated by the range of the keys that start with
    [uuid]. *)

From S2P Require Import Prelude Messages Storage.

(** ** Strings

    RocksDB's default comparator is the byte-wise [string_ltb]. *)

(** [Slice::starts_with]. *)
Fixpoint starts_with (p s : string) : bool :=
  match p, s with
  | EmptyString, _ => true
  | String a p, String b s => bool_decide (a = b) && starts_with p s
  | String _ _, EmptyString => false
  end.

(** [std::string::substr(n)]. *)
Fixpoint substr_from (n : nat) (s : string) : string :=
  match n, s with
  | O, _ => s
  | S n, String _ s => substr_from n s
  | S _, EmptyString => EmptyString
  end.

Lemma append_cons a p s : String a p +:+ s = String a (p +:+ s).
Proof. done. Qed.

Lemma starts_with_app p s : starts_with p (p +:+ s) = true.
Proof. induction p as [|a p IH]; [done|]. simpl. by rewrite bool_decide_true by done. Qed.

Lemma starts_with_spec p s :
  starts_with p s = true ↔ s = p +:+ substr_from (String.length p) s.
Proof.
  revert s. induction p as [|a p IH]; intros s; [done|]. destruct s as [|b s].
  { split; [done|]. by intros ?%(f_equal String.length). }
  simpl starts_with. rewrite andb_true_iff, bool_decide_eq_true, IH. cbn.
  rewrite append_cons. split.
  - intros [-> H]. by rewrite <-H.
  - intros H. by injection H.
Qed.

Lemma substr_from_app p s : substr_from (String.length p) (p +:+ s) = s.
Proof. induction p as [|a p IH]; [done|]. exact IH. Qed.

(** A string that starts with [p] is not below [p]. *)
Lemma starts_with_not_lt p s : starts_with p s = true → string_ltb s p = false.
Proof.
  revert s. induction p as [|a p IH]; intros [|b s]; simpl; try done.
  rewrite andb_true_iff, bool_decide_eq_true. intros [-> H].
  rewrite N.ltb_irrefl, (IH _ H). by rewrite andb_false_r.
Qed.

(** Beyond the last string that starts with [p] none starts with [p] again. *)
Lemma starts_with_block p s t :
  string_ltb s p = false → starts_with p s = false →
  string_ltb s t = true → starts_with p t = false.
Proof.
  revert s t. induction p as [|a p IH]; intros [|b s] [|c t]; simpl; try done.
  rewrite !orb_false_iff, !andb_false_iff, !orb_true_iff, !andb_true_iff,
    !N.ltb_ge, !N.ltb_lt, !N.eqb_neq, !N.eqb_eq, !bool_decide_eq_false.
  intros [Hge Hne] Hp Hlt. destruct (decide (a = c)) as [->|]; [|by left]. right.
  destruct (decide (c = b)) as [->|Hcb].
  - destruct Hp as [?|Hp]; [done|]. destruct Hne as [?|Hne]; [done|].
    destruct Hlt as [?|[_ Hlt]]; [lia|]. by eapply IH.
  - assert (N_of_ascii b ≠ N_of_ascii c).
    { intros E. apply Hcb. rewrite <-(ascii_N_embedding c), <-(ascii_N_embedding b). by rewrite E. }
    lia.
Qed.

(** ** The engine *)

Class RocksDB (db : Type) := {
  Get : string → db → option string;
  Put : string → string → db → bool * db;
  Delete : string → db → bool * db;
  (** what an iterator over the whole database enumerates *)
  entries : db → list (string * string)
}.

(** The documented behaviour: an iterator yields the entries in ascending
    order of their keys, [Get] finds exactly these entries, and a write that
    reports success has changed the one entry it names. *)
Class RocksDBLaws (db : Type) `{!RocksDB db} : Prop := {
  entries_sorted d :
    StronglySorted (λ x y : string * string, string_ltb x.1 y.1 = true) (entries d);
  Get_entries k v d : Get k d = Some v ↔ (k, v) ∈ entries d;
  Put_ok k v d : (Put k v d).1 = true → ∀ k',
    Get k' (Put k v d).2 = if decide (k = k') then Some v else Get k' d;
  Delete_ok k d : (Delete k d).1 = true → ∀ k',
    Get k' (Delete k d).2 = if decide (k = k') then None else Get k' d
}.

Module rocksdb_storage.
Import storage_base.

Section Ops.
Context {db : Type} `{!RocksDB db}.

Definition generate_key (u : uuid_t) (k : key_t) : key_t := u +:+ k.

(** [for (iter->Seek(uuid); iter->Valid() && iter->key().starts_with(uuid); iter->Next())]:
    the iterator moves to the first key that is not below [uuid] and the loop
    runs while the keys start with [uuid]. *)
Fixpoint Seek (u : string) (l : list (string * string)) : list (string * string) :=
  match l with
  | [] => []
  | e :: l => if string_ltb e.1 u then Seek u l else e :: l
  end.
Fixpoint while_prefix (u : string) (l : list (string * string)) : list (string * string) :=
  match l with
  | [] => []
  | e :: l => if starts_with u e.1 then e :: while_prefix u l else []
  end.
Definition scan (u : uuid_t) (d : db) : list (string * string) :=
  while_prefix u (Seek u (entries d)).

Definition has (u : uuid_t) (k : key_t) (d : db) : bool :=
  existsb (λ e, bool_decide (e.1 = generate_key u k)) (scan u d).

Definition create (u : uuid_t) (k : key_t) (v : value_t) (d : db) : storage_result * db :=
  if (MAX_VALUE_SIZE <? strlen v)%N then (value_too_large, d)
  else if (MAX_KEY_SIZE <? strlen k)%N then (key_too_large, d)
  else if negb (has u k d) then
    let '(s_ok, d') := Put (generate_key u k) v d in
    if negb s_ok then (not_saved, d') else (ok, d')
  else (exists_, d).

Definition read (u : uuid_t) (k : key_t) (d : db) : option value_t :=
  Get (generate_key u k) d.

Definition update (u : uuid_t) (k : key_t) (v : value_t) (d : db) : storage_result * db :=
  if (MAX_VALUE_SIZE <? strlen v)%N then (value_too_large, d)
  else if has u k d then
    let '(s_ok, d') := Put (generate_key u k) v d in
    if negb s_ok then (not_saved, d') else (ok, d')
  else (not_found, d).

Definition remove (u : uuid_t) (k : key_t) (d : db) : storage_result * db :=
  if has u k d then
    let '(s_ok, d') := Delete (generate_key u k) d in
    if negb s_ok then (not_found, d') else (ok, d')
  else (not_found, d).

Definition get_keys (u : uuid_t) (d : db) : list key_t :=
  (λ e, substr_from (String.length u) e.1) <$> scan u d.

Definition get_size (u : uuid_t) (d : db) : N * N :=
  foldl (λ acc e, (add64 acc.1 1, add64 acc.2 (strlen e.2))) (0, 0)%N (scan u d).

#[global] Instance rocksdb_storage_ops : Storage db := {|
  storage_base.create := create;
  storage_base.read := read;
  storage_base.update := update;
  storage_base.remove := remove;
  storage_base.get_keys := get_keys;
  storage_base.has := has;
  storage_base.get_size := get_size
|}.

End Ops.

(** ** Refinement *)
Section Refinement.
Context {db : Type} `{!RocksDB db} `{!RocksDBLaws db}.

Abbreviation key_lt := (λ x y : string * string, string_ltb x.1 y.1 = true).

Lemma while_prefix_filter u l :
  StronglySorted key_lt l → Forall (λ e, string_ltb e.1 u = false) l →
  while_prefix u l = filter (λ e, starts_with u e.1 = true) l.
Proof.
  induction l as [|e l IH]; intros Hs Hge; [done|]. simpl.
  apply Forall_cons in Hge as [He Hge]. apply StronglySorted_inv in Hs as [Hs Hlt].
  rewrite filter_cons. destruct (starts_with u e.1) eqn:E.
  - rewrite decide_True by done. f_equal. by apply IH.
  - rewrite decide_False by congruence. symmetry.
    assert (Forall (λ e', starts_with u e'.1 = false) l) as Hno.
    { eapply Forall_impl; [exact Hlt|]. intros e' Hlt'. by eapply starts_with_block. }
    clear -Hno. induction Hno as [|e' l Hf _ IH]; [done|].
    rewrite filter_cons, decide_False by congruence. done.
Qed.

Lemma Seek_filter u l :
  StronglySorted key_lt l →
  StronglySorted key_lt (Seek u l) ∧ Forall (λ e, string_ltb e.1 u = false) (Seek u l) ∧
  filter (λ e, starts_with u e.1 = true) (Seek u l) = filter (λ e, starts_with u e.1 = true) l.
Proof.
  induction l as [|e l IH]; intros Hs; [by repeat constructor|]. simpl.
  destruct (string_ltb e.1 u) eqn:E.
  - apply StronglySorted_inv in Hs as [Hs _]. destruct (IH Hs) as (?&?&Heq).
    split_and!; [done..|]. rewrite Heq, filter_cons, decide_False; [done|].
    intros Hsw%starts_with_not_lt. congruence.
  - split_and!; [done| |done]. constructor; [done|].
    apply StronglySorted_inv in Hs as [_ Hlt]. eapply Forall_impl; [exact Hlt|].
    intros e' Hlt'. apply not_true_iff_false. intros Hc.
    rewrite (string_ltb_trans e.1 e'.1 u) in E; done.
Qed.

(** The iterator loop visits exactly the keys with the prefix, in order. *)
Lemma scan_filter u d :
  scan u d = filter (λ e, starts_with u e.1 = true) (entries d).
Proof.
  unfold scan. destruct (Seek_filter u (entries d) (entries_sorted d)) as (H1 & H2 & H3).
  by rewrite while_prefix_filter.
Qed.

Lemma elem_of_scan u k v d : (u +:+ k, v) ∈ scan u d ↔ read u k d = Some v.
Proof.
  unfold read, generate_key. rewrite scan_filter, list_elem_of_filter, Get_entries. simpl.
  rewrite starts_with_app. tauto.
Qed.

Lemma rocks_has_read u k d : has u k d = bool_decide (is_Some (read u k d)).
Proof.
  unfold has. apply eq_true_iff_eq. rewrite existsb_exists, bool_decide_eq_true.
  unfold generate_key. split.
  - intros ([k' v] & Hin%list_elem_of_In & Hk%bool_decide_eq_true). simpl in Hk. subst.
    exists v. by apply elem_of_scan.
  - intros [v Hv]. exists (u +:+ k, v). split; [|by apply bool_decide_eq_true].
    by apply list_elem_of_In, elem_of_scan.
Qed.

Lemma rocks_elem_of_get_keys u k d : k ∈ get_keys u d ↔ is_Some (read u k d).
Proof.
  unfold get_keys. rewrite list_elem_of_fmap. split.
  - intros ([k' v] & -> & Hin). assert (starts_with u k' = true) as Hp.
    { rewrite scan_filter in Hin. by apply list_elem_of_filter in Hin as [? _]. }
    apply starts_with_spec in Hp. simpl. exists v. apply elem_of_scan. by rewrite <-Hp.
  - intros [v Hv]. exists (u +:+ k, v). simpl. rewrite substr_from_app.
    split; [done|]. by apply elem_of_scan.
Qed.

Lemma scan_split u d e : e ∈ scan u d → e.1 = u +:+ substr_from (String.length u) e.1.
Proof.
  rewrite scan_filter. intros [Hp _]%list_elem_of_filter. by apply starts_with_spec.
Qed.

Lemma scan_NoDup u d : NoDup (scan u d).*1.
Proof.
  rewrite scan_filter. pose proof (entries_sorted d) as Hs.
  induction Hs as [|e l Hs IH Hlt]; [constructor|]. rewrite filter_cons.
  case_decide; [|done]. simpl. constructor; [|done].
  rewrite list_elem_of_fmap. intros (e' & He & [_ Hin]%list_elem_of_filter).
  rewrite Forall_forall in Hlt. specialize (Hlt e' Hin). simpl in Hlt.
  by rewrite He, string_ltb_irrefl in Hlt.
Qed.

Lemma get_keys_NoDup u d : NoDup (get_keys u d).
Proof.
  unfold get_keys. pose proof (scan_NoDup u d) as Hnd.
  assert (Forall (λ e, e.1 = u +:+ substr_from (String.length u) e.1) (scan u d)) as Hf.
  { apply Forall_forall. intros e. apply scan_split. }
  revert Hnd Hf. generalize (scan u d). intros l. induction l as [|e l IH]; [constructor|].
  simpl. intros [Hn Hnd]%NoDup_cons [He Hf]%Forall_cons. constructor; [|by apply IH].
  rewrite list_elem_of_fmap. intros (e' & Heq & Hin). apply Hn.
  rewrite list_elem_of_fmap. exists e'. split; [|done].
  rewrite Forall_forall in Hf. rewrite He, (Hf e' Hin). by rewrite Heq.
Qed.

Lemma rocks_get_size_spec u d :
  get_size u d =
  (u64 (lengthN (get_keys u d)),
   u64 (foldr N.add 0%N ((λ k, strlen (default "" (read u k d))) <$> get_keys u d))).
Proof.
  unfold get_size, get_keys. rewrite <-list_fmap_compose.
  assert ((λ k, strlen (default "" (read u k d))) ∘ (λ e, substr_from (String.length u) e.1)
            <$> scan u d = (λ e, strlen e.2) <$> scan u d) as ->.
  { apply list_fmap_ext. intros i [k v] Hi%list_elem_of_lookup_2. simpl.
    assert (read u (substr_from (String.length u) k) d = Some v) as ->; [|done].
    apply elem_of_scan. pose proof (scan_split u d _ Hi) as Hk. simpl in Hk. by rewrite <-Hk. }
  unfold lengthN. rewrite length_fmap.
  assert (∀ l acc, (acc.1 < 2 ^ 64)%N → (acc.2 < 2 ^ 64)%N →
    foldl (λ acc e, (add64 acc.1 1, add64 acc.2 (strlen e.2))) acc l =
    (u64 (acc.1 + N.of_nat (length l)), u64 (acc.2 + foldr N.add 0 ((λ e : string * string, strlen e.2) <$> l)))%N) as Hgen.
  { clear. intros l. induction l as [|e l IH]; intros [a b] Ha Hb; simpl.
    - rewrite !N.add_0_r, !u64_small by done. done.
    - rewrite IH by apply u64_bound. simpl. unfold add64, u64.
      rewrite !N.Div0.add_mod_idemp_l.
      f_equal; f_equal; [lia|symmetry; apply N.add_assoc]. }
  rewrite Hgen by done. done.
Qed.

(** The databases with names of one length [L] are kept apart. *)
Definition valid_uuid (L : nat) (u : uuid_t) : Prop := String.length u = L.
Definition represents (L : nat) (d : db) (m : storage_spec.contents) : Prop :=
  ∀ u k, valid_uuid L u → read u k d = m !! (u, k).

Lemma append_inj_length (u u' k k' : string) :
  String.length u = String.length u' → u +:+ k = u' +:+ k' → u = u' ∧ k = k'.
Proof.
  revert u'. induction u as [|a u IH]; intros [|b u']; try done.
  intros [= Hl]. rewrite !append_cons. intros [= -> H].
  by destruct (IH u' Hl H) as [-> ->].
Qed.

Lemma represents_Put L d m u k v :
  represents L d m → valid_uuid L u → (Put (generate_key u k) v d).1 = true →
  represents L (Put (generate_key u k) v d).2 (<[(u, k) := v]> m).
Proof.
  intros HR Hu Hok u' k' Hu'. unfold read. rewrite Put_ok by done. rewrite lookup_insert.
  rewrite <-(HR u' k' Hu'). unfold generate_key, read, generate_key.
  repeat case_decide; simplify_eq; try done.
  destruct (append_inj_length u u' k k'); [by rewrite Hu, Hu'|done|congruence].
Qed.

Lemma represents_Delete L d m u k :
  represents L d m → valid_uuid L u → (Delete (generate_key u k) d).1 = true →
  represents L (Delete (generate_key u k) d).2 (delete (u, k) m).
Proof.
  intros HR Hu Hok u' k' Hu'. unfold read. rewrite Delete_ok by done. rewrite lookup_delete.
  rewrite <-(HR u' k' Hu'). unfold generate_key, read, generate_key.
  repeat case_decide; simplify_eq; try done.
  destruct (append_inj_length u u' k k'); [by rewrite Hu, Hu'|done|congruence].
Qed.

#[global] Instance rocksdb_storage_refines (L : nat) :
  StorageRefines db (valid_uuid L) (λ _, True) (represents L).
Proof.
  split; simpl.
  - intros s m u k _ HR Hu. by apply HR.
  - intros s m u k _ HR Hu. by rewrite rocks_has_read, HR.
  - intros s m u _ HR Hu. split; [apply get_keys_NoDup|].
    intros k. by rewrite rocks_elem_of_get_keys, HR.
  - intros s m u _ HR Hu. rewrite rocks_get_size_spec. do 3 f_equal.
    apply list_fmap_ext. intros i k _. by rewrite HR.
  - intros s m u k v _ HR Hu. unfold create, storage_spec.create. rewrite rocks_has_read, (HR u k Hu).
    destruct (_ <? _)%N; [auto|]. destruct (_ <? _)%N; [auto|].
    destruct (m !! (u, k)) eqn:E; simpl; [auto|].
    pose proof (represents_Put L s m u k v HR Hu) as HP.
    destruct (Put _ v s) as [[] d']; simpl in *; auto.
  - intros s m u k v _ HR Hu. unfold update, storage_spec.update. rewrite rocks_has_read, (HR u k Hu).
    destruct (_ <? _)%N; [auto|]. destruct (m !! (u, k)) eqn:E; simpl; [|auto].
    pose proof (represents_Put L s m u k v HR Hu) as HP.
    destruct (Put _ v s) as [[] d']; simpl in *; auto.
  - intros s m u k _ HR Hu. unfold remove, storage_spec.remove. rewrite rocks_has_read, (HR u k Hu).
    destruct (m !! (u, k)) eqn:E; simpl; [|auto].
    pose proof (represents_Delete L s m u k HR Hu) as HP.
    destruct (Delete _ s) as [[] d']; simpl in *; auto.
Qed.

(** Two names of one record: the text after the database name may be split
    off in two ways. *)
Lemma generate_key_split u x k : generate_key (u +:+ x) k = generate_key u (x +:+ k).
Proof.
  unfold generate_key. induction u as [|a u IH]; [done|].
  by rewrite !append_cons, IH.
Qed.

Lemma read_split u x k d : read (u +:+ x) k d = read u (x +:+ k) d.
Proof. unfold read. by rewrite generate_key_split. Qed.

Lemma create_read u k v d :
  (create u k v d).1 = ok → read u k (create u k v d).2 = Some v.
Proof.
  unfold create. destruct (_ <? _)%N; [done|]. destruct (_ <? _)%N; [done|].
  destruct (has u k d); [done|]. simpl. unfold read.
  pose proof (Put_ok (generate_key u k) v d) as HP.
  destruct (Put _ v d) as [[] d']; simpl in *; [|done]. intros _.
  rewrite HP by done. by rewrite decide_True.
Qed.

(** An engine whose writes succeed. *)
Class RocksDBReliable : Prop := {
  Put_succeeds k v d : (Put k v d).1 = true;
  Delete_succeeds k d : (Delete k d).1 = true
}.

#[global] Instance rocksdb_storage_reliable (L : nat) :
  RocksDBReliable → ReliableStorage db (valid_uuid L).
Proof.
  intros Hr. split; simpl.
  - intros u k v d _. unfold create. pose proof (Put_succeeds (generate_key u k) v d).
    repeat case_match; simplify_eq/=; done.
  - intros u k v d _. unfold update. pose proof (Put_succeeds (generate_key u k) v d).
    repeat case_match; simplify_eq/=; done.
  - intros u k d _ Hh. unfold remove. rewrite Hh.
    pose proof (Delete_succeeds (generate_key u k) d).
    repeat case_match; simplify_eq/=; done.
Qed.

End Refinement.
End rocksdb_storage.

(** ** A concrete engine

    A sorted list of entries satisfies the laws; the witnesses evaluate the
    store over it. *)
Module list_engine.

Abbreviation key_lt := (λ x y : string * string, string_ltb x.1 y.1 = true).
Definition engine : Type := { l : list (string * string) | StronglySorted key_lt l }.

Fixpoint ins (k v : string) (l : list (string * string)) : list (string * string) :=
  match l with
  | [] => [(k, v)]
  | e :: l =>
      if string_ltb k e.1 then (k, v) :: e :: l
      else if decide (k = e.1) then (k, v) :: l
      else e :: ins k v l
  end.
Definition del (k : string) (l : list (string * string)) : list (string * string) :=
  filter (λ e, e.1 ≠ k) l.

Lemma ins_elem k v l e :
  StronglySorted key_lt l → e ∈ ins k v l ↔ e = (k, v) ∨ e.1 ≠ k ∧ e ∈ l.
Proof.
  induction l as [|x l IH]; intros Hs; simpl.
  { rewrite list_elem_of_singleton. set_solver. }
  apply StronglySorted_inv in Hs as [Hs Hlt]. rewrite Forall_forall in Hlt.
  assert (∀ y, y ∈ l → string_ltb k x.1 = true ∨ k = x.1 → y.1 ≠ k) as Hab.
  { intros y Hy Hk Heq. specialize (Hlt y Hy). simpl in Hlt. rewrite Heq in Hlt.
    destruct Hk as [Hk|Hk]; [|by rewrite Hk, string_ltb_irrefl in Hlt].
    pose proof (string_ltb_trans _ _ _ Hk Hlt) as Hi. by rewrite string_ltb_irrefl in Hi. }
  destruct (string_ltb k x.1) eqn:E; [|case_decide as Hk].
  - rewrite !elem_of_cons. split; [|naive_solver].
    intros [?|[->|Hin]]; [by left| |]; right.
    + split; [|by left]. intros Heq. by rewrite Heq, string_ltb_irrefl in E.
    + split; [|by right]. apply Hab; auto.
  - rewrite !elem_of_cons. split; [|naive_solver].
    intros [?|Hin]; [by left|]. right. split; [|by right]. apply Hab; auto.
  - rewrite !elem_of_cons, (IH Hs). naive_solver.
Qed.

Lemma ins_sorted k v l : StronglySorted key_lt l → StronglySorted key_lt (ins k v l).
Proof.
  intros Hs. induction Hs as [|x l Hs IH Hlt]; simpl; [by repeat constructor|].
  destruct (string_ltb k x.1) eqn:E; [|case_decide as Hk].
  - constructor; [by constructor|]. constructor; [done|].
    eapply Forall_impl; [exact Hlt|]. intros y Hy. simpl in *. by eapply string_ltb_trans.
  - subst. by constructor.
  - constructor; [done|]. apply Forall_forall. intros y Hy%ins_elem; [|done].
    rewrite Forall_forall in Hlt. destruct Hy as [->|[_ Hy]]; [|by apply Hlt].
    destruct (string_ltb_total x.1 k) as [?|[?|?]]; simpl; congruence.
Qed.

Lemma del_sorted k l : StronglySorted key_lt l → StronglySorted key_lt (del k l).
Proof.
  intros Hs. induction Hs as [|x l Hs IH Hlt]; [constructor|].
  unfold del. rewrite filter_cons. case_decide; [|done]. constructor; [done|].
  apply Forall_forall. intros y [_ Hy]%list_elem_of_filter.
  rewrite Forall_forall in Hlt. by apply Hlt.
Qed.

Definition empty : engine := [] ↾ SSorted_nil _.

#[global] Instance engine_ops : RocksDB engine := {|
  Get k d := snd <$> List.find (λ e, bool_decide (e.1 = k)) (`d);
  Put k v d := (true, ins k v (`d) ↾ ins_sorted k v _ (proj2_sig d));
  Delete k d := (true, del k (`d) ↾ del_sorted k _ (proj2_sig d));
  entries d := `d
|}.

Lemma find_entries (l : list (string * string)) k v :
  StronglySorted key_lt l →
  snd <$> List.find (λ e, bool_decide (e.1 = k)) l = Some v ↔ (k, v) ∈ l.
Proof.
  induction 1 as [|x l Hs IH Hlt]; simpl; [split; [done|by intros ?%elem_of_nil]|].
  rewrite elem_of_cons. case_bool_decide as Hk; simpl.
  - split; [intros [= <-]; left; by destruct x; simplify_eq/=|].
    intros [<-|Hin]; [done|]. rewrite Forall_forall in Hlt.
    specialize (Hlt _ Hin). simpl in Hlt. by rewrite Hk, string_ltb_irrefl in Hlt.
  - rewrite IH. split; [by right|]. by intros [<-|?].
Qed.

#[global] Instance engine_laws : RocksDBLaws engine.
Proof.
  split.
  - intros d. apply (proj2_sig d).
  - intros k v d. apply find_entries, (proj2_sig d).
  - intros k v d _ k'. simpl. apply option_eq. intros w.
    rewrite find_entries by apply ins_sorted, (proj2_sig d).
    rewrite ins_elem by apply (proj2_sig d). case_decide as Hk.
    + subst. naive_solver.
    + rewrite find_entries by apply (proj2_sig d). naive_solver.
  - intros k d _ k'. simpl. apply option_eq. intros w.
    rewrite find_entries by apply del_sorted, (proj2_sig d).
    unfold del. rewrite list_elem_of_filter. case_decide as Hk.
    + subst. naive_solver.
    + rewrite find_entries by apply (proj2_sig d). naive_solver.
Qed.

#[global] Instance engine_reliable : rocksdb_storage.RocksDBReliable (db := engine).
Proof. done. Qed.

End list_engine.

(** ** Claims *)

(** C31: over an engine that obeys RocksDB's documented behaviour and does not
    refuse writes, [rocksdb_storage] is the abstract map for all databases whose
    names have one length (the daemons use 36-character uuids): every sequence
    of calls is answered as the map answers it, although [has] and [get_keys]
    are scans of a key range. *)
Theorem rocksdb_storage_trace_refines {db} `{!RocksDB db} `{!RocksDBLaws db}
    `{!rocksdb_storage.RocksDBReliable (db := db)} (L : nat) (d : db) (cs : list storage_client.call) :
  entries d = [] →
  Forall (λ c, String.length (storage_client.call_uuid c) = L) cs →
  storage_client.trace storage_client.perform cs d =
  storage_client.trace storage_client.perform_spec cs ∅.
Proof.
  intros Hd Hcs.
  apply (storage_client.trace_refines (rocksdb_storage.valid_uuid L) (λ _, True)
           (rocksdb_storage.represents L)); [done| |done].
  intros u k _. rewrite lookup_empty. unfold rocksdb_storage.read.
  destruct (Get _ d) as [v|] eqn:E; [|done].
  apply Get_entries in E. rewrite Hd in E. by apply elem_of_nil in E.
Qed.

Example rocksdb_storage_trace_witness :
  let cs := [storage_client.Create "u1" "k" "v"; storage_client.Read "u1" "k";
             storage_client.Create "u1" "k" "w"; storage_client.Has "u2" "k";
             storage_client.Remove "u1" "k"; storage_client.Read "u1" "k"] in
  storage_client.trace storage_client.perform cs list_engine.empty =
  storage_client.trace storage_client.perform_spec cs ∅
  ∧ Forall (λ c, String.length (storage_client.call_uuid c) = 2) cs.
Proof.
  intros cs. assert (Forall (λ c, String.length (storage_client.call_uuid c) = 2) cs) as H.
  { repeat constructor. }
  split; [|exact H]. apply (rocksdb_storage_trace_refines 2); [reflexivity|exact H].
Defined.

(** databases of different name lengths are not kept apart.  A record
    created in database [u] under a key that starts with [x] is read back from
    database [u ++ x], and blocks a [create] there. *)
Theorem rocksdb_databases_overlap {db} `{!RocksDB db} `{!RocksDBLaws db}
    (u x : uuid_t) (k : key_t) (v w : value_t) (d : db) :
  (rocksdb_storage.create u (x +:+ k) v d).1 = storage_base.ok →
  let d' := (rocksdb_storage.create u (x +:+ k) v d).2 in
  rocksdb_storage.read (u +:+ x) k d' = Some v ∧
  (rocksdb_storage.create (u +:+ x) k w d').1 ≠ storage_base.ok.
Proof.
  intros Hok d'. assert (rocksdb_storage.read (u +:+ x) k d' = Some v) as Hr.
  { rewrite rocksdb_storage.read_split. by apply rocksdb_storage.create_read. }
  split; [done|]. unfold rocksdb_storage.create at 1.
  rewrite rocksdb_storage.rocks_has_read, Hr. by repeat case_match.
Qed.

Example rocksdb_databases_overlap_witness :
  (rocksdb_storage.create "a" ("b" +:+ "c") "1" list_engine.empty).1 = storage_base.ok ∧
  rocksdb_storage.read "ab" "c" (rocksdb_storage.create "a" "bc" "1" list_engine.empty).2 = Some "1".
Proof.
  assert ((rocksdb_storage.create "a" ("b" +:+ "c") "1" list_engine.empty).1 = storage_base.ok)
    as H by reflexivity.
  split; [exact H|]. exact (proj1 (rocksdb_databases_overlap "a" "b" "c" "1" "2" _ H)).
Defined.
