(* ===== verification/Subscriptions.v ===== *)
(** * Subscriptions

    [crud/subscription_manager.cpp]: the table of which session, under which
    transaction id, watches which key of which database, the notifications sent
    when a change commits, and the periodic purge of closed sessions.

    A session object is named by its id (the node numbers its sessions); a
    [std::weak_ptr] to it is that name, and [lock()] succeeds when the session
    is alive at the time of the call: [alive] is an argument of the operations
    that lock. *)

From S2P Require Import Prelude Messages.

Module subscription_manager.

Definition MSG_INVALID_UUID : string := "INVALID_UUID".
Definition MSG_INVALID_KEY : string := "INVALID_KEY".
Definition MSG_INVALID_SUB : string := "INVALID_SUB".
Definition MSG_DUPLICATE_SUB : string := "DUPLICATE_SUB".

Abbreviation transactions := (gmap N session_id).
Abbreviation sessions := (gmap session_id transactions).
Abbreviation keys := (gmap key_t sessions).

Record subscription_manager := Manager { subscribers : gmap uuid_t keys; start_once : bool }.

(** [session->send_datagram(...)]; the timer of the purge. *)
Inductive effect :=
| SendDatagram (session : session_id) (resp : database_response)
| StartPurgeTimer.

Definition empty : subscription_manager := Manager ∅ false.

Definition set_subscribers (subs : gmap uuid_t keys) (s : subscription_manager) : subscription_manager :=
  Manager subs (start_once s).

(** [start]: the first purge is scheduled, once. *)
Definition start : M subscription_manager effect unit :=
  started ← gets start_once;
  if (started : bool) then mret tt
  else modify (λ s, Manager (subscribers s) true);; emit StartPurgeTimer.

(** [m\[key\]\[session\]\[transaction\] = session], with the entries that
    [operator\[\]] creates on the way. *)
Definition add_sub (k : key_t) (tx : N) (session : session_id) (ks : keys) : keys :=
  let ss := default ∅ (ks !! k) in
  let txs := default ∅ (ss !! session) in
  <[k := <[session := <[tx := session]> txs]> ss]> ks.

Definition subscribe (u : uuid_t) (k : key_t) (tx : N) (resp : database_response)
    (session : session_id) (s : subscription_manager) : database_response * subscription_manager :=
  match subscribers s !! u with
  | Some ks =>
      match ks !! k with
      | None => (resp, set_subscribers (<[u := add_sub k tx session ks]> (subscribers s)) s)
      | Some ss =>
          let known :=
            match ss !! session with
            | None => false
            | Some txs => bool_decide (is_Some (txs !! tx))
            end in
          if negb known then (resp, set_subscribers (<[u := add_sub k tx session ks]> (subscribers s)) s)
          else (set_error MSG_DUPLICATE_SUB resp, s)
      end
  | None => (resp, set_subscribers (<[u := add_sub k tx session ∅]> (subscribers s)) s)
  end.

Definition unsubscribe (u : uuid_t) (k : key_t) (tx : N) (resp : database_response)
    (session : session_id) (s : subscription_manager) : database_response * subscription_manager :=
  match subscribers s !! u with
  | None => (set_error MSG_INVALID_UUID resp, s)
  | Some ks =>
      match ks !! k with
      | None => (set_error MSG_INVALID_KEY resp, s)
      | Some ss =>
          match ss !! session with
          | None => (set_error MSG_INVALID_SUB resp, s)
          | Some txs =>
              match txs !! tx with
              | Some _ =>
                  (resp, set_subscribers (<[u := <[k := <[session := delete tx txs]> ss]> ks]> (subscribers s)) s)
              | None => (set_error MSG_INVALID_SUB resp, s)
              end
          end
      end
  end.

(** The message one subscriber is sent. *)
Definition notification (u : uuid_t) (update : bool) (k : key_t) (v : value_t) (tx : N) : database_response :=
  DbResponse (DbHeader u tx)
    (RespSubscriptionUpdate k (if bool_decide (v = "") then "" else v)
       (if update then UPDATE else DELETE)).

(** The two loops over [key_it->second] and [sessions.second], in the order of
    the hash maps. *)
Definition notify_session (alive : session_id → bool) (u : uuid_t) (update : bool) (k : key_t) (v : value_t)
    (txs : transactions) : M subscription_manager effect unit :=
  for_each (λ sub : N * session_id,
    when (alive sub.2) (emit (SendDatagram sub.2 (notification u update k v sub.1))))
    (map_to_list txs).

Definition notify_sessions (alive : session_id → bool) (u : uuid_t) (update : bool) (k : key_t) (v : value_t)
    : M subscription_manager effect unit :=
  s ← gets subscribers;
  match s !! u with
  | Some ks =>
      match ks !! k with
      | Some ss =>
          for_each (λ e : session_id * transactions, notify_session alive u update k v e.2)
            (map_to_list ss)
      | None => mret tt
      end
  | None => mret tt
  end.

Definition inspect_commit (alive : session_id → bool) (m : database_msg) : M subscription_manager effect unit :=
  match msg m with
  | DbCreate k v => notify_sessions alive (db_uuid (header m)) true k v
  | DbUpdate k v => notify_sessions alive (db_uuid (header m)) true k v
  | DbDelete k => notify_sessions alive (db_uuid (header m)) false k ""
  | _ => mret tt
  end.

(** The four nested loops of the purge: entries whose session is gone are
    erased, and so is every map that became empty on the way out. *)
Definition keep_nonempty `{Countable K} {A} (m : gmap K A) : option (gmap K A) :=
  if decide (m = ∅) then None else Some m.
Definition purge_transactions (alive : session_id → bool) (txs : transactions) : option transactions :=
  keep_nonempty (filter (λ e : N * session_id, alive e.2 = true) txs).
Definition purge_sessions (alive : session_id → bool) (ss : sessions) : option sessions :=
  keep_nonempty (omap (purge_transactions alive) ss).
Definition purge_keys (alive : session_id → bool) (ks : keys) : option keys :=
  keep_nonempty (omap (purge_sessions alive) ks).

Definition purge_closed_sessions (alive : session_id → bool) (ec : bool) : M subscription_manager effect unit :=
  when (negb ec)
    (modify (λ s, set_subscribers (omap (purge_keys alive) (subscribers s)) s);;
     emit StartPurgeTimer).

(** However often it is started, one timer is armed. *)
Lemma start_once_only s :
  (out (start;; start) s = out start s) ∧ post (start;; start) s = post start s ∧
  out start s = if start_once s then [] else [StartPurgeTimer].
Proof. unfold start, out, post. destruct s as [subs []]; done. Qed.

(** ** The abstract view: the set of subscriptions *)

Definition find_sub (s : subscription_manager) (u : uuid_t) (k : key_t) (session : session_id) (tx : N)
    : option session_id :=
  ks ← subscribers s !! u; ss ← ks !! k; txs ← ss !! session; txs !! tx.

(** A weak pointer is stored under the id of its own session. *)
Definition wf (s : subscription_manager) : Prop :=
  ∀ u k sid tx r, find_sub s u k sid tx = Some r → r = sid.

Lemma find_sub_add s u k tx sid ks u' k' sid' tx' :
  (subscribers s !! u = Some ks ∨ subscribers s !! u = None ∧ ks = ∅) →
  find_sub (set_subscribers (<[u := add_sub k tx sid ks]> (subscribers s)) s) u' k' sid' tx' =
  if decide ((u, k, sid, tx) = (u', k', sid', tx')) then Some sid else find_sub s u' k' sid' tx'.
Proof.
  intros Hks. unfold find_sub, add_sub. simpl. rewrite lookup_insert.
  destruct (decide (u = u')) as [<-|Hu].
  2: { case_decide; [congruence|done]. }
  simpl. assert (subscribers s !! u ≫= (λ ks, ks !! k') = ks !! k') as Hk.
  { destruct Hks as [->|[-> ->]]; simpl; by rewrite ?lookup_empty. }
  replace (subscribers s !! u ≫= λ ks0, ks0 !! k' ≫= λ ss, ss !! sid' ≫= λ txs, txs !! tx')
    with ((ks !! k') ≫= λ ss, ss !! sid' ≫= λ txs, txs !! tx').
  2: { rewrite <-Hk. by destruct (subscribers s !! u). }
  rewrite lookup_insert. destruct (decide (k = k')) as [<-|Hne].
  2: { case_decide; [congruence|done]. }
  simpl. rewrite lookup_insert. destruct (decide (sid = sid')) as [<-|Hs].
  - simpl. rewrite lookup_insert. repeat case_decide; simplify_eq; try done.
    destruct (ks !! k) as [ss|]; simpl; [destruct (ss !! sid); simpl|]; by rewrite ?lookup_empty.
  - case_decide; [congruence|]. destruct (ks !! k); simpl; by rewrite ?lookup_empty.
Qed.

(** Inserting or erasing one transaction id of an existing session. *)
Lemma find_sub_delete s u k tx sid ks ss txs u' k' sid' tx' :
  subscribers s !! u = Some ks → ks !! k = Some ss → ss !! sid = Some txs →
  find_sub (set_subscribers (<[u := <[k := <[sid := delete tx txs]> ss]> ks]> (subscribers s)) s) u' k' sid' tx' =
  if decide ((u, k, sid, tx) = (u', k', sid', tx')) then None else find_sub s u' k' sid' tx'.
Proof.
  intros Hu Hk Hs. unfold find_sub. simpl. rewrite lookup_insert.
  destruct (decide (u = u')) as [<-|Hne]; [|by rewrite decide_False by congruence].
  rewrite Hu. simpl. rewrite lookup_insert.
  destruct (decide (k = k')) as [<-|Hne]; [|by rewrite decide_False by congruence].
  rewrite Hk. simpl. rewrite lookup_insert.
  destruct (decide (sid = sid')) as [<-|Hne]; [|by rewrite decide_False by congruence].
  rewrite Hs. simpl. rewrite lookup_delete. repeat case_decide; congruence.
Qed.

Lemma subscribe_spec u k tx resp sid s :
  (is_Some (find_sub s u k sid tx) ∧
   subscribe u k tx resp sid s = (set_error MSG_DUPLICATE_SUB resp, s)) ∨
  (find_sub s u k sid tx = None ∧ (subscribe u k tx resp sid s).1 = resp ∧
   ∀ u' k' sid' tx', find_sub (subscribe u k tx resp sid s).2 u' k' sid' tx' =
     if decide ((u, k, sid, tx) = (u', k', sid', tx')) then Some sid
     else find_sub s u' k' sid' tx').
Proof.
  unfold subscribe, find_sub at 1 2.
  destruct (subscribers s !! u) as [ks|] eqn:Eu; simpl.
  2: { right. split_and!; [done..|]. intros. apply find_sub_add. by right. }
  destruct (ks !! k) as [ss|] eqn:Ek; simpl.
  2: { right. split_and!; [done..|]. intros. apply find_sub_add. by left. }
  destruct (ss !! sid) as [txs|] eqn:Es; simpl.
  2: { right. split_and!; [done..|]. intros. apply find_sub_add. by left. }
  destruct (txs !! tx) eqn:Et; simpl.
  - left. split; [by eexists|]. done.
  - right. split_and!; [done..|]. intros. apply find_sub_add. by left.
Qed.

Lemma unsubscribe_spec u k tx resp sid s :
  (is_Some (find_sub s u k sid tx) ∧ (unsubscribe u k tx resp sid s).1 = resp ∧
   ∀ u' k' sid' tx', find_sub (unsubscribe u k tx resp sid s).2 u' k' sid' tx' =
     if decide ((u, k, sid, tx) = (u', k', sid', tx')) then None
     else find_sub s u' k' sid' tx') ∨
  (find_sub s u k sid tx = None ∧ (unsubscribe u k tx resp sid s).2 = s ∧
   ∃ m, m ∈ [MSG_INVALID_UUID; MSG_INVALID_KEY; MSG_INVALID_SUB] ∧
     (unsubscribe u k tx resp sid s).1 = set_error m resp).
Proof.
  remember (find_sub s u k sid tx) as f eqn:Hf. unfold find_sub in Hf. unfold unsubscribe.
  destruct (subscribers s !! u) as [ks|] eqn:Eu; simpl in *.
  2: { right. split_and!; [done..|]. eexists. split; [|done]. set_solver. }
  destruct (ks !! k) as [ss|] eqn:Ek; simpl in *.
  2: { right. split_and!; [done..|]. eexists. split; [|done]. set_solver. }
  destruct (ss !! sid) as [txs|] eqn:Es; simpl in *.
  2: { right. split_and!; [done..|]. eexists. split; [|done]. set_solver. }
  destruct (txs !! tx) eqn:Et; simpl in *; subst f.
  - left. split_and!; [by eexists|done|]. intros. by apply find_sub_delete.
  - right. split_and!; [done..|]. eexists. split; [|done]. set_solver.
Qed.

(** *** The purge *)

Lemma lookup_keep_nonempty `{Countable K} {A} (m : gmap K A) k :
  keep_nonempty m ≫= (.!! k) = m !! k.
Proof. unfold keep_nonempty. case_decide as Hm; [|done]. by rewrite Hm, lookup_empty. Qed.

Lemma keep_nonempty_ne `{Countable K} {A} (m m' : gmap K A) :
  keep_nonempty m = Some m' → m' ≠ ∅.
Proof. unfold keep_nonempty. case_decide; naive_solver. Qed.

Definition purged (alive : session_id → bool) (s : subscription_manager) : subscription_manager :=
  set_subscribers (omap (purge_keys alive) (subscribers s)) s.

Lemma find_sub_purged alive s u k sid tx :
  find_sub (purged alive s) u k sid tx =
  r ← find_sub s u k sid tx; if alive r then Some r else None.
Proof.
  unfold find_sub, purged. simpl. rewrite lookup_omap.
  destruct (subscribers s !! u) as [ks|]; [|done]. simpl.
  unfold purge_keys at 1.
  trans (omap (purge_sessions alive) ks !! k ≫= λ ss, ss !! sid ≫= λ txs, txs !! tx).
  { rewrite <-(lookup_keep_nonempty (omap _ ks)). by destruct (keep_nonempty _). }
  rewrite lookup_omap. destruct (ks !! k) as [ss|]; [|done]. simpl.
  unfold purge_sessions.
  trans (omap (purge_transactions alive) ss !! sid ≫= λ txs, txs !! tx).
  { rewrite <-(lookup_keep_nonempty (omap _ ss)). by destruct (keep_nonempty _). }
  rewrite lookup_omap. destruct (ss !! sid) as [txs|]; [|done]. simpl.
  unfold purge_transactions. rewrite lookup_keep_nonempty, map_lookup_filter.
  destruct (txs !! tx) as [r|]; [|done]. simpl.
  destruct (alive r) eqn:E; [by rewrite option_guard_True|by rewrite option_guard_False by (simpl; congruence)].
Qed.

(** No map of the table is empty after a purge. *)
Definition no_empty_maps (s : subscription_manager) : Prop :=
  map_Forall (λ _ ks, ks ≠ ∅ ∧ map_Forall (λ _ ss, ss ≠ ∅ ∧ map_Forall (λ _ txs, txs ≠ ∅) ss) ks)
    (subscribers s).

Lemma purged_no_empty_maps alive s : no_empty_maps (purged alive s).
Proof.
  intros u ks. unfold purged. simpl. rewrite lookup_omap. intros (ks0 & _ & Hks)%bind_Some.
  split; [by eapply keep_nonempty_ne|]. unfold purge_keys, keep_nonempty in Hks.
  case_decide; simplify_eq. intros k ss. rewrite lookup_omap. intros (ss0 & _ & Hss)%bind_Some.
  split; [by eapply keep_nonempty_ne|]. unfold purge_sessions, keep_nonempty in Hss.
  case_decide; simplify_eq. intros sid txs. rewrite lookup_omap. intros (txs0 & _ & Htx)%bind_Some.
  by eapply keep_nonempty_ne.
Qed.

(** *** Notifications *)

Lemma res_for_each_emit {A St Ef} (f : A → M St Ef unit) l s :
  (∀ x s, x ∈ l → res (f x) s = Ok tt ∧ post (f x) s = s) →
  res (for_each f l) s = Ok tt ∧ post (for_each f l) s = s ∧
  out (for_each f l) s = l ≫= (λ x, out (f x) s).
Proof.
  induction l as [|x l IH]; intros Hf; [done|]. simpl.
  destruct (Hf x s ltac:(left)) as [Hr Hp].
  destruct IH as (IH1 & IH2 & IH3); [intros; apply Hf; by right|].
  run_simpl. rewrite Hr, Hp, IH1, IH2, IH3. done.
Qed.

Lemma notify_session_run alive u upd k v txs s :
  res (notify_session alive u upd k v txs) s = Ok tt ∧
  post (notify_session alive u upd k v txs) s = s ∧
  out (notify_session alive u upd k v txs) s =
  map_to_list txs ≫= λ sub,
    if alive sub.2 then [SendDatagram sub.2 (notification u upd k v sub.1)] else [].
Proof.
  unfold notify_session. destruct (res_for_each_emit (λ sub : N * session_id,
    when (alive sub.2) (emit (SendDatagram sub.2 (notification u upd k v sub.1))))
    (map_to_list txs) s) as (? & ? & Hout).
  { intros x s' _. unfold when. by case_match. }
  split_and!; [done..|]. rewrite Hout. apply list_bind_ext; [|done].
  intros [tx r]. unfold when. by destruct (alive _).
Qed.

Lemma notify_sessions_run alive u upd k v s :
  res (notify_sessions alive u upd k v) s = Ok tt ∧
  post (notify_sessions alive u upd k v) s = s ∧
  ∀ e, e ∈ out (notify_sessions alive u upd k v) s ↔
    ∃ sid tx r, find_sub s u k sid tx = Some r ∧ alive r = true ∧
      e = SendDatagram r (notification u upd k v tx).
Proof.
  unfold notify_sessions, find_sub. run_simpl.
  destruct (subscribers s !! u) as [ks|]; simpl.
  2: { split_and!; [done..|]. intros e. split; [by intros ?%elem_of_nil|naive_solver]. }
  destruct (ks !! k) as [ss|]; simpl.
  2: { split_and!; [done..|]. intros e. split; [by intros ?%elem_of_nil|naive_solver]. }
  destruct (res_for_each_emit (λ e : session_id * transactions, notify_session alive u upd k v e.2)
              (map_to_list ss) s) as (Hr & Hp & Ho).
  { intros x s' _. by destruct (notify_session_run alive u upd k v x.2 s') as (?&?&?). }
  rewrite Hr, Hp, Ho. split_and!; [done..|]. intros e. rewrite list_elem_of_bind. split.
  - intros ([sid txs] & He & Hin%elem_of_map_to_list).
    rewrite (proj2 (proj2 (notify_session_run _ _ _ _ _ _ _))) in He.
    apply list_elem_of_bind in He as ([tx r] & He & Htx%elem_of_map_to_list).
    simpl in He. destruct (alive r) eqn:Ea; [|by apply elem_of_nil in He].
    apply list_elem_of_singleton in He. exists sid, tx, r. by rewrite Hin.
  - intros (sid & tx & r & Hf & Ha & ->). apply bind_Some in Hf as (txs & Hs & Ht).
    exists (sid, txs). split; [|by apply elem_of_map_to_list].
    rewrite (proj2 (proj2 (notify_session_run _ _ _ _ _ _ _))). apply list_elem_of_bind.
    exists (tx, r). split; [|by apply elem_of_map_to_list]. simpl. rewrite Ha. by left.
Qed.

End subscription_manager.

(** ** Claims *)

(** C38: when a create, update or delete of a key commits, the manager sends
    one update message to every live subscription of that key of that database,
    carrying the subscription's own transaction id, and sends nothing else; any
    other message sends nothing.  The table is left as it is. *)
Theorem commit_notifies_subscribers (alive : session_id → bool) (m : database_msg)
    (s : subscription_manager.subscription_manager) :
  let u := db_uuid (header m) in
  let datagrams := out (subscription_manager.inspect_commit alive m) s in
  let sent (upd : bool) (k : key_t) (v : value_t) := ∀ e,
    e ∈ datagrams ↔
    ∃ sid tx r, subscription_manager.find_sub s u k sid tx = Some r ∧ alive r = true ∧
      e = subscription_manager.SendDatagram r
            (DbResponse (DbHeader u tx) (RespSubscriptionUpdate k v (if upd then UPDATE else DELETE))) in
  post (subscription_manager.inspect_commit alive m) s = s ∧
  match msg m with
  | DbCreate k v | DbUpdate k v => sent true k v
  | DbDelete k => sent false k ""
  | _ => datagrams = []
  end.
Proof.
  intros u datagrams sent. subst datagrams sent. unfold subscription_manager.inspect_commit.
  assert (∀ upd k v, subscription_manager.notification u upd k v
            = λ tx, DbResponse (DbHeader u tx) (RespSubscriptionUpdate k v (if upd then UPDATE else DELETE))) as Hn.
  { intros upd k v. unfold subscription_manager.notification. by case_bool_decide; subst. }
  destruct (msg m) as [|k v|k|k v|k|k| | |k|k t]; try done.
  - destruct (subscription_manager.notify_sessions_run alive u true k v s) as (_ & Hp & Ho).
    split; [done|]. intros e. rewrite Hn in Ho. apply Ho.
  - destruct (subscription_manager.notify_sessions_run alive u true k v s) as (_ & Hp & Ho).
    split; [done|]. intros e. rewrite Hn in Ho. apply Ho.
  - destruct (subscription_manager.notify_sessions_run alive u false k "" s) as (_ & Hp & Ho).
    split; [done|]. intros e. rewrite Hn in Ho. apply Ho.
Qed.

(** the purge removes exactly the subscriptions of closed sessions, leaves
    no empty map in the table, re-arms its timer, and does not change whom a
    later commit notifies; a purge that was cancelled does nothing. *)
Theorem purge_keeps_live_subscriptions (alive : session_id → bool)
    (s : subscription_manager.subscription_manager) :
  let s' := post (subscription_manager.purge_closed_sessions alive false) s in
  (∀ u k sid tx r,
     subscription_manager.find_sub s' u k sid tx = Some r ↔
     subscription_manager.find_sub s u k sid tx = Some r ∧ alive r = true) ∧
  subscription_manager.no_empty_maps s' ∧
  out (subscription_manager.purge_closed_sessions alive false) s = [subscription_manager.StartPurgeTimer] ∧
  (∀ m e, e ∈ out (subscription_manager.inspect_commit alive m) s' ↔
          e ∈ out (subscription_manager.inspect_commit alive m) s) ∧
  subscription_manager.purge_closed_sessions alive true s = (Ok tt, s, []).
Proof.
  intros s'. assert (s' = subscription_manager.purged alive s) as Hs' by done. clearbody s'.
  assert (∀ u k sid tx r,
     subscription_manager.find_sub s' u k sid tx = Some r ↔
     subscription_manager.find_sub s u k sid tx = Some r ∧ alive r = true) as Hf.
  { intros u k sid tx r. rewrite Hs', subscription_manager.find_sub_purged, bind_Some. split.
    - intros (x & -> & ?). by destruct (alive x) eqn:?; simplify_eq.
    - intros [-> Ha]. exists r. by rewrite Ha. }
  split_and!; [done| |done| |done].
  - rewrite Hs'. apply subscription_manager.purged_no_empty_maps.
  - assert (∀ u upd k v e,
      e ∈ out (subscription_manager.notify_sessions alive u upd k v) s' ↔
      e ∈ out (subscription_manager.notify_sessions alive u upd k v) s) as Hn.
    { intros u upd k v e.
      rewrite (proj2 (proj2 (subscription_manager.notify_sessions_run alive u upd k v s'))).
      rewrite (proj2 (proj2 (subscription_manager.notify_sessions_run alive u upd k v s))).
      setoid_rewrite Hf. naive_solver. }
    intros m e. unfold subscription_manager.inspect_commit. by case_match; try apply Hn.
Qed.

(** subscribing and unsubscribing are inverse.  A subscription that is not
    in the table is accepted without an error and entered; repeating it is
    answered with [DUPLICATE_SUB] and changes nothing; withdrawing it is
    accepted and gives the table of subscriptions of before; withdrawing it a
    second time is an error. *)
Theorem subscription_round_trip (u : uuid_t) (k : key_t) (tx : N) (sid : session_id)
    (resp : database_response) (s : subscription_manager.subscription_manager) :
  subscription_manager.find_sub s u k sid tx = None →
  let '(r1, s1) := subscription_manager.subscribe u k tx resp sid s in
  let '(r2, s2) := subscription_manager.unsubscribe u k tx resp sid s1 in
  r1 = resp ∧ subscription_manager.find_sub s1 u k sid tx = Some sid ∧
  subscription_manager.subscribe u k tx resp sid s1 =
    (set_error subscription_manager.MSG_DUPLICATE_SUB resp, s1) ∧
  r2 = resp ∧
  (∀ u' k' sid' tx', subscription_manager.find_sub s2 u' k' sid' tx' =
                     subscription_manager.find_sub s u' k' sid' tx') ∧
  ∃ e, (subscription_manager.unsubscribe u k tx resp sid s2).1 = set_error e resp.
Proof.
  intros Hn. destruct (subscription_manager.subscribe_spec u k tx resp sid s)
    as [[[??] _]|(_ & H1 & H2)]; [congruence|].
  destruct (subscription_manager.subscribe _ _ _ _ _ s) as [r1 s1] eqn:E1. simpl in *.
  assert (subscription_manager.find_sub s1 u k sid tx = Some sid) as Hs1.
  { by rewrite H2, decide_True. }
  destruct (subscription_manager.unsubscribe_spec u k tx resp sid s1)
    as [(_ & H3 & H4)|(H3 & _)]; [|congruence].
  destruct (subscription_manager.unsubscribe _ _ _ _ _ s1) as [r2 s2] eqn:E2. simpl in *.
  split_and!; [done..| |done| |].
  - destruct (subscription_manager.subscribe_spec u k tx resp sid s1) as [[_ ?]|[? _]]; congruence.
  - intros u' k' sid' tx'. rewrite H4, H2. case_decide; [by simplify_eq|done].
  - destruct (subscription_manager.unsubscribe_spec u k tx resp sid s2) as [[[x Hx] _]|(_ & _ & e & _ & He)].
    + rewrite H4, decide_True in Hx; done.
    + by exists e.
Qed.

Example subscription_round_trip_witness :
  subscription_manager.find_sub subscription_manager.empty "db" "k" 7 1 = None ∧
  (subscription_manager.subscribe "db" "k" 1 default_response 7 subscription_manager.empty).1 = default_response.
Proof.
  assert (subscription_manager.find_sub subscription_manager.empty "db" "k" 7 1 = None) as H by reflexivity.
  split; [exact H|].
  pose proof (subscription_round_trip "db" "k" 1 7 default_response subscription_manager.empty H) as W.
  destruct (subscription_manager.subscribe _ _ _ _ _ _), (subscription_manager.unsubscribe _ _ _ _ _ _).
  exact (proj1 W).
Defined.
