(* ===== verification/Crud.v ===== *)
(** * CRUD over a store

    [crud/crud.cpp]: the requests that PBFT has ordered are executed against a
    store, and the client's session, if it is still there, is answered.  The
    store is any implementation of [storage_base]; what is proved uses the
    interface of [Storage] only. *)

From S2P Require Import Prelude Messages Storage.

Module crud_base.

Definition MSG_INVALID_RAFT_STATE : string := "INVALID_RAFT_STATE".
Definition MSG_INVALID_CRUD_COMMAND : string := "INVALID_CRUD".
Definition MSG_ELECTION_IN_PROGRESS : string := "ELECTION_IN_PROGRESS".
Definition MSG_RECORD_EXISTS : string := "RECORD_EXISTS".
Definition MSG_RECORD_NOT_FOUND : string := "RECORD_NOT_FOUND".
Definition MSG_INVALID_ARGUMENTS : string := "INVALID_ARGUMENTS".
Definition MSG_VALUE_SIZE_TOO_LARGE : string := "VALUE_SIZE_TOO_LARGE".
Definition MSG_KEY_SIZE_TOO_LARGE : string := "KEY_SIZE_TOO_LARGE".

(** [session->send_message(response, end_session)]. *)
Inductive effect :=
| SendMessage (session : session_id) (resp : database_response) (end_session : bool).

End crud_base.

Module crud.
Import storage_base crud_base.

Section Handlers.
Context {S : Type} `{!Storage S}.

Abbreviation crudM := (M S effect).

(** Running a writer of the store. *)
Definition store (f : S → storage_result * S) : crudM storage_result :=
  λ s, let '(r, s') := f s in (Ok r, s', []).

(** The error a result code is reported as; [not_saved] is only logged. *)
Definition error_message (r : storage_result) : option string :=
  match r with
  | ok => None
  | value_too_large => Some MSG_VALUE_SIZE_TOO_LARGE
  | key_too_large => Some MSG_KEY_SIZE_TOO_LARGE
  | exists_ => Some MSG_RECORD_EXISTS
  | not_found => Some MSG_RECORD_NOT_FOUND
  | not_saved => None
  end.

Definition send_response (request : database_msg) (r : storage_result)
    (resp : database_response) (session : session_id) : crudM unit :=
  let resp := set_header (header request) resp in
  let resp := match error_message r with
              | Some m => set_error m resp
              | None => resp
              end in
  emit (SendMessage session resp false).

(** [handle_create] to [handle_size] take the arguments their request carries;
    the readers are executed only for a session that can be answered. *)
Definition handle_create (request : database_msg) (k : key_t) (v : value_t) (session : option session_id) : crudM unit :=
  r ← store (create (db_uuid (header request)) k v);
  match session with
  | Some sid => send_response request r default_response sid
  | None => mret tt
  end.

Definition handle_read (request : database_msg) (k : key_t) (session : option session_id) : crudM unit :=
  match session with
  | Some sid =>
      result ← gets (read (db_uuid (header request)) k);
      let resp := match result with
                  | Some v => set_response (RespRead k v) default_response
                  | None => default_response
                  end in
      send_response request (if result is Some _ then ok else not_found) resp sid
  | None => mret tt
  end.

Definition handle_update (request : database_msg) (k : key_t) (v : value_t) (session : option session_id) : crudM unit :=
  r ← store (update (db_uuid (header request)) k v);
  match session with
  | Some sid => send_response request r default_response sid
  | None => mret tt
  end.

Definition handle_delete (request : database_msg) (k : key_t) (session : option session_id) : crudM unit :=
  r ← store (remove (db_uuid (header request)) k);
  match session with
  | Some sid => send_response request r default_response sid
  | None => mret tt
  end.

Definition handle_has (request : database_msg) (k : key_t) (session : option session_id) : crudM unit :=
  match session with
  | Some sid =>
      found ← gets (has (db_uuid (header request)) k);
      send_response request (if found : bool then ok else not_found) default_response sid
  | None => mret tt
  end.

Definition handle_keys (request : database_msg) (session : option session_id) : crudM unit :=
  match session with
  | Some sid =>
      keys ← gets (get_keys (db_uuid (header request)));
      send_response request ok (set_response (RespKeys keys) default_response) sid
  | None => mret tt
  end.

(** [set_keys] and [set_bytes] take an [int32]. *)
Definition handle_size (request : database_msg) (session : option session_id) : crudM unit :=
  match session with
  | Some sid =>
      ks ← gets (get_size (db_uuid (header request)));
      send_response request ok
        (set_response (RespSize (to_int32 ks.2) (to_int32 ks.1)) default_response) sid
  | None => mret tt
  end.

(** The table [message_handlers]: subscriptions have no handler. *)
Definition handle_request (request : database_msg) (session : option session_id) : crudM unit :=
  match msg request with
  | DbCreate k v => handle_create request k v session
  | DbRead k => handle_read request k session
  | DbUpdate k v => handle_update request k v session
  | DbDelete k => handle_delete request k session
  | DbHas k => handle_has request k session
  | DbKeys => handle_keys request session
  | DbSize => handle_size request session
  | DbNotSet | DbSubscribe _ | DbUnsubscribe _ _ => mret tt
  end.

(** ** The effect of a request on the store *)

(** What the request does to the store, whoever asked. *)
Definition apply_request (request : database_msg) (s : S) : S :=
  match msg request with
  | DbCreate k v => (create (db_uuid (header request)) k v s).2
  | DbUpdate k v => (update (db_uuid (header request)) k v s).2
  | DbDelete k => (remove (db_uuid (header request)) k s).2
  | _ => s
  end.

Lemma run_store f s : store f s = (Ok (f s).1, (f s).2, []).
Proof. unfold store. by destruct (f s). Qed.

Lemma res_store f s : res (store f) s = Ok (f s).1.
Proof. unfold res. by rewrite run_store. Qed.
Lemma post_store f s : post (store f) s = (f s).2.
Proof. unfold post. by rewrite run_store. Qed.
Lemma out_store f s : out (store f) s = [].
Proof. unfold out. by rewrite run_store. Qed.

Lemma handle_request_run request session s :
  res (handle_request request session) s = Ok tt ∧
  post (handle_request request session) s = apply_request request s.
Proof.
  unfold handle_request, apply_request, handle_create, handle_read, handle_update,
    handle_delete, handle_has, handle_keys, handle_size, send_response.
  destruct (msg request), session; try done; autorewrite with run;
    rewrite ?res_store, ?post_store; done.
Qed.

(** The answer to a request that reaches a live session. *)
Definition answer (request : database_msg) (s : S) : option database_result :=
  let u := db_uuid (header request) in
  let code r := default RespNotSet (RespError <$> error_message r) in
  match msg request with
  | DbCreate k v => Some (code (create u k v s).1)
  | DbRead k => Some (match read u k s with Some v => RespRead k v | None => RespError MSG_RECORD_NOT_FOUND end)
  | DbUpdate k v => Some (code (update u k v s).1)
  | DbDelete k => Some (code (remove u k s).1)
  | DbHas k => Some (if has u k s then RespNotSet else RespError MSG_RECORD_NOT_FOUND)
  | DbKeys => Some (RespKeys (get_keys u s))
  | DbSize => Some (RespSize (to_int32 (get_size u s).2) (to_int32 (get_size u s).1))
  | DbNotSet | DbSubscribe _ | DbUnsubscribe _ _ => None
  end.

Lemma handle_request_out request session s :
  out (handle_request request session) s =
  match session, answer request s with
  | Some sid, Some x => [SendMessage sid (DbResponse (header request) x) false]
  | _, _ => []
  end.
Proof.
  unfold handle_request, answer, handle_create, handle_read, handle_update,
    handle_delete, handle_has, handle_keys, handle_size, send_response.
  destruct (msg request), session; try done; autorewrite with run;
    rewrite ?res_store, ?post_store, ?out_store; simpl; try done.
  all: try (by destruct (error_message _)).
  - by destruct (read _ _ _).
  - by destruct (has _ _ _).
Qed.

End Handlers.
End crud.

(** ** Requests against the abstract map *)
Module crud_spec.
Import storage_base crud_base.

Definition apply_request (request : database_msg) (m : storage_spec.contents) : storage_spec.contents :=
  match msg request with
  | DbCreate k v => (storage_spec.create (db_uuid (header request)) k v m).2
  | DbUpdate k v => (storage_spec.update (db_uuid (header request)) k v m).2
  | DbDelete k => (storage_spec.remove (db_uuid (header request)) k m).2
  | _ => m
  end.

(** The content of the reply to the requests whose answer is a value or a code. *)
Definition reply (request : database_msg) (m : storage_spec.contents) : option database_result :=
  let u := db_uuid (header request) in
  let code r := default RespNotSet (RespError <$> crud.error_message r) in
  match msg request with
  | DbCreate k v => Some (code (storage_spec.create u k v m).1)
  | DbRead k =>
      Some (match m !! (u, k) with Some v => RespRead k v | None => RespError MSG_RECORD_NOT_FOUND end)
  | DbUpdate k v => Some (code (storage_spec.update u k v m).1)
  | DbDelete k => Some (code (storage_spec.remove u k m).1)
  | DbHas k => Some (if m !! (u, k) is Some _ then RespNotSet else RespError MSG_RECORD_NOT_FOUND)
  | _ => None
  end.

Section Refinement.
Context {S : Type} `{Hst : !Storage S} (valid_uuid : uuid_t → Prop)
  (wf : S → Prop) (R : S → storage_spec.contents → Prop)
  `{Href : !StorageRefines S valid_uuid wf R} `{Hrel : !ReliableStorage S valid_uuid}.

Lemma create_code u k v s m :
  wf s → R s m → valid_uuid u →
  (create u k v s).1 = (storage_spec.create u k v m).1 ∧
  wf (create u k v s).2 ∧ R (create u k v s).2 (storage_spec.create u k v m).2.
Proof using Href Hrel.
  intros Hw HR Hu. pose proof (refines_create s m u k v Hw HR Hu) as Hs.
  pose proof (create_saved u k v s Hu).
  destruct (create u k v s), (storage_spec.create u k v m). naive_solver.
Qed.

Lemma update_code u k v s m :
  wf s → R s m → valid_uuid u →
  (update u k v s).1 = (storage_spec.update u k v m).1 ∧
  wf (update u k v s).2 ∧ R (update u k v s).2 (storage_spec.update u k v m).2.
Proof using Href Hrel.
  intros Hw HR Hu. pose proof (refines_update s m u k v Hw HR Hu) as Hs.
  pose proof (update_saved u k v s Hu).
  destruct (update u k v s), (storage_spec.update u k v m). naive_solver.
Qed.

Lemma remove_code u k s m :
  wf s → R s m → valid_uuid u →
  (remove u k s).1 = (storage_spec.remove u k m).1 ∧
  wf (remove u k s).2 ∧ R (remove u k s).2 (storage_spec.remove u k m).2.
Proof using Href Hrel.
  intros Hw HR Hu.
  pose proof (storage_client.perform_refines valid_uuid wf R (storage_client.Remove u k) s m Hw HR Hu) as Hs.
  simpl in Hs. destruct (remove u k s), (storage_spec.remove u k m). naive_solver.
Qed.

Lemma apply_request_refines request s m :
  wf s → R s m → valid_uuid (db_uuid (header request)) →
  wf (crud.apply_request request s) ∧ R (crud.apply_request request s) (apply_request request m).
Proof using Href Hrel.
  intros Hw HR Hu. unfold crud.apply_request, apply_request.
  destruct (msg request); try done;
    [by apply create_code|by apply update_code|by apply remove_code].
Qed.

Lemma answer_refines request s m x :
  wf s → R s m → valid_uuid (db_uuid (header request)) →
  reply request m = Some x → crud.answer request s = Some x.
Proof using Href Hrel.
  intros Hw HR Hu. unfold crud.answer, reply. destruct (msg request); try done.
  - by rewrite (proj1 (create_code _ _ _ _ _ Hw HR Hu)).
  - by rewrite (refines_read s m _ _ Hw HR Hu).
  - by rewrite (proj1 (update_code _ _ _ _ _ Hw HR Hu)).
  - by rewrite (proj1 (remove_code _ _ _ _ Hw HR Hu)).
  - rewrite (refines_has s m _ _ Hw HR Hu). by destruct (m !! _).
Qed.

(** Executing a list of ordered requests, each with its session (or none). *)
Fixpoint execute (rs : list (database_msg * option session_id)) : M S effect unit :=
  match rs with
  | [] => mret tt
  | (r, session) :: rs => crud.handle_request r session;; execute rs
  end.

Lemma execute_post rs s :
  post (execute rs) s = foldl (λ s r, crud.apply_request r.1 s) s rs.
Proof using.
  revert s. induction rs as [|[r o] rs IH]; intros s; [done|]. simpl. run_simpl.
  destruct (crud.handle_request_run r o s) as [-> ->]. apply IH.
Qed.

Lemma execute_refines rs s m :
  wf s → R s m → Forall (λ r, valid_uuid (db_uuid (header r.1))) rs →
  R (post (execute rs) s) (foldl (λ m r, apply_request r.1 m) m rs).
Proof using Href Hrel.
  intros Hw HR Hrs. rewrite execute_post. revert s m Hw HR.
  induction Hrs as [|r rs Hr _ IH]; intros s m Hw HR; [done|]. simpl.
  destruct (apply_request_refines r.1 s m Hw HR Hr). by apply IH.
Qed.

End Refinement.
End crud_spec.

(** ** Claims *)

(** replicas agree.  Two nodes that execute the same ordered requests, over
    stores of possibly different kinds that stand for one map, end with stores
    that stand for one map, whichever of the requests has a client session on
    which node. *)
Theorem crud_replicas_agree {S1 S2 : Type} `{!storage_base.Storage S1} `{!storage_base.Storage S2}
    (valid : uuid_t → Prop)
    (wf1 : S1 → Prop) (R1 : S1 → storage_spec.contents → Prop)
    (wf2 : S2 → Prop) (R2 : S2 → storage_spec.contents → Prop)
    `{!StorageRefines S1 valid wf1 R1} `{!ReliableStorage S1 valid}
    `{!StorageRefines S2 valid wf2 R2} `{!ReliableStorage S2 valid}
    (s1 : S1) (s2 : S2) (m : storage_spec.contents)
    (rs1 rs2 : list (database_msg * option session_id)) :
  wf1 s1 → wf2 s2 → R1 s1 m → R2 s2 m →
  rs1.*1 = rs2.*1 → Forall (λ r, valid (db_uuid (header r))) rs1.*1 →
  ∃ m', R1 (post (crud_spec.execute rs1) s1) m' ∧ R2 (post (crud_spec.execute rs2) s2) m'.
Proof.
  intros Hw1 Hw2 HR1 HR2 Heq Hv.
  assert (∀ rs : list (database_msg * option session_id),
    foldl (λ m r, crud_spec.apply_request r.1 m) m rs =
    foldl (λ m r, crud_spec.apply_request r m) m rs.*1) as Hf.
  { intros rs. generalize m. induction rs as [|r rs IH]; intros m'; [done|]. apply IH. }
  exists (foldl (λ m r, crud_spec.apply_request r m) m rs1.*1). split.
  - rewrite <-Hf. eapply (crud_spec.execute_refines valid); [done..|].
    by rewrite Forall_fmap in Hv.
  - rewrite Heq, <-Hf. eapply (crud_spec.execute_refines valid); [done..|].
    rewrite Heq in Hv. by rewrite Forall_fmap in Hv.
Qed.

Example crud_replicas_agree_witness :
  let r := DbMsg (DbHeader "db" 1) (DbCreate "k" "v") in
  ∃ m', mem_storage.represents (post (crud_spec.execute [(r, Some 5%N)]) mem_storage.empty) m'
      ∧ mem_storage.represents (post (crud_spec.execute [(r, None)]) mem_storage.empty) m'.
Proof.
  intros r.
  apply (crud_replicas_agree (λ _, True) (λ _, True) mem_storage.represents
           (λ _, True) mem_storage.represents mem_storage.empty mem_storage.empty ∅
           [(r, Some 5%N)] [(r, None)]); try exact I.
  - intros u k. reflexivity.
  - intros u k. reflexivity.
  - reflexivity.
  - repeat constructor.
Defined.

(** C32: a request from a live session is answered with exactly one message,
    which carries the request's header and says what the abstract map says:
    the value, the presence of the record, or the error of the operation. *)
Theorem crud_answers_as_map {S : Type} `{!storage_base.Storage S}
    (valid : uuid_t → Prop) (wf : S → Prop) (R : S → storage_spec.contents → Prop)
    `{!StorageRefines S valid wf R} `{!ReliableStorage S valid}
    (request : database_msg) (sid : session_id) (s : S) (m : storage_spec.contents) (x : database_result) :
  wf s → R s m → valid (db_uuid (header request)) → crud_spec.reply request m = Some x →
  out (crud.handle_request request (Some sid)) s =
    [crud_base.SendMessage sid (DbResponse (header request) x) false] ∧
  R (post (crud.handle_request request (Some sid)) s) (crud_spec.apply_request request m).
Proof.
  intros Hw HR Hv Hx. rewrite crud.handle_request_out, (crud_spec.answer_refines valid wf R _ s m x) by done.
  split; [done|]. rewrite (proj2 (crud.handle_request_run request (Some sid) s)).
  by apply (crud_spec.apply_request_refines valid wf R).
Qed.

Example crud_answers_as_map_witness :
  out (crud.handle_request (DbMsg (DbHeader "db" 3) (DbRead "k")) (Some 9%N))
    (mem_storage.create "db" "k" "v" mem_storage.empty).2 =
  [crud_base.SendMessage 9 (DbResponse (DbHeader "db" 3) (RespRead "k" "v")) false].
Proof.
  apply (crud_answers_as_map (λ _, True) (λ _, True) mem_storage.represents
    (DbMsg (DbHeader "db" 3) (DbRead "k")) 9
    (mem_storage.create "db" "k" "v" mem_storage.empty).2 {[("db", "k") := "v"]}).
  - exact I.
  - refine (proj2 (mem_storage.create_simulates "db" "k" "v" mem_storage.empty ∅ _)).
    intros u k. reflexivity.
  - exact I.
  - reflexivity.
Defined.

(** a write that the engine refuses ([not_saved]) is acknowledged to the
    client like a write that succeeded: the reply carries no error. *)
Theorem crud_not_saved_is_acknowledged {S : Type} `{!storage_base.Storage S}
    (h : database_header) (k : key_t) (v : value_t) (sid : session_id) (s : S) :
  (storage_base.create (db_uuid h) k v s).1 = storage_base.not_saved →
  out (crud.handle_request (DbMsg h (DbCreate k v)) (Some sid)) s =
  [crud_base.SendMessage sid (DbResponse h RespNotSet) false].
Proof. intros Hs. rewrite crud.handle_request_out. unfold crud.answer. simpl. by rewrite Hs. Qed.

(** An engine that refuses every write. *)
Definition read_only_store : storage_base.Storage unit := {|
  storage_base.create _ _ _ s := (storage_base.not_saved, s);
  storage_base.read _ _ _ := None;
  storage_base.update _ _ _ s := (storage_base.not_found, s);
  storage_base.remove _ _ s := (storage_base.not_found, s);
  storage_base.get_keys _ _ := [];
  storage_base.has _ _ _ := false;
  storage_base.get_size _ _ := (0, 0)%N
|}.

Example crud_not_saved_is_acknowledged_witness :
  out (crud.handle_request (Storage0 := read_only_store) (DbMsg (DbHeader "db" 1) (DbCreate "k" "v")) (Some 2%N)) tt =
  [crud_base.SendMessage 2 (DbResponse (DbHeader "db" 1) RespNotSet) false].
Proof.
  apply (@crud_not_saved_is_acknowledged unit read_only_store (DbHeader "db" 1) "k" "v" 2 tt).
  reflexivity.
Defined.
