(* ===== verification/PbftOperation.v ===== *)
(** * One PBFT operation

    [pbft/pbft_operation.cpp]: what a node knows of one request at one view and
    sequence number: whether it saw the preprepare, who sent a prepare and who
    a commit, and how far the operation is. *)

From stdpp Require Import relations.
From S2P Require Import Prelude Messages.

(** The text of a request, by protobuf's generated code. *)
Class Protobuf := { ShortDebugString : pbft_request → string }.

(** View, sequence and request hash; view and sequence. *)
Abbreviation operation_key_t := (N * N * hash_t)%type.
Abbreviation log_key_t := (N * N)%type.

Module pbft_operation.

Inductive pbft_operation_state := prepare | commit | committed.

#[global] Instance pbft_operation_state_eq_dec : EqDecision pbft_operation_state.
Proof. solve_decision. Defined.

Record pbft_operation := Operation {
  view : N;
  sequence : N;
  request : pbft_request;
  peers : list peer_address_t;
  state : pbft_operation_state;
  preprepare_seen : bool;
  prepares_seen : gset uuid_t;
  commits_seen : gset uuid_t;
  listener_session : option session_id
}.

(** The constructor. *)
Definition new (v n : N) (r : pbft_request) (ps : list peer_address_t) : pbft_operation :=
  Operation v n r ps prepare false ∅ ∅ None.

Definition set_state (st : pbft_operation_state) (op : pbft_operation) : pbft_operation :=
  Operation (view op) (sequence op) (request op) (peers op) st (preprepare_seen op)
    (prepares_seen op) (commits_seen op) (listener_session op).

Definition record_preprepare (encoded_preprepare : bzn_envelope) (op : pbft_operation) : pbft_operation :=
  Operation (view op) (sequence op) (request op) (peers op) (state op) true
    (prepares_seen op) (commits_seen op) (listener_session op).

Definition has_preprepare (op : pbft_operation) : bool := preprepare_seen op.

Definition record_prepare (encoded_prepare : bzn_envelope) (op : pbft_operation) : pbft_operation :=
  Operation (view op) (sequence op) (request op) (peers op) (state op) (preprepare_seen op)
    ({[ sender encoded_prepare ]} ∪ prepares_seen op) (commits_seen op) (listener_session op).

(** [(peers->size() - 1) / 3], in [size_t]. *)
Definition faulty_nodes_bound (op : pbft_operation) : N :=
  (sub64 (lengthN (peers op)) 1 / 3)%N.

Definition is_prepared (op : pbft_operation) : bool :=
  has_preprepare op
  && (mul64 2 (faulty_nodes_bound op) <? N.of_nat (size (prepares_seen op)))%N.

Definition record_commit (encoded_commit : bzn_envelope) (op : pbft_operation) : pbft_operation :=
  Operation (view op) (sequence op) (request op) (peers op) (state op) (preprepare_seen op)
    (prepares_seen op) ({[ sender encoded_commit ]} ∪ commits_seen op) (listener_session op).

Definition is_committed (op : pbft_operation) : bool :=
  is_prepared op
  && (mul64 2 (faulty_nodes_bound op) <? N.of_nat (size (commits_seen op)))%N.

Definition begin_commit_phase (op : pbft_operation) : result pbft_operation :=
  if negb (is_prepared op) || negb (bool_decide (state op = prepare))
  then Throw "Illegaly tried to move to commit phase"
  else Ok (set_state commit op).

Definition end_commit_phase (op : pbft_operation) : result pbft_operation :=
  if negb (is_committed op) || negb (bool_decide (state op = commit))
  then Throw "Illegally tried to end the commit phase"
  else Ok (set_state committed op).

(** [request_hash]: the request's text, not yet a hash. *)
Definition request_hash `{!Protobuf} (req : pbft_request) : hash_t := ShortDebugString req.

Definition get_operation_key `{!Protobuf} (op : pbft_operation) : operation_key_t :=
  (view op, sequence op, request_hash (request op)).

Definition get_state (op : pbft_operation) : pbft_operation_state := state op.

Definition set_session (session : session_id) (op : pbft_operation) : pbft_operation :=
  Operation (view op) (sequence op) (request op) (peers op) (state op) (preprepare_seen op)
    (prepares_seen op) (commits_seen op) (Some session).

Definition session (op : pbft_operation) : option session_id := listener_session op.

(** ** The operation as a state machine *)

(** What the node does to an operation it keeps. *)
Inductive step : pbft_operation → pbft_operation → Prop :=
| step_preprepare op e : step op (record_preprepare e op)
| step_prepare op e : step op (record_prepare e op)
| step_commit op e : step op (record_commit e op)
| step_session op s : step op (set_session s op)
| step_begin op op' : begin_commit_phase op = Ok op' → step op op'
| step_end op op' : end_commit_phase op = Ok op' → step op op'.

(** The phase is backed by the votes that were counted. *)
Definition phase_justified (op : pbft_operation) : Prop :=
  match state op with
  | prepare => True
  | commit => is_prepared op = true
  | committed => is_committed op = true
  end.

Definition phase_rank (st : pbft_operation_state) : nat :=
  match st with prepare => 0 | commit => 1 | committed => 2 end.

(** Votes and phases only grow; what identifies the operation stays. *)
Definition grows (op op' : pbft_operation) : Prop :=
  view op' = view op ∧ sequence op' = sequence op ∧ request op' = request op ∧ peers op' = peers op ∧
  (preprepare_seen op = true → preprepare_seen op' = true) ∧
  prepares_seen op ⊆ prepares_seen op' ∧ commits_seen op ⊆ commits_seen op' ∧
  phase_rank (state op) ≤ phase_rank (state op').

#[global] Instance grows_preorder : PreOrder grows.
Proof.
  split; unfold grows.
  - intros op. split_and!; auto.
  - intros a b c (->&->&->&->&?&Hp1&Hc1&?) (->&->&->&->&?&Hp2&Hc2&?).
    split_and!; [done..|auto|by trans (prepares_seen b)|by trans (commits_seen b)|lia].
Qed.

Lemma quorum_grows b (X Y : gset uuid_t) :
  X ⊆ Y → (b <? N.of_nat (size X))%N = true → (b <? N.of_nat (size Y))%N = true.
Proof. intros Hs%subseteq_size. rewrite !N.ltb_lt. lia. Qed.

Lemma is_prepared_grows op op' : grows op op' → is_prepared op = true → is_prepared op' = true.
Proof.
  intros (_&_&_&Hp&Hpp&Hpr&_&_). unfold is_prepared, has_preprepare, faulty_nodes_bound. rewrite Hp.
  rewrite !andb_true_iff. intros [? ?]. split; [by apply Hpp|]. by eapply quorum_grows.
Qed.

Lemma is_committed_grows op op' : grows op op' → is_committed op = true → is_committed op' = true.
Proof.
  intros Hg. unfold is_committed. rewrite !andb_true_iff. intros [Hp Hq].
  split; [by eapply is_prepared_grows|].
  destruct Hg as (_&_&_&Hps&_&_&Hc&_). unfold faulty_nodes_bound in *. rewrite Hps.
  by eapply quorum_grows.
Qed.

Lemma begin_commit_phase_spec op op' :
  begin_commit_phase op = Ok op' ↔
  is_prepared op = true ∧ state op = prepare ∧ op' = set_state commit op.
Proof.
  unfold begin_commit_phase. destruct (is_prepared op); simpl; [|naive_solver].
  case_bool_decide; simpl; naive_solver.
Qed.

Lemma end_commit_phase_spec op op' :
  end_commit_phase op = Ok op' ↔
  is_committed op = true ∧ state op = commit ∧ op' = set_state committed op.
Proof.
  unfold end_commit_phase. destruct (is_committed op); simpl; [|naive_solver].
  case_bool_decide; simpl; naive_solver.
Qed.

Lemma step_grows op op' : step op op' → grows op op'.
Proof.
  destruct 1 as [op e|op e|op e|op s|op op' H|op op' H]; unfold grows; simpl.
  1-4: split_and!; first [done|apply union_subseteq_r].
  - apply begin_commit_phase_spec in H as (_ & -> & ->). simpl. split_and!; auto.
  - apply end_commit_phase_spec in H as (_ & -> & ->). simpl. split_and!; auto.
Qed.

Lemma step_justified op op' : step op op' → phase_justified op → phase_justified op'.
Proof.
  intros Hs Hj. pose proof (step_grows _ _ Hs) as Hg. unfold phase_justified in *.
  destruct Hs as [op e|op e|op e|op s|op op' H|op op' H].
  1-4: simpl; destruct (state op); [done|by eapply is_prepared_grows|by eapply is_committed_grows].
  - apply begin_commit_phase_spec in H as (Hp & _ & ->). exact Hp.
  - apply end_commit_phase_spec in H as (Hp & _ & ->). exact Hp.
Qed.

(** ** Quorums *)

(** The uuids of the peers an operation was created with. *)
Definition members (op : pbft_operation) : gset uuid_t := list_to_set (uuid <$> peers op).

Lemma quorum_intersection_size (A X Y : gset uuid_t) (q : nat) :
  X ⊆ A → Y ⊆ A → q ≤ size X → q ≤ size Y → 2 * q ≤ size A + size (X ∩ Y).
Proof.
  intros HX HY Hqx Hqy.
  pose proof (size_union_alt X Y) as Hu.
  assert (size (Y ∖ X) + size (X ∩ Y) = size Y) as Hd.
  { rewrite <-size_union by set_solver. f_equal.
    apply leibniz_equiv. intros x. destruct (decide (x ∈ X)); set_solver. }
  assert (size (X ∪ Y) ≤ size A) by (apply subseteq_size; set_solver). lia.
Qed.

Lemma quorum_threshold (op : pbft_operation) (f : N) (X : gset uuid_t) :
  lengthN (peers op) = (3 * f + 1)%N → (3 * f + 1 < 2 ^ 63)%N →
  (mul64 2 (faulty_nodes_bound op) <? N.of_nat (size X))%N = true →
  faulty_nodes_bound op = f ∧ (2 * f + 1 ≤ N.of_nat (size X))%N.
Proof.
  intros Hn Hf. assert (faulty_nodes_bound op = f) as Hb.
  { unfold faulty_nodes_bound. rewrite Hn, sub64_small by lia.
    replace (3 * f + 1 - 1)%N with (f * 3)%N by lia. by apply N.div_mul. }
  rewrite Hb. unfold mul64. rewrite u64_small by lia. rewrite N.ltb_lt. split; [done|lia].
Qed.

Lemma faulty_nodes_small op :
  (lengthN (peers op) < 2 ^ 63)%N → peers op ≠ [] → (2 * faulty_nodes_bound op < 2 ^ 63)%N.
Proof.
  intros Hn Hne. unfold faulty_nodes_bound.
  assert (1 ≤ lengthN (peers op))%N.
  { destruct (peers op); [done|]. unfold lengthN. simpl. lia. }
  rewrite sub64_small by lia.
  pose proof (N.Div0.mul_div_le (lengthN (peers op) - 1) 3). lia.
Qed.

Lemma members_size op : size (members op) ≤ length (peers op).
Proof.
  etrans; [apply size_list_to_set_le|]. by rewrite length_fmap.
Qed.

(** The votes of a list of prepare messages. *)
Lemma record_prepares_seen es op :
  prepares_seen (foldr record_prepare op es) = list_to_set (sender <$> es) ∪ prepares_seen op ∧
  preprepare_seen (foldr record_prepare op es) = preprepare_seen op ∧
  peers (foldr record_prepare op es) = peers op.
Proof.
  induction es as [|e es (IH1 & IH2 & IH3)]; simpl.
  - split_and!; [set_solver|done..].
  - rewrite IH1, IH2, IH3. split_and!; [set_solver|done..].
Qed.

End pbft_operation.

(** ** Claims *)

(** phases are earned.  In whatever order a node records preprepares,
    prepares and commits of an operation and moves its phase, the operation is
    in the commit phase only when it is prepared (preprepare seen and more than
    [2f] prepare votes) and committed only when it also has more than [2f]
    commit votes; it never falls back, and its view, sequence number and request
    never change. *)
Theorem operation_phase_justified (v n : N) (r : pbft_request) (ps : list peer_address_t)
    (op : pbft_operation.pbft_operation) :
  rtc pbft_operation.step (pbft_operation.new v n r ps) op →
  pbft_operation.phase_justified op ∧
  pbft_operation.view op = v ∧ pbft_operation.sequence op = n ∧ pbft_operation.request op = r.
Proof.
  intros Hr. assert (pbft_operation.grows (pbft_operation.new v n r ps) op) as Hg.
  { induction Hr as [|x y z Hs _ IH]; [done|]. etrans; [by apply pbft_operation.step_grows|done]. }
  split.
  - assert (pbft_operation.phase_justified (pbft_operation.new v n r ps)) as Hj by done.
    clear Hg. induction Hr as [|x y z Hs _ IH]; [done|]. apply IH.
    by eapply pbft_operation.step_justified.
  - by destruct Hg as (?&?&?&_).
Qed.

Example operation_phase_justified_witness :
  let op := pbft_operation.new 1 1 default_request [Peer "h" 1 2 "n" "u"] in
  rtc pbft_operation.step op (pbft_operation.record_preprepare (Envelope "u" "" kPbft "") op) ∧
  pbft_operation.phase_justified (pbft_operation.record_preprepare (Envelope "u" "" kPbft "") op).
Proof.
  intros op.
  assert (rtc pbft_operation.step op (pbft_operation.record_preprepare (Envelope "u" "" kPbft "") op)) as H.
  { apply rtc_once. constructor. }
  split; [exact H|]. exact (proj1 (operation_phase_justified _ _ _ _ _ H)).
Defined.

(** quorums intersect in a correct node.  When the swarm has [3f+1] peers
    and the votes come from peers, two prepared operations have at least [f+1]
    voters in common, so at least one of them is correct when at most [f] are
    faulty. *)
Theorem prepared_quorums_intersect (f : N) (op1 op2 : pbft_operation.pbft_operation) :
  lengthN (pbft_operation.peers op1) = (3 * f + 1)%N → (3 * f + 1 < 2 ^ 63)%N →
  pbft_operation.peers op2 = pbft_operation.peers op1 →
  pbft_operation.prepares_seen op1 ⊆ pbft_operation.members op1 →
  pbft_operation.prepares_seen op2 ⊆ pbft_operation.members op1 →
  pbft_operation.is_prepared op1 = true → pbft_operation.is_prepared op2 = true →
  pbft_operation.faulty_nodes_bound op1 = f ∧
  (f + 1 ≤ N.of_nat (size (pbft_operation.prepares_seen op1 ∩ pbft_operation.prepares_seen op2)))%N.
Proof.
  intros Hn Hf Hp Hs1 Hs2 [_ H1]%andb_prop [_ H2]%andb_prop.
  assert (lengthN (pbft_operation.peers op2) = (3 * f + 1)%N) as Hn2 by by rewrite Hp.
  destruct (pbft_operation.quorum_threshold _ _ _ Hn Hf H1) as [Hb Hq1].
  destruct (pbft_operation.quorum_threshold _ _ _ Hn2 Hf H2) as [_ Hq2].
  split; [done|].
  pose proof (pbft_operation.quorum_intersection_size _ _ _ (N.to_nat (2 * f + 1)) Hs1 Hs2
                ltac:(lia) ltac:(lia)) as Hi.
  pose proof (pbft_operation.members_size op1). unfold lengthN in Hn. lia.
Qed.

(** Peers and voters for the examples. *)
Definition sample_peer (u : string) : peer_address_t := Peer "127.0.0.1" 1 2 u u.
Definition voted (ps : list peer_address_t) (voters : list string) (r : pbft_request) : pbft_operation.pbft_operation :=
  foldr pbft_operation.record_commit
    (foldr pbft_operation.record_prepare
       (pbft_operation.record_preprepare (Envelope "p" "" kPbft "") (pbft_operation.new 1 1 r ps))
       ((λ u, Envelope u "" kPbft "") <$> voters))
    ((λ u, Envelope u "" kPbft "") <$> voters).

Example prepared_quorums_intersect_witness :
  let ps := sample_peer <$> ["a"; "b"; "c"; "d"] in
  (1 + 1 ≤ N.of_nat (size (pbft_operation.prepares_seen (voted ps ["a"; "b"; "c"] default_request) ∩
                           pbft_operation.prepares_seen (voted ps ["b"; "c"; "d"] default_request))))%N.
Proof.
  intros ps.
  apply (prepared_quorums_intersect 1 (voted ps ["a"; "b"; "c"] default_request)
           (voted ps ["b"; "c"; "d"] default_request)); try reflexivity.
  all: apply (bool_decide_unpack _); vm_compute; exact I.
Defined.

(** A finding.  The threshold is derived from [f = (n - 1) / 3] as if the
    swarm had [3f+1] peers.  With six peers [f] is 1 and three votes are enough,
    so two conflicting requests for the same view and sequence number can both
    be committed by disjoint sets of peers. *)
Theorem six_peers_commit_conflicting_requests (r1 r2 : pbft_request) :
  let ps := sample_peer <$> ["a"; "b"; "c"; "d"; "e"; "f"] in
  let op1 := voted ps ["a"; "b"; "c"] r1 in
  let op2 := voted ps ["d"; "e"; "f"] r2 in
  pbft_operation.is_committed op1 = true ∧ pbft_operation.is_committed op2 = true ∧
  pbft_operation.view op1 = pbft_operation.view op2 ∧
  pbft_operation.sequence op1 = pbft_operation.sequence op2 ∧
  pbft_operation.request op1 = r1 ∧ pbft_operation.request op2 = r2 ∧
  pbft_operation.commits_seen op1 ∩ pbft_operation.commits_seen op2 = ∅.
Proof. split_and!; by vm_compute. Qed.

(** A finding.  A vote is counted for the sender the message names; nothing
    asks whether the sender is a peer.  Prepares of any [2f+1] distinct names
    make an operation with a preprepare prepared, whoever the peers are. *)
Theorem votes_of_strangers_count (op : pbft_operation.pbft_operation) (es : list bzn_envelope) :
  pbft_operation.has_preprepare op = true →
  (lengthN (pbft_operation.peers op) < 2 ^ 63)%N → pbft_operation.peers op ≠ [] →
  NoDup (sender <$> es) →
  (2 * pbft_operation.faulty_nodes_bound op + 1 ≤ lengthN es)%N →
  pbft_operation.is_prepared (foldr pbft_operation.record_prepare op es) = true.
Proof.
  intros Hpp Hn Hne Hnd Hlen. unfold pbft_operation.is_prepared, pbft_operation.has_preprepare.
  destruct (pbft_operation.record_prepares_seen es op) as (Hs & Hp & Hps).
  rewrite Hp, Hs, andb_true_iff, N.ltb_lt. split; [done|].
  replace (pbft_operation.faulty_nodes_bound (foldr pbft_operation.record_prepare op es))
    with (pbft_operation.faulty_nodes_bound op) by (unfold pbft_operation.faulty_nodes_bound; by rewrite Hps).
  pose proof (pbft_operation.faulty_nodes_small op Hn Hne).
  unfold mul64. rewrite u64_small by lia.
  assert (length es ≤ size (list_to_set (sender <$> es) ∪ pbft_operation.prepares_seen op)); [|unfold lengthN in *; lia].
  rewrite <-(length_fmap sender es), <-(size_list_to_set (C := gset uuid_t)) by done.
  apply subseteq_size, union_subseteq_l.
Qed.

Example votes_of_strangers_count_witness :
  let op := voted (sample_peer <$> ["a"; "b"; "c"; "d"]) [] default_request in
  pbft_operation.is_prepared
    (foldr pbft_operation.record_prepare op ((λ u, Envelope u "" kPbft "") <$> ["x"; "y"; "z"])) = true.
Proof.
  intros op. apply votes_of_strangers_count; [reflexivity|vm_compute; reflexivity|discriminate| |].
  - apply (bool_decide_unpack _). vm_compute. exact I.
  - vm_compute. discriminate.
Defined.
