(* ===== verification/Json.v ===== *)
(** * JSON values

    jsoncpp and [std::hash] as the code uses them.  jsoncpp is not part of the
    repository: [Jsoncpp] lists the calls the code makes, [JsoncppLaws] the
    documented behaviour the theorems rely on.  [json_tree] is a concrete
    instance. *)

From S2P Require Import Prelude.

(** [Json::Value] and its readers and writers.  [operator[]] and [isMember]
    throw [Json::LogicError] on a value that is neither null nor an object,
    [asString] and [asUInt] on a value that has no such conversion. *)
Class Jsoncpp := {
  Value : Type;
  null : Value;
  str : string → Value;
  uint : N → Value;
  boolean : bool → Value;
  (** the value built from null by [v[k] = x] for each pair *)
  obj : list (string * Value) → Value;
  (** [v.append(x)] *)
  append : Value → Value → Value;
  parse : string → option Value;
  toStyledString : Value → string;
  (** [FastWriter::write] *)
  write : Value → string;
  isMember : Value → string → result bool;
  isArray : Value → bool;
  (** what a range-based [for] over the value enumerates *)
  elements : Value → list Value;
  (** [v[k]] *)
  member : Value → string → result Value;
  asString : Value → result string;
  asUInt : Value → result N;
  asBool : Value → result bool;
  isString : Value → bool;
  (** null, an empty array or an empty object *)
  empty : Value → bool;
  (** [v == s] *)
  equals_string : Value → string → bool
}.

(** The documented behaviour.  [reads_as v v']: the readers return the same for
    [v'] as for [v].  Printing and parsing yields a value that reads the same
    (not an equal one: an unsigned integer is read back as a signed one). *)
Class JsoncppLaws `{!Jsoncpp} := {
  reads_as : relation Value;
  reads_as_equivalence :: Equivalence reads_as;
  parse_toStyledString v : ∃ v', parse (toStyledString v) = Some v' ∧ reads_as v v';
  parse_write v : ∃ v', parse (write v) = Some v' ∧ reads_as v v';
  write_not_empty v : write v ≠ ""%string;
  reads_as_isMember v v' k : reads_as v v' → isMember v' k = isMember v k;
  reads_as_isArray v v' : reads_as v v' → isArray v' = isArray v;
  reads_as_elements v v' : reads_as v v' → Forall2 reads_as (elements v) (elements v');
  reads_as_member v v' k x : reads_as v v' → member v k = Ok x → ∃ x', member v' k = Ok x' ∧ reads_as x x';
  reads_as_asString v v' : reads_as v v' → asString v' = asString v;
  reads_as_asUInt v v' : reads_as v v' → asUInt v' = asUInt v;
  reads_as_asBool v v' : reads_as v v' → asBool v' = asBool v;
  reads_as_isString v v' : reads_as v v' → isString v' = isString v;
  reads_as_empty v v' : reads_as v v' → empty v' = empty v;
  empty_null : empty null = true;
  asBool_boolean b : asBool (boolean b) = Ok b;
  isString_str s : isString (str s) = true;
  isString_asString v : isString v = true → ∃ s, asString v = Ok s;
  asString_str s : asString (str s) = Ok s;
  asUInt_uint n : (n < 2 ^ 32)%N → asUInt (uint n) = Ok n;
  isMember_obj kvs k : isMember (obj kvs) k = Ok (bool_decide (k ∈ kvs.*1));
  member_obj kvs k x : NoDup kvs.*1 → (k, x) ∈ kvs → member (obj kvs) k = Ok x;
  isArray_null : isArray null = false;
  elements_null : elements null = [];
  isArray_append v x : v = null ∨ isArray v = true → isArray (append v x) = true;
  elements_append v x : v = null ∨ isArray v = true → elements (append v x) = elements v ++ [x]
}.

(** The readers are defined on every value: what they cannot read they answer with
    an exception. *)
Class JsoncppThrows `{!Jsoncpp} := {
  json_error : string → Prop;
  isMember_throws v k : throws_only json_error (isMember v k);
  member_throws v k : throws_only json_error (member v k);
  asString_throws v : throws_only json_error (asString v);
  asUInt_throws v : throws_only json_error (asUInt v);
  asBool_throws v : throws_only json_error (asBool v)
}.
#[export] Hint Resolve isMember_throws member_throws asString_throws asUInt_throws asBool_throws : safe.

(** [std::hash<std::string>]: a [size_t] that depends on the string only. *)
Class StdHash := { std_hash : string → N }.

Section Arrays.
Context {JS : Jsoncpp} {JL : JsoncppLaws}.

(** An array built by appending to null. *)
Lemma appends_spec (vs : list Value) :
  elements (foldl append null vs) = vs ∧ isArray (foldl append null vs) = bool_decide (vs ≠ []).
Proof.
  assert (elements (foldl append null vs) = vs ∧
          (foldl append null vs = null ∧ vs = [] ∨ vs ≠ [] ∧ isArray (foldl append null vs) = true)) as [He Ha].
  { induction vs as [|x vs [IHe IHa]] using rev_ind; [simpl; rewrite elements_null; auto|].
    assert (foldl append null vs = null ∨ isArray (foldl append null vs) = true) as Hor by naive_solver.
    rewrite foldl_app. simpl. rewrite elements_append by done. rewrite IHe. split; [done|].
    right. split; [by destruct vs|]. by apply isArray_append. }
  split; [done|]. destruct Ha as [[-> ->]|[? ->]].
  - by rewrite isArray_null.
  - by rewrite bool_decide_true.
Qed.
End Arrays.

(** ** A concrete instance: trees, printed token by token *)

Module json_tree.

#[warnings="-register-all"]
Inductive tree := Null | Str (s : string) | UInt (n : N) | Bool (b : bool) | Arr (vs : list tree) | Obj (kvs : list (string * tree)).

Fixpoint to_gen (v : tree) : gen_tree (string + N + bool) :=
  match v with
  | Null => GenNode 0 []
  | Str s => GenLeaf (inl (inl s))
  | UInt n => GenLeaf (inl (inr n))
  | Bool b => GenLeaf (inr b)
  | Arr vs => GenNode 1 (to_gen <$> vs)
  | Obj kvs => GenNode 2 ((λ '(k, x), GenNode 3 [GenLeaf (inl (inl k)); to_gen x]) <$> kvs)
  end.

Fixpoint of_gen (t : gen_tree (string + N + bool)) : tree :=
  match t with
  | GenLeaf (inl (inl s)) => Str s
  | GenLeaf (inl (inr n)) => UInt n
  | GenLeaf (inr b) => Bool b
  | GenNode 1 ts => Arr (of_gen <$> ts)
  | GenNode 2 ts =>
      Obj ((λ t, match t with GenNode _ [GenLeaf (inl (inl k)); x] => (k, of_gen x) | _ => (""%string, Null) end) <$> ts)
  | GenNode _ _ => Null
  end.

Fixpoint of_to_gen (v : tree) : of_gen (to_gen v) = v.
Proof.
  destruct v as [|s|n|b|vs|kvs]; simpl; try done; f_equal.
  - induction vs as [|v vs IH]; [done|]. cbn. f_equal; [apply of_to_gen|apply IH].
  - induction kvs as [|[k v] kvs IH]; [done|]. cbn. f_equal; [f_equal; apply of_to_gen|apply IH].
Qed.

(** The tree as a list of tokens, and each token as text. *)
Abbreviation token := (nat * nat + (string + N + bool))%type.

Definition print_num (n : N) : string := to_string n ++ ";".

Definition print_token (t : token) : string :=
  match t with
  | inl (n, m) => "n" ++ print_num (N.of_nat n) ++ print_num (N.of_nat m)
  | inr (inl (inl s)) => "s" ++ print_num (strlen s) ++ s
  | inr (inl (inr n)) => "u" ++ print_num n
  | inr (inr true) => "t"
  | inr (inr false) => "f"
  end.

Fixpoint read_num (acc : N) (s : string) : option (N * string) :=
  match s with
  | EmptyString => None
  | String ";" s => Some (acc, s)
  | String c s => d ← digit_value c; read_num (10 * acc + d)%N s
  end.

Fixpoint split_at (n : nat) (s : string) : option (string * string) :=
  match n, s with
  | O, _ => Some (""%string, s)
  | S n, String c s => '(t, r) ← split_at n s; Some (String c t, r)
  | S _, EmptyString => None
  end.

Definition read_token (s : string) : option (token * string) :=
  match s with
  | String "n" s => '(n, s) ← read_num 0 s; '(m, s) ← read_num 0 s; Some (inl (N.to_nat n, N.to_nat m), s)
  | String "s" s => '(n, s) ← read_num 0 s; '(t, s) ← split_at (N.to_nat n) s; Some (inr (inl (inl t)), s)
  | String "u" s => '(n, s) ← read_num 0 s; Some (inr (inl (inr n)), s)
  | String "t" s => Some (inr (inr true), s)
  | String "f" s => Some (inr (inr false), s)
  | _ => None
  end.

Definition print_tokens (ts : list token) : string := foldr (λ t s, print_token t ++ s)%string ""%string ts.

Fixpoint read_tokens (fuel : nat) (s : string) : option (list token) :=
  match s, fuel with
  | EmptyString, _ => Some []
  | _, O => None
  | _, S fuel => '(t, s) ← read_token s; ts ← read_tokens fuel s; Some (t :: ts)
  end.

Definition print (v : tree) : string := print_tokens (gen_tree_to_list (to_gen v)).
Definition read (s : string) : option tree :=
  ts ← read_tokens (String.length s) s; of_gen <$> gen_tree_of_list [] ts.

Lemma read_num_print n r : read_num 0 (print_num n ++ r) = Some (n, r).
Proof.
  unfold print_num. rewrite string_app_assoc.
  assert (∀ s a, digits_value a s = Some n → read_num a (s ++ String ";" r) = Some (n, r)) as H;
    [|apply H, digits_value_to_string].
  intros s. induction s as [|c s IH]; intros a; simpl; [by intros [= ->]|].
  destruct (digit_value c) as [d|] eqn:Hd; [|done]. simpl. intros Hs%IH.
  assert (c ≠ ";"%char) as Hc by (intros ->; done). clear IH Hd.
  destruct c as [[] [] [] [] [] [] [] []]; first [exact Hs|by destruct Hc].
Qed.

Lemma split_at_app t r : split_at (String.length t) (t ++ r) = Some (t, r).
Proof.
  induction t as [|c t IH]; [done|]. change (String c t ++ r)%string with (String c (t ++ r)).
  cbn [String.length split_at]. by rewrite IH.
Qed.

Lemma read_print_token t r : read_token (print_token t ++ r) = Some (t, r).
Proof.
  destruct t as [[n m]|[[s|n]|[]]]; cbn [print_token]; try done.
  - change ("n" ++ ?x)%string with (String "n" x). change (String "n" ?x ++ r)%string with (String "n" (x ++ r)).
    cbn [read_token]. rewrite string_app_assoc, read_num_print. simpl. rewrite read_num_print. simpl. by rewrite !Nat2N.id.
  - change ("s" ++ ?x)%string with (String "s" x). change (String "s" ?x ++ r)%string with (String "s" (x ++ r)).
    cbn [read_token]. rewrite string_app_assoc, read_num_print. simpl. unfold strlen. rewrite Nat2N.id, split_at_app. done.
  - change ("u" ++ ?x)%string with (String "u" x). change (String "u" ?x ++ r)%string with (String "u" (x ++ r)).
    cbn [read_token]. by rewrite read_num_print.
Qed.

Lemma print_token_head t : ∃ c s, print_token t = String c s.
Proof. destruct t as [[n m]|[[s|n]|[]]]; by eexists _, _. Qed.

Lemma read_print_tokens ts fuel :
  String.length (print_tokens ts) ≤ fuel → read_tokens fuel (print_tokens ts) = Some ts.
Proof.
  revert fuel. induction ts as [|t ts IH]; intros fuel; [by destruct fuel|].
  change (print_tokens (t :: ts)) with (print_token t ++ print_tokens ts)%string. intros Hf.
  pose proof (strlen_app (print_token t) (print_tokens ts)) as Hl. unfold strlen in Hl.
  destruct (print_token_head t) as (c & s & E). pose proof (read_print_token t (print_tokens ts)) as Hr.
  rewrite E in *. change (String c s ++ print_tokens ts)%string with (String c (s ++ print_tokens ts)) in *.
  destruct fuel as [|fuel]; [simpl in Hf; lia|]. cbn [read_tokens]. rewrite Hr. simpl. rewrite IH; [done|].
  simpl in Hl, Hf. lia.
Qed.

#[global] Instance tree_json : Jsoncpp := {
  Value := tree;
  null := Null;
  str := Str;
  uint := UInt;
  boolean := Bool;
  obj := Obj;
  append v x := match v with Null => Arr [x] | Arr vs => Arr (vs ++ [x]) | _ => v end;
  parse := read;
  toStyledString := print;
  write := print;
  isMember v k := match v with
    | Null => Ok false | Obj kvs => Ok (bool_decide (k ∈ kvs.*1)) | _ => Throw "LogicError" end;
  isArray v := match v with Arr _ => true | _ => false end;
  elements v := match v with Arr vs => vs | Obj kvs => kvs.*2 | _ => [] end;
  member v k := match v with
    | Null => Ok Null
    | Obj kvs => Ok (match List.find (λ kx, bool_decide (kx.1 = k)) kvs with Some kx => kx.2 | None => Null end)
    | _ => Throw "LogicError" end;
  asString v := match v with
    | Str s => Ok s | UInt n => Ok (to_string n)
    | Bool b => Ok (if b then "true" else "false")%string | Null => Ok ""%string | _ => Throw "LogicError" end;
  asUInt v := match v with
    | UInt n => if (n <? 2 ^ 32)%N then Ok n else Throw "LogicError"
    | Bool b => Ok (if b then 1 else 0)%N | Null => Ok 0%N | _ => Throw "LogicError" end;
  asBool v := match v with
    | Bool b => Ok b | UInt n => Ok (negb (n =? 0)%N) | Null => Ok false | _ => Throw "LogicError" end;
  isString v := match v with Str _ => true | _ => false end;
  empty v := match v with Null => true | Arr [] | Obj [] => true | _ => false end;
  equals_string v s := match v with Str s' => bool_decide (s' = s) | _ => false end
}.

Lemma read_print v : read (print v) = Some v.
Proof.
  unfold read, print. rewrite read_print_tokens by done. simpl.
  rewrite <-(app_nil_r (gen_tree_to_list _)), gen_tree_of_to_list. simpl. by rewrite of_to_gen.
Qed.

Lemma find_pair (kvs : list (string * tree)) k x :
  NoDup kvs.*1 → (k, x) ∈ kvs → List.find (λ kx, bool_decide (kx.1 = k)) kvs = Some (k, x).
Proof.
  induction kvs as [|[k' y] kvs IH]; simpl; [by rewrite elem_of_nil|].
  rewrite NoDup_cons, elem_of_cons. intros [Hn Hd] [[= -> ->]|Hin]; [by rewrite bool_decide_true|].
  rewrite bool_decide_false; [by apply IH|]. intros ->. apply Hn. apply list_elem_of_fmap. by exists (k, x).
Qed.

#[global, refine] Instance tree_json_laws : JsoncppLaws := {| reads_as := (=) |}.
Proof.
  all: simpl.
  - intros v. exists v. by rewrite read_print.
  - intros v. exists v. by rewrite read_print.
  - intros v. unfold print. assert (∃ t ts, gen_tree_to_list (to_gen v) = t :: ts) as (t & ts & ->).
    { destruct (to_gen v) as [|n ts]; [by eexists _, _|]. simpl.
      destruct (mbind _ ts) as [|t' ts']; by eexists _, _. }
    simpl. by destruct (print_token_head t) as (c & s & ->).
  - by intros ???->.
  - by intros ??->.
  - intros v ? <-. by apply (reflexivity (R := Forall2 (=))).
  - intros v ? k x <- ?. by exists x.
  - by intros ??->.
  - by intros ??->.
  - by intros ??->.
  - by intros ??->.
  - by intros ??->.
  - done.
  - done.
  - done.
  - intros [] ?; naive_solver.
  - done.
  - intros n Hn. by rewrite (proj2 (N.ltb_lt _ _) Hn).
  - done.
  - intros kvs k x Hd Hin. by rewrite (find_pair _ _ _ Hd Hin).
  - done.
  - done.
  - by intros [] x [?|?].
  - by intros [] x [?|?].
Defined.

#[global, refine] Instance tree_json_throws : JsoncppThrows := {| json_error w := w = "LogicError"%string |}.
Proof.
  - by intros [] k.
  - by intros [] k.
  - by intros [].
  - intros [| |n| | |]; simpl; try done. by destruct (n <? 2 ^ 32)%N.
  - by intros [].
Defined.

#[global] Instance tree_hash : StdHash := { std_hash s := (Npos (encode s) mod 2 ^ 64)%N }.

End json_tree.
