(* ===== verification/PbftConfig.v ===== *)
(** * Configurations

    The set of peers a PBFT node works with ([pbft/pbft_configuration.cpp]) and
    the store of the configurations it has heard of
    ([pbft/pbft_config_store.cpp]). *)

From stdpp Require Import relations.
From S2P Require Import Prelude Messages Json.

Module pbft_configuration.

Record pbft_configuration := Configuration {
  peers : list peer_address_t;
  sorted_peers : list peer_address_t;
  cached_hash : hash_t
}.

(** The constructor; the hash is not computed. *)
Definition new : pbft_configuration := Configuration [] [] "".

Definition set_peers (ps : list peer_address_t) (c : pbft_configuration) : pbft_configuration :=
  Configuration ps (sorted_peers c) (cached_hash c).

Definition get_hash (c : pbft_configuration) : hash_t := cached_hash c.

Definition get_peers (c : pbft_configuration) : list peer_address_t := sorted_peers c.

Definition operator_eq (this other : pbft_configuration) : bool :=
  bool_decide (get_hash this = get_hash other).

Definition operator_ne (this other : pbft_configuration) : bool := negb (operator_eq this other).

(** The test of the loop of [conflicting_peer_exists]. *)
Definition conflicts (peer p : peer_address_t) : bool :=
  bool_decide (uuid p = uuid peer) || bool_decide (name p = name peer)
  || bool_decide (host p = host peer)
     && ((port p =? port peer)%N || (http_port p =? http_port peer)%N).

Definition conflicting_peer_exists (peer : peer_address_t) (c : pbft_configuration) : bool :=
  existsb (conflicts peer) (peers c).

Definition valid_peer (peer : peer_address_t) : bool :=
  negb (bool_decide (name peer = "") || bool_decide (uuid peer = "") || bool_decide (host peer = "")
        || (port peer =? 0)%N || (http_port peer =? 0)%N).

Definition insert_peer (peer : peer_address_t) (c : pbft_configuration) : bool * pbft_configuration :=
  if conflicting_peer_exists peer c || negb (valid_peer peer) then (false, c)
  else (true, set_peers (set_insert peer (peers c)) c).

(** The uuid of the peer at an index of the copied vector, and the order the
    indices are sorted by. *)
Definition uuid_at (unordered_peers_list : list peer_address_t) (i : nat) : uuid_t :=
  from_option uuid "" (unordered_peers_list !! i).
Definition index_le (l : list peer_address_t) (i1 i2 : nat) : Prop := string_le (uuid_at l i1) (uuid_at l i2).

#[global] Instance index_le_dec l i1 i2 : Decision (index_le l i1 i2).
Proof. apply string_le_dec. Defined.

Section Json.
Context {JS : Jsoncpp} {HS : StdHash}.

Definition peer_to_json (p : peer_address_t) : Value :=
  obj [("host", str (host p)); ("port", uint (port p)); ("http_port", uint (http_port p));
       ("name", str (name p)); ("uuid", str (uuid p))].

Definition to_string (c : pbft_configuration) : string :=
  toStyledString (obj [("peers", foldl append null (peer_to_json <$> sorted_peers c))]).

Definition create_hash (c : pbft_configuration) : hash_t :=
  Prelude.to_string (std_hash (to_string c)).

Definition cache_sorted_peers (c : pbft_configuration) : pbft_configuration :=
  let unordered_peers_list := peers c in
  let indicies := seq 0 (length (peers c)) in
  let indicies := merge_sort (index_le unordered_peers_list) indicies in
  let sorted := omap (λ peer_index, unordered_peers_list !! peer_index) indicies in
  let c := Configuration (peers c) sorted (cached_hash c) in
  Configuration (peers c) (sorted_peers c) (create_hash c).

Definition add_peer (peer : peer_address_t) (c : pbft_configuration) : bool * pbft_configuration :=
  match insert_peer peer c with
  | (false, c) => (false, c)
  | (true, c) => (true, cache_sorted_peers c)
  end.

Definition remove_peer (peer : peer_address_t) (c : pbft_configuration) : bool * pbft_configuration :=
  match set_find peer (peers c) with
  | Some _ => (true, cache_sorted_peers (set_peers (set_erase peer (peers c)) c))
  | None => (false, c)
  end.

(** The methods that can throw run in the monad of results and states. *)
Abbreviation method := (M pbft_configuration Empty_set).

(** [p["host"].asString()], ... *)
Definition string_field (p : Value) (k : string) : method string :=
  x ← lift (member p k); lift (asString x).
Definition uint_field (p : Value) (k : string) : method N :=
  x ← lift (member p k); lift (asUInt x).

Definition peer_from_json (p : Value) : method peer_address_t :=
  host ← string_field p "host";
  port ← uint_field p "port";
  http_port ← uint_field p "http_port";
  name ← string_field p "name";
  uuid ← string_field p "uuid";
  mret (Peer host (u16 port) (u16 http_port) name uuid).

(** The loop of [from_string]. *)
Fixpoint insert_all (ps : list Value) (result : bool) : method bool :=
  match ps with
  | [] => mret result
  | p :: ps =>
      peer ← peer_from_json p;
      rejected ← gets (λ c, conflicting_peer_exists peer c || negb (valid_peer peer));
      if (rejected : bool) then insert_all ps false
      else modify (λ c, set_peers (set_insert peer (peers c)) c);; insert_all ps result
  end.

Definition from_string (s : string) : method bool :=
  match parse s with
  | None => mret false
  | Some json =>
      is_member ← lift (isMember json "peers");
      if negb is_member then mret false else
      json_peers ← lift (member json "peers");
      if negb (isArray json_peers) then mret false else
      modify (set_peers []);;
      result ← insert_all (elements json_peers) true;
      modify cache_sorted_peers;;
      mret result
  end.

Definition absent_from (s : list peer_address_t) (p : peer_address_t) : bool := negb (set_contains p s).

(** [diff]: the added and the removed peers. *)
Definition diff (this other : pbft_configuration) : list peer_address_t * list peer_address_t :=
  (List.filter (absent_from (peers this)) (peers other),
   List.filter (absent_from (peers other)) (peers this)).

(** ** Sorting *)

Definition uuid_le (p q : peer_address_t) : Prop := string_le (uuid p) (uuid q).

#[global] Instance index_le_total l : Total (index_le l).
Proof. intros i j. apply string_le_total. Qed.
#[global] Instance index_le_trans l : Transitive (index_le l).
Proof. intros i j k. apply string_le_trans. Qed.

Lemma omap_lookup_seq {A} (l1 l2 : list A) :
  omap (λ i, (l1 ++ l2) !! i) (seq (length l1) (length l2)) = l2.
Proof.
  revert l1. induction l2 as [|x l2 IH]; intros l1; [done|]. simpl.
  rewrite list_lookup_middle by done. f_equal.
  rewrite cons_middle, app_assoc, <-Nat.add_1_r.
  replace (length l1 + 1) with (length (l1 ++ [x])) by (by rewrite length_app).
  apply IH.
Qed.

Lemma cache_sorted_permutation c : sorted_peers (cache_sorted_peers c) ≡ₚ peers c.
Proof.
  simpl. rewrite merge_sort_Permutation.
  pose proof (omap_lookup_seq [] (peers c)) as H. simpl in H. by rewrite H.
Qed.

Lemma omap_sorted l idx :
  StronglySorted (index_le l) idx → StronglySorted uuid_le (omap (λ i, l !! i) idx).
Proof.
  induction 1 as [|i idx Hs IH Hall]; simpl; [constructor|].
  destruct (l !! i) as [p|] eqn:Ei; [|done]. constructor; [done|].
  apply Forall_forall. intros q (j & Hj & Eq)%list_elem_of_omap.
  rewrite Forall_forall in Hall. specialize (Hall _ Hj).
  unfold index_le, uuid_at in Hall. by rewrite Ei, Eq in Hall.
Qed.

Lemma cache_sorted_sorted c : StronglySorted uuid_le (sorted_peers (cache_sorted_peers c)).
Proof. apply omap_sorted, StronglySorted_merge_sort; apply _. Qed.

(** ** The invariant *)

(** No two peers of the list conflict. *)
Fixpoint compatible (ps : list peer_address_t) : Prop :=
  match ps with
  | [] => True
  | p :: ps => Forall (λ q, conflicts p q = false) ps ∧ compatible ps
  end.

(** Port numbers are [uint16_t]. *)
Definition in_range (p : peer_address_t) : Prop := (port p < 2 ^ 16 ∧ http_port p < 2 ^ 16)%N.

Record wf (c : pbft_configuration) : Prop := {
  wf_valid : Forall (λ p, valid_peer p = true ∧ in_range p) (peers c);
  wf_compatible : compatible (peers c);
  wf_permutation : sorted_peers c ≡ₚ peers c;
  wf_sorted : StronglySorted uuid_le (sorted_peers c);
  wf_hash : cached_hash c = create_hash c ∨ c = new
}.

Lemma conflicts_sym p q : conflicts p q = conflicts q p.
Proof.
  unfold conflicts. rewrite !(N.eqb_sym (port p)), !(N.eqb_sym (http_port p)).
  rewrite (bool_decide_ext (uuid q = uuid p) (uuid p = uuid q)) by done.
  rewrite (bool_decide_ext (name q = name p) (name p = name q)) by done.
  by rewrite (bool_decide_ext (host q = host p) (host p = host q)) by done.
Qed.

Lemma conflicts_eqb p q : peer_eqb p q = true → conflicts p q = true.
Proof.
  intros (_ & _ & _ & Hu)%peer_eqb_spec. unfold conflicts. by rewrite bool_decide_true.
Qed.

Lemma compatible_app ps qs :
  compatible (ps ++ qs) ↔
  compatible ps ∧ compatible qs ∧ ∀ p q, p ∈ ps → q ∈ qs → conflicts p q = false.
Proof.
  induction ps as [|p ps IH]; simpl.
  { split; [intros; split_and!; [done..|]; by intros ?? ?%elem_of_nil|naive_solver]. }
  rewrite IH, Forall_app, (Forall_forall _ qs). setoid_rewrite elem_of_cons. naive_solver.
Qed.

#[global] Instance compatible_perm : Proper ((≡ₚ) ==> iff) compatible.
Proof.
  assert (∀ ps qs, ps ≡ₚ qs → compatible ps → compatible qs) as H.
  { induction 1 as [|p ps qs Hp IH|p q ps|ps qs rs _ IH1 _ IH2]; simpl; auto.
    - intros [Hf Hc]. rewrite <-Hp at 1. auto.
    - rewrite !Forall_cons. intros [[Hqp Hq] [Hp Hc]]. by rewrite conflicts_sym. }
  intros ps qs Hp. split; by apply H.
Qed.

Lemma conflicting_peer_exists_false peer c :
  conflicting_peer_exists peer c = false ↔ Forall (λ q, conflicts peer q = false) (peers c).
Proof.
  unfold conflicting_peer_exists. generalize (peers c). intros l.
  induction l as [|q l IH]; simpl; [done|]. rewrite orb_false_iff, Forall_cons. naive_solver.
Qed.

(** A peer that conflicts with none is not in the set. *)
Lemma set_insert_fresh peer ps :
  Forall (λ q, conflicts peer q = false) ps → set_insert peer ps = ps ++ [peer].
Proof.
  intros H. unfold set_insert. destruct (set_contains peer ps) eqn:E; [|done].
  apply set_contains_spec in E as (q & Hq & He%conflicts_eqb).
  rewrite Forall_forall in H. by rewrite (H q Hq) in He.
Qed.

Lemma set_erase_sublist peer ps : set_erase peer ps `sublist_of` ps.
Proof.
  induction ps as [|q ps IH]; simpl; [done|]. destruct (peer_eqb peer q).
  - by apply sublist_cons.
  - by apply sublist_skip.
Qed.

Lemma compatible_sublist ps qs : ps `sublist_of` qs → compatible qs → compatible ps.
Proof.
  induction 1 as [|p ps qs Hs IH|p ps qs Hs IH]; simpl; [done| |naive_solver].
  intros [Hf Hc]. split; [|auto]. by eapply Forall_sublist.
Qed.

(** The part of the invariant that is about the set of peers. *)
Definition good_peers (ps : list peer_address_t) : Prop :=
  Forall (λ p, valid_peer p = true ∧ in_range p) ps ∧ compatible ps.

Lemma good_peers_insert peer c :
  conflicting_peer_exists peer c || negb (valid_peer peer) = false → in_range peer →
  good_peers (peers c) → good_peers (set_insert peer (peers c)) ∧
  set_insert peer (peers c) = peers c ++ [peer].
Proof.
  rewrite orb_false_iff, negb_false_iff, conflicting_peer_exists_false.
  intros [Hc Hv] Hr [Hf Hp]. rewrite set_insert_fresh by done. split; [|done]. split.
  - rewrite Forall_app, Forall_singleton. auto.
  - rewrite compatible_app. simpl. split_and!; [done..|].
    intros p q Hin ->%list_elem_of_singleton. rewrite Forall_forall in Hc. rewrite conflicts_sym. auto.
Qed.

Lemma good_peers_erase peer ps : good_peers ps → good_peers (set_erase peer ps).
Proof.
  intros [Hf Hc]. pose proof (set_erase_sublist peer ps). split.
  - by eapply Forall_sublist.
  - by eapply compatible_sublist.
Qed.

Lemma cache_sorted_wf c : good_peers (peers c) → wf (cache_sorted_peers c).
Proof.
  intros [Hf Hc]. split; [done|done|apply (cache_sorted_permutation c)|apply (cache_sorted_sorted c)|by left].
Qed.

Lemma wf_good c : wf c → good_peers (peers c).
Proof. by intros []. Qed.

Lemma new_wf : wf new.
Proof. split; simpl; [done|done|done|constructor|by right]. Qed.

Lemma add_peer_wf peer c : in_range peer → wf c → wf (add_peer peer c).2.
Proof.
  intros Hr Hw. unfold add_peer, insert_peer.
  destruct (conflicting_peer_exists peer c || negb (valid_peer peer)) eqn:E; [done|].
  apply cache_sorted_wf. by apply good_peers_insert, wf_good.
Qed.

Lemma remove_peer_wf peer c : wf c → wf (remove_peer peer c).2.
Proof.
  intros Hw. unfold remove_peer. destruct (set_find peer (peers c)); [|done].
  apply cache_sorted_wf. by apply good_peers_erase, wf_good.
Qed.

(** ** Reading a configuration *)

Lemma peer_from_json_pure v : pure_method (peer_from_json v).
Proof. unfold pure_method, peer_from_json, string_field, uint_field. respects_steps. Qed.

Lemma peer_from_json_range v c p : res (peer_from_json v) c = Ok p → in_range p.
Proof.
  unfold peer_from_json. intros Hr. repeat apply res_bind_ok in Hr as (? & _ & Hr).
  injection Hr as <-. split; apply u16_bound.
Qed.

Lemma insert_all_good vs b c :
  good_peers (peers c) → good_peers (peers (post (insert_all vs b) c)).
Proof.
  revert b c. induction vs as [|v vs IH]; intros b c Hg; [done|]. cbn [insert_all]. rewrite post_bind.
  rewrite <-(peer_from_json_pure v c). destruct (res (peer_from_json v) c) as [p| |] eqn:Ep; [|done..].
  rewrite post_bind, res_gets, post_gets.
  destruct (conflicting_peer_exists p c || negb (valid_peer p)) eqn:Er; [by apply IH|].
  run_simpl. apply IH. apply good_peers_insert; [done|by eapply peer_from_json_range|done].
Qed.

Lemma from_string_wf s c b : res (from_string s) c = Ok b → wf c → wf (post (from_string s) c).
Proof.
  unfold from_string. intros Hres Hw. destruct (parse s) as [json|]; [|done]. revert Hres.
  rewrite post_bind, res_bind, res_lift, post_lift. destruct (isMember json "peers") as [[]| |]; simpl; try done.
  rewrite post_bind, res_bind, res_lift, post_lift. destruct (member json "peers") as [a| |]; try done.
  destruct (isArray a); simpl; [|done]. run_simpl.
  destruct (res (insert_all _ _) _) eqn:Ei; [|done..]. intros _.
  apply cache_sorted_wf. apply insert_all_good. by split.
Qed.

(** ** Equal sets of peers, equal configurations *)

Lemma compatible_uuid ps p q :
  compatible ps → p ∈ ps → q ∈ ps → uuid p = uuid q → p = q.
Proof.
  assert (∀ p q, uuid p = uuid q → conflicts p q = false → False) as Hu.
  { intros p' q' E. unfold conflicts. by rewrite bool_decide_true. }
  induction ps as [|r ps IH]; simpl; [by intros _ ?%elem_of_nil|].
  rewrite !elem_of_cons, Forall_forall. intros [Hr Hc] [->|Hp] [->|Hq] E; auto; exfalso.
  - by eapply Hu, (Hr q).
  - by eapply (Hu r p), Hr.
Qed.

Lemma sorted_unique l1 l2 :
  l1 ≡ₚ l2 → compatible l1 → StronglySorted uuid_le l1 → StronglySorted uuid_le l2 → l1 = l2.
Proof.
  intros Hp Hc H1 H2. apply (StronglySorted_unique_strong uuid_le); [|done..].
  intros p q Hin1 Hin2 Hpq Hqp. rewrite <-Hp in Hin2. eapply compatible_uuid; [done..|].
  by apply (anti_symm string_le).
Qed.

Lemma same_peers_same_configuration c1 c2 :
  wf c1 → wf c2 → peers c1 ≡ₚ peers c2 →
  sorted_peers c1 = sorted_peers c2 ∧ to_string c1 = to_string c2 ∧ create_hash c1 = create_hash c2.
Proof.
  intros H1 H2 Hp. assert (sorted_peers c1 = sorted_peers c2) as E.
  { apply sorted_unique; [|rewrite (wf_permutation _ H1); apply H1|apply H1|apply H2].
    by rewrite (wf_permutation _ H1), (wf_permutation _ H2). }
  split; [done|]. unfold create_hash, to_string. by rewrite E.
Qed.

(** ** Printing and reading back *)

Context {JL : JsoncppLaws}.

Lemma string_field_read v v' k s c :
  reads_as v v' → member v k = Ok (str s) → string_field v' k c = (Ok s, c, []).
Proof.
  intros Hr Hm. destruct (reads_as_member _ _ _ _ Hr Hm) as (x & Hx & Hrx).
  unfold string_field, lift, mbind, M_bind. rewrite Hx. simpl.
  by rewrite (reads_as_asString _ _ Hrx), asString_str.
Qed.

Lemma uint_field_read v v' k n c :
  reads_as v v' → member v k = Ok (uint n) → (n < 2 ^ 16)%N → uint_field v' k c = (Ok n, c, []).
Proof.
  intros Hr Hm Hn. destruct (reads_as_member _ _ _ _ Hr Hm) as (x & Hx & Hrx).
  unfold uint_field, lift, mbind, M_bind. rewrite Hx. simpl.
  by rewrite (reads_as_asUInt _ _ Hrx), asUInt_uint by lia.
Qed.

Lemma peer_to_json_member p k x :
  (k, x) ∈ [("host", str (host p)); ("port", uint (port p)); ("http_port", uint (http_port p));
            ("name", str (name p)); ("uuid", str (uuid p))] → member (peer_to_json p) k = Ok x.
Proof. apply member_obj. by apply (bool_decide_unpack _). Qed.

Lemma peer_round_trip p v c :
  reads_as (peer_to_json p) v → in_range p → peer_from_json v c = (Ok p, c, []).
Proof.
  intros Hr [Hp Hh]. unfold peer_from_json.
  assert (∀ k x, _ → member (peer_to_json p) k = Ok x) as Hm by apply peer_to_json_member.
  unfold mbind, M_bind.
  rewrite (string_field_read _ _ "host" (host p) _ Hr) by (apply Hm; repeat constructor).
  rewrite (uint_field_read _ _ "port" (port p) _ Hr) by (apply Hm || done; repeat constructor).
  rewrite (uint_field_read _ _ "http_port" (http_port p) _ Hr) by (apply Hm || done; repeat constructor).
  rewrite (string_field_read _ _ "name" (name p) _ Hr) by (apply Hm; repeat constructor).
  rewrite (string_field_read _ _ "uuid" (uuid p) _ Hr) by (apply Hm; repeat constructor).
  simpl. rewrite !u16_small by done. by destruct p.
Qed.

Lemma insert_all_round_trip ps vs c :
  Forall2 reads_as (peer_to_json <$> ps) vs → good_peers (peers c ++ ps) →
  insert_all vs true c = (Ok true, set_peers (peers c ++ ps) c, []).
Proof.
  revert ps c. induction vs as [|v vs IH]; intros ps c.
  { intros ->%Forall2_nil_inv_r%fmap_nil_inv _. rewrite app_nil_r. by destruct c. }
  intros (w & ws & Hv & Hvs & Hps)%Forall2_cons_inv_r. destruct ps as [|p ps]; [done|].
  injection Hps as <- <-. intros [Hf Hc]. simpl.
  apply Forall_app in Hf as [Hf1 [[Hvp Hrp] Hf2]%Forall_cons].
  assert (Forall (λ q, conflicts p q = false) (peers c)) as Hfree.
  { apply compatible_app in Hc as (_ & _ & Hx). apply Forall_forall. intros q Hq.
    rewrite conflicts_sym. apply Hx; [done|]. left. }
  cbn [insert_all]. erewrite bind_ok; [|by apply (peer_round_trip p)|done].
  erewrite bind_ok; [|done|done]. simpl.
  rewrite (proj2 (conflicting_peer_exists_false p c) Hfree), Hvp. simpl.
  erewrite bind_ok; [|done|done]. rewrite set_insert_fresh by done.
  rewrite (IH ps); [|done|]; simpl; rewrite <-app_assoc; [done|].
  split; [|done]. rewrite !Forall_app, Forall_cons. auto.
Qed.

Lemma printed_configuration c :
  ∃ json a, parse (to_string c) = Some json ∧ isMember json "peers" = Ok true ∧ member json "peers" = Ok a ∧
    Forall2 reads_as (peer_to_json <$> sorted_peers c) (elements a) ∧
    isArray a = bool_decide (sorted_peers c ≠ []).
Proof.
  unfold to_string. set (kvs := [("peers", _)]).
  destruct (parse_toStyledString (obj kvs)) as (json & Hparse & Hr). exists json.
  assert (member (obj kvs) "peers" = Ok (foldl append null (peer_to_json <$> sorted_peers c))) as Hm.
  { apply member_obj; [by apply (bool_decide_unpack _)|left]. }
  destruct (reads_as_member _ _ _ _ Hr Hm) as (a & Ha & Hra). exists a.
  destruct (appends_spec (peer_to_json <$> sorted_peers c)) as [He Hi].
  split_and!; [done| |done| |].
  - rewrite (reads_as_isMember _ _ _ Hr), isMember_obj. done.
  - apply reads_as_elements in Hra. by rewrite He in Hra.
  - rewrite (reads_as_isArray _ _ Hra), Hi. apply bool_decide_ext. by destruct (sorted_peers c).
Qed.

Lemma from_string_round_trip c c0 :
  wf c → peers c ≠ [] →
  ∃ c', from_string (to_string c) c0 = (Ok true, c', []) ∧
    sorted_peers c' = sorted_peers c ∧ cached_hash c' = cached_hash c.
Proof.
  intros Hw Hne. pose proof (wf_permutation _ Hw) as Hperm.
  assert (sorted_peers c ≠ []) as Hns by (intros E; rewrite E in Hperm; by apply Permutation_nil_l in Hperm).
  assert (good_peers (sorted_peers c)) as Hg.
  { unfold good_peers. rewrite Hperm. by apply wf_good. }
  destruct (printed_configuration c) as (json & a & Hparse & His & Hmem & Hel & Harr).
  set (c1 := cache_sorted_peers (set_peers (sorted_peers c) c0)).
  assert (wf c1) as Hw1 by (by apply cache_sorted_wf).
  destruct (same_peers_same_configuration c1 c Hw1 Hw Hperm) as (Hs & _ & Hh).
  exists c1. split; [|split; [done|]].
  - unfold from_string. rewrite Hparse. erewrite bind_ok; [|by unfold lift; rewrite His|done]. simpl.
    erewrite bind_ok; [|by unfold lift; rewrite Hmem|done]. rewrite Harr, bool_decide_true by done. simpl.
    erewrite bind_ok; [|done|done]. simpl.
    erewrite bind_ok; [|by apply (insert_all_round_trip _ _ (set_peers [] c0) Hel)|done]. done.
  - destruct (wf_hash _ Hw) as [->| ->]; [done|]. by destruct Hne.
Qed.

Lemma from_string_empty c c0 :
  sorted_peers c = [] → from_string (to_string c) c0 = (Ok false, c0, []).
Proof.
  intros Hs. destruct (printed_configuration c) as (json & a & Hparse & His & Hmem & Hel & Harr).
  unfold from_string. rewrite Hparse. erewrite bind_ok; [|by unfold lift; rewrite His|done]. simpl.
  erewrite bind_ok; [|by unfold lift; rewrite Hmem|done]. by rewrite Harr, Hs.
Qed.

End Json.

(** The configurations a node can hold: built up by the public methods. *)
Inductive reachable `{JS : Jsoncpp, HS : StdHash} : pbft_configuration → Prop :=
| reachable_new : reachable new
| reachable_add c p : reachable c → in_range p → reachable (add_peer p c).2
| reachable_remove c p : reachable c → reachable (remove_peer p c).2
| reachable_read c s b :
    reachable c → res (from_string s) c = Ok b → reachable (post (from_string s) c).

Lemma reachable_wf `{JS : Jsoncpp, HS : StdHash} c : reachable c → wf c.
Proof.
  induction 1; [apply new_wf|by apply add_peer_wf|by apply remove_peer_wf|by eapply from_string_wf].
Qed.

Lemma compatible_NoDup ps : compatible ps → NoDup ps.
Proof.
  induction ps as [|p ps IH]; simpl; [constructor|]. rewrite Forall_forall. intros [Hp Hc].
  constructor; [|auto]. intros Hin. specialize (Hp _ Hin).
  by rewrite (conflicts_eqb p p (peer_eqb_refl p)) in Hp.
Qed.

Lemma compatible_lookup ps i j p q :
  compatible ps → i ≠ j → ps !! i = Some p → ps !! j = Some q → conflicts p q = false.
Proof.
  revert i j. induction ps as [|r ps IH]; intros i j; [by rewrite lookup_nil|]. simpl. intros [Hr Hc].
  rewrite Forall_forall in Hr. destruct i as [|i], j as [|j]; simpl; intros Hne Hi Hj; simplify_eq.
  - apply Hr. by eapply list_elem_of_lookup_2.
  - rewrite conflicts_sym. apply Hr. by eapply list_elem_of_lookup_2.
  - eapply IH; [done| |done..]. congruence.
Qed.

End pbft_configuration.

(** ** The store of configurations *)

Module pbft_config_store.
Import pbft_configuration.

Definition entry : Type := N * (pbft_configuration * bool).

(** [configs] is the [std::map] as the list of its entries in key order. *)
Record pbft_config_store := ConfigStore {
  configs : list entry;
  current_index : N;
  next_index : N
}.

Definition new : pbft_config_store := ConfigStore [] 0 1.

(** [std::map::insert]: an existing key is left alone. *)
Fixpoint insert_sorted (e : entry) (l : list entry) : list entry :=
  match l with
  | [] => [e]
  | x :: l => if (e.1 <? x.1)%N then e :: x :: l else x :: insert_sorted e l
  end.
Definition map_insert (e : entry) (l : list entry) : bool * list entry :=
  if existsb (λ x, (x.1 =? e.1)%N) l then (false, l) else (true, insert_sorted e l).

Definition add (config : pbft_configuration) (s : pbft_config_store) : bool * pbft_config_store :=
  let '(b, l) := map_insert (next_index s, (config, false)) (configs s) in
  (b, ConfigStore l (current_index s) (add64 (next_index s) 1)).

Definition has_hash (hash : hash_t) (c : entry) : bool := bool_decide (get_hash c.2.1 = hash).

Definition find_by_hash (hash : hash_t) (s : pbft_config_store) : option entry :=
  List.find (has_hash hash) (configs s).

Definition set_current (hash : hash_t) (s : pbft_config_store) : bool * pbft_config_store :=
  match find_by_hash hash s with
  | None => (false, s)
  | Some config => (true, ConfigStore (configs s) config.1 (next_index s))
  end.

(** The loop of [remove_prior_to]; [config] is the key the iterator stops at. *)
Fixpoint erase_prior (config current_index : N) (l : list entry) : list entry :=
  match l with
  | [] => []
  | it :: l =>
      if (it.1 =? config)%N then it :: l
      else if negb (it.1 =? current_index)%N then erase_prior config current_index l
      else it :: erase_prior config current_index l
  end.

Definition remove_prior_to (hash : hash_t) (s : pbft_config_store) : bool * pbft_config_store :=
  match find_by_hash hash s with
  | None => (false, s)
  | Some config =>
      (true, ConfigStore (erase_prior config.1 (current_index s) (configs s)) (current_index s) (next_index s))
  end.

Definition get (hash : hash_t) (s : pbft_config_store) : option pbft_configuration :=
  (λ config : entry, config.2.1) <$> find_by_hash hash s.

(** Marks the first entry with the hash. *)
Fixpoint enable_first (hash : hash_t) (val : bool) (l : list entry) : bool * list entry :=
  match l with
  | [] => (false, [])
  | c :: l =>
      if has_hash hash c then (true, (c.1, (c.2.1, val)) :: l)
      else let '(b, l) := enable_first hash val l in (b, c :: l)
  end.

Definition enable (hash : hash_t) (val : bool) (s : pbft_config_store) : bool * pbft_config_store :=
  let '(b, l) := enable_first hash val (configs s) in
  (b, ConfigStore l (current_index s) (next_index s)).

Definition is_enabled (hash : hash_t) (s : pbft_config_store) : bool :=
  match find_by_hash hash s with Some config => config.2.2 | None => false end.

(** [configs.find(k)]. *)
Definition find_index (k : N) (l : list entry) : option entry := List.find (λ x, (x.1 =? k)%N) l.

Definition current (s : pbft_config_store) : option pbft_configuration :=
  (λ it : entry, it.2.1) <$> find_index (current_index s) (configs s).

(** *** The current configuration stays *)

Lemma find_insert_sorted k e l : e.1 ≠ k → find_index k (insert_sorted e l) = find_index k l.
Proof.
  intros Hne. assert ((e.1 =? k)%N = false) as E by (by apply N.eqb_neq).
  induction l as [|x l IH]; simpl; [by rewrite E|].
  destruct (_ <? _)%N; simpl; [by rewrite E|]. by rewrite IH.
Qed.

Lemma add_current c s d : current s = Some d → current (add c s).2 = Some d.
Proof.
  unfold current, add, map_insert. destruct (existsb _ _) eqn:E; [done|]. simpl.
  destruct (decide (next_index s = current_index s)) as [Heq|Hne].
  - rewrite <-Heq. destruct (find_index _ _) as [e|] eqn:Ef; [|done].
    apply List.find_some in Ef as [Hin Hk].
    apply not_true_iff_false in E. destruct E. apply existsb_exists. by exists e.
  - by rewrite find_insert_sorted.
Qed.

Lemma find_erase_prior k config l :
  find_index k (erase_prior config k l) = find_index k l.
Proof.
  unfold find_index in *. induction l as [|x l IH]; simpl; [done|]. destruct (x.1 =? config)%N; [done|].
  destruct (x.1 =? k)%N eqn:E; simpl; by rewrite ?E.
Qed.

Lemma remove_prior_to_current h s : current (remove_prior_to h s).2 = current s.
Proof.
  unfold current, remove_prior_to. destruct (find_by_hash h s); simpl; [|done].
  by rewrite find_erase_prior.
Qed.

Lemma find_enable_first k h v l :
  (λ it : entry, it.2.1) <$> find_index k (enable_first h v l).2 =
  ((λ it : entry, it.2.1) <$> find_index k l).
Proof.
  induction l as [|x l IH]; simpl; [done|]. destruct (has_hash h x); simpl.
  - by destruct (x.1 =? k)%N.
  - destruct (enable_first h v l); simpl in *. by destruct (x.1 =? k)%N.
Qed.

Lemma enable_current h v s : current (enable h v s).2 = current s.
Proof.
  unfold current, enable. pose proof (find_enable_first (current_index s) h v (configs s)) as E.
  by destruct (enable_first h v (configs s)).
Qed.

(** Once a hash has been made current, the configuration it found stays current
    until another is chosen. *)
Lemma set_current_spec h s :
  NoDup (configs s).*1 →
  match (set_current h s) with
  | (true, s') => current s' = get h s ∧ is_Some (get h s)
  | (false, s') => s' = s ∧ get h s = None
  end.
Proof.
  intros Hnd. unfold set_current, get, current. destruct (find_by_hash h s) as [e|] eqn:E; simpl; [|done].
  split; [|done]. unfold find_by_hash in E. apply List.find_some in E as [Hin _].
  apply list_elem_of_In in Hin. unfold find_index.
  induction (configs s) as [|x l IH]; [by apply elem_of_nil in Hin|]. simpl.
  apply elem_of_cons in Hin as [->|Hin]; [by rewrite N.eqb_refl|].
  apply NoDup_cons in Hnd as [Hx Hnd]. destruct (x.1 =? e.1)%N eqn:Ex; [|auto].
  apply N.eqb_eq in Ex. destruct Hx. rewrite Ex. apply list_elem_of_fmap. eauto.
Qed.

(** *** The store as a state machine *)

(** Fewer than [2^64 - 1] configurations are ever added. *)
Inductive step : pbft_config_store → pbft_config_store → Prop :=
| step_add c s : (next_index s + 1 < 2 ^ 64)%N → step s (add c s).2
| step_set_current h s : step s (set_current h s).2
| step_remove_prior_to h s : step s (remove_prior_to h s).2
| step_enable h v s : step s (enable h v s).2.

(** Keys ascend and are below the next one. *)
Definition wf (s : pbft_config_store) : Prop :=
  StronglySorted N.lt (configs s).*1 ∧ Forall (λ e : entry, (e.1 < next_index s)%N) (configs s).

Lemma insert_sorted_last e l :
  Forall (λ x : entry, (x.1 < e.1)%N) l → insert_sorted e l = l ++ [e].
Proof.
  induction 1 as [|x l Hx _ IH]; [done|]. simpl. rewrite (proj2 (N.ltb_ge _ _)) by lia. by rewrite IH.
Qed.

Lemma add_spec c s :
  wf s → (next_index s + 1 < 2 ^ 64)%N →
  add c s = (true, ConfigStore (configs s ++ [(next_index s, (c, false))]) (current_index s) (next_index s + 1)).
Proof.
  intros [_ Hb] Hn. unfold add, map_insert. destruct (existsb _ _) eqn:E.
  - apply existsb_exists in E as (x & Hin%list_elem_of_In & Hx%N.eqb_eq). rewrite Forall_forall in Hb.
    specialize (Hb _ Hin). simpl in Hx. lia.
  - rewrite insert_sorted_last by done. by rewrite add64_small.
Qed.

Lemma StronglySorted_snoc {A} (R : relation A) l x :
  StronglySorted R l → Forall (λ y, R y x) l → StronglySorted R (l ++ [x]).
Proof.
  induction 1 as [|y l Hs IH Hy]; simpl; [repeat constructor|]. rewrite Forall_cons. intros [Hyx Hl].
  constructor; [auto|]. rewrite Forall_app, Forall_singleton. auto.
Qed.

Lemma StronglySorted_sublist {A} (R : relation A) l k :
  l `sublist_of` k → StronglySorted R k → StronglySorted R l.
Proof.
  induction 1 as [|x l k Hs IH|x l k Hs IH]; intros H; [constructor| |]; apply StronglySorted_inv in H as [H1 H2].
  - constructor; [auto|]. by eapply Forall_sublist.
  - auto.
Qed.

Lemma erase_prior_sublist config k l : erase_prior config k l `sublist_of` l.
Proof.
  induction l as [|x l IH]; simpl; [done|]. destruct (_ =? _)%N; [done|].
  destruct (negb _); [by apply sublist_cons|by apply sublist_skip].
Qed.

Lemma enable_first_keys h v l : (enable_first h v l).2.*1 = l.*1.
Proof.
  induction l as [|x l IH]; [done|]. simpl. destruct (has_hash h x); [done|].
  destruct (enable_first h v l). simpl in *. by f_equal.
Qed.

Lemma Forall_keys (P : N → Prop) (l : list entry) : Forall (λ e, P e.1) l ↔ Forall P l.*1.
Proof. by rewrite Forall_fmap. Qed.

Lemma step_wf s s' : step s s' → wf s → wf s'.
Proof.
  intros Hs Hw. pose proof Hw as [Hk Hb]. destruct Hs as [c s Hn|h s|h s|h v s].
  - rewrite add_spec by done. unfold wf. simpl. rewrite fmap_app, Forall_app, Forall_singleton. simpl. split.
    + apply StronglySorted_snoc; [done|]. by apply Forall_fmap.
    + split; [|lia]. eapply Forall_impl; [done|]. simpl. lia.
  - unfold set_current. by destruct (find_by_hash h s).
  - unfold remove_prior_to. destruct (find_by_hash h s) as [e|]; [|done].
    pose proof (erase_prior_sublist e.1 (current_index s) (configs s)) as Hsub. split; simpl.
    + eapply StronglySorted_sublist; [|done]. by apply fmap_sublist.
    + by eapply Forall_sublist.
  - unfold enable. pose proof (enable_first_keys h v (configs s)) as Ek.
    destruct (enable_first h v (configs s)) as [b l]. simpl in *.
    pose proof (Forall_keys (λ k, (k < next_index s)%N)) as HF. split; simpl; [by rewrite Ek|].
    apply HF. rewrite Ek. by apply HF.
Qed.

Lemma wf_NoDup s : wf s → NoDup (configs s).*1.
Proof.
  intros [Hk _]. induction Hk as [|k l Hs IH Hall]; constructor; [|done].
  rewrite Forall_forall in Hall. intros Hin. specialize (Hall _ Hin). lia.
Qed.

(** Erasing is filtering: what is not older than [config], and the current one. *)
Lemma erase_prior_filter config k l :
  StronglySorted N.lt l.*1 →
  (∃ e, e ∈ l ∧ e.1 = config) →
  erase_prior config k l = List.filter (λ e : entry, (config <=? e.1)%N || (e.1 =? k)%N) l.
Proof.
  induction l as [|x l IH]; simpl; [by intros _ (e & ?%elem_of_nil & _)|].
  intros [Hs Hx]%StronglySorted_inv (e & Hin & He). rewrite Forall_forall in Hx.
  apply elem_of_cons in Hin as [->|Hin].
  - rewrite He, N.eqb_refl, N.leb_refl. simpl. f_equal. rewrite (List.forallb_filter_id); [done|].
    apply forallb_forall. intros y Hy%list_elem_of_In. rewrite orb_true_iff, N.leb_le. left.
    specialize (Hx y.1). rewrite He in Hx. apply N.lt_le_incl, Hx. apply list_elem_of_fmap. eauto.
  - assert (x.1 < config)%N as Hlt. { subst. apply Hx, list_elem_of_fmap. eauto. }
    rewrite (proj2 (N.eqb_neq _ _)), (proj2 (N.leb_gt _ _)) by lia. simpl.
    rewrite IH by eauto. by destruct (x.1 =? k)%N.
Qed.

End pbft_config_store.

(** ** Claims *)

Section Claims.
Context {JS : Jsoncpp} {HS : StdHash}.
Import pbft_configuration.

(** C33: the configuration invariant.  However a configuration was built up by
    adding, removing and reading peers, no two of its peers share a uuid, a name
    or an address, every peer is valid, and [get_peers] lists exactly the
    peers, in the order of their uuids. *)
Theorem configuration_invariant (c : pbft_configuration) :
  reachable c →
  get_peers c ≡ₚ peers c ∧ StronglySorted uuid_le (get_peers c) ∧
  Forall (λ p, valid_peer p = true) (get_peers c) ∧
  ∀ i j p q, get_peers c !! i = Some p → get_peers c !! j = Some q → i ≠ j →
    uuid p ≠ uuid q ∧ name p ≠ name q ∧
    (host p = host q → port p ≠ port q ∧ http_port p ≠ http_port q).
Proof.
  intros Hr%reachable_wf. unfold get_peers. pose proof (wf_permutation _ Hr) as Hp.
  split_and!; [done|apply Hr| |].
  - rewrite Hp. eapply Forall_impl; [apply Hr|]. by intros p [? _].
  - intros i j p q Hi Hj Hne.
    pose proof (wf_compatible _ Hr) as Hc. rewrite <-Hp in Hc.
    pose proof (compatible_lookup _ _ _ _ _ Hc Hne Hi Hj) as Hf. unfold conflicts in Hf.
    rewrite !orb_false_iff, andb_false_iff, orb_false_iff, !bool_decide_eq_false, !N.eqb_neq in Hf.
    naive_solver.
Qed.

(** nodes that know the same peers agree on their order and on the hash of
    the configuration, in whatever order they learnt of them; so they agree on
    who is primary in a view. *)
Theorem configurations_agree (c1 c2 : pbft_configuration) :
  reachable c1 → reachable c2 → (∀ p, p ∈ peers c1 ↔ p ∈ peers c2) →
  get_peers c1 = get_peers c2 ∧ (peers c1 ≠ [] → get_hash c1 = get_hash c2 ∧ operator_eq c1 c2 = true).
Proof.
  intros H1%reachable_wf H2%reachable_wf He.
  assert (peers c1 ≡ₚ peers c2) as Hp.
  { apply NoDup_Permutation; [apply compatible_NoDup, H1|apply compatible_NoDup, H2|done]. }
  destruct (same_peers_same_configuration _ _ H1 H2 Hp) as (Hs & _ & Hh). split; [done|]. intros Hne.
  assert (get_hash c1 = get_hash c2) as E; [|split; [done|by apply bool_decide_eq_true]].
  destruct (wf_hash _ H1) as [E1| ->]; [|by destruct Hne].
  destruct (wf_hash _ H2) as [E2| ->]; [unfold get_hash; congruence|].
  by apply Permutation_nil_r in Hp.
Qed.

Context {JL : JsoncppLaws}.

(** C34: a configuration with peers survives the wire: reading what
    [to_string] printed succeeds and yields the same peers in the same order,
    and the same hash. *)
Theorem configuration_round_trip (c c0 : pbft_configuration) :
  reachable c → peers c ≠ [] →
  ∃ c', from_string (to_string c) c0 = (Ok true, c', []) ∧
    get_peers c' = get_peers c ∧ get_hash c' = get_hash c.
Proof. intros Hr%reachable_wf. by apply from_string_round_trip. Qed.

(** A finding.  The empty configuration is printed with a null for its
    array of peers and is rejected when it is read back: the configuration that
    results when the last peer leaves can be proposed but never adopted. *)
Theorem empty_configuration_is_rejected (c c0 : pbft_configuration) :
  reachable c → peers c = [] → from_string (to_string c) c0 = (Ok false, c0, []).
Proof.
  intros Hr%reachable_wf He. apply from_string_empty.
  pose proof (wf_permutation _ Hr) as Hp. rewrite He in Hp. by apply Permutation_nil_r in Hp.
Qed.

End Claims.

(** Two peers for the examples. *)
Definition peer_a : peer_address_t := Peer "10.0.0.1" 1 2 "a" "ua".
Definition peer_b : peer_address_t := Peer "10.0.0.2" 1 2 "b" "ub".

Definition sample_ab `{JS : Jsoncpp, HS : StdHash} : pbft_configuration.pbft_configuration :=
  (pbft_configuration.add_peer peer_b (pbft_configuration.add_peer peer_a pbft_configuration.new).2).2.
Definition sample_ba `{JS : Jsoncpp, HS : StdHash} : pbft_configuration.pbft_configuration :=
  (pbft_configuration.add_peer peer_a (pbft_configuration.add_peer peer_b pbft_configuration.new).2).2.

Lemma sample_ab_reachable `{JS : Jsoncpp, HS : StdHash} : pbft_configuration.reachable sample_ab.
Proof. repeat constructor. Defined.
Lemma sample_ba_reachable `{JS : Jsoncpp, HS : StdHash} : pbft_configuration.reachable sample_ba.
Proof. repeat constructor. Defined.

Example configuration_invariant_witness :
  pbft_configuration.get_peers (sample_ba (JS := json_tree.tree_json) (HS := json_tree.tree_hash)) ≡ₚ [peer_b; peer_a].
Proof.
  exact (proj1 (configuration_invariant (JS := json_tree.tree_json) (HS := json_tree.tree_hash)
    sample_ba sample_ba_reachable)).
Defined.

Example configurations_agree_witness :
  pbft_configuration.get_peers (sample_ab (JS := json_tree.tree_json) (HS := json_tree.tree_hash)) =
  pbft_configuration.get_peers sample_ba ∧
  pbft_configuration.get_peers (sample_ba (JS := json_tree.tree_json) (HS := json_tree.tree_hash)) = [peer_a; peer_b].
Proof.
  split; [|vm_compute; reflexivity].
  apply (configurations_agree sample_ab sample_ba); [apply sample_ab_reachable|apply sample_ba_reachable|].
  intros p. change (p ∈ [peer_a; peer_b] ↔ p ∈ [peer_b; peer_a]). set_solver.
Defined.

Example configuration_round_trip_witness :
  ∃ c', pbft_configuration.from_string
          (pbft_configuration.to_string (sample_ab (JS := json_tree.tree_json) (HS := json_tree.tree_hash)))
          pbft_configuration.new = (Ok true, c', []) ∧
    pbft_configuration.get_peers c' = [peer_a; peer_b].
Proof.
  destruct (configuration_round_trip (JS := json_tree.tree_json) (HS := json_tree.tree_hash)
              sample_ab pbft_configuration.new sample_ab_reachable) as (c' & Hr & Hp & _).
  - discriminate.
  - exists c'. split; [exact Hr|]. rewrite Hp. vm_compute. reflexivity.
Defined.

Example empty_configuration_is_rejected_witness :
  pbft_configuration.from_string (HS := json_tree.tree_hash) (pbft_configuration.to_string pbft_configuration.new)
    pbft_configuration.new = (Ok false, pbft_configuration.new, []).
Proof. apply empty_configuration_is_rejected; [constructor|reflexivity]. Defined.

(** the store never loses the current configuration.  Adding, enabling and
    removing configurations leave the current one in place, and what
    [remove_prior_to] leaves is exactly the entries that are not older than the
    configuration it was called with, and the current one. *)
Theorem config_store_keeps_current (s s' : pbft_config_store.pbft_config_store) :
  rtc pbft_config_store.step pbft_config_store.new s →
  (∀ c d, pbft_config_store.current s = Some d →
     pbft_config_store.current (pbft_config_store.add c s).2 = Some d) ∧
  (∀ h v, pbft_config_store.current (pbft_config_store.enable h v s).2 = pbft_config_store.current s) ∧
  (∀ h, pbft_config_store.remove_prior_to h s = (true, s') →
     pbft_config_store.current s' = pbft_config_store.current s ∧
     ∃ e, pbft_config_store.find_by_hash h s = Some e ∧
       pbft_config_store.configs s' =
         List.filter (λ x : pbft_config_store.entry,
                        (e.1 <=? x.1)%N || (x.1 =? pbft_config_store.current_index s)%N)
           (pbft_config_store.configs s)).
Proof.
  intros Hr. assert (pbft_config_store.wf s) as [Hk _].
  { assert (pbft_config_store.wf pbft_config_store.new) as Hn by (split; constructor).
    induction Hr as [|x y z Hs _ IH]; [done|]. by eapply IH, pbft_config_store.step_wf. }
  split_and!; [intros c d; by apply pbft_config_store.add_current|intros h v; apply pbft_config_store.enable_current|].
  intros h Hrem. split.
  { rewrite <-(pbft_config_store.remove_prior_to_current h s). by rewrite Hrem. }
  unfold pbft_config_store.remove_prior_to in Hrem.
  destruct (pbft_config_store.find_by_hash h s) as [e|] eqn:E; [|done]. simplify_eq/=. exists e. split; [done|].
  apply pbft_config_store.erase_prior_filter; [done|]. exists e. split; [|done].
  by apply List.find_some in E as [?%list_elem_of_In _].
Qed.

Example config_store_keeps_current_witness :
  let s := (pbft_config_store.set_current "" (pbft_config_store.add pbft_configuration.new pbft_config_store.new).2).2 in
  pbft_config_store.current (pbft_config_store.add pbft_configuration.new s).2 = Some pbft_configuration.new.
Proof.
  intros s. assert (rtc pbft_config_store.step pbft_config_store.new s) as Hr.
  { eapply rtc_l; [apply pbft_config_store.step_add; vm_compute; reflexivity|].
    eapply rtc_l; [apply pbft_config_store.step_set_current|apply rtc_refl]. }
  apply (proj1 (config_store_keeps_current s s Hr)). reflexivity.
Defined.
