(* ===== verification/FailureDetector.v ===== *)
(** * The failure detector

    [pbft/pbft_failure_detector.cpp]: remembers the requests a node has seen, in
    order, and reports a failure when the timer runs out and the oldest of them
    has not been executed. *)

From stdpp Require Import relations.
From S2P Require Import Prelude Messages PbftOperation.

Module pbft_failure_detector.
Section Detector.
Context {PB : Protobuf}.

Record pbft_failure_detector := Detector {
  ordered_requests : list pbft_request;
  outstanding_requests : gset hash_t;
  completed_requests : gset hash_t;
  failure_handler : bool  (* whether a handler has been registered *)
}.

Inductive effect :=
| StartTimer (ms : N)       (* expires_from_now and async_wait(handle_timeout) *)
| PostFailureHandler.       (* io_context->post(failure_handler) *)

Abbreviation fdM := (M pbft_failure_detector effect).

Definition operation_timeout : N := 10000.

Definition new : pbft_failure_detector := Detector [] ∅ ∅ false.

Definition set_ordered (l : list pbft_request) (d : pbft_failure_detector) : pbft_failure_detector :=
  Detector l (outstanding_requests d) (completed_requests d) (failure_handler d).

Definition start_timer : fdM unit := emit (StartTimer operation_timeout).

(** [completed_requests.count(request_hash(req)) > 0]. *)
Definition completed (req : pbft_request) (d : pbft_failure_detector) : bool :=
  bool_decide (pbft_operation.request_hash req ∈ completed_requests d).

(** [ordered_requests.front()]. *)
Definition front : fdM pbft_request :=
  l ← gets ordered_requests; match l with [] => undefined | r :: _ => mret r end.

(** The [while] loop of [handle_timeout]. *)
Fixpoint pop_completed (done : gset hash_t) (l : list pbft_request) : list pbft_request :=
  match l with
  | [] => []
  | r :: l => if bool_decide (pbft_operation.request_hash r ∈ done) then pop_completed done l else r :: l
  end.

Definition handle_timeout : fdM unit :=
  req ← front;
  is_completed ← gets (completed req);
  if negb is_completed then start_timer;; emit PostFailureHandler
  else
    modify (λ d, set_ordered (pop_completed (completed_requests d) (ordered_requests d)) d);;
    l ← gets ordered_requests;
    when (0 <? lengthN l)%N start_timer.

Definition request_seen (req : pbft_request) : fdM unit :=
  let req_hash := pbft_operation.request_hash req in
  known ← gets (λ d, bool_decide (req_hash ∈ outstanding_requests d) || bool_decide (req_hash ∈ completed_requests d));
  if (known : bool) then mret tt
  else
    modify (λ d, Detector (ordered_requests d ++ [req]) ({[ req_hash ]} ∪ outstanding_requests d)
                   (completed_requests d) (failure_handler d));;
    l ← gets ordered_requests;
    when (lengthN l =? 1)%N start_timer.

Definition request_executed (req : pbft_request) : fdM unit :=
  let req_hash := pbft_operation.request_hash req in
  modify (λ d, Detector (ordered_requests d) (outstanding_requests d ∖ {[ req_hash ]})
                 ({[ req_hash ]} ∪ completed_requests d) (failure_handler d)).

Definition register_failure_handler : fdM unit :=
  modify (λ d, Detector (ordered_requests d) (outstanding_requests d) (completed_requests d) true).

(** ** The detector and its timer *)

Definition timers (es : list effect) : nat :=
  length (List.filter (λ e, match e with StartTimer _ => true | _ => false end) es).

(** The detector with the number of waits that have been started and have not
    yet called [handle_timeout]. *)
Definition world : Type := pbft_failure_detector * nat.

Inductive step : world → world → Prop :=
| step_seen r d n : step (d, n) (post (request_seen r) d, n + timers (out (request_seen r) d))
| step_executed r d n : step (d, n) (post (request_executed r) d, n + timers (out (request_executed r) d))
| step_register d n : step (d, n) (post register_failure_handler d, n)
| step_timeout d n : step (d, S n) (post handle_timeout d, n + timers (out handle_timeout d)).

(** ** Behaviour of the operations *)

Lemma handle_timeout_run d :
  handle_timeout d =
  match ordered_requests d with
  | [] => (Undefined, d, [])
  | r :: _ =>
      if completed r d then
        let l := pop_completed (completed_requests d) (ordered_requests d) in
        (Ok tt, set_ordered l d, if decide (l = []) then [] else [StartTimer operation_timeout])
      else (Ok tt, d, [StartTimer operation_timeout; PostFailureHandler])
  end.
Proof.
  unfold handle_timeout, front, mbind, M_bind, gets.
  destruct (ordered_requests d) as [|r l] eqn:E; [done|]. cbn -[completed pop_completed].
  destruct (completed r d); [|done]. cbn -[pop_completed]. rewrite E.
  by destruct (pop_completed (completed_requests d) (r :: l)).
Qed.

Lemma request_seen_run r d :
  let h := pbft_operation.request_hash r in
  request_seen r d =
  if decide (h ∈ outstanding_requests d ∪ completed_requests d) then (Ok tt, d, [])
  else (Ok tt, Detector (ordered_requests d ++ [r]) ({[ h ]} ∪ outstanding_requests d)
                 (completed_requests d) (failure_handler d),
        if decide (ordered_requests d = []) then [StartTimer operation_timeout] else []).
Proof.
  intros h. unfold request_seen, mbind, M_bind, gets. fold h. cbn -[bool_decide lengthN].
  destruct (decide (h ∈ outstanding_requests d ∪ completed_requests d)) as [Hin|Hout].
  - replace (_ || _) with true; [done|]. symmetry.
    rewrite orb_true_iff, !bool_decide_eq_true. by apply elem_of_union.
  - rewrite not_elem_of_union in Hout. destruct Hout. rewrite !bool_decide_false by done.
    cbn -[lengthN]. rewrite lengthN_app. destruct (ordered_requests d) as [|x l]; [done|].
    unfold lengthN. simpl length. replace (_ =? 1)%N with false; [done|]. symmetry. apply N.eqb_neq. lia.
Qed.

(** ** The invariant

    Requests are listed once, what is outstanding is listed and not completed,
    and a wait is pending exactly when a request is listed. *)
Record inv (w : world) : Prop := {
  inv_timer : w.2 = if decide (ordered_requests w.1 = []) then 0 else 1;
  inv_nodup : NoDup (pbft_operation.request_hash <$> ordered_requests w.1);
  inv_listed h : h ∈ pbft_operation.request_hash <$> ordered_requests w.1 →
    h ∈ outstanding_requests w.1 ∪ completed_requests w.1;
  inv_outstanding h : h ∈ outstanding_requests w.1 →
    h ∈ pbft_operation.request_hash <$> ordered_requests w.1 ∧ h ∉ completed_requests w.1
}.

Lemma pop_completed_suffix D l : pop_completed D l `suffix_of` l.
Proof.
  induction l as [|r l IH]; simpl; [done|]. case_bool_decide; [by apply suffix_cons_r|done].
Qed.

Lemma pop_completed_keeps D l h :
  h ∉ D → h ∈ pbft_operation.request_hash <$> l → h ∈ pbft_operation.request_hash <$> pop_completed D l.
Proof.
  intros Hh. induction l as [|r l IH]; [done|]. rewrite fmap_cons, elem_of_cons. cbn [pop_completed].
  case_bool_decide; [intros [->|?]; [done|auto]|]. by rewrite fmap_cons, elem_of_cons.
Qed.

Lemma pop_completed_head D l r l' :
  pop_completed D l = r :: l' → pbft_operation.request_hash r ∉ D.
Proof.
  induction l as [|x l IH]; simpl; [done|]. case_bool_decide; [done|]. by intros [= -> ->].
Qed.

Lemma inv_pop d n :
  inv (d, n) → let l := pop_completed (completed_requests d) (ordered_requests d) in
  inv (set_ordered l d, if decide (l = []) then 0 else 1).
Proof.
  intros [_ Hnd Hl Ho] l. simpl in *.
  pose proof (pop_completed_suffix (completed_requests d) (ordered_requests d)) as [k Hk].
  rewrite Hk, fmap_app in Hnd, Hl. split; simpl.
  - done.
  - by apply NoDup_app in Hnd as (_ & _ & ?).
  - intros h Hh. apply Hl, elem_of_app. by right.
  - intros h Hh. destruct (Ho h Hh) as [H1 H2]. split; [|done]. by apply pop_completed_keeps.
Qed.

Lemma inv_seen r d n : inv (d, n) → inv (post (request_seen r) d, n + timers (out (request_seen r) d)).
Proof.
  intros [Ht Hnd Hl Ho]. unfold post, out. rewrite request_seen_run. simpl in *.
  set (h := pbft_operation.request_hash r) in *.
  destruct (decide (h ∈ _)) as [Hin|Hout]; simpl; [rewrite Nat.add_0_r; by split|].
  rewrite elem_of_union in Hout. split; simpl.
  - rewrite Ht. destruct (ordered_requests d); [done|]. by destruct (decide _).
  - rewrite fmap_app. apply NoDup_app. split_and!; [done| |apply NoDup_singleton].
    intros h' Hh' ->%list_elem_of_singleton. apply Hl in Hh'. set_solver.
  - intros h'. rewrite fmap_app, elem_of_app, list_fmap_singleton, list_elem_of_singleton. intros [H1| ->]; [|set_solver].
    apply Hl in H1. set_solver.
  - intros h'. rewrite fmap_app, elem_of_app, list_fmap_singleton, list_elem_of_singleton, elem_of_union, elem_of_singleton.
    intros [->|H1]; [naive_solver|]. apply Ho in H1. naive_solver.
Qed.

Lemma inv_executed r d n : inv (d, n) → inv (post (request_executed r) d, n).
Proof.
  intros [Ht Hnd Hl Ho]. simpl in *. split; simpl; [done|done| |].
  - intros h Hh. specialize (Hl h Hh). destruct (decide (h = pbft_operation.request_hash r)); set_solver.
  - intros h [H1 H2]%elem_of_difference. apply Ho in H1. set_solver.
Qed.

Lemma inv_timeout d n :
  inv (d, S n) → res handle_timeout d = Ok tt ∧ inv (post handle_timeout d, n + timers (out handle_timeout d)).
Proof.
  intros Hi. pose proof (inv_timer _ Hi) as Ht. simpl in Ht. unfold res, post, out. rewrite handle_timeout_run.
  destruct (ordered_requests d) as [|r l] eqn:E; [done|]. simpl in Ht. simplify_eq. rewrite <-E.
  destruct (completed r d); simpl; split; try done.
  pose proof (inv_pop _ _ Hi) as Hp. simpl in Hp.
  destruct (decide (pop_completed _ _ = [])); exact Hp.
Qed.

Lemma step_inv w w' : step w w' → inv w → inv w'.
Proof.
  destruct 1 as [r d n|r d n|d n|d n]; intros Hi.
  - by apply inv_seen.
  - rewrite Nat.add_0_r. by apply inv_executed.
  - by destruct Hi.
  - by apply inv_timeout.
Qed.

Lemma new_inv : inv (new, 0).
Proof.
  split; simpl; [done|constructor|by intros h ?%elem_of_nil|]. intros h ?%elem_of_empty. done.
Qed.

Lemma reachable_inv w : rtc step (new, 0) w → inv w.
Proof.
  intros Hr. pose proof new_inv as Hi.
  induction Hr as [|x y z Hs _ IH]; [done|]. by eapply IH, step_inv.
Qed.

End Detector.
End pbft_failure_detector.

(** ** Claims *)

Section Claims.
Context {PB : Protobuf}.
Import pbft_failure_detector.

(** the timer never fires for nothing.  At every time a wait is pending
    exactly when requests are listed, and there is never more than one, so
    [handle_timeout] never looks at the front of an empty list. *)
Theorem failure_detector_timer (d : pbft_failure_detector) (n : nat) :
  rtc step (new, 0) (d, n) →
  n = (if decide (ordered_requests d = []) then 0 else 1) ∧
  (0 < n → res handle_timeout d = Ok tt).
Proof.
  intros Hi%reachable_inv. split; [apply (inv_timer _ Hi)|]. destruct n; [lia|].
  intros _. by apply (inv_timeout d n).
Qed.

(** C35: failures are detected.  A timeout reports a failure exactly when the
    oldest listed request has not been executed; while a request that was seen
    has not been executed it stays listed and, of two timeouts with nothing
    executed in between, the second reports a failure. *)
Theorem failure_detector_reports (d : pbft_failure_detector) (n : nat) :
  rtc step (new, 0) (d, n) →
  (∀ r l, ordered_requests d = r :: l →
     (PostFailureHandler ∈ out handle_timeout d ↔ completed r d = false)) ∧
  (∀ h, h ∈ outstanding_requests d →
     h ∈ pbft_operation.request_hash <$> ordered_requests (post handle_timeout d) ∧
     PostFailureHandler ∈ out handle_timeout (post handle_timeout d)).
Proof.
  intros Hi%reachable_inv. split.
  - intros r l E. unfold out. rewrite handle_timeout_run, E.
    destruct (completed r d); simpl; [|split; [done|intros _; right; left]].
    split; [|done]. destruct (decide _); [by intros ?%elem_of_nil|].
    by intros ?%list_elem_of_singleton.
  - intros h Hh. destruct (inv_outstanding _ Hi h Hh) as [Hin Hnc]. simpl in *.
    destruct (ordered_requests d) as [|r l] eqn:E; [by apply elem_of_nil in Hin|].
    assert (post handle_timeout d = d ∧ completed r d = false ∨
            post handle_timeout d = set_ordered (pop_completed (completed_requests d) (ordered_requests d)) d)
      as [[-> Hc]| ->].
    { unfold post. rewrite handle_timeout_run, E. destruct (completed r d); [by right|by left]. }
    + rewrite E. split; [done|]. unfold out. rewrite handle_timeout_run, E, Hc. right; left.
    + pose proof (pop_completed_keeps _ _ _ Hnc Hin) as Hk. rewrite <-E in Hk. split; [done|].
      unfold out. rewrite handle_timeout_run. simpl.
      destruct (pop_completed (completed_requests d) (ordered_requests d)) as [|x k] eqn:Ep;
        [by apply elem_of_nil in Hk|].
      unfold completed. rewrite bool_decide_false; [right; left|]. by eapply pop_completed_head.
Qed.

End Claims.

(** A printer for the examples: the client names the request. *)
Definition sample_protobuf : Protobuf := {| ShortDebugString := req_client |}.
Definition sample_request (c : string) : pbft_request := PbftRequest PBFT_REQ_DATABASE ReqNotSet 0 c.

Lemma sample_detector_reachable :
  let d := post (pbft_failure_detector.request_seen (PB := sample_protobuf) (sample_request "r"))
             pbft_failure_detector.new in
  rtc (pbft_failure_detector.step (PB := sample_protobuf)) (pbft_failure_detector.new, 0) (d, 1).
Proof. intros d. apply rtc_once. apply (pbft_failure_detector.step_seen (PB := sample_protobuf) (sample_request "r")). Defined.

Example failure_detector_timer_witness :
  res (pbft_failure_detector.handle_timeout (PB := sample_protobuf))
    (post (pbft_failure_detector.request_seen (PB := sample_protobuf) (sample_request "r"))
       pbft_failure_detector.new) = Ok tt.
Proof.
  apply (proj2 (failure_detector_timer (PB := sample_protobuf) _ 1 sample_detector_reachable)). lia.
Defined.

Example failure_detector_reports_witness :
  let d := post (pbft_failure_detector.request_seen (PB := sample_protobuf) (sample_request "r"))
             pbft_failure_detector.new in
  pbft_failure_detector.PostFailureHandler ∈
    out (pbft_failure_detector.handle_timeout (PB := sample_protobuf)) d.
Proof.
  intros d. apply (proj1 (failure_detector_reports (PB := sample_protobuf) _ 1 sample_detector_reachable) (sample_request "r") []);
    vm_compute; reflexivity.
Defined.
