(* ===== verification/PbftService.v ===== *)
(** * The services PBFT replicates

    [pbft/database_pbft_service.cpp] executes the committed requests against
    CRUD in the order of their sequence numbers, keeping those that came too
    early in a store of their own; [pbft/dummy_pbft_service.cpp] only pretends
    to.  [in_order_executor] is what [pbft_service_base.hpp] promises. *)

From S2P Require Import Prelude Messages Storage Crud PbftOperation.

(** ** The promise: requests are executed one by one in sequence order *)
Module in_order_executor.

Section Executor.
Context {A : Type}.

(** What has been applied and not yet executed, and the next sequence number. *)
Record executor := Executor { waiting : gmap N A; next : N }.

(** Executes while the next request is there; [fuel] is at least the number of
    requests that wait. *)
Fixpoint drain (fuel : nat) (x : executor) : list (A * N) * executor :=
  match fuel, waiting x !! next x with
  | S fuel, Some r =>
      let '(rs, x') := drain fuel (Executor (delete (next x) (waiting x)) (next x + 1)) in
      ((r, next x) :: rs, x')
  | _, _ => ([], x)
  end.

Definition apply (n : N) (r : A) (x : executor) : list (A * N) * executor :=
  let x := Executor (<[n := r]> (waiting x)) (next x) in drain (size (waiting x)) x.

Definition idle (x : executor) : Prop := waiting x !! next x = None.

Lemma drain_idle fuel x : size (waiting x) ≤ fuel → idle (drain fuel x).2.
Proof.
  revert x. induction fuel as [|fuel IH]; intros x Hs; simpl.
  - unfold idle. assert (waiting x = ∅) as -> by (apply map_size_empty_inv; lia). apply lookup_empty.
  - destruct (waiting x !! next x) eqn:E; [|done].
    specialize (IH (Executor (delete (next x) (waiting x)) (next x + 1))). simpl in IH.
    destruct (drain fuel _) as [rs x']. apply IH. rewrite map_size_delete_Some by done. lia.
Qed.

(** What a drain executes: consecutive sequence numbers, from the next one on. *)
Lemma drain_spec fuel x :
  let '(rs, x') := drain fuel x in
  next x' = (next x + lengthN rs)%N ∧
  (∀ i r n, rs !! i = Some (r, n) → n = (next x + N.of_nat i)%N ∧ waiting x !! n = Some r) ∧
  (∀ n, (next x ≤ n < next x')%N → waiting x' !! n = None) ∧
  (∀ n, ¬ (next x ≤ n < next x')%N → waiting x' !! n = waiting x !! n).
Proof.
  revert x. induction fuel as [|fuel IH]; intros x; simpl.
  { unfold lengthN. simpl. split_and!; [lia|done|lia|done]. }
  destruct (waiting x !! next x) as [r|] eqn:E.
  2: { unfold lengthN. simpl. split_and!; [lia|done|lia|done]. }
  specialize (IH (Executor (delete (next x) (waiting x)) (next x + 1))). simpl in IH.
  destruct (drain fuel _) as [rs x']. destruct IH as (Hn & Hrs & Hd & Hk).
  assert (lengthN ((r, next x) :: rs) = 1 + lengthN rs)%N as -> by (unfold lengthN; simpl; lia).
  split_and!.
  - lia.
  - intros [|i] r' n Hi; simpl in Hi; simplify_eq.
    + split; [lia|done].
    + apply Hrs in Hi as [-> Hw]. split; [lia|]. by apply lookup_delete_Some in Hw as [_ ?].
  - intros n Hle. destruct (decide (n = next x)) as [->|]; [|apply Hd; lia].
    rewrite Hk by lia. apply lookup_delete_eq.
  - intros n Hle. rewrite Hk by lia. apply lookup_delete_ne. lia.
Qed.

(** More fuel than requests makes no difference. *)
Lemma drain_enough (x : executor) fuel fuel' :
  size (waiting x) ≤ fuel → size (waiting x) ≤ fuel' → drain fuel x = drain fuel' x.
Proof.
  revert fuel' x. induction fuel as [|fuel IH]; intros fuel' x H1 H2.
  - assert (waiting x = ∅) as E by (apply map_size_empty_inv; lia).
    destruct fuel'; [done|]. simpl. by rewrite E, lookup_empty.
  - simpl. destruct (waiting x !! next x) as [r|] eqn:Er.
    + pose proof (map_size_delete_Some (next x) (waiting x) (mk_is_Some _ _ Er)) as Hs.
      assert (size (waiting x) ≠ 0) by (intros E0; apply map_size_empty_inv in E0; by rewrite E0 in Er).
      destruct fuel' as [|fuel']; [lia|]. simpl. rewrite Er. rewrite (IH fuel'); [done|simpl; lia..].
    + destruct fuel'; simpl; [done|]. by rewrite Er.
Qed.

(** *** Runs from the start *)

(** [applied] is everything that has been applied so far, [rs] what has been
    executed. *)
Record run_inv (applied : gmap N A) (rs : list (A * N)) (x : executor) : Prop := {
  run_next : next x = (1 + lengthN rs)%N;
  run_executed i r n : rs !! i = Some (r, n) → n = (1 + N.of_nat i)%N ∧ applied !! n = Some r;
  run_waiting n : waiting x !! n = if decide (n < next x)%N then None else applied !! n;
  run_complete n : (1 ≤ n < next x)%N → is_Some (applied !! n);
  run_idle : idle x
}.

(** A request is executed at its place once all before it were applied. *)
Lemma run_inv_reaches m rs x n r :
  run_inv m rs x → (1 ≤ n)%N → (∀ i, (1 ≤ i < n)%N → is_Some (m !! i)) → m !! n = Some r →
  rs !! N.to_nat (n - 1) = Some (r, n).
Proof.
  intros Hi Hn Hall Hr. assert (n ≤ lengthN rs)%N as Hle.
  { destruct (decide (n ≤ lengthN rs)%N) as [|Hgt]; [done|exfalso].
    pose proof (run_idle _ _ _ Hi) as Hd. unfold idle in Hd.
    rewrite (run_waiting _ _ _ Hi), (run_next _ _ _ Hi), decide_False in Hd by lia.
    destruct (decide (n = 1 + lengthN rs)%N) as [E|Hne]; [congruence|].
    destruct (Hall (1 + lengthN rs)%N) as [y Hy]; [lia|congruence]. }
  destruct (lookup_lt_is_Some_2 rs (N.to_nat (n - 1))) as [[r' n'] Hl]; [unfold lengthN in Hle; lia|].
  destruct (run_executed _ _ _ Hi _ _ _ Hl) as [-> Ha]. rewrite Hl.
  replace (1 + N.of_nat (N.to_nat (n - 1)))%N with n in * by lia. congruence.
Qed.

Lemma run_inv_start : run_inv ∅ [] (Executor ∅ 1).
Proof.
  split; unfold idle; simpl; try done.
  - intros n. rewrite !lookup_empty. by destruct (decide _).
  - lia.
Qed.

Lemma run_inv_apply applied rs x n r :
  run_inv applied rs x → applied !! n = None → (1 ≤ n)%N →
  waiting x !! n = None ∧
  run_inv (<[n := r]> applied) (rs ++ (apply n r x).1) (apply n r x).2.
Proof.
  intros Hi Hn H1. split; [rewrite (run_waiting _ _ _ Hi), Hn; by destruct (decide _)|].
  assert (next x ≤ n)%N as Hle.
  { destruct (decide (next x ≤ n)%N); [done|].
    destruct (run_complete _ _ _ Hi n) as [??]; [lia|congruence]. }
  unfold apply. set (y := Executor _ _).
  assert (∀ k, waiting y !! k = if decide (k < next x)%N then None else <[n := r]> applied !! k) as Hwy.
  { intros k. simpl. destruct (decide (n = k)) as [<-|Hne].
    - rewrite !lookup_insert_eq, decide_False by lia. done.
    - rewrite !lookup_insert_ne by done. apply Hi. }
  pose proof (drain_spec (size (waiting y)) y) as Hd.
  pose proof (drain_idle (size (waiting y)) y ltac:(done)) as Hidle.
  destruct (drain (size (waiting y)) y) as [rs' x'] eqn:E. destruct Hd as (Hnx & Hrs & Hgone & Hkeep).
  simpl in *. pose proof (run_next _ _ _ Hi) as Hrn. split.
  - rewrite lengthN_app. lia.
  - intros i r' k Hk. apply lookup_app_Some in Hk as [Hk|[Hi' Hk]].
    + destruct (run_executed _ _ _ Hi _ _ _ Hk) as [-> Ha]. split; [done|].
      rewrite lookup_insert_ne; [done|]. congruence.
    + apply Hrs in Hk as [-> Hw]. rewrite Hwy, decide_False in Hw by lia.
      unfold lengthN in *. split; [lia|done].
  - intros k. destruct (decide (next x ≤ k < next x')%N) as [Hin|Hout].
    + rewrite Hgone by done. by rewrite decide_True by lia.
    + rewrite Hkeep, Hwy by done. destruct (decide (k < next x)%N).
      * by rewrite decide_True by lia.
      * rewrite decide_False by lia. done.
  - intros k Hk. destruct (decide (k < next x)%N).
    + destruct (run_complete _ _ _ Hi k) as [a Ha]; [lia|]. exists a. rewrite lookup_insert_ne; [done|congruence].
    + destruct (lookup_lt_is_Some_2 rs' (N.to_nat (k - next x))) as [[a k'] Ha]; [unfold lengthN in *; lia|].
      destruct (Hrs _ _ _ Ha) as [Ek Hw]. assert (k' = k) as -> by lia.
      rewrite Hwy, decide_False in Hw by lia. eauto.
  - done.
Qed.

(** What has been executed is determined by what has been applied. *)
Lemma run_inv_unique applied rs1 rs2 x1 x2 :
  run_inv applied rs1 x1 → run_inv applied rs2 x2 → rs1 = rs2.
Proof.
  assert (∀ rs rs' x x', run_inv applied rs x → run_inv applied rs' x' → (next x' ≤ next x)%N) as Hnext.
  { intros rs rs' x x' H H'. destruct (decide (next x' ≤ next x)%N); [done|].
    pose proof (run_idle _ _ _ H) as Hid. unfold idle in Hid.
    rewrite (run_waiting _ _ _ H), decide_False in Hid by lia.
    pose proof (run_next _ _ _ H).
    destruct (run_complete _ _ _ H' (next x)) as [??]; [lia|congruence]. }
  intros H1 H2. pose proof (Hnext _ _ _ _ H1 H2). pose proof (Hnext _ _ _ _ H2 H1).
  pose proof (run_next _ _ _ H1). pose proof (run_next _ _ _ H2). unfold lengthN in *.
  apply list_eq_same_length with (n := length rs1); [lia|lia|].
  intros i [r n] [r' n'] _ Hi Hi'.
  destruct (run_executed _ _ _ H1 _ _ _ Hi) as [-> Ha].
  destruct (run_executed _ _ _ H2 _ _ _ Hi') as [-> Hb]. congruence.
Qed.

(** When nothing different was applied under the same number, one has executed
    what the other has, and possibly more. *)
Lemma run_inv_comparable applied1 applied2 rs1 rs2 x1 x2 :
  run_inv applied1 rs1 x1 → run_inv applied2 rs2 x2 →
  (∀ n r1 r2, applied1 !! n = Some r1 → applied2 !! n = Some r2 → r1 = r2) →
  rs1 `prefix_of` rs2 ∨ rs2 `prefix_of` rs1.
Proof.
  assert (∀ applied1 applied2 rs1 rs2 x1 x2, run_inv applied1 rs1 x1 → run_inv applied2 rs2 x2 →
    (∀ n r1 r2, applied1 !! n = Some r1 → applied2 !! n = Some r2 → r1 = r2) →
    length rs1 ≤ length rs2 → rs1 `prefix_of` rs2) as H.
  { clear. intros a1 a2 rs1 rs2 x1 x2 H1 H2 Hag Hl. exists (drop (length rs1) rs2).
    rewrite <-(take_drop (length rs1) rs2) at 1. f_equal.
    apply list_eq_same_length with (n := length rs1); [done|rewrite length_take; lia|].
    intros i [r n] [r' n'] Hi Ht Hr. rewrite lookup_take_lt in Ht by lia.
    destruct (run_executed _ _ _ H1 _ _ _ Hr) as [-> Ha].
    destruct (run_executed _ _ _ H2 _ _ _ Ht) as [-> Hb]. by rewrite (Hag _ _ _ Ha Hb). }
  intros H1 H2 Hag. destruct (decide (length rs1 ≤ length rs2)).
  - left. by eapply H.
  - right. eapply H; [done..| |lia]. intros m r2 r1 Hr2 Hr1. symmetry. by eapply Hag.
Qed.

End Executor.
End in_order_executor.

(** ** The database service *)
Module database_pbft_service.
Import storage_base.

Definition NEXT_REQUEST_SEQUENCE_KEY : key_t := "next_request_sequence".

(** [uint8_t(result)]. *)
Definition result_code (r : storage_result) : N :=
  match r with
  | ok => 0 | not_found => 1 | exists_ => 2 | not_saved => 3 | value_too_large => 4 | key_too_large => 5
  end.

Section Service.
Context {U C : Type} {SU : Storage U} {SC : Storage C} {PM : Message pbft_request}.
Context (uuid : uuid_t).

(** The stores of the service and of CRUD, and the service's own fields. *)
Record database_pbft_service := Service {
  unstable_storage : U;
  crud_storage : C;
  next_request_sequence : N;
  sessions_awaiting_response : gmap N (option session_id)
}.

Inductive effect :=
| Crud (e : crud_base.effect)
| PostExecute (request : pbft_request) (sequence : N).  (* io_context->post(execute_handler) *)

Abbreviation serviceM := (M database_pbft_service effect).

Definition with_storage (u : U) (st : database_pbft_service) : database_pbft_service :=
  Service u (crud_storage st) (next_request_sequence st) (sessions_awaiting_response st).
Definition set_next (n : N) (st : database_pbft_service) : database_pbft_service :=
  Service (unstable_storage st) (crud_storage st) n (sessions_awaiting_response st).
Definition set_sessions (m : gmap N (option session_id)) (st : database_pbft_service) : database_pbft_service :=
  Service (unstable_storage st) (crud_storage st) (next_request_sequence st) m.

(** A call of a writer of the unstable storage. *)
Definition storage_call (f : U → storage_result * U) : serviceM storage_result :=
  λ st, let '(r, u) := f (unstable_storage st) in (Ok r, with_storage u st, []).

(** A call of CRUD, on its own store. *)
Definition crud_call {A} (m : M C crud_base.effect A) : serviceM A :=
  λ st, (res m (crud_storage st),
         Service (unstable_storage st) (post m (crud_storage st)) (next_request_sequence st)
           (sessions_awaiting_response st),
         Crud <$> out m (crud_storage st)).

Definition save_next_request_sequence : serviceM unit :=
  n ← gets next_request_sequence;
  storage_call (update uuid NEXT_REQUEST_SEQUENCE_KEY (to_string n));;
  mret tt.

Definition load_next_request_sequence : serviceM unit :=
  saved ← gets (λ st, read uuid NEXT_REQUEST_SEQUENCE_KEY (unstable_storage st));
  match saved with
  | Some s =>
      match lexical_cast_u64 s with
      | Some n => modify (set_next n)
      | None => throw "bad_lexical_cast"
      end
  | None =>
      n ← gets next_request_sequence;
      result ← storage_call (create uuid NEXT_REQUEST_SEQUENCE_KEY (to_string n));
      if decide (result = ok) then mret tt else throw ("Failed to create: " ++ NEXT_REQUEST_SEQUENCE_KEY)
  end.

(** The constructor, over the stores it is given. *)
Definition construct (u : U) (c : C) : result unit * database_pbft_service * list effect :=
  load_next_request_sequence (Service u c 1 ∅).

(** [session.lock()] of a [weak_ptr]; [alive] tells which sessions still exist. *)
Definition lock (alive : session_id → bool) (session : option session_id) : option session_id :=
  match session with Some s => if alive s then Some s else None | None => None end.

(** One turn of the loop of [process_awaiting_operations]. *)
Definition execute_next (alive : session_id → bool) : serviceM unit :=
  n ← gets next_request_sequence;
  let key := to_string n in
  result ← gets (λ st, read uuid key (unstable_storage st));
  match result with
  | None => throw "Failed to store pbft request!"
  | Some bytes =>
      match ParseFromString bytes with
      | None => throw "Failed to create pbft_request from database read!"
      | Some request =>
          session_it ← gets (λ st, sessions_awaiting_response st !! n);
          crud_call (crud.handle_request (req_operation request)
                       (match session_it with Some session => lock alive session | None => None end));;
          emit (PostExecute request n);;
          removed ← storage_call (remove uuid key);
          if decide (removed = ok) then
            modify (λ st, set_next (add64 (next_request_sequence st) 1) st);;
            save_next_request_sequence
          else throw ("Failed to remove pbft_request from database! (" ++ to_string (result_code removed) ++ ")")
      end
  end.

(** The loop; [fuel] bounds its turns. *)
Fixpoint process_loop (alive : session_id → bool) (fuel : nat) : serviceM unit :=
  more ← gets (λ st, has uuid (to_string (next_request_sequence st)) (unstable_storage st));
  if (more : bool) then
    match fuel with
    | O => undefined
    | S fuel => execute_next alive;; process_loop alive fuel
    end
  else mret tt.

(** Every turn removes one of the keys of the service's database. *)
Definition process_awaiting_operations (alive : session_id → bool) : serviceM unit :=
  keys ← gets (λ st, get_keys uuid (unstable_storage st));
  process_loop alive (length keys).

Definition apply_operation (alive : session_id → bool) (op : pbft_operation.pbft_operation) : serviceM unit :=
  result ← storage_call
    (create uuid (to_string (pbft_operation.sequence op)) (SerializeAsString (pbft_operation.request op)));
  if decide (result = ok) then
    modify (λ st, set_sessions (<[pbft_operation.sequence op := pbft_operation.session op]>
                                  (sessions_awaiting_response st)) st);;
    process_awaiting_operations alive
  else throw ("Failed to store pbft request! (" ++ to_string (result_code result) ++ ")").

Definition service_state_hash (sequence_number : N) : hash_t := "".

Definition applied_requests_count (st : database_pbft_service) : N := sub64 (next_request_sequence st) 1.

(** ** Simulation of the in-order executor *)

(** The requests a run has executed. *)
Definition executed (es : list effect) : list (pbft_request * N) :=
  omap (λ e, match e with PostExecute r n => Some (r, n) | Crud _ => None end) es.

Lemma executed_crud es : executed (Crud <$> es) = [].
Proof. by induction es. Qed.
Lemma executed_app es es' : executed (es ++ es') = executed es ++ executed es'.
Proof. apply omap_app. Qed.

(** Operations as they are committed, each with the sessions that exist then. *)
Definition run (ops : list ((session_id → bool) * pbft_operation.pbft_operation)) : serviceM unit :=
  for_each (λ ao, apply_operation ao.1 ao.2) ops.

Definition applied (m : gmap N pbft_request)
    (ops : list ((session_id → bool) * pbft_operation.pbft_operation)) : gmap N pbft_request :=
  foldl (λ m ao, <[pbft_operation.sequence ao.2 := pbft_operation.request ao.2]> m) m ops.

Lemma applied_lookup ops m n r :
  applied m ops !! n = Some r →
  m !! n = Some r ∨ ∃ ao, ao ∈ ops ∧ pbft_operation.sequence ao.2 = n ∧ pbft_operation.request ao.2 = r.
Proof.
  revert m. induction ops as [|ao ops IH]; intros m; simpl; [by left|].
  intros [H|(ao' & ? & ?)]%IH; [|right; exists ao'; set_solver].
  apply lookup_insert_Some in H as [[? ?]|[_ ?]]; [|by left]. right. exists ao. set_solver.
Qed.

Lemma applied_elem ops m ao :
  ao ∈ ops → NoDup ((pbft_operation.sequence ∘ snd) <$> ops) →
  applied m ops !! pbft_operation.sequence ao.2 = Some (pbft_operation.request ao.2).
Proof.
  revert m. induction ops as [|a ops IH]; intros m; [by intros ?%elem_of_nil|].
  rewrite fmap_cons, elem_of_cons, NoDup_cons. intros [->|Hin] [Hn Hnd]; simpl; [|by apply IH].
  assert (∀ m, m !! pbft_operation.sequence a.2 = Some (pbft_operation.request a.2) →
     applied m ops !! pbft_operation.sequence a.2 = Some (pbft_operation.request a.2)) as Hk.
  2: { apply Hk, lookup_insert_eq. }
  clear IH Hnd. induction ops as [|b ops IH]; intros m' Hm'; [done|]. simpl. apply IH.
  - intros Hin. apply Hn. rewrite fmap_cons, elem_of_cons. by right.
  - rewrite lookup_insert_ne; [done|]. intros E. apply Hn. rewrite fmap_cons, elem_of_cons. by left.
Qed.

Context (valid : uuid_t → Prop) (wf : U → Prop) (R : U → storage_spec.contents → Prop).
Context {Href : StorageRefines U valid wf R} {Hrel : ReliableStorage U valid}.
Context {HPM : MessageLaws pbft_request} (Huuid : valid uuid).

Import in_order_executor.

(** The unstable storage holds what waits, under its sequence number, and the
    next sequence number. *)
Record sim (st : database_pbft_service) (x : executor) : Prop := {
  sim_contents : ∃ m, wf (unstable_storage st) ∧ R (unstable_storage st) m ∧
    (∀ n, m !! (uuid, to_string n) = SerializeAsString <$> waiting x !! n) ∧
    m !! (uuid, NEXT_REQUEST_SEQUENCE_KEY) = Some (to_string (next x));
  sim_next : next_request_sequence st = next x;
  sim_bound n : is_Some (waiting x !! n) → (n + 1 < 2 ^ 64)%N;
  sim_wf n r : waiting x !! n = Some r → well_formed r = true;
  sim_next_bound : (next x < 2 ^ 64)%N
}.

Lemma next_key_not_number n : to_string n ≠ NEXT_REQUEST_SEQUENCE_KEY.
Proof.
  intros E. pose proof (digits_value_to_string n) as H. rewrite E in H. by vm_compute in H.
Qed.

Lemma key_not_too_large n : (n < 2 ^ 64)%N → (MAX_KEY_SIZE <? strlen (to_string n))%N = false.
Proof. intros ?%strlen_to_string. apply N.ltb_ge. unfold MAX_KEY_SIZE. lia. Qed.

Lemma number_not_too_large n : (n < 2 ^ 64)%N → (MAX_VALUE_SIZE <? strlen (to_string n))%N = false.
Proof. intros ?%strlen_to_string. apply N.ltb_ge. unfold MAX_VALUE_SIZE. lia. Qed.

(** Changing the record of one sequence number. *)
Lemma lookup_insert_number (m : storage_spec.contents) (w : gmap N pbft_request) n r :
  (∀ k, m !! (uuid, to_string k) = SerializeAsString <$> w !! k) →
  ∀ k, <[(uuid, to_string n) := SerializeAsString r]> m !! (uuid, to_string k) =
       SerializeAsString <$> <[n := r]> w !! k.
Proof.
  intros Hm k. destruct (decide (n = k)) as [<-|Hne].
  - by rewrite !lookup_insert_eq.
  - rewrite !lookup_insert_ne; [apply Hm|done|]. intros [= E]. by apply to_string_inj in E.
Qed.

Lemma lookup_delete_number (m : storage_spec.contents) (w : gmap N pbft_request) n :
  (∀ k, m !! (uuid, to_string k) = SerializeAsString <$> w !! k) →
  ∀ k, delete (uuid, to_string n) m !! (uuid, to_string k) = SerializeAsString <$> delete n w !! k.
Proof.
  intros Hm k. destruct (decide (n = k)) as [<-|Hne].
  - by rewrite !lookup_delete_eq.
  - rewrite !lookup_delete_ne; [apply Hm|done|]. intros [= E]. by apply to_string_inj in E.
Qed.

Lemma lookup_next_insert (m : storage_spec.contents) n v :
  <[(uuid, to_string n) := v]> m !! (uuid, NEXT_REQUEST_SEQUENCE_KEY) = m !! (uuid, NEXT_REQUEST_SEQUENCE_KEY).
Proof. apply lookup_insert_ne. intros [= E]. by apply next_key_not_number in E. Qed.

Lemma lookup_next_delete (m : storage_spec.contents) n :
  delete (uuid, to_string n) m !! (uuid, NEXT_REQUEST_SEQUENCE_KEY) = m !! (uuid, NEXT_REQUEST_SEQUENCE_KEY).
Proof. apply lookup_delete_ne. intros [= E]. by apply next_key_not_number in E. Qed.

Lemma lookup_number_insert (m : storage_spec.contents) n v :
  <[(uuid, NEXT_REQUEST_SEQUENCE_KEY) := v]> m !! (uuid, to_string n) = m !! (uuid, to_string n).
Proof. apply lookup_insert_ne. intros [= E]. symmetry in E. by apply next_key_not_number in E. Qed.

Lemma run_storage_call f st :
  storage_call f st = (Ok (f (unstable_storage st)).1, with_storage (f (unstable_storage st)).2 st, []).
Proof. unfold storage_call. by destruct (f _). Qed.

Lemma execute_next_sim alive st x r :
  sim st x → waiting x !! next x = Some r →
  ∃ st' es, execute_next alive st = (Ok tt, st', es) ∧ executed es = [(r, next x)] ∧
    sim st' (Executor (delete (next x) (waiting x)) (next x + 1)) ∧
    crud_storage st' = crud.apply_request (req_operation r) (crud_storage st).
Proof using Href Hrel HPM Huuid.
  intros [(m & Hw & HR & Hm & Hmn) Hn Hb Hwf Hnb] Hr.
  assert (next x + 1 < 2 ^ 64)%N as Hnb' by (apply Hb; eauto).
  assert (m !! (uuid, to_string (next x)) = Some (SerializeAsString r)) as Hmr by (by rewrite Hm, Hr).
  destruct (crud_spec.remove_code valid wf R uuid (to_string (next x)) _ m Hw HR Huuid) as (Hc1 & Hw1 & HR1).
  unfold storage_spec.remove in Hc1, HR1. rewrite Hmr in Hc1, HR1. simpl in Hc1, HR1.
  destruct (crud_spec.update_code valid wf R uuid NEXT_REQUEST_SEQUENCE_KEY (to_string (next x + 1)) _ _ Hw1 HR1 Huuid)
    as (Hc2 & Hw2 & HR2).
  unfold storage_spec.update in Hc2, HR2.
  rewrite number_not_too_large, lookup_next_delete, Hmn in Hc2, HR2 by done. simpl in Hc2, HR2.
  unfold execute_next. do 2 eexists. split_and!.
  - erewrite bind_ok; [|done|done]. rewrite Hn.
    erewrite bind_ok; [|done|done].
    rewrite (refines_read _ m _ _ Hw HR Huuid), Hmr, parse_serialize by (by eapply Hwf).
    erewrite bind_ok; [|done|done].
    erewrite bind_ok; [|unfold crud_call; rewrite (proj1 (crud.handle_request_run _ _ _)); done|done].
    erewrite bind_ok; [|done|done].
    erewrite bind_ok; [|apply run_storage_call|done]. cbn [unstable_storage crud_storage]. rewrite Hc1, decide_True by done.
    erewrite bind_ok; [|done|done].
    unfold save_next_request_sequence. erewrite bind_ok; [|done|done].
    erewrite bind_ok; [|apply run_storage_call|done]. simpl. done.
  - rewrite !executed_app. simpl. by rewrite executed_crud.
  - simpl. rewrite Hn, add64_small by done. split; simpl.
    + eexists. split_and!; [exact Hw2|exact HR2| |by rewrite lookup_insert_eq].
      intros n. rewrite lookup_number_insert. by apply lookup_delete_number.
    + done.
    + intros n [r' [_ ?]%lookup_delete_Some]. eauto.
    + intros n r' [_ ?]%lookup_delete_Some. eauto.
    + done.
  - simpl. apply (proj2 (crud.handle_request_run _ _ _)).
Qed.

Lemma process_loop_sim alive fuel st x :
  sim st x → size (waiting x) ≤ fuel →
  ∃ st' es, process_loop alive fuel st = (Ok tt, st', es) ∧
    executed es = (drain fuel x).1 ∧ sim st' (drain fuel x).2 ∧
    crud_storage st' =
      foldl (λ c r, crud.apply_request (req_operation r.1) c) (crud_storage st) (drain fuel x).1.
Proof using Href Hrel HPM Huuid.
  revert st x. induction fuel as [|fuel IH]; intros st x Hs Hf.
  all: pose proof Hs as [(m & Hw & HR & Hm & Hmn) Hn Hb Hnb].
  all: cbn [process_loop drain]; erewrite bind_ok; [|done|done].
  all: rewrite Hn, (refines_has _ m _ _ Hw HR Huuid), Hm.
  { assert (waiting x = ∅) as E by (apply map_size_empty_inv; lia). rewrite E, lookup_empty. by exists st, []. }
  destruct (waiting x !! next x) as [r|] eqn:Er; simpl; [|by exists st, []].
  destruct (execute_next_sim alive st x r Hs Er) as (st1 & es1 & Hrun & Hex & Hs1 & Hc1).
  destruct (IH st1 _ Hs1) as (st2 & es2 & Hrun2 & Hex2 & Hs2 & Hc2).
  { simpl. rewrite map_size_delete_Some by eauto. lia. }
  destruct (drain fuel _) as [rs x'] eqn:Ed. simpl in *.
  exists st2, (es1 ++ es2). split_and!.
  - by rewrite (bind_ok _ _ _ _ _ _ _ Hrun Hrun2).
  - by rewrite executed_app, Hex, Hex2.
  - done.
  - by rewrite Hc2, Hc1.
Qed.

(** There are at least as many keys as requests that wait. *)
Lemma waiting_keys st x :
  sim st x → size (waiting x) ≤ length (get_keys uuid (unstable_storage st)).
Proof using Href Huuid.
  intros [(m & Hw & HR & Hm & _) _ _ _ _].
  destruct (refines_keys _ m uuid Hw HR Huuid) as [_ Hk].
  rewrite <-length_map_to_list, <-(length_fmap (to_string ∘ fst)).
  apply submseteq_length, NoDup_submseteq.
  - rewrite list_fmap_compose. apply NoDup_fmap_2_strong, NoDup_fst_map_to_list.
    intros a b _ _. apply to_string_inj.
  - intros k (p & -> & Hp)%list_elem_of_fmap. apply Hk. simpl. rewrite Hm.
    destruct p as [n r]. apply elem_of_map_to_list in Hp. simpl. by rewrite Hp.
Qed.

Lemma process_awaiting_run alive st :
  process_awaiting_operations alive st = process_loop alive (length (get_keys uuid (unstable_storage st))) st.
Proof using.
  unfold process_awaiting_operations. erewrite bind_ok; [|done|done]. by destruct (process_loop _ _ _) as [[??]?].
Qed.

(** What a request has to satisfy to be stored and read back. *)
Definition storable (op : pbft_operation.pbft_operation) : Prop :=
  (pbft_operation.sequence op + 1 < 2 ^ 64)%N ∧ well_formed (pbft_operation.request op) = true ∧
  (strlen (SerializeAsString (pbft_operation.request op)) ≤ MAX_VALUE_SIZE)%N.

Lemma apply_operation_sim alive op st x :
  sim st x → storable op → waiting x !! pbft_operation.sequence op = None →
  let y := apply (pbft_operation.sequence op) (pbft_operation.request op) x in
  ∃ st' es, apply_operation alive op st = (Ok tt, st', es) ∧
    executed es = y.1 ∧ sim st' y.2 ∧
    crud_storage st' = foldl (λ c r, crud.apply_request (req_operation r.1) c) (crud_storage st) y.1.
Proof using Href Hrel HPM Huuid.
  intros Hs (Hsb & Hwr & Hsz) Hnew. set (n := pbft_operation.sequence op) in *. set (r := pbft_operation.request op) in *.
  pose proof Hs as [(m & Hw & HR & Hm & Hmn) Hn Hb Hwf Hnb].
  destruct (crud_spec.create_code valid wf R uuid (to_string n) (SerializeAsString r) _ m Hw HR Huuid)
    as (Hc & Hw1 & HR1).
  unfold storage_spec.create in Hc, HR1.
  rewrite (proj2 (N.ltb_ge _ _) Hsz), key_not_too_large, Hm, Hnew in Hc, HR1 by lia. simpl in Hc, HR1.
  set (x1 := Executor (<[n := r]> (waiting x)) (next x)).
  set (st1 := set_sessions (<[n := pbft_operation.session op]> (sessions_awaiting_response st))
                (with_storage (create uuid (to_string n) (SerializeAsString r) (unstable_storage st)).2 st)).
  assert (sim st1 x1) as Hs1.
  { split; simpl; [|done| | |done].
    - eexists. split_and!; [exact Hw1|exact HR1|by apply lookup_insert_number|].
      by rewrite lookup_next_insert.
    - intros k [r' [[<- _]|[_ Hk]]%lookup_insert_Some]; [done|eauto].
    - intros k r' [[_ <-]|[_ Hk]]%lookup_insert_Some; [done|eauto]. }
  destruct (process_loop_sim alive (length (get_keys uuid (unstable_storage st1))) st1 x1 Hs1)
    as (st' & es & Hrun & Hrest); [by apply waiting_keys|].
  exists st', es. unfold apply. fold x1.
  rewrite (drain_enough x1 _ (length (get_keys uuid (unstable_storage st1)))); [|done|by apply waiting_keys].
  split; [|exact Hrest]. unfold apply_operation. fold n r.
  erewrite bind_ok; [|apply run_storage_call|done]. rewrite Hc, decide_True by done.
  erewrite bind_ok; [|done|etrans; [apply process_awaiting_run|exact Hrun]]. done.
Qed.

(** A sequence number that already waits is refused, and an oversized request. *)
Lemma apply_operation_throws alive op st x :
  sim st x → (pbft_operation.sequence op < 2 ^ 64)%N →
  (is_Some (waiting x !! pbft_operation.sequence op) ∨
   (MAX_VALUE_SIZE < strlen (SerializeAsString (pbft_operation.request op)))%N) →
  ∃ w, res (apply_operation alive op) st = Throw w ∧ out (apply_operation alive op) st = [].
Proof using Href Hrel Huuid.
  intros [(m & Hw & HR & Hm & Hmn) Hn Hb _ Hnb] Hsb Hor.
  set (n := pbft_operation.sequence op) in *. set (r := pbft_operation.request op) in *.
  destruct (crud_spec.create_code valid wf R uuid (to_string n) (SerializeAsString r) _ m Hw HR Huuid) as (Hc & _).
  assert ((create uuid (to_string n) (SerializeAsString r) (unstable_storage st)).1 ≠ ok) as Hne.
  { rewrite Hc. unfold storage_spec.create. rewrite key_not_too_large, Hm by done.
    destruct (N.ltb_spec MAX_VALUE_SIZE (strlen (SerializeAsString r))); [done|].
    destruct Hor as [[? ->]|?]; [done|lia]. }
  unfold apply_operation. fold n r. rewrite res_bind, out_bind. unfold res at 1 3, post, out at 1.
  rewrite run_storage_call. simpl. rewrite decide_False by done. eauto.
Qed.

(** ** Starting, restarting and running *)

Lemma construct_fresh u c m :
  wf u → R u m → (∀ k, m !! (uuid, k) = None) →
  ∃ st, construct u c = (Ok tt, st, []) ∧ sim st (Executor ∅ 1) ∧ crud_storage st = c.
Proof using Href Hrel Huuid.
  intros Hw HR Hm. unfold construct, load_next_request_sequence.
  destruct (crud_spec.create_code valid wf R uuid NEXT_REQUEST_SEQUENCE_KEY (to_string 1) u m Hw HR Huuid)
    as (Hc & Hw1 & HR1).
  unfold storage_spec.create in Hc, HR1. rewrite number_not_too_large, Hm in Hc, HR1 by done. simpl in Hc, HR1.
  eexists. split_and!.
  - erewrite bind_ok; [|done|done]. simpl. rewrite (refines_read u m _ _ Hw HR Huuid), Hm.
    erewrite bind_ok; [|done|done]. erewrite bind_ok; [|apply run_storage_call|done]. simpl.
    rewrite Hc. done.
  - split; simpl; [|done| | |done].
    + eexists. split_and!; [exact Hw1|exact HR1| |by rewrite lookup_insert_eq].
      intros n. by rewrite lookup_number_insert, Hm, lookup_empty.
    + intros n. rewrite lookup_empty. by intros [??].
    + intros n r. by rewrite lookup_empty.
  - done.
Qed.

Lemma construct_restart st x c :
  sim st x →
  ∃ st', construct (unstable_storage st) c = (Ok tt, st', []) ∧ sim st' x ∧ crud_storage st' = c ∧
    unstable_storage st' = unstable_storage st ∧ next_request_sequence st' = next_request_sequence st.
Proof using Href Huuid.
  intros [(m & Hw & HR & Hm & Hmn) Hn Hb Hwf Hnb]. unfold construct, load_next_request_sequence.
  exists (Service (unstable_storage st) c (next x) ∅). split_and!; [|split|..]; try done; [|by eauto 10].
  erewrite bind_ok; [|done|done]. simpl. rewrite (refines_read _ m _ _ Hw HR Huuid), Hmn.
  by rewrite lexical_cast_to_string.
Qed.

Lemma run_sim ops m rs st x :
  sim st x → run_inv m rs x →
  Forall (λ ao, storable ao.2 ∧ 1 ≤ pbft_operation.sequence ao.2)%N ops →
  NoDup ((pbft_operation.sequence ∘ snd) <$> ops) →
  Forall (λ ao, m !! pbft_operation.sequence ao.2 = None) ops →
  ∃ st' es x', run ops st = (Ok tt, st', es) ∧ sim st' x' ∧
    run_inv (applied m ops) (rs ++ executed es) x' ∧
    crud_storage st' =
      foldl (λ c r, crud.apply_request (req_operation r.1) c) (crud_storage st) (executed es).
Proof using Href Hrel HPM Huuid.
  revert m rs st x. induction ops as [|[alive op] ops IH]; intros m rs st x Hs Hi Hok Hnd Hfresh.
  { exists st, [], x. simpl. by rewrite app_nil_r. }
  apply Forall_cons in Hok as [[Hst H1] Hok]. apply Forall_cons in Hfresh as [Hf Hfresh].
  rewrite fmap_cons in Hnd. apply NoDup_cons in Hnd as [Hnin Hnd]. simpl in *.
  destruct (run_inv_apply m rs x _ (pbft_operation.request op) Hi Hf H1) as [Hw Hi1].
  destruct (apply_operation_sim alive op st x Hs Hst Hw) as (st1 & es1 & Hrun1 & Hex1 & Hs1 & Hc1).
  rewrite <-Hex1 in Hi1.
  destruct (IH _ _ _ _ Hs1 Hi1 Hok Hnd) as (st2 & es2 & x2 & Hrun2 & Hs2 & Hi2 & Hc2).
  { rewrite Forall_forall in Hfresh |- *. intros ao Hao. rewrite lookup_insert_ne; [by apply Hfresh|].
    intros E. apply Hnin. apply list_elem_of_fmap. by exists ao. }
  exists st2, (es1 ++ es2), x2. split_and!.
  - unfold run. cbn [for_each fst snd]. by rewrite (bind_ok _ _ _ _ _ _ _ Hrun1 Hrun2).
  - done.
  - by rewrite executed_app, app_assoc.
  - by rewrite executed_app, foldl_app, Hc2, Hc1, Hex1.
Qed.

End Service.
Arguments effect : clear implicits.
Arguments database_pbft_service : clear implicits.
End database_pbft_service.

(** ** The dummy service *)
Module dummy_pbft_service.

Record dummy_pbft_service := Dummy {
  waiting_operations : gmap N pbft_operation.pbft_operation;
  next_request_sequence : N
}.

Definition new : dummy_pbft_service := Dummy ∅ 1.

Inductive effect :=
| SendDatagram (session : session_id) (resp : database_response)
| PostExecute (request : pbft_request) (sequence : N).

Abbreviation dummyM := (M dummy_pbft_service effect).

Section Service.
Context {PB : Protobuf}.

(** [op->debug_string()]. *)
Definition debug_string (op : pbft_operation.pbft_operation) : string :=
  "(v" ++ to_string (pbft_operation.view op) ++ ", s" ++ to_string (pbft_operation.sequence op) ++ ") - "
  ++ ShortDebugString (pbft_operation.request op).

Definition send_execute_response (alive : session_id → bool) (op : pbft_operation.pbft_operation) : dummyM unit :=
  let resp := set_response (RespRead "" ("dummy database execution of " ++ debug_string op)) default_response in
  match database_pbft_service.lock alive (pbft_operation.session op) with
  | Some session => emit (SendDatagram session resp)
  | None => mret tt
  end.

(** The [while] loop of [apply_operation]: every turn erases an operation. *)
Fixpoint execute_waiting (alive : session_id → bool) (fuel : nat) : dummyM unit :=
  n ← gets next_request_sequence;
  waiting ← gets (λ st, waiting_operations st !! n);
  match waiting with
  | None => mret tt
  | Some op =>
      match fuel with
      | O => undefined
      | S fuel =>
          send_execute_response alive op;;
          emit (PostExecute (pbft_operation.request op) n);;
          modify (λ st, Dummy (delete n (waiting_operations st)) (add64 (next_request_sequence st) 1));;
          execute_waiting alive fuel
      end
  end.

Definition apply_operation (alive : session_id → bool) (op : pbft_operation.pbft_operation) : dummyM unit :=
  modify (λ st, Dummy (<[pbft_operation.sequence op := op]> (waiting_operations st)) (next_request_sequence st));;
  fuel ← gets (λ st, size (waiting_operations st));
  execute_waiting alive fuel.

Definition applied_requests_count (st : dummy_pbft_service) : N := sub64 (next_request_sequence st) 1.

Definition service_state_hash (sequence_number : N) : hash_t :=
  "I don't actually have a database [" ++ to_string sequence_number ++ "]".

(** ** It refines the same executor *)

Import in_order_executor.

Definition executed (es : list effect) : list (pbft_request * N) :=
  omap (λ e, match e with PostExecute r n => Some (r, n) | SendDatagram _ _ => None end) es.

Record sim (st : dummy_pbft_service) (x : executor) : Prop := {
  sim_waiting : pbft_operation.request <$> waiting_operations st = waiting x;
  sim_next : next_request_sequence st = next x;
  sim_bound n : is_Some (waiting x !! n) → (n + 1 < 2 ^ 64)%N
}.

Lemma send_execute_response_run alive op st :
  ∃ es, send_execute_response alive op st = (Ok tt, st, es) ∧ executed es = [].
Proof. unfold send_execute_response. destruct (database_pbft_service.lock _ _); eexists; done. Qed.

Lemma execute_waiting_sim alive fuel st x :
  sim st x → size (waiting x) ≤ fuel →
  ∃ st' es, execute_waiting alive fuel st = (Ok tt, st', es) ∧
    executed es = (drain fuel x).1 ∧ sim st' (drain fuel x).2.
Proof.
  revert st x. induction fuel as [|fuel IH]; intros st x Hs Hf; pose proof Hs as [Hw Hn Hb].
  all: cbn [execute_waiting drain]; erewrite bind_ok; [|done|done]; erewrite bind_ok; [|done|done].
  all: rewrite Hn.
  { assert (waiting_operations st = ∅) as ->.
    { apply (fmap_empty_inv pbft_operation.request). rewrite Hw. apply map_size_empty_inv. lia. }
    rewrite lookup_empty. by exists st, []. }
  assert (waiting x !! next x = pbft_operation.request <$> waiting_operations st !! next x) as Hx
    by (by rewrite <-Hw, lookup_fmap).
  rewrite Hx. destruct (waiting_operations st !! next x) as [op|] eqn:Er; simpl in *; [|by exists st, []].
  destruct (send_execute_response_run alive op st) as (es1 & Hsend & Hes1).
  set (st1 := Dummy (delete (next x) (waiting_operations st)) (next x + 1)).
  destruct (IH st1 (Executor (delete (next x) (waiting x)) (next x + 1))) as (st2 & es2 & Hrun & Hex & Hs2).
  { split; simpl; [by rewrite fmap_delete, Hw|done|]. intros n [r [_ ?]%lookup_delete_Some]. eauto. }
  { simpl. rewrite map_size_delete_Some by eauto. lia. }
  destruct (drain fuel _) as [rs x'] eqn:Ed. simpl in *.
  exists st2, (es1 ++ PostExecute (pbft_operation.request op) (next x) :: es2). split_and!; [| |done].
  2: { unfold executed at 1. rewrite omap_app. fold (executed es1). rewrite Hes1. simpl. f_equal. exact Hex. }
  erewrite bind_ok; [|exact Hsend|].
  2: { erewrite bind_ok; [|done|done]. erewrite bind_ok; [|done|].
       2: { cbn. rewrite Hn, add64_small by eauto. exact Hrun. } done. }
  done.
Qed.

End Service.
End dummy_pbft_service.

(** ** Claims *)

Section Claims.
Context {U C : Type} {SU : storage_base.Storage U} {SC : storage_base.Storage C} {PM : Message pbft_request}.
Context (uuid : uuid_t).
Context (valid : uuid_t → Prop) (wf : U → Prop) (R : U → storage_spec.contents → Prop).
Context {Href : StorageRefines U valid wf R} {Hrel : ReliableStorage U valid} {HPM : MessageLaws pbft_request}.

Abbreviation operations := (list ((session_id → bool) * pbft_operation.pbft_operation)).

(** Distinct positive sequence numbers, requests that fit the storage and read back. *)
Definition proper_operations (ops : operations) : Prop :=
  Forall (λ ao, database_pbft_service.storable ao.2 ∧ 1 ≤ pbft_operation.sequence ao.2)%N ops ∧
  NoDup ((pbft_operation.sequence ∘ snd) <$> ops).

(** A store in which the service has no records yet. *)
Definition fresh_store (u : U) : Prop :=
  ∃ m, wf u ∧ R u m ∧ ∀ k, m !! (uuid, k) = None.

Lemma run_from_fresh (ops : operations) (u : U) (c : C) :
  valid uuid → fresh_store u → proper_operations ops →
  ∃ st0 st es x, database_pbft_service.construct uuid u c = (Ok tt, st0, []) ∧
    database_pbft_service.run uuid ops st0 = (Ok tt, st, es) ∧
    database_pbft_service.sim uuid wf R st x ∧
    in_order_executor.run_inv (database_pbft_service.applied ∅ ops) (database_pbft_service.executed es) x ∧
    database_pbft_service.crud_storage st =
      foldl (λ c r, crud.apply_request (req_operation r.1) c) c (database_pbft_service.executed es).
Proof using Href Hrel HPM.
  intros Hv (m & Hw & HR & Hm) [Hok Hnd].
  destruct (database_pbft_service.construct_fresh uuid valid wf R Hv u c m Hw HR Hm) as (st0 & Hc & Hs0 & Hcr).
  destruct (database_pbft_service.run_sim uuid valid wf R Hv ops ∅ [] st0 _ Hs0
              in_order_executor.run_inv_start Hok Hnd) as (st & es & x & Hrun & Hs & Hi & Hcs).
  { apply Forall_forall. intros. apply lookup_empty. }
  exists st0, st, es, x. by rewrite Hcs, Hcr.
Qed.

(** committed requests are executed in order, exactly once, as far as
    possible.  A service started on a fresh store accepts operations with
    distinct sequence numbers in any order; the requests it has then handed to
    CRUD are those with the sequence numbers 1, 2, ..., k, in this order, where
    k+1 is the first number that has not arrived, and the database is what
    executing them in this order makes of it. *)
Theorem database_service_executes_in_order (ops : operations) (u : U) (c : C) :
  valid uuid → fresh_store u → proper_operations ops →
  ∃ st0 st es, database_pbft_service.construct uuid u c = (Ok tt, st0, []) ∧
    database_pbft_service.run uuid ops st0 = (Ok tt, st, es) ∧
    let rs := database_pbft_service.executed es in
    (∀ i r n, rs !! i = Some (r, n) → n = (1 + N.of_nat i)%N ∧
       ∃ ao, ao ∈ ops ∧ pbft_operation.sequence ao.2 = n ∧ pbft_operation.request ao.2 = r) ∧
    database_pbft_service.next_request_sequence st = (1 + lengthN rs)%N ∧
    (∀ ao, ao ∈ ops → pbft_operation.sequence ao.2 ≠ (1 + lengthN rs)%N) ∧
    database_pbft_service.crud_storage st = foldl (λ c r, crud.apply_request (req_operation r.1) c) c rs.
Proof using Href Hrel HPM.
  intros Hv Hu Hops. destruct (run_from_fresh ops u c Hv Hu Hops) as (st0 & st & es & x & Hc & Hrun & Hs & Hi & Hcs).
  exists st0, st, es. split; [done|]. split; [done|]. simpl. split_and!.
  - intros i r n Hn. destruct (in_order_executor.run_executed _ _ _ Hi _ _ _ Hn) as [-> Ha]. split; [done|].
    apply database_pbft_service.applied_lookup in Ha as [Ha|?]; [|done]. by rewrite lookup_empty in Ha.
  - rewrite (database_pbft_service.sim_next _ _ _ _ _ Hs). apply Hi.
  - intros ao Hin E. pose proof (database_pbft_service.applied_elem ops ∅ ao Hin (proj2 Hops)) as Ha.
    pose proof (in_order_executor.run_idle _ _ _ Hi) as Hid. unfold in_order_executor.idle in Hid.
    pose proof (in_order_executor.run_next _ _ _ Hi) as Hn.
    rewrite (in_order_executor.run_waiting _ _ _ Hi), decide_False in Hid by lia. congruence.
  - done.
Qed.

(** C10: replicas converge.  Two services that were given the same operations,
    in whatever order and with whatever sessions, have executed the same
    requests in the same order. *)
Theorem database_replicas_converge (ops1 ops2 : operations) (u1 u2 : U) (c : C) :
  valid uuid → fresh_store u1 → fresh_store u2 → proper_operations ops1 → proper_operations ops2 →
  (∀ n r, (∃ ao, ao ∈ ops1 ∧ pbft_operation.sequence ao.2 = n ∧ pbft_operation.request ao.2 = r) ↔
          (∃ ao, ao ∈ ops2 ∧ pbft_operation.sequence ao.2 = n ∧ pbft_operation.request ao.2 = r)) →
  let st1 := (database_pbft_service.construct uuid u1 c).1.2 in
  let st2 := (database_pbft_service.construct uuid u2 c).1.2 in
  database_pbft_service.executed (out (database_pbft_service.run uuid ops1) st1) =
  database_pbft_service.executed (out (database_pbft_service.run uuid ops2) st2) ∧
  database_pbft_service.crud_storage (post (database_pbft_service.run uuid ops1) st1) =
  database_pbft_service.crud_storage (post (database_pbft_service.run uuid ops2) st2).
Proof using Href Hrel HPM.
  intros Hv Hu1 Hu2 Hops1 Hops2 Hsame.
  destruct (run_from_fresh ops1 u1 c Hv Hu1 Hops1) as (a1 & b1 & es1 & x1 & Hc1 & Hr1 & _ & Hi1 & Hcs1).
  destruct (run_from_fresh ops2 u2 c Hv Hu2 Hops2) as (a2 & b2 & es2 & x2 & Hc2 & Hr2 & _ & Hi2 & Hcs2).
  assert (database_pbft_service.applied ∅ ops1 = database_pbft_service.applied ∅ ops2) as E.
  { apply map_eq. intros n. apply option_eq. intros r.
    assert (∀ o1 o2 : operations, NoDup ((pbft_operation.sequence ∘ snd) <$> o2) →
      (∀ n r, (∃ ao, ao ∈ o1 ∧ pbft_operation.sequence ao.2 = n ∧ pbft_operation.request ao.2 = r) →
              (∃ ao, ao ∈ o2 ∧ pbft_operation.sequence ao.2 = n ∧ pbft_operation.request ao.2 = r)) →
      database_pbft_service.applied ∅ o1 !! n = Some r → database_pbft_service.applied ∅ o2 !! n = Some r) as Hdir.
    { intros o1 o2 Hnd Hsub [Ha|Ha]%database_pbft_service.applied_lookup; [by rewrite lookup_empty in Ha|].
      apply Hsub in Ha as (ao & Hin & <- & <-). by apply database_pbft_service.applied_elem. }
    split; apply Hdir; try apply Hops1; try apply Hops2; intros; by apply Hsame. }
  rewrite E in Hi1. pose proof (in_order_executor.run_inv_unique _ _ _ _ _ Hi1 Hi2) as Hrs.
  simpl. rewrite Hc1, Hc2. simpl. unfold out, post. rewrite Hr1, Hr2. simpl. by rewrite Hcs1, Hcs2, Hrs.
Qed.

(** C11: a restart loses nothing.  A service that is started again on the store
    that a run has left resumes with the same next sequence number and with
    every request that was waiting. *)
Theorem database_service_restart (ops : operations) (u : U) (c c' : C) :
  valid uuid → fresh_store u → proper_operations ops →
  let st0 := (database_pbft_service.construct uuid u c).1.2 in
  let st := post (database_pbft_service.run uuid ops) st0 in
  ∃ st', database_pbft_service.construct uuid (database_pbft_service.unstable_storage st) c' = (Ok tt, st', []) ∧
    database_pbft_service.next_request_sequence st' = database_pbft_service.next_request_sequence st ∧
    ∀ ao, ao ∈ ops → (database_pbft_service.next_request_sequence st ≤ pbft_operation.sequence ao.2)%N →
      storage_base.read uuid (to_string (pbft_operation.sequence ao.2)) (database_pbft_service.unstable_storage st') =
      Some (SerializeAsString (pbft_operation.request ao.2)).
Proof using Href Hrel HPM.
  intros Hv Hu Hops. destruct (run_from_fresh ops u c Hv Hu Hops) as (st0 & st & es & x & Hc & Hrun & Hs & Hi & _).
  simpl. rewrite Hc. simpl. unfold post. rewrite Hrun. simpl.
  destruct (database_pbft_service.construct_restart uuid valid wf R Hv st x c' Hs)
    as (st' & Hc' & Hs' & _ & Eu & En).
  exists st'. split_and!; [done|done|]. intros ao Hin Hle.
  destruct (database_pbft_service.sim_contents _ _ _ _ _ Hs') as (m & Hw & HR & Hm & _).
  rewrite (refines_read _ m _ _ Hw HR Hv), Hm, (in_order_executor.run_waiting _ _ _ Hi).
  rewrite (database_pbft_service.sim_next _ _ _ _ _ Hs) in Hle. rewrite decide_False by lia.
  by rewrite (database_pbft_service.applied_elem ops ∅ ao Hin (proj2 Hops)).
Qed.

(** a finding.  [pbft_service_base.hpp] does not promise that
    [apply_operation] is called once for a sequence number, yet a second call
    for a number that still waits throws, as does a request whose serialization
    exceeds the limit for values. *)
Theorem database_service_refuses_duplicates (ops : operations) (u : U) (c : C)
    (ao : (session_id → bool) * pbft_operation.pbft_operation) (alive : session_id → bool)
    (op : pbft_operation.pbft_operation) :
  valid uuid → fresh_store u → proper_operations ops →
  let st0 := (database_pbft_service.construct uuid u c).1.2 in
  let st := post (database_pbft_service.run uuid ops) st0 in
  ao ∈ ops → (database_pbft_service.next_request_sequence st < pbft_operation.sequence ao.2)%N →
  pbft_operation.sequence op = pbft_operation.sequence ao.2 →
  ∃ w, res (database_pbft_service.apply_operation uuid alive op) st = Throw w.
Proof using Href Hrel HPM.
  intros Hv Hu Hops. destruct (run_from_fresh ops u c Hv Hu Hops) as (st0 & st & es & x & Hc & Hrun & Hs & Hi & _).
  simpl. rewrite Hc. simpl. unfold post. rewrite Hrun. simpl. intros Hin Hlt Hseq.
  rewrite (database_pbft_service.sim_next _ _ _ _ _ Hs) in Hlt.
  assert (is_Some (in_order_executor.waiting x !! pbft_operation.sequence ao.2)) as Hw.
  { rewrite (in_order_executor.run_waiting _ _ _ Hi), decide_False by lia.
    by rewrite (database_pbft_service.applied_elem ops ∅ ao Hin (proj2 Hops)). }
  destruct (database_pbft_service.apply_operation_throws uuid valid wf R Hv alive op st x Hs) as (w & Hw' & _).
  - rewrite Hseq. pose proof (database_pbft_service.sim_bound _ _ _ _ _ Hs _ Hw). lia.
  - left. by rewrite Hseq.
  - eauto.
Qed.

End Claims.

(** *** Examples: two operations that arrive in the wrong order *)

Definition sample_codec : Message pbft_request := countable_message pbft_request.

Definition sample_operation (n : N) (k v : string) : pbft_operation.pbft_operation :=
  pbft_operation.new 1 n
    (PbftRequest PBFT_REQ_DATABASE (ReqOperation (DbMsg (DbHeader "d" 1) (DbCreate k v))) 0 "c") [].

Definition sample_operations : list ((session_id → bool) * pbft_operation.pbft_operation) :=
  [(λ _, true, sample_operation 2 "k" "w"); (λ _, true, sample_operation 1 "k" "v")].

Lemma mem_storage_fresh (u : uuid_t) :
  fresh_store u (λ _ : mem_storage.mem_storage, True) mem_storage.represents mem_storage.empty.
Proof. exists ∅. split; [exact I|]. split; [intros ??; reflexivity|]. intros k. reflexivity. Defined.

Lemma sample_proper ops :
  bool_decide (Forall (λ ao : (session_id → bool) * pbft_operation.pbft_operation,
     (pbft_operation.sequence ao.2 + 1 < 2 ^ 64)%N ∧ well_formed (pbft_operation.request ao.2) = true ∧
     (strlen (SerializeAsString (Message := sample_codec) (pbft_operation.request ao.2)) ≤ 256000)%N ∧
     (1 ≤ pbft_operation.sequence ao.2)%N) ops ∧
   NoDup ((pbft_operation.sequence ∘ snd) <$> ops)) = true →
  proper_operations (PM := sample_codec) ops.
Proof.
  rewrite bool_decide_eq_true. intros [Hf Hnd]. split; [|done].
  eapply Forall_impl; [exact Hf|]. intros ao (?&?&?&?). by repeat split.
Qed.

Lemma sample_operations_proper : proper_operations (PM := sample_codec) sample_operations.
Proof. apply sample_proper. vm_compute. reflexivity. Qed.

Example database_service_executes_in_order_witness :
  ∃ st0 st es, database_pbft_service.construct "u" mem_storage.empty mem_storage.empty = (Ok tt, st0, []) ∧
    database_pbft_service.run (PM := sample_codec) "u" sample_operations st0 = (Ok tt, st, es) ∧
    database_pbft_service.next_request_sequence st = (1 + lengthN (database_pbft_service.executed es))%N.
Proof.
  destruct (database_service_executes_in_order (PM := sample_codec) (HPM := countable_message_laws _)
    "u" (λ _, True) (λ _, True) mem_storage.represents
    sample_operations mem_storage.empty mem_storage.empty I (mem_storage_fresh "u") sample_operations_proper)
    as (st0 & st & es & Hc & Hr & _ & Hn & _).
  exists st0, st, es. split; [exact Hc|]. split; [exact Hr|exact Hn].
Defined.

Example database_replicas_converge_witness :
  let st := (database_pbft_service.construct "u" mem_storage.empty mem_storage.empty).1.2 in
  database_pbft_service.crud_storage (post (database_pbft_service.run (PM := sample_codec) "u" sample_operations) st) =
  database_pbft_service.crud_storage (post (database_pbft_service.run (PM := sample_codec) "u" (reverse sample_operations)) st).
Proof.
  apply (database_replicas_converge (PM := sample_codec) (HPM := countable_message_laws _)
    "u" (λ _, True) (λ _, True) mem_storage.represents sample_operations (reverse sample_operations)).
  - exact I.
  - apply mem_storage_fresh.
  - apply mem_storage_fresh.
  - apply sample_operations_proper.
  - apply sample_proper. vm_compute. reflexivity.
  - intros n r. setoid_rewrite elem_of_reverse. reflexivity.
Defined.

Example database_service_restart_witness :
  let st0 := (database_pbft_service.construct "u" mem_storage.empty mem_storage.empty).1.2 in
  let st := post (database_pbft_service.run (PM := sample_codec) "u" sample_operations) st0 in
  ∃ st', database_pbft_service.construct "u" (database_pbft_service.unstable_storage st) mem_storage.empty = (Ok tt, st', []) ∧
    database_pbft_service.next_request_sequence st' = database_pbft_service.next_request_sequence st.
Proof.
  destruct (database_service_restart (PM := sample_codec) (HPM := countable_message_laws _)
    "u" (λ _, True) (λ _, True) mem_storage.represents
    sample_operations mem_storage.empty mem_storage.empty mem_storage.empty I (mem_storage_fresh "u")
    sample_operations_proper) as (st' & Hc & Hn & _).
  exists st'. split; [exact Hc|exact Hn].
Defined.

Example database_service_refuses_duplicates_witness :
  let ops := [(λ _ : session_id, true, sample_operation 2 "k" "w")] in
  let st0 := (database_pbft_service.construct "u" mem_storage.empty mem_storage.empty).1.2 in
  let st := post (database_pbft_service.run (PM := sample_codec) "u" ops) st0 in
  ∃ w, res (database_pbft_service.apply_operation (PM := sample_codec) "u" (λ _, true) (sample_operation 2 "k" "w")) st = Throw w.
Proof.
  intros ops. eapply (database_service_refuses_duplicates (PM := sample_codec) (HPM := countable_message_laws _)
    "u" (λ _, True) (λ _, True) mem_storage.represents ops mem_storage.empty mem_storage.empty).
  - exact I.
  - apply mem_storage_fresh.
  - apply sample_proper. vm_compute. reflexivity.
  - left.
  - vm_compute. reflexivity.
  - reflexivity.
Defined.

(** the dummy service keeps the same promise: applying an operation
    executes exactly the requests the in-order executor would execute. *)
Theorem dummy_service_executes_in_order `{PB : Protobuf} (alive : session_id → bool)
    (op : pbft_operation.pbft_operation) (st : dummy_pbft_service.dummy_pbft_service)
    (x : in_order_executor.executor) :
  dummy_pbft_service.sim st x → (pbft_operation.sequence op + 1 < 2 ^ 64)%N →
  let y := in_order_executor.apply (pbft_operation.sequence op) (pbft_operation.request op) x in
  res (dummy_pbft_service.apply_operation alive op) st = Ok tt ∧
  dummy_pbft_service.executed (out (dummy_pbft_service.apply_operation alive op) st) = y.1 ∧
  dummy_pbft_service.sim (post (dummy_pbft_service.apply_operation alive op) st) y.2.
Proof.
  intros [Hw Hn Hb] Hs. unfold in_order_executor.apply. simpl.
  set (x1 := in_order_executor.Executor _ _).
  set (st1 := dummy_pbft_service.Dummy (<[pbft_operation.sequence op := op]> (dummy_pbft_service.waiting_operations st))
                (dummy_pbft_service.next_request_sequence st)).
  assert (dummy_pbft_service.sim st1 x1) as Hs1.
  { split; simpl; [by rewrite fmap_insert, Hw|done|].
    intros n [r [[<- _]|[_ Hk]]%lookup_insert_Some]; [done|eauto]. }
  assert (size (dummy_pbft_service.waiting_operations st1) = size (in_order_executor.waiting x1)) as Hsz.
  { rewrite <-(dummy_pbft_service.sim_waiting _ _ Hs1). by rewrite map_size_fmap. }
  destruct (dummy_pbft_service.execute_waiting_sim alive (size (in_order_executor.waiting x1)) st1 x1 Hs1)
    as (st' & es & Hrun & Hex & Hs'); [done|].
  assert (dummy_pbft_service.apply_operation alive op st = (Ok tt, st', es)) as Ha.
  { unfold dummy_pbft_service.apply_operation. erewrite bind_ok; [|done|].
    2: { erewrite bind_ok; [|done|fold st1; rewrite Hsz; exact Hrun]. reflexivity. } reflexivity. }
  unfold res, post, out. rewrite Ha. done.
Qed.

Example dummy_service_executes_in_order_witness :
  dummy_pbft_service.executed (out (dummy_pbft_service.apply_operation
    (PB := {| ShortDebugString _ := "" |}) (λ _, true) (sample_operation 1 "k" "v")) dummy_pbft_service.new) =
  [(pbft_operation.request (sample_operation 1 "k" "v"), 1%N)].
Proof.
  destruct (dummy_service_executes_in_order (PB := {| ShortDebugString _ := "" |}) (λ _, true)
           (sample_operation 1 "k" "v") dummy_pbft_service.new (in_order_executor.Executor ∅ 1)) as (_ & He & _).
  - split; [reflexivity|reflexivity|]. intros n [r H]. change ((∅ : gmap N pbft_request) !! n = Some r) in H. by rewrite lookup_empty in H.
  - vm_compute. reflexivity.
  - rewrite He. vm_compute. reflexivity.
Defined.
