(* ===== verification/Pbft.v ===== *)
(** * The PBFT node

    [pbft/pbft.cpp]: the handlers of one replica.  The other components are
    reached by calls ([effect]); an operation is kept in the map [operations]
    and a [std::shared_ptr] to it is its key there. *)

From S2P Require Import Prelude Messages Json Crud PbftOperation PbftConfig.

Module pbft.
Import pbft_operation pbft_configuration pbft_config_store.

Definition HEARTBEAT_INTERVAL : N := 5000.
Definition INITIAL_CHECKPOINT_HASH : hash_t := "<null db state>".
Definition CHECKPOINT_INTERVAL : N := 100.
(** [std::lround(CHECKPOINT_INTERVAL * HIGH_WATER_INTERVAL_IN_CHECKPOINTS)]. *)
Definition HIGH_WATER_INTERVAL : N := 200.

(** Sequence number and hash of the state. *)
Abbreviation checkpoint_t := (N * hash_t)%type.

Record pbft := Pbft {
  view : N;
  next_issued_sequence_number : N;
  low_water_mark : N;
  high_water_mark : N;
  uuid : uuid_t;
  operations : gmap operation_key_t pbft_operation;
  accepted_preprepares : gmap log_key_t operation_key_t;
  start_once : bool;
  audit_enabled : bool;
  stable_checkpoint : checkpoint_t;
  stable_checkpoint_proof : gmap uuid_t string;
  local_unstable_checkpoints : gset checkpoint_t;
  unstable_checkpoint_proofs : gmap checkpoint_t (gmap uuid_t string);
  configurations : pbft_config_store
}.

Definition set_next_issued (n : N) (s : pbft) : pbft :=
  Pbft (view s) n (low_water_mark s) (high_water_mark s) (uuid s) (operations s) (accepted_preprepares s)
    (start_once s) (audit_enabled s) (stable_checkpoint s) (stable_checkpoint_proof s)
    (local_unstable_checkpoints s) (unstable_checkpoint_proofs s) (configurations s).
Definition set_marks (low high : N) (s : pbft) : pbft :=
  Pbft (view s) (next_issued_sequence_number s) low high (uuid s) (operations s) (accepted_preprepares s)
    (start_once s) (audit_enabled s) (stable_checkpoint s) (stable_checkpoint_proof s)
    (local_unstable_checkpoints s) (unstable_checkpoint_proofs s) (configurations s).
Definition set_operations (ops : gmap operation_key_t pbft_operation) (s : pbft) : pbft :=
  Pbft (view s) (next_issued_sequence_number s) (low_water_mark s) (high_water_mark s) (uuid s) ops
    (accepted_preprepares s) (start_once s) (audit_enabled s) (stable_checkpoint s) (stable_checkpoint_proof s)
    (local_unstable_checkpoints s) (unstable_checkpoint_proofs s) (configurations s).
Definition set_accepted (a : gmap log_key_t operation_key_t) (s : pbft) : pbft :=
  Pbft (view s) (next_issued_sequence_number s) (low_water_mark s) (high_water_mark s) (uuid s) (operations s) a
    (start_once s) (audit_enabled s) (stable_checkpoint s) (stable_checkpoint_proof s)
    (local_unstable_checkpoints s) (unstable_checkpoint_proofs s) (configurations s).
Definition set_flags (started audit : bool) (s : pbft) : pbft :=
  Pbft (view s) (next_issued_sequence_number s) (low_water_mark s) (high_water_mark s) (uuid s) (operations s)
    (accepted_preprepares s) started audit (stable_checkpoint s) (stable_checkpoint_proof s)
    (local_unstable_checkpoints s) (unstable_checkpoint_proofs s) (configurations s).
Definition set_stable (cp : checkpoint_t) (proof : gmap uuid_t string) (s : pbft) : pbft :=
  Pbft (view s) (next_issued_sequence_number s) (low_water_mark s) (high_water_mark s) (uuid s) (operations s)
    (accepted_preprepares s) (start_once s) (audit_enabled s) cp proof
    (local_unstable_checkpoints s) (unstable_checkpoint_proofs s) (configurations s).
Definition set_local (cps : gset checkpoint_t) (s : pbft) : pbft :=
  Pbft (view s) (next_issued_sequence_number s) (low_water_mark s) (high_water_mark s) (uuid s) (operations s)
    (accepted_preprepares s) (start_once s) (audit_enabled s) (stable_checkpoint s) (stable_checkpoint_proof s)
    cps (unstable_checkpoint_proofs s) (configurations s).
Definition set_proofs (ps : gmap checkpoint_t (gmap uuid_t string)) (s : pbft) : pbft :=
  Pbft (view s) (next_issued_sequence_number s) (low_water_mark s) (high_water_mark s) (uuid s) (operations s)
    (accepted_preprepares s) (start_once s) (audit_enabled s) (stable_checkpoint s) (stable_checkpoint_proof s)
    (local_unstable_checkpoints s) ps (configurations s).
Definition set_configurations (c : pbft_config_store) (s : pbft) : pbft :=
  Pbft (view s) (next_issued_sequence_number s) (low_water_mark s) (high_water_mark s) (uuid s) (operations s)
    (accepted_preprepares s) (start_once s) (audit_enabled s) (stable_checkpoint s) (stable_checkpoint_proof s)
    (local_unstable_checkpoints s) (unstable_checkpoint_proofs s) c.

Section Node.
Context {PB : Protobuf} {JS : Jsoncpp} {HS : StdHash} {BO : Boost}.
Context {MP : Message pbft_msg} {ME : Message bzn_envelope} {MA : Message audit_message}
  {MM : Message pbft_membership_msg} {MB : Message bzn_msg}.
(** [service->service_state_hash]. *)
Context (service_state_hash : N → hash_t).

(** The calls of other components. *)
Inductive effect :=
| SendMessageStr (ep : endpoint) (msg : string)             (* node->send_message_str *)
| SendMessage (ep : endpoint) (msg : Value)                 (* node->send_message *)
| SessionSend (session : session_id) (resp : database_response) (end_session : bool)
| RequestSeen (req : pbft_request)                          (* failure_detector->request_seen *)
| RequestExecuted (req : pbft_request)                      (* failure_detector->request_executed *)
| PostApplyOperation (op : pbft_operation)                  (* io_context->post(service->apply_operation) *)
| RegisterForMessage (c : payload_case)
| RegisterForJsonMessage (msg_type : string)
| StartHeartbeatTimer (ms : N)
| RegisterExecuteHandler
| RegisterFailureHandler.

Abbreviation pbftM := (M pbft effect).

(** ** Peers *)

Definition current_peers : pbftM (list peer_address_t) :=
  config ← gets (λ s, current (configurations s));
  match config with
  | Some config => mret (get_peers config)
  | None => throw "No current configuration!"
  end.

(** [current_peers()\[view % current_peers().size()\]]. *)
Definition get_primary : pbftM peer_address_t :=
  peers ← current_peers;
  v ← gets view;
  match peers with
  | [] => undefined
  | _ => match peers !! N.to_nat (v mod lengthN peers) with Some p => mret p | None => undefined end
  end.

Definition is_primary : pbftM bool :=
  p ← get_primary;
  u ← gets uuid;
  mret (bool_decide (Messages.uuid p = u)).

Definition max_faulty_nodes : pbftM N := peers ← current_peers; mret (lengthN peers / 3)%N.
Definition quorum_size : pbftM N := f ← max_faulty_nodes; mret (1 + 2 * f)%N.

(** ** Sending *)

Definition wrap_message (msg : pbft_msg) : pbftM string :=
  u ← gets uuid;
  mret (SerializeAsString (Envelope u "" kPbft (SerializeAsString msg))).

(** The audit overload; [debug_info] is always empty. *)
Definition wrap_audit_message (msg : audit_message) : string :=
  toStyledString (obj [("bzn-api", str "audit"); ("audit-data", str (base64_encode (SerializeAsString msg)))]).

Definition broadcast (msg : string) : pbftM unit :=
  peers ← current_peers;
  for_each (λ peer, ep ← lift (make_endpoint peer); emit (SendMessageStr ep msg)) peers.

(** ** Operations *)

Definition find_operation (v n : N) (request : pbft_request) : pbftM operation_key_t :=
  let key := (v, n, request_hash request) in
  lookup ← gets (λ s, operations s !! key);
  match lookup with
  | Some _ => mret key
  | None =>
      peers ← current_peers;
      modify (λ s, set_operations (<[key := pbft_operation.new v n request peers]> (operations s)) s);;
      mret key
  end.

Definition find_operation_msg (msg : pbft_msg) : pbftM operation_key_t :=
  find_operation (pm_view msg) (pm_sequence msg) (get_request msg).

(** Reading and changing the operation behind a pointer. *)
Definition deref (op : operation_key_t) : pbftM pbft_operation :=
  o ← gets (λ s, operations s !! op);
  match o with Some o => mret o | None => undefined end.
Definition update_operation (op : operation_key_t) (f : pbft_operation → pbft_operation) : pbftM unit :=
  modify (λ s, set_operations (alter f op (operations s)) s).
Definition call_operation (op : operation_key_t) (f : pbft_operation → result pbft_operation) : pbftM unit :=
  o ← deref op;
  o' ← lift (f o);
  update_operation op (λ _, o').

Definition common_message_setup (op : operation_key_t) (type : pbft_msg_type) : pbftM pbft_msg :=
  o ← deref op;
  mret (PbftMsg type (pbft_operation.view o) (sequence o) (Some (request o)) "").

Definition do_preprepare (op : operation_key_t) : pbftM unit :=
  msg ← common_message_setup op PBFT_MSG_PREPREPARE;
  w ← wrap_message msg;
  broadcast w.

Definition do_preprepared (op : operation_key_t) : pbftM unit :=
  msg ← common_message_setup op PBFT_MSG_PREPARE;
  w ← wrap_message msg;
  broadcast w.

(** [config.from_string(...)] on a new local configuration. *)
Definition read_configuration (s : string) : pbftM (bool * pbft_configuration) :=
  b ← lift (res (from_string s) pbft_configuration.new);
  mret (b, post (from_string s) pbft_configuration.new).

(** [request.type() == PBFT_REQ_NEW_CONFIG && request.has_config()]. *)
Definition is_new_config (r : pbft_request) : bool :=
  bool_decide (req_type r = PBFT_REQ_NEW_CONFIG) && has_config r.

Definition do_prepared (op : operation_key_t) : pbftM unit :=
  o ← deref op;
  when (is_new_config (request o))
    (c ← read_configuration (req_configuration (request o));
     when c.1 (modify (λ s, set_configurations (enable (get_hash c.2) true (configurations s)).2 s)));;
  call_operation op begin_commit_phase;;
  msg ← common_message_setup op PBFT_MSG_COMMIT;
  w ← wrap_message msg;
  broadcast w.

(** [do_committed] up to the operation that is given to the service. *)
Definition end_commit (op : operation_key_t) : pbftM pbft_operation :=
  o ← deref op;
  when (is_new_config (request o))
    (c ← read_configuration (req_configuration (request o));
     when c.1 (modify (λ s, set_configurations (remove_prior_to (get_hash c.2) (configurations s)).2 s)));;
  call_operation op end_commit_phase;;
  audit ← gets audit_enabled;
  u ← gets uuid;
  when audit
    (broadcast (wrap_audit_message
       (AuditPbftCommit (PbftCommit u (sequence o) (request_hash (request o))))));;
  key ← find_operation (pbft_operation.view o) (sequence o) (request o);
  deref key.

Definition do_committed (op : operation_key_t) : pbftM unit :=
  o ← end_commit op;
  emit (PostApplyOperation o).

Definition maybe_advance_operation_state (op : operation_key_t) : pbftM unit :=
  o ← deref op;
  when (bool_decide (get_state o = prepare) && is_prepared o) (do_prepared op);;
  o ← deref op;
  when (bool_decide (get_state o = commit) && is_committed o) (do_committed op).

(** ** Configurations *)

Definition setup_request_operation (msg : pbft_request) (session : option session_id) : pbftM operation_key_t :=
  request_seq ← gets next_issued_sequence_number;
  modify (λ s, set_next_issued (add64 (next_issued_sequence_number s) 1) s);;
  v ← gets view;
  op ← find_operation v request_seq msg;
  match session with
  | Some session => update_operation op (set_session session)
  | None => mret tt
  end;;
  mret op.

Definition broadcast_new_configuration (config : pbft_configuration) : pbftM unit :=
  op ← setup_request_operation
    (PbftRequest PBFT_REQ_NEW_CONFIG (ReqConfig (pbft_configuration.to_string config)) 0 "") None;
  do_preprepare op.

Definition proposed_config_is_acceptable (config : pbft_configuration) : bool := true.

Definition add_configuration (config : pbft_configuration) : pbftM unit :=
  modify (λ s, set_configurations (add config (configurations s)).2 s).

Definition handle_config_message (msg : pbft_msg) (op : operation_key_t) : pbftM unit :=
  o ← deref op;
  if decide (pm_type msg = PBFT_MSG_PREPREPARE) then
    c ← read_configuration (req_configuration (request o));
    when (c.1 && proposed_config_is_acceptable c.2) (add_configuration c.2)
  else mret tt.

Definition is_configuration_acceptable_in_new_view (config_hash : hash_t) (s : pbft) : bool :=
  is_enabled config_hash (configurations s).

Definition move_to_new_configuration (config_hash : hash_t) : pbftM bool :=
  enabled ← gets (λ s, is_enabled config_hash (configurations s));
  if (enabled : bool) then
    modify (λ s, set_configurations (set_current config_hash (configurations s)).2 s);;
    modify (λ s, set_configurations (remove_prior_to config_hash (configurations s)).2 s);;
    mret true
  else mret false.

(** The constructor's configuration: peers that cannot be added are left out. *)
Definition initialize_configuration (ps : list peer_address_t) : bool * pbft_config_store :=
  let '(config_good, config) :=
    foldl (λ '(good, c) p, let '(b, c) := add_peer p c in (good && b, c)) (true, pbft_configuration.new) ps in
  let c := (add config pbft_config_store.new).2 in
  let c := (enable (get_hash config) true c).2 in
  (config_good, (set_current (get_hash config) c).2).

Definition new (ps : list peer_address_t) (u : uuid_t) : result pbft :=
  if decide (ps = []) then Throw "No peers found!"
  else Ok (Pbft 1 1 0 (add64 0 HIGH_WATER_INTERVAL) u ∅ ∅ false true (0%N, INITIAL_CHECKPOINT_HASH) ∅ ∅ ∅
             (initialize_configuration ps).2).

(** ** Checkpoints *)

(** The elements before [upper_bound(checkpoint_t(cp.first+1, ""))]. *)
Definition before_upper_bound (cp e : checkpoint_t) : Prop :=
  (e.1 < add64 cp.1 1)%N ∨ e.1 = add64 cp.1 1 ∧ e.2 = "".

#[global] Instance before_upper_bound_dec cp e : Decision (before_upper_bound cp e).
Proof. apply _. Defined.

Definition clear_local_checkpoints_until (cp : checkpoint_t) : pbftM unit :=
  modify (λ s, set_local (filter (λ e, ¬ before_upper_bound cp e) (local_unstable_checkpoints s)) s).

Definition clear_checkpoint_messages_until (cp : checkpoint_t) : pbftM unit :=
  modify (λ s, set_proofs (filter (λ e, ¬ before_upper_bound cp e.1) (unstable_checkpoint_proofs s)) s).

Definition clear_operations_until (cp : checkpoint_t) : pbftM unit :=
  modify (λ s, set_operations (filter (λ e, ¬ (sequence e.2 ≤ cp.1)%N) (operations s)) s).

(** [unstable_checkpoint_proofs\[cp\]]: an entry is made when there is none. *)
Definition checkpoint_proofs (cp : checkpoint_t) : pbftM (gmap uuid_t string) :=
  modify (λ s, match unstable_checkpoint_proofs s !! cp with
               | Some _ => s
               | None => set_proofs (<[cp := ∅]> (unstable_checkpoint_proofs s)) s
               end);;
  gets (λ s, default ∅ (unstable_checkpoint_proofs s !! cp)).

Definition maybe_stabilize_checkpoint (cp : checkpoint_t) : pbftM unit :=
  local ← gets (λ s, bool_decide (cp ∈ local_unstable_checkpoints s));
  if negb local then mret tt else
  proofs ← checkpoint_proofs cp;
  q ← quorum_size;
  if (N.of_nat (size proofs) <? q)%N then mret tt else
  modify (set_stable cp proofs);;
  clear_local_checkpoints_until cp;;
  clear_checkpoint_messages_until cp;;
  clear_operations_until cp;;
  modify (λ s, set_marks (N.max (low_water_mark s) cp.1)
                 (N.max (high_water_mark s) (add64 cp.1 HIGH_WATER_INTERVAL)) s).

Definition checkpoint_reached_locally (n : N) : pbftM unit :=
  let cp := (n, service_state_hash n) in
  modify (λ s, set_local ({[ cp ]} ∪ local_unstable_checkpoints s) s);;
  v ← gets view;
  w ← wrap_message (PbftMsg PBFT_MSG_CHECKPOINT v n None cp.2);
  broadcast w;;
  maybe_stabilize_checkpoint cp.

Definition handle_checkpoint (msg : pbft_msg) (original_msg : bzn_envelope) : pbftM unit :=
  stable ← gets stable_checkpoint;
  if (pm_sequence msg <=? stable.1)%N then mret tt else
  let cp := (pm_sequence msg, pm_state_hash msg) in
  proofs ← checkpoint_proofs cp;
  modify (λ s, set_proofs (<[cp := <[sender original_msg := SerializeAsString original_msg]> proofs]>
                             (unstable_checkpoint_proofs s)) s);;
  maybe_stabilize_checkpoint cp.

(** ** Handlers of PBFT messages *)

Definition votes (t : pbft_msg_type) : bool :=
  bool_decide (t = PBFT_MSG_PREPREPARE) || bool_decide (t = PBFT_MSG_PREPARE) || bool_decide (t = PBFT_MSG_COMMIT).

Definition preliminary_filter_msg (msg : pbft_msg) (s : pbft) : bool :=
  if votes (pm_type msg) then
    if negb (pm_view msg =? view s)%N then false
    else if (pm_sequence msg <=? low_water_mark s)%N then false
    else if (high_water_mark s <? pm_sequence msg)%N then false
    else true
  else true.

(** The conflict test: another request was accepted for the view and sequence. *)
Definition conflicting_preprepare (msg : pbft_msg) (s : pbft) : bool :=
  match accepted_preprepares s !! (pm_view msg, pm_sequence msg) with
  | Some key => negb (bool_decide (key.2 = request_hash (get_request msg)))
  | None => false
  end.

Definition handle_preprepare (msg : pbft_msg) (original_msg : bzn_envelope) : pbftM unit :=
  conflict ← gets (conflicting_preprepare msg);
  if (conflict : bool) then mret tt
  else
    op ← find_operation_msg msg;
    update_operation op (record_preprepare original_msg);;
    o ← deref op;
    modify (λ s, set_accepted (<[(pm_view msg, pm_sequence msg) := get_operation_key o]> (accepted_preprepares s)) s);;
    when (has_request msg && bool_decide (req_type (get_request msg) = PBFT_REQ_NEW_CONFIG))
      (handle_config_message msg op);;
    do_preprepared op;;
    maybe_advance_operation_state op.

Definition handle_prepare (msg : pbft_msg) (original_msg : bzn_envelope) : pbftM unit :=
  op ← find_operation_msg msg;
  update_operation op (record_prepare original_msg);;
  maybe_advance_operation_state op.

Definition handle_commit (msg : pbft_msg) (original_msg : bzn_envelope) : pbftM unit :=
  op ← find_operation_msg msg;
  update_operation op (record_commit original_msg);;
  maybe_advance_operation_state op.

Definition handle_message (msg : pbft_msg) (original_msg : bzn_envelope) : pbftM unit :=
  pass ← gets (preliminary_filter_msg msg);
  if negb pass then mret tt else
  when (has_request msg) (emit (RequestSeen (get_request msg)));;
  match pm_type msg with
  | PBFT_MSG_PREPREPARE => handle_preprepare msg original_msg
  | PBFT_MSG_PREPARE => handle_prepare msg original_msg
  | PBFT_MSG_COMMIT => handle_commit msg original_msg
  | PBFT_MSG_CHECKPOINT => handle_checkpoint msg original_msg
  | PBFT_MSG_UNDEFINED => throw "Unsupported message type"
  end.

(** A misdirected message is logged and handled all the same. *)
Definition handle_bzn_message (msg : bzn_envelope) : pbftM unit :=
  match ParseFromString (payload_of kPbft msg) with
  | None => mret tt
  | Some inner_msg => handle_message inner_msg msg
  end.

(** ** Membership *)

Definition handle_join_or_leave (msg : pbft_membership_msg) : pbftM unit :=
  primary ← is_primary;
  if negb primary then mret tt else
  match mm_peer_info msg with
  | None => mret tt
  | Some i =>
      let peer := Peer (pi_host i) (u16 (pi_port i)) (u16 (pi_http_port i)) (pi_name i) (pi_uuid i) in
      c ← gets (λ s, current (configurations s));
      match c with
      | None => undefined
      | Some c =>
          let '(changed, config) :=
            match mm_type msg with
            | PBFT_MMSG_JOIN => add_peer peer c
            | PBFT_MMSG_LEAVE => remove_peer peer c
            | PBFT_MMSG_UNDEFINED => (true, c)
            end in
          if negb changed then mret tt
          else add_configuration config;; broadcast_new_configuration config
      end
  end.

Definition handle_membership_message (msg : bzn_envelope) : pbftM unit :=
  match ParseFromString (payload_of kPbftMembership msg) with
  | None => mret tt
  | Some inner_msg =>
      match mm_peer_info inner_msg with
      | None => mret tt
      | Some _ =>
          match mm_type inner_msg with
          | PBFT_MMSG_JOIN | PBFT_MMSG_LEAVE => handle_join_or_leave inner_msg
          | PBFT_MMSG_UNDEFINED => mret tt
          end
      end
  end.

(** ** Client requests *)

Definition handle_request (msg : pbft_request) (original_msg : Value) (session : option session_id) : pbftM unit :=
  primary ← is_primary;
  if negb primary then
    p ← get_primary;
    ep ← lift (make_endpoint p);
    emit (SendMessage ep original_msg)
  else
    op ← setup_request_operation msg session;
    do_preprepare op.

Definition handle_database_message (json : Value) (session : session_id) : pbftM unit :=
  let invalid := emit (SessionSend session (set_error crud_base.MSG_INVALID_CRUD_COMMAND default_response) true) in
  is_member ← lift (isMember json "msg");
  if negb is_member then invalid else
  m ← lift (member json "msg");
  encoded ← lift (asString m);
  match ParseFromString (base64_decode encoded) with
  | None => invalid
  | Some msg =>
      let db := bzn_msg_db msg in
      handle_request (PbftRequest PBFT_REQ_UNDEFINED (ReqOperation db) 0 "") json (Some session);;
      emit (SessionSend session (set_header (header db) default_response) false)
  end.

(** ** Start, timers and callbacks *)

Definition start : pbftM unit :=
  started ← gets start_once;
  if (started : bool) then mret tt
  else
    modify (λ s, set_flags true (audit_enabled s) s);;
    emit (RegisterForMessage kPbft);;
    emit (RegisterForMessage kPbftMembership);;
    emit (RegisterForJsonMessage "database");;
    emit (StartHeartbeatTimer HEARTBEAT_INTERVAL);;
    emit RegisterExecuteHandler;;
    emit RegisterFailureHandler.

(** The handler that [start] gives to the service. *)
Definition execute_handler (req : pbft_request) (n : N) : pbftM unit :=
  emit (RequestExecuted req);;
  when (n mod CHECKPOINT_INTERVAL =? 0)%N (checkpoint_reached_locally n).

Definition handle_audit_heartbeat_timeout (ec : bool) : pbftM unit :=
  if ec then mret tt else
  primary ← is_primary;
  audit ← gets audit_enabled;
  v ← gets view;
  u ← gets uuid;
  when (primary && audit) (broadcast (wrap_audit_message (AuditPrimaryStatus (PrimaryStatus v u))));;
  emit (StartHeartbeatTimer HEARTBEAT_INTERVAL).

Definition notify_audit_failure_detected : pbftM unit :=
  audit ← gets audit_enabled;
  u ← gets uuid;
  when audit (broadcast (wrap_audit_message (AuditFailureDetected (FailureDetected u)))).

Definition handle_failure : pbftM unit := notify_audit_failure_detected.

Definition set_audit_enabled (setting : bool) : pbftM unit := modify (λ s, set_flags (start_once s) setting s).

(** ** Status *)

Definition outstanding_operations_count (s : pbft) : N := N.of_nat (size (operations s)).
Definition unstable_checkpoints_count (s : pbft) : N := N.of_nat (size (local_unstable_checkpoints s)).
Definition latest_stable_checkpoint (s : pbft) : checkpoint_t := stable_checkpoint s.

(** The order of [std::pair]; the last element of the [std::set]. *)
Definition checkpoint_ltb (a b : checkpoint_t) : bool :=
  (a.1 <? b.1)%N || ((a.1 =? b.1)%N && string_ltb a.2 b.2).
Definition greatest (l : list checkpoint_t) : option checkpoint_t :=
  foldl (λ acc cp, match acc with
                   | Some best => if checkpoint_ltb best cp then Some cp else Some best
                   | None => Some cp
                   end) None l.
Definition latest_checkpoint (s : pbft) : checkpoint_t :=
  default (stable_checkpoint s) (greatest (base.elements (local_unstable_checkpoints s))).

Definition get_status : pbftM Value :=
  s ← gets id;
  primary ← is_primary;
  p ← get_primary;
  peers ← current_peers;
  let cp (c : checkpoint_t) := obj [("sequence_number", uint c.1); ("hash", str c.2)] in
  mret (obj
    [("outstanding_operations_count", uint (outstanding_operations_count s));
     ("is_primary", boolean primary);
     ("primary", obj [("host", str (host p)); ("host_port", uint (port p)); ("http_port", uint (http_port p));
                      ("name", str (name p)); ("uuid", str (Messages.uuid p))]);
     ("latest_stable_checkpoint", cp (latest_stable_checkpoint s));
     ("latest_checkpoint", cp (latest_checkpoint s));
     ("unstable_checkpoints_count", uint (unstable_checkpoints_count s));
     ("next_issued_sequence_number", uint (next_issued_sequence_number s));
     ("view", uint (view s));
     ("peer_index", foldl append null (peer_to_json <$> peers))]).

End Node.
End pbft.
