(* ===== verification/PbftProps.v ===== *)
(** * Safety of a PBFT node

    The invariant of a node's state, what its handlers guarantee about the
    messages they send and the operations they hand to the service, and what
    follows for runs of a node. *)

From S2P Require Import Prelude Messages Storage Json Crud PbftOperation PbftConfig PbftService Pbft.

Module pbft_props.
Import pbft_operation pbft_configuration pbft_config_store pbft.

Section Props.
Context {PB : Protobuf} {JS : Jsoncpp} {HS : StdHash} {BO : Boost}.
Context {MP : Message pbft_msg} {ME : Message bzn_envelope} {MA : Message audit_message}
  {MM : Message pbft_membership_msg} {MB : Message bzn_msg}.
Context (service_state_hash : N → hash_t).

Abbreviation pbftM := (M pbft effect).

(** ** The invariant *)

Record inv (s : pbft) : Prop := {
  (** operations are filed under their key, in a phase their votes justify, and
      a preprepare was recorded only for the accepted request *)
  inv_operation k op : operations s !! k = Some op →
    get_operation_key op = k ∧ phase_justified op ∧
    (preprepare_seen op = true → accepted_preprepares s !! k.1 = Some k);
  inv_accepted lk k : accepted_preprepares s !! lk = Some k → k.1 = lk;
  (** proofs are only collected for checkpoints after the stable one *)
  inv_proofs cp p : unstable_checkpoint_proofs s !! cp = Some p → p ≠ ∅ → ((stable_checkpoint s).1 < cp.1)%N;
  inv_low : low_water_mark s = (stable_checkpoint s).1;
  inv_high : ((stable_checkpoint s).1 + HIGH_WATER_INTERVAL < 2 ^ 64)%N →
    high_water_mark s = ((stable_checkpoint s).1 + HIGH_WATER_INTERVAL)%N;
  inv_current : is_Some (current (configurations s));
  inv_local cp : cp ∈ local_unstable_checkpoints s → (cp.1 + 1 < 2 ^ 64)%N
}.

(** An operation has been finished: it is committed, or before the stable
    checkpoint. *)
Definition finished (s : pbft) (k : operation_key_t) : Prop :=
  (∃ op, operations s !! k = Some op ∧ state op = committed) ∨ (k.1.2 ≤ (stable_checkpoint s).1)%N.

(** The keys of the operations handed to the service. *)
Definition posted (es : list effect) : list operation_key_t :=
  omap (λ e, match e with PostApplyOperation op => Some (get_operation_key op) | _ => None end) es.

(** A vote is only cast for the accepted request, and a checkpoint has the
    state hash of the service. *)
Definition vote_ok (s : pbft) (m : pbft_msg) : Prop :=
  (pm_type m = PBFT_MSG_PREPARE ∨ pm_type m = PBFT_MSG_COMMIT →
   accepted_preprepares s !! (pm_view m, pm_sequence m) =
     Some (pm_view m, pm_sequence m, request_hash (get_request m))) ∧
  (pm_type m = PBFT_MSG_CHECKPOINT → pm_state_hash m = service_state_hash (pm_sequence m)).

(** What a node sends as a string: an audit message, or a PBFT message in an
    envelope that names the node. *)
Definition sent_ok (s : pbft) (w : string) : Prop :=
  (∃ a, w = wrap_audit_message a) ∨
  ∃ m, w = SerializeAsString (Envelope (uuid s) "" kPbft (SerializeAsString m)) ∧ vote_ok s m.

(** What the handlers guarantee. *)
Record step (s : pbft) (es : list effect) (s' : pbft) : Prop := {
  step_view : view s' = view s;
  step_uuid : uuid s' = uuid s;
  step_accepted : accepted_preprepares s ⊆ accepted_preprepares s';
  step_stable : ((stable_checkpoint s).1 ≤ (stable_checkpoint s').1)%N;
  step_finished k : finished s k → finished s' k;
  step_posted_once : NoDup (posted es);
  step_posted k : k ∈ posted es → k.1.1 = view s ∧ ¬ finished s k ∧ finished s' k ∧ accepted_preprepares s' !! k.1 = Some k;
  step_committed op : PostApplyOperation op ∈ es → is_committed op = true;
  step_sent ep w : SendMessageStr ep w ∈ es → sent_ok s' w
}.

Lemma posted_app es es' : posted (es ++ es') = posted es ++ posted es'.
Proof. apply omap_app. Qed.

Lemma step_refl s : step s [] s.
Proof.
  split; try done; [apply NoDup_nil_2|..].
  - by intros k ?%elem_of_nil.
  - by intros op ?%elem_of_nil.
  - by intros ep w ?%elem_of_nil.
Qed.

Lemma vote_ok_mono s s' m : accepted_preprepares s ⊆ accepted_preprepares s' → vote_ok s m → vote_ok s' m.
Proof. intros Ha [Hv Hc]. split; [|done]. intros Ht. eapply lookup_weaken; [by apply Hv|done]. Qed.

Lemma sent_ok_mono s es s' w : step s es s' → sent_ok s w → sent_ok s' w.
Proof.
  intros Hs [?|(m & -> & Hv)]; [by left|]. right. exists m.
  rewrite (step_uuid _ _ _ Hs). split; [done|]. eapply vote_ok_mono; [apply Hs|done].
Qed.

Lemma step_trans s1 es1 s2 es2 s3 : step s1 es1 s2 → step s2 es2 s3 → step s1 (es1 ++ es2) s3.
Proof.
  intros H1 H2. pose proof (step_finished _ _ _ H1) as Hf1. pose proof (step_finished _ _ _ H2) as Hf2.
  split.
  - by rewrite (step_view _ _ _ H2), (step_view _ _ _ H1).
  - by rewrite (step_uuid _ _ _ H2), (step_uuid _ _ _ H1).
  - etrans; [apply H1|apply H2].
  - etrans; [apply H1|apply H2].
  - auto.
  - rewrite posted_app. apply NoDup_app. split_and!; [apply H1| |apply H2].
    intros k (_ & _ & Hk & _)%(step_posted _ _ _ H1) (_ & Hn & _)%(step_posted _ _ _ H2). done.
  - intros k. rewrite posted_app, elem_of_app.
    intros [(? & ? & ? & Ha)%(step_posted _ _ _ H1)|(Hv & Hn & ? & ?)%(step_posted _ _ _ H2)].
    + split_and!; [done|done|auto|]. eapply lookup_weaken; [done|apply H2].
    + rewrite (step_view _ _ _ H1) in Hv. split_and!; auto.
  - intros op [Hin|Hin]%elem_of_app; [by apply H1|by apply H2].
  - intros ep w [Hin|Hin]%elem_of_app; [|by eapply H2]. eapply sent_ok_mono; [done|]. by eapply H1.
Qed.

(** ** Methods that keep the invariant and the guarantee *)

Definition guar_at {A} (m : pbftM A) (s : pbft) : Prop :=
  inv s → inv (post m s) ∧ step s (out m s) (post m s).
Definition guar {A} (m : pbftM A) : Prop := ∀ s, guar_at m s.

Lemma guar_bind_at {A B} (m : pbftM A) (k : A → pbftM B) s :
  guar_at m s →
  (∀ a, res m s = Ok a → step s (out m s) (post m s) → guar_at (k a) (post m s)) →
  guar_at (m ≫= k) s.
Proof.
  intros Hm Hk Hi. destruct (Hm Hi) as [Hi1 Hs1]. rewrite post_bind, out_bind.
  destruct (res m s) as [a| |] eqn:E; [|by rewrite app_nil_r..].
  destruct (Hk a eq_refl Hs1 Hi1) as [Hi2 Hs2]. split; [done|]. by eapply step_trans.
Qed.

Lemma guar_bind {A B} (m : pbftM A) (k : A → pbftM B) : guar m → (∀ a, guar (k a)) → guar (m ≫= k).
Proof. intros Hm Hk s. apply guar_bind_at; [apply Hm|intros; apply Hk]. Qed.

(** A method that changes nothing and makes calls of no consequence. *)
Lemma guar_silent_at {A} (m : pbftM A) s :
  post m s = s → posted (out m s) = [] → (∀ ep w, SendMessageStr ep w ∈ out m s → inv s → sent_ok s w) → guar_at m s.
Proof.
  intros Hp Ho Hsent Hi. rewrite Hp. split; [done|].
  split; rewrite ?Ho; try done; [apply NoDup_nil_2|..].
  - by intros k ?%elem_of_nil.
  - intros op Hin. exfalso. assert (get_operation_key op ∈ posted (out m s)) as Hk.
    { apply list_elem_of_omap. by exists (PostApplyOperation op). }
    rewrite Ho in Hk. by apply elem_of_nil in Hk.
  - intros ep w Hin. by eapply Hsent.
Qed.

Lemma guar_ret {A} (a : A) : guar (mret a).
Proof. intros s. apply guar_silent_at; [done..|]. by intros ?? ?%elem_of_nil. Qed.
Lemma guar_gets {A} (f : pbft → A) : guar (gets f).
Proof. intros s. apply guar_silent_at; [done..|]. by intros ?? ?%elem_of_nil. Qed.
Lemma guar_lift {A} (r : result A) : guar (lift r).
Proof. intros s. apply guar_silent_at; [done..|]. by intros ?? ?%elem_of_nil. Qed.
Lemma guar_throw {A} w : guar (throw w : pbftM A).
Proof. intros s. apply guar_silent_at; [done..|]. by intros ?? ?%elem_of_nil. Qed.
Lemma guar_undefined {A} : guar (undefined : pbftM A).
Proof. intros s. apply guar_silent_at; [done..|]. by intros ?? ?%elem_of_nil. Qed.

(** Calls that are neither messages to peers nor operations for the service. *)
Definition plain (e : effect) : Prop :=
  match e with SendMessageStr _ _ | PostApplyOperation _ => False | _ => True end.

Lemma guar_emit e : plain e → guar (emit e).
Proof.
  intros He s. apply guar_silent_at; [done|by destruct e|].
  intros ep w Hin%list_elem_of_singleton. by subst e.
Qed.

Lemma guar_when b (m : pbftM unit) : (b = true → guar m) → guar (when b m).
Proof. destruct b; intros H; [by apply H|apply guar_ret]. Qed.

(** ** Methods that only look *)

Definition quiet {A} (m : pbftM A) : Prop := ∀ s, post m s = s ∧ out m s = [].

Lemma quiet_bind {A B} (m : pbftM A) (k : A → pbftM B) : quiet m → (∀ a, quiet (k a)) → quiet (m ≫= k).
Proof.
  intros Hm Hk s. destruct (Hm s) as [Hp Ho]. rewrite post_bind, out_bind, Hp, Ho.
  destruct (res m s) as [a| |]; [apply Hk|done..].
Qed.
Lemma quiet_ret {A} (a : A) : quiet (mret a).
Proof. done. Qed.
Lemma quiet_gets {A} (f : pbft → A) : quiet (gets f).
Proof. done. Qed.
Lemma quiet_lift {A} (r : result A) : quiet (lift r).
Proof. done. Qed.
Lemma quiet_throw {A} w : quiet (throw w : pbftM A).
Proof. done. Qed.
Lemma quiet_undefined {A} : quiet (undefined : pbftM A).
Proof. done. Qed.

Lemma guar_quiet {A} (m : pbftM A) : quiet m → guar m.
Proof.
  intros Hq s. destruct (Hq s) as [Hp Ho]. apply guar_silent_at; [done|by rewrite Ho|].
  rewrite Ho. by intros ?? ?%elem_of_nil.
Qed.

Ltac quiet_step :=
  lazymatch goal with
  | |- quiet (mbind _ _) => apply quiet_bind; [|intros ?]
  | |- quiet (mret _) => apply quiet_ret
  | |- quiet (gets _) => apply quiet_gets
  | |- quiet (lift _) => apply quiet_lift
  | |- quiet (throw _) => apply quiet_throw
  | |- quiet undefined => apply quiet_undefined
  | |- quiet (match ?x with _ => _ end) => destruct x
  end.

Lemma quiet_current_peers : quiet current_peers.
Proof. unfold current_peers. repeat quiet_step. Qed.
Lemma quiet_get_primary : quiet get_primary.
Proof. unfold get_primary. quiet_step; [apply quiet_current_peers|]. repeat quiet_step. Qed.
Lemma quiet_is_primary : quiet is_primary.
Proof. unfold is_primary. quiet_step; [apply quiet_get_primary|]. repeat quiet_step. Qed.
Lemma quiet_quorum_size : quiet quorum_size.
Proof.
  unfold quorum_size, max_faulty_nodes. quiet_step; [|repeat quiet_step].
  quiet_step; [apply quiet_current_peers|]. repeat quiet_step.
Qed.
Lemma quiet_deref k : quiet (deref k).
Proof. unfold deref. repeat quiet_step. Qed.
Lemma quiet_wrap_message m : quiet (wrap_message m).
Proof. unfold wrap_message. repeat quiet_step. Qed.
Lemma quiet_common_message_setup k t : quiet (common_message_setup k t).
Proof. unfold common_message_setup. quiet_step; [apply quiet_deref|]. repeat quiet_step. Qed.
Lemma quiet_read_configuration c : quiet (read_configuration c).
Proof. unfold read_configuration. repeat quiet_step. Qed.

Lemma res_deref k s :
  res (deref k) s = match operations s !! k with Some o => Ok o | None => Undefined end.
Proof. unfold deref. rewrite res_bind, res_gets, post_gets. by destruct (operations s !! k). Qed.

(** A quiet method, then the rest from the same state. *)
Lemma guar_bind_quiet {A B} (m : pbftM A) (k : A → pbftM B) s :
  quiet m → (∀ a, res m s = Ok a → inv s → guar_at (k a) s) → guar_at (m ≫= k) s.
Proof.
  intros Hq Hk Hi. destruct (Hq s) as [Hp _].
  refine (guar_bind_at m k s (guar_quiet m Hq s) _ Hi). rewrite Hp. auto.
Qed.

Create HintDb guar.
#[local] Hint Resolve quiet_current_peers quiet_get_primary quiet_is_primary quiet_quorum_size quiet_deref
  quiet_wrap_message quiet_common_message_setup quiet_read_configuration quiet_gets quiet_lift : guar.

(** ** Sending *)

Lemma broadcast_run w s :
  post (broadcast w) s = s ∧ ∀ e, e ∈ out (broadcast w) s → ∃ ep, e = SendMessageStr ep w.
Proof.
  unfold broadcast. rewrite post_bind, out_bind. destruct (quiet_current_peers s) as [-> ->].
  destruct (res current_peers s) as [ps| |]; simpl; [|split; [done|by intros ? ?%elem_of_nil]..].
  induction ps as [|p ps [IHp IHo]]; simpl; [split; [done|by intros ? ?%elem_of_nil]|].
  rewrite !post_bind, !res_bind, !out_bind, res_lift, post_lift, out_lift.
  destruct (make_endpoint p) as [ep| |]; simpl; [|split; [done|by intros ? ?%elem_of_nil]..].
  split; [done|]. intros e [->|Hin]%elem_of_cons; [by exists ep|auto].
Qed.

Lemma guar_broadcast_at w s : (inv s → sent_ok s w) → guar_at (broadcast w) s.
Proof.
  intros Hw. destruct (broadcast_run w s) as [Hp Ho]. apply guar_silent_at; [done| |].
  - induction (out (broadcast w) s) as [|e es IH]; [done|].
    destruct (Ho e) as [ep ->]; [left|]. apply IH. intros e He. apply Ho. by right.
  - intros ep w' (ep' & [= -> ->])%Ho. done.
Qed.

Lemma guar_broadcast_audit a : guar (broadcast (wrap_audit_message a)).
Proof. intros s. apply guar_broadcast_at. intros _. left. by exists a. Qed.

(** Sending a PBFT message that is no vote, or an honest one. *)
Lemma guar_send_at m s :
  (inv s → vote_ok s m) → guar_at (w ← wrap_message m; broadcast w) s.
Proof.
  intros Hv. apply guar_bind_quiet; [auto with guar|]. intros w [= <-] _.
  apply guar_broadcast_at. intros Hi. right. exists m. auto.
Qed.

Lemma guar_send_operation_at k t s :
  (∀ o, operations s !! k = Some o → inv s →
     vote_ok s (PbftMsg t (pbft_operation.view o) (sequence o) (Some (request o)) "")) →
  guar_at (msg ← common_message_setup k t; w ← wrap_message msg; broadcast w) s.
Proof.
  intros Hv. apply guar_bind_quiet; [auto with guar|]. intros m Hm _. apply guar_send_at. intros Hi.
  unfold common_message_setup in Hm. rewrite res_bind, res_deref in Hm.
  destruct (operations s !! k) as [o|] eqn:E; [|done]. injection Hm as <-. by apply Hv.
Qed.

(** ** Changing the state *)

Lemma guar_modify_at f s : (inv s → inv (f s) ∧ step s [] (f s)) → guar_at (modify f) s.
Proof. done. Qed.

(** A change that concerns neither operations nor checkpoints. *)
Lemma step_frame s s' :
  view s' = view s → uuid s' = uuid s → accepted_preprepares s' = accepted_preprepares s →
  stable_checkpoint s' = stable_checkpoint s → operations s' = operations s → step s [] s'.
Proof.
  intros Hv Hu Ha Hst Ho. split; try done; rewrite ?Ha, ?Hst; try done; [|apply NoDup_nil_2|..].
  - intros k. unfold finished. by rewrite Ho, Hst.
  - by intros k ?%elem_of_nil.
  - by intros op ?%elem_of_nil.
  - by intros ep w ?%elem_of_nil.
Qed.

Lemma inv_set_configurations c s : is_Some (current c) → inv s → inv (set_configurations c s).
Proof. intros Hc [H1 H2 H3 H4 H5 H6 H7]. by split. Qed.

Lemma guar_configurations (f : pbft_config_store → pbft_config_store) :
  (∀ c, is_Some (current c) → is_Some (current (f c))) →
  guar (modify (λ s, set_configurations (f (configurations s)) s)).
Proof.
  intros Hf s. apply guar_modify_at. intros Hi. split; [|by apply step_frame].
  apply inv_set_configurations; [|done]. apply Hf, Hi.
Qed.

Lemma guar_add_configuration c : guar (add_configuration c).
Proof. apply (guar_configurations (λ st, (add c st).2)). intros st [d Hd]. exists d. by apply add_current. Qed.
Lemma guar_enable h : guar (modify (λ s, set_configurations (enable h true (configurations s)).2 s)).
Proof. apply (guar_configurations (λ c, (enable h true c).2)). intros st. by rewrite enable_current. Qed.
Lemma guar_remove_prior_to h :
  guar (modify (λ s, set_configurations (remove_prior_to h (configurations s)).2 s)).
Proof. apply (guar_configurations (λ c, (remove_prior_to h c).2)). intros st. by rewrite remove_prior_to_current. Qed.

(** ** Changing operations *)

Lemma operation_step_key o o' : pbft_operation.step o o' → get_operation_key o' = get_operation_key o.
Proof.
  intros Hs. apply step_grows in Hs as (Hv & Hn & Hr & _). unfold get_operation_key. by rewrite Hv, Hn, Hr.
Qed.

Lemma operation_step_committed o o' : pbft_operation.step o o' → state o = committed → state o' = committed.
Proof.
  intros Hs Hc. apply step_grows in Hs as (_ & _ & _ & _ & _ & _ & _ & Hr). rewrite Hc in Hr.
  destruct (state o'); simpl in Hr; [lia|lia|done].
Qed.

(** One operation takes a step of its own, and its acceptance may be recorded. *)
Lemma alter_operation s k f acc :
  accepted_preprepares s ⊆ acc → (∀ lk k', acc !! lk = Some k' → k'.1 = lk) →
  (∀ o, operations s !! k = Some o →
     pbft_operation.step o (f o) ∧ (preprepare_seen (f o) = true → acc !! k.1 = Some k)) →
  let s' := set_accepted acc (set_operations (alter f k (operations s)) s) in
  inv s → inv s' ∧ step s [] s'.
Proof.
  intros Hacc Hkey Hf s' Hi. split.
  - destruct Hi as [H1 H2 H3 H4 H5 H6 H7]. split; try done. simpl. intros k' o' Ho'.
    destruct (decide (k = k')) as [<-|Hne].
    + rewrite lookup_alter_eq in Ho'. destruct (operations s !! k) as [o|] eqn:Eo; [|done]. injection Ho' as <-.
      destruct (H1 _ _ Eo) as (Hk & Hj & Hs). destruct (Hf o eq_refl) as [Hst Hseen].
      split_and!; [by rewrite (operation_step_key _ _ Hst)|by eapply step_justified|done].
    + rewrite lookup_alter_ne in Ho' by done. destruct (H1 _ _ Ho') as (Hk & Hj & Hs).
      split_and!; [done|done|]. intros Hp. eapply lookup_weaken; [by apply Hs|done].
  - split; try done; [|apply NoDup_nil_2|..].
    + intros k' [(o & Ho & Hc)|Hle]; [|by right]. left. simpl. destruct (decide (k = k')) as [<-|Hne].
      * exists (f o). rewrite lookup_alter_eq, Ho. split; [done|].
        eapply operation_step_committed; [by apply Hf|done].
      * exists o. by rewrite lookup_alter_ne.
    + by intros ? ?%elem_of_nil.
    + by intros ? ?%elem_of_nil.
    + by intros ?? ?%elem_of_nil.
Qed.

Lemma guar_update_operation_at k f s :
  (∀ o, operations s !! k = Some o →
     pbft_operation.step o (f o) ∧ preprepare_seen (f o) = preprepare_seen o) →
  guar_at (update_operation k f) s.
Proof.
  intros Hf. apply guar_modify_at. intros Hi.
  apply (alter_operation s k f (accepted_preprepares s)); [done|apply Hi| |done].
  intros o Ho. destruct (Hf o Ho) as [Hst Hs]. split; [done|]. rewrite Hs. by apply (inv_operation _ Hi k o).
Qed.

(** Beginning or ending the commit phase. *)
Lemma guar_call_operation_at k g s :
  (∀ o o', operations s !! k = Some o → g o = Ok o' →
     pbft_operation.step o o' ∧ preprepare_seen o' = preprepare_seen o) →
  guar_at (call_operation k g) s.
Proof.
  intros Hg. unfold call_operation. apply guar_bind_quiet; [auto with guar|]. intros o Ho _.
  rewrite res_deref in Ho. destruct (operations s !! k) as [o1|] eqn:E; [|done]. injection Ho as ->.
  apply guar_bind_quiet; [auto with guar|]. intros o' Ho' _. rewrite res_lift in Ho'.
  apply guar_update_operation_at. intros o2 Ho2. rewrite E in Ho2. injection Ho2 as <-. by apply Hg.
Qed.

Lemma guar_begin_commit k s : guar_at (call_operation k begin_commit_phase) s.
Proof.
  apply guar_call_operation_at. intros o o' _ H. split; [by apply step_begin|].
  by apply begin_commit_phase_spec in H as (_ & _ & ->).
Qed.
Lemma guar_end_commit k s : guar_at (call_operation k end_commit_phase) s.
Proof.
  apply guar_call_operation_at. intros o o' _ H. split; [by apply step_end|].
  by apply end_commit_phase_spec in H as (_ & _ & ->).
Qed.

Lemma guar_find_operation v n r : guar (find_operation v n r).
Proof.
  intros s. unfold find_operation. apply guar_bind_quiet; [auto with guar|]. intros l Hl _.
  rewrite res_gets in Hl. injection Hl as <-.
  destruct (operations s !! (v, n, request_hash r)) as [o|] eqn:E; [apply guar_ret|].
  apply guar_bind_quiet; [auto with guar|]. intros ps _ _.
  apply guar_bind_at; [|intros; apply guar_ret]. apply guar_modify_at. intros Hi. split.
  - destruct Hi as [H1 H2 H3 H4 H5 H6 H7]. split; try done. simpl. intros k o Ho.
    apply lookup_insert_Some in Ho as [[<- <-]|[_ Ho]]; [|by apply H1]. by split_and!.
  - split; try done; [|apply NoDup_nil_2|..].
    + intros k [(o & Ho & Hc)|Hle]; [|by right]. left. exists o. simpl.
      rewrite lookup_insert_ne; [done|congruence].
    + by intros ? ?%elem_of_nil.
    + by intros ? ?%elem_of_nil.
    + by intros ?? ?%elem_of_nil.
Qed.

(** The key [find_operation] returns, and that it is in the map then. *)
Lemma find_operation_res v n r s k :
  res (find_operation v n r) s = Ok k →
  k = (v, n, request_hash r) ∧ is_Some (operations (post (find_operation v n r) s) !! k).
Proof.
  unfold find_operation. rewrite res_bind, post_bind, res_gets, post_gets.
  destruct (operations s !! (v, n, request_hash r)) as [o|] eqn:E.
  - intros [= <-]. split; [done|]. eauto.
  - rewrite res_bind, post_bind. destruct (quiet_current_peers s) as [-> _].
    destruct (res current_peers s) as [ps| |]; [|done..]. run_simpl. intros [= <-]. split; [done|].
    rewrite lookup_insert_eq. eauto.
Qed.

(** ** The phases of an operation *)

Lemma guar_do_preprepare k : guar (do_preprepare k).
Proof. intros s. apply guar_send_operation_at. intros o _ _. split; [by intros [|]|done]. Qed.

Lemma accepted_vote s k o t :
  inv s → operations s !! k = Some o → accepted_preprepares s !! k.1 = Some k → t ≠ PBFT_MSG_CHECKPOINT →
  vote_ok s (PbftMsg t (pbft_operation.view o) (sequence o) (Some (request o)) "").
Proof.
  intros Hi Ho Ha Ht. split; [|done]. intros _. destruct (inv_operation _ Hi _ _ Ho) as (<- & _). exact Ha.
Qed.

Lemma guar_do_preprepared_at k s :
  accepted_preprepares s !! k.1 = Some k → guar_at (do_preprepared k) s.
Proof. intros Ha. apply guar_send_operation_at. intros o Ho Hi. by eapply accepted_vote. Qed.

Lemma same_post_do_preprepared k s : post (do_preprepared k) s = s.
Proof.
  pose proof (proj1 (quiet_common_message_setup k PBFT_MSG_PREPARE s)) as E1.
  unfold do_preprepared. rewrite post_bind, E1. destruct (res _ s) as [m| |]; [|done..].
  pose proof (proj1 (quiet_wrap_message m s)) as E2.
  rewrite post_bind, E2. destruct (res _ s); [|done..]. apply broadcast_run.
Qed.

(** The configuration of a request takes effect. *)
Lemma guar_apply_configuration b c (f : pbft_configuration → pbftM unit) :
  (∀ d, guar (f d)) → guar (when b (d ← read_configuration c; when d.1 (f d.2))).
Proof.
  intros Hf. apply guar_when. intros _. apply guar_bind; [apply guar_quiet; auto with guar|]. intros d.
  apply guar_when. intros _. apply Hf.
Qed.

Lemma guar_do_prepared_at k s :
  (∀ o, operations s !! k = Some o → is_prepared o = true) → guar_at (do_prepared k) s.
Proof.
  intros Hp Hi. revert Hi. unfold do_prepared. apply guar_bind_quiet; [auto with guar|]. intros o Ho Hi.
  rewrite res_deref in Ho. destruct (operations s !! k) as [o1|] eqn:E; [|done]. injection Ho as ->.
  assert (accepted_preprepares s !! k.1 = Some k) as Ha.
  { apply (inv_operation _ Hi _ _ E). specialize (Hp o eq_refl). unfold is_prepared in Hp.
    by apply andb_prop in Hp as [? _]. }
  apply guar_bind_at; [refine (guar_apply_configuration _ _ _ (λ d, guar_enable (get_hash d)) s)|].
  intros _ _ Hs1. apply guar_bind_at; [apply guar_begin_commit|]. intros _ _ Hs2.
  apply guar_send_operation_at. intros o' Ho' Hi'. eapply accepted_vote; [done..| |done].
  eapply lookup_weaken; [|apply Hs2]. eapply lookup_weaken; [|apply Hs1]. done.
Qed.

(** *** Methods that hand nothing to the service *)

Definition unposted {A} (m : pbftM A) : Prop := ∀ s, posted (out m s) = [].

Lemma unposted_quiet {A} (m : pbftM A) : quiet m → unposted m.
Proof. intros Hq s. by rewrite (proj2 (Hq s)). Qed.
Lemma unposted_bind {A B} (m : pbftM A) (k : A → pbftM B) : unposted m → (∀ a, unposted (k a)) → unposted (m ≫= k).
Proof.
  intros Hm Hk s. rewrite out_bind, posted_app, Hm. destruct (res m s); [apply Hk|done..].
Qed.
Lemma unposted_modify f : unposted (modify f).
Proof. done. Qed.
Lemma unposted_when b (m : pbftM unit) : unposted m → unposted (when b m).
Proof. by destruct b. Qed.
Lemma unposted_broadcast w : unposted (broadcast w).
Proof.
  intros s. destruct (broadcast_run w s) as [_ Ho].
  induction (out (broadcast w) s) as [|e es IH]; [done|].
  destruct (Ho e) as [ep ->]; [left|]. apply IH. intros e He. apply Ho. by right.
Qed.
Lemma unposted_find_operation v n r : unposted (find_operation v n r).
Proof.
  apply unposted_bind; [by apply unposted_quiet|]. intros [o|]; [done|].
  apply unposted_bind; [apply unposted_quiet; auto with guar|]. intros ps. by apply unposted_bind.
Qed.
Lemma unposted_call_operation k g : unposted (call_operation k g).
Proof.
  apply unposted_bind; [apply unposted_quiet; auto with guar|]. intros o.
  apply unposted_bind; [apply unposted_quiet; auto with guar|]. by intros o'.
Qed.
Lemma unposted_apply_configuration b c (f : pbft_configuration → pbftM unit) :
  (∀ d, unposted (f d)) → unposted (when b (d ← read_configuration c; when d.1 (f d.2))).
Proof.
  intros Hf. apply unposted_when, unposted_bind; [apply unposted_quiet; auto with guar|].
  intros d. apply unposted_when, Hf.
Qed.

#[local] Hint Resolve unposted_quiet unposted_modify unposted_when unposted_broadcast unposted_find_operation
  unposted_call_operation unposted_apply_configuration : guar.

Lemma unposted_end_commit k : unposted (end_commit k).
Proof.
  unfold end_commit. apply unposted_bind; [auto with guar|]. intros o.
  apply unposted_bind; [apply unposted_when, unposted_bind; auto with guar|]. intros _.
  do 5 (apply unposted_bind; [auto with guar|intros ?]). auto with guar.
Qed.

(** *** Committing *)

Lemma guar_end_commit_method k : guar (end_commit k).
Proof.
  intros s. unfold end_commit. apply guar_bind_quiet; [auto with guar|]. intros o _ _.
  apply guar_bind_at; [refine (guar_apply_configuration _ _ _ (λ d, guar_remove_prior_to (get_hash d)) s)|].
  intros _ _ _. apply guar_bind_at; [apply guar_end_commit|]. intros _ _ _.
  apply guar_bind_quiet; [auto with guar|]. intros a _ _. apply guar_bind_quiet; [auto with guar|]. intros u _ _.
  apply guar_bind_at; [apply guar_when; intros _; apply guar_broadcast_audit|]. intros _ _ _.
  apply guar_bind_at; [apply guar_find_operation|]. intros k' _ _. apply guar_quiet. auto with guar.
Qed.

Lemma end_commit_finishes k s :
  res (call_operation k end_commit_phase) s = Ok tt → finished (post (call_operation k end_commit_phase) s) k.
Proof.
  unfold call_operation. intros He. apply res_bind_ok in He as (o & Ho & He). rewrite (post_bind_ok _ _ _ _ Ho).
  rewrite res_deref in Ho. rewrite (proj1 (quiet_deref k s)) in *.
  destruct (operations s !! k) as [o1|] eqn:E; [|done]. injection Ho as ->.
  apply res_bind_ok in He as (o' & Ho' & _). rewrite (post_bind_ok _ _ _ _ Ho').
  apply end_commit_phase_spec in Ho' as (_ & _ & ->). left. eexists.
  simpl. by rewrite lookup_alter_eq, post_lift, E.
Qed.

(** Telling the auditors and finding the operation again. *)
Lemma find_committed k o1 s o (m : pbftM unit) :
  inv s → guar m → get_operation_key o1 = k → finished s k →
  let tail := m;; key ← find_operation (pbft_operation.view o1) (sequence o1) (request o1); deref key in
  res tail s = Ok o →
  get_operation_key o = k ∧ finished (post tail s) k ∧ operations (post tail s) !! k = Some o ∧ inv (post tail s).
Proof.
  intros Hi Hm Hk Hf tail Hr. unfold tail in *.
  apply res_bind_ok in Hr as ([] & Hb & Hr). rewrite (post_bind_ok _ _ _ _ Hb).
  destruct (Hm s Hi) as [Hi1 Hs1]. pose proof (step_finished _ _ _ Hs1 _ Hf) as Hf1.
  apply res_bind_ok in Hr as (k' & Hk' & Hr). rewrite (post_bind_ok _ _ _ _ Hk').
  destruct (guar_find_operation (pbft_operation.view o1) (sequence o1) (request o1) _ Hi1) as [Hi2 Hs2].
  pose proof (step_finished _ _ _ Hs2 _ Hf1) as Hf2.
  apply find_operation_res in Hk' as [-> _]. change (pbft_operation.view o1, _, _) with (get_operation_key o1) in *.
  rewrite Hk in *. rewrite (proj1 (quiet_deref _ _)), res_deref in *.
  destruct (operations _ !! k) as [o3|] eqn:E; [|done]. injection Hr as ->. split_and!; [|done..].
  by apply (inv_operation _ Hi2 _ _ E).
Qed.

(** The operation that is given to the service is the one that was committed. *)
Lemma end_commit_result k s o :
  inv s → res (end_commit k) s = Ok o →
  let s' := post (end_commit k) s in
  get_operation_key o = k ∧ finished s' k ∧ operations s' !! k = Some o ∧ inv s'.
Proof.
  intros Hi. unfold end_commit. simpl. intros Hr.
  apply res_bind_ok in Hr as (o1 & Ho1 & Hr). rewrite (post_bind_ok _ _ _ _ Ho1).
  rewrite res_deref in Ho1. rewrite (proj1 (quiet_deref k s)) in *.
  destruct (operations s !! k) as [o2|] eqn:E; [|done]. injection Ho1 as ->.
  destruct (inv_operation _ Hi _ _ E) as (Hk & _).
  apply res_bind_ok in Hr as ([] & Hc & Hr). rewrite (post_bind_ok _ _ _ _ Hc).
  pose proof (guar_apply_configuration (is_new_config (request o1)) (req_configuration (request o1)) _
                (λ d, guar_remove_prior_to (get_hash d)) s Hi) as [Hi1 _].
  set (s1 := post (when _ _) s) in *. clearbody s1.
  apply res_bind_ok in Hr as ([] & He & Hr). rewrite (post_bind_ok _ _ _ _ He).
  pose proof (end_commit_finishes k s1 He) as Hf. destruct (guar_end_commit k s1 Hi1) as [Hi2 _].
  rewrite (post_bind_ok _ _ _ _ (res_gets _ _)), (post_bind_ok _ _ _ _ (res_gets _ _)).
  apply res_bind_ok in Hr as (a & [= <-] & Hr). apply res_bind_ok in Hr as (u & [= <-] & Hr).
  rewrite !post_gets in *. eapply find_committed; [done| |done|done|done].
  apply guar_when. intros _. apply guar_broadcast_audit.
Qed.

Lemma step_post s es s' o :
  step s es s' → posted es = [] → (get_operation_key o).1.1 = view s → ¬ finished s (get_operation_key o) →
  finished s' (get_operation_key o) → accepted_preprepares s' !! (get_operation_key o).1 = Some (get_operation_key o) →
  is_committed o = true → step s (es ++ [PostApplyOperation o]) s'.
Proof.
  intros Hs Hp Hv Hn Hf Ha Hc. split; try apply Hs.
  - rewrite posted_app, Hp. apply NoDup_singleton.
  - intros k. rewrite posted_app, Hp. by intros ->%list_elem_of_singleton.
  - intros op [Hin|Hin%list_elem_of_singleton]%elem_of_app; [by apply Hs|]. by injection Hin as ->.
  - intros ep w [Hin|Hin]%elem_of_app; [by eapply Hs|]. by apply list_elem_of_singleton in Hin.
Qed.

(** The stable checkpoint is not touched by the phases of an operation. *)
Definition same_stable (s s' : pbft) : Prop := stable_checkpoint s' = stable_checkpoint s ∧ view s' = view s.

#[local] Instance same_stable_preorder : PreOrder same_stable.
Proof. split; [done|]. intros a b c [??] [??]. unfold same_stable. split; congruence. Qed.

Lemma respects_quiet {A} (R : relation pbft) `{!Reflexive R} (m : pbftM A) : quiet m → respects R m.
Proof. intros Hq s. rewrite (proj1 (Hq s)). reflexivity. Qed.

Lemma same_stable_broadcast w : respects same_stable (broadcast w).
Proof. intros s. by rewrite (proj1 (broadcast_run w s)). Qed.

Lemma same_stable_call_operation k g : respects same_stable (call_operation k g).
Proof.
  unfold call_operation, update_operation. apply respects_bind; [apply _|apply respects_quiet; auto with guar; apply _|].
  intros o. respects_steps. done.
Qed.

Lemma same_stable_do_prepared k : respects same_stable (do_prepared k).
Proof.
  unfold do_prepared. apply respects_bind; [apply _|apply respects_quiet; auto with guar; apply _|]. intros o.
  apply respects_bind; [apply _| |intros _].
  { apply respects_when; [apply _|]. intros _.
    apply respects_bind; [apply _|apply respects_quiet; auto with guar; apply _|]. intros c. respects_steps. done. }
  apply respects_bind; [apply _|apply same_stable_call_operation|intros _].
  apply respects_bind; [apply _|apply respects_quiet; auto with guar; apply _|]. intros m.
  apply respects_bind; [apply _|apply respects_quiet; auto with guar; apply _|]. intros w. apply same_stable_broadcast.
Qed.

(** What finding an operation leaves alone. *)
Definition same_accepted (s s' : pbft) : Prop :=
  same_stable s s' ∧ accepted_preprepares s' = accepted_preprepares s.

#[local] Instance same_accepted_preorder : PreOrder same_accepted.
Proof.
  split; [by intros s; split|]. intros a b c [H1 ?] [H2 ?]. split; [by etrans|congruence].
Qed.

Lemma same_accepted_find_operation v n r : respects same_accepted (find_operation v n r).
Proof.
  unfold find_operation. apply respects_bind; [apply _|by apply respects_quiet|]. intros [o|]; [by apply respects_quiet|].
  apply respects_bind; [apply _|apply respects_quiet; auto with guar; apply _|]. intros ps.
  apply respects_bind; [apply _|apply respects_modify; intros ?; done|]. intros _. by apply respects_quiet.
Qed.

Lemma same_stable_end_commit k : respects same_stable (end_commit k).
Proof.
  unfold end_commit. apply respects_bind; [apply _|apply respects_quiet; auto with guar; apply _|]. intros o.
  apply respects_bind; [apply _| |intros _].
  { apply respects_when; [apply _|]. intros _.
    apply respects_bind; [apply _|apply respects_quiet; auto with guar; apply _|]. intros c. respects_steps. done. }
  apply respects_bind; [apply _|apply same_stable_call_operation|intros _].
  do 2 (apply respects_bind; [apply _|apply respects_quiet; auto with guar; apply _|intros ?]).
  apply respects_bind; [apply _|apply respects_when; [apply _|intros _; apply same_stable_broadcast]|intros _].
  apply respects_bind; [apply _| |intros k'; apply respects_quiet; auto with guar; apply _].
  intros s. apply same_accepted_find_operation.
Qed.

Lemma guar_do_committed_at k s :
  k.1.1 = view s → ¬ finished s k → (inv s → accepted_preprepares s !! k.1 = Some k) → guar_at (do_committed k) s.
Proof.
  intros Hv Hn Ha Hi. destruct (guar_end_commit_method k s Hi) as [Hi1 Hs1].
  unfold do_committed. rewrite post_bind, out_bind.
  destruct (res (end_commit k) s) as [o| |] eqn:E; [|by rewrite app_nil_r..].
  destruct (end_commit_result k s o Hi E) as (Hk & Hf & Ho & _). rewrite post_emit, out_emit. split; [done|].
  apply step_post; rewrite ?Hk; try done; [apply unposted_end_commit|..].
  - eapply lookup_weaken; [by apply Ha|apply Hs1].
  - destruct (inv_operation _ Hi1 _ _ Ho) as (_ & Hj & _). destruct Hf as [(o' & Ho' & Hst)|Hle].
    + rewrite Ho in Ho'. injection Ho' as ->. unfold phase_justified in Hj. by rewrite Hst in Hj.
    + destruct Hn. right. by rewrite <-(proj1 (same_stable_end_commit k s)).
Qed.

Lemma guar_maybe_advance_at k s :
  k.1.1 = view s → ((stable_checkpoint s).1 < k.1.2)%N → guar_at (maybe_advance_operation_state k) s.
Proof.
  intros Hv Hst. unfold maybe_advance_operation_state.
  apply guar_bind_quiet; [auto with guar|]. intros o Ho Hi0.
  assert (respects same_stable (when (bool_decide (get_state o = prepare) && is_prepared o) (do_prepared k))) as Hsame.
  { apply respects_when; [apply _|]. intros _. apply same_stable_do_prepared. }
  apply guar_bind_at.
  { destruct (bool_decide (get_state o = prepare) && is_prepared o) eqn:E; [|apply guar_ret].
    apply andb_prop in E as [_ Hp]. apply guar_do_prepared_at. intros o' Ho'.
    rewrite res_deref, Ho' in Ho. by injection Ho as ->. }
  intros _ _ _. destruct (Hsame s) as [Hs' Hv']. set (s1 := post (when _ _) s) in *. clearbody s1.
  apply guar_bind_quiet; [auto with guar|]. intros o1 Ho1 Hi1. rewrite res_deref in Ho1.
  destruct (operations s1 !! k) as [o2|] eqn:Eo; [|done]. injection Ho1 as ->.
  destruct (bool_decide (get_state o1 = commit) && is_committed o1) eqn:E; [|apply guar_ret].
  apply andb_prop in E as [Hc Hcom]. apply bool_decide_eq_true in Hc. apply guar_do_committed_at.
  - congruence.
  - intros [(o3 & Ho3 & Hst3)|Hle]; [|rewrite Hs' in Hle; lia]. unfold get_state in Hc. congruence.
  - intros Hi. apply (inv_operation _ Hi _ _ Eo). unfold is_committed, is_prepared in Hcom.
    by apply andb_prop in Hcom as [[? _]%andb_prop _].
Qed.

(** ** The handlers *)

Lemma find_operation_frame v n r s :
  next_issued_sequence_number (post (find_operation v n r) s) = next_issued_sequence_number s ∧
  uuid (post (find_operation v n r) s) = uuid s.
Proof.
  unfold find_operation. rewrite post_bind, res_gets, post_gets.
  destruct (operations s !! (v, n, request_hash r)); [done|].
  rewrite post_bind, (proj1 (quiet_current_peers s)). by destruct (res current_peers s).
Qed.

(** Finding the operation of a message, then working on it. *)
Lemma guar_with_operation_at {B} msg (k : operation_key_t → pbftM B) s :
  (∀ s', same_accepted s s' →
     is_Some (operations s' !! (pm_view msg, pm_sequence msg, request_hash (get_request msg))) → inv s' →
     guar_at (k (pm_view msg, pm_sequence msg, request_hash (get_request msg))) s') →
  guar_at (op ← find_operation_msg msg; k op) s.
Proof.
  intros Hk. apply guar_bind_at; [apply guar_find_operation|]. intros op Hop Hs Hi.
  apply find_operation_res in Hop as [-> Hin]. apply Hk; [apply same_accepted_find_operation|done|done|done].
Qed.

Lemma guar_record_at k f s :
  (∀ o, pbft_operation.step o (f o) ∧ preprepare_seen (f o) = preprepare_seen o) →
  k.1.1 = view s → ((stable_checkpoint s).1 < k.1.2)%N →
  guar_at (update_operation k f;; maybe_advance_operation_state k) s.
Proof.
  intros Hf Hv Hst. apply guar_bind_at; [by apply guar_update_operation_at; auto|].
  intros _ _ _. by apply guar_maybe_advance_at.
Qed.

(** The message passed the filter and is a vote. *)
Definition in_window (msg : pbft_msg) (s : pbft) : Prop :=
  pm_view msg = view s ∧ (low_water_mark s < pm_sequence msg ≤ high_water_mark s)%N.

Lemma filter_window msg s :
  preliminary_filter_msg msg s = true → votes (pm_type msg) = true → in_window msg s.
Proof.
  unfold preliminary_filter_msg. intros Hf Hvote. rewrite Hvote in Hf. revert Hf.
  destruct (N.eqb_spec (pm_view msg) (view s)); simpl; [|done].
  destruct (N.leb_spec (pm_sequence msg) (low_water_mark s)); [done|].
  destruct (N.ltb_spec (high_water_mark s) (pm_sequence msg)); [done|]. intros _. split; [done|lia].
Qed.

Lemma guar_handle_vote_at f msg s :
  (∀ o, pbft_operation.step o (f o) ∧ preprepare_seen (f o) = preprepare_seen o) → in_window msg s →
  guar_at (op ← find_operation_msg msg; update_operation op f;; maybe_advance_operation_state op) s.
Proof.
  intros Hf [Hv Hw] Hi0. pose proof (inv_low _ Hi0) as Hlow. revert Hi0.
  apply guar_with_operation_at. intros s' [[Hst Hv'] _] _ _.
  apply guar_record_at; [done|simpl; congruence|]. simpl. rewrite Hst. lia.
Qed.

Lemma guar_handle_prepare_at msg e s : in_window msg s → guar_at (handle_prepare msg e) s.
Proof. apply guar_handle_vote_at. intros o. split; [constructor|done]. Qed.

Lemma guar_handle_commit_at msg e s : in_window msg s → guar_at (handle_commit msg e) s.
Proof. apply guar_handle_vote_at. intros o. split; [constructor|done]. Qed.

Lemma guar_handle_config_message msg k : guar (handle_config_message msg k).
Proof.
  unfold handle_config_message. apply guar_bind; [apply guar_quiet; auto with guar|]. intros o.
  destruct (decide _); [|apply guar_ret]. apply guar_bind; [apply guar_quiet; auto with guar|]. intros c.
  apply guar_when. intros _. apply guar_add_configuration.
Qed.

Lemma same_accepted_handle_config_message msg k : respects same_accepted (handle_config_message msg k).
Proof.
  unfold handle_config_message. apply respects_bind; [apply _|apply respects_quiet; auto with guar; apply _|]. intros o.
  destruct (decide _); [|by apply respects_quiet].
  apply respects_bind; [apply _|apply respects_quiet; auto with guar; apply _|]. intros c.
  unfold add_configuration. respects_steps. done.
Qed.

(** Recording a preprepare and its acceptance is one change of the state. *)
Lemma accept_run k e s (rest : pbft_operation → pbftM unit) o :
  operations s !! k = Some o →
  let o' := record_preprepare e o in
  (update_operation k (record_preprepare e);;
   o ← deref k;
   modify (λ s, set_accepted (<[k.1 := get_operation_key o]> (accepted_preprepares s)) s);; rest o) s =
  rest o' (set_accepted (<[k.1 := get_operation_key o]> (accepted_preprepares s))
             (set_operations (alter (record_preprepare e) k (operations s)) s)).
Proof.
  intros Ho o'. erewrite bind_ok; [|done|].
  2: { erewrite bind_ok; [|unfold deref; erewrite bind_ok; [|done|done]; simpl; rewrite lookup_alter_eq, Ho; done|].
       2: { erewrite bind_ok; [|done|done]. reflexivity. } reflexivity. }
  simpl. by destruct (rest _ _) as [[??]?].
Qed.

Lemma guar_run_at {A} (m m' : pbftM A) s s' :
  m s = m' s' → (inv s → inv s' ∧ step s [] s') → guar_at m' s' → guar_at m s.
Proof.
  intros Hrun Hs Hm Hi. destruct (Hs Hi) as [Hi' Hst]. destruct (Hm Hi') as [Hi2 Hst2].
  unfold post, out in *. rewrite Hrun. split; [done|]. exact (step_trans _ [] _ _ _ Hst Hst2).
Qed.

Lemma accept_guarantee k e s o :
  operations s !! k = Some o →
  (∀ k', accepted_preprepares s !! k.1 = Some k' → k'.2 = k.2) → inv s →
  let s' := set_accepted (<[k.1 := get_operation_key o]> (accepted_preprepares s))
              (set_operations (alter (record_preprepare e) k (operations s)) s) in
  (inv s' ∧ step s [] s') ∧ accepted_preprepares s' !! k.1 = Some k.
Proof.
  intros Ho Hfree Hi s'. destruct (inv_operation _ Hi _ _ Ho) as (Hk & _). unfold s'. rewrite Hk.
  split; [|apply lookup_insert_eq]. apply alter_operation; [| |intros o1 _; split; [constructor|]|done].
  - destruct (accepted_preprepares s !! k.1) as [k'|] eqn:E; [|by apply insert_subseteq].
    assert (k' = k) as ->; [|by rewrite insert_id].
    apply (inv_accepted _ Hi) in E as Hlk. specialize (Hfree _ eq_refl).
    destruct k, k'. simpl in *. by subst.
  - intros lk k'. rewrite lookup_insert_Some. intros [[<- <-]|[_ ?]]; [done|by apply (inv_accepted _ Hi)].
  - intros _. apply lookup_insert_eq.
Qed.

Lemma guar_handle_preprepare_at msg e s : in_window msg s → guar_at (handle_preprepare msg e) s.
Proof.
  intros [Hv Hw]. unfold handle_preprepare. apply guar_bind_quiet; [auto with guar|].
  intros conflict Hc Hi0. rewrite res_gets in Hc. injection Hc as <-. pose proof (inv_low _ Hi0) as Hlow.
  destruct (conflicting_preprepare msg s) eqn:Ec; [apply guar_ret|].
  apply guar_with_operation_at. intros s1 [[Hst Hv1] Hacc] [o Ho] Hi1.
  set (k := (pm_view msg, pm_sequence msg, request_hash (get_request msg))) in *.
  assert (∀ k', accepted_preprepares s1 !! k.1 = Some k' → k'.2 = k.2) as Hfree.
  { intros k'. rewrite Hacc. unfold conflicting_preprepare in Ec. simpl. intros E. rewrite E in Ec.
    by apply negb_false_iff, bool_decide_eq_true in Ec. }
  destruct (accept_guarantee k e s1 o Ho Hfree Hi1) as [Hg Ha].
  eapply guar_run_at; [apply (accept_run k e s1 (λ _, _) o Ho)|done|].
  set (s2 := set_accepted _ _) in *.
  assert (same_stable s s2) as [Hst2 Hv2] by (split; [exact Hst|exact Hv1]). clearbody s2.
  apply guar_bind_at; [apply guar_when; intros _; apply guar_handle_config_message|]. intros _ _ Hs3.
  assert (respects same_accepted (when (has_request msg && bool_decide (req_type (get_request msg) = PBFT_REQ_NEW_CONFIG))
            (handle_config_message msg k))) as Hsame.
  { apply respects_when; [apply _|]. intros _. apply same_accepted_handle_config_message. }
  destruct (Hsame s2) as [[Hst3 Hv3] Ha3]. set (s3 := post (when _ _) s2) in *. clearbody s3.
  apply guar_bind_at; [apply guar_do_preprepared_at; congruence|]. intros _ _ _.
  rewrite (same_post_do_preprepared k s3). apply guar_maybe_advance_at; [simpl; congruence|].
  simpl. rewrite Hst3, Hst2. lia.
Qed.

(** *** Checkpoints *)

Lemma before_upper_bound_le cp e : (cp.1 + 1 < 2 ^ 64)%N → ¬ before_upper_bound cp e → (cp.1 < e.1)%N.
Proof.
  intros Hb Hn. destruct (decide (cp.1 < e.1)%N); [done|]. destruct Hn. left. rewrite add64_small by done. lia.
Qed.

(** The state after a checkpoint has become stable. *)
Definition stabilized (cp : checkpoint_t) (proofs : gmap uuid_t string) (s : pbft) : pbft :=
  post (modify (set_stable cp proofs);;
        clear_local_checkpoints_until cp;; clear_checkpoint_messages_until cp;; clear_operations_until cp;;
        modify (λ s, set_marks (N.max (low_water_mark s) cp.1)
                       (N.max (high_water_mark s) (add64 cp.1 HIGH_WATER_INTERVAL)) s) : pbftM unit) s.

Lemma stabilized_inv cp proofs s :
  inv s → (cp.1 + 1 < 2 ^ 64)%N → ((stable_checkpoint s).1 < cp.1)%N → inv (stabilized cp proofs s).
Proof.
  intros [H1 H2 H3 H4 H5 H6 H7] Hb Hlt. split; simpl.
  - intros k o [Ho _]%map_lookup_filter_Some. by apply H1.
  - done.
  - intros e p [_ He]%map_lookup_filter_Some _. by apply before_upper_bound_le in He.
  - rewrite H4. lia.
  - unfold HIGH_WATER_INTERVAL in *. intros Hh. rewrite H5 by lia. rewrite add64_small by lia. lia.
  - done.
  - intros e [_ He]%elem_of_filter. by apply H7.
Qed.

Lemma stabilized_step cp proofs s :
  inv s → ((stable_checkpoint s).1 < cp.1)%N → step s [] (stabilized cp proofs s).
Proof.
  intros Hi Hlt. split; simpl; try done; [lia| |apply NoDup_nil_2|..].
  - intros k [(o & Ho & Hc)|Hle]; [|right; simpl; lia].
    destruct (inv_operation _ Hi _ _ Ho) as (<- & _). destruct (decide (sequence o ≤ cp.1)%N) as [Hle|Hgt].
    + by right.
    + left. exists o. split; [|done]. by apply map_lookup_filter_Some.
  - by intros ? ?%elem_of_nil.
  - by intros ? ?%elem_of_nil.
  - by intros ?? ?%elem_of_nil.
Qed.

Lemma guar_checkpoint_proofs cp : guar (checkpoint_proofs cp).
Proof.
  unfold checkpoint_proofs. apply guar_bind; [|intros _; apply guar_gets]. intros s. apply guar_modify_at. intros Hi.
  destruct (unstable_checkpoint_proofs s !! cp) as [p|] eqn:E; [by split; [|apply step_refl]|].
  split; [|by apply step_frame]. destruct Hi as [H1 H2 H3 H4 H5 H6 H7]. split; try done. simpl.
  intros cp' p. rewrite lookup_insert_Some. intros [[<- <-]|[_ ?]] Hne; [done|]. by eapply H3.
Qed.

Lemma checkpoint_proofs_run cp s ps :
  res (checkpoint_proofs cp) s = Ok ps →
  let s' := post (checkpoint_proofs cp) s in
  unstable_checkpoint_proofs s' !! cp = Some ps ∧ stable_checkpoint s' = stable_checkpoint s ∧
  local_unstable_checkpoints s' = local_unstable_checkpoints s.
Proof.
  unfold checkpoint_proofs. run_simpl. intros [= <-].
  destruct (unstable_checkpoint_proofs s !! cp) as [p|] eqn:E; simpl; [by rewrite E|]. by rewrite lookup_insert_eq.
Qed.

Lemma res_current_peers s :
  res current_peers s =
  match current (configurations s) with Some c => Ok (get_peers c) | None => Throw "No current configuration!" end.
Proof. unfold current_peers. rewrite res_bind, res_gets, post_gets. by destruct (current (configurations s)). Qed.

Lemma res_quorum_size s :
  res quorum_size s =
  match current (configurations s) with
  | Some c => Ok (1 + 2 * (lengthN (get_peers c) / 3))%N
  | None => Throw "No current configuration!"
  end.
Proof.
  unfold quorum_size, max_faulty_nodes. rewrite !res_bind, res_current_peers.
  by destruct (current (configurations s)).
Qed.

Lemma quorum_positive s q : res quorum_size s = Ok q → (1 ≤ q)%N.
Proof. unfold quorum_size. intros Hq. apply res_bind_ok in Hq as (f & _ & Hq). injection Hq as <-. lia. Qed.

(** The branches of [maybe_stabilize_checkpoint]. *)
Lemma maybe_stabilize_run cp s q :
  res quorum_size s = Ok q →
  let s' := post (maybe_stabilize_checkpoint cp) s in
  let proofs := default ∅ (unstable_checkpoint_proofs s !! cp) in
  ((cp ∉ local_unstable_checkpoints s ∨ (N.of_nat (size proofs) < q)%N) ∧ stable_checkpoint s' = stable_checkpoint s) ∨
  (cp ∈ local_unstable_checkpoints s ∧ (q ≤ N.of_nat (size proofs))%N ∧
   s' = stabilized cp proofs (post (checkpoint_proofs cp) s)).
Proof.
  intros Hq s' proofs. unfold s', maybe_stabilize_checkpoint. rewrite post_bind, res_gets, post_gets.
  case_bool_decide as Hin; simpl; [|left; auto]. rewrite post_bind.
  assert (res (checkpoint_proofs cp) s = Ok proofs) as ->.
  { unfold checkpoint_proofs, proofs. run_simpl. destruct (unstable_checkpoint_proofs s !! cp) eqn:E; simpl.
    - by rewrite E.
    - by rewrite lookup_insert_eq. }
  assert (res quorum_size (post (checkpoint_proofs cp) s) = res quorum_size s ∧
          stable_checkpoint (post (checkpoint_proofs cp) s) = stable_checkpoint s) as [Eq Es].
  { unfold checkpoint_proofs. run_simpl. rewrite !res_quorum_size.
    by destruct (unstable_checkpoint_proofs s !! cp). }
  set (s1 := post (checkpoint_proofs cp) s) in *. rewrite post_bind, (proj1 (quiet_quorum_size s1)), Eq, Hq.
  destruct (N.ltb_spec (N.of_nat (size proofs)) q); [left; auto|]. right. done.
Qed.

Lemma guar_maybe_stabilize_checkpoint cp : guar (maybe_stabilize_checkpoint cp).
Proof.
  intros s. unfold maybe_stabilize_checkpoint. apply guar_bind_quiet; [auto with guar|]. intros local Hl Hi0.
  rewrite res_gets in Hl. injection Hl as <-. case_bool_decide as Hin; simpl; [|apply guar_ret].
  pose proof (inv_local _ Hi0 _ Hin) as Hb.
  apply guar_bind_at; [apply guar_checkpoint_proofs|]. intros ps Hps _.
  apply checkpoint_proofs_run in Hps as (Hps & _ & _). set (s1 := post _ s) in *. clearbody s1.
  apply guar_bind_quiet; [auto with guar|]. intros q Hq Hi1.
  destruct (N.ltb_spec (N.of_nat (size ps)) q) as [|Hge]; [apply guar_ret|].
  assert ((stable_checkpoint s1).1 < cp.1)%N as Hlt.
  { apply (inv_proofs _ Hi1 _ _ Hps). intros ->. rewrite map_size_empty in Hge.
    apply quorum_positive in Hq. lia. }
  apply (guar_run_at _ (mret tt) _ (stabilized cp ps s1)); [done| |apply guar_ret].
  intros Hi. split; [by apply stabilized_inv|by apply stabilized_step].
Qed.

Lemma guar_handle_checkpoint msg e : guar (handle_checkpoint msg e).
Proof.
  intros s. unfold handle_checkpoint. apply guar_bind_quiet; [auto with guar|]. intros st Hst Hi0.
  rewrite res_gets in Hst. injection Hst as <-.
  destruct (N.leb_spec (pm_sequence msg) (stable_checkpoint s).1) as [|Hlt]; [apply guar_ret|].
  apply guar_bind_at; [apply guar_checkpoint_proofs|]. intros ps Hps _.
  apply checkpoint_proofs_run in Hps as (_ & Hst & _). set (s1 := post _ s) in *. clearbody s1.
  apply guar_bind_at; [|intros _ _ _; apply guar_maybe_stabilize_checkpoint].
  apply guar_modify_at. intros Hi. split; [|by apply step_frame].
  destruct Hi as [H1 H2 H3 H4 H5 H6 H7]. split; try done. simpl.
  intros cp p. rewrite lookup_insert_Some. intros [[<- <-]|[_ ?]] Hne; [simpl; congruence|]. by eapply H3.
Qed.

Lemma guar_checkpoint_reached_locally n :
  (n + 1 < 2 ^ 64)%N → guar (checkpoint_reached_locally service_state_hash n).
Proof.
  intros Hn s. unfold checkpoint_reached_locally. apply guar_bind_at.
  { apply guar_modify_at. intros Hi. split; [|by apply step_frame].
    destruct Hi as [H1 H2 H3 H4 H5 H6 H7]. split; try done. simpl.
    intros cp [->%elem_of_singleton|?]%elem_of_union; [done|by apply H7]. }
  intros _ _ _. set (s1 := post _ s). clearbody s1.
  apply guar_bind_quiet; [auto with guar|]. intros v _ _. apply guar_bind_quiet; [auto with guar|].
  intros w [= <-] _. apply guar_bind_at; [|intros _ _ _; apply guar_maybe_stabilize_checkpoint].
  apply guar_broadcast_at. intros _. right. eexists. split; [done|]. split; [by intros [|]|done].
Qed.

(** *** Dispatch, requests, membership *)

Lemma guar_handle_message msg e : guar (handle_message msg e).
Proof.
  intros s. unfold handle_message. apply guar_bind_quiet; [auto with guar|]. intros pass Hp _.
  rewrite res_gets in Hp. injection Hp as <-.
  destruct (preliminary_filter_msg msg s) eqn:Ef; simpl; [|apply guar_ret].
  pose proof (filter_window msg s Ef) as Hw.
  apply guar_bind_at; [apply guar_when; intros _; by apply guar_emit|]. intros _ _ _.
  assert (post (when (has_request msg) (emit (RequestSeen (get_request msg)))) s = s) as ->
    by (by destruct (has_request msg)).
  unfold votes in Hw. destruct (pm_type msg); [apply guar_throw| | | |apply guar_handle_checkpoint].
  - apply guar_handle_preprepare_at. by apply Hw.
  - apply guar_handle_prepare_at. by apply Hw.
  - apply guar_handle_commit_at. by apply Hw.
Qed.

Lemma guar_handle_bzn_message e : guar (handle_bzn_message e).
Proof. unfold handle_bzn_message. destruct (ParseFromString _); [apply guar_handle_message|apply guar_ret]. Qed.

Lemma guar_setup_request_operation r session : guar (setup_request_operation r session).
Proof.
  unfold setup_request_operation. apply guar_bind; [apply guar_gets|]. intros n. apply guar_bind.
  { intros s. apply guar_modify_at. intros Hi. split; [|by apply step_frame].
    destruct Hi as [H1 H2 H3 H4 H5 H6 H7]. by split. }
  intros _. apply guar_bind; [apply guar_gets|]. intros v. apply guar_bind; [apply guar_find_operation|]. intros k.
  apply guar_bind; [|intros _; apply guar_ret]. destruct session as [session|]; [|apply guar_ret].
  intros s. apply guar_update_operation_at. intros o _. split; [constructor|done].
Qed.

(** *** Requests of clients *)

(** The preprepare of an operation, as node [u] sends it. *)
Definition proposal (u : uuid_t) (o : pbft_operation) : string :=
  SerializeAsString (Envelope u "" kPbft
    (SerializeAsString (PbftMsg PBFT_MSG_PREPREPARE (pbft_operation.view o) (sequence o) (Some (request o)) ""))).

Lemma res_is_primary s p :
  res get_primary s = Ok p → res is_primary s = Ok (bool_decide (Messages.uuid p = uuid s)).
Proof.
  intros Hp. unfold is_primary. rewrite res_bind, Hp, (proj1 (quiet_get_primary s)). done.
Qed.

Lemma run_quiet {A} (m : pbftM A) s a : quiet m → res m s = Ok a → m s = (Ok a, s, []).
Proof. intros Hq Hr. rewrite run_eta. destruct (Hq s) as [-> ->]. by rewrite Hr. Qed.

Lemma setup_request_operation_out r session s : out (setup_request_operation r session) s = [].
Proof.
  assert (∀ v n s, out (find_operation v n r) s = []) as Hf.
  { intros v n s'. unfold find_operation. rewrite out_bind, res_gets, post_gets. simpl.
    destruct (operations s' !! _); [done|]. rewrite out_bind. destruct (quiet_current_peers s') as [_ ->].
    by destruct (res current_peers s'). }
  unfold setup_request_operation. rewrite out_bind, res_gets, out_gets, post_gets. simpl.
  rewrite out_bind, res_modify, out_modify, post_modify. simpl.
  rewrite out_bind, res_gets, out_gets, post_gets. simpl. rewrite out_bind, Hf.
  destruct (res _ _); [|done..]. rewrite out_bind. by destruct session.
Qed.

Lemma handle_request_forwards r json session s p ep :
  res get_primary s = Ok p → make_endpoint p = Ok ep → Messages.uuid p ≠ uuid s →
  handle_request r json session s = (Ok tt, s, [SendMessage ep json]).
Proof.
  intros Hp Hep Hu. unfold handle_request. pose proof (res_is_primary s p Hp) as Hi.
  rewrite bool_decide_false in Hi by done.
  erewrite bind_ok; [|by apply run_quiet; [apply quiet_is_primary|exact Hi]|done]. simpl.
  erewrite bind_ok; [|by apply run_quiet; [apply quiet_get_primary|exact Hp]|done].
  erewrite bind_ok; [|unfold lift; by rewrite Hep|done]. done.
Qed.

Lemma setup_request_operation_run r session s k :
  res (setup_request_operation r session) s = Ok k →
  let s' := post (setup_request_operation r session) s in
  k = (view s, next_issued_sequence_number s, request_hash r) ∧ is_Some (operations s' !! k) ∧
  next_issued_sequence_number s' = add64 (next_issued_sequence_number s) 1 ∧ uuid s' = uuid s.
Proof.
  unfold setup_request_operation. rewrite res_bind, post_bind, res_gets, post_gets.
  rewrite res_bind, post_bind, res_modify, post_modify. rewrite res_bind, post_bind, res_gets, post_gets. simpl.
  set (s1 := set_next_issued _ s). rewrite res_bind, post_bind.
  destruct (res (find_operation (view s) (next_issued_sequence_number s) r) s1) as [k'| |] eqn:E; [|done..].
  assert (next_issued_sequence_number (post (find_operation (view s) (next_issued_sequence_number s) r) s1) =
            next_issued_sequence_number s1 ∧
          uuid (post (find_operation (view s) (next_issued_sequence_number s) r) s1) = uuid s1) as [En Eu].
  { apply find_operation_frame. }
  apply find_operation_res in E as [-> [o Ho]]. set (s2 := post _ s1) in *.
  rewrite res_bind, post_bind. destruct session as [session|]; simpl; intros [= <-]; [|by eauto].
  rewrite lookup_alter_eq, Ho. eauto.
Qed.

Lemma setup_request_operation_ok r session s ps :
  res current_peers s = Ok ps →
  res (setup_request_operation r session) s = Ok (view s, next_issued_sequence_number s, request_hash r).
Proof.
  intros Hps. unfold setup_request_operation. rewrite res_bind, res_gets, post_gets.
  rewrite res_bind, res_modify, post_modify. rewrite res_bind, res_gets, post_gets. simpl.
  set (s1 := set_next_issued _ s). assert (res current_peers s1 = Ok ps) as Hps1 by (rewrite res_current_peers in *; exact Hps).
  assert (res (find_operation (view s) (next_issued_sequence_number s) r) s1 =
          Ok (view s, next_issued_sequence_number s, request_hash r)) as Hf.
  { unfold find_operation. rewrite res_bind, res_gets, post_gets.
    destruct (operations s1 !! _); [done|]. rewrite res_bind, Hps1. done. }
  rewrite res_bind, Hf, res_bind. by destruct session.
Qed.

Lemma do_preprepare_run k s :
  post (do_preprepare k) s = s ∧
  ∀ e, e ∈ out (do_preprepare k) s → ∃ ep o, e = SendMessageStr ep (proposal (uuid s) o) ∧
     operations s !! k = Some o.
Proof.
  unfold do_preprepare. rewrite post_bind, out_bind.
  destruct (quiet_common_message_setup k PBFT_MSG_PREPREPARE s) as [-> ->].
  unfold common_message_setup. rewrite res_bind, res_deref, (proj1 (quiet_deref k s)).
  destruct (operations s !! k) as [o|] eqn:E; [|split; [done|by intros ? ?%elem_of_nil]].
  rewrite res_ret. simpl. rewrite post_bind, out_bind. simpl.
  set (w := SerializeAsString _). destruct (broadcast_run w s) as [Hb Ho]. split; [done|].
  intros e [ep ->]%Ho. by exists ep, o.
Qed.

Lemma handle_request_proposes r json session s p :
  res get_primary s = Ok p → Messages.uuid p = uuid s →
  let s' := post (handle_request r json session) s in
  next_issued_sequence_number s' = add64 (next_issued_sequence_number s) 1 ∧
  is_Some (operations s' !! (view s, next_issued_sequence_number s, request_hash r)) ∧
  (∀ e, e ∈ out (handle_request r json session) s → ∃ ep o, e = SendMessageStr ep (proposal (uuid s) o) ∧
     operations s' !! (view s, next_issued_sequence_number s, request_hash r) = Some o).
Proof.
  intros Hp Hu s'. pose proof (res_is_primary s p Hp) as Hi. rewrite bool_decide_true in Hi by done.
  assert (∃ ps, res current_peers s = Ok ps) as [ps Hps].
  { unfold get_primary in Hp. apply res_bind_ok in Hp as (ps & ? & _). eauto. }
  pose proof (setup_request_operation_ok r session s ps Hps) as Hk.
  destruct (setup_request_operation_run r session s _ Hk) as (_ & Hop & Hn & Huu).
  set (k := (view s, next_issued_sequence_number s, request_hash r)) in *.
  set (s1 := post (setup_request_operation r session) s) in *. destruct (do_preprepare_run k s1) as [Hd Ho].
  assert (s' = s1 ∧ out (handle_request r json session) s =
          out (setup_request_operation r session) s ++ out (do_preprepare k) s1) as [-> ->].
  { unfold s', handle_request. rewrite post_bind, out_bind, Hi. destruct (quiet_is_primary s) as [-> ->]. simpl.
    rewrite post_bind, out_bind, Hk. fold s1 k. rewrite Hd. done. }
  split_and!; [done|done|]. rewrite (setup_request_operation_out r session s). simpl.
  intros e He. apply Ho in He as (ep & o & -> & Hin). exists ep, o. by rewrite Huu.
Qed.

Lemma guar_broadcast_new_configuration c : guar (broadcast_new_configuration c).
Proof.
  apply guar_bind; [apply guar_setup_request_operation|]. intros k. apply guar_do_preprepare.
Qed.

Lemma guar_handle_join_or_leave msg : guar (handle_join_or_leave msg).
Proof.
  unfold handle_join_or_leave. apply guar_bind; [apply guar_quiet; auto with guar|]. intros [|]; [|apply guar_ret].
  simpl. destruct (mm_peer_info msg) as [i|]; [|apply guar_ret].
  apply guar_bind; [apply guar_gets|]. intros [c|]; [|apply guar_undefined].
  destruct (match mm_type msg with PBFT_MMSG_JOIN => _ | _ => _ end) as [[|] config]; [|apply guar_ret].
  apply guar_bind; [apply guar_add_configuration|]. intros _. apply guar_broadcast_new_configuration.
Qed.

Lemma guar_handle_membership_message e : guar (handle_membership_message e).
Proof.
  unfold handle_membership_message. destruct (ParseFromString _) as [m|]; [|apply guar_ret].
  destruct (mm_peer_info m); [|apply guar_ret].
  destruct (mm_type m); [apply guar_ret|apply guar_handle_join_or_leave..].
Qed.

Lemma guar_handle_request r json session : guar (handle_request r json session).
Proof.
  unfold handle_request. apply guar_bind; [apply guar_quiet; auto with guar|]. intros [|]; simpl.
  - apply guar_bind; [apply guar_setup_request_operation|]. intros k. apply guar_do_preprepare.
  - apply guar_bind; [apply guar_quiet; auto with guar|]. intros p.
    apply guar_bind; [apply guar_lift|]. intros ep. by apply guar_emit.
Qed.

Lemma guar_handle_database_message json session : guar (handle_database_message json session).
Proof.
  unfold handle_database_message. apply guar_bind; [apply guar_lift|]. intros [|]; simpl; [|by apply guar_emit].
  apply guar_bind; [apply guar_lift|]. intros m. apply guar_bind; [apply guar_lift|]. intros b.
  destruct (ParseFromString _); [|by apply guar_emit].
  apply guar_bind; [apply guar_handle_request|]. intros _. by apply guar_emit.
Qed.

Lemma guar_flags f g : guar (modify (λ s, set_flags (f s) (g s) s)).
Proof.
  intros s. apply guar_modify_at. intros Hi. split; [|by apply step_frame].
  destruct Hi as [H1 H2 H3 H4 H5 H6 H7]. by split.
Qed.

Lemma guar_start : guar start.
Proof.
  unfold start. apply guar_bind; [apply guar_gets|]. intros [|]; [apply guar_ret|].
  apply guar_bind; [apply (guar_flags (λ _, true) audit_enabled)|]. intros _.
  do 5 (apply guar_bind; [by apply guar_emit|intros _]). by apply guar_emit.
Qed.

Lemma guar_execute_handler r n : (n < 2 ^ 64)%N → guar (execute_handler service_state_hash r n).
Proof.
  intros Hn. unfold execute_handler. apply guar_bind; [by apply guar_emit|]. intros _. apply guar_when.
  rewrite N.eqb_eq. intros Hmod. apply guar_checkpoint_reached_locally.
  assert (n ≠ 2 ^ 64 - 1)%N; [|lia]. intros ->. by vm_compute in Hmod.
Qed.

Lemma guar_handle_audit_heartbeat_timeout ec : guar (handle_audit_heartbeat_timeout ec).
Proof.
  unfold handle_audit_heartbeat_timeout. destruct ec; [apply guar_ret|].
  apply guar_bind; [apply guar_quiet; auto with guar|]. intros primary.
  do 3 (apply guar_bind; [apply guar_gets|intros ?]).
  apply guar_bind; [apply guar_when; intros _; apply guar_broadcast_audit|]. intros _. by apply guar_emit.
Qed.

Lemma guar_handle_failure : guar handle_failure.
Proof.
  unfold handle_failure, notify_audit_failure_detected. do 2 (apply guar_bind; [apply guar_gets|intros ?]).
  apply guar_when. intros _. apply guar_broadcast_audit.
Qed.

Lemma set_current_some h c : is_Some (current c) → is_Some (current (set_current h c).2).
Proof.
  unfold set_current. destruct (find_by_hash h c) as [e|] eqn:E; [|done]. intros _. unfold current. simpl.
  apply List.find_some in E as [Hin _].
  destruct (find_index e.1 (configs c)) eqn:Ef; [by eexists|].
  eapply List.find_none in Ef; [|exact Hin]. simpl in Ef. by rewrite N.eqb_refl in Ef.
Qed.

Lemma guar_move_to_new_configuration h : guar (move_to_new_configuration h).
Proof.
  unfold move_to_new_configuration. apply guar_bind; [apply guar_gets|]. intros [|]; [|apply guar_ret].
  apply guar_bind; [apply (guar_configurations (λ c, (set_current h c).2)); apply set_current_some|].
  intros _. apply guar_bind; [apply guar_remove_prior_to|]. intros _. apply guar_ret.
Qed.

(** ** Runs of a node *)

(** What the node is called with. *)
Inductive event :=
| Start
| Received (msg : bzn_envelope)
| Membership (msg : bzn_envelope)
| Database (json : Value) (session : session_id)
| Executed (req : pbft_request) (n : N)
| Heartbeat (ec : bool)
| Failure
| MoveTo (config_hash : hash_t)
| SetAudit (setting : bool).

Definition handle_event (e : event) : pbftM unit :=
  match e with
  | Start => start
  | Received msg => handle_bzn_message msg
  | Membership msg => handle_membership_message msg
  | Database json session => handle_database_message json session
  | Executed req n => execute_handler service_state_hash req n
  | Heartbeat ec => handle_audit_heartbeat_timeout ec
  | Failure => handle_failure
  | MoveTo h => move_to_new_configuration h;; mret tt
  | SetAudit b => set_audit_enabled b
  end.

(** Sequence numbers are [uint64_t]. *)
Definition event_ok (e : event) : Prop :=
  match e with Executed _ n => (n < 2 ^ 64)%N | _ => True end.

(** The state reached and the calls made; a handler that throws has made the
    changes up to there. *)
Fixpoint run (evs : list event) (s : pbft) : pbft * list effect :=
  match evs with
  | [] => (s, [])
  | e :: evs =>
      let '(s', es) := run evs (post (handle_event e) s) in (s', out (handle_event e) s ++ es)
  end.

Lemma guar_handle_event e : event_ok e → guar (handle_event e).
Proof.
  destruct e; simpl; intros Hok.
  - apply guar_start.
  - apply guar_handle_bzn_message.
  - apply guar_handle_membership_message.
  - apply guar_handle_database_message.
  - by apply guar_execute_handler.
  - apply guar_handle_audit_heartbeat_timeout.
  - apply guar_handle_failure.
  - apply guar_bind; [apply guar_move_to_new_configuration|]. intros _. apply guar_ret.
  - apply (guar_flags start_once (λ _, setting)).
Qed.

Lemma run_guarantee evs s :
  inv s → Forall event_ok evs → inv (run evs s).1 ∧ step s (run evs s).2 (run evs s).1.
Proof.
  intros Hi Hok. revert s Hi. induction Hok as [|e evs He _ IH]; intros s Hi; simpl; [by split; [|apply step_refl]|].
  destruct (guar_handle_event e He s Hi) as [Hi1 Hs1]. destruct (IH _ Hi1) as [Hi2 Hs2].
  destruct (run evs (post (handle_event e) s)) as [s' es]. split; [done|]. by eapply step_trans.
Qed.

Lemma initialize_configuration_current ps : is_Some (current (initialize_configuration ps).2).
Proof.
  unfold initialize_configuration. destruct (foldl _ _ ps) as [good c]. simpl.
  assert (has_hash (get_hash c) (1%N, (c, false)) = true ∧ has_hash (get_hash c) (1%N, (c, true)) = true) as [E1 E2]
    by (split; by apply bool_decide_eq_true).
  unfold enable. simpl. rewrite E1. unfold set_current, find_by_hash. simpl. rewrite E2. by exists c.
Qed.

Lemma node_new_inv ps u s : pbft.new ps u = Ok s → inv s.
Proof.
  unfold pbft.new. destruct (decide (ps = [])); [done|]. intros [= <-]. split; simpl; try done.
  apply initialize_configuration_current.
Qed.

End Props.
End pbft_props.

(** ** Claims *)

Section Claims.
Context {PB : Protobuf} {JS : Jsoncpp} {HS : StdHash} {BO : Boost}.
Context {MP : Message pbft_msg} {ME : Message bzn_envelope} {MA : Message audit_message}
  {MM : Message pbft_membership_msg} {MB : Message bzn_msg}.
Context (service_state_hash : N → hash_t).
Import pbft_operation pbft_config_store pbft pbft_props.

Definition is_vote (m : pbft_msg) : Prop := pm_type m = PBFT_MSG_PREPARE ∨ pm_type m = PBFT_MSG_COMMIT.

(** The operations that were handed to the service, in order. *)
Definition applied_operations (es : list effect) : list pbft_operation :=
  omap (λ e, match e with PostApplyOperation op => Some op | _ => None end) es.

Lemma posted_applied es : posted es = get_operation_key <$> applied_operations es.
Proof. induction es as [|[] es IH]; simpl; try done. by f_equal. Qed.

Lemma elem_applied es op : op ∈ applied_operations es ↔ PostApplyOperation op ∈ es.
Proof.
  unfold applied_operations. rewrite list_elem_of_omap. split.
  - intros ([] & Hin & E); simplify_eq. done.
  - intros Hin. by exists (PostApplyOperation op).
Qed.

(** C5: a node never votes for two requests.  Whatever messages, requests and
    timeouts a node handles, in whatever order, what it sends to its peers as
    PBFT messages are its own envelopes, and the request that a prepare or
    commit vote of its carries is a function of view and sequence number: no two
    votes for the same view and sequence number are for different requests. *)
Theorem pbft_never_votes_twice (ps : list peer_address_t) (u : uuid_t) (s0 : pbft) (evs : list event) :
  pbft.new ps u = Ok s0 → Forall event_ok evs →
  ∃ choice : gmap log_key_t hash_t, ∀ ep w,
    SendMessageStr ep w ∈ (run service_state_hash evs s0).2 →
    (∃ a, w = wrap_audit_message a) ∨
    ∃ m, w = SerializeAsString (Envelope u "" kPbft (SerializeAsString m)) ∧
      (is_vote m → choice !! (pm_view m, pm_sequence m) = Some (request_hash (get_request m))).
Proof.
  intros Hnew Hok. destruct (run_guarantee service_state_hash evs s0 (node_new_inv _ _ _ Hnew) Hok) as [_ Hs].
  assert (uuid s0 = u) as Hu.
  { unfold pbft.new in Hnew. destruct (decide (ps = [])); [done|]. by injection Hnew as <-. }
  exists (snd <$> accepted_preprepares (run service_state_hash evs s0).1). intros ep w Hin.
  destruct (step_sent _ _ _ _ Hs ep w Hin) as [?|(m & -> & Hv)]; [by left|]. right. exists m.
  rewrite (step_uuid _ _ _ _ Hs), Hu. split; [done|]. intros Hvote. rewrite lookup_fmap, (proj1 Hv Hvote). done.
Qed.

(** What the service is given in a run: committed operations of the first view,
    with distinct positive sequence numbers. *)
Lemma run_applied ps u s0 evs :
  pbft.new ps u = Ok s0 → Forall event_ok evs →
  let ops := applied_operations (run service_state_hash evs s0).2 in
  NoDup (sequence <$> ops) ∧
  Forall (λ op, is_committed op = true ∧ pbft_operation.view op = 1%N ∧ (1 ≤ sequence op)%N) ops.
Proof.
  intros Hnew Hok ops. destruct (run_guarantee service_state_hash evs s0 (node_new_inv _ _ _ Hnew) Hok) as [_ Hs].
  assert (view s0 = 1%N) as Hv.
  { unfold pbft.new in Hnew. destruct (decide (ps = [])); [done|]. by injection Hnew as <-. }
  assert (∀ op, op ∈ ops → get_operation_key op ∈ posted (run service_state_hash evs s0).2) as Hin.
  { intros op Hop. rewrite posted_applied. apply list_elem_of_fmap. eauto. }
  split.
  - pose proof (step_posted_once _ _ _ _ Hs) as Hnd. rewrite posted_applied in Hnd. fold ops in Hnd.
    apply NoDup_fmap_1 in Hnd as Hnd'. apply NoDup_fmap_2_strong; [|done].
    intros x y Hx Hy E. apply Hin in Hx as Hpx. apply Hin in Hy as Hpy.
    apply (step_posted _ _ _ _ Hs) in Hpx as (Hvx & _ & _ & Hax).
    apply (step_posted _ _ _ _ Hs) in Hpy as (Hvy & _ & _ & Hay).
    assert ((get_operation_key x).1 = (get_operation_key y).1) as Ek.
    { unfold get_operation_key in *. simpl in *. congruence. }
    assert (get_operation_key x = get_operation_key y) as Ekey by (rewrite Ek in Hax; congruence).
    apply list_elem_of_lookup in Hx as [i Hi]. apply list_elem_of_lookup in Hy as [j Hj].
    assert (i = j) as ->; [|congruence].
    eapply (NoDup_lookup _ _ _ _ Hnd); rewrite list_lookup_fmap; [by rewrite Hi|by rewrite Hj; simpl; rewrite Ekey].
  - apply Forall_forall. intros op Hop. apply Hin in Hop as Hp.
    apply (step_posted _ _ _ _ Hs) in Hp as (Hvx & Hn & _ & _).
    split; [apply (step_committed _ _ _ _ Hs), elem_applied, Hop|]. split; [simpl in Hvx; congruence|].
    destruct (decide (1 ≤ sequence op)%N); [done|]. destruct Hn. right. simpl. lia.
Qed.

(** C6: each sequence number is applied at most once.  In every run of a node
    the operations it hands to the service are committed, and no two of them
    have the same sequence number: what [pbft_service_base.hpp] asks of the
    caller of [apply_operation]. *)
Theorem pbft_applies_each_sequence_once (ps : list peer_address_t) (u : uuid_t) (s0 : pbft) (evs : list event) :
  pbft.new ps u = Ok s0 → Forall event_ok evs →
  let ops := applied_operations (run service_state_hash evs s0).2 in
  NoDup (sequence <$> ops) ∧ Forall (λ op, is_committed op = true) ops.
Proof.
  intros Hnew Hok ops. destruct (run_applied ps u s0 evs Hnew Hok) as [Hnd Hf]. split; [done|].
  eapply Forall_impl; [done|]. naive_solver.
Qed.

(** C7: consensus drives the database.  The operations a node hands over in a
    run are accepted by its database service without an exception, in the order
    they are handed over; the service has then executed the requests with the
    sequence numbers 1 to k, in this order, where k+1 is the first that has not
    been committed. *)
Theorem pbft_drives_database `{PM : Message pbft_request, HPM : !MessageLaws pbft_request}
    (ps : list peer_address_t) (u : uuid_t) (s0 : pbft) (evs : list event) (alive : session_id → bool) :
  pbft.new ps u = Ok s0 → Forall event_ok evs →
  let ops := applied_operations (run service_state_hash evs s0).2 in
  Forall database_pbft_service.storable ops →
  ∃ st0 st es, database_pbft_service.construct u mem_storage.empty mem_storage.empty = (Ok tt, st0, []) ∧
    database_pbft_service.run u ((λ op, (alive, op)) <$> ops) st0 = (Ok tt, st, es) ∧
    let rs := database_pbft_service.executed es in
    (∀ i r n, rs !! i = Some (r, n) → n = (1 + N.of_nat i)%N ∧ ∃ op, op ∈ ops ∧ sequence op = n ∧ request op = r) ∧
    (∀ op, op ∈ ops → sequence op ≠ (1 + lengthN rs)%N).
Proof.
  intros Hnew Hok ops Hst. destruct (run_applied ps u s0 evs Hnew Hok) as [Hnd Hf]. fold ops in Hnd, Hf.
  assert (proper_operations ((λ op, (alive, op)) <$> ops)) as Hproper.
  { split.
    - apply Forall_fmap. rewrite Forall_forall in *. intros op Hop. split; [by apply Hst|]. by apply Hf.
    - by rewrite <-list_fmap_compose. }
  destruct (run_from_fresh u (λ _, True) (λ _, True) mem_storage.represents _ mem_storage.empty mem_storage.empty
    I (mem_storage_fresh u) Hproper) as (st0 & st & es & x & Hc & Hrun & _ & Hi & _).
  exists st0, st, es. split; [done|]. split; [done|]. simpl. split.
  - intros i r n Hn. destruct (in_order_executor.run_executed _ _ _ Hi _ _ _ Hn) as [-> Ha]. split; [done|].
    apply database_pbft_service.applied_lookup in Ha as [Ha|(ao & Hin & ? & ?)]; [by rewrite lookup_empty in Ha|].
    apply list_elem_of_fmap in Hin as (op & -> & Hin). by exists op.
  - intros op Hin E. pose proof (in_order_executor.run_next _ _ _ Hi) as Hn.
    pose proof (in_order_executor.run_idle _ _ _ Hi) as Hid. unfold in_order_executor.idle in Hid.
    rewrite (in_order_executor.run_waiting _ _ _ Hi), decide_False, Hn, <-E in Hid by lia.
    rewrite (database_pbft_service.applied_elem _ ∅ (alive, op)) in Hid; [done| |apply Hproper].
    apply list_elem_of_fmap. by exists op.
Qed.

(** C9: the window of sequence numbers.  In every run the low water mark is the
    sequence number of the stable checkpoint, the high one is 200 above it, the
    stable checkpoint never moves back, and there always is a current
    configuration. *)
Theorem pbft_window (ps : list peer_address_t) (u : uuid_t) (s0 : pbft) (evs evs' : list event) :
  pbft.new ps u = Ok s0 → Forall event_ok evs → Forall event_ok evs' →
  let s1 := (run service_state_hash evs s0).1 in
  let s2 := (run service_state_hash evs' s1).1 in
  low_water_mark s2 = (stable_checkpoint s2).1 ∧
  (((stable_checkpoint s2).1 + 200 < 2 ^ 64)%N → high_water_mark s2 = (low_water_mark s2 + 200)%N) ∧
  ((stable_checkpoint s1).1 ≤ (stable_checkpoint s2).1)%N ∧
  accepted_preprepares s1 ⊆ accepted_preprepares s2 ∧
  is_Some (current (configurations s2)).
Proof.
  intros Hnew Hok Hok' s1 s2.
  destruct (run_guarantee service_state_hash evs s0 (node_new_inv _ _ _ Hnew) Hok) as [Hi1 _].
  destruct (run_guarantee service_state_hash evs' s1 Hi1 Hok') as [Hi2 Hs2].
  split_and!; [apply Hi2| |apply Hs2|apply Hs2|apply Hi2].
  intros Hb. unfold s2. rewrite (inv_low _ Hi2). by apply (inv_high _ Hi2).
Qed.

(** when a checkpoint becomes stable.  [maybe_stabilize_checkpoint] moves
    the stable checkpoint exactly when the node has reached the checkpoint itself
    and as many senders as [quorum_size] have sent a message for it; it then
    moves strictly forward, keeps their messages as the proof, and nothing that
    the checkpoint covers is left behind. *)
Theorem checkpoint_stabilization (s : pbft) (cp : checkpoint_t) (q : N) :
  inv s → res quorum_size s = Ok q →
  let s' := post (maybe_stabilize_checkpoint cp) s in
  let proofs := default ∅ (unstable_checkpoint_proofs s !! cp) in
  (stable_checkpoint s' ≠ stable_checkpoint s ↔
     cp ∈ local_unstable_checkpoints s ∧ (q ≤ N.of_nat (size proofs))%N) ∧
  (stable_checkpoint s' ≠ stable_checkpoint s →
     stable_checkpoint s' = cp ∧ ((stable_checkpoint s).1 < cp.1)%N ∧ stable_checkpoint_proof s' = proofs ∧
     (∀ k op, operations s' !! k = Some op → (cp.1 < sequence op)%N) ∧
     (∀ c, c ∈ local_unstable_checkpoints s' → (cp.1 < c.1)%N) ∧
     (∀ c, is_Some (unstable_checkpoint_proofs s' !! c) → (cp.1 < c.1)%N)).
Proof.
  intros Hi Hq s' proofs.
  destruct (maybe_stabilize_run cp s q Hq) as [(Hn & Hs')|(Hin & Hge & Hs')]; fold proofs in Hn || fold proofs in Hge, Hs'.
  - assert (stable_checkpoint s' = stable_checkpoint s) as E by done. split; [|by rewrite E].
    split; [by rewrite E|]. intros [? ?]. destruct Hn; [done|lia].
  - pose proof (inv_local _ Hi _ Hin) as Hb.
    assert ((stable_checkpoint s).1 < cp.1)%N as Hlt.
    { unfold proofs in Hge. apply (quorum_positive s q) in Hq.
      destruct (unstable_checkpoint_proofs s !! cp) as [p|] eqn:E; simpl in Hge.
      - apply (inv_proofs _ Hi _ _ E). intros ->. rewrite map_size_empty in Hge. lia.
      - rewrite map_size_empty in Hge. lia. }
    fold s' in Hs'. rewrite Hs'. simpl. split.
    + split; [done|]. intros _ E. rewrite E in Hlt. lia.
    + intros _. split_and!; try done.
      * intros k op [_ Hop]%map_lookup_filter_Some. simpl in Hop. lia.
      * intros c [Hc _]%elem_of_filter. by apply before_upper_bound_le in Hc.
      * intros c [p [_ Hc]%map_lookup_filter_Some]. by apply before_upper_bound_le in Hc.
Qed.

(** client requests.  The primary gives a request the next sequence number
    and counts it up, files the operation, and sends nothing but the preprepare
    for it; any other node changes nothing and forwards the client's message to
    the primary. *)
Theorem request_is_proposed_or_forwarded (r : pbft_request) (json : Value) (session : option session_id)
    (s : pbft) (p : peer_address_t) (ep : endpoint) :
  res get_primary s = Ok p → make_endpoint p = Ok ep →
  let s' := post (handle_request r json session) s in
  (Messages.uuid p ≠ uuid s → handle_request r json session s = (Ok tt, s, [SendMessage ep json])) ∧
  (Messages.uuid p = uuid s →
     next_issued_sequence_number s' = add64 (next_issued_sequence_number s) 1 ∧
     is_Some (operations s' !! (view s, next_issued_sequence_number s, request_hash r)) ∧
     (∀ e, e ∈ out (handle_request r json session) s → ∃ ep' o, e = SendMessageStr ep' (proposal (uuid s) o) ∧
        operations s' !! (view s, next_issued_sequence_number s, request_hash r) = Some o)).
Proof.
  intros Hp Hep s'. split; intros Hu.
  - apply handle_request_forwards with (p := p); done.
  - apply handle_request_proposes with (p := p); done.
Qed.

End Claims.

(** *** Examples: a swarm of one peer that orders one request *)

Definition sample_boost : Boost := {|
  address_v4_from_string _ := Some 1%N;
  base64_encode s := s;
  base64_decode s := s
|}.
Definition silent_message (A : Type) : Message A := {| SerializeAsString _ := ""; ParseFromString _ := None |}.
Definition sample_pbft_message : Message pbft_msg := countable_message pbft_msg.
Definition sample_text : Protobuf := {| ShortDebugString := req_client |}.

Definition single : peer_address_t := Peer "127.0.0.1" 1 2 "n" "u".

Definition sample_node : pbft.pbft :=
  match pbft.new (HS := json_tree.tree_hash) (JS := json_tree.tree_json) [single] "u" with
  | Ok s => s
  | _ => pbft.Pbft 0 0 0 0 "" ∅ ∅ false false (0%N, "") ∅ ∅ ∅ pbft_config_store.new
  end.

Lemma sample_node_new :
  pbft.new (HS := json_tree.tree_hash) (JS := json_tree.tree_json) [single] "u" = Ok sample_node.
Proof. reflexivity. Defined.

Definition sample_event (t : pbft_msg_type) : pbft_props.event (JS := json_tree.tree_json) :=
  pbft_props.Received (Envelope "u" "" kPbft (SerializeAsString (Message := sample_pbft_message)
    (PbftMsg t 1 1 (Some (PbftRequest PBFT_REQ_DATABASE ReqNotSet 0 "c")) ""))).

Definition sample_events : list (pbft_props.event (JS := json_tree.tree_json)) :=
  [sample_event PBFT_MSG_COMMIT; sample_event PBFT_MSG_PREPARE; sample_event PBFT_MSG_PREPREPARE].

Lemma sample_events_ok : Forall (pbft_props.event_ok (JS := json_tree.tree_json)) sample_events.
Proof. repeat constructor. Defined.

Definition sample_run : pbft.pbft * list (pbft.effect (JS := json_tree.tree_json)) :=
  pbft_props.run (PB := sample_text) (JS := json_tree.tree_json) (HS := json_tree.tree_hash) (BO := sample_boost)
    (MP := sample_pbft_message) (ME := silent_message _) (MA := silent_message _) (MM := silent_message _)
    (MB := silent_message _) (λ _, "") sample_events sample_node.

Example pbft_never_votes_twice_witness :
  ∃ choice : gmap log_key_t hash_t, ∀ ep w, pbft.SendMessageStr ep w ∈ sample_run.2 →
    (∃ a, w = pbft.wrap_audit_message (BO := sample_boost) (MA := silent_message _) a) ∨
    ∃ m, w = SerializeAsString (Message := silent_message _)
               (Envelope "u" "" kPbft (SerializeAsString (Message := sample_pbft_message) m)) ∧
      (is_vote m → choice !! (pm_view m, pm_sequence m) = Some (@pbft_operation.request_hash sample_text (get_request m))).
Proof.
  exact (pbft_never_votes_twice (PB := sample_text) (BO := sample_boost)
    (MP := sample_pbft_message) (ME := silent_message _) (MA := silent_message _) (MM := silent_message _)
    (MB := silent_message _) (λ _, "") [single] "u" sample_node sample_events sample_node_new sample_events_ok).
Defined.

Example pbft_applies_each_sequence_once_witness :
  NoDup (pbft_operation.sequence <$> applied_operations sample_run.2) ∧
  pbft_operation.sequence <$> applied_operations sample_run.2 = [1%N].
Proof.
  split; [|vm_compute; reflexivity].
  apply (pbft_applies_each_sequence_once (PB := sample_text) (BO := sample_boost)
    (MP := sample_pbft_message) (ME := silent_message _) (MA := silent_message _) (MM := silent_message _)
    (MB := silent_message _) (λ _, "") [single] "u" sample_node sample_events sample_node_new sample_events_ok).
Defined.

Example pbft_drives_database_witness :
  ∃ st0 st es, database_pbft_service.construct "u" mem_storage.empty mem_storage.empty = (Ok tt, st0, []) ∧
    database_pbft_service.run (PM := sample_codec) "u" ((λ op, (λ _, true, op)) <$> applied_operations sample_run.2) st0
      = (Ok tt, st, es).
Proof.
  destruct (pbft_drives_database (PB := sample_text) (BO := sample_boost)
    (MP := sample_pbft_message) (ME := silent_message _) (MA := silent_message _) (MM := silent_message _)
    (MB := silent_message _) (λ _, "") (PM := sample_codec) (HPM := countable_message_laws _)
    [single] "u" sample_node sample_events (λ _, true) sample_node_new sample_events_ok)
    as (st0 & st & es & Hc & Hr & _).
  - apply Forall_forall. intros op Hop.
    assert (applied_operations sample_run.2 = [default (sample_operation 1 "" "") (head (applied_operations sample_run.2))])
      as E by (vm_compute; reflexivity).
    change (op ∈ applied_operations sample_run.2) in Hop. rewrite E in Hop.
    apply list_elem_of_singleton in Hop as ->. split; [vm_compute; reflexivity|].
    split; [vm_compute; reflexivity|].
    apply N.leb_le. vm_compute. reflexivity.
  - exists st0, st, es. split; [exact Hc|exact Hr].
Defined.

Example pbft_window_witness :
  pbft.low_water_mark (pbft_props.run (PB := sample_text) (HS := json_tree.tree_hash) (BO := sample_boost)
    (MP := sample_pbft_message) (ME := silent_message _) (MA := silent_message _) (MM := silent_message _)
    (MB := silent_message _) (λ _, "") [] sample_run.1).1 = 0%N.
Proof.
  refine (eq_trans (proj1 (pbft_window (PB := sample_text) (HS := json_tree.tree_hash) (BO := sample_boost)
    (MP := sample_pbft_message) (ME := silent_message _) (MA := silent_message _) (MM := silent_message _)
    (MB := silent_message _) (λ _, "") [single] "u" sample_node sample_events [] sample_node_new sample_events_ok
    (Forall_nil_2 _))) _).
  vm_compute. reflexivity.
Defined.

Example checkpoint_stabilization_witness :
  let s := (pbft.set_local {[ (100%N, "") ]} (pbft.set_proofs {[ (100%N, "") := {[ "u" := "" ]} ]} sample_node)) in
  pbft.stable_checkpoint (post (pbft.maybe_stabilize_checkpoint (JS := json_tree.tree_json) (100%N, "")) s) = (100%N, "").
Proof.
  intros s. assert (pbft_props.inv (PB := sample_text) s) as Hi.
  { destruct (pbft_props.node_new_inv (PB := sample_text) _ _ _ sample_node_new) as [H1 H2 H3 H4 H5 H6 H7].
    split; try assumption.
    - intros cp p. unfold s. simpl. rewrite lookup_singleton_Some. intros [<- _] _. vm_compute. reflexivity.
    - intros cp. unfold s. simpl. rewrite elem_of_singleton. intros ->. vm_compute. reflexivity. }
  destruct (checkpoint_stabilization (PB := sample_text) (JS := json_tree.tree_json) s (100%N, "") 1 Hi) as [Hiff Hpost].
  - vm_compute. reflexivity.
  - apply Hpost, Hiff. split; [by apply (bool_decide_unpack _)|]. vm_compute. discriminate.
Defined.

Example request_is_proposed_or_forwarded_witness :
  pbft.next_issued_sequence_number
    (post (pbft.handle_request (PB := sample_text) (JS := json_tree.tree_json) (BO := sample_boost)
             (MP := sample_pbft_message) (ME := silent_message _) default_request json_tree.Null None) sample_node) = 2%N.
Proof.
  destruct (request_is_proposed_or_forwarded (PB := sample_text) (JS := json_tree.tree_json) (BO := sample_boost)
    (MP := sample_pbft_message) (ME := silent_message _) default_request json_tree.Null None sample_node single
    (Endpoint 1 1)) as [_ Hp].
  - vm_compute. reflexivity.
  - reflexivity.
  - apply Hp. reflexivity.
Defined.
