(* ===== verification/PbftVotes.v ===== *)
(** * The votes that reach a PBFT node

    What a node of [Pbft] holds is backed by envelopes that were delivered to it:
    the votes of its operations, the proofs of its checkpoints.  The facts about
    one node that a swarm of them ([PbftSwarm]) is about. *)

From S2P Require Import Prelude Messages Storage Json Crud PbftOperation PbftConfig PbftService Pbft PbftProps.

(** ** Where the votes of an operation come from *)
Module pbft_votes.
Import pbft_operation pbft_configuration pbft_config_store pbft.

Section Votes.
Context {PB : Protobuf} {JS : Jsoncpp} {HS : StdHash} {BO : Boost}.
Context {MP : Message pbft_msg} {ME : Message bzn_envelope} {MA : Message audit_message}
  {MM : Message pbft_membership_msg} {MB : Message bzn_msg}.
Context (service_state_hash : N → hash_t).

(** The peers of the configuration in force and the envelopes that were
    delivered. *)
Context (ps : list peer_address_t) (heard : bzn_envelope → Prop).

(** An envelope of [u] was delivered with a message of type [t] for [k]. *)
Definition voted_for (t : pbft_msg_type) (k : operation_key_t) (u : uuid_t) : Prop :=
  ∃ e m, heard e ∧ sender e = u ∧ ParseFromString (payload_of kPbft e) = Some m ∧ pm_type m = t ∧
    (pm_view m, pm_sequence m, request_hash (get_request m)) = k.

(** The operation at [k] was made for these peers and counts delivered votes. *)
Record backed (k : operation_key_t) (op : pbft_operation) : Prop := {
  backed_key : get_operation_key op = k;
  backed_peers : pbft_operation.peers op = ps;
  backed_prepares u : u ∈ prepares_seen op → voted_for PBFT_MSG_PREPARE k u;
  backed_commits u : u ∈ commits_seen op → voted_for PBFT_MSG_COMMIT k u
}.

(** An envelope of [u] was delivered that vouches for the checkpoint. *)
Definition vouched (cp : checkpoint_t) (u : uuid_t) : Prop :=
  (0 < cp.1)%N ∧
  ∃ e m, heard e ∧ sender e = u ∧ ParseFromString (payload_of kPbft e) = Some m ∧ pm_type m = PBFT_MSG_CHECKPOINT ∧
    (pm_sequence m, pm_state_hash m) = cp.

(** A quorum has vouched for the checkpoint, which is one of this node's. *)
Definition settled (cp : checkpoint_t) : Prop :=
  cp.2 = service_state_hash cp.1 ∧
  ∃ Q : gset uuid_t, (1 + 2 * (lengthN ps / 3) ≤ N.of_nat (size Q))%N ∧ ∀ u, u ∈ Q → vouched cp u.

Record votes_heard (s : pbft) : Prop := {
  heard_current : get_peers <$> current (configurations s) = Some ps;
  heard_operation k op : operations s !! k = Some op → backed k op;
  heard_proofs cp proofs u : unstable_checkpoint_proofs s !! cp = Some proofs → u ∈ dom proofs → vouched cp u;
  heard_local cp : cp ∈ local_unstable_checkpoints s → cp.2 = service_state_hash cp.1;
  heard_stable : stable_checkpoint s = (0%N, INITIAL_CHECKPOINT_HASH) ∨ settled (stable_checkpoint s)
}.

(** What is handed to the service is backed. *)
Definition posts_backed (e : effect) : Prop :=
  match e with PostApplyOperation op => backed (get_operation_key op) op | _ => True end.

Abbreviation keeps := (maintains votes_heard posts_backed).

(** *** Changes *)

Lemma frame_votes s s' :
  configurations s' = configurations s → operations s' = operations s →
  unstable_checkpoint_proofs s' = unstable_checkpoint_proofs s →
  local_unstable_checkpoints s' = local_unstable_checkpoints s → stable_checkpoint s' = stable_checkpoint s →
  votes_heard s → votes_heard s'.
Proof. intros Hc Ho Hp Hl Hs [H1 H2 H3 H4 H5]. split; rewrite ?Hc, ?Ho, ?Hp, ?Hl, ?Hs; done. Qed.

Lemma set_configurations_votes c s :
  current c = current (configurations s) → votes_heard s → votes_heard (set_configurations c s).
Proof. intros Hc [H1 H2 H3 H4 H5]. split; [simpl; by rewrite Hc|done..]. Qed.

Lemma alter_votes k f s :
  (∀ o, backed k o → backed k (f o)) → votes_heard s → votes_heard (set_operations (alter f k (operations s)) s).
Proof.
  intros Hf [H1 H2 H3 H4 H5]. split; [done| |done..]. simpl. intros k' o. rewrite lookup_alter_Some.
  intros [(<- & o' & Ho & ->)|[_ ?]]; auto.
Qed.

Lemma keeps_update_operation k f : (∀ o, backed k o → backed k (f o)) → keeps (update_operation k f).
Proof. intros Hf. apply maintains_modify. intros s. by apply alter_votes. Qed.

Lemma backed_new v n r : backed (v, n, request_hash r) (pbft_operation.new v n r ps).
Proof. split; [done..| |]; intros u; simpl; set_solver. Qed.

Lemma backed_grows k o o' :
  get_operation_key o' = get_operation_key o → pbft_operation.peers o' = pbft_operation.peers o →
  prepares_seen o' = prepares_seen o → commits_seen o' = commits_seen o → backed k o → backed k o'.
Proof. intros E1 E2 E3 E4 [H1 H2 H3 H4]. split; rewrite ?E1, ?E2, ?E3, ?E4; done. Qed.

(** *** Methods *)

Lemma keeps_quiet {A} (m : M pbft effect A) : pbft_props.quiet m → keeps m.
Proof. intros Hq s Hi. destruct (Hq s) as [-> ->]. by split; [|constructor]. Qed.

Lemma keeps_current_peers : keeps current_peers.
Proof. apply keeps_quiet, pbft_props.quiet_current_peers. Qed.
Lemma keeps_get_primary : keeps get_primary.
Proof. apply keeps_quiet, pbft_props.quiet_get_primary. Qed.
Lemma keeps_is_primary : keeps is_primary.
Proof. apply keeps_quiet, pbft_props.quiet_is_primary. Qed.
Lemma keeps_quorum_size : keeps quorum_size.
Proof. apply keeps_quiet, pbft_props.quiet_quorum_size. Qed.
Lemma keeps_deref k : keeps (deref k).
Proof. apply keeps_quiet, pbft_props.quiet_deref. Qed.
Lemma keeps_wrap_message m : keeps (wrap_message m).
Proof. apply keeps_quiet, pbft_props.quiet_wrap_message. Qed.
Lemma keeps_common_message_setup k t : keeps (common_message_setup k t).
Proof. apply keeps_quiet, pbft_props.quiet_common_message_setup. Qed.
Lemma keeps_read_configuration c : keeps (read_configuration c).
Proof. apply keeps_quiet, pbft_props.quiet_read_configuration. Qed.

#[local] Hint Resolve keeps_current_peers keeps_get_primary keeps_is_primary keeps_quorum_size keeps_deref
  keeps_wrap_message keeps_common_message_setup keeps_read_configuration : maintains.

(** A change of neither operations nor configurations, a call of no concern. *)
Ltac frame :=
  match goal with
  | |- posts_backed _ => exact I
  | H : votes_heard ?s |- votes_heard ?s' => exact (frame_votes s s' eq_refl eq_refl eq_refl eq_refl eq_refl H)
  end.

Lemma keeps_broadcast w : keeps (broadcast w).
Proof. unfold broadcast. maintains_steps. done. Qed.

Lemma keeps_find_operation v n r : keeps (find_operation v n r).
Proof.
  intros s. unfold find_operation. apply maintains_bind_at; [by apply maintains_query|]. intros [o|] _.
  { by apply maintains_query. }
  apply maintains_bind_at; [apply keeps_current_peers|]. intros qs Hqs.
  rewrite post_gets, (proj1 (pbft_props.quiet_current_peers s)) in *. rewrite pbft_props.res_current_peers in Hqs.
  apply maintains_bind_at; [|intros [] _; by apply maintains_query].
  intros [H1 H2 H3 H4 H5]. rewrite post_modify, out_modify. split; [|constructor]. split; [done| |done..]. simpl. intros k o.
  assert (qs = ps) as ->.
  { destruct (current (configurations s)); [|done]. simpl in *. congruence. }
  rewrite lookup_insert_Some. intros [[<- <-]|[_ ?]]; [apply backed_new|auto].
Qed.

Lemma keeps_find_operation_msg m : keeps (find_operation_msg m).
Proof. apply keeps_find_operation. Qed.

Lemma keeps_call_operation k g :
  (∀ o o', g o = Ok o' → ∃ st, o' = set_state st o) → keeps (call_operation k g).
Proof.
  intros Hg s. unfold call_operation. apply maintains_bind_at; [apply keeps_deref|]. intros o Ho.
  rewrite (proj1 (pbft_props.quiet_deref k s)), pbft_props.res_deref in *.
  apply maintains_bind_at; [by apply maintains_query|]. intros o' Ho'. rewrite res_lift in Ho'.
  apply Hg in Ho' as [st ->]. intros Hi. rewrite post_lift. split; [|constructor].
  destruct (operations s !! k) as [o1|] eqn:E; [|done]. injection Ho as ->.
  pose proof (heard_operation _ Hi _ _ E) as Hb. destruct Hi as [H1 H2 H3 H4 H5]. split; [done| |done..]. simpl.
  intros k' o2. rewrite lookup_alter_Some. intros [(<- & o3 & _ & ->)|[_ ?]]; [|auto].
  by apply (backed_grows _ o).
Qed.

Lemma begin_commit_state o o' : begin_commit_phase o = Ok o' → ∃ st, o' = set_state st o.
Proof. intros (_ & _ & ->)%begin_commit_phase_spec. by eexists. Qed.
Lemma end_commit_state o o' : end_commit_phase o = Ok o' → ∃ st, o' = set_state st o.
Proof. intros (_ & _ & ->)%end_commit_phase_spec. by eexists. Qed.

Lemma keeps_begin_commit k : keeps (call_operation k begin_commit_phase).
Proof. apply keeps_call_operation, begin_commit_state. Qed.
Lemma keeps_end_commit_phase k : keeps (call_operation k end_commit_phase).
Proof. apply keeps_call_operation, end_commit_state. Qed.

Lemma keeps_add_configuration c : keeps (add_configuration c).
Proof.
  apply maintains_modify. intros s [H1 H2 H3 H4 H5]. split; [|done..]. simpl.
  destruct (current (configurations s)) as [d|] eqn:E; [|done]. by rewrite (add_current _ _ _ E).
Qed.
Lemma keeps_enable h : keeps (modify (λ s, set_configurations (enable h true (configurations s)).2 s)).
Proof. apply maintains_modify. intros s. apply set_configurations_votes, enable_current. Qed.
Lemma keeps_remove_prior_to h :
  keeps (modify (λ s, set_configurations (remove_prior_to h (configurations s)).2 s)).
Proof. apply maintains_modify. intros s. apply set_configurations_votes, remove_prior_to_current. Qed.

#[local] Hint Resolve keeps_broadcast keeps_find_operation keeps_find_operation_msg keeps_begin_commit
  keeps_end_commit_phase keeps_add_configuration keeps_enable keeps_remove_prior_to : maintains.

Lemma keeps_do_preprepare k : keeps (do_preprepare k).
Proof. unfold do_preprepare. maintains_steps. Qed.
Lemma keeps_do_preprepared k : keeps (do_preprepared k).
Proof. unfold do_preprepared. maintains_steps. Qed.
Lemma keeps_do_prepared k : keeps (do_prepared k).
Proof. unfold do_prepared. maintains_steps. Qed.
Lemma keeps_end_commit k : keeps (end_commit k).
Proof. unfold end_commit. maintains_steps. Qed.

(** The operation [end_commit] returns is in the map. *)
Lemma end_commit_filed k s o :
  res (end_commit k) s = Ok o → ∃ k', operations (post (end_commit k) s) !! k' = Some o.
Proof.
  unfold end_commit. intros Hr.
  do 7 (apply finished_bind in Hr as (? & _ & Hr & ->)). set (s' := post _ _) in *. clearbody s'.
  rewrite (proj1 (pbft_props.quiet_deref _ _)), pbft_props.res_deref in *.
  destruct (operations s' !! _) as [o'|] eqn:E; [|done]. injection Hr as ->. eauto.
Qed.

Lemma keeps_do_committed k : keeps (do_committed k).
Proof.
  intros s. apply maintains_bind_at; [apply keeps_end_commit|]. intros o Ho Hi. split; [done|].
  apply Forall_singleton. apply end_commit_filed in Ho as [k' Ho].
  pose proof (heard_operation _ Hi _ _ Ho) as Hb. simpl. by rewrite (backed_key _ _ Hb).
Qed.

#[local] Hint Resolve keeps_do_preprepare keeps_do_preprepared keeps_do_prepared keeps_do_committed : maintains.

Lemma keeps_maybe_advance k : keeps (maybe_advance_operation_state k).
Proof. unfold maybe_advance_operation_state. maintains_steps. Qed.

(** *** Handlers *)

Lemma backed_prepare k e m o :
  heard e → ParseFromString (payload_of kPbft e) = Some m → pm_type m = PBFT_MSG_PREPARE →
  (pm_view m, pm_sequence m, request_hash (get_request m)) = k → backed k o → backed k (record_prepare e o).
Proof.
  intros He Hm Ht Hk [H1 H2 H3 H4]. split; [done..| |done]. intros u.
  change (prepares_seen (record_prepare e o)) with ({[ sender e ]} ∪ prepares_seen o).
  rewrite elem_of_union, elem_of_singleton. intros [->|?]; [|by auto]. by exists e, m.
Qed.

Lemma backed_commit k e m o :
  heard e → ParseFromString (payload_of kPbft e) = Some m → pm_type m = PBFT_MSG_COMMIT →
  (pm_view m, pm_sequence m, request_hash (get_request m)) = k → backed k o → backed k (record_commit e o).
Proof.
  intros He Hm Ht Hk [H1 H2 H3 H4]. split; [done..|]. intros u.
  change (commits_seen (record_commit e o)) with ({[ sender e ]} ∪ commits_seen o).
  rewrite elem_of_union, elem_of_singleton. intros [->|?]; [|by auto]. by exists e, m.
Qed.

(** Recording a vote for the operation of a message. *)
Lemma keeps_vote m f :
  (∀ k o, (pm_view m, pm_sequence m, request_hash (get_request m)) = k → backed k o → backed k (f o)) →
  keeps (op ← find_operation_msg m; update_operation op f;; maybe_advance_operation_state op).
Proof.
  intros Hf s. apply maintains_bind_at; [apply keeps_find_operation_msg|]. intros k Hk.
  apply pbft_props.find_operation_res in Hk as [-> _]. set (s' := post _ s). generalize s'. clear s'.
  apply maintains_bind; [|intros _; apply keeps_maybe_advance]. apply keeps_update_operation. intros o. by apply Hf.
Qed.

#[local] Hint Resolve keeps_maybe_advance : maintains.

Lemma keeps_handle_config_message m k : keeps (handle_config_message m k).
Proof. unfold handle_config_message. maintains_steps. Qed.
#[local] Hint Resolve keeps_handle_config_message : maintains.

Lemma keeps_record_preprepare k e : keeps (update_operation k (record_preprepare e)).
Proof. apply keeps_update_operation. intros o. by apply backed_grows. Qed.
#[local] Hint Resolve keeps_record_preprepare : maintains.

Lemma keeps_handle_preprepare m e : keeps (handle_preprepare m e).
Proof. unfold handle_preprepare. maintains_steps. frame. Qed.

Lemma keeps_checkpoint_proofs cp : keeps (checkpoint_proofs cp).
Proof.
  unfold checkpoint_proofs. maintains_steps. destruct (unstable_checkpoint_proofs _ !! cp) eqn:E; [done|].
  match goal with H : votes_heard _ |- _ => destruct H as [H1 H2 H3 H4 H5] end. split; [done..| |done|done].
  simpl. intros cp' q u. rewrite lookup_insert_Some. intros [[<- <-]|[_ ?]]; [by rewrite dom_empty_L|]. by eapply H3.
Qed.

Lemma keeps_clear_operations_until cp : keeps (clear_operations_until cp).
Proof.
  apply maintains_modify. intros s [H1 H2 H3 H4 H5]. split; [done| |done..]. simpl.
  intros k o [Ho _]%map_lookup_filter_Some. auto.
Qed.
Lemma keeps_clear_local cp : keeps (clear_local_checkpoints_until cp).
Proof.
  apply maintains_modify. intros s [H1 H2 H3 H4 H5]. split; [done..| |done]. simpl.
  intros c [_ Hc]%elem_of_filter. auto.
Qed.
Lemma keeps_clear_messages cp : keeps (clear_checkpoint_messages_until cp).
Proof.
  apply maintains_modify. intros s [H1 H2 H3 H4 H5]. split; [done..| |done|done]. simpl.
  intros c q u [Hc _]%map_lookup_filter_Some. by eapply H3.
Qed.
#[local] Hint Resolve keeps_checkpoint_proofs keeps_clear_operations_until keeps_clear_local keeps_clear_messages : maintains.

(** The proofs that are there for a checkpoint. *)
Lemma checkpoint_proofs_heard cp q s u :
  votes_heard s → res (checkpoint_proofs cp) s = Ok q → u ∈ dom q → vouched cp u.
Proof.
  intros Hi. unfold checkpoint_proofs. rewrite res_bind, res_modify, post_modify, res_gets. intros [= <-].
  destruct (unstable_checkpoint_proofs s !! cp) as [q|] eqn:E; cbn [set_proofs unstable_checkpoint_proofs].
  - rewrite E. by apply (heard_proofs _ Hi).
  - rewrite lookup_insert. rewrite decide_True by done. simpl. by rewrite dom_empty_L.
Qed.

Lemma quorum_of_peers s q : votes_heard s → res quorum_size s = Ok q → q = (1 + 2 * (lengthN ps / 3))%N.
Proof.
  intros Hi. rewrite pbft_props.res_quorum_size. pose proof (heard_current _ Hi) as H.
  destruct (current (configurations s)); [|done]. simpl in H. injection H as <-. by intros [= <-].
Qed.

Lemma keeps_set_stable cp q :
  settled cp → keeps (modify (set_stable cp q)).
Proof. intros Hs. apply maintains_modify. intros s [H1 H2 H3 H4 H5]. split; [done..|]. by right. Qed.

Lemma keeps_maybe_stabilize_checkpoint cp : keeps (maybe_stabilize_checkpoint cp).
Proof.
  intros s Hi. pose proof Hi as H0. revert Hi. unfold maybe_stabilize_checkpoint.
  apply maintains_bind_at; [by apply maintains_query|].
  intros l Hl. rewrite res_gets in Hl. injection Hl as <-. rewrite post_gets. case_bool_decide as Hlocal; cbn [negb].
  2: { by apply maintains_query. }
  apply maintains_bind_at; [apply keeps_checkpoint_proofs|]. intros q Hq.
  pose proof (λ u, checkpoint_proofs_heard cp q s u H0 Hq) as Hv. pose proof (heard_local _ H0 _ Hlocal) as Hh.
  generalize (post (checkpoint_proofs cp) s). clear s H0 Hlocal Hq. intros s Hi. pose proof Hi as H0. revert Hi.
  apply maintains_bind_at; [apply keeps_quorum_size|]. intros k Hk. apply (quorum_of_peers _ _ H0) in Hk as ->.
  generalize (post quorum_size s). clear s H0.
  destruct (N.ltb_spec (N.of_nat (base.size q)) (1 + 2 * (lengthN ps / 3))); [by apply maintains_query|].
  apply maintains_bind.
  { apply keeps_set_stable. split; [done|]. exists (dom q). split; [by rewrite size_dom|done]. }
  intros _. maintains_steps. frame.
Qed.
#[local] Hint Resolve keeps_maybe_stabilize_checkpoint : maintains.

Lemma keeps_handle_checkpoint m e :
  heard e → ParseFromString (payload_of kPbft e) = Some m → pm_type m = PBFT_MSG_CHECKPOINT → keeps (handle_checkpoint m e).
Proof.
  intros He Hm Ht s. unfold handle_checkpoint. apply maintains_bind_at; [by apply maintains_query|].
  intros st Hst. rewrite res_gets in Hst. injection Hst as <-. rewrite post_gets.
  destruct (N.leb_spec (pm_sequence m) (stable_checkpoint s).1) as [|Hlt]; [by apply maintains_query|]. intros Hi.
  assert (0 < pm_sequence m)%N as Hpos by lia. pose proof Hi as H0. revert Hi.
  apply maintains_bind_at; [apply keeps_checkpoint_proofs|]. intros q Hq.
  pose proof (λ u, checkpoint_proofs_heard _ q s u H0 Hq) as Hv.
  generalize (post (checkpoint_proofs (pm_sequence m, pm_state_hash m)) s). clear H0 Hq. 
  apply maintains_bind; [|intros _; apply keeps_maybe_stabilize_checkpoint].
  apply maintains_modify. clear s Hlt. intros s [H1 H2 H3 H4 H5]. split; [done..| |done|done]. simpl.
  intros cp p u. rewrite lookup_insert_Some. intros [[<- <-]|[_ ?]]; [|by eapply H3].
  rewrite dom_insert, elem_of_union, elem_of_singleton. intros [->|?]; [|by apply Hv].
  split; [exact Hpos|]. by exists e, m.
Qed.

Lemma keeps_checkpoint_reached_locally n : keeps (checkpoint_reached_locally service_state_hash n).
Proof.
  unfold checkpoint_reached_locally. maintains_step; [|maintains_steps]. apply maintains_modify.
  intros s [H1 H2 H3 H4 H5]. split; [done..| |done]. simpl.
  intros cp [->%elem_of_singleton|?]%elem_of_union; [done|auto].
Qed.

Lemma keeps_handle_message m e :
  heard e → ParseFromString (payload_of kPbft e) = Some m → keeps (handle_message m e).
Proof.
  intros He Hm. unfold handle_message. maintains_step; [maintains_step|]. maintains_step; [maintains_step|].
  maintains_step; [by maintains_steps|]. destruct (pm_type m) eqn:Ht.
  - maintains_step.
  - apply keeps_handle_preprepare.
  - apply keeps_vote. intros k o Hk. by apply (backed_prepare k e m).
  - apply keeps_vote. intros k o Hk. by apply (backed_commit k e m).
  - by apply keeps_handle_checkpoint.
Qed.

#[local] Hint Resolve keeps_do_preprepare keeps_checkpoint_reached_locally : maintains.

Lemma keeps_setup_request_operation r session : keeps (setup_request_operation r session).
Proof.
  unfold setup_request_operation. maintains_steps; [frame|].
  apply keeps_update_operation. intros o. by apply backed_grows.
Qed.
#[local] Hint Resolve keeps_setup_request_operation : maintains.

Lemma keeps_handle_join_or_leave m : keeps (handle_join_or_leave m).
Proof. unfold handle_join_or_leave, broadcast_new_configuration. maintains_steps. Qed.
#[local] Hint Resolve keeps_handle_join_or_leave : maintains.

Lemma keeps_handle_request r json session : keeps (handle_request r json session).
Proof. unfold handle_request. maintains_steps; frame. Qed.
#[local] Hint Resolve keeps_handle_request : maintains.

(** Every event but a move to another configuration, which nothing in the
    program calls. *)
Lemma keeps_handle_event ev :
  match ev with pbft_props.Received e => heard e | pbft_props.MoveTo _ => False | _ => True end →
  keeps (pbft_props.handle_event service_state_hash ev).
Proof.
  destruct ev; simpl; intros Hev; try done.
  - unfold start. maintains_steps; frame.
  - unfold handle_bzn_message. destruct (ParseFromString _) eqn:E; [by apply keeps_handle_message|maintains_step].
  - unfold handle_membership_message. maintains_steps.
  - unfold handle_database_message. maintains_steps; frame.
  - unfold execute_handler. maintains_steps; frame.
  - unfold handle_audit_heartbeat_timeout. maintains_steps; frame.
  - unfold handle_failure, notify_audit_failure_detected. maintains_steps.
  - unfold set_audit_enabled. maintains_steps; frame.
Qed.

(** The peers of the configuration a node starts with. *)
Definition first_peers (l : list peer_address_t) : list peer_address_t :=
  default [] (get_peers <$> current (initialize_configuration l).2).

Lemma votes_heard_new l u s : ps = first_peers l → pbft.new l u = Ok s → votes_heard s.
Proof.
  intros Hps Hnew. destruct (pbft_props.node_new_inv _ _ _ Hnew) as [_ _ _ _ _ [c Hc] _].
  unfold pbft.new in Hnew. destruct (decide (l = [])); [done|]. injection Hnew as <-.
  split; cbn [configurations operations unstable_checkpoint_proofs local_unstable_checkpoints stable_checkpoint] in *.
  - rewrite Hps. unfold first_peers. by rewrite Hc.
  - intros k o. by rewrite lookup_empty.
  - intros cp p v. by rewrite lookup_empty.
  - set_solver.
  - by left.
Qed.

End Votes.

(** ** The peers of the first configuration *)
Section Peers.
Context {JS : Jsoncpp} {HS : StdHash}.

Definition distinct (c : pbft_configuration) : Prop :=
  compatible (pbft_configuration.peers c) ∧ sorted_peers c ≡ₚ pbft_configuration.peers c.

Lemma add_peer_distinct p c : distinct c → distinct (add_peer p c).2.
Proof.
  intros [Hc Hp]. unfold add_peer, insert_peer. destruct (conflicting_peer_exists p c) eqn:E; simpl; [done|].
  destruct (valid_peer p); simpl; [|done]. split; [|apply (cache_sorted_permutation (set_peers _ c))]. simpl.
  apply conflicting_peer_exists_false in E. rewrite set_insert_fresh by done. apply compatible_app. split_and!; [done|done|].
  intros q q' Hq ->%list_elem_of_singleton. rewrite Forall_forall in E. rewrite conflicts_sym. auto.
Qed.

Lemma compatible_uuids l : compatible l → NoDup (Messages.uuid <$> l).
Proof.
  induction l as [|p l IH]; simpl; [constructor|]. rewrite Forall_forall. intros [Hp Hc]. constructor; [|auto].
  intros (q & E & Hq)%list_elem_of_fmap. specialize (Hp q Hq). unfold conflicts in Hp. by rewrite bool_decide_true in Hp.
Qed.

(** The configuration that the constructor builds. *)
Definition first_configuration (l : list peer_address_t) : pbft_configuration :=
  (foldl (λ '(good, c) p, let '(b, c) := add_peer p c in (good && b, c)) (true, pbft_configuration.new) l).2.

Lemma first_peers_configuration l : first_peers l = get_peers (first_configuration l).
Proof.
  unfold first_peers, initialize_configuration, first_configuration. destruct (foldl _ _ l) as [g c]. simpl.
  assert (has_hash (get_hash c) (1%N, (c, false)) = true ∧ has_hash (get_hash c) (1%N, (c, true)) = true) as [E1 E2]
    by (split; by apply bool_decide_eq_true).
  unfold enable. simpl. rewrite E1. unfold set_current, find_by_hash. simpl. by rewrite E2.
Qed.

(** What every call of [add_peer] keeps is true of it. *)
Lemma first_configuration_ind (P : pbft_configuration → Prop) l :
  P pbft_configuration.new → (∀ p c, P c → P (add_peer p c).2) → P (first_configuration l).
Proof.
  intros H0 Hs. unfold first_configuration. assert (∀ x : bool * pbft_configuration, P x.2 →
    P (foldl (λ '(good, c) p, let '(b, c) := add_peer p c in (good && b, c)) x l).2) as H; [|by apply H].
  induction l as [|p l IH]; intros [g c] Hc; [done|]. simpl. apply IH. specialize (Hs p c Hc). by destruct (add_peer p c).
Qed.

Lemma first_peers_uuids l : NoDup (Messages.uuid <$> first_peers l).
Proof.
  rewrite first_peers_configuration. destruct (first_configuration_ind distinct l) as [Hc Hp]; [by split|intros ??; apply add_peer_distinct|].
  apply compatible_uuids. unfold get_peers. by rewrite Hp.
Qed.

(** It has a peer when one of the peers is valid, and only then. *)
Lemma add_peer_invalid p c : valid_peer p = false → (add_peer p c).2 = c.
Proof. intros Hp. unfold add_peer, insert_peer. by rewrite Hp, orb_true_r. Qed.

Lemma add_peer_valid p c : valid_peer p = true → pbft_configuration.peers (add_peer p c).2 ≠ [].
Proof.
  intros Hp. unfold add_peer, insert_peer. destruct (conflicting_peer_exists p c) eqn:E; simpl.
  - unfold conflicting_peer_exists in E. by destruct (pbft_configuration.peers c).
  - rewrite Hp. simpl. apply conflicting_peer_exists_false in E. rewrite set_insert_fresh by done. by destruct (pbft_configuration.peers c).
Qed.

Lemma fold_keeps_peer l g c :
  pbft_configuration.peers c ≠ [] →
  pbft_configuration.peers (foldl (λ '(good, c) p, let '(b, c) := add_peer p c in (good && b, c)) (g, c) l).2 ≠ [].
Proof.
  revert g c. induction l as [|x l IH]; intros g c Hc; [done|]. simpl. destruct (valid_peer x) eqn:Ex.
  - pose proof (add_peer_valid x c Ex). destruct (add_peer x c). by apply IH.
  - pose proof (add_peer_invalid x c Ex) as E. destruct (add_peer x c). simpl in E. subst. by apply IH.
Qed.

Lemma first_peers_valid l : first_peers l = [] ↔ Forall (λ p, valid_peer p = false) l.
Proof.
  rewrite first_peers_configuration. split.
  - intros Hn. destruct (decide (Forall (λ p, valid_peer p = false) l)) as [|Hv]; [done|exfalso].
    assert (∃ l1 p l2, l = l1 ++ p :: l2 ∧ valid_peer p = true) as (l1 & p & l2 & -> & Hp).
    { apply not_Forall_Exists in Hv; [|apply _]. apply Exists_exists in Hv as (p & Hin & Hp). simpl in Hp.
      apply list_elem_of_split in Hin as (l1 & l2 & ->). exists l1, p, l2. split; [done|]. by apply not_false_iff_true. }
    assert (pbft_configuration.peers (first_configuration (l1 ++ p :: l2)) ≠ []) as Hne.
    { unfold first_configuration. rewrite foldl_app. simpl. destruct (foldl _ _ l1) as [g c].
      pose proof (add_peer_valid p c Hp) as Hc. destruct (add_peer p c) as [b c']. simpl in *.
      by apply fold_keeps_peer. }
    destruct (first_configuration_ind distinct (l1 ++ p :: l2)) as [_ Hperm]; [by split|intros ??; apply add_peer_distinct|].
    unfold get_peers in Hn. rewrite Hn in Hperm. by apply Permutation_nil_l in Hperm.
  - intros Hall. assert (first_configuration l = pbft_configuration.new) as ->; [|done]. unfold first_configuration.
    assert (∀ g, (foldl (λ '(good, c) p, let '(b, c) := add_peer p c in (good && b, c)) (g, pbft_configuration.new) l).2 =
      pbft_configuration.new) as H; [|apply H].
    induction Hall as [|p l Hp _ IH]; intros g; [done|]. simpl. pose proof (add_peer_invalid p pbft_configuration.new Hp) as E.
    destruct (add_peer p pbft_configuration.new). simpl in E. subst. apply IH.
Qed.
End Peers.

(** Votes that were delivered stay delivered. *)
Section Mono.
Context {PB : Protobuf} {JS : Jsoncpp} {MP : Message pbft_msg}.
Context (state_hash : N → hash_t) (ps : list peer_address_t) (heard heard' : bzn_envelope → Prop).
Hypothesis Hmono : ∀ e, heard e → heard' e.

Lemma backed_mono k o : backed ps heard k o → backed ps heard' k o.
Proof using Hmono.
  intros [H1 H2 H3 H4]. split; [done..| |]; intros u Hu.
  - destruct (H3 u Hu) as (e & m & ? & ?). exists e, m. auto.
  - destruct (H4 u Hu) as (e & m & ? & ?). exists e, m. auto.
Qed.

Lemma vouched_mono cp u : vouched heard cp u → vouched heard' cp u.
Proof using Hmono. intros [Hp (e & m & ? & ?)]. split; [done|]. exists e, m. auto. Qed.

Lemma votes_heard_mono s : votes_heard state_hash ps heard s → votes_heard state_hash ps heard' s.
Proof using Hmono.
  intros [H1 H2 H3 H4 H5]. split; [done|..].
  - intros k o Ho. by apply backed_mono, H2.
  - intros cp p u Hp Hu. eapply vouched_mono, H3; done.
  - done.
  - destruct H5 as [|[Hh (Q & Hq & Hv)]]; [by left|right]. split; [done|]. exists Q. split; [done|].
    intros u Hu. by apply vouched_mono, Hv.
Qed.

Lemma posts_backed_mono e : posts_backed ps heard e → posts_backed ps heard' e.
Proof using Hmono. destruct e; try done. apply backed_mono. Qed.
End Mono.
End pbft_votes.
