(* ===== verification/PbftProgress.v ===== *)
(** * What a PBFT node does with the votes it gets

    One request under one number, as one node of [Pbft] sees it: a vote that
    arrives in the window is counted, and the node has always taken the step that
    the votes it counted allow.  [PbftLiveness] is about a swarm of such nodes. *)

From S2P Require Import Prelude Messages Storage Json Crud PbftOperation PbftConfig PbftService Pbft PbftProps PbftVotes.

Module pbft_progress.
Import pbft_operation pbft_configuration pbft_config_store pbft pbft_votes.

Section Progress.
Context {PB : Protobuf} {JS : Jsoncpp} {HS : StdHash} {BO : Boost}.
Context {MP : Message pbft_msg} {ME : Message bzn_envelope} {MA : Message audit_message}
  {MM : Message pbft_membership_msg} {MB : Message bzn_msg}.
(** The peers and where they listen, the node, its view, and the request under
    its number. *)
Context (ps : list peer_address_t) (eps : list endpoint) (u : uuid_t) (v n : N) (r : pbft_request).
Hypothesis Heps : Forall2 (λ p ep, make_endpoint p = Ok ep) ps eps.
Hypothesis Hr : req_type r ≠ PBFT_REQ_NEW_CONFIG.
Context {Htext : Inj (=) (=) ShortDebugString}.

Definition key : operation_key_t := (v, n, request_hash r).

Definition placed (s : pbft) : Prop := get_peers <$> current (configurations s) = Some ps ∧ uuid s = u.

(** A message to every peer; the messages of this node about the request. *)
Definition sends (text : string) : list effect := (λ ep, SendMessageStr ep text) <$> eps.
Definition ballot_envelope (t : pbft_msg_type) : bzn_envelope :=
  Envelope u "" kPbft (SerializeAsString (PbftMsg t v n (Some r) "")).
Definition ballot (t : pbft_msg_type) : string := SerializeAsString (ballot_envelope t).

(** The node has taken every step that the votes of the operation allow. *)
Record settled (es : list effect) (o : pbft_operation) : Prop := {
  settled_seen : preprepare_seen o = true → sends (ballot PBFT_MSG_PREPARE) ⊆ es;
  settled_prepared : is_prepared o = true → state o ≠ prepare;
  settled_commit : state o ≠ prepare → sends (ballot PBFT_MSG_COMMIT) ⊆ es;
  settled_committed : is_committed o = true → state o = committed;
  settled_posted : state o = committed → ∃ o', PostApplyOperation o' ∈ es ∧ get_operation_key o' = key
}.

(** ** The steps of the operation *)

Lemma insert_operations o s :
  operations s !! key = Some o → set_operations (<[key := o]> (operations s)) s = s.
Proof using. intros Ho. rewrite insert_id by done. by destruct s. Qed.

Lemma alter_operations f o s :
  operations s !! key = Some o → alter f key (operations s) = <[key := f o]> (operations s).
Proof using.
  intros Ho. apply map_eq. intros k. destruct (decide (key = k)) as [<-|Hne].
  - by rewrite lookup_alter_eq, lookup_insert_eq, Ho.
  - by rewrite lookup_alter_ne, lookup_insert_ne.
Qed.

Lemma run_current_peers s : placed s → current_peers s = (Ok ps, s, []).
Proof using.
  intros [Hc _]. unfold current_peers. rewrite run_gets. destruct (current (configurations s)); [|done].
  simpl in Hc. by injection Hc as ->.
Qed.

Lemma run_broadcast w s : placed s → broadcast w s = (Ok tt, s, sends w).
Proof using Heps.
  intros Hs. unfold broadcast. rewrite (run_bind _ _ _ _ _ (run_current_peers _ Hs)).
  unfold sends. pose proof Heps as Hall. clear Heps Hs. induction Hall as [|p ep qs eqs Hp _ IH]; [done|].
  cbn [for_each]. rewrite Hp. erewrite bind_ok; [|rewrite run_lift; reflexivity|exact IH]. done.
Qed.

Lemma run_deref o s : operations s !! key = Some o → deref key s = (Ok o, s, []).
Proof using. intros Ho. unfold deref. rewrite run_gets, Ho. done. Qed.

Lemma run_update f o s {A} (m : unit → M pbft effect A) :
  operations s !! key = Some o →
  (update_operation key f ≫= m) s = m tt (set_operations (<[key := f o]> (operations s)) s).
Proof using. intros Ho. unfold update_operation. by rewrite run_modify, (alter_operations f o s Ho). Qed.

(** The operation is there, or it is made. *)
Lemma run_find {A} s (m : operation_key_t → M pbft effect A) :
  placed s → ∃ o, (find_operation v n r ≫= m) s = m key (set_operations (<[key := o]> (operations s)) s) ∧
    (operations s !! key = Some o ∨ operations s !! key = None ∧ o = pbft_operation.new v n r ps).
Proof using.
  intros Hs. unfold find_operation. fold key. destruct (operations s !! key) as [o|] eqn:E.
  - exists o. rewrite (insert_operations o s E). split; [|by left].
    apply run_bind. by rewrite run_gets, E.
  - exists (pbft_operation.new v n r ps). split; [|by right].
    apply run_bind. by rewrite run_gets, E, (run_bind _ _ _ _ _ (run_current_peers _ Hs)), run_modify.
Qed.

(** The operation at the key is the one of the request. *)
Definition mine (o : pbft_operation) : Prop :=
  pbft_operation.view o = v ∧ sequence o = n ∧ request o = r.

Lemma key_mine o : get_operation_key o = key → mine o.
Proof using Htext. unfold get_operation_key, key, mine. intros [= -> -> E%(inj _)]. done. Qed.

Lemma not_config o : mine o → is_new_config (request o) = false.
Proof using Hr. intros (_ & _ & ->). unfold is_new_config. by rewrite bool_decide_false. Qed.

Lemma run_send o t s :
  placed s → mine o → operations s !! key = Some o →
  (msg ← common_message_setup key t; w ← wrap_message msg; broadcast w) s = (Ok tt, s, sends (ballot t)).
Proof using Heps.
  intros Hs (Hv & Hn & Hq) Ho.
  assert (common_message_setup key t s = (Ok (PbftMsg t v n (Some r) ""), s, [])) as Hm.
  { unfold common_message_setup. rewrite (run_bind _ _ _ _ _ (run_deref o s Ho)), Hv, Hn, Hq. done. }
  rewrite (run_bind _ _ _ _ _ Hm).
  assert (wrap_message (PbftMsg t v n (Some r) "") s = (Ok (ballot t), s, [])) as Hw.
  { unfold wrap_message. rewrite run_gets, (proj2 Hs). done. }
  by rewrite (run_bind _ _ _ _ _ Hw), run_broadcast.
Qed.

Lemma run_call g o o' s :
  operations s !! key = Some o → g o = Ok o' →
  call_operation key g s = (Ok tt, set_operations (<[key := o']> (operations s)) s, []).
Proof using.
  intros Ho Hg. unfold call_operation. rewrite (run_bind _ _ _ _ _ (run_deref o s Ho)), Hg, run_lift.
  unfold update_operation, modify. by rewrite (alter_operations _ o s Ho).
Qed.

Lemma run_do_prepared o s :
  placed s → mine o → operations s !! key = Some o → is_prepared o = true → state o = prepare →
  do_prepared key s =
    (Ok tt, set_operations (<[key := set_state commit o]> (operations s)) s, sends (ballot PBFT_MSG_COMMIT)).
Proof using Heps Hr.
  intros Hs Hm Ho Hp Hst. unfold do_prepared.
  rewrite (run_bind _ _ _ _ _ (run_deref o s Ho)), (not_config o Hm), (run_bind _ _ _ tt s eq_refl).
  erewrite run_bind; [|by apply (run_call _ o (set_state commit o)), begin_commit_phase_spec].
  apply run_send with (o := set_state commit o); [exact Hs|exact Hm|apply lookup_insert_eq].
Qed.

Lemma run_do_committed o s :
  placed s → mine o → operations s !! key = Some o → is_committed o = true → state o = commit →
  ∃ es, do_committed key s =
    (Ok tt, set_operations (<[key := set_state committed o]> (operations s)) s,
     es ++ [PostApplyOperation (set_state committed o)]).
Proof using Heps Hr.
  intros Hs Hm Ho Hc Hst. set (s' := set_operations (<[key := set_state committed o]> (operations s)) s).
  assert (placed s') as Hs' by exact Hs.
  assert (operations s' !! key = Some (set_state committed o)) as Ho' by apply lookup_insert_eq.
  assert (∃ es, end_commit key s = (Ok (set_state committed o), s', es)) as [es He].
  { unfold end_commit. rewrite (run_bind _ _ _ _ _ (run_deref o s Ho)), (not_config o Hm), (run_bind _ _ _ tt s eq_refl).
    erewrite run_bind; [|by apply (run_call _ o (set_state committed o)), end_commit_phase_spec].
    fold s'. rewrite !run_gets. destruct Hm as (-> & -> & ->).
    assert (∀ A (m : operation_key_t → M pbft effect A), (find_operation v n r ≫= m) s' = m key s') as Hf.
    { intros A m. destruct (run_find s' m Hs') as (o1 & -> & [E|[E _]]); [|congruence].
      by rewrite insert_operations by done. }
    destruct (audit_enabled s'); cbn [when].
    - eexists. rewrite (bind_ok _ _ _ _ _ _ _ (run_broadcast _ _ Hs') eq_refl), Hf, (run_deref _ _ Ho'). done.
    - eexists. rewrite (run_bind _ _ _ tt s' eq_refl), Hf. by apply run_deref. }
  exists es. unfold do_committed. by rewrite (bind_ok _ _ _ _ _ _ _ He eq_refl).
Qed.

(** The second half of [maybe_advance_operation_state]. *)
Lemma run_finish o s es :
  placed s → get_operation_key o = key → operations s !! key = Some o →
  (preprepare_seen o = true → sends (ballot PBFT_MSG_PREPARE) ⊆ es) →
  (is_prepared o = true → state o ≠ prepare) → (state o ≠ prepare → sends (ballot PBFT_MSG_COMMIT) ⊆ es) →
  (state o = committed → ∃ o', PostApplyOperation o' ∈ es ∧ get_operation_key o' = key) →
  ∃ st es', (o ← deref key; when (bool_decide (get_state o = commit) && is_committed o) (do_committed key)) s =
      (Ok tt, set_operations (<[key := set_state st o]> (operations s)) s, es') ∧ settled (es ++ es') (set_state st o).
Proof using Heps Hr Htext.
  intros Hs Hk Ho Hseen Hprep Hcom Hpost. rewrite (run_bind _ _ _ _ _ (run_deref o s Ho)).
  destruct (bool_decide (get_state o = commit) && is_committed o) eqn:E; cbn [when].
  - apply andb_prop in E as [Hst%bool_decide_eq_true Hc].
    destruct (run_do_committed o s Hs (key_mine o Hk) Ho Hc Hst) as [es' ->].
    eexists committed, _. split; [done|]. split; simpl.
    + intros H. set_solver.
    + done.
    + intros _. assert (sends (ballot PBFT_MSG_COMMIT) ⊆ es) by (apply Hcom; unfold get_state in Hst; congruence). set_solver.
    + done.
    + intros _. exists (set_state committed o). split; [set_solver|done].
  - exists (state o), []. rewrite app_nil_r. assert (set_state (state o) o = o) as Eo by (by destruct o).
    rewrite Eo, (insert_operations o s Ho). split; [done|]. split; try done. intros Hc. rewrite Hc, andb_true_r in E.
    apply bool_decide_eq_false in E. unfold get_state in E. unfold is_committed in Hc. apply andb_prop in Hc as [Hp _].
    specialize (Hprep Hp). by destruct (state o).
Qed.

Lemma run_advance o s es :
  placed s → get_operation_key o = key → operations s !! key = Some o →
  (preprepare_seen o = true → sends (ballot PBFT_MSG_PREPARE) ⊆ es) →
  (state o ≠ prepare → sends (ballot PBFT_MSG_COMMIT) ⊆ es) →
  (state o = committed → ∃ o', PostApplyOperation o' ∈ es ∧ get_operation_key o' = key) →
  ∃ st es', maybe_advance_operation_state key s =
      (Ok tt, set_operations (<[key := set_state st o]> (operations s)) s, es') ∧ settled (es ++ es') (set_state st o).
Proof using Heps Hr Htext.
  intros Hs Hk Ho Hseen Hcom Hpost. unfold maybe_advance_operation_state.
  rewrite (run_bind _ _ _ _ _ (run_deref o s Ho)).
  destruct (bool_decide (get_state o = prepare) && is_prepared o) eqn:E; cbn [when].
  - apply andb_prop in E as [Hst%bool_decide_eq_true Hp].
    set (s1 := set_operations (<[key := set_state commit o]> (operations s)) s).
    destruct (run_finish (set_state commit o) s1 (es ++ sends (ballot PBFT_MSG_COMMIT))) as (st & es' & Hf & Hset);
      [exact Hs|exact Hk|apply lookup_insert_eq|intros H; set_solver|done|intros _; set_solver|done|].
    eexists st, _. erewrite bind_ok; [|by apply (run_do_prepared o); [|apply key_mine|..]|exact Hf].
    simpl. rewrite insert_insert_eq. split; [done|]. by rewrite app_assoc.
  - rewrite (run_bind _ _ _ tt s eq_refl). apply run_finish; try done. intros Hp. rewrite Hp, andb_true_r in E.
    by apply bool_decide_eq_false in E.
Qed.

(** ** A vote for the request *)

(** What a message leaves in the operation. *)
Definition counted (t : pbft_msg_type) (x : uuid_t) (o : pbft_operation) : Prop :=
  match t with
  | PBFT_MSG_PREPREPARE => preprepare_seen o = true
  | PBFT_MSG_PREPARE => x ∈ prepares_seen o
  | PBFT_MSG_COMMIT => x ∈ commits_seen o
  | _ => True
  end.

Definition filed (Q : pbft_operation → Prop) (s : pbft) : Prop := ∀ o, operations s !! key = Some o → Q o.

Definition about (m : pbft_msg) : Prop :=
  (pm_view m, pm_sequence m, request_hash (get_request m)) = key ∧ votes (pm_type m) = true.

#[global] Instance about_dec m : Decision (about m).
Proof using. apply _. Defined.

Lemma about_request m : about m → pm_view m = v ∧ pm_sequence m = n ∧ get_request m = r.
Proof using Htext. intros [[= -> -> E%(inj _)] _]. done. Qed.

Lemma settled_new es : settled es (pbft_operation.new v n r ps).
Proof using. by split. Qed.

(** Recording a vote and taking the step it allows. *)
Lemma run_record f o s es :
  placed s → operations s !! key = Some o → settled es o →
  get_operation_key (f o) = key → state (f o) = state o →
  (preprepare_seen (f o) = true → sends (ballot PBFT_MSG_PREPARE) ⊆ es) →
  ∃ st es', (update_operation key f;; maybe_advance_operation_state key) s =
      (Ok tt, set_operations (<[key := set_state st (f o)]> (operations s)) s, es') ∧ settled (es ++ es') (set_state st (f o)).
Proof using Heps Hr Htext.
  intros Hs Ho [H1 H2 H3 H4 H5] Hk Hst Hseen. rewrite (run_update f o s _ Ho).
  destruct (run_advance (f o) (set_operations (<[key := f o]> (operations s)) s) es) as (st & es' & -> & Hset);
    rewrite ?Hst; [done|done|apply lookup_insert_eq|done..|].
  eexists st, _. split; [|done]. simpl. by rewrite insert_insert_eq.
Qed.

(** Making or finding the operation, recording a vote, taking the step. *)
Lemma run_vote f m s es :
  placed s → about m → filed (settled es) s → filed (λ o, get_operation_key o = key) s →
  (∀ o, get_operation_key (f o) = get_operation_key o ∧ state (f o) = state o ∧ preprepare_seen (f o) = preprepare_seen o) →
  ∃ o st es', (op ← find_operation_msg m; update_operation op f;; maybe_advance_operation_state op) s =
      (Ok tt, set_operations (<[key := set_state st (f o)]> (operations s)) s, es') ∧
    settled (es ++ es') (set_state st (f o)) ∧ filed (λ o', o' = o) s.
Proof using Heps Hr Htext.
  intros Hs (Hv & Hn & Hq)%about_request Hf Hk Hrec. unfold find_operation_msg. rewrite Hv, Hn, Hq.
  destruct (run_find s (λ op, update_operation op f;; maybe_advance_operation_state op) Hs) as (o & -> & Ho).
  assert (settled es o ∧ get_operation_key o = key) as [Hset Hko].
  { destruct Ho as [Ho|[_ ->]]; [by split; [apply Hf|apply Hk]|by split; [apply settled_new|]]. }
  destruct (Hrec o) as (E1 & E2 & E3).
  destruct (run_record f o (set_operations (<[key := o]> (operations s)) s) es) as (st & es' & -> & Hset');
    [done|apply lookup_insert_eq|done|congruence|done|rewrite E3; apply Hset|].
  exists o, st, es'. split; [by simpl; rewrite insert_insert_eq|]. split; [done|].
  intros o' Ho'. destruct Ho as [Ho|[Ho _]]; congruence.
Qed.

(** The outcome of a vote: it is counted and none is lost. *)
Definition gains (o o' : pbft_operation) : Prop :=
  (preprepare_seen o = true → preprepare_seen o' = true) ∧
  prepares_seen o ⊆ prepares_seen o' ∧ commits_seen o ⊆ commits_seen o'.

Definition voted (m : pbft_msg) (e : bzn_envelope) (es : list effect) (s : pbft) (h : M pbft effect unit) : Prop :=
  ∃ o', operations (post h s) !! key = Some o' ∧ settled (es ++ out h s) o' ∧ counted (pm_type m) (sender e) o' ∧
    filed (λ o, gains o o') s.

Lemma vote_voted f m e s es :
  placed s → about m → filed (settled es) s → filed (λ o, get_operation_key o = key) s →
  (∀ o, get_operation_key (f o) = get_operation_key o ∧ state (f o) = state o ∧ preprepare_seen (f o) = preprepare_seen o) →
  (∀ o st, counted (pm_type m) (sender e) (set_state st (f o)) ∧ gains o (set_state st (f o))) →
  voted m e es s (op ← find_operation_msg m; update_operation op f;; maybe_advance_operation_state op).
Proof using Heps Hr Htext.
  intros Hs Hm Hf Hk Hrec Hgain. destruct (run_vote f m s es Hs Hm Hf Hk Hrec) as (o & st & es' & E & Hset & Ho).
  exists (set_state st (f o)). unfold post, out. rewrite E. cbn [fst snd operations set_operations].
  split; [apply lookup_insert_eq|]. split; [done|]. split; [apply Hgain|]. intros o' Ho'. rewrite (Ho _ Ho'). apply Hgain.
Qed.

Lemma prepare_voted m e s es :
  placed s → about m → filed (settled es) s → filed (λ o, get_operation_key o = key) s → pm_type m = PBFT_MSG_PREPARE →
  voted m e es s (handle_prepare m e).
Proof using Heps Hr Htext.
  intros Hs Hm Hf Hk Ht. apply vote_voted; try done. intros o st. rewrite Ht. unfold gains. simpl. set_solver.
Qed.

Lemma commit_voted m e s es :
  placed s → about m → filed (settled es) s → filed (λ o, get_operation_key o = key) s → pm_type m = PBFT_MSG_COMMIT →
  voted m e es s (handle_commit m e).
Proof using Heps Hr Htext.
  intros Hs Hm Hf Hk Ht. apply vote_voted; try done. intros o st. rewrite Ht. unfold gains. simpl. set_solver.
Qed.

Lemma preprepare_voted m e s es :
  placed s → about m → filed (settled es) s → filed (λ o, get_operation_key o = key) s →
  pm_type m = PBFT_MSG_PREPREPARE → conflicting_preprepare m s = false →
  voted m e es s (handle_preprepare m e).
Proof using Heps Hr Htext.
  intros Hs Hm Hf Hk Ht Hc. destruct (about_request m Hm) as (Hv & Hn & Hq).
  unfold handle_preprepare, voted, post, out. rewrite run_gets, Hc. cbn [negb]. unfold find_operation_msg. rewrite Hv, Hn, Hq.
  match goal with |- context [(find_operation v n r ≫= ?h) s] => destruct (run_find s h Hs) as (o & -> & Ho) end.
  assert (settled es o ∧ get_operation_key o = key) as [Hset Hko].
  { destruct Ho as [Ho|[_ ->]]; [by split; [apply Hf|apply Hk]|by split; [apply settled_new|]]. }
  set (s1 := set_operations (<[key := o]> (operations s)) s).
  assert (operations s1 !! key = Some o) as Ho1 by apply lookup_insert_eq. set (o2 := record_preprepare e o).
  rewrite (run_update _ o s1 _ Ho1), (run_bind _ _ _ o2 _ (run_deref o2 _ (lookup_insert_eq _ _ _))), run_modify.
  rewrite (bool_decide_false (req_type r = PBFT_REQ_NEW_CONFIG)), andb_false_r by done. cbn [when].
  set (s2 := set_accepted _ _). assert (operations s2 !! key = Some o2) as Ho2 by apply lookup_insert_eq.
  destruct (run_advance o2 s2 (es ++ sends (ballot PBFT_MSG_PREPARE))) as (st & es' & Ha & Hset');
    [exact Hs|exact Hko|exact Ho2|intros _; set_solver|intros H; apply (settled_commit _ _ Hset) in H; set_solver| |].
  { intros H. destruct (settled_posted _ _ Hset H) as (o' & ? & ?). exists o'. set_solver. }
  rewrite (run_bind (mret tt) _ s2 tt s2 eq_refl).
  rewrite (bind_ok (do_preprepared key) _ s2 tt s2 (sends (ballot PBFT_MSG_PREPARE)) _ (run_send o2 _ s2 Hs (key_mine o2 Hko) Ho2) Ha).
  exists (set_state st o2). cbn [fst snd].
  split; [apply lookup_insert_eq|]. split; [by rewrite app_assoc|]. rewrite Ht. split; [done|].
  intros o' Ho'. assert (o' = o) as -> by (destruct Ho as [?|[? _]]; congruence). split; [done|]. by split.
Qed.

Lemma settled_mono es es' o : es ⊆ es' → settled es o → settled es' o.
Proof using.
  intros Hes [H1 H2 H3 H4 H5]. split; [|done| |done|].
  - intros H. etrans; [by apply H1|done].
  - intros H. etrans; [by apply H3|done].
  - intros H. destruct (H5 H) as (o' & Hin & ?). exists o'. split; [by apply Hes|done].
Qed.

Lemma message_voted m e s es :
  placed s → about m → filed (settled es) s → filed (λ o, get_operation_key o = key) s →
  preliminary_filter_msg m s = true → (pm_type m = PBFT_MSG_PREPREPARE → conflicting_preprepare m s = false) →
  voted m e es s (handle_message m e).
Proof using Heps Hr Htext.
  intros Hs Hm Hf Hk Hpass Hconf.
  assert (∀ h, voted m e es s h → voted m e es s (when (has_request m) (emit (RequestSeen (get_request m)));; h)) as Hemit.
  { intros h (o' & Ho & Hset & Hc & Hg). exists o'. rewrite post_bind, out_bind.
    destruct (has_request m); cbn [when]; rewrite ?res_emit, ?post_emit, ?out_emit, ?res_ret, ?post_ret, ?out_ret;
      (split; [done|]); (split; [|done]); [|done]. eapply settled_mono; [|done]. set_solver. }
  unfold handle_message, voted, post, out. rewrite run_gets, Hpass. cbn [negb].
  change (voted m e es s (when (has_request m) (emit (RequestSeen (get_request m)));;
    match pm_type m with
    | PBFT_MSG_PREPREPARE => handle_preprepare m e | PBFT_MSG_PREPARE => handle_prepare m e
    | PBFT_MSG_COMMIT => handle_commit m e | PBFT_MSG_CHECKPOINT => handle_checkpoint m e
    | PBFT_MSG_UNDEFINED => throw "Unsupported message type" end)).
  apply Hemit. destruct (pm_type m) eqn:Ht; [by destruct Hm as [_ Hm]; rewrite Ht in Hm| | | |by destruct Hm as [_ Hm]; rewrite Ht in Hm].
  - apply preprepare_voted; auto.
  - by apply prepare_voted.
  - by apply commit_voted.
Qed.

(** ** What the other events do to the operation *)

(** Another session may have been noted. *)
Definition alike (o o' : pbft_operation) : Prop :=
  ∃ x, o' = Operation (pbft_operation.view o) (sequence o) (request o) (pbft_operation.peers o) (state o)
              (preprepare_seen o) (prepares_seen o) (commits_seen o) x.

(** The operation is as it was, or it is new and has no preprepare. *)
Definition calm (s s' : pbft) : Prop :=
  match operations s' !! key, operations s !! key with
  | Some o', Some o => alike o o'
  | Some o', None => preprepare_seen o' = false ∧ state o' = prepare
  | None, Some _ => False
  | None, None => True
  end.

(** Or a stable checkpoint has covered it. *)
Definition tame (s s' : pbft) : Prop :=
  calm s s' ∨ operations s' !! key = None ∧ (n ≤ (stable_checkpoint s').1)%N.

Lemma alike_refl o : alike o o.
Proof using. exists (listener_session o). by destruct o. Qed.

#[local] Instance calm_preorder : PreOrder calm.
Proof using.
  split.
  - intros s. unfold calm. destruct (operations s !! key); [apply alike_refl|done].
  - intros s1 s2 s3. unfold calm.
    destruct (operations s3 !! key) as [o3|], (operations s2 !! key) as [o2|], (operations s1 !! key) as [o1|]; try done.
    + intros [x ->] [y ->]. by exists y.
    + intros [??] [x ->]. done.
Qed.

Lemma calm_same s s' : operations s' !! key = operations s !! key → calm s s'.
Proof using. intros E. unfold calm. rewrite E. destruct (operations s !! key); [apply alike_refl|done]. Qed.

Lemma calm_alter k f s : (k = key → ∀ o, alike o (f o)) → calm s (set_operations (alter f k (operations s)) s).
Proof using.
  intros Hf. unfold calm. simpl. destruct (decide (k = key)) as [->|Hne].
  - rewrite lookup_alter_eq. destruct (operations s !! key); [by apply Hf|done].
  - rewrite lookup_alter_ne by done. destruct (operations s !! key); [apply alike_refl|done].
Qed.

Abbreviation still := (@respects pbft effect _ calm).

Lemma still_quiet {A} (m : M pbft effect A) : pbft_props.quiet m → still m.
Proof using. apply pbft_props.respects_quiet, _. Qed.

Lemma still_modify f : (∀ s, operations (f s) = operations s) → still (modify f).
Proof using. intros Hf. apply respects_modify. intros s. apply calm_same. by rewrite Hf. Qed.

Lemma still_update k f : (k = key → ∀ o, alike o (f o)) → still (update_operation k f).
Proof using. intros Hf. apply respects_modify. intros s. by apply calm_alter. Qed.

Create HintDb still.
#[local] Hint Resolve still_quiet still_modify pbft_props.quiet_current_peers pbft_props.quiet_get_primary
  pbft_props.quiet_is_primary pbft_props.quiet_quorum_size pbft_props.quiet_deref pbft_props.quiet_wrap_message
  pbft_props.quiet_common_message_setup pbft_props.quiet_read_configuration : still.
#[local] Hint Extern 1 (operations _ = operations _) => reflexivity : still.
Ltac still_steps := repeat first [solve [auto with still nocore] | respects_step].

Lemma still_broadcast w : still (broadcast w).
Proof using. unfold broadcast. still_steps. Qed.
#[local] Hint Resolve still_broadcast : still.

Lemma still_find_operation v' n' r' : still (find_operation v' n' r').
Proof using.
  intros s. unfold find_operation. rewrite post_bind, res_gets, post_gets.
  destruct (operations s !! (v', n', request_hash r')) as [o|] eqn:E; [reflexivity|].
  rewrite post_bind, (proj1 (pbft_props.quiet_current_peers s)). destruct (res current_peers s) as [qs| |]; [|reflexivity..].
  unfold calm. rewrite post_bind, res_modify, post_modify, post_ret. cbn [operations set_operations].
  destruct (decide ((v', n', request_hash r') = key)) as [<-|Hne].
  - by rewrite lookup_insert_eq, E.
  - rewrite lookup_insert_ne by done. destruct (operations s !! key); [apply alike_refl|done].
Qed.

Lemma still_call_operation k g : k ≠ key → still (call_operation k g).
Proof using.
  intros Hk. unfold call_operation. still_steps. by apply still_update.
Qed.

Lemma still_add_configuration c : still (add_configuration c).
Proof using. by apply still_modify. Qed.
#[local] Hint Resolve still_find_operation still_call_operation still_add_configuration : still.

Lemma still_maybe_advance k : k ≠ key → still (maybe_advance_operation_state k).
Proof using.
  intros Hk. unfold maybe_advance_operation_state, do_prepared, do_committed, end_commit. still_steps.
Qed.
#[local] Hint Resolve still_maybe_advance : still.

(** A message about another request or number. *)
Lemma still_with_operation m (h : operation_key_t → M pbft effect unit) :
  (pm_view m, pm_sequence m, request_hash (get_request m)) ≠ key → (∀ k, k ≠ key → still (h k)) →
  still (op ← find_operation_msg m; h op).
Proof using.
  intros Hm Hh s. apply respects_bind_at; [apply _|apply still_find_operation|].
  intros k [-> _]%pbft_props.find_operation_res. by apply Hh.
Qed.

Lemma still_handle_vote m f :
  (pm_view m, pm_sequence m, request_hash (get_request m)) ≠ key →
  still (op ← find_operation_msg m; update_operation op f;; maybe_advance_operation_state op).
Proof using.
  intros Hm. apply still_with_operation; [done|]. intros k Hk. still_steps. by apply still_update.
Qed.

Lemma still_handle_preprepare m e :
  (pm_view m, pm_sequence m, request_hash (get_request m)) ≠ key → still (handle_preprepare m e).
Proof using.
  intros Hm. unfold handle_preprepare. apply respects_bind; [apply _|by still_steps|]. intros [|]; [by still_steps|].
  apply still_with_operation; [done|]. intros k Hk.
  unfold handle_config_message, do_preprepared. still_steps. by apply still_update.
Qed.

Lemma still_setup_request_operation q session : still (setup_request_operation q session).
Proof using.
  unfold setup_request_operation. still_steps. apply still_update. intros _ o. by eexists.
Qed.
#[local] Hint Resolve still_setup_request_operation : still.

Lemma still_do_preprepare k : still (do_preprepare k).
Proof using. unfold do_preprepare. still_steps. Qed.
#[local] Hint Resolve still_do_preprepare : still.

Lemma still_handle_request q json session : still (handle_request q json session).
Proof using. unfold handle_request. still_steps. Qed.

Lemma still_handle_membership_message e : still (handle_membership_message e).
Proof using.
  unfold handle_membership_message, handle_join_or_leave, broadcast_new_configuration. still_steps.
Qed.
#[local] Hint Resolve still_handle_request still_handle_membership_message : still.

(** A checkpoint that becomes stable. *)
Lemma still_checkpoint_proofs cp : still (checkpoint_proofs cp).
Proof using.
  unfold checkpoint_proofs. still_steps. apply calm_same. by destruct (unstable_checkpoint_proofs _ !! cp).
Qed.

Lemma tame_bind {A} (m : M pbft effect A) (h : A → M pbft effect unit) s :
  still m → (∀ a, res m s = Ok a → tame (post m s) (post (h a) (post m s))) → tame s (post (m ≫= h) s).
Proof using.
  intros Hm Hh. specialize (Hm s). rewrite post_bind. destruct (res m s) as [a| |]; [|by left..].
  destruct (Hh a eq_refl) as [Hc|?]; [left|by right]. by etrans.
Qed.

Lemma tame_still {A} (m : M pbft effect A) s : still m → tame s (post m s).
Proof using. intros Hm. left. apply Hm. Qed.

Lemma tame_stabilized cp proofs s :
  filed (λ o, get_operation_key o = key) s → tame s (pbft_props.stabilized cp proofs s).
Proof using.
  intros Hk. destruct (operations s !! key) as [o|] eqn:E.
  - assert (sequence o = n) as Hn by (apply Hk in E; by injection E).
    destruct (decide (n ≤ cp.1)%N) as [Hle|Hgt].
    + right. split; [|done]. simpl. apply map_lookup_filter_None. right. intros o' Ho' Hf. apply Hf. simpl. congruence.
    + left. apply calm_same. simpl. rewrite E. apply map_lookup_filter_Some. split; [done|]. simpl. lia.
  - left. apply calm_same. simpl. rewrite E. apply map_lookup_filter_None. by left.
Qed.

Lemma tame_maybe_stabilize cp s :
  filed (λ o, get_operation_key o = key) s → tame s (post (maybe_stabilize_checkpoint cp) s).
Proof using.
  intros Hk. unfold maybe_stabilize_checkpoint. apply tame_bind; [by still_steps|]. intros l _. rewrite post_gets.
  destruct (negb l); [by left|]. apply tame_bind; [apply still_checkpoint_proofs|]. intros proofs _.
  assert (operations (post (checkpoint_proofs cp) s) = operations s) as E.
  { unfold checkpoint_proofs. run_simpl. by destruct (unstable_checkpoint_proofs s !! cp). }
  assert (filed (λ o, get_operation_key o = key) (post (checkpoint_proofs cp) s)) as Hk1 by (intros o; rewrite E; apply Hk).
  generalize dependent (post (checkpoint_proofs cp) s). intros s1 _ Hk1. clear s Hk.
  apply tame_bind; [by still_steps|]. intros q _. rewrite (proj1 (pbft_props.quiet_quorum_size s1)).
  destruct (N.of_nat (size proofs) <? q)%N; [by left|]. by apply tame_stabilized.
Qed.

Lemma tame_handle_checkpoint m e s :
  filed (λ o, get_operation_key o = key) s → tame s (post (handle_checkpoint m e) s).
Proof using.
  intros Hk. unfold handle_checkpoint. apply tame_bind; [by still_steps|]. intros st _. rewrite post_gets.
  destruct (pm_sequence m <=? st.1)%N; [by left|]. apply tame_bind; [apply still_checkpoint_proofs|]. intros proofs _.
  assert (operations (post (checkpoint_proofs (pm_sequence m, pm_state_hash m)) s) = operations s) as E.
  { unfold checkpoint_proofs. run_simpl. by destruct (unstable_checkpoint_proofs s !! _). }
  apply tame_bind; [by still_steps|]. intros [] _. apply tame_maybe_stabilize. intros o. rewrite post_modify. simpl. rewrite E. apply Hk.
Qed.

Lemma tame_execute_handler (state_hash : N → hash_t) q k s :
  filed (λ o, get_operation_key o = key) s → tame s (post (execute_handler state_hash q k) s).
Proof using.
  intros Hk. unfold execute_handler. apply tame_bind; [by still_steps|]. intros [] _. rewrite post_emit.
  destruct (k mod CHECKPOINT_INTERVAL =? 0)%N; cbn [when]; [|by left]. unfold checkpoint_reached_locally.
  apply tame_bind; [by still_steps|]. intros [] _. rewrite post_modify. set (s1 := set_local _ s).
  apply tame_bind; [by still_steps|]. intros w _. rewrite post_gets.
  apply tame_bind; [by still_steps|]. intros x _. rewrite (proj1 (pbft_props.quiet_wrap_message _ s1)).
  apply tame_bind; [by still_steps|]. intros [] _. rewrite (proj1 (pbft_props.broadcast_run _ s1)).
  by apply tame_maybe_stabilize.
Qed.

(** A message that is taken as a vote for the request. *)
Definition taken (m : pbft_msg) (s : pbft) : Prop :=
  about m ∧ preliminary_filter_msg m s = true ∧ (pm_type m = PBFT_MSG_PREPREPARE → conflicting_preprepare m s = false).

#[global] Instance taken_dec m s : Decision (taken m s).
Proof using. apply _. Defined.

Lemma tame_handle_message m e s :
  filed (λ o, get_operation_key o = key) s → ¬ taken m s → tame s (post (handle_message m e) s).
Proof using.
  intros Hk Hn. unfold handle_message. apply tame_bind; [by still_steps|]. intros pass [= <-]. rewrite post_gets.
  destruct (preliminary_filter_msg m s) eqn:Hp; cbn [negb]; [|by left].
  apply tame_bind; [by still_steps|]. intros [] _.
  assert (post (when (has_request m) (emit (RequestSeen (get_request m)))) s = s) as -> by (by destruct (has_request m)).
  destruct (decide (about m)) as [Ha|Ha].
  { destruct (conflicting_preprepare m s) eqn:Hc; [|by destruct Hn].
    destruct (decide (pm_type m = PBFT_MSG_PREPREPARE)) as [Ht|Ht]; [|by destruct Hn].
    rewrite Ht. unfold handle_preprepare. apply tame_bind; [by still_steps|]. intros c [= <-]. rewrite Hc. by left. }
  destruct (pm_type m) eqn:Ht; [by left| | | |by apply tame_handle_checkpoint].
  all: assert ((pm_view m, pm_sequence m, request_hash (get_request m)) ≠ key) as Hne
    by (intros E; apply Ha; split; [done|by rewrite Ht]); apply tame_still.
  - by apply still_handle_preprepare.
  - by apply still_handle_vote.
  - by apply still_handle_vote.
Qed.

(** ** Events *)

Context (service_state_hash : N → hash_t).

Definition message_of (ev : pbft_props.event) : option (bzn_envelope * pbft_msg) :=
  match ev with
  | pbft_props.Received e => m ← ParseFromString (payload_of kPbft e); Some (e, m)
  | _ => None
  end.

Definition stays (ev : pbft_props.event) : Prop :=
  match ev with pbft_props.MoveTo _ => False | _ => pbft_props.event_ok ev end.

Lemma tame_handle_event ev s :
  filed (λ o, get_operation_key o = key) s → stays ev → (∀ e m, message_of ev = Some (e, m) → ¬ taken m s) →
  tame s (post (pbft_props.handle_event service_state_hash ev) s).
Proof using.
  intros Hk Hs Hn. destruct ev; simpl in *; try done.
  - apply tame_still. unfold start. still_steps.
  - unfold handle_bzn_message. destruct (ParseFromString _) as [m|]; [|by left]. apply tame_handle_message; [done|by eapply Hn].
  - apply tame_still, still_handle_membership_message.
  - apply tame_still. unfold handle_database_message. still_steps.
  - by apply tame_execute_handler.
  - apply tame_still. unfold handle_audit_heartbeat_timeout. still_steps.
  - apply tame_still. unfold handle_failure, notify_audit_failure_detected. still_steps.
  - apply tame_still. unfold set_audit_enabled. still_steps.
Qed.

Lemma post_taken ev e m s :
  message_of ev = Some (e, m) → pbft_props.handle_event service_state_hash ev s = handle_message m e s.
Proof using.
  destruct ev; simpl; try done. unfold handle_bzn_message. destruct (ParseFromString _); [|done]. by intros [= -> ->].
Qed.

(** The node in a run: it keeps its configuration. *)
Record home (s : pbft) : Prop := {
  home_inv : pbft_props.inv s;
  home_votes : votes_heard service_state_hash ps (λ _, True) s;
  home_view : view s = v;
  home_uuid : uuid s = u
}.

Lemma home_placed s : home s → placed s.
Proof using. intros [_ H2 _ H4]. split; [apply H2|done]. Qed.

Lemma home_filed s : home s → filed (λ o, get_operation_key o = key) s.
Proof using. intros [H1 _ _ _] o Ho. by apply H1. Qed.

Lemma home_event ev s :
  stays ev → home s →
  let s' := post (pbft_props.handle_event service_state_hash ev) s in
  home s' ∧ pbft_props.step service_state_hash s (out (pbft_props.handle_event service_state_hash ev) s) s'.
Proof using.
  intros Hev [H1 H2 H3 H4] s'. assert (pbft_props.event_ok ev) as Hok by by destruct ev.
  destruct (pbft_props.guar_handle_event service_state_hash ev Hok s H1) as [Hi Hs]. split; [|done]. split.
  - done.
  - apply (keeps_handle_event service_state_hash ps (λ _, True) ev); [by destruct ev|done].
  - unfold s'. by rewrite (pbft_props.step_view _ _ _ _ Hs).
  - unfold s'. by rewrite (pbft_props.step_uuid _ _ _ _ Hs).
Qed.

Lemma settled_alike es o o' : alike o o' → settled es o → settled es o'.
Proof using. intros [x ->] [H1 H2 H3 H4 H5]. by split. Qed.

Lemma settled_tame es es' s s' : tame s s' → es ⊆ es' → filed (settled es) s → filed (settled es') s'.
Proof using.
  intros [Hc|[Hn _]] Hes Hf o' Ho'; [|congruence]. unfold calm in Hc. rewrite Ho' in Hc.
  destruct (operations s !! key) as [o|] eqn:E.
  - eapply settled_mono; [done|]. eapply settled_alike; [done|by apply Hf].
  - destruct Hc as [Hp Hst]. split; rewrite ?Hp, ?Hst; try done.
    + unfold is_prepared, has_preprepare. by rewrite Hp.
    + unfold is_committed, is_prepared, has_preprepare. by rewrite Hp.
Qed.

(** Whatever happens, the node has taken the steps that its votes allow. *)
Lemma event_settled ev s es :
  stays ev → home s → filed (settled es) s →
  filed (settled (es ++ out (pbft_props.handle_event service_state_hash ev) s)) (post (pbft_props.handle_event service_state_hash ev) s).
Proof using Heps Hr Htext.
  intros Hev Hh Hf.
  destruct (message_of ev) as [[e m]|] eqn:Em; [destruct (decide (taken m s)) as [Ht|Ht]|].
  - unfold post, out. rewrite (post_taken _ _ _ _ Em). destruct Ht as (Ha & Hp & Hc).
    destruct (message_voted m e s es (home_placed _ Hh) Ha Hf (home_filed _ Hh) Hp Hc) as (o' & Ho & Hset & _).
    intros o Ho'. unfold post, out in *. congruence.
  - eapply settled_tame; [apply tame_handle_event| |done]; [by apply home_filed|done| |set_solver].
    intros e' m' E. rewrite Em in E. by injection E as <- <-.
  - eapply settled_tame; [apply tame_handle_event| |done]; [by apply home_filed|done| |set_solver]. congruence.
Qed.

(** The votes that came in these events are counted. *)
Definition recorded (evs : list pbft_props.event) (s : pbft) : Prop :=
  ∀ ev e m, ev ∈ evs → message_of ev = Some (e, m) → about m →
    ∃ o, operations s !! key = Some o ∧ counted (pm_type m) (sender e) o.

(** The number is after the stable checkpoint and no other request was accepted
    under it. *)
Definition open (s : pbft) : Prop :=
  ((stable_checkpoint s).1 < n)%N ∧ ∀ k', accepted_preprepares s !! (v, n) = Some k' → k' = key.

Lemma open_before s es s' : pbft_props.step service_state_hash s es s' → open s' → open s.
Proof using.
  intros Hs [Hst Ha]. split; [pose proof (pbft_props.step_stable _ _ _ _ Hs); lia|].
  intros k' Hk. apply Ha. eapply lookup_weaken; [done|apply Hs].
Qed.

Lemma counted_gains t x o o' : gains o o' → counted t x o → counted t x o'.
Proof using. intros (H1 & H2 & H3). destruct t; simpl; auto. Qed.

Lemma recorded_tame evs s s' : tame s s' → ((stable_checkpoint s').1 < n)%N → recorded evs s → recorded evs s'.
Proof using.
  intros [Hc|[_ ?]] Hst Hrec; [|lia]. intros ev e m Hin Em Ha. destruct (Hrec ev e m Hin Em Ha) as (o & Ho & Hcount).
  unfold calm in Hc. rewrite Ho in Hc. destruct (operations s' !! key) as [o'|]; [|done]. exists o'. split; [done|].
  destruct Hc as [x ->]. eapply counted_gains; [|done]. by split_and!.
Qed.

Lemma open_taken m s :
  home s → about m → open s → (n ≤ (stable_checkpoint s).1 + HIGH_WATER_INTERVAL)%N → (n + HIGH_WATER_INTERVAL < 2 ^ 64)%N →
  taken m s.
Proof using Htext.
  intros [Hi _ Hv _] Ha [Hst Hacc] Hn Hb. destruct (about_request m Ha) as (Ev & En & Eq). split_and!; [done|..].
  - unfold preliminary_filter_msg. rewrite (proj2 Ha), Ev, En, Hv, N.eqb_refl, (pbft_props.inv_low _ Hi).
    rewrite (pbft_props.inv_high _ Hi) by lia. cbn [negb].
    destruct (N.leb_spec n (stable_checkpoint s).1); [lia|]. destruct (N.ltb_spec ((stable_checkpoint s).1 + HIGH_WATER_INTERVAL) n); [lia|done].
  - intros _. unfold conflicting_preprepare. rewrite Ev, En, Eq. destruct (accepted_preprepares s !! (v, n)) as [k'|] eqn:E; [|done].
    rewrite (Hacc _ eq_refl). by rewrite bool_decide_true.
Qed.

Lemma event_records ev s es evs :
  stays ev → home s → filed (settled es) s → recorded evs s →
  (n ≤ (stable_checkpoint s).1 + HIGH_WATER_INTERVAL)%N → (n + HIGH_WATER_INTERVAL < 2 ^ 64)%N →
  let s' := post (pbft_props.handle_event service_state_hash ev) s in open s' → recorded (evs ++ [ev]) s'.
Proof using Heps Hr Htext.
  intros Hev Hh Hf Hrec Hn Hb s' Ho. destruct (home_event ev s Hev Hh) as [_ Hs].
  pose proof (open_before _ _ _ Hs Ho) as Ho0.
  assert ((∀ e m, message_of ev = Some (e, m) → ¬ about m) → recorded evs s') as Hcalm.
  { intros Hna. apply (recorded_tame evs s); [|apply Ho|done]. apply tame_handle_event; [by apply home_filed|done|].
    intros e m Em [Ha _]. by eapply Hna. }
  destruct (message_of ev) as [[e m]|] eqn:Em; [destruct (decide (about m)) as [Ha|Ha]|].
  2-3: assert (recorded evs s') as Hrec' by (apply Hcalm; naive_solver); intros ev' e' m' Hin Em' Ha';
    apply elem_of_app in Hin as [Hin|Hin%list_elem_of_singleton]; [by eapply Hrec'|naive_solver].
  destruct (open_taken m s Hh Ha Ho0 Hn Hb) as (_ & Hp & Hc).
  destruct (message_voted m e s es (home_placed _ Hh) Ha Hf (home_filed _ Hh) Hp Hc) as (o & Hop & _ & Hcount & Hg).
  assert (operations s' !! key = Some o) as Hop'.
  { unfold s', post. rewrite (post_taken _ _ _ _ Em). exact Hop. }
  intros ev' e' m' Hin Em' Ha'. exists o. split; [done|]. apply elem_of_app in Hin as [Hin| ->%list_elem_of_singleton].
  - destruct (Hrec ev' e' m' Hin Em' Ha') as (o0 & Ho1 & Hc0). eapply counted_gains; [by apply Hg|done].
  - rewrite Em in Em'. by injection Em' as <- <-.
Qed.

(** The same for a run. *)
Lemma run_settled evs s es :
  Forall stays evs → home s → filed (settled es) s →
  let x := pbft_props.run service_state_hash evs s in home x.1 ∧ filed (settled (es ++ x.2)) x.1.
Proof using Heps Hr Htext.
  revert s es. induction evs as [|ev evs IH]; intros s es Hevs Hh Hf.
  - simpl. by rewrite app_nil_r.
  - apply Forall_cons in Hevs as [Hev Hevs]. destruct (home_event ev s Hev Hh) as [Hh1 Hs1]. simpl.
    destruct (IH _ _ Hevs Hh1 (event_settled ev s es Hev Hh Hf)) as [Hh2 Hf2].
    destruct (pbft_props.run service_state_hash evs _). simpl in *. rewrite app_assoc. by split.
Qed.

(** In a run from a state whose window has the number, if the number is still
    open at the end. *)
Lemma run_records evs s es past :
  Forall stays evs → home s → filed (settled es) s → recorded past s →
  (n ≤ (stable_checkpoint s).1 + HIGH_WATER_INTERVAL)%N → (n + HIGH_WATER_INTERVAL < 2 ^ 64)%N →
  let s' := (pbft_props.run service_state_hash evs s).1 in open s' → recorded (past ++ evs) s'.
Proof using Heps Hr Htext.
  revert s es past. induction evs as [|ev evs IH]; intros s es past Hevs Hh Hf Hrec Hn Hb s' Ho.
  - by rewrite app_nil_r.
  - apply Forall_cons in Hevs as [Hev Hevs]. destruct (home_event ev s Hev Hh) as [Hh1 Hs1].
    pose proof (event_settled ev s es Hev Hh Hf) as Hf1. set (s1 := post (pbft_props.handle_event service_state_hash ev) s) in *.
    destruct (pbft_props.run_guarantee service_state_hash evs s1 (home_inv _ Hh1)) as [_ Hs2].
    { eapply Forall_impl; [done|]. by intros []. }
    assert (s' = (pbft_props.run service_state_hash evs s1).1) as Ex.
    { unfold s', s1. simpl. by destruct (pbft_props.run service_state_hash evs _). }
    rewrite Ex in *. replace (past ++ ev :: evs) with ((past ++ [ev]) ++ evs) by by rewrite <-app_assoc. eapply IH; [done|done|done| |..|done].
    + apply event_records with (es := es); try done. by eapply open_before.
    + pose proof (pbft_props.step_stable _ _ _ _ Hs1). lia.
    + done.
Qed.

(** ** The request of a client *)

Lemma run_is_primary q s :
  placed s → view s = v → ps !! N.to_nat (v mod lengthN ps) = Some q → Messages.uuid q = u → is_primary s = (Ok true, s, []).
Proof using.
  clear Heps. intros Hs Hv Hq Hu. assert (get_primary s = (Ok q, s, [])) as Hp.
  { unfold get_primary. rewrite (run_bind _ _ _ _ _ (run_current_peers _ Hs)), run_gets, Hv, Hq. by destruct ps. }
  unfold is_primary. rewrite (run_bind _ _ _ _ _ Hp), run_gets, (proj2 Hs), bool_decide_true by done. done.
Qed.

(** The primary proposes the request under the next number. *)
Lemma run_setup session s :
  placed s → filed (λ o, get_operation_key o = key) s → view s = v → next_issued_sequence_number s = n →
  ∃ s1 o, setup_request_operation r session s = (Ok key, s1, []) ∧ placed s1 ∧ mine o ∧ operations s1 !! key = Some o.
Proof using Htext.
  intros Hs Hk Hv Hn. unfold setup_request_operation. rewrite run_gets, run_modify, run_gets. cbn [view set_next_issued].
  rewrite Hv, Hn. set (s0 := set_next_issued _ s).
  match goal with |- context [(find_operation v n r ≫= ?h) s0] => destruct (run_find s0 h Hs) as (o & -> & Ho) end.
  assert (mine o) as Hm by (apply key_mine; destruct Ho as [Ho|[_ ->]]; [by apply Hk|done]).
  set (s1 := set_operations _ s0). assert (operations s1 !! key = Some o) as Ho1 by apply lookup_insert_eq.
  destruct session as [x|].
  - rewrite (run_update (set_session x) o s1 _ Ho1). eexists _, (set_session x o). split; [done|].
    split; [exact Hs|]. split; [exact Hm|apply lookup_insert_eq].
  - exists s1, o. by split.
Qed.

Lemma primary_proposes q json session s :
  placed s → filed (λ o, get_operation_key o = key) s → view s = v → next_issued_sequence_number s = n →
  ps !! N.to_nat (v mod lengthN ps) = Some q → Messages.uuid q = u →
  out (handle_request r json session) s = sends (ballot PBFT_MSG_PREPREPARE).
Proof using Heps Htext.
  intros Hs Hk Hv Hn Hq Hu. unfold handle_request, out.
  rewrite (run_bind _ _ _ _ _ (run_is_primary q s Hs Hv Hq Hu)). cbn [negb].
  destruct (run_setup session s Hs Hk Hv Hn) as (s1 & o & E & Hs1 & Hm & Ho).
  rewrite (run_bind _ _ _ _ _ E). unfold do_preprepare. by rewrite (run_send o _ s1 Hs1 Hm Ho).
Qed.

(** A database message over a session asks for the execution of a request. *)
Definition asks (json : Value) (db : database_msg) : Prop :=
  ∃ m encoded msg, isMember json "msg" = Ok true ∧ member json "msg" = Ok m ∧ asString m = Ok encoded ∧
    ParseFromString (base64_decode encoded) = Some msg ∧ bzn_msg_db msg = db.

Lemma database_proposes q json session db s :
  asks json db → r = PbftRequest PBFT_REQ_UNDEFINED (ReqOperation db) 0 "" →
  home s → next_issued_sequence_number s = n → ps !! N.to_nat (v mod lengthN ps) = Some q → Messages.uuid q = u →
  sends (ballot PBFT_MSG_PREPREPARE) ⊆ out (pbft_props.handle_event service_state_hash (pbft_props.Database json session)) s.
Proof using Heps Hr Htext.
  intros (m & enc & msg & H1 & H2 & H3 & H4 & <-) Er Hh Hn Hq Hu. simpl. unfold handle_database_message.
  rewrite H1, H2. unfold out. rewrite run_lift. cbn [negb]. rewrite run_lift, H3, run_lift, H4, <-Er.
  change (sends (ballot PBFT_MSG_PREPREPARE) ⊆ out (handle_request r json (Some session);;
    emit (SessionSend session (set_header (header (bzn_msg_db msg)) default_response) false)) s).
  rewrite out_bind, (primary_proposes q json (Some session) s (home_placed _ Hh) (home_filed _ Hh) (home_view _ Hh) Hn Hq Hu).
  set_solver.
Qed.

(** ** Enough votes *)

(** A set of peers that is more than two thirds of them. *)
Definition quorum (X : gset uuid_t) : Prop := (2 * (sub64 (lengthN ps) 1 / 3) < N.of_nat (size X))%N ∧ (2 * (sub64 (lengthN ps) 1 / 3) < 2 ^ 64)%N.

Lemma quorum_counts o X Y :
  quorum X → pbft_operation.peers o = ps → X ⊆ Y → (mul64 2 (faulty_nodes_bound o) <? N.of_nat (size Y))%N = true.
Proof using.
  intros [Hq Hb] Hp Hs%subseteq_size. unfold faulty_nodes_bound, mul64. rewrite Hp, u64_small by done. apply N.ltb_lt. lia.
Qed.

Lemma quorum_prepares o X : quorum X → pbft_operation.peers o = ps → preprepare_seen o = true → X ⊆ prepares_seen o → is_prepared o = true.
Proof using. intros Hq Hp Hseen HX. unfold is_prepared, has_preprepare. rewrite Hseen. by apply (quorum_counts o X). Qed.

Lemma quorum_commits o X : quorum X → pbft_operation.peers o = ps → is_prepared o = true → X ⊆ commits_seen o → is_committed o = true.
Proof using. intros Hq Hp Hprep HX. unfold is_committed. rewrite Hprep. by apply (quorum_counts o X). Qed.

End Progress.
End pbft_progress.
