(* ===== verification/PbftErrors.v ===== *)
(** * What the handlers of a PBFT node can end with

    A node whose configuration has a peer runs into no undefined behaviour, and
    what its handlers throw comes from outside: an address that is no IPv4 address,
    a message without a type, a JSON value of the wrong kind. *)

From S2P Require Import Prelude Messages Storage Json Crud PbftOperation PbftConfig PbftService Pbft PbftProps PbftVotes PbftProgress.

Module pbft_errors.
Import pbft_operation pbft_configuration pbft_config_store pbft.

(** ** Reading a configuration *)
Section Configuration.
Context {JS : Jsoncpp} {HS : StdHash} {JT : JsoncppThrows}.
Context (E : string → Prop).
Hypothesis HE : ∀ w, json_error w → E w.

Lemma safe_json {St Ef A} (r : result A) (Q : A → St → Prop) s :
  throws_only json_error r → (∀ a, Q a s) → safe (Ef := Ef) E (lift r) Q s.
Proof using HE. intros Hr HQ. apply safe_lift; [by eapply throws_only_weaken|auto]. Qed.

Lemma safe_peer_from_json p c : safe E (peer_from_json p) (λ _ _, True) c.
Proof using HE.
  unfold peer_from_json, string_field, uint_field.
  repeat first [safe_step | apply safe_json; [solve [auto with safe]|intros ?]]; exact I.
Qed.

Lemma safe_insert_all ps b c : safe E (insert_all ps b) (λ _ _, True) c.
Proof using HE.
  revert b c. induction ps as [|p ps IH]; intros b c; cbn [insert_all]; [done|]. apply safe_bind.
  eapply safe_mono; [apply safe_peer_from_json|]. intros peer s _. apply safe_bind, safe_gets.
  destruct (_ || _); [apply IH|]. apply safe_bind, safe_modify. apply IH.
Qed.

Lemma safe_from_string s c : safe E (from_string s) (λ _ _, True) c.
Proof using HE.
  unfold from_string. destruct (parse s) as [json|]; [|done]. apply safe_bind, safe_json; [auto with safe|]. intros [|]; simpl; [|done].
  apply safe_bind, safe_json; [auto with safe|]. intros v. destruct (isArray v); simpl; [|done].
  apply safe_bind, safe_modify, safe_bind. eapply safe_mono; [apply safe_insert_all|]. intros b s' _. done.
Qed.
End Configuration.

Section Errors.
Context {PB : Protobuf} {JS : Jsoncpp} {HS : StdHash} {BO : Boost} {JT : JsoncppThrows}.
Context {MP : Message pbft_msg} {ME : Message bzn_envelope} {MA : Message audit_message}
  {MM : Message pbft_membership_msg} {MB : Message bzn_msg}.

(** The exceptions that come from outside: of [make_endpoint], of [handle_message]
    and of jsoncpp. *)
Definition external (w : string) : Prop :=
  w = "Invalid argument" ∨ w = "Unsupported message type" ∨ json_error w.

Abbreviation pbftM := (M pbft effect).
Abbreviation safe := (@safe pbft effect _ external).

(** The current configuration has a peer. *)
Definition peopled (s : pbft) : Prop :=
  match current (configurations s) with Some c => get_peers c ≠ [] | None => False end.

Implicit Types s : pbft.

(** ** Methods that only look *)

Lemma safe_current_peers (Q : list peer_address_t → pbft → Prop) s :
  peopled s → (∀ ps, ps ≠ [] → Q ps s) → safe current_peers Q s.
Proof using.
  intros Hs HQ. unfold current_peers. safe_steps. unfold peopled in Hs.
  destruct (current (configurations s)); [by apply HQ|done].
Qed.

Lemma safe_get_primary (Q : peer_address_t → pbft → Prop) s : peopled s → (∀ p, Q p s) → safe get_primary Q s.
Proof using.
  intros Hs HQ. unfold get_primary. safe_step. apply safe_current_peers; [done|]. intros ps Hps. safe_steps.
  destruct ps as [|p ps]; [done|].
  destruct (lookup_lt_is_Some_2 (p :: ps) (N.to_nat (view s mod lengthN (p :: ps)))) as [q ->]; [|apply safe_ret, HQ].
  pose proof (N.mod_lt (view s) (lengthN (p :: ps)) ltac:(done)). unfold lengthN in *. lia.
Qed.

Lemma safe_is_primary (Q : bool → pbft → Prop) s : peopled s → (∀ b, Q b s) → safe is_primary Q s.
Proof using.
  intros Hs HQ. unfold is_primary. safe_step. apply safe_get_primary; [done|]. intros p. safe_steps. apply HQ.
Qed.

Lemma safe_quorum_size (Q : N → pbft → Prop) s : peopled s → (∀ q, Q q s) → safe quorum_size Q s.
Proof using.
  intros Hs HQ. unfold quorum_size, max_faulty_nodes. safe_steps. apply safe_current_peers; [done|]. intros ps _.
  safe_steps. apply HQ.
Qed.

Lemma safe_wrap_message m (Q : string → pbft → Prop) s : (∀ w, Q w s) → safe (wrap_message m) Q s.
Proof using. intros HQ. unfold wrap_message. safe_steps. apply HQ. Qed.

Lemma safe_deref k o (Q : pbft_operation → pbft → Prop) s : operations s !! k = Some o → Q o s → safe (deref k) Q s.
Proof using. intros Ho HQ. unfold deref. safe_steps. by rewrite Ho. Qed.

Lemma safe_endpoint p (Q : endpoint → pbft → Prop) s : (∀ ep, Q ep s) → safe (lift (make_endpoint p)) Q s.
Proof using.
  intros HQ. apply safe_lift; [|auto]. apply make_endpoint_throws. by left.
Qed.

Lemma safe_broadcast w (Q : unit → pbft → Prop) s : peopled s → Q tt s → safe (broadcast w) Q s.
Proof using.
  intros Hs HQ. eapply safe_and; [|intros [] _ _; by rewrite (proj1 (pbft_props.broadcast_run w s))].
  unfold broadcast. safe_step. apply safe_current_peers; [done|]. intros ps _.
  eapply safe_mono; [|intros [] s' H; exact H]. apply (safe_for_each _ _ _ (λ _, True)); [|done].
  intros p s' _ _. safe_step. apply safe_endpoint. intros ep. done.
Qed.

Lemma safe_read_configuration c (Q : bool * pbft_configuration → pbft → Prop) s :
  (∀ d, Q d s) → safe (read_configuration c) Q s.
Proof using.
  intros HQ. unfold read_configuration. safe_step. apply safe_lift; [|intros b _; apply HQ].
  eapply safe_throws_only, safe_from_string. intros w Hw. by right; right.
Qed.

#[local] Hint Resolve safe_current_peers : safe.

(** ** Operations *)

Definition keyed (s : pbft) : Prop := ∀ k o, operations s !! k = Some o → get_operation_key o = k.

Lemma safe_find_operation v n r (Q : operation_key_t → pbft → Prop) s :
  peopled s → keyed s →
  (∀ o, get_operation_key o = (v, n, request_hash r) →
     Q (v, n, request_hash r) (set_operations (<[(v, n, request_hash r) := o]> (operations s)) s)) →
  safe (find_operation v n r) Q s.
Proof using.
  intros Hs Hk HQ. unfold find_operation. safe_steps. destruct (operations s !! _) as [o|] eqn:E.
  - apply safe_ret. specialize (HQ o (Hk _ _ E)). rewrite insert_id in HQ by done. by destruct s.
  - safe_step. apply safe_current_peers; [done|]. intros ps _. safe_steps. by apply HQ.
Qed.

Lemma safe_common_message_setup k t o (Q : pbft_msg → pbft → Prop) s :
  operations s !! k = Some o → (∀ m, Q m s) → safe (common_message_setup k t) Q s.
Proof using. intros Ho HQ. unfold common_message_setup. safe_step. apply (safe_deref _ o); [done|]. safe_steps. apply HQ. Qed.

(** Sending the message of an operation. *)
Lemma safe_send k t o (Q : unit → pbft → Prop) s :
  operations s !! k = Some o → peopled s → Q tt s →
  safe (msg ← common_message_setup k t; w ← wrap_message msg; broadcast w) Q s.
Proof using.
  intros Ho Hs HQ. safe_step. apply (safe_common_message_setup _ _ o); [done|]. intros m.
  safe_step. apply safe_wrap_message. intros w. by apply safe_broadcast.
Qed.

Lemma safe_call_operation k g o o' (Q : unit → pbft → Prop) s :
  operations s !! k = Some o → g o = Ok o' → Q tt (set_operations (<[k := o']> (operations s)) s) →
  safe (call_operation k g) Q s.
Proof using.
  intros Ho Hg HQ. unfold call_operation. safe_step. apply (safe_deref _ o); [done|]. safe_step.
  apply safe_lift; [by rewrite Hg|]. intros x Hx. rewrite Hg in Hx. injection Hx as <-. unfold update_operation. apply safe_modify.
  replace (alter (λ _, o') k (operations s)) with (<[k := o']> (operations s)); [done|].
  symmetry. apply map_eq. intros k'. destruct (decide (k = k')) as [<-|Hne].
  - by rewrite lookup_alter_eq, lookup_insert_eq, Ho.
  - by rewrite lookup_alter_ne, lookup_insert_ne.
Qed.

(** The configuration of a request takes effect. *)
Lemma safe_apply_configuration b c (f : pbft_configuration → pbft_config_store → pbft_config_store) (Q : unit → pbft → Prop) s :
  (∀ d st, current (f d st) = current st) → peopled s →
  (∀ st, current st = current (configurations s) → Q tt (set_configurations st s)) →
  safe (when b (d ← read_configuration c; when d.1 (modify (λ s, set_configurations (f d.2 (configurations s)) s)))) Q s.
Proof using.
  intros Hf Hs HQ. assert (Q tt s) as H0.
  { specialize (HQ (configurations s) eq_refl). by destruct s. }
  apply safe_when; [intros _|done]. safe_step. apply safe_read_configuration. intros d. apply safe_when; [intros _|done].
  apply safe_modify, HQ, Hf.
Qed.

Lemma peopled_configurations st s : current st = current (configurations s) → peopled s → peopled (set_configurations st s).
Proof using. unfold peopled. simpl. by intros ->. Qed.

Lemma safe_do_prepared k o (Q : unit → pbft → Prop) s :
  operations s !! k = Some o → is_prepared o = true → state o = prepare → peopled s →
  (∀ s', operations s' = <[k := set_state commit o]> (operations s) → peopled s' → Q tt s') → safe (do_prepared k) Q s.
Proof using.
  intros Ho Hp Hst Hs HQ. unfold do_prepared. safe_step. apply (safe_deref _ o); [done|]. safe_step.
  apply (safe_apply_configuration _ _ (λ d st, (enable (get_hash d) true st).2)); [intros; apply enable_current|done|].
  intros st Est. safe_step. eapply safe_call_operation; [done|by apply begin_commit_phase_spec|].
  pose proof (peopled_configurations st s Est Hs) as Hs'.
  eapply safe_send; [apply lookup_insert_eq|exact Hs'|]. apply HQ; [done|exact Hs'].
Qed.

Lemma keyed_insert k o s :
  keyed s → get_operation_key o = k → ∀ s', operations s' = <[k := o]> (operations s) → keyed s'.
Proof using.
  intros Hk Ho s' E k' o'. rewrite E, lookup_insert_Some. intros [[<- <-]|[_ ?]]; [done|by apply Hk].
Qed.

Lemma safe_do_committed k o (Q : unit → pbft → Prop) s :
  operations s !! k = Some o → is_committed o = true → state o = commit → peopled s → keyed s →
  (∀ s', Q tt s') → safe (do_committed k) Q s.
Proof using.
  intros Ho Hc Hst Hs Hk HQ. unfold do_committed, end_commit. safe_step. safe_step. apply (safe_deref _ o); [done|]. safe_step.
  apply (safe_apply_configuration _ _ (λ d st, (remove_prior_to (get_hash d) st).2)); [intros; apply remove_prior_to_current|done|].
  intros st Est. safe_step. eapply safe_call_operation; [done|by apply end_commit_phase_spec|].
  pose proof (peopled_configurations st s Est Hs) as Hs'. set (s' := set_operations _ _).
  assert (peopled s') as Hs1 by exact Hs'.
  assert (keyed s') as Hk' by (apply (keyed_insert k (set_state committed o) s); [exact Hk|apply (Hk _ o Ho)|done]).
  safe_steps.
  - apply safe_broadcast; [done|]. safe_step. apply safe_find_operation; [done..|]. intros o' _.
    eapply safe_deref; [apply lookup_insert_eq|]. safe_steps. apply HQ.
  - apply safe_find_operation; [done..|]. intros o' _. eapply safe_deref; [apply lookup_insert_eq|]. safe_steps. apply HQ.
Qed.

Lemma safe_maybe_advance k o (Q : unit → pbft → Prop) s :
  operations s !! k = Some o → peopled s → keyed s → (∀ s', Q tt s') → safe (maybe_advance_operation_state k) Q s.
Proof using.
  intros Ho Hs Hk HQ. unfold maybe_advance_operation_state. safe_step. apply (safe_deref _ o); [done|].
  assert (∀ s' o', operations s' !! k = Some o' → peopled s' → keyed s' →
    safe (o ← deref k; when (bool_decide (get_state o = commit) && is_committed o) (do_committed k)) Q s') as Hend.
  { intros s' o' Ho' Hs' Hk'. safe_step. apply (safe_deref _ o'); [done|]. apply safe_when; [|by intros; apply HQ].
    intros [Hst%bool_decide_eq_true Hc]%andb_prop. by apply (safe_do_committed _ o'). }
  safe_step. apply safe_when; [|intros _; by eapply Hend]. intros [Hst%bool_decide_eq_true Hp]%andb_prop.
  apply (safe_do_prepared _ o); [done..|]. intros s' Eo Hs'. eapply Hend; [rewrite Eo; apply lookup_insert_eq|done|].
  by apply (keyed_insert k (set_state commit o) s); [exact Hk|apply (Hk _ o Ho)|].
Qed.

(** ** Handlers *)

Lemma safe_update_operation k f o (Q : unit → pbft → Prop) s :
  operations s !! k = Some o → keyed s → (∀ o, get_operation_key (f o) = get_operation_key o) → peopled s →
  (∀ s', operations s' !! k = Some (f o) → keyed s' → peopled s' → Q tt s') → safe (update_operation k f) Q s.
Proof using.
  intros Ho Hk Hf Hs HQ. unfold update_operation. apply safe_modify, HQ; [simpl; by rewrite lookup_alter_eq, Ho| |done].
  intros k' o'. simpl. rewrite lookup_alter_Some. intros [(<- & x & Hx & ->)|[_ Hx]]; [rewrite Hf|]; by apply Hk.
Qed.

(** Finding the operation of a message, recording something in it. *)
Lemma safe_find_and_update v n r f (h : operation_key_t → pbftM unit) (Q : unit → pbft → Prop) s :
  peopled s → keyed s → (∀ o, get_operation_key (f o) = get_operation_key o) →
  (∀ o s', operations s' !! (v, n, request_hash r) = Some o → keyed s' → peopled s' → safe (h (v, n, request_hash r)) Q s') →
  safe (op ← find_operation v n r; update_operation op f;; h op) Q s.
Proof using.
  intros Hs Hk Hf HQ. safe_step. apply safe_find_operation; [done..|]. intros o Ho. safe_step.
  eapply safe_update_operation; [apply lookup_insert_eq| |done|exact Hs|].
  - by apply (keyed_insert (v, n, request_hash r) o s).
  - intros s' Ho' Hk' Hs'. by eapply HQ.
Qed.

Lemma safe_handle_vote f m (Q : unit → pbft → Prop) s :
  peopled s → keyed s → (∀ o, get_operation_key (f o) = get_operation_key o) → (∀ s', Q tt s') →
  safe (op ← find_operation_msg m; update_operation op f;; maybe_advance_operation_state op) Q s.
Proof using.
  intros Hs Hk Hf HQ. apply safe_find_and_update; [done..|]. intros o s' Ho Hk' Hs'. by apply (safe_maybe_advance _ o).
Qed.

Lemma peopled_add c s : peopled s → peopled (set_configurations (add c (configurations s)).2 s).
Proof using.
  unfold peopled. simpl. destruct (current (configurations s)) as [d|] eqn:E; [|done]. by rewrite (add_current _ _ _ E).
Qed.

Lemma safe_handle_config_message m k o (Q : unit → pbft → Prop) s :
  operations s !! k = Some o → peopled s →
  (∀ s', operations s' = operations s → peopled s' → Q tt s') → safe (handle_config_message m k) Q s.
Proof using.
  intros Ho Hs HQ. unfold handle_config_message. safe_step. apply (safe_deref _ o); [done|].
  destruct (decide _); [|by apply safe_ret, HQ]. safe_step. apply safe_read_configuration. intros d.
  apply safe_when; [intros _|by intros; apply HQ]. apply safe_modify, HQ; [done|by apply peopled_add].
Qed.

Lemma safe_handle_preprepare m e s : peopled s → keyed s → safe (handle_preprepare m e) (λ _ _, True) s.
Proof using.
  intros Hs Hk. unfold handle_preprepare. safe_steps. destruct (conflicting_preprepare m s); [done|].
  apply safe_find_and_update; [done..|]. intros o s1 Ho Hk1 Hs1. set (k := (pm_view m, _, _)) in *.
  safe_step. apply (safe_deref _ o); [done|]. safe_steps.
  - apply (safe_handle_config_message _ _ o); [done..|]. intros s2 E Hs2. safe_step.
    apply (safe_send _ _ o); [by rewrite E|done|]. apply (safe_maybe_advance _ o); [by rewrite E|done| |done].
    intros k' o'. rewrite E. apply Hk1.
  - apply (safe_send _ _ o); [done..|]. by apply (safe_maybe_advance _ o).
Qed.

(** *** Checkpoints *)

Lemma safe_checkpoint_proofs cp (Q : gmap uuid_t string → pbft → Prop) s :
  peopled s → (∀ ps s', peopled s' → Q ps s') → safe (checkpoint_proofs cp) Q s.
Proof using.
  intros Hs HQ. unfold checkpoint_proofs. safe_steps. apply HQ. by destruct (unstable_checkpoint_proofs s !! cp).
Qed.

Lemma safe_maybe_stabilize cp s : peopled s → safe (maybe_stabilize_checkpoint cp) (λ _ _, True) s.
Proof using.
  intros Hs. unfold maybe_stabilize_checkpoint. safe_steps. destruct (negb _); [done|]. safe_step.
  apply safe_checkpoint_proofs; [done|]. intros ps s1 Hs1. safe_step. apply safe_quorum_size; [done|]. intros q.
  destruct (_ <? _)%N; [done|]. unfold clear_local_checkpoints_until, clear_checkpoint_messages_until, clear_operations_until.
  safe_steps. done.
Qed.

Lemma safe_handle_checkpoint m e s : peopled s → safe (handle_checkpoint m e) (λ _ _, True) s.
Proof using.
  intros Hs. unfold handle_checkpoint. safe_steps. destruct (_ <=? _)%N; [done|]. safe_step.
  apply safe_checkpoint_proofs; [done|]. intros ps s1 Hs1. safe_steps. by apply safe_maybe_stabilize.
Qed.

Lemma safe_handle_message m e s : peopled s → keyed s → safe (handle_message m e) (λ _ _, True) s.
Proof using.
  intros Hs Hk. unfold handle_message. safe_steps. destruct (negb _); [done|]. safe_step.
  assert (safe match pm_type m with
    | PBFT_MSG_PREPREPARE => handle_preprepare m e | PBFT_MSG_PREPARE => handle_prepare m e
    | PBFT_MSG_COMMIT => handle_commit m e | PBFT_MSG_CHECKPOINT => handle_checkpoint m e
    | PBFT_MSG_UNDEFINED => throw "Unsupported message type" end (λ _ _, True) s) as H.
  { destruct (pm_type m).
    - right. by left.
    - by apply safe_handle_preprepare.
    - by apply safe_handle_vote.
    - by apply safe_handle_vote.
    - by apply safe_handle_checkpoint. }
  apply safe_when; intros _; [by safe_step|done].
Qed.

(** *** Requests *)

Lemma safe_setup_request_operation r session (Q : operation_key_t → pbft → Prop) s :
  peopled s → keyed s → (∀ k o s', operations s' !! k = Some o → peopled s' → Q k s') →
  safe (setup_request_operation r session) Q s.
Proof using.
  intros Hs Hk HQ. unfold setup_request_operation. safe_steps. apply safe_find_operation; [done..|]. intros o Ho.
  safe_step. destruct session as [x|].
  - eapply safe_update_operation; [apply lookup_insert_eq|by eapply (keyed_insert _ o)|done|done|].
    intros s' Ho' _ Hs'. apply safe_ret. by eapply HQ.
  - safe_steps. eapply HQ; [apply lookup_insert_eq|done].
Qed.

Lemma safe_handle_request r json session (Q : unit → pbft → Prop) s :
  peopled s → keyed s → (∀ s', Q tt s') → safe (handle_request r json session) Q s.
Proof using.
  intros Hs Hk HQ. unfold handle_request. safe_step. apply safe_is_primary; [done|]. intros [|]; simpl.
  - safe_step. apply safe_setup_request_operation; [done..|]. intros k o s' Ho Hs'. by apply (safe_send _ _ o).
  - safe_step. apply safe_get_primary; [done|]. intros p. safe_step. apply safe_endpoint. intros ep. by apply safe_emit.
Qed.

Lemma safe_handle_database_message json session s :
  peopled s → keyed s → safe (handle_database_message json session) (λ _ _, True) s.
Proof using.
  intros Hs Hk. unfold handle_database_message. assert (∀ w, json_error w → external w) as HE by (intros w ?; by right; right).
  safe_step. apply safe_json; [done|apply isMember_throws|]. intros [|]; simpl; [|done].
  safe_step. apply safe_json; [done|apply member_throws|]. intros v.
  safe_step. apply safe_json; [done|apply asString_throws|]. intros enc. destruct (ParseFromString _); [|done].
  safe_step. by apply safe_handle_request.
Qed.

Lemma safe_handle_membership_message e s : peopled s → keyed s → safe (handle_membership_message e) (λ _ _, True) s.
Proof using.
  intros Hs Hk. unfold handle_membership_message. destruct (ParseFromString _) as [m|]; [|done].
  destruct (mm_peer_info m) as [i|] eqn:Ei; [|done].
  assert (safe (handle_join_or_leave m) (λ _ _, True) s) as H; [|by destruct (mm_type m)].
  unfold handle_join_or_leave. safe_step. apply safe_is_primary; [done|]. intros [|]; cbn [negb]; [|done]. rewrite Ei. safe_steps.
  pose proof Hs as Hcur. unfold peopled in Hcur. destruct (current (configurations s)) as [c|]; [|done].
  assert (∀ b config, safe (if negb b then mret tt else add_configuration config;; broadcast_new_configuration config) (λ _ _, True) s) as Htail.
  { intros [|] config; cbn [negb]; [|done]. safe_step. apply safe_modify. unfold broadcast_new_configuration. safe_step.
    apply safe_setup_request_operation; [by apply peopled_add|exact Hk|]. intros k o s' Ho Hs'. by apply (safe_send _ _ o). }
  destruct (mm_type m); [by apply Htail| |].
  - match goal with |- context [add_peer ?p c] => destruct (add_peer p c) end. apply Htail.
  - match goal with |- context [remove_peer ?p c] => destruct (remove_peer p c) end. apply Htail.
Qed.

Lemma safe_notify s : peopled s → safe notify_audit_failure_detected (λ _ _, True) s.
Proof using. intros Hs. unfold notify_audit_failure_detected. safe_steps; [by apply safe_broadcast|done]. Qed.

Lemma safe_handle_event (state_hash : N → hash_t) ev s :
  peopled s → keyed s → pbft_progress.stays ev → safe (pbft_props.handle_event state_hash ev) (λ _ _, True) s.
Proof using.
  intros Hs Hk Hev. destruct ev; simpl in *; try done.
  - unfold start. safe_steps. by destruct (start_once s).
  - unfold handle_bzn_message. destruct (ParseFromString _); [by apply safe_handle_message|done].
  - by apply safe_handle_membership_message.
  - by apply safe_handle_database_message.
  - unfold execute_handler, checkpoint_reached_locally. safe_steps; [|done]. apply safe_wrap_message. intros w. safe_step.
    apply safe_broadcast; [done|]. by apply safe_maybe_stabilize.
  - unfold handle_audit_heartbeat_timeout. destruct ec; [done|]. safe_step. apply safe_is_primary; [done|]. intros b. safe_steps.
    + apply safe_broadcast; [done|]. by safe_steps.
    + done.
  - by apply safe_notify.
Qed.

End Errors.
End pbft_errors.

(** ** Claims *)

Section Claims.
Context {PB : Protobuf} {JS : Jsoncpp} {HS : StdHash} {BO : Boost} {JT : JsoncppThrows}.
Context {MP : Message pbft_msg} {ME : Message bzn_envelope} {MA : Message audit_message}
  {MM : Message pbft_membership_msg} {MB : Message bzn_msg}.
Context (service_state_hash : N → hash_t).
Import pbft_operation pbft_configuration pbft_config_store pbft pbft_votes pbft_progress pbft_errors.

Lemma run_home ps u v evs s :
  Forall stays evs → home ps u v service_state_hash s →
  home ps u v service_state_hash (pbft_props.run service_state_hash evs s).1.
Proof using.
  intros Hevs. revert s. induction Hevs as [|ev evs Hev _ IH]; intros s Hs; [done|]. simpl.
  destruct (home_event ps u v service_state_hash ev s Hev Hs) as [Hs' _]. specialize (IH _ Hs').
  by destruct (pbft_props.run service_state_hash evs _).
Qed.

Lemma new_home l u s : pbft.new l u = Ok s → home (first_peers l) u 1 service_state_hash s.
Proof using.
  intros Hn. split; [by eapply pbft_props.node_new_inv|by eapply votes_heard_new|..];
    (unfold pbft.new in Hn; destruct (decide (l = [])); [done|]; by injection Hn as <-).
Qed.

(** C8: no undefined behaviour.  Start a node with a list of peers of which one at
    least is valid.  Whatever it has handled, the next handler returns, or it throws
    one of the exceptions from outside: of [make_endpoint] about an address, of
    [handle_message] about a message without a type, of jsoncpp about a value of the
    wrong kind.  The operations it works on are always there, it never tries to move
    an operation out of turn, and it always finds a primary. *)
Theorem pbft_handlers_defined (l : list peer_address_t) (u : uuid_t) (s0 : pbft)
    (evs : list pbft_props.event) (ev : pbft_props.event) :
  pbft.new l u = Ok s0 → Exists (λ p, valid_peer p = true) l → Forall stays evs → stays ev →
  throws_only external (res (pbft_props.handle_event service_state_hash ev) (pbft_props.run service_state_hash evs s0).1).
Proof using.
  intros Hnew Hv Hevs Hev. destruct (run_home _ _ _ _ _ Hevs (new_home _ _ _ Hnew)) as [Hi Hh _ _].
  set (s := (pbft_props.run service_state_hash evs s0).1) in *.
  eapply safe_throws_only, safe_handle_event; [| |done].
  - unfold peopled. pose proof (heard_current _ _ _ _ Hh) as Hc. destruct (current (configurations s)) as [c|]; [|done].
    simpl in Hc. injection Hc as ->. intros Hn%first_peers_valid.
    apply Exists_exists in Hv as (p & Hin & Hp). rewrite Forall_forall in Hn. by rewrite (Hn p Hin) in Hp.
  - intros k o Ho. by apply (pbft_props.inv_operation _ Hi).
Qed.

End Claims.

Section Nobody.
Context {PB : Protobuf} {JS : Jsoncpp} {HS : StdHash} {BO : Boost}.
Context {MP : Message pbft_msg} {ME : Message bzn_envelope}.
Import pbft_configuration pbft_config_store pbft pbft_votes pbft_progress.

(** A finding.  The constructor refuses an empty list of peers, but only logs that
    peers could not be added.  When none of them is valid, which the reader of the
    peers does not see to (a name or a uuid may be empty), the node starts, and the
    first request of a client divides by the number of peers, which is zero. *)
Theorem no_valid_peer_divides_by_zero (l : list peer_address_t) (u : uuid_t) (s0 : pbft)
    (r : pbft_request) (json : Value) (session : option session_id) :
  pbft.new l u = Ok s0 → Forall (λ p, valid_peer p = false) l → res (handle_request r json session) s0 = Undefined.
Proof using.
  intros Hnew Hv%first_peers_valid. destruct (new_home (λ _, EmptyString) _ _ _ Hnew) as [_ Hh _ _].
  assert (current_peers s0 = (Ok [], s0, [])) as Hc.
  { pose proof (heard_current _ _ _ _ Hh) as Hc. rewrite Hv in Hc. unfold current_peers. rewrite run_gets.
    destruct (current (configurations s0)) as [c|]; [|done]. simpl in Hc. by injection Hc as ->. }
  assert (res get_primary s0 = Undefined) as Hp by (unfold get_primary; rewrite (run_result _ _ _ _ _ Hc); done).
  unfold handle_request, is_primary. by rewrite !res_bind, Hp.
Qed.
End Nobody.

(** *** Examples *)

Example pbft_handlers_defined_witness :
  throws_only (pbft_errors.external (JT := json_tree.tree_json_throws))
    (res (pbft_props.handle_event (PB := sample_text) (JS := json_tree.tree_json) (HS := json_tree.tree_hash) (BO := sample_boost)
       (MP := sample_pbft_message) (ME := silent_message _) (MA := silent_message _) (MM := silent_message _)
       (MB := silent_message _) (λ _, ""%string) (pbft_props.Database json_tree.Null 1%N))
     sample_run.1).
Proof.
  apply (pbft_handlers_defined (JS := json_tree.tree_json) (JT := json_tree.tree_json_throws) (MP := sample_pbft_message)
    (ME := silent_message _) (MA := silent_message _) (MM := silent_message _) (MB := silent_message _)
    (λ _, ""%string) [single] "u" sample_node sample_events _ sample_node_new).
  - apply Exists_cons_hd. vm_compute. reflexivity.
  - repeat constructor.
  - exact I.
Defined.

(** A finding.  The reader of the peers calls a peer without a uuid and a name
    "unknown", and of peers with one name the configuration keeps the first. *)
Example unnamed_peers_are_left_out :
  let unnamed h := Peer h 1 2 "unknown"%string "unknown"%string in
  pbft_votes.first_peers (JS := json_tree.tree_json) (HS := json_tree.tree_hash)
    [unnamed "10.0.0.1"; unnamed "10.0.0.2"; unnamed "10.0.0.3"; unnamed "10.0.0.4"]%string = [unnamed "10.0.0.1"%string].
Proof. vm_compute. reflexivity. Qed.

Example no_valid_peer_divides_by_zero_witness :
  let unnamed := Peer "127.0.0.1" 1 2 ""%string "u"%string in
  match pbft.new (JS := json_tree.tree_json) (HS := json_tree.tree_hash) [unnamed] "u" with
  | Ok s0 => res (pbft.handle_request (PB := sample_text) (BO := sample_boost) (MP := sample_pbft_message) (ME := silent_message _)
               default_request json_tree.Null None) s0 = Undefined
  | _ => False
  end.
Proof.
  intros unnamed. destruct (pbft.new [unnamed] "u") as [s0| |] eqn:E; [|discriminate E..].
  apply (no_valid_peer_divides_by_zero [unnamed] "u" s0); [exact E|]. repeat constructor.
Defined.
