(* ===== verification/Auditor.v ===== *)
(** * The auditor

    [audit/audit.cpp]: listens to the status and commit messages of the other
    nodes, reports leaders, primaries and commits that contradict one another,
    and watches for leaders and primaries that fall silent. *)

From S2P Require Import Prelude Messages Json.

(** ** [std::map<uint64_t, std::string>]: its entries in the order of the keys *)
Module std_map.

Abbreviation map := (list (N * string)).

Definition find (k : N) (m : map) : option string := snd <$> List.find (λ e, (e.1 =? k)%N) m.

(** [m\[k\] = v]. *)
Fixpoint put (k : N) (v : string) (m : map) : map :=
  match m with
  | [] => [(k, v)]
  | e :: m => if (k <? e.1)%N then (k, v) :: e :: m
              else if (k =? e.1)%N then (k, v) :: m
              else e :: put k v m
  end.

(** [while (m.size() > n) m.erase(m.begin())]. *)
Fixpoint trim (n : N) (m : map) : map :=
  match m with
  | [] => []
  | _ :: m' => if (n <? lengthN m)%N then trim n m' else m
  end.

Lemma trim_length n m : (lengthN (trim n m) ≤ n)%N.
Proof.
  induction m as [|e m IH]; [unfold lengthN; simpl; lia|]. cbn [trim].
  destruct (N.ltb_spec n (lengthN (e :: m))); [done|lia].
Qed.

Lemma trim_suffix n m : trim n m `suffix_of` m.
Proof.
  induction m as [|e m IH]; [done|]. cbn [trim]. destruct (_ <? _)%N; [by apply suffix_cons_r|done].
Qed.

Lemma trim_id n m : (lengthN m ≤ n)%N → trim n m = m.
Proof. destruct m; [done|]. cbn [trim]. intros H. by rewrite (proj2 (N.ltb_ge _ _) H). Qed.

Lemma elem_of_trim n m e : e ∈ trim n m → e ∈ m.
Proof. destruct (trim_suffix n m) as [k Hk]. intros. rewrite Hk. apply elem_of_app. by right. Qed.

Lemma elem_of_put k v m e : e ∈ put k v m → e = (k, v) ∨ e ∈ m.
Proof.
  induction m as [|x m IH]; simpl; [by intros ->%list_elem_of_singleton; left|].
  destruct (_ <? _)%N; [|destruct (_ =? _)%N]; rewrite !elem_of_cons; naive_solver.
Qed.

Lemma find_put k v m : find k (put k v m) = Some v.
Proof.
  unfold find. induction m as [|x m IH]; simpl; [by rewrite N.eqb_refl|].
  destruct (_ <? _)%N; [|destruct (N.eqb_spec k x.1) as [->|Hne]]; simpl; rewrite ?N.eqb_refl; [done..|].
  by rewrite (proj2 (N.eqb_neq _ _) (not_eq_sym Hne)).
Qed.

Lemma find_put_ne k k' v m : k' ≠ k → find k' (put k v m) = find k' m.
Proof.
  intros Hne. unfold find. induction m as [|x m IH]; simpl; [by rewrite (proj2 (N.eqb_neq k k')) by done|].
  destruct (_ <? _)%N; [|destruct (N.eqb_spec k x.1) as [->|?]]; simpl.
  - by rewrite (proj2 (N.eqb_neq k k')) by done.
  - by rewrite (proj2 (N.eqb_neq x.1 k')) by done.
  - by destruct (x.1 =? k')%N.
Qed.

Lemma put_last k v m : Forall (λ e, (e.1 < k)%N) m → put k v m = m ++ [(k, v)].
Proof.
  induction 1 as [|e m He _ IH]; simpl; [done|].
  by rewrite (proj2 (N.ltb_ge k e.1)), (proj2 (N.eqb_neq k e.1)), IH by lia.
Qed.

Lemma find_none k m : Forall (λ e, (e.1 < k)%N) m → find k m = None.
Proof.
  unfold find. induction 1 as [|e m He _ IH]; simpl; [done|]. by rewrite (proj2 (N.eqb_neq e.1 k)) by lia.
Qed.

Lemma find_elem k v m : find k m = Some v → (k, v) ∈ m.
Proof.
  unfold find. destruct (List.find _ m) as [[k' v']|] eqn:E; [|done]. intros [= <-].
  apply List.find_some in E as [Hin Hk]. simpl in Hk. apply N.eqb_eq in Hk as ->. by apply list_elem_of_In.
Qed.

End std_map.

Module audit.

Definition LEADER_CONFLICT_METRIC_NAME : string := "raft.safety.leader_conflict".
Definition RAFT_COMMIT_CONFLICT_METRIC_NAME : string := "raft.safety.commit_conflict".
Definition LEADER_STUCK_METRIC_NAME : string := "raft.liveness.leader_stuck".
Definition NO_LEADER_METRIC_NAME : string := "raft.liveness.no_leader".
Definition RAFT_COMMIT_METRIC_NAME : string := "raft.stats.commit_heard".
Definition NEW_LEADER_METRIC_NAME : string := "raft.stats.new_leader_heard".
Definition PBFT_COMMIT_METRIC_NAME : string := "pbft.stats.commit_heard".
Definition PRIMARY_HEARD_METRIC_NAME : string := "pbft.stats.primary_heard".
Definition FAILURE_DETECTED_METRIC_NAME : string := "pbft.stats.failure_detected".
Definition PBFT_COMMIT_CONFLICT_METRIC_NAME : string := "pbft.safety.commit_conflict".
Definition PRIMARY_CONFLICT_METRIC_NAME : string := "pbft.safety.primary_conflict".
Definition NO_PRIMARY_METRIC_NAME : string := "pbft.liveness.no_primary".
Definition STATSD_COUNTER_FORMAT : string := ":1|c".

Definition leader_timeout : N := 30000.
Definition primary_timeout : N := 30000.

(** What the constructor is given. *)
Record config := Config {
  uuid : uuid_t;
  monitor_endpoint : option endpoint;
  mem_size : N;
  use_pbft : bool
}.

Record audit := Audit {
  recorded_errors : list string;
  forgotten_error_count : N;
  leader_dead_count : N;
  primary_dead_count : N;
  leader_stuck_count : N;
  recorded_leaders : std_map.map;
  recorded_raft_commits : std_map.map;
  recorded_primaries : std_map.map;
  recorded_pbft_commits : std_map.map;
  last_leader : uuid_t;
  last_leader_commit_index : N;
  leader_has_uncommitted_entries : bool;
  start_once : bool
}.

Definition new : audit := Audit [] 0 0 0 0 [] [] [] [] "" 0 false false.

(** The fields in groups: errors, counters, records, progress, start. *)
Definition set_errors (l : list string) (n : N) (a : audit) : audit :=
  Audit l n (leader_dead_count a) (primary_dead_count a) (leader_stuck_count a) (recorded_leaders a)
    (recorded_raft_commits a) (recorded_primaries a) (recorded_pbft_commits a) (last_leader a)
    (last_leader_commit_index a) (leader_has_uncommitted_entries a) (start_once a).
Definition set_counts (dead primary stuck : N) (a : audit) : audit :=
  Audit (recorded_errors a) (forgotten_error_count a) dead primary stuck (recorded_leaders a)
    (recorded_raft_commits a) (recorded_primaries a) (recorded_pbft_commits a) (last_leader a)
    (last_leader_commit_index a) (leader_has_uncommitted_entries a) (start_once a).
Definition set_records (leaders raft primaries pbft : std_map.map) (a : audit) : audit :=
  Audit (recorded_errors a) (forgotten_error_count a) (leader_dead_count a) (primary_dead_count a)
    (leader_stuck_count a) leaders raft primaries pbft (last_leader a)
    (last_leader_commit_index a) (leader_has_uncommitted_entries a) (start_once a).
Definition set_progress (leader : uuid_t) (commit_index : N) (uncommitted : bool) (a : audit) : audit :=
  Audit (recorded_errors a) (forgotten_error_count a) (leader_dead_count a) (primary_dead_count a)
    (leader_stuck_count a) (recorded_leaders a) (recorded_raft_commits a) (recorded_primaries a)
    (recorded_pbft_commits a) leader commit_index uncommitted (start_once a).
Definition set_started (a : audit) : audit :=
  Audit (recorded_errors a) (forgotten_error_count a) (leader_dead_count a) (primary_dead_count a)
    (leader_stuck_count a) (recorded_leaders a) (recorded_raft_commits a) (recorded_primaries a)
    (recorded_pbft_commits a) (last_leader a) (last_leader_commit_index a) (leader_has_uncommitted_entries a) true.

Inductive effect :=
| RegisterForMessage (msg_type : string)
| SendTo (ep : endpoint) (stat : string)                 (* socket->async_send_to *)
| CancelAliveTimer
| StartLeaderAliveTimer (ms : N)
| StartPrimaryAliveTimer (ms : N)
| CancelProgressTimer
| StartProgressTimer (ms : N)
| CloseSession (session : session_id).

Abbreviation auditM := (M audit effect).

Section Auditor.
Context (cfg : config).

Definition error_count (a : audit) : N := (lengthN (recorded_errors a) + forgotten_error_count a)%N.
Definition error_strings (a : audit) : list string := recorded_errors a.

Definition statsd_namespace_prefix : string := "com.bluzelle.swarm.singleton.node." ++ uuid cfg ++ ".".

Definition send_to_monitor (stat : string) : auditM unit :=
  match monitor_endpoint cfg with
  | None => mret tt
  | Some ep => emit (SendTo ep stat)
  end.

(** [while (recorded_errors.size() > mem_size)]: the oldest errors are forgotten. *)
Fixpoint trim_errors (l : list string) (forgotten : N) : list string * N :=
  match l with
  | [] => ([], forgotten)
  | _ :: l' => if (mem_size cfg <? lengthN l)%N then trim_errors l' (add64 forgotten 1) else (l, forgotten)
  end.

Definition trim : auditM unit :=
  modify (λ a,
    let errors := trim_errors (recorded_errors a) (forgotten_error_count a) in
    set_records (std_map.trim (mem_size cfg) (recorded_leaders a))
      (std_map.trim (mem_size cfg) (recorded_raft_commits a)) (recorded_primaries a) (recorded_pbft_commits a)
      (set_errors errors.1 errors.2 a)).

Definition report_error (metric_name description : string) : auditM unit :=
  modify (λ a, set_errors (recorded_errors a ++ [description]) (forgotten_error_count a) a);;
  send_to_monitor (statsd_namespace_prefix ++ metric_name ++ STATSD_COUNTER_FORMAT);;
  trim.

Definition reset_primary_alive_timer : auditM unit :=
  modify (λ a, set_counts (leader_dead_count a) 0 (leader_stuck_count a) a);;
  emit CancelAliveTimer;;
  emit (StartPrimaryAliveTimer primary_timeout).

Definition reset_leader_alive_timer : auditM unit :=
  modify (λ a, set_counts 0 (primary_dead_count a) (leader_stuck_count a) a);;
  emit CancelAliveTimer;;
  emit (StartLeaderAliveTimer leader_timeout).

Definition reset_leader_progress_timer : auditM unit :=
  modify (λ a, set_counts (leader_dead_count a) (primary_dead_count a) 0 a);;
  emit CancelProgressTimer;;
  emit (StartProgressTimer leader_timeout).

Definition clear_leader_progress_timer : auditM unit :=
  modify (λ a, set_counts (leader_dead_count a) (primary_dead_count a) 0 a);;
  emit CancelProgressTimer.

Definition set_uncommitted (b : bool) : auditM unit :=
  modify (λ a, set_progress (last_leader a) (last_leader_commit_index a) b a).

(** The counters are 32-bit. *)
Definition handle_leader_alive_timeout (ec : bool) : auditM unit :=
  if ec then mret tt else
  modify (λ a, set_counts (u32 (leader_dead_count a + 1)) (primary_dead_count a) (leader_stuck_count a) a);;
  n ← gets leader_dead_count;
  report_error NO_LEADER_METRIC_NAME ("No leader alive [" ++ to_string n ++ "]");;
  clear_leader_progress_timer;;
  set_uncommitted false;;
  emit (StartLeaderAliveTimer leader_timeout).

Definition handle_primary_alive_timeout (ec : bool) : auditM unit :=
  if ec then mret tt else
  modify (λ a, set_counts (leader_dead_count a) (u32 (primary_dead_count a + 1)) (leader_stuck_count a) a);;
  n ← gets primary_dead_count;
  report_error NO_PRIMARY_METRIC_NAME ("No primary alive [" ++ to_string n ++ "]");;
  emit (StartPrimaryAliveTimer primary_timeout).

Definition handle_leader_progress_timeout (ec : bool) : auditM unit :=
  if ec then mret tt else
  modify (λ a, set_counts (leader_dead_count a) (primary_dead_count a) (u32 (leader_stuck_count a + 1)) a);;
  n ← gets leader_stuck_count;
  report_error LEADER_STUCK_METRIC_NAME ("Leader alive but not making progress [" ++ to_string n ++ "]");;
  emit (StartProgressTimer leader_timeout).

Definition raft_specific_init : auditM unit := reset_leader_alive_timer.
Definition pbft_specific_init : auditM unit := reset_primary_alive_timer.

Definition start : auditM unit :=
  started ← gets start_once;
  if (started : bool) then mret tt
  else
    modify set_started;;
    emit (RegisterForMessage "audit");;
    if use_pbft cfg then pbft_specific_init else raft_specific_init.

Definition handle_primary_status (m : primary_status) : auditM unit :=
  if negb (use_pbft cfg) then mret tt else
  recorded ← gets (λ a, std_map.find (ps_view m) (recorded_primaries a));
  match recorded with
  | None =>
      send_to_monitor (PRIMARY_HEARD_METRIC_NAME ++ STATSD_COUNTER_FORMAT);;
      modify (λ a, set_records (recorded_leaders a) (recorded_raft_commits a)
                     (std_map.put (ps_view m) (ps_primary m) (recorded_primaries a)) (recorded_pbft_commits a) a);;
      trim
  | Some p =>
      when (negb (bool_decide (p = ps_primary m)))
        (report_error PRIMARY_CONFLICT_METRIC_NAME
          ("Conflicting primary elected! '" ++ p ++ "' is the recorded primary of view " ++ to_string (ps_view m)
           ++ ", but '" ++ ps_primary m ++ "' claims to be the primary of the same view."))
  end;;
  reset_primary_alive_timer.

Definition handle_leader_made_progress (m : leader_status) : auditM unit :=
  if (ls_current_commit_index m =? ls_current_log_index m)%N then
    clear_leader_progress_timer;; set_uncommitted false
  else
    reset_leader_progress_timer;; set_uncommitted true.

Definition handle_leader_data (m : leader_status) : auditM unit :=
  a ← gets id;
  (if negb (bool_decide (ls_leader m = last_leader a)) then
     modify (λ a, set_progress (ls_leader m) (last_leader_commit_index a) (leader_has_uncommitted_entries a) a);;
     handle_leader_made_progress m
   else if (last_leader_commit_index a <? ls_current_commit_index m)%N then handle_leader_made_progress m
   else if (ls_current_commit_index m <? ls_current_log_index m)%N && negb (leader_has_uncommitted_entries a) then
     reset_leader_progress_timer;; set_uncommitted true
   else mret tt);;
  modify (λ a, set_progress (last_leader a) (ls_current_commit_index m) (leader_has_uncommitted_entries a) a).

Definition handle_leader_status (m : leader_status) : auditM unit :=
  if use_pbft cfg then mret tt else
  recorded ← gets (λ a, std_map.find (ls_term m) (recorded_leaders a));
  match recorded with
  | None =>
      send_to_monitor (NEW_LEADER_METRIC_NAME ++ STATSD_COUNTER_FORMAT);;
      modify (λ a, set_records (std_map.put (ls_term m) (ls_leader m) (recorded_leaders a))
                     (recorded_raft_commits a) (recorded_primaries a) (recorded_pbft_commits a) a);;
      trim
  | Some l =>
      when (negb (bool_decide (l = ls_leader m)))
        (report_error LEADER_CONFLICT_METRIC_NAME
          ("Conflicting leader elected! '" ++ l ++ "' is the recorded leader of term " ++ to_string (ls_term m)
           ++ ", but '" ++ ls_leader m ++ "' claims to be the leader of the same term."))
  end;;
  reset_leader_alive_timer;;
  handle_leader_data m.

Definition handle_raft_commit (m : raft_commit_notification) : auditM unit :=
  if use_pbft cfg then mret tt else
  send_to_monitor (RAFT_COMMIT_METRIC_NAME ++ STATSD_COUNTER_FORMAT);;
  recorded ← gets (λ a, std_map.find (rc_log_index m) (recorded_raft_commits a));
  match recorded with
  | None =>
      modify (λ a, set_records (recorded_leaders a)
                     (std_map.put (rc_log_index m) (rc_operation m) (recorded_raft_commits a))
                     (recorded_primaries a) (recorded_pbft_commits a) a);;
      trim
  | Some o =>
      when (negb (bool_decide (o = rc_operation m)))
        (report_error RAFT_COMMIT_CONFLICT_METRIC_NAME
          ("Conflicting commit detected! '" ++ o ++ "' is the recorded entry at index " ++ to_string (rc_log_index m)
           ++ ", but '" ++ rc_operation m ++ "' has been committed with the same index."))
  end.

Definition handle_pbft_commit (m : pbft_commit_notification) : auditM unit :=
  if negb (use_pbft cfg) then mret tt else
  send_to_monitor (PBFT_COMMIT_METRIC_NAME ++ STATSD_COUNTER_FORMAT);;
  recorded ← gets (λ a, std_map.find (pc_sequence_number m) (recorded_pbft_commits a));
  match recorded with
  | None =>
      modify (λ a, set_records (recorded_leaders a) (recorded_raft_commits a) (recorded_primaries a)
                     (std_map.put (pc_sequence_number m) (pc_operation m) (recorded_pbft_commits a)) a);;
      trim
  | Some o =>
      when (negb (bool_decide (o = pc_operation m)))
        (report_error PBFT_COMMIT_CONFLICT_METRIC_NAME
          ("Conflicting commit detected! '" ++ o ++ "' is the recorded entry at sequence "
           ++ to_string (pc_sequence_number m)
           ++ ", but '" ++ pc_operation m ++ "' has been committed with the same sequence."))
  end.

Definition handle_failure_detected (m : failure_detected) : auditM unit :=
  if negb (use_pbft cfg) then mret tt else
  send_to_monitor (FAILURE_DETECTED_METRIC_NAME ++ STATSD_COUNTER_FORMAT).

Definition handle_audit_message (m : audit_message) : auditM unit :=
  match m with
  | AuditRaftCommit m => handle_raft_commit m
  | AuditLeaderStatus m => handle_leader_status m
  | AuditPbftCommit m => handle_pbft_commit m
  | AuditPrimaryStatus m => handle_primary_status m
  | AuditFailureDetected m => handle_failure_detected m
  | AuditNotSet => mret tt
  end.

(** [parse_audit]: what the message holds after [ParseFromString], whose result
    the code ignores. *)
Definition handle `{JS : Jsoncpp, BO : Boost} (parse_audit : string → audit_message)
    (json : Value) (session : session_id) : auditM unit :=
  data ← lift (member json "audit-data");
  encoded ← lift (asString data);
  handle_audit_message (parse_audit (base64_decode encoded));;
  emit (CloseSession session).

Definition current_memory_size (a : audit) : N :=
  (lengthN (recorded_raft_commits a) + lengthN (recorded_errors a) + lengthN (recorded_leaders a))%N.

(** ** Runs of the auditor

    What the node and the timers call, in any order. *)
Inductive event :=
| Start
| Message (m : audit_message)
| LeaderAliveTimeout (ec : bool)
| PrimaryAliveTimeout (ec : bool)
| LeaderProgressTimeout (ec : bool).

Definition handle_event (e : event) : auditM unit :=
  match e with
  | Start => start
  | Message m => handle_audit_message m
  | LeaderAliveTimeout ec => handle_leader_alive_timeout ec
  | PrimaryAliveTimeout ec => handle_primary_alive_timeout ec
  | LeaderProgressTimeout ec => handle_leader_progress_timeout ec
  end.

Definition run (evs : list event) : auditM unit := for_each handle_event evs.

Lemma trim_errors_length l n : (lengthN (trim_errors l n).1 ≤ mem_size cfg)%N.
Proof.
  revert n. induction l as [|e l IH]; intros n; [unfold lengthN; simpl; lia|]. cbn [trim_errors].
  destruct (N.ltb_spec (mem_size cfg) (lengthN (e :: l))); [apply IH|done].
Qed.

Lemma trim_errors_count l n :
  u64 (lengthN (trim_errors l n).1 + (trim_errors l n).2) = u64 (lengthN l + n).
Proof.
  revert n. induction l as [|e l IH]; intros n; [done|]. cbn [trim_errors].
  destruct (_ <? _)%N; [|done]. rewrite IH. unfold add64, u64. rewrite N.Div0.add_mod_idemp_r.
  f_equal. unfold lengthN. simpl length. lia.
Qed.

Lemma trim_errors_nonempty l n : (0 < mem_size cfg)%N → (trim_errors l n).1 = [] → l = [].
Proof.
  intros Hm. revert n. induction l as [|e l IH]; intros n; [done|]. cbn [trim_errors].
  destruct (N.ltb_spec (mem_size cfg) (lengthN (e :: l))) as [Hlt|]; [|done].
  intros ->%IH. unfold lengthN in Hlt. simpl in Hlt. lia.
Qed.

(** *** The bounds that [trim] keeps *)
Definition bounded (a : audit) : Prop :=
  (lengthN (recorded_errors a) ≤ mem_size cfg)%N ∧ (lengthN (recorded_leaders a) ≤ mem_size cfg)%N ∧
  (lengthN (recorded_raft_commits a) ≤ mem_size cfg)%N.

(** The error metrics among the calls a method makes: their names carry the
    prefix of the node. *)
Definition is_report (e : effect) : bool :=
  match e with SendTo _ stat => String.prefix statsd_namespace_prefix stat | _ => false end.
Definition reports (es : list effect) : N := lengthN (List.filter is_report es).

(** [audited m]: the method returns, keeps the bounds, and counts every error
    it sends to the monitor, which the configuration names. *)
Definition audited {A} (m : auditM A) : Prop := ∀ a,
  (∃ r, res m a = Ok r) ∧ (bounded a → bounded (post m a)) ∧
  (is_Some (monitor_endpoint cfg) → u64 (error_count (post m a)) = u64 (error_count a + reports (out m a))).

Lemma reports_app es es' : reports (es ++ es') = (reports es + reports es')%N.
Proof. unfold reports. rewrite List.filter_app. apply lengthN_app. Qed.

Lemma audited_bind {A B} (m : auditM A) (k : A → auditM B) :
  audited m → (∀ r, audited (k r)) → audited (m ≫= k).
Proof.
  intros Hm Hk a. destruct (Hm a) as ([r Hr] & Hb & Hc), (Hk r (post m a)) as (Hr' & Hb' & Hc').
  rewrite res_bind, post_bind, out_bind, Hr. split_and!; [done|auto|]. intros Hmon.
  rewrite Hc' by done. rewrite reports_app, N.add_assoc. unfold u64 in *.
  by rewrite <-N.Div0.add_mod_idemp_l, Hc, N.Div0.add_mod_idemp_l.
Qed.

Lemma audited_pure {A} (m : auditM A) a r s' es :
  m a = (Ok r, s', es) → reports es = 0%N →
  recorded_errors s' = recorded_errors a → forgotten_error_count s' = forgotten_error_count a →
  recorded_leaders s' = recorded_leaders a → recorded_raft_commits s' = recorded_raft_commits a →
  (∃ r, res m a = Ok r) ∧ (bounded a → bounded (post m a)) ∧
  (is_Some (monitor_endpoint cfg) → u64 (error_count (post m a)) = u64 (error_count a + reports (out m a))).
Proof.
  unfold res, post, out, bounded, error_count. intros -> Hes He Hf Hl Hr. cbn [fst snd].
  rewrite He, Hf, Hl, Hr, Hes, N.add_0_r. eauto.
Qed.

Lemma audited_ret {A} (x : A) : audited (mret x).
Proof. intros a. by eapply audited_pure. Qed.
Lemma audited_gets {A} (f : audit → A) : audited (gets f).
Proof. intros a. by eapply audited_pure. Qed.
Lemma audited_emit e : is_report e = false → audited (emit e).
Proof. intros He a. eapply audited_pure; [done|unfold reports; simpl; by rewrite He|done..]. Qed.
Lemma audited_counts f g h : audited (modify (λ a, set_counts (f a) (g a) (h a) a)).
Proof. intros a. by eapply audited_pure. Qed.
Lemma audited_progress f g h : audited (modify (λ a, set_progress (f a) (g a) (h a) a)).
Proof. intros a. by eapply audited_pure. Qed.
Lemma audited_started : audited (modify set_started).
Proof. intros a. by eapply audited_pure. Qed.
Lemma audited_send stat : String.prefix statsd_namespace_prefix stat = false → audited (send_to_monitor stat).
Proof.
  intros He. unfold send_to_monitor. destruct (monitor_endpoint cfg); [by apply audited_emit|apply audited_ret].
Qed.
Lemma audited_when b (m : auditM unit) : audited m → audited (when b m).
Proof. destruct b; [done|intros _; apply audited_ret]. Qed.

Lemma bounded_trim a : bounded (post trim a).
Proof.
  split_and!; simpl; [apply trim_errors_length|apply std_map.trim_length|apply std_map.trim_length].
Qed.

Lemma error_count_trim a : u64 (error_count (post trim a)) = u64 (error_count a).
Proof. apply trim_errors_count. Qed.

(** A record is put and the memory trimmed. *)
Lemma audited_put f :
  (∀ a, recorded_errors (f a) = recorded_errors a ∧ forgotten_error_count (f a) = forgotten_error_count a) →
  audited (modify f;; trim).
Proof.
  intros Hf a. rewrite res_bind, post_bind, out_bind. split_and!; [by eexists| |].
  - intros _. apply bounded_trim.
  - intros _. rewrite res_modify, post_modify, error_count_trim. unfold error_count. destruct (Hf a) as [-> ->].
    unfold reports, lengthN. simpl. by rewrite N.add_0_r.
Qed.

Lemma prefix_app_true s t : String.prefix s (s ++ t) = true.
Proof. induction s as [|c s IH]; simpl; [by destruct t|]. by destruct (ascii_dec c c). Qed.

Lemma audited_report_error name description : audited (report_error name description).
Proof.
  intros a. unfold report_error, send_to_monitor. destruct (monitor_endpoint cfg) as [ep|] eqn:Hep.
  - split_and!; [by eexists|intros _; apply bounded_trim|intros _].
    rewrite !post_bind, !out_bind. cbn -[u64 trim reports app]. rewrite error_count_trim.
    unfold reports. simpl List.filter. rewrite prefix_app_true. unfold error_count. simpl.
    rewrite lengthN_app. f_equal. unfold lengthN. simpl. lia.
  - split_and!; [by eexists|intros _; apply bounded_trim|by intros []].
Qed.

End Auditor.

Create HintDb audit.
#[export] Hint Resolve audited_ret audited_gets audited_counts audited_progress audited_started
  audited_report_error audited_put : audit.
#[export] Hint Extern 1 (audited _ (send_to_monitor _ _)) => apply audited_send; reflexivity : audit.
#[export] Hint Extern 1 (audited _ (emit _)) => apply audited_emit; reflexivity : audit.

Ltac audited_step :=
  first
  [ solve [auto with audit]
  | lazymatch goal with
    | |- audited _ (mbind _ _) => apply audited_bind; [|intros ?]
    | |- audited _ (when _ _) => apply audited_when
    | |- audited _ (match ?x with _ => _ end) => destruct x
    end ].

Section Properties.
Context (cfg : config).

Lemma audited_event e : audited cfg (handle_event cfg e).
Proof.
  destruct e as [|[]| | |]; cbn [handle_event handle_audit_message]; unfold handle_raft_commit, handle_leader_status, handle_pbft_commit,
    handle_primary_status, handle_failure_detected, handle_leader_data, handle_leader_made_progress, start,
    pbft_specific_init, raft_specific_init, handle_leader_alive_timeout, handle_primary_alive_timeout,
    handle_leader_progress_timeout, reset_leader_alive_timer, reset_primary_alive_timer,
    reset_leader_progress_timer, clear_leader_progress_timer, set_uncommitted; repeat audited_step.
Qed.

Lemma audited_run evs : audited cfg (run cfg evs).
Proof.
  induction evs as [|e evs IH]; [apply audited_ret|].
  apply audited_bind; [apply audited_event|by intros []].
Qed.

(** *** What the messages state

    The auditor takes from a message, in the mode it runs in, one statement:
    the leader of a term, the entry at an index, the primary of a view or the
    operation at a sequence number. *)
Inductive kind := LeaderOf | RaftCommitAt | PrimaryOf | PbftCommitAt.

#[local] Instance kind_eq_dec : EqDecision kind.
Proof. solve_decision. Defined.

Definition statement (m : audit_message) : option (kind * N * string) :=
  match use_pbft cfg, m with
  | false, AuditLeaderStatus m => Some (LeaderOf, ls_term m, ls_leader m)
  | false, AuditRaftCommit m => Some (RaftCommitAt, rc_log_index m, rc_operation m)
  | true, AuditPrimaryStatus m => Some (PrimaryOf, ps_view m, ps_primary m)
  | true, AuditPbftCommit m => Some (PbftCommitAt, pc_sequence_number m, pc_operation m)
  | _, _ => None
  end.

(** No two messages contradict one another. *)
Definition consistent (ms : list audit_message) : Prop := ∀ m1 m2 k n v1 v2,
  m1 ∈ ms → m2 ∈ ms → statement m1 = Some (k, n, v1) → statement m2 = Some (k, n, v2) → v1 = v2.

Definition record (k : kind) (a : audit) : std_map.map :=
  match k with
  | LeaderOf => recorded_leaders a
  | RaftCommitAt => recorded_raft_commits a
  | PrimaryOf => recorded_primaries a
  | PbftCommitAt => recorded_pbft_commits a
  end.

Definition same_memory : relation audit := λ a a',
  recorded_errors a' = recorded_errors a ∧ ∀ k, record k a' = record k a.

#[local] Instance same_memory_preorder : PreOrder same_memory.
Proof. split; [done|]. intros a b c [H1 H2] [H3 H4]. split; [congruence|intros k; by rewrite H4]. Qed.

Lemma same_memory_leader_data m : respects same_memory (handle_leader_data m).
Proof.
  unfold handle_leader_data, handle_leader_made_progress, clear_leader_progress_timer,
    reset_leader_progress_timer, set_uncommitted. respects_steps; (split; [done|by intros []]).
Qed.

(** [learns k n v a a']: the statement was recorded, was known, or contradicted
    the record, in which case an error was reported. *)
Definition learns (k : kind) (n : N) (v : string) (a a' : audit) : Prop :=
  (∀ k' e, e ∈ record k' a' → e ∈ record k' a ∨ (k' = k ∧ e = (n, v))) ∧
  (recorded_errors a = [] → recorded_errors a' ≠ [] → ∃ v', std_map.find n (record k a) = Some v' ∧ v' ≠ v) ∧
  (use_pbft cfg = true → (0 < mem_size cfg)%N → recorded_errors a' = [] →
   recorded_errors a = [] ∧ std_map.find n (record k a') = Some v ∧
   ∀ k' n' v', std_map.find n' (record k' a) = Some v' → k' ≠ LeaderOf → k' ≠ RaftCommitAt →
               std_map.find n' (record k' a') = Some v').

Lemma learns_same k n v a a' a'' : learns k n v a a' → same_memory a' a'' → learns k n v a a''.
Proof.
  intros (H1 & H2 & H3) [He Hr]. split_and!; [intros k' e; rewrite Hr; apply H1| |]; rewrite He; [done|].
  intros Hp Hm Ha. destruct (H3 Hp Hm Ha) as (? & ? & ?). split_and!; [done|by rewrite Hr|].
  intros k'. rewrite Hr. auto.
Qed.

Lemma learns_known k n v a : std_map.find n (record k a) = Some v → learns k n v a a.
Proof. intros Hf. split_and!; [auto|done|auto]. Qed.

Definition put_record (k : kind) (n : N) (v : string) (a : audit) : audit :=
  let put k' m := if decide (k' = k) then std_map.put n v m else m in
  set_records (put LeaderOf (recorded_leaders a)) (put RaftCommitAt (recorded_raft_commits a))
    (put PrimaryOf (recorded_primaries a)) (put PbftCommitAt (recorded_pbft_commits a)) a.

Lemma record_put_record k n v a k' :
  record k' (put_record k n v a) = if decide (k' = k) then std_map.put n v (record k' a) else record k' a.
Proof. by destruct k'. Qed.

Lemma elem_of_record_trim k e a : e ∈ record k (post (trim cfg) a) → e ∈ record k a.
Proof. destruct k; simpl; first [apply std_map.elem_of_trim|done]. Qed.

Lemma record_trim_pbft k a : k ≠ LeaderOf → k ≠ RaftCommitAt → record k (post (trim cfg) a) = record k a.
Proof. by destruct k. Qed.

Lemma recorded_errors_trim a : (0 < mem_size cfg)%N → recorded_errors (post (trim cfg) a) = [] → recorded_errors a = [].
Proof. intros Hm. simpl. by apply trim_errors_nonempty. Qed.

Lemma recorded_errors_trim_nil a : recorded_errors a = [] → recorded_errors (post (trim cfg) a) = [].
Proof. simpl. by intros ->. Qed.

Lemma learns_new k n v a :
  (use_pbft cfg = true → k ≠ LeaderOf ∧ k ≠ RaftCommitAt) → std_map.find n (record k a) = None →
  learns k n v a (post (trim cfg) (put_record k n v a)).
Proof.
  intros Hk Hf. split_and!.
  - intros k' e He%elem_of_record_trim. rewrite record_put_record in He.
    destruct (decide (k' = k)) as [->|]; [|by left]. apply std_map.elem_of_put in He as [->|]; auto.
  - intros Ha Ha'. destruct Ha'. by apply recorded_errors_trim_nil.
  - intros Hp Hm Ha%recorded_errors_trim; [|done]. destruct (Hk Hp). split_and!; [done| |].
    + rewrite record_trim_pbft, record_put_record, decide_True by done. apply std_map.find_put.
    + intros k' n' v' Hf' ??. rewrite record_trim_pbft, record_put_record by done.
      destruct (decide (k' = k)) as [->|]; [|done]. rewrite std_map.find_put_ne; [done|]. intros ->. congruence.
Qed.

Lemma learns_conflict k n v v' a name description :
  std_map.find n (record k a) = Some v' → v' ≠ v →
  learns k n v a (post (report_error cfg name description) a).
Proof.
  intros Hf Hne.
  assert (post (report_error cfg name description) a
          = post (trim cfg) (set_errors (recorded_errors a ++ [description]) (forgotten_error_count a) a)) as ->.
  { unfold report_error, send_to_monitor. by destruct (monitor_endpoint cfg). }
  split_and!; [|eauto|].
  - intros k' e He%elem_of_record_trim. left. by destruct k'.
  - intros _ Hm Ha%recorded_errors_trim; [|done]. simpl in Ha. by destruct (recorded_errors a).
Qed.

Lemma learns_bind {B} k n v a (m : auditM unit) (rest : unit → auditM B) :
  learns k n v a (post m a) → (∀ u, respects same_memory (rest u)) → learns k n v a (post (m ≫= rest) a).
Proof.
  intros Hm Hrest. rewrite post_bind. destruct (res m a); [|done..]. eapply learns_same; [done|apply Hrest].
Qed.

(** The shape the handlers share: look the record up, put it or compare it. *)
Lemma learns_record k n v a (absent : auditM unit) name (description : string → string) :
  (use_pbft cfg = true → k ≠ LeaderOf ∧ k ≠ RaftCommitAt) →
  post absent a = post (trim cfg) (put_record k n v a) →
  learns k n v a (post match std_map.find n (record k a) with
                       | None => absent
                       | Some v' => when (negb (bool_decide (v' = v))) (report_error cfg name (description v'))
                       end a).
Proof.
  intros Hk Habs. destruct (std_map.find n (record k a)) as [v'|] eqn:Hf.
  - destruct (bool_decide_reflect (v' = v)) as [->|]; [by apply learns_known|by eapply learns_conflict].
  - rewrite Habs. by apply learns_new.
Qed.

Lemma post_send stat a : post (send_to_monitor cfg stat) a = a.
Proof. unfold send_to_monitor. by destruct (monitor_endpoint cfg). Qed.
Lemma res_send stat a : res (send_to_monitor cfg stat) a = Ok tt.
Proof. unfold send_to_monitor. by destruct (monitor_endpoint cfg). Qed.

Lemma handle_learns m a :
  match statement m with
  | Some (k, n, v) => learns k n v a (post (handle_audit_message cfg m) a)
  | None => same_memory a (post (handle_audit_message cfg m) a)
  end.
Proof.
  unfold statement. destruct (use_pbft cfg) eqn:Hp, m; cbn [handle_audit_message];
  unfold handle_raft_commit, handle_leader_status, handle_pbft_commit, handle_primary_status, handle_failure_detected;
  rewrite ?Hp; try done; cbn [negb].
  - rewrite post_bind, res_send, post_send, post_bind, res_gets, post_gets. apply (learns_record PbftCommitAt); [by rewrite Hp|done].
  - rewrite post_bind, res_gets, post_gets. apply (learns_bind PrimaryOf).
    + apply (learns_record PrimaryOf); [done|]. by rewrite post_bind, post_send, res_send.
    + intros _. unfold reset_primary_alive_timer. respects_steps. by split; [|intros []].
  - by rewrite post_send.
  - rewrite post_bind, res_send, post_send, post_bind, res_gets, post_gets. apply (learns_record RaftCommitAt); [by rewrite Hp|done].
  - rewrite post_bind, res_gets, post_gets. apply (learns_bind LeaderOf).
    + apply (learns_record LeaderOf); [by rewrite Hp|]. by rewrite post_bind, post_send, res_send.
    + intros _. unfold reset_leader_alive_timer.
      respects_steps; [by split; [|intros []]|apply same_memory_leader_data].
Qed.

(** The memory after the messages [ms] holds only what they state; in PBFT mode,
    as long as no error was reported, all they state. *)
Definition remembers (ms : list audit_message) (a : audit) : Prop :=
  (∀ k n v, (n, v) ∈ record k a → ∃ m, m ∈ ms ∧ statement m = Some (k, n, v)) ∧
  (recorded_errors a ≠ [] → ¬ consistent ms) ∧
  (use_pbft cfg = true → (0 < mem_size cfg)%N → recorded_errors a = [] →
   ∀ m k n v, m ∈ ms → statement m = Some (k, n, v) → std_map.find n (record k a) = Some v).

Lemma inconsistent_app ms ms' : ¬ consistent ms → ¬ consistent (ms ++ ms').
Proof.
  intros Hn Hc. apply Hn. intros m1 m2 k n v1 v2 H1 H2. apply Hc; apply elem_of_app; by left.
Qed.

Lemma statement_pbft_kind m k n v :
  use_pbft cfg = true → statement m = Some (k, n, v) → k ≠ LeaderOf ∧ k ≠ RaftCommitAt.
Proof. unfold statement. intros ->. destruct m; naive_solver. Qed.

Lemma remembers_learns ms a m k n v a' :
  remembers ms a → statement m = Some (k, n, v) → learns k n v a a' → remembers (ms ++ [m]) a'.
Proof.
  intros (Hs & He & Hc) Hm (Hl & Hle & Hlc). split_and!.
  - intros k' n' v' Hin. destruct (Hl _ _ Hin) as [Hin'|[-> [= -> ->]]].
    + destruct (Hs _ _ _ Hin') as (m' & ? & ?). exists m'. rewrite elem_of_app. auto.
    + exists m. rewrite elem_of_app, list_elem_of_singleton. auto.
  - intros Ha'. destruct (decide (recorded_errors a = [])) as [Ha|Ha]; [|by apply inconsistent_app, He].
    destruct (Hle Ha Ha') as (v' & Hf & Hne). intros Hcons. apply Hne.
    destruct (Hs k n v') as (m' & Hin & Hm'); [by apply std_map.find_elem|].
    eapply (Hcons m' m); [| |done|done]; rewrite elem_of_app, ?list_elem_of_singleton; auto.
  - intros Hp Hmem Ha' m' k' n' v' Hin Hm'. destruct (Hlc Hp Hmem Ha') as (Ha & Hf & Hkeep).
    apply elem_of_app in Hin as [Hin| ->%list_elem_of_singleton]; [|naive_solver].
    destruct (statement_pbft_kind m' k' n' v' Hp Hm'). apply Hkeep; [|done..]. by eapply Hc.
Qed.

Lemma remembers_same ms a m a' :
  remembers ms a → statement m = None → same_memory a a' → remembers (ms ++ [m]) a'.
Proof.
  intros (Hs & He & Hc) Hm [Her Hr]. split_and!.
  - intros k n v. rewrite Hr. intros (m' & ? & ?)%Hs. exists m'. rewrite elem_of_app. auto.
  - rewrite Her. intros ?. by apply inconsistent_app, He.
  - rewrite Her. intros Hp Hmem Ha m' k' n' v' Hin Hm'. rewrite Hr.
    apply elem_of_app in Hin as [Hin| ->%list_elem_of_singleton]; [eauto|congruence].
Qed.

Lemma remembers_run ms ms' a :
  remembers ms a → remembers (ms ++ ms') (post (run cfg (Message <$> ms')) a).
Proof.
  revert ms a. induction ms' as [|m ms' IH]; intros ms a Ha; [by rewrite app_nil_r|].
  change (run cfg (Message <$> m :: ms')) with (handle_audit_message cfg m;; run cfg (Message <$> ms')).
  destruct (audited_event (Message m) a) as ([[] Hr] & _). rewrite post_bind. simpl in Hr. rewrite Hr.
  rewrite (cons_middle m), (assoc_L (++)). apply IH.
  pose proof (handle_learns m a) as Hl. destruct (statement m) as [[[k n] v]|] eqn:Hm.
  - by eapply remembers_learns.
  - by eapply remembers_same.
Qed.

Lemma remembers_new : remembers [] new.
Proof. split_and!; [by intros [] n v ?%not_elem_of_nil|done|by intros _ _ _ m k n v ?%not_elem_of_nil]. Qed.

(** Commit notifications for the [n] sequence numbers from [i] on. *)
Fixpoint commits (i : N) (n : nat) : list audit_message :=
  match n with
  | O => []
  | S n => AuditPbftCommit (PbftCommit "" i "") :: commits (N.succ i) n
  end.

Lemma pbft_commits_grow i n a :
  use_pbft cfg = true → Forall (λ e, (e.1 < i)%N) (recorded_pbft_commits a) →
  length (recorded_pbft_commits (post (run cfg (Message <$> commits i n)) a))
  = (length (recorded_pbft_commits a) + n)%nat.
Proof.
  intros Hp. revert i a. induction n as [|n IH]; intros i a Ha; [symmetry; apply Nat.add_0_r|]. cbn [commits].
  cbn [fmap list_fmap]. fold (Message <$> commits (N.succ i) n). cbn [run for_each handle_event handle_audit_message].
  fold (run cfg (Message <$> commits (N.succ i) n)).
  destruct (audited_event (Message (AuditPbftCommit (PbftCommit "" i ""))) a) as ([[] Hr] & _).
  rewrite post_bind. simpl in Hr. rewrite Hr.
  assert (recorded_pbft_commits (post (handle_pbft_commit cfg (PbftCommit "" i "")) a)
          = recorded_pbft_commits a ++ [(i, ""%string)]) as Hput.
  { unfold handle_pbft_commit. rewrite Hp. cbn [negb].
    rewrite post_bind, res_send, post_send, post_bind, res_gets, post_gets. simpl.
    rewrite std_map.find_none by done. simpl. by apply std_map.put_last. }
  rewrite IH, Hput, length_app; [simpl; lia|]. rewrite Hput. apply Forall_app. split; [|by repeat constructor; simpl; lia].
  eapply Forall_impl; [done|]. simpl. lia.
Qed.

Lemma statement_commits i n m k s v :
  m ∈ commits i n → statement m = Some (k, s, v) → k = PbftCommitAt ∧ v = ""%string.
Proof.
  revert i. induction n as [|n IH]; intros i; cbn [commits]; [by intros ?%not_elem_of_nil|].
  intros [->|?]%elem_of_cons; [|eauto]. unfold statement. destruct (use_pbft cfg); naive_solver.
Qed.

Lemma memory_size_commits i n a :
  remembers (commits i n) a → current_memory_size a = 0%N.
Proof.
  intros (Hs & He & _).
  assert (∀ k, k ≠ PbftCommitAt → record k a = []) as Hnil.
  { intros k Hk. destruct (record k a) as [|[s v] l] eqn:E; [done|].
    destruct (Hs k s v) as (m & Hm & Hst); [rewrite E; by left|]. by destruct (statement_commits _ _ _ _ _ _ Hm Hst). }
  pose proof (Hnil RaftCommitAt ltac:(done)) as Hr. pose proof (Hnil LeaderOf ltac:(done)) as Hl. simpl in Hr, Hl.
  unfold current_memory_size. rewrite Hr, Hl.
  destruct (recorded_errors a) as [|? ?]; [done|]. destruct He; [done|].
  intros m1 m2 k n' v1 v2 H1 H2 Hs1 Hs2.
  destruct (statement_commits _ _ _ _ _ _ H1 Hs1) as [_ ->], (statement_commits _ _ _ _ _ _ H2 Hs2) as [_ ->]. done.
Qed.

End Properties.

(** *** Every call from outside

    The node calls the registered handler with a JSON message; an exception leaves the
    auditor as the handler has left it. *)
Section Calls.
Context {JS : Jsoncpp} {BO : Boost} (cfg : config) (parse_audit : string → audit_message).

Inductive call :=
| Handle (json : Value) (session : session_id)
| Called (e : event).

Definition handle_call (c : call) : auditM unit :=
  match c with
  | Handle json session => handle cfg parse_audit json session
  | Called e => handle_event cfg e
  end.

Definition after (cs : list call) (a : audit) : audit := foldl (λ a c, post (handle_call c) a) a cs.

(** What [json["audit-data"].asString()] gives. *)
Definition audit_data (json : Value) : result string :=
  match member json "audit-data" with
  | Ok data => asString data
  | Throw w => Throw w
  | Undefined => Undefined
  end.

Lemma handle_cases json session a :
  let m := handle cfg parse_audit json session in
  match audit_data json with
  | Ok encoded =>
      let decoded := handle_audit_message cfg (parse_audit (base64_decode encoded)) in
      res m a = Ok tt ∧ post m a = post decoded a ∧ out m a = out decoded a ++ [CloseSession session]
  | Throw w => m a = (Throw w, a, [])
  | Undefined => m a = (Undefined, a, [])
  end.
Proof.
  cbn zeta. rewrite (run_eta (handle cfg parse_audit json session)). unfold handle, audit_data.
  rewrite !res_bind, !post_bind, !out_bind, res_lift, post_lift. destruct (member json "audit-data") as [data| |]; [|done..].
  rewrite !res_bind, !post_bind, !out_bind, res_lift, post_lift. destruct (asString data) as [encoded| |]; [|done..].
  set (m := parse_audit (base64_decode encoded)). rewrite !res_bind, !post_bind, !out_bind.
  destruct (audited_event cfg (Message m) a) as ([[] Hr] & _). cbn [handle_event] in Hr. by rewrite Hr.
Qed.

Lemma bounded_call c a : bounded cfg a → bounded cfg (post (handle_call c) a).
Proof.
  intros Hb. destruct c as [json session|e]; [|by apply audited_event]. cbn [handle_call].
  pose proof (handle_cases json session a) as H. cbn zeta in H. destruct (audit_data json) as [encoded| |].
  - destruct H as (_ & -> & _). by apply (audited_event cfg (Message (parse_audit (base64_decode encoded)))).
  - unfold post. by rewrite H.
  - unfold post. by rewrite H.
Qed.

Lemma bounded_after cs a : bounded cfg a → bounded cfg (after cs a).
Proof. revert a. induction cs as [|c cs IH]; intros a Ha; [done|]. apply IH, bounded_call, Ha. Qed.
End Calls.

End audit.
Import audit.

(** C37: Whatever calls reach the auditor (the registered handler [handle] with any
    JSON message, and [start], messages and timeouts in any order), at most [mem_size]
    errors, leaders and Raft commits are kept, and [current_memory_size] stays within
    three times [mem_size].  The next call returns, unless it is [handle] with a
    message whose "audit-data" does not read as a string: then its exception leaves the
    handler, the auditor is as it was, and the session is not closed.  Otherwise
    [handle] does what the decoded message asks for and closes the session last. *)
Theorem audit_memory_bounded {JS : Jsoncpp} {BO : Boost} (cfg : config) (parse_audit : string → audit_message)
    (cs : list call) :
  let a := after cfg parse_audit cs new in
  (lengthN (recorded_errors a) ≤ mem_size cfg)%N ∧ (lengthN (recorded_leaders a) ≤ mem_size cfg)%N ∧
  (lengthN (recorded_raft_commits a) ≤ mem_size cfg)%N ∧ (current_memory_size a ≤ 3 * mem_size cfg)%N ∧
  ∀ c, let m := handle_call cfg parse_audit c in
  match c with
  | Called _ => res m a = Ok tt
  | Handle json session =>
      match audit_data json with
      | Ok encoded =>
          let decoded := handle_audit_message cfg (parse_audit (base64_decode encoded)) in
          res m a = Ok tt ∧ post m a = post decoded a ∧ out m a = out decoded a ++ [CloseSession session]
      | Throw w => m a = (Throw w, a, [])
      | Undefined => m a = (Undefined, a, [])
      end
  end.
Proof.
  cbn zeta. assert (bounded cfg (after cfg parse_audit cs new)) as Hb.
  { apply bounded_after. unfold bounded, lengthN. simpl. lia. }
  pose proof Hb as (? & ? & ?). unfold current_memory_size. split_and!; [done..|lia|]. intros [json session|e].
  - apply handle_cases.
  - by destruct (audited_event cfg e (after cfg parse_audit cs new)) as ([[] Hr] & _).
Qed.

(** With a monitor configured, [error_count] is the number of error metrics
    sent to it (modulo the width of [size_t]), in every run, although only the
    last [mem_size] descriptions are kept. *)
Theorem audit_counts_every_error (cfg : config) (ep : endpoint) (evs : list event) :
  monitor_endpoint cfg = Some ep →
  u64 (error_count (post (run cfg evs) new)) = u64 (reports cfg (out (run cfg evs) new)).
Proof. intros Hep. destruct (audited_run cfg evs new) as (_ & _ & ->); [done|]. by rewrite Hep. Qed.

(** C36: The auditor never raises a false alarm: messages that do not contradict
    one another leave no error, in either mode and however little memory it
    has.  In PBFT mode it also misses nothing: a run without errors means that
    no two primaries claimed one view and no two operations one sequence. *)
Theorem audit_alarm_exact (cfg : config) (ms : list audit_message) :
  let a := post (run cfg (Message <$> ms)) new in
  (consistent cfg ms → error_strings a = [] ∧ (∀ k e, e ∈ record k a → ∃ m, m ∈ ms ∧ statement cfg m = Some (k, e.1, e.2))) ∧
  (use_pbft cfg = true → (0 < mem_size cfg)%N → error_strings a = [] → consistent cfg ms).
Proof.
  pose proof (remembers_run cfg [] ms new (remembers_new cfg)) as (Hs & He & Hc). simpl in *. split.
  - intros Hcons. split; [|by intros k [n v] ?%Hs].
    unfold error_strings. destruct (recorded_errors _) eqn:E; [done|]. by destruct He.
  - intros Hp Hm Ha m1 m2 k n v1 v2 H1 H2 Hm1 Hm2.
    pose proof (Hc Hp Hm Ha _ _ _ _ H1 Hm1). pose proof (Hc Hp Hm Ha _ _ _ _ H2 Hm2). congruence.
Qed.

(** In PBFT mode the memory is not bounded: whatever [mem_size] is, [n]
    commit notifications with fresh sequence numbers leave [n] records, none of
    which [current_memory_size] counts. *)
Theorem audit_pbft_memory_unbounded (cfg : config) (n : nat) :
  use_pbft cfg = true →
  let a := post (run cfg (Message <$> commits 1 n)) new in
  length (recorded_pbft_commits a) = n ∧ current_memory_size a = 0%N.
Proof.
  intros Hp. split; [by rewrite pbft_commits_grow|].
  apply (memory_size_commits cfg 1 n), (remembers_run cfg []), remembers_new.
Qed.

Definition witness_config (pbft : bool) : config := Config "node" (Some (Endpoint 2130706433 8125)) 2 pbft.

Example audit_counts_every_error_witness :
  u64 (error_count (post (run (witness_config false)
    [Start; LeaderAliveTimeout false; LeaderAliveTimeout false; LeaderAliveTimeout false]) new)) = 3%N.
Proof.
  rewrite (audit_counts_every_error (witness_config false) (Endpoint 2130706433 8125)); [by vm_compute|done].
Defined.

Example audit_alarm_exact_witness :
  consistent (witness_config true) [AuditPrimaryStatus (PrimaryStatus 1 "a"); AuditPrimaryStatus (PrimaryStatus 2 "b")] ∧
  error_strings (post (run (witness_config true) [Message (AuditPrimaryStatus (PrimaryStatus 1 "a"));
    Message (AuditPrimaryStatus (PrimaryStatus 1 "b"))]) new) ≠ [].
Proof.
  split; [|by vm_compute].
  apply (audit_alarm_exact (witness_config true)); by vm_compute.
Defined.

Example audit_pbft_memory_unbounded_witness :
  length (recorded_pbft_commits (post (run (witness_config true) (Message <$> commits 1 5)) new)) = 5.
Proof. by apply (audit_pbft_memory_unbounded (witness_config true) 5). Defined.
