(* ===== verification/RaftLog.v ===== *)
(** * The log of a Raft node

    [raft/log_entry.hpp] and [raft/raft_log.cpp]: the entries in memory and the
    file they are kept in. *)

From S2P Require Import Prelude Messages Json.

(** ** Formatted input from a stream

    The extractions of [std::istream] that the log reader makes, on the
    characters that are left; [None] is a failed extraction. *)
Module istream.

(** [isspace] in the classic locale. *)
Definition is_space (c : ascii) : bool :=
  let n := N_of_ascii c in ((9 <=? n) && (n <=? 13))%N || (n =? 32)%N.

Fixpoint skip_ws (s : string) : string :=
  match s with
  | String c s' => if is_space c then skip_ws s' else s
  | EmptyString => ""
  end.

(** The longest prefix of characters that satisfy [p], and the rest. *)
Fixpoint span (p : ascii → bool) (s : string) : string * string :=
  match s with
  | String c s' => if p c then let '(t, r) := span p s' in (String c t, r) else ("", s)
  | EmptyString => ("", "")
  end.

Definition get_char (s : string) : option (ascii * string) :=
  match skip_ws s with String c s => Some (c, s) | EmptyString => None end.

Definition is_digit (c : ascii) : bool := bool_decide (is_Some (digit_value c)).

Definition get_sign (s : string) : bool * string :=
  match s with
  | String "-" s => (true, s)
  | String "+" s => (false, s)
  | _ => (false, s)
  end.

(** The value of the digits must fit; a minus sign negates it modulo the width. *)
Definition get_uint32 (s : string) : option (N * string) :=
  let '(neg, s) := get_sign (skip_ws s) in
  let '(digits, rest) := span is_digit s in
  match digits with
  | EmptyString => None
  | _ => n ← digits_value 0 digits;
         if (n <? 2 ^ 32)%N then Some (if neg : bool then u32 (2 ^ 32 - n) else n, rest) else None
  end.

Definition get_string (s : string) : option (string * string) :=
  match span (λ c, negb (is_space c)) (skip_ws s) with
  | (EmptyString, _) => None
  | (t, r) => Some (t, r)
  end.

End istream.

(** ** Log entries *)

Definition MSG_ERROR_ENCOUNTERED_INVALID_ENTRY_IN_LOG : string := "ENCOUNTERED_INVALID_ENTRY_IN_LOG".

(** [entry_type_byte n]: a value outside the enumeration, read from a file. *)
Inductive log_entry_type := database | single_quorum | joint_quorum | undefined_entry | entry_type_byte (n : N).

#[export] Instance log_entry_type_eq_dec : EqDecision log_entry_type.
Proof. solve_decision. Defined.

Definition type_to_byte (t : log_entry_type) : ascii :=
  match t with
  | database => "000" | single_quorum => "001" | joint_quorum => "002" | undefined_entry => "003"
  | entry_type_byte n => ascii_of_N n
  end%char.

Definition type_of_byte (c : ascii) : log_entry_type :=
  match N_of_ascii c with
  | 0 => database | 1 => single_quorum | 2 => joint_quorum | 3 => undefined_entry | n => entry_type_byte n
  end%N.

Section Entries.
Context {JS : Jsoncpp} {BO : Boost}.

Record log_entry := LogEntry {
  entry_type : log_entry_type;
  log_index : N;
  term : N;
  entry_msg : Value
}.

Definition json_to_string (msg : Value) : string := write msg.

(** [operator<<]. *)
Definition print_entry (e : log_entry) : string :=
  String (type_to_byte (entry_type e))
    (" " ++ to_string (log_index e) ++ " " ++ to_string (term e) ++ " "
     ++ base64_encode (json_to_string (entry_msg e)) ++ String "010" "").

(** [operator>>]; [None] when the stream is left in a failed state.  The text of
    the exception ends with the parser's messages, which nothing reads. *)
Definition parse_entry (s : string) : result (option (log_entry * string)) :=
  match istream.get_char s with
  | None => Ok None
  | Some (t, s) =>
      match istream.get_uint32 s with
      | None => Ok None
      | Some (i, s) =>
          match istream.get_uint32 s with
          | None => Ok None
          | Some (n, s) =>
              match istream.get_string s with
              | None => Ok None
              | Some (m, s) =>
                  match parse (base64_decode m) with
                  | Some v => Ok (Some (LogEntry (type_of_byte t) i n v, s))
                  | None => Throw MSG_ERROR_ENCOUNTERED_INVALID_ENTRY_IN_LOG
                  end
              end
          end
      end
  end.

(** [while (is >> log_entry) log_entries.emplace_back(log_entry)]: every turn
    consumes characters, so the length of the file bounds the turns. *)
Fixpoint read_entries (fuel : nat) (s : string) : result (list log_entry) :=
  match parse_entry s with
  | Ok None => Ok []
  | Ok (Some (e, s)) =>
      match fuel with
      | O => Undefined
      | S fuel => match read_entries fuel s with
                  | Ok es => Ok (e :: es)
                  | Throw w => Throw w
                  | Undefined => Undefined
                  end
      end
  | Throw w => Throw w
  | Undefined => Undefined
  end.

End Entries.

(** ** Reading back what was printed *)

(** The output of base64 has no white space, is not empty for input that is
    not, and decodes to the input. *)
Class Base64Laws `{!Boost} : Prop := {
  base64_decode_encode s : base64_decode (base64_encode s) = s;
  base64_no_space s : Forall (λ c, istream.is_space c = false) (String.list_ascii_of_string (base64_encode s));
  base64_not_empty s : s ≠ ""%string → base64_encode s ≠ ""%string
}.

Lemma span_app p s r :
  Forall (λ c, p c = true) (String.list_ascii_of_string s) →
  match r with EmptyString => True | String c _ => p c = false end →
  istream.span p (s ++ r) = (s, r).
Proof.
  intros Hs Hr. induction s as [|c s IH]; simpl.
  - destruct r as [|c r]; [done|]. simpl. by rewrite Hr.
  - inversion Hs as [|? ? Hc Hs']; subst. rewrite Hc. by rewrite IH.
Qed.

Lemma digits_value_digits s a n :
  digits_value a s = Some n → Forall (λ c, istream.is_digit c = true) (String.list_ascii_of_string s).
Proof.
  revert a. induction s as [|c s IH]; intros a; simpl; [constructor|].
  destruct (digit_value c) as [d|] eqn:Hd; simpl; [|done]. intros H. constructor; [|by eapply IH].
  unfold istream.is_digit. apply bool_decide_true. by rewrite Hd.
Qed.

(** A digit is neither white space nor a sign. *)
Lemma is_digit_plain c s :
  istream.is_digit c = true →
  istream.skip_ws (String c s) = String c s ∧ istream.get_sign (String c s) = (false, String c s).
Proof. intros Hc. split; revert Hc; destruct c as [[] [] [] [] [] [] [] []]; try done; vm_compute; by intros ?. Qed.

Lemma get_uint32_print n r :
  (n < 2 ^ 32)%N → match r with EmptyString => True | String c _ => istream.is_digit c = false end →
  istream.get_uint32 (" " ++ to_string n ++ r) = Some (n, r).
Proof.
  intros Hn Hr. pose proof (digits_value_to_string n) as Hv. pose proof (digits_value_digits _ _ _ Hv) as Hd.
  destruct (pretty_nonempty n) as (c & t & E). change (pretty n) with (to_string n) in E.
  pose proof (span_app istream.is_digit (to_string n) r Hd Hr) as Hspan. rewrite E in *.
  inversion Hd as [|? ? Hc _]; subst. destruct (is_digit_plain c (t ++ r) Hc) as [Hskip Hsign].
  unfold istream.get_uint32.
  change (istream.skip_ws (" " ++ String c t ++ r)) with (istream.skip_ws (String c (t ++ r))).
  change (String c t ++ r)%string with (String c (t ++ r)) in Hspan.
  rewrite Hskip, Hsign, Hspan, Hv. simpl.
  by rewrite (proj2 (N.ltb_lt _ _) Hn).
Qed.

Lemma get_string_print t r :
  Forall (λ c, istream.is_space c = false) (String.list_ascii_of_string t) → t ≠ ""%string →
  istream.get_string (" " ++ t ++ String "010" r) = Some (t, String "010" r).
Proof.
  intros Hs Hne. unfold istream.get_string.
  assert (istream.skip_ws (" " ++ t ++ String "010" r) = t ++ String "010" r)%string as ->.
  { change (istream.skip_ws (" " ++ t ++ String "010" r)) with (istream.skip_ws (t ++ String "010" r)).
    destruct t as [|c t]; [done|]. inversion Hs as [|? ? Hc _]; subst. simpl. by rewrite Hc. }
  rewrite span_app; [by destruct t| |done].
  eapply Forall_impl; [done|]. simpl. by intros c ->.
Qed.

Section RoundTrip.
Context {JS : Jsoncpp} {JL : JsoncppLaws} {BO : Boost} {BL : Base64Laws}.

(** The entries the code writes: a type of the enumeration and 32-bit numbers. *)
Definition proper_entry (e : log_entry) : Prop :=
  (∀ n, entry_type e ≠ entry_type_byte n) ∧ (log_index e < 2 ^ 32)%N ∧ (term e < 2 ^ 32)%N.

Definition same_entry (e e' : log_entry) : Prop :=
  entry_type e' = entry_type e ∧ log_index e' = log_index e ∧ term e' = term e ∧
  reads_as (entry_msg e) (entry_msg e').

#[export] Instance same_entry_equivalence : Equivalence same_entry.
Proof.
  split; unfold same_entry.
  - intros e. by split_and!.
  - intros e e' (? & ? & ? & ?). by split_and!.
  - intros e1 e2 e3 (-> & -> & -> & ?) (-> & -> & -> & ?). split_and!; [done..|]. by etrans.
Qed.

Lemma type_byte_plain t s :
  (∀ n, t ≠ entry_type_byte n) →
  istream.skip_ws (String (type_to_byte t) s) = String (type_to_byte t) s ∧ type_of_byte (type_to_byte t) = t.
Proof. intros H. destruct t; [done..|]. by destruct (H n). Qed.

Lemma parse_print_entry e r :
  proper_entry e →
  ∃ e', parse_entry (print_entry e ++ r) = Ok (Some (e', String "010" r)) ∧ same_entry e e'.
Proof.
  intros (Ht & Hi & Hn). destruct (parse_write (entry_msg e)) as (v & Hv & Hr).
  exists (LogEntry (entry_type e) (log_index e) (term e) v). split; [|done].
  unfold print_entry.
  set (m := base64_encode (json_to_string (entry_msg e))).
  set (tail := (" " ++ to_string (log_index e) ++ " " ++ to_string (term e) ++ " " ++ m ++ String "010" r)%string).
  destruct (type_byte_plain (entry_type e) tail Ht) as [Hc Hb].
  assert (String (type_to_byte (entry_type e)) (" " ++ to_string (log_index e) ++ " " ++ to_string (term e) ++ " "
            ++ m ++ String "010" "") ++ r = String (type_to_byte (entry_type e)) tail)%string as ->.
  { unfold tail. change (String ?c ?s ++ r)%string with (String c (s ++ r)). by rewrite !string_app_assoc. }
  unfold parse_entry, istream.get_char. rewrite Hc. unfold tail.
  rewrite get_uint32_print by done. rewrite get_uint32_print by done.
  rewrite get_string_print; [|apply base64_no_space|apply base64_not_empty, write_not_empty].
  unfold m, json_to_string. by rewrite base64_decode_encode, Hv, Hb.
Qed.

Lemma parse_entry_newline s : parse_entry (String "010" s) = parse_entry s.
Proof. done. Qed.

(** The whole file, written by appending entries. *)
Definition print_entries (es : list log_entry) : string :=
  foldr (λ e s, print_entry e ++ s)%string ""%string es.

Lemma print_entries_app es es' : print_entries (es ++ es') = (print_entries es ++ print_entries es')%string.
Proof. induction es as [|e es IH]; [done|]. simpl. by rewrite IH, string_app_assoc. Qed.

Lemma read_print_entries es fuel :
  Forall proper_entry es → length es ≤ fuel →
  ∃ es', read_entries fuel (print_entries es) = Ok es' ∧ Forall2 same_entry es es'.
Proof.
  assert (∀ s, s = print_entries es ∨ s = String "010" (print_entries es) →
    Forall proper_entry es → length es ≤ fuel → ∃ es', read_entries fuel s = Ok es' ∧ Forall2 same_entry es es') as H; [|eauto].
  revert fuel. induction es as [|e es IH]; intros fuel s Hs Hp Hf.
  { exists []. split; [|done]. destruct Hs as [->| ->]; by destruct fuel. }
  inversion Hp as [|? ? He Hes]; subst. destruct fuel as [|fuel]; simpl in Hf; [lia|].
  destruct (parse_print_entry e (print_entries es) He) as (e' & Hpe & Hsame).
  destruct (IH fuel (String "010" (print_entries es))) as (es' & Hr & Hall); [auto|done|lia|].
  exists (e' :: es'). split; [|by constructor].
  assert (parse_entry s = Ok (Some (e', String "010" (print_entries es)))) as Hs'.
  { destruct Hs as [->| ->]; [done|]. by rewrite parse_entry_newline. }
  cbn [read_entries]. by rewrite Hs', Hr.
Qed.

End RoundTrip.

(** Reading a file terminates: every entry consumes characters. *)
Lemma skip_ws_length s : String.length (istream.skip_ws s) ≤ String.length s.
Proof. induction s as [|c s IH]; simpl; [done|]. destruct (istream.is_space c); simpl; lia. Qed.

Lemma span_length p s : String.length (istream.span p s).2 ≤ String.length s.
Proof.
  induction s as [|c s IH]; simpl; [done|]. destruct (p c); [|done].
  destruct (istream.span p s) as [t r]. simpl in *. lia.
Qed.

Lemma get_char_length s c r : istream.get_char s = Some (c, r) → String.length r < String.length s.
Proof.
  unfold istream.get_char. pose proof (skip_ws_length s) as H. destruct (istream.skip_ws s); [done|].
  intros [= -> ->]. simpl in H. lia.
Qed.

Lemma get_uint32_length s n r : istream.get_uint32 s = Some (n, r) → String.length r ≤ String.length s.
Proof.
  unfold istream.get_uint32. pose proof (skip_ws_length s) as H.
  assert (String.length (istream.get_sign (istream.skip_ws s)).2 ≤ String.length (istream.skip_ws s)) as Hs.
  { destruct (istream.skip_ws s) as [|[[] [] [] [] [] [] [] []] t]; simpl; lia. }
  destruct (istream.get_sign _) as [neg t]. pose proof (span_length istream.is_digit t) as Hd.
  destruct (istream.span _ t) as [[|c d] r']; [done|]. simpl in *.
  destruct (digit_value c); simpl; [|done]. destruct (digits_value _ d); simpl; [|done].
  destruct (_ <? _)%N; intros [= _ ->]. lia.
Qed.

Lemma get_string_length s t r : istream.get_string s = Some (t, r) → String.length r ≤ String.length s.
Proof.
  unfold istream.get_string. pose proof (skip_ws_length s).
  pose proof (span_length (λ c, negb (istream.is_space c)) (istream.skip_ws s)) as Hd.
  destruct (istream.span _ _) as [[|? ?] r']; [done|]. simpl in Hd. intros [= _ ->]. lia.
Qed.

Lemma parse_entry_length `{JS : Jsoncpp, BO : Boost} s e r :
  parse_entry s = Ok (Some (e, r)) → String.length r < String.length s.
Proof.
  unfold parse_entry. destruct (istream.get_char s) as [[t s1]|] eqn:H1; [|done].
  destruct (istream.get_uint32 s1) as [[i s2]|] eqn:H2; [|done].
  destruct (istream.get_uint32 s2) as [[n s3]|] eqn:H3; [|done].
  destruct (istream.get_string s3) as [[m s4]|] eqn:H4; [|done].
  destruct (parse _); [|done]. intros [= _ <-].
  apply get_char_length in H1. apply get_uint32_length in H2, H3. apply get_string_length in H4. lia.
Qed.

Lemma read_entries_terminates `{JS : Jsoncpp, BO : Boost} fuel s :
  String.length s ≤ fuel → read_entries fuel s ≠ Undefined.
Proof.
  revert s. induction fuel as [|fuel IH]; intros s Hs; cbn [read_entries];
    destruct (parse_entry s) as [[[e r]|]| |] eqn:E; try done.
  - apply parse_entry_length in E. lia.
  - unfold parse_entry in E. repeat case_match; done.
  - apply parse_entry_length in E. specialize (IH r ltac:(lia)). by destruct (read_entries fuel r).
  - unfold parse_entry in E. repeat case_match; done.
Qed.

(** So the fuel does not matter once there is a unit for every character. *)
Lemma read_entries_fuel `{JS : Jsoncpp, BO : Boost} fuel fuel' s :
  String.length s ≤ fuel → String.length s ≤ fuel' → read_entries fuel s = read_entries fuel' s.
Proof.
  revert fuel' s. induction fuel as [|fuel IH]; intros fuel' s Hf Hf'; destruct fuel' as [|fuel']; cbn [read_entries]; [done|..];
    destruct (parse_entry s) as [[[e r]|]| |] eqn:E; try done; apply parse_entry_length in E; [lia..|].
  by rewrite (IH fuel') by lia.
Qed.

(** ** [raft_log] *)
Module raft_log.

Definition MSG_ERROR_EMPTY_LOG_ENTRY_FILE : string := "Empty log entry file. Please delete .state folder.".
Definition MSG_NO_PEERS_IN_LOG : string := "Unable to find peers in log entries.".
Definition MSG_TRYING_TO_INSERT_INVALID_ENTRY : string := "Trying to insert an invalid log entry.".
Definition MSG_EXITING_DUE_TO_LOG_PATH_CREATION_FAILURE : string := "MSG_EXITING_DUE_TO_LOG_PATH_CREATION_FAILURE".
Definition DEFAULT_MAX_STORAGE_SIZE : N := 2147483648.

(** The file at [entries_log_path], and whether its directory is there or can
    be created. *)
Record disk := Disk { file : option string; parent_exists : bool; can_create_parent : bool }.

(** [log_entry_out_stream]: closed, open on the file at the path, or open on a
    file that was removed from the path, which keeps its contents until it is
    closed. *)
Inductive stream := Closed | OnFile | OnRemoved (contents : string).

Section Log.
Context {JS : Jsoncpp} {BO : Boost}.

Record raft_log := RaftLog {
  log_entries : list log_entry;
  total_memory_used : N;
  maximum_storage : N;
  log_entry_out_stream : stream;
  log_disk : disk
}.

Definition set_entries (es : list log_entry) (l : raft_log) : raft_log :=
  RaftLog es (total_memory_used l) (maximum_storage l) (log_entry_out_stream l) (log_disk l).
Definition set_disk (n : N) (s : stream) (d : disk) (l : raft_log) : raft_log :=
  RaftLog (log_entries l) n (maximum_storage l) s d.

Abbreviation logM := (M raft_log unit).

(** The constructor, on the disk it finds. *)
Definition new (max_storage : N) (d : disk) : result raft_log :=
  match file d with
  | None => Throw MSG_ERROR_EMPTY_LOG_ENTRY_FILE
  | Some contents =>
      match read_entries (String.length contents) contents with
      | Ok [] => Throw MSG_ERROR_EMPTY_LOG_ENTRY_FILE
      | Ok es => Ok (RaftLog es (strlen contents) max_storage Closed d)
      | Throw w => Throw w
      | Undefined => Undefined
      end
  end.

(** [vector::at]. *)
Definition entry_at (i : N) (l : raft_log) : result log_entry :=
  match log_entries l !! N.to_nat i with
  | Some e => Ok e
  | None => Throw "vector::_M_range_check"
  end.

Definition is_quorum (e : log_entry) : bool :=
  bool_decide (entry_type e = single_quorum ∨ entry_type e = joint_quorum).

Definition last_quorum_entry (l : raft_log) : result log_entry :=
  match List.find is_quorum (reverse (log_entries l)) with
  | Some e => Ok e
  | None => Throw MSG_NO_PEERS_IN_LOG
  end.

Definition open_stream : logM unit :=
  d ← gets log_disk;
  (if parent_exists d then mret tt
   else if can_create_parent d then
     modify (λ l, set_disk (total_memory_used l) (log_entry_out_stream l) (Disk (file d) true (can_create_parent d)) l)
   else throw MSG_EXITING_DUE_TO_LOG_PATH_CREATION_FAILURE);;
  modify (λ l, let d := log_disk l in
    set_disk (total_memory_used l) OnFile (Disk (Some (default "" (file d))) (parent_exists d) (can_create_parent d)) l).

(** [tellp] after a write at the end of the file is its length. *)
Definition append_log_disk (e : log_entry) : logM unit :=
  s ← gets log_entry_out_stream;
  match s with Closed => open_stream | _ => mret tt end;;
  modify (λ l, let d := log_disk l in
    match log_entry_out_stream l with
    | OnRemoved c => let c := (c ++ print_entry e)%string in set_disk (strlen c) (OnRemoved c) d l
    | s => let c := (default "" (file d) ++ print_entry e)%string in
           set_disk (strlen c) s (Disk (Some c) (parent_exists d) (can_create_parent d)) l
    end).

Definition leader_append_entry (e : log_entry) : logM unit :=
  modify (λ l, set_entries (log_entries l ++ [e]) l);;
  append_log_disk e.

Definition rewrite_log : logM unit :=
  modify (λ l, let d := log_disk l in
    set_disk (total_memory_used l)
      (match log_entry_out_stream l with OnFile => OnRemoved (default "" (file d)) | s => s end)
      (Disk None (parent_exists d) (can_create_parent d)) l);;
  es ← gets log_entries;
  for_each append_log_disk es.

Definition follower_insert_entry (index : N) (e : log_entry) : logM unit :=
  es ← gets log_entries;
  match es !! N.to_nat index with
  | Some old =>
      if (term e =? term old)%N then mret tt
      else
        modify (set_entries (take (N.to_nat index) es ++ [e]));;
        rewrite_log;;
        append_log_disk e
  | None =>
      if (index =? lengthN es)%N then
        modify (set_entries (es ++ [e]));;
        append_log_disk e
      else throw MSG_TRYING_TO_INSERT_INVALID_ENTRY
  end.

(** An index past the end reads behind the vector. *)
Definition entry_accepted (previous_index previous_term : N) (l : raft_log) : result bool :=
  if (previous_index <? sub64 (lengthN (log_entries l)) 1)%N then Ok false
  else match log_entries l !! N.to_nat previous_index with
       | Some e => Ok (previous_term =? term e)%N
       | None => Undefined
       end.

Definition size (l : raft_log) : N := lengthN (log_entries l).
Definition memory_used (l : raft_log) : N := total_memory_used l.
Definition maximum_storage_exceeded (l : raft_log) : bool := (maximum_storage l <? total_memory_used l)%N.

(** *** Sequences of calls that change the log *)
Inductive operation := LeaderAppend (e : log_entry) | FollowerInsert (index : N) (e : log_entry).

Definition perform (o : operation) : logM unit :=
  match o with
  | LeaderAppend e => leader_append_entry e
  | FollowerInsert i e => follower_insert_entry i e
  end.

Definition operation_entry (o : operation) : log_entry :=
  match o with LeaderAppend e | FollowerInsert _ e => e end.

(** The call throws entries away. *)
Definition truncates (o : operation) (l : raft_log) : bool :=
  match o with
  | LeaderAppend _ => false
  | FollowerInsert i e =>
      match log_entries l !! N.to_nat i with Some old => negb (term e =? term old)%N | None => false end
  end.

Fixpoint run (os : list operation) (l : raft_log) : raft_log :=
  match os with [] => l | o :: os => run os (post (perform o) l) end.

Fixpoint appends_only (os : list operation) (l : raft_log) : bool :=
  match os with [] => true | o :: os => negb (truncates o l) && appends_only os (post (perform o) l) end.

Lemma append_log_disk_memory e l : log_entries (post (append_log_disk e) l) = log_entries l.
Proof.
  destruct l as [es n mx [| |c] [f [] []]]; done.
Qed.

End Log.

Section Durability.
Context {JS : Jsoncpp} {JL : JsoncppLaws} {BO : Boost} {BL : Base64Laws}.

(** The file holds the entries that are in memory. *)
Definition durable (l : raft_log) : Prop :=
  log_entries l ≠ [] ∧ parent_exists (log_disk l) = true ∧ (∀ c, log_entry_out_stream l ≠ OnRemoved c) ∧
  ∃ es, file (log_disk l) = Some (print_entries es) ∧ Forall proper_entry es ∧
        Forall2 same_entry es (log_entries l) ∧ total_memory_used l = strlen (print_entries es).

Lemma append_durable e l es0 :
  durable l → log_entries l = es0 → proper_entry e →
  res (append_log_disk e) (set_entries (es0 ++ [e]) l) = Ok tt ∧
  durable (post (append_log_disk e) (set_entries (es0 ++ [e]) l)).
Proof.
  intros (Hne & Hp & Hs & es & Hf & Hpr & Hall & Hn) <- He.
  destruct l as [les n mx s [f p c]]. simpl in *. subst f p.
  assert (print_entries es ++ print_entry e = print_entries (es ++ [e]))%string as Happ.
  { rewrite print_entries_app. simpl. by rewrite string_app_nil_r. }
  destruct s as [| |x]; [| |by destruct (Hs x)];
    (split; [done|]; unfold durable; simpl; split_and!; [by destruct les|done|done|];
     exists (es ++ [e]); rewrite Happ; split_and!; [done| | |done];
     [apply Forall_app; split; [done|by apply Forall_singleton]|apply Forall2_app; [done|by constructor]]).
Qed.

Lemma perform_durable o l :
  durable l → proper_entry (operation_entry o) → truncates o l = false → durable (post (perform o) l).
Proof.
  intros Hd He Ht. destruct o as [e|i e]; simpl in *.
  - unfold leader_append_entry. rewrite post_bind. simpl. by apply append_durable.
  - unfold follower_insert_entry. rewrite post_bind. simpl.
    destruct (log_entries l !! N.to_nat i) as [old|].
    + apply negb_false_iff in Ht. by rewrite Ht.
    + destruct (_ =? _)%N; [|done]. rewrite post_bind. simpl. by apply append_durable.
Qed.

Lemma run_durable os l :
  durable l → Forall (λ o, proper_entry (operation_entry o)) os → appends_only os l = true → durable (run os l).
Proof.
  revert l. induction os as [|o os IH]; intros l Hd Hos; simpl; [done|].
  inversion Hos; subst. intros [Ht%negb_true_iff ?]%andb_true_iff. apply IH; [by apply perform_durable|done..].
Qed.

Lemma print_entries_length es : length es ≤ String.length (print_entries es).
Proof.
  induction es as [|e es IH]; [done|].
  change (S (length es) ≤ String.length (print_entry e ++ print_entries es)%string). pose proof (strlen_app (print_entry e) (print_entries es)) as H.
  unfold strlen in H. assert (0 < String.length (print_entry e)); [unfold print_entry; simpl; lia|lia].
Qed.

(** A file written entry by entry is read back. *)
Lemma new_print_entries es mx p c :
  Forall proper_entry es → es ≠ [] →
  ∃ l, new mx (Disk (Some (print_entries es)) p c) = Ok l ∧ Forall2 same_entry es (log_entries l) ∧
       l = RaftLog (log_entries l) (strlen (print_entries es)) mx Closed (Disk (Some (print_entries es)) p c).
Proof.
  intros Hp Hne. destruct (read_print_entries es _ Hp (print_entries_length es)) as (es' & Hr & Hall).
  unfold new. simpl. rewrite Hr. destruct es' as [|e' es']; [by inversion Hall; subst|].
  eexists. split_and!; [done|done|done].
Qed.

Lemma new_durable es mx c l :
  Forall proper_entry es → es ≠ [] →
  new mx (Disk (Some (print_entries es)) true c) = Ok l → durable l.
Proof.
  intros Hp Hne Hl. destruct (new_print_entries es mx true c Hp Hne) as (l' & Hl' & Hall & E).
  rewrite Hl in Hl'. injection Hl' as <-. rewrite E. split_and!; simpl.
  - intros H. rewrite H in Hall. by inversion Hall; subst.
  - done.
  - done.
  - exists es. by split_and!.
Qed.

Lemma durable_restart l mx :
  durable l → ∃ l', new mx (log_disk l) = Ok l' ∧ Forall2 same_entry (log_entries l) (log_entries l').
Proof.
  intros (Hne & Hp & Hs & es & Hf & Hpr & Hall & Hn).
  destruct l as [les n m s [f p c]]. simpl in *. subst f.
  destruct (new_print_entries es mx p c Hpr) as (l' & Hl' & Hall' & _).
  { intros ->. by inversion Hall; subst. }
  exists l'. split; [done|]. by etrans; [symmetry|].
Qed.

End Durability.

Section Truncation.
Context {JS : Jsoncpp} {BO : Boost}.

(** On a stream whose file was removed, appending changes no file. *)
Lemma append_removed e l c :
  log_entry_out_stream l = OnRemoved c →
  res (append_log_disk e) l = Ok tt ∧ log_disk (post (append_log_disk e) l) = log_disk l ∧
  ∃ c', log_entry_out_stream (post (append_log_disk e) l) = OnRemoved c'.
Proof. destruct l as [es n mx s d]. simpl. intros ->. by eauto. Qed.

Lemma append_all_removed es l c :
  log_entry_out_stream l = OnRemoved c →
  res (for_each append_log_disk es) l = Ok tt ∧ log_disk (post (for_each append_log_disk es) l) = log_disk l ∧
  ∃ c', log_entry_out_stream (post (for_each append_log_disk es) l) = OnRemoved c'.
Proof.
  revert l c. induction es as [|e es IH]; intros l c Hs; [by eauto|]. cbn [for_each].
  destruct (append_removed e l c Hs) as (Hr & Hd & c' & Hs'). rewrite res_bind, post_bind, Hr.
  destruct (IH _ _ Hs') as (Hr' & Hd' & ?). rewrite Hd', Hd. auto.
Qed.

Definition same_memory : relation raft_log := λ l l', log_entries l' = log_entries l.

#[local] Instance same_memory_preorder : PreOrder same_memory.
Proof. split; [done|]. unfold same_memory. intros ???; congruence. Qed.

(** The file is removed, and the stream that was open on it is left there. *)
Lemma rewrite_open l :
  log_entry_out_stream l = OnFile →
  let l' := post rewrite_log l in
  res rewrite_log l = Ok tt ∧ log_entries l' = log_entries l ∧ file (log_disk l') = None ∧
  ∃ c, log_entry_out_stream l' = OnRemoved c.
Proof.
  intros Hs. unfold rewrite_log. cbn zeta. rewrite res_bind, post_bind, res_modify, post_modify, Hs, res_bind, post_bind.
  cbn [res_gets]. rewrite res_gets, post_gets. set (l2 := set_disk _ _ _ l).
  destruct (append_all_removed (log_entries l2) l2 (default "" (file (log_disk l)))) as (Hr & Hd & Hc); [done|].
  split_and!; [done| |by rewrite Hd|done].
  change (same_memory l2 (post (for_each append_log_disk (log_entries l2)) l2)).
  apply respects_for_each; [apply _|]. intros e _ l3. apply append_log_disk_memory.
Qed.

End Truncation.
End raft_log.

(** ** A concrete codec: two letters for each character *)
Module letters.

Definition letter (n : N) : ascii := ascii_of_N (97 + n)%N.
Definition value (c : ascii) : N := (N_of_ascii c - 97)%N.

Fixpoint encode (s : string) : string :=
  match s with
  | String c s => String (letter (N_of_ascii c / 16)) (String (letter (N_of_ascii c mod 16)) (encode s))
  | EmptyString => ""
  end.

Fixpoint decode (s : string) : string :=
  match s with
  | String a (String b s) => String (ascii_of_N (16 * value a + value b)) (decode s)
  | _ => ""
  end.

(** Addresses are decimal numbers. *)
#[global] Instance letters_boost : Boost :=
  {| address_v4_from_string s := digits_value 0 s; base64_encode := encode; base64_decode := decode |}.

Lemma letter_spec c :
  ascii_of_N (16 * value (letter (N_of_ascii c / 16)) + value (letter (N_of_ascii c mod 16))) = c ∧
  istream.is_space (letter (N_of_ascii c / 16)) = false ∧ istream.is_space (letter (N_of_ascii c mod 16)) = false.
Proof. by destruct c as [[] [] [] [] [] [] [] []]. Qed.

#[global] Instance letters_laws : Base64Laws.
Proof.
  split.
  - intros s. induction s as [|c s IH]; [done|]. simpl in *. rewrite IH. by rewrite (proj1 (letter_spec c)).
  - intros s. induction s as [|c s IH]; simpl; [constructor|].
    destruct (letter_spec c) as (_ & ? & ?). repeat constructor; done.
  - by intros [].
Qed.

End letters.

Import raft_log.

(** C29: The log survives a restart: started on a file of entries and then only
    extended (by the leader, or by a follower that inserts behind its last
    entry), a log is read back from its file with the same entries, and
    [memory_used] is the size of the file. *)
Theorem raft_log_restart {JS : Jsoncpp} {JL : JsoncppLaws} {BO : Boost} {BL : Base64Laws}
    (es : list log_entry) (mx : N) (can_create : bool) (os : list operation) (l0 : raft_log) :
  Forall proper_entry es → es ≠ [] →
  new mx (Disk (Some (print_entries es)) true can_create) = Ok l0 →
  Forall (λ o, proper_entry (operation_entry o)) os → appends_only os l0 = true →
  let l := run os l0 in
  (∃ l', new mx (log_disk l) = Ok l' ∧ Forall2 same_entry (log_entries l) (log_entries l')) ∧
  (∃ c, file (log_disk l) = Some c ∧ memory_used l = strlen c).
Proof.
  intros Hp Hne Hnew Hos Happ l.
  assert (durable l) as Hd by (apply run_durable; [by eapply new_durable|done..]).
  split; [by apply durable_restart|]. destruct Hd as (_ & _ & _ & es' & Hf & _ & _ & Hm). eauto.
Qed.

(** When a follower replaces an entry while its stream is open, the memory
    is right but the file is gone: the stream writes into the removed file, and
    a restart finds no log. *)
Theorem raft_log_truncation_loses_file {JS : Jsoncpp} {BO : Boost}
    (l : raft_log) (index : N) (e old : log_entry) (mx : N) :
  log_entries l !! N.to_nat index = Some old → term e ≠ term old → log_entry_out_stream l = OnFile →
  let l' := post (follower_insert_entry index e) l in
  log_entries l' = take (N.to_nat index) (log_entries l) ++ [e] ∧
  file (log_disk l') = None ∧ new mx (log_disk l') = Throw MSG_ERROR_EMPTY_LOG_ENTRY_FILE.
Proof.
  intros Hold Hterm%N.eqb_neq Hs. unfold follower_insert_entry. cbn zeta.
  rewrite post_bind, res_gets, post_gets, Hold, Hterm, post_bind, res_modify, post_modify.
  destruct (rewrite_open (set_entries (take (N.to_nat index) (log_entries l) ++ [e]) l) Hs) as (Hr & Hm & Hf & c & Hc).
  rewrite post_bind, Hr. destruct (append_removed e _ c Hc) as (_ & Hd & _).
  rewrite append_log_disk_memory, Hd, Hm. split_and!; [done..|]. unfold new. by rewrite Hf.
Qed.

(** C39: Reading a log file ends, whatever the file holds: with a unit of fuel for
    each character the loop is never cut off, and more fuel changes nothing; so a
    log that is started either holds the entries that were read, at least one, with
    the size of the file as the memory in use, or the start throws. *)
Theorem raft_log_reading_terminates {JS : Jsoncpp} {BO : Boost} :
  (∀ text fuel, String.length text ≤ fuel →
     read_entries fuel text ≠ Undefined ∧ read_entries fuel text = read_entries (String.length text) text) ∧
  (∀ mx d, (∃ l text, new mx d = Ok l ∧ file (log_disk l) = Some text ∧ log_entries l ≠ [] ∧
                      read_entries (String.length text) text = Ok (log_entries l) ∧ memory_used l = strlen text) ∨
           ∃ w, new mx d = Throw w).
Proof.
  split.
  - intros text fuel Hf. split; [by apply read_entries_terminates|by apply read_entries_fuel].
  - intros mx d. unfold new. destruct (file d) as [text|] eqn:Hfile; [|by right; eexists].
    pose proof (read_entries_terminates (String.length text) text (le_n _)) as Ht.
    destruct (read_entries _ text) as [[|e es]| |] eqn:E; [by right; eexists| |by right; eexists|done].
    left. eexists _, text. split; [done|]. by rewrite E.
Qed.

Definition witness_entry (t : N) (i n : N) : log_entry :=
  LogEntry (if (t =? 0)%N then single_quorum else database) i n (json_tree.UInt t).

Example raft_log_restart_witness :
  let l0 := RaftLog [witness_entry 0 0 0] (strlen (print_entries [witness_entry 0 0 0])) 100 Closed
              (Disk (Some (print_entries [witness_entry 0 0 0])) true true) in
  let os := [LeaderAppend (witness_entry 1 1 4); FollowerInsert 2 (witness_entry 2 2 4);
             FollowerInsert 1 (witness_entry 1 1 4)] in
  appends_only os l0 = true ∧ length (log_entries (run os l0)) = 3 ∧
  ∃ l', new 100 (log_disk (run os l0)) = Ok l' ∧ Forall2 same_entry (log_entries (run os l0)) (log_entries l').
Proof.
  cbn zeta. split_and!; [reflexivity..|].
  set (l0 := RaftLog _ _ _ _ _). set (os := [LeaderAppend _; _; _]).
  destruct (raft_log_restart [witness_entry 0 0 0] 100 true os l0) as [H _]; [|done|reflexivity| |reflexivity|exact H].
  - by repeat constructor.
  - by repeat constructor.
Defined.

Example raft_log_truncation_loses_file_witness :
  let l := RaftLog [witness_entry 0 0 0; witness_entry 1 1 4] 0 100 OnFile
             (Disk (Some (print_entries [witness_entry 0 0 0; witness_entry 1 1 4])) true true) in
  file (log_disk (post (follower_insert_entry 1 (witness_entry 2 1 5)) l)) = None.
Proof.
  intros l. destruct (raft_log_truncation_loses_file l 1 (witness_entry 2 1 5) (witness_entry 1 1 4) 100) as (_ & Hf & _);
    [reflexivity|done|reflexivity|exact Hf].
Defined.

Example raft_log_reading_terminates_witness :
  read_entries (JS := json_tree.tree_json) 100 "not a log" ≠ Undefined.
Proof.
  destruct (raft_log_reading_terminates (JS := json_tree.tree_json)) as [Hread _].
  apply (Hread "not a log"%string 100). cbn. lia.
Defined.
