(* ===== verification/Raft.v ===== *)
(** * Raft

    [raft/raft.cpp], [raft/raft_base.hpp]: elections, replication of the log,
    commits and changes of the quorum. *)

From S2P Require Import Prelude Messages Json Storage RaftLog.
Import raft_log.

Module raft_state.
Inductive raft_state := candidate | follower | leader.

#[global] Instance raft_state_eq_dec : EqDecision raft_state.
Proof. solve_decision. Defined.
End raft_state.

(** ** The messages of [raft_base.hpp] *)
Module raft_base.
Section Messages.
Context {JS : Jsoncpp}.

Definition raft_message (cmd : string) (data : list (string * Value)) : Value :=
  obj [("bzn-api", str "raft"); ("cmd", str cmd); ("data", obj data)]%string.

Definition create_request_vote_request (u : uuid_t) (current_term last_log_index last_log_term : N) : Value :=
  raft_message "RequestVote"
    [("from", str u); ("term", uint current_term); ("lastLogIndex", uint last_log_index);
     ("lastLogTerm", uint last_log_term)]%string.

Definition create_request_vote_response (u : uuid_t) (current_term : N) (granted : bool) : Value :=
  raft_message "ResponseVote"
    [("from", str u); ("term", uint current_term); ("granted", boolean granted); ("lastLogIndex", uint 0);
     ("lastLogTerm", uint 0)]%string.

Definition create_append_entries_request (u : uuid_t) (current_term commit_index prev_index prev_term entry_term : N)
    (entry : Value) : Value :=
  raft_message "AppendEntries"
    [("from", str u); ("term", uint current_term); ("prevIndex", uint prev_index); ("prevTerm", uint prev_term);
     ("entries", entry); ("entryTerm", uint entry_term); ("commitIndex", uint commit_index)]%string.

Definition create_append_entries_response (u : uuid_t) (current_term : N) (success : bool) (match_index : N) : Value :=
  raft_message "AppendEntriesReply"
    [("from", str u); ("term", uint current_term); ("success", boolean success); ("matchIndex", uint match_index)]%string.

End Messages.
End raft_base.

(** What [utils/crypto.cpp] and [utils/blacklist.cpp] promise: the outcome of a
    call, given what the contracts answer at the time ([Security] has the
    implementation). *)
Class Security := {
  retrieve_bluzelle_public_key_from_contract : result string;
  verify_signature : string → string → string → result bool;
  is_blacklisted : uuid_t → result bool
}.

Module raft.
Import raft_state raft_base.

Definition NO_PEERS_ERRORS_MGS : string := "No peers given!".
Definition MSG_ERROR_MAXIMUM_STORAGE_EXCEEDED : string :=
  "Maximum storage has been exceeded, please update the options file.".
Definition ERROR_ADD_PEER_MUST_BE_SENT_TO_LEADER : string := "ERROR_ADD_PEER_MUST_BE_SENT_TO_LEADER".
Definition ERROR_REMOVE_PEER_MUST_BE_SENT_TO_LEADER : string := "ERROR_REMOVE_PEER_MUST_BE_SENT_TO_LEADER".
Definition MSG_ERROR_CURRENT_QUORUM_IS_JOINT : string :=
  "A peer cannot be added or removed until the last quorum change request has been processed.".
Definition ERROR_PEER_ALREADY_EXISTS : string := "ERROR_PEER_ALREADY_EXISTS".
Definition ERROR_INVALID_UUID : string := "ERROR_INVALID_UUID".
Definition ERROR_PEER_NOT_FOUND : string := "ERROR_PEER_NOT_FOUND".
Definition ERROR_PEER_HAS_BEEN_BLACKLISTED : string := "ERROR_PEER_HAS_BEEN_BLACKLISTED".
Definition ERROR_INVALID_SIGNATURE : string := "ERROR_INVALID_SIGNATURE".
Definition ERROR_UNABLE_TO_VALIDATE_UUID : string := "ERROR_UNABLE_TO_VALIDATE_UUID".
Definition SUCCESS_PEER_ADDED_TO_SWARM : string := "SUCCESS_PEER_ADDED_TO_SWARM".
Definition SUCCESS_PEER_REMOVED_FROM_SWARM : string := "SUCCESS_PEER_REMOVED_FROM_SWARM".
Definition ERROR_GET_PEERS_MUST_BE_SENT_TO_LEADER : string := "ERROR_GET_PEERS_MUST_BE_SENT_TO_LEADER".
Definition ERROR_GET_PEERS_ELECTION_IN_PROGRESS_TRY_LATER : string :=
  "ERROR_GET_PEERS_ELECTION_IN_PROGRESS_TRY_LATER".
Definition ERROR_BOOTSTRAP_LIST_MUST_HAVE_MORE_THAN_ONE_PEER : string :=
  "ERROR_BOOTSTRAP_LIST_MUST_HAVE_MORE_THAN_ONE_PEER".
Definition ERROR_UNABLE_TO_ADD_PEER_TO_SWARM : string :=
  "Unable to add this peer to the swarm. Please ensure that it is listed in peers.json.".
Definition ERROR_PEER_BLACKLISTED : string :=
  "This node has been actively disallowed from the Bluzelle network. Please contact support@bluzelle.com.".

Definition DEFAULT_HEARTBEAT_TIMER_LEN : N := 250.
Definition DEFAULT_ELECTION_TIMER_LEN : N := 1250.

Section Node.
Context {JS : Jsoncpp} {BO : Boost} {SE : Security} {MA : Message audit_message} {MB : Message bzn_msg}.
(** The order in which an [unordered_set] is enumerated. *)
Context (iteration : list peer_address_t → list peer_address_t).

Record raft := Raft {
  current_state : raft_state;
  current_term : N;
  yes_votes : gset uuid_t;
  no_votes : gset uuid_t;
  voted_for : option uuid_t;
  last_log_term : N;
  commit_index : N;
  timeout_scale : N;
  commit_handler : bool;                      (* whether one is registered *)
  peer_match_index : gmap uuid_t N;
  uuid : uuid_t;
  leader : uuid_t;
  start_once : bool;
  log : raft_log;
  enable_audit : bool;
  enable_peer_validation : bool;
  signed_key : string;
  in_a_swarm : bool
}.

(** The calls of other components. *)
Inductive effect :=
| SendMessage (ep : endpoint) (msg : Value)                           (* node->send_message *)
| SessionSend (session : session_id) (msg : Value) (end_session : bool)
| SessionClose (session : session_id)
| Commit (msg : Value)                                                (* commit_handler(msg) *)
| CancelTimer
| StartElectionTimer (from to : N)                                    (* a random time in the range *)
| StartHeartbeatTimer (ms : N)
| RegisterForMessage (msg_type : string)
| RaiseSigint.

Abbreviation raftM := (M raft effect).

(** Field updates, in groups: election, log and commits, membership, flags. *)
Definition set_election (st : raft_state) (t : N) (yes no : gset uuid_t) (v : option uuid_t) (s : raft) : raft :=
  Raft st t yes no v (last_log_term s) (commit_index s) (timeout_scale s) (commit_handler s) (peer_match_index s)
    (uuid s) (leader s) (start_once s) (log s) (enable_audit s) (enable_peer_validation s) (signed_key s) (in_a_swarm s).
Definition set_log (c : N) (l : raft_log) (s : raft) : raft :=
  Raft (current_state s) (current_term s) (yes_votes s) (no_votes s) (voted_for s) (last_log_term s) c
    (timeout_scale s) (commit_handler s) (peer_match_index s) (uuid s) (leader s) (start_once s) l (enable_audit s)
    (enable_peer_validation s) (signed_key s) (in_a_swarm s).
Definition set_match (m : gmap uuid_t N) (s : raft) : raft :=
  Raft (current_state s) (current_term s) (yes_votes s) (no_votes s) (voted_for s) (last_log_term s) (commit_index s)
    (timeout_scale s) (commit_handler s) m (uuid s) (leader s) (start_once s) (log s) (enable_audit s)
    (enable_peer_validation s) (signed_key s) (in_a_swarm s).
Definition set_leader (l : uuid_t) (s : raft) : raft :=
  Raft (current_state s) (current_term s) (yes_votes s) (no_votes s) (voted_for s) (last_log_term s) (commit_index s)
    (timeout_scale s) (commit_handler s) (peer_match_index s) (uuid s) l (start_once s) (log s) (enable_audit s)
    (enable_peer_validation s) (signed_key s) (in_a_swarm s).
Definition set_flags (handler started audit swarm : bool) (s : raft) : raft :=
  Raft (current_state s) (current_term s) (yes_votes s) (no_votes s) (voted_for s) (last_log_term s) (commit_index s)
    (timeout_scale s) handler (peer_match_index s) (uuid s) (leader s) started (log s) audit
    (enable_peer_validation s) (signed_key s) swarm.

Definition set_term (t : N) (s : raft) : raft :=
  set_election (current_state s) t (yes_votes s) (no_votes s) (voted_for s) s.
Definition set_voted_for (v : option uuid_t) (s : raft) : raft :=
  set_election (current_state s) (current_term s) (yes_votes s) (no_votes s) v s.
Definition set_in_a_swarm (b : bool) (s : raft) : raft :=
  set_flags (commit_handler s) (start_once s) (enable_audit s) b s.

(** [v[k1][k2]...], and its conversions. *)
Fixpoint path (ks : list string) (v : Value) : raftM Value :=
  match ks with
  | [] => mret v
  | k :: ks => x ← lift (member v k); path ks x
  end.
Definition get_string (ks : list string) (v : Value) : raftM string := x ← path ks v; lift (asString x).
Definition get_uint (ks : list string) (v : Value) : raftM N := x ← path ks v; lift (asUInt x).
Definition get_bool (ks : list string) (v : Value) : raftM bool := x ← path ks v; lift (asBool x).

(** [try { m } catch(const std::exception&) { LOG }]. *)
Definition attempt (m : raftM unit) : raftM unit := λ s,
  match m s with
  | (Throw _, s', e) => (Ok tt, s', e)
  | r => r
  end.

(** A call of the log. *)
Definition log_call {A} (m : M raft_log unit A) : raftM A := λ s,
  (res m (log s), set_log (commit_index s) (post m (log s)) s, []).

Definition get_state (s : raft) : raft_state := current_state s.
Definition get_uuid (s : raft) : uuid_t := uuid s.

(** ** The quorum *)

Definition last_quorum : raftM log_entry := l ← gets log; lift (last_quorum_entry l).

Fixpoint peer_uuids (ps : list Value) : raftM (gset uuid_t) :=
  match ps with
  | [] => mret ∅
  | p :: ps => u ← get_string ["uuid"%string] p; us ← peer_uuids ps; mret ({[ u ]} ∪ us)
  end.

Definition get_active_quorum : raftM (list (gset uuid_t)) :=
  e ← last_quorum;
  match entry_type e with
  | single_quorum =>
      peers ← path ["msg"; "peers"]%string (entry_msg e);
      q ← peer_uuids (elements peers);
      mret [q]
  | joint_quorum =>
      old_jpeers ← path ["msg"; "peers"; "old"]%string (entry_msg e);
      new_jpeers ← path ["msg"; "peers"; "new"]%string (entry_msg e);
      q_old ← peer_uuids (elements old_jpeers);
      q_new ← peer_uuids (elements new_jpeers);
      mret [q_old; q_new]
  | _ => throw "last_quorum gave something that's not a quorum"
  end.

(** [intersect.size() * 2 > s.size()] for every quorum [s]. *)
Definition majority_of (votes q : gset uuid_t) : bool := base.size q <? 2 * base.size (q ∩ votes).

Definition is_majority (votes : gset uuid_t) : raftM bool :=
  qs ← get_active_quorum;
  mret (forallb (majority_of votes) qs).

Definition in_quorum (u : uuid_t) : raftM bool :=
  qs ← get_active_quorum;
  mret (existsb (λ q, bool_decide (u ∈ q)) qs).

Definition peer_of_json (p : Value) : raftM peer_address_t :=
  host ← get_string ["host"%string] p;
  port ← get_uint ["port"%string] p;
  http_port ← get_uint ["http_port"%string] p;
  name ← get_string ["name"%string] p;
  u ← get_string ["uuid"%string] p;
  mret (Peer host (u16 port) (u16 http_port) name u).

Fixpoint insert_peers (ps : list Value) (result : list peer_address_t) : raftM (list peer_address_t) :=
  match ps with
  | [] => mret result
  | p :: ps => a ← peer_of_json p; insert_peers ps (set_insert a result)
  end.

Definition get_all_peers : raftM (list peer_address_t) :=
  e ← last_quorum;
  if decide (entry_type e = single_quorum) then
    peers ← path ["msg"; "peers"]%string (entry_msg e);
    result ← insert_peers (elements peers) [];
    mret (iteration result)
  else
    old ← path ["msg"; "peers"; "old"]%string (entry_msg e);
    new ← path ["msg"; "peers"; "new"]%string (entry_msg e);
    result ← insert_peers (elements old) [];
    result ← insert_peers (elements new) result;
    mret (iteration result).

Definition get_leader_unsafe : raftM peer_address_t :=
  peers ← get_all_peers;
  l ← gets leader;
  mret (default (Peer "" 0 0 "" "") (List.find (λ p, bool_decide (Messages.uuid p = l)) peers)).

Definition get_leader : raftM peer_address_t := get_leader_unsafe.

(** ** Timers and state *)

(** [std::uniform_int_distribution<uint32_t>] must not be given an empty range. *)
Definition start_election_timer : raftM unit :=
  emit CancelTimer;;
  scale ← gets timeout_scale;
  let from := u32 (DEFAULT_HEARTBEAT_TIMER_LEN * 3 * scale) in
  let to := u32 (DEFAULT_ELECTION_TIMER_LEN * scale) in
  if (from <=? to)%N then emit (StartElectionTimer from to) else undefined.

Definition start_heartbeat_timer : raftM unit :=
  emit CancelTimer;;
  scale ← gets timeout_scale;
  emit (StartHeartbeatTimer (DEFAULT_HEARTBEAT_TIMER_LEN * scale)).

Definition update_raft_state (term : N) (state : raft_state) : raftM unit :=
  modify (λ s, set_election state term (yes_votes s) (no_votes s) (voted_for s) s);;
  match state with
  | raft_state.leader => modify (λ s, set_leader (uuid s) s)
  | _ => mret tt
  end.

Definition start : raftM unit :=
  started ← gets start_once;
  if (started : bool) then mret tt
  else
    modify (λ s, set_flags (commit_handler s) true (enable_audit s) (in_a_swarm s) s);;
    start_election_timer;;
    emit (RegisterForMessage "raft").

Definition register_commit_handler : raftM unit :=
  modify (λ s, set_flags true (start_once s) (enable_audit s) (in_a_swarm s) s).

Definition set_audit_enabled (val : bool) : raftM unit :=
  modify (λ s, set_flags (commit_handler s) (start_once s) val (in_a_swarm s) s).

(** [raise(SIGINT)], or an exception from the constructor. *)
Definition shutdown_on_exceeded_max_storage (do_throw : bool) : raftM unit :=
  exceeded ← gets (λ s, maximum_storage_exceeded (log s));
  when exceeded (if do_throw then throw MSG_ERROR_MAXIMUM_STORAGE_EXCEEDED else emit RaiseSigint).

(** ** Audit *)

Definition audit_json (m : audit_message) : Value :=
  obj [("bzn-api", str "audit"); ("audit-data", str (base64_encode (SerializeAsString m)))]%string.

Definition send_to_all (msg : Value) : raftM unit :=
  peers ← get_all_peers;
  for_each (λ p, ep ← lift (make_endpoint p); emit (SendMessage ep msg)) peers.

Definition notify_leader_status : raftM unit :=
  s ← gets id;
  when (enable_audit s)
    (send_to_all (audit_json (AuditLeaderStatus
       (LeaderStatus (current_term s) (uuid s) (size (log s)) (commit_index s))))).

Definition notify_commit (log_index : N) (operation : string) : raftM unit :=
  audit ← gets enable_audit;
  when audit (send_to_all (audit_json (AuditRaftCommit (RaftCommit "" log_index operation)))).

(** ** Appending and committing *)

Definition append_log_unsafe (msg : Value) (entry_type : log_entry_type) : raftM bool :=
  s ← gets id;
  if negb (bool_decide (current_state s = raft_state.leader)) then mret false
  else
    log_call (leader_append_entry (LogEntry entry_type (u32 (size (log s))) (current_term s) msg));;
    mret true.

Definition append_log : Value → log_entry_type → raftM bool := append_log_unsafe.

Definition create_single_quorum_from_joint_quorum (joint : Value) : raftM Value :=
  peers ← path ["msg"; "peers"; "new"]%string joint;
  mret (obj [("msg", obj [("peers", peers)])]%string).

(** An empty [std::function] throws. *)
Definition perform_commit (e : log_entry) : raftM unit :=
  c ← gets commit_index;
  notify_commit c (json_to_string (entry_msg e));;
  handler ← gets commit_handler;
  (if (handler : bool) then emit (Commit (entry_msg e)) else throw "bad_function_call");;
  modify (λ s, set_log (u32 (commit_index s + 1)) (log s) s);;
  s ← gets id;
  when (bool_decide (get_state s = raft_state.leader) && bool_decide (entry_type e = joint_quorum))
    (q ← create_single_quorum_from_joint_quorum (entry_msg e);
     append_log_unsafe q single_quorum;; mret tt).

(** [while (commit_index < bound) perform_commit(entry_at(commit_index))]: a
    turn advances [commit_index], so the distance to the bound is enough fuel. *)
Fixpoint commit_until (fuel : nat) (bound : N) : raftM unit :=
  s ← gets id;
  if (commit_index s <? bound)%N then
    match fuel with
    | O => undefined
    | S fuel => e ← lift (entry_at (commit_index s) (log s)); perform_commit e;; commit_until fuel bound
    end
  else mret tt.

(** [for (i = commit_index; i < min(size, commitIndex); ++i)]. *)
Fixpoint commit_from (fuel : nat) (i leader_commit : N) : raftM unit :=
  s ← gets id;
  if (i <? N.min (size (log s)) leader_commit)%N then
    match fuel with
    | O => undefined
    | S fuel => e ← lift (entry_at i (log s)); perform_commit e;; commit_from fuel (i + 1) leader_commit
    end
  else mret tt.

(** [peer_match_index[u]]: an entry 0 is made when there is none. *)
Definition match_index (u : uuid_t) : raftM N :=
  modify (λ s, match peer_match_index s !! u with
               | Some _ => s
               | None => set_match (<[u := 0%N]> (peer_match_index s)) s
               end);;
  gets (λ s, default 0%N (peer_match_index s !! u)).

Fixpoint match_indices (us : list uuid_t) : raftM (list N) :=
  match us with
  | [] => mret []
  | u :: us => i ← match_index u; l ← match_indices us; mret (i :: l)
  end.

(** [match_indices[uint32_t(std::ceil(match_indices.size()/2.0))]] of the sorted
    indices; with fewer than two peers it reads behind the vector. *)
Definition median (l : list N) : option N :=
  merge_sort N.le l !! (Nat.div2 (length l + 1)).

Fixpoint min_median (qs : list (gset uuid_t)) (result : N) : raftM N :=
  match qs with
  | [] => mret result
  | q :: qs =>
      l ← match_indices (base.elements q);
      match median l with
      | Some m => min_median qs (N.min result m)
      | None => undefined
      end
  end.

Definition last_majority_replicated_log_index : raftM N :=
  qs ← get_active_quorum;
  min_median qs (2 ^ 32 - 1).

(** ** Replication *)

Definition request_append_entry (peer : peer_address_t) : raftM unit :=
  index ← match_index (Messages.uuid peer);
  s ← gets id;
  (if (index <? size (log s))%N then
     let prev_index := u32 (index + 2 ^ 32 - 1) in
     prev ← lift (entry_at prev_index (log s));
     e ← lift (entry_at index (log s));
     ep ← lift (make_endpoint peer);
     emit (SendMessage ep (create_append_entries_request (uuid s) (current_term s) (commit_index s) prev_index
                             (term prev) (term e) (entry_msg e)))
   else
     let prev_index := u32 (sub64 (size (log s)) 1) in
     prev ← lift (entry_at prev_index (log s));
     ep ← lift (make_endpoint peer);
     emit (SendMessage ep (create_append_entries_request (uuid s) (current_term s) (commit_index s) prev_index
                             (term prev) 0 null))).

Definition request_append_entries : raftM unit :=
  peers ← get_all_peers;
  u ← gets uuid;
  for_each (λ p, when (negb (bool_decide (Messages.uuid p = u))) (attempt (request_append_entry p))) peers;;
  start_heartbeat_timer.

Definition handle_heartbeat_timeout (ec : bool) : raftM unit :=
  if ec then mret tt else request_append_entries;; notify_leader_status.

Definition handle_request_append_entries_response (msg : Value) : raftM unit :=
  s ← gets id;
  if negb (bool_decide (current_state s = raft_state.leader)) then mret tt
  else
    m ← get_uint ["data"; "matchIndex"]%string msg;
    t ← (if (size (log s) <? m)%N then mret (current_term s) else get_uint ["data"; "term"]%string msg);
    if (size (log s) <? m)%N || negb (t =? current_term s)%N then mret tt
    else
      from ← get_string ["data"; "from"]%string msg;
      m ← get_uint ["data"; "matchIndex"]%string msg;
      modify (λ s, set_match (<[from := m]> (peer_match_index s)) s);;
      success ← get_bool ["data"; "success"]%string msg;
      if negb success then mret tt
      else
        last ← last_majority_replicated_log_index;
        s ← gets id;
        if (size (log s) <? last)%N then mret tt
        else commit_until (N.to_nat (last - commit_index s)) last.

Definition deduce_type_from_message (message : Value) : raftM log_entry_type :=
  m ← path ["msg"%string] message;
  if isString m then mret database else
  peers ← path ["peers"%string] m;
  if isArray peers then mret single_quorum else
  joint ← lift (isMember peers "new");
  mret (if (joint : bool) then joint_quorum else undefined_entry).

Definition handle_ws_append_entries (msg : Value) (session : session_id) : raftM unit :=
  term ← get_uint ["data"; "term"]%string msg;
  s ← gets id;
  (if in_a_swarm s then mret tt
   else from ← get_string ["data"; "from"]%string msg;
        when (negb (bool_decide (from = uuid s))) (modify (set_in_a_swarm true)));;
  if (bool_decide (current_state s = candidate) || bool_decide (current_state s = raft_state.leader))
     && (term <=? current_term s)%N then
    update_raft_state term follower;;
    start_election_timer;;
    emit (SessionClose session)
  else
    from ← get_string ["data"; "from"]%string msg;
    modify (set_leader from);;
    leader_prev_term ← get_uint ["data"; "prevTerm"]%string msg;
    leader_prev_index ← get_uint ["data"; "prevIndex"]%string msg;
    entry_term ← get_uint ["data"; "entryTerm"]%string msg;
    let msg_index := u32 (leader_prev_index + 1) in
    accepted ← lift (entry_accepted leader_prev_index leader_prev_term (log s));
    when accepted
      (entries ← path ["data"; "entries"]%string msg;
       when (negb (empty entries))
         (t ← deduce_type_from_message entries;
          log_call (follower_insert_entry msg_index (LogEntry t msg_index entry_term entries))));;
    s ← gets id;
    let match_index := N.min (size (log s)) (msg_index + 1) in
    emit (SessionSend session
      (create_append_entries_response (uuid s) (current_term s) accepted (u32 match_index)) true);;
    leader_commit ← get_uint ["data"; "commitIndex"]%string msg;
    when (accepted && (commit_index s <? leader_commit)%N)
      (commit_from (N.to_nat (N.min (size (log s)) leader_commit - commit_index s)) (commit_index s) leader_commit);;
    modify (λ s, set_match (<[leader s := leader_commit]> (peer_match_index s)) s);;
    start_election_timer.

(** ** Elections *)

Definition request_vote_request : raftM unit :=
  modify (λ s, set_election (current_state s) (u32 (current_term s + 1)) {[ uuid s ]} ∅ (Some (uuid s)) s);;
  t ← gets current_term;
  update_raft_state t candidate;;
  modify (set_leader "");;
  peers ← get_all_peers;
  s ← gets id;
  for_each (λ p, when (negb (bool_decide (Messages.uuid p = uuid s)))
    (attempt (ep ← lift (make_endpoint p);
              emit (SendMessage ep (create_request_vote_request (uuid s) (current_term s) (u32 (size (log s)))
                                      (last_log_term s)))))) peers;;
  start_election_timer.

Definition handle_request_vote_response (msg : Value) : raftM unit :=
  s ← gets id;
  stale ← (if bool_decide (current_state s = raft_state.leader)
           then t ← get_uint ["data"; "term"]%string msg; mret (current_term s <? t)%N
           else mret false);
  if (stale : bool) then
    t ← get_uint ["data"; "term"]%string msg;
    update_raft_state t follower;;
    start_election_timer
  else if negb (bool_decide (current_state s = candidate)) then mret tt
  else
    granted ← get_bool ["data"; "granted"]%string msg;
    from ← get_string ["data"; "from"]%string msg;
    if (granted : bool) then
      modify (λ s, set_election (current_state s) (current_term s) ({[ from ]} ∪ yes_votes s) (no_votes s) (voted_for s) s);;
      votes ← gets yes_votes;
      won ← is_majority votes;
      when won
        (update_raft_state (current_term s) raft_state.leader;;
         modify (λ s, set_match ((λ _, 1%N) <$> peer_match_index s) s);;
         request_append_entries)
    else
      modify (λ s, set_election (current_state s) (current_term s) (yes_votes s) ({[ from ]} ∪ no_votes s) (voted_for s) s);;
      votes ← gets no_votes;
      lost ← is_majority votes;
      when lost (update_raft_state (current_term s) follower;; start_election_timer).

Definition handle_ws_request_vote (msg : Value) (session : session_id) : raftM unit :=
  s ← gets id;
  if bool_decide (current_state s = raft_state.leader) || bool_decide (is_Some (voted_for s)) then
    emit (SessionSend session (create_request_vote_response (uuid s) (current_term s) false) true)
  else
    from ← get_string ["data"; "from"]%string msg;
    modify (set_voted_for (Some from));;
    last ← get_uint ["data"; "lastLogIndex"]%string msg;
    emit (SessionSend session (create_request_vote_response (uuid s) (current_term s) (size (log s) <=? last)%N) true).

(** ** Changes of the quorum *)

Definition create_joint_quorum_by_adding_peer (last_quorum_message new_peer : Value) : raftM Value :=
  peers ← path ["msg"; "peers"]%string last_quorum_message;
  mret (obj [("msg", obj [("peers", obj [("old", peers); ("new", append peers new_peer)])])]%string).

Fixpoint other_peers (ps : list Value) (u : uuid_t) : raftM (list Value) :=
  match ps with
  | [] => mret []
  | p :: ps =>
      x ← path ["uuid"%string] p;
      rest ← other_peers ps u;
      mret (if equals_string x u then rest else p :: rest)
  end.

(** Without another peer there is no member ["new"]. *)
Definition create_joint_quorum_by_removing_peer (last_quorum_message : Value) (peer_uuid : uuid_t) : raftM Value :=
  peers ← path ["msg"; "peers"]%string last_quorum_message;
  rest ← other_peers (elements peers) peer_uuid;
  mret (obj [("msg", obj [("peers",
    obj (("old", peers) :: match rest with [] => [] | _ => [("new", foldl append null rest)] end))])]%string).

Definition send_session_error_message (session : session_id) (error_message : string) : raftM unit :=
  emit (SessionSend session (obj [("error", str error_message)]%string) true).

Definition send_success_message (session : session_id) (command message : string) : raftM unit :=
  u ← gets uuid;
  emit (SessionSend session
    (obj [("bzn-api", str "raft"); ("cmd", str command);
          ("response", obj [("from", str u); ("msg", str message)])]%string) true).

(** The black list is asked about this node, not about the peer. *)
Definition validate_new_peer (session : session_id) (peer : Value) : raftM bool :=
  peer_uuid ← get_string ["uuid"%string] peer;
  has_signature ← lift (isMember peer "signature");
  sig ← (if (has_signature : bool) then get_string ["signature"%string] peer else mret ""%string);
  if negb has_signature || bool_decide (sig = ""%string) then
    send_session_error_message session ERROR_INVALID_SIGNATURE;; mret false
  else
    public_key ← lift retrieve_bluzelle_public_key_from_contract;
    valid ← lift (verify_signature public_key sig (peer_uuid ++ String "010" ""));
    if negb (valid : bool) then send_session_error_message session ERROR_UNABLE_TO_VALIDATE_UUID;; mret false
    else
      u ← gets uuid;
      banned ← lift (is_blacklisted u);
      if (banned : bool) then send_session_error_message session ERROR_PEER_HAS_BEEN_BLACKLISTED;; mret false
      else mret true.

(** [std::find_if] over the peers. *)
Fixpoint has_peer (ps : list Value) (u : uuid_t) : raftM bool :=
  match ps with
  | [] => mret false
  | p :: ps => x ← get_string ["uuid"%string] p; if decide (x = u) then mret true else has_peer ps u
  end.

Definition handle_add_peer (session : session_id) (peer : Value) : raftM unit :=
  st ← gets get_state;
  if negb (bool_decide (st = raft_state.leader)) then
    send_session_error_message session ERROR_ADD_PEER_MUST_BE_SENT_TO_LEADER
  else
    last_quorum_entry ← last_quorum;
    if decide (entry_type last_quorum_entry = joint_quorum) then
      send_session_error_message session MSG_ERROR_CURRENT_QUORUM_IS_JOINT
    else
      peers ← path ["msg"; "peers"]%string (entry_msg last_quorum_entry);
      u ← (match elements peers with [] => mret ""%string | _ => get_string ["uuid"%string] peer end);
      known ← has_peer (elements peers) u;
      if (known : bool) then send_session_error_message session ERROR_PEER_ALREADY_EXISTS
      else
        has_uuid ← lift (isMember peer "uuid");
        u ← (if (has_uuid : bool) then get_string ["uuid"%string] peer else mret ""%string);
        if negb has_uuid || bool_decide (u = ""%string) then send_session_error_message session ERROR_INVALID_UUID
        else
          validation ← gets enable_peer_validation;
          valid ← (if (validation : bool) then validate_new_peer session peer else mret true);
          if negb valid then mret tt
          else
            modify (λ s, set_match (<[u := 1%N]> (peer_match_index s)) s);;
            joint ← create_joint_quorum_by_adding_peer (entry_msg last_quorum_entry) peer;
            append_log_unsafe joint joint_quorum;;
            send_success_message session "add_peer" SUCCESS_PEER_ADDED_TO_SWARM.

Definition handle_remove_peer (session : session_id) (u : uuid_t) : raftM unit :=
  st ← gets get_state;
  if negb (bool_decide (st = raft_state.leader)) then
    send_session_error_message session ERROR_REMOVE_PEER_MUST_BE_SENT_TO_LEADER
  else
    last_quorum_entry ← last_quorum;
    if decide (entry_type last_quorum_entry = joint_quorum) then
      send_session_error_message session MSG_ERROR_CURRENT_QUORUM_IS_JOINT
    else
      peers ← path ["msg"; "peers"]%string (entry_msg last_quorum_entry);
      known ← has_peer (elements peers) u;
      if negb known then send_session_error_message session ERROR_PEER_NOT_FOUND
      else
        joint ← create_joint_quorum_by_removing_peer (entry_msg last_quorum_entry) u;
        append_log_unsafe joint joint_quorum;;
        send_success_message session "remove_peer" SUCCESS_PEER_REMOVED_FROM_SWARM.

(** ** Joining a swarm *)

Definition to_peer_message (address : peer_address_t) : Value :=
  obj [("port", uint (port address)); ("http_port", uint (http_port address)); ("host", str (host address));
       ("uuid", str (Messages.uuid address)); ("name", str (name address))]%string.

Definition handle_get_peers (session : session_id) : raftM unit :=
  s ← gets id;
  let base := [("bzn-api", str "raft"); ("cmd", str "get_peers_response"); ("from", str (uuid s))]%string in
  members ← match current_state s with
            | candidate => mret [("error", str ERROR_GET_PEERS_ELECTION_IN_PROGRESS_TRY_LATER)]%string
            | follower =>
                l ← get_leader_unsafe;
                mret [("error", str ERROR_GET_PEERS_MUST_BE_SENT_TO_LEADER);
                      ("message", obj [("leader", to_peer_message l)])]%string
            | raft_state.leader =>
                peers ← get_all_peers;
                mret (match peers with
                      | [] => []
                      | _ => [("message", foldl append null (to_peer_message <$> peers))]%string
                      end)
            end;
  emit (SessionSend session (obj (base ++ members)) false).

Definition remove_peer_from_peers_list (all_peers : list peer_address_t) (u : uuid_t) : list peer_address_t :=
  iteration (foldl (λ acc p, if decide (Messages.uuid p = u) then acc else set_insert p acc) [] all_peers).

(** [dis(gen) - 1] is a number below the size of the list; [pick] is the draw. *)
Definition choose_any_one_of (all_peers : list peer_address_t) (pick : N) : option peer_address_t :=
  all_peers !! N.to_nat (pick mod lengthN all_peers).

Definition auto_add_peer_if_required (pick : N) : raftM unit :=
  l ← get_leader_unsafe;
  l ← (if bool_decide (Messages.uuid l = ""%string) && bool_decide (host l = ""%string) then
         peers ← get_all_peers;
         u ← gets uuid;
         match remove_peer_from_peers_list peers u with
         | [] => throw ERROR_BOOTSTRAP_LIST_MUST_HAVE_MORE_THAN_ONE_PEER
         | others => match choose_any_one_of others pick with Some p => mret p | None => undefined end
         end
       else mret l);
  ep ← lift (make_endpoint l);
  emit (SendMessage ep (obj [("bzn-api", str "raft"); ("cmd", str "get_peers")]%string)).

Definition handle_election_timeout (pick : N) (ec : bool) : raftM unit :=
  swarm ← gets in_a_swarm;
  when (negb swarm) (auto_add_peer_if_required pick);;
  if ec then mret tt else request_vote_request.

Definition make_add_peer_request (new_peer : peer_address_t) (signature : list (string * Value)) : Value :=
  obj [("bzn-api", str "raft"); ("cmd", str "add_peer");
       ("data", obj [("peer", obj ([("name", str (name new_peer)); ("host", str (host new_peer));
                                    ("port", uint (port new_peer)); ("http_port", uint (http_port new_peer));
                                    ("uuid", str (Messages.uuid new_peer))] ++ signature))])]%string.

Definition make_secure_add_peer_request (new_peer : peer_address_t) (signed_key : string) : Value :=
  make_add_peer_request new_peer [("signature"%string, str signed_key)].

Definition add_self_to_swarm : raftM unit :=
  all_peers ← get_all_peers;
  s ← gets id;
  match List.find (λ p, bool_decide (Messages.uuid p = uuid s)) all_peers with
  | None =>
      banned ← (if enable_peer_validation s then lift (is_blacklisted (uuid s)) else mret false);
      if (banned : bool) then throw ERROR_PEER_BLACKLISTED
      else throw ERROR_UNABLE_TO_ADD_PEER_TO_SWARM
  | Some this_address =>
      l ← get_leader_unsafe;
      ep ← lift (make_endpoint l);
      emit (SendMessage ep (make_secure_add_peer_request this_address (signed_key s)))
  end.

Definition handle_get_peers_response_from_follower_or_candidate (pick : N) (msg : Value) : raftM unit :=
  has_message ← lift (isMember msg "message");
  has_leader ← (if (has_message : bool) then m ← path ["message"%string] msg; lift (isMember m "leader")
                else mret false);
  when has_leader
    (l ← get_string ["message"; "leader"; "uuid"]%string msg;
     modify (set_leader l);;
     auto_add_peer_if_required pick);;
  modify (set_in_a_swarm false).

Definition handle_get_peers_response_from_leader (msg : Value) : raftM unit :=
  has_message ← lift (isMember msg "message");
  if negb has_message then mret tt else
  has_from ← lift (isMember msg "from");
  when has_from (from ← get_string ["from"%string] msg; modify (set_leader from));;
  m ← path ["message"%string] msg;
  if isArray m then
    u ← gets uuid;
    listed ← has_peer (elements m) u;
    if negb listed then add_self_to_swarm else modify (set_in_a_swarm true)
  else mret tt.

Definition handle_get_peers_response (pick : N) (msg : Value) : raftM unit :=
  is_error ← lift (isMember msg "error");
  if (is_error : bool) then handle_get_peers_response_from_follower_or_candidate pick msg
  else handle_get_peers_response_from_leader msg.

(** ** Messages *)

Definition handle_add_peer_message (msg : Value) (session : session_id) : raftM unit :=
  is_response ← lift (isMember msg "response");
  if (is_response : bool) then
    text ← get_string ["response"; "msg"]%string msg;
    when (bool_decide (text = SUCCESS_PEER_ADDED_TO_SWARM)) (modify (set_in_a_swarm true))
  else
    peer ← path ["data"; "peer"]%string msg;
    handle_add_peer session peer.

Definition handle_remove_peer_message (msg : Value) (session : session_id) : raftM unit :=
  has_data ← lift (isMember msg "data");
  has_uuid ← (if (has_data : bool) then d ← path ["data"%string] msg; lift (isMember d "uuid") else mret false);
  u ← (if (has_uuid : bool) then get_string ["data"; "uuid"]%string msg else mret ""%string);
  if bool_decide (u = ""%string) then send_session_error_message session ERROR_INVALID_UUID
  else handle_remove_peer session u.

(** A message of the current term. *)
Definition handle_current_term (cmd : string) (msg : Value) (session : session_id) : raftM unit :=
  if bool_decide (cmd = "RequestVote"%string) then handle_ws_request_vote msg session
  else if bool_decide (cmd = "AppendEntries"%string) then handle_ws_append_entries msg session
  else if bool_decide (cmd = "AppendEntriesReply"%string) then
    handle_request_append_entries_response msg;; emit (SessionClose session)
  else if bool_decide (cmd = "ResponseVote"%string) then
    handle_request_vote_response msg;; emit (SessionClose session)
  else mret tt.

(** A message of a later term: a request for a vote is granted at once. *)
Definition handle_later_term (cmd : string) (term : N) (msg : Value) (session : session_id) : raftM unit :=
  modify (set_term term);;
  s ← gets id;
  if bool_decide (cmd = "RequestVote"%string) then
    u ← get_string ["data"; "uuid"]%string msg;
    modify (set_voted_for (Some u));;
    emit (SessionSend session (create_request_vote_response (uuid s) term true) true)
  else
    when (bool_decide (cmd = "AppendEntries"%string))
      (from ← get_string ["data"; "from"]%string msg;
       modify (set_leader from);;
       emit (SessionSend session
         (create_append_entries_response (uuid s) term false (u32 (size (log s)))) true));;
    update_raft_state term follower;;
    modify (set_voted_for None);;
    start_election_timer.

(** A message of an earlier term: this node goes back to it. *)
Definition handle_earlier_term (term : N) : raftM unit :=
  update_raft_state term follower;;
  modify (set_voted_for None);;
  start_election_timer.

Definition handle_ws_raft_messages (pick : N) (msg : Value) (session : session_id) : raftM unit :=
  shutdown_on_exceeded_max_storage false;;
  cmd ← get_string ["cmd"%string] msg;
  if bool_decide (cmd = "add_peer"%string) then handle_add_peer_message msg session
  else if bool_decide (cmd = "remove_peer"%string) then handle_remove_peer_message msg session
  else if bool_decide (cmd = "get_peers"%string) then handle_get_peers session
  else if bool_decide (cmd = "get_peers_response"%string) then handle_get_peers_response pick msg
  else
    from ← get_string ["data"; "from"]%string msg;
    member ← in_quorum from;
    if negb member then mret tt else
    term ← get_uint ["data"; "term"]%string msg;
    t ← gets current_term;
    if (t =? term)%N then handle_current_term cmd msg session
    else if (t <? term)%N then handle_later_term cmd term msg session
    else handle_earlier_term term.

Definition get_status (s : raft) : Value :=
  obj [("state", str match current_state s with
                     | candidate => "candidate" | follower => "follower" | raft_state.leader => "leader"
                     end)]%string.

(** [back()] of an empty vector is undefined. *)
Definition import_state_files : raftM unit :=
  s ← gets id;
  match last (log_entries (log s)) with
  | None => undefined
  | Some e =>
      when (negb (log_index e =? sub64 (size (log s)) 1)%N || negb (term e =? current_term s)%N)
        (throw "Invalid log entry file. Please Delete .state folder.")
  end.

(** ** Construction *)

(** [std::stoul] in base ten. *)
Definition stoul (s : string) : option N :=
  let '(neg, s) := istream.get_sign (istream.skip_ws s) in
  match istream.span istream.is_digit s with
  | (EmptyString, _) => None
  | (digits, _) => n ← digits_value 0 digits;
                   if (n <? 2 ^ 64)%N then Some (if neg : bool then sub64 0 n else n) else None
  end.

(** [getenv("RAFT_TIMEOUT_SCALE")]: a value that is not a number is ignored. *)
Definition get_raft_timeout_scale (env : option string) : N :=
  match env with
  | None => 1
  | Some s => match stoul s with Some n => u32 (N.max 1 n) | None => 1 end
  end.

Definition setup_peer_tracking (peers : list peer_address_t) : gmap uuid_t N :=
  foldl (λ m p, <[Messages.uuid p := 1%N]> m) ∅ peers.

Definition peer_to_json (p : peer_address_t) : Value :=
  obj [("host", str (host p)); ("port", uint (port p)); ("http_port", uint (http_port p)); ("name", str (name p));
       ("uuid", str (Messages.uuid p))]%string.

(** The first entry: the peers are a single quorum. *)
Definition first_entry (peers : list peer_address_t) : log_entry :=
  LogEntry single_quorum 0 0
    (obj [("msg", obj match peers with
                      | [] => []
                      | _ => [("peers", foldl append null (peer_to_json <$> peers))]
                      end)]%string).

Definition create_dat_file (peers : list peer_address_t) (d : disk) : result disk :=
  if parent_exists d || can_create_parent d then Ok (Disk (Some (print_entry (first_entry peers))) true (can_create_parent d))
  else Throw "boost::filesystem::create_directories".

(** [boost::filesystem::path::append] puts a separator where there is none. *)
Definition entries_log_path (state_dir : string) (u : uuid_t) : string :=
  let file := (u ++ ".dat")%string in
  match String.get (String.length state_dir - 1) state_dir with
  | None => file
  | Some c => if bool_decide (c = "/"%char) then state_dir ++ file else state_dir ++ "/" ++ file
  end.

Definition new (peers : list peer_address_t) (u : uuid_t) (maximum_raft_storage : N) (validation : bool)
    (key : string) (env : option string) (d : disk) : result raft :=
  match peers with
  | [] => Throw NO_PEERS_ERRORS_MGS
  | _ =>
      let created := match file d with Some _ => Ok d | None => create_dat_file peers d end in
      match created with
      | Ok d =>
          match raft_log.new maximum_raft_storage d with
          | Ok l =>
              let s := Raft follower 0 ∅ ∅ None 0 1 (get_raft_timeout_scale env) false (setup_peer_tracking peers) u ""
                         false l true validation key false in
              match res (shutdown_on_exceeded_max_storage true) s with
              | Ok _ => Ok s
              | Throw w => Throw w
              | Undefined => Undefined
              end
          | Throw w => Throw w
          | Undefined => Undefined
          end
      | Throw w => Throw w
      | Undefined => Undefined
      end
  end.

(** ** Rebuilding the storage from the log *)
Section Storage.
Context {S : Type} `{!storage_base.Storage S}.

(** The requests that change the storage. *)
Definition replay_request (m : database_msg) (storage : S) : S :=
  let u := db_uuid (header m) in
  match msg m with
  | DbCreate k v => (storage_base.create u k v storage).2
  | DbUpdate k v => (storage_base.update u k v storage).2
  | DbDelete k => (storage_base.remove u k storage).2
  | _ => storage
  end.

(** A message that cannot be parsed is skipped. *)
Definition replay_entry (e : log_entry) (storage : S) : result S :=
  if decide (entry_type e = database) then
    match member (entry_msg e) "msg" with
    | Ok v =>
        match asString v with
        | Ok encoded =>
            match ParseFromString (base64_decode encoded) with
            | Some m => Ok (replay_request (bzn_msg_db m) storage)
            | None => Ok storage
            end
        | Throw w => Throw w
        | Undefined => Undefined
        end
    | Throw w => Throw w
    | Undefined => Undefined
    end
  else Ok storage.

Fixpoint replay (es : list log_entry) (storage : S) : result S :=
  match es with
  | [] => Ok storage
  | e :: es => match replay_entry e storage with
               | Ok storage => replay es storage
               | r => r
               end
  end.

Definition initialize_storage_from_log (s : raft) (storage : S) : result S := replay (log_entries (log s)) storage.

End Storage.
End Node.
End raft.
