(* ===== verification/RaftProps.v ===== *)
(** * Properties of Raft

    What a node commits in any run, what it takes to commit and to be elected,
    and how one entry travels from the leader to a follower. *)

From S2P Require Import Prelude Messages Json RaftLog Raft.
Import raft_log raft_state raft_base raft.

Module raft_props.
Section Runs.
Context {JS : Jsoncpp} {BO : Boost} {SE : Security} {MA : Message audit_message} {MB : Message bzn_msg}.
Context (iteration : list peer_address_t → list peer_address_t).

Abbreviation raftM := (M raft effect).

(** ** The log grows and is committed in order *)

Abbreviation entries s := (log_entries (log s)).

(** The messages handed to the commit handler. *)
Definition commits (es : list effect) : list Value :=
  omap (λ e, match e with Commit v => Some v | _ => None end) es.

(** The entries from index [i] to before index [j]. *)
Definition slice (i j : N) (es : list log_entry) : list log_entry :=
  take (N.to_nat j - N.to_nat i) (drop (N.to_nat i) es).

Definition inv (s : raft) : Prop := (commit_index s ≤ size (log s))%N.

(** What a method does to the log: it is extended, and the commit handler gets
    the entries from the old to the new commit index.  A log of [2 ^ 32]
    entries has indices that do not fit. *)
Definition step (s s' : raft) (o : list effect) : Prop :=
  (size (log s') < 2 ^ 32)%N →
  entries s `prefix_of` entries s' ∧
  (inv s → inv s' ∧ (commit_index s ≤ commit_index s')%N ∧
           commits o = entry_msg <$> slice (commit_index s) (commit_index s') (entries s')).

Lemma commits_app o o' : commits (o ++ o') = commits o ++ commits o'.
Proof. apply omap_app. Qed.

Lemma prefix_size s s' : entries s `prefix_of` entries s' → (size (log s) ≤ size (log s'))%N.
Proof. intros H%prefix_length. unfold size, lengthN. lia. Qed.

Lemma slice_prefix i j es es' :
  es `prefix_of` es' → (j ≤ lengthN es)%N → slice i j es' = slice i j es.
Proof.
  intros [k ->] Hj. unfold slice, lengthN in *. destruct (decide (N.to_nat i ≤ length es)) as [Hi|Hi].
  - rewrite drop_app_le by done. rewrite take_app_le; [done|]. rewrite length_drop. lia.
  - replace (N.to_nat j - N.to_nat i) with 0 by lia. done.
Qed.

Lemma slice_app i j k es :
  (i ≤ j)%N → (j ≤ k)%N → slice i k es = slice i j es ++ slice j k es.
Proof.
  intros Hij Hjk. unfold slice.
  replace (N.to_nat k - N.to_nat i) with ((N.to_nat j - N.to_nat i) + (N.to_nat k - N.to_nat j)) by lia.
  rewrite <-take_take_drop. f_equal. rewrite drop_drop. by replace (N.to_nat i + (N.to_nat j - N.to_nat i)) with (N.to_nat j) by lia.
Qed.

Lemma log_step_refl s o : commits o = [] → step s s o.
Proof.
  intros Ho _. split; [done|]. intros Hi. split_and!; [done|lia|]. rewrite Ho. unfold slice. by rewrite Nat.sub_diag.
Qed.

Lemma log_step_trans s1 s2 s3 o o' : step s1 s2 o → step s2 s3 o' → step s1 s3 (o ++ o').
Proof.
  intros H12 H23 Hlt. destruct (H23 Hlt) as [Hp23 Hc23]. pose proof (prefix_size _ _ Hp23).
  destruct (H12 ltac:(lia)) as [Hp12 Hc12]. split; [by etrans|].
  intros Hi. destruct (Hc12 Hi) as (Hi2 & Hle12 & Hcm12). destruct (Hc23 Hi2) as (Hi3 & Hle23 & Hcm23).
  split_and!; [done|lia|]. rewrite commits_app, Hcm12, Hcm23, (slice_app _ _ _ _ Hle12 Hle23), fmap_app.
  by rewrite (slice_prefix (commit_index s1) (commit_index s2) (entries s2) (entries s3)).
Qed.

(** A method that keeps the log in this way. *)
Definition guar {A} (m : raftM A) : Prop := ∀ s, step s (post m s) (out m s).

Lemma keeps_bind_at {A B} (m : raftM A) (k : A → raftM B) s :
  step s (post m s) (out m s) →
  (∀ a, res m s = Ok a → step (post m s) (post (k a) (post m s)) (out (k a) (post m s))) →
  step s (post (m ≫= k) s) (out (m ≫= k) s).
Proof.
  intros Hm Hk. rewrite post_bind, out_bind. destruct (res m s) as [a| |]; [|by rewrite app_nil_r..].
  eapply log_step_trans; [done|]. by apply Hk.
Qed.

Lemma keeps_bind {A B} (m : raftM A) (k : A → raftM B) : guar m → (∀ a, guar (k a)) → guar (m ≫= k).
Proof. intros Hm Hk s. apply keeps_bind_at; [apply Hm|intros a _; apply Hk]. Qed.

Lemma keeps_ret {A} (a : A) : guar (mret a).
Proof. intros s. by apply log_step_refl. Qed.
Lemma keeps_gets {A} (f : raft → A) : guar (gets f).
Proof. intros s. by apply log_step_refl. Qed.
Lemma keeps_lift {A} (r : result A) : guar (lift r).
Proof. intros s. by apply log_step_refl. Qed.
Lemma keeps_throw {A} w : guar (throw w : raftM A).
Proof. intros s. by apply log_step_refl. Qed.
Lemma keeps_undefined {A} : guar (undefined : raftM A).
Proof. intros s. by apply log_step_refl. Qed.
Lemma keeps_emit e : match e with Commit _ => False | _ => True end → guar (emit e).
Proof. intros He s. apply log_step_refl. by destruct e. Qed.
Lemma keeps_when b (m : raftM unit) : guar m → guar (when b m).
Proof. intros Hm. destruct b; [done|apply keeps_ret]. Qed.
Lemma keeps_attempt (m : raftM unit) : guar m → guar (attempt m).
Proof.
  intros Hm s. specialize (Hm s). unfold guar, attempt, post, out in *. by destruct (m s) as [[[]?]?].
Qed.
Lemma keeps_for_each {A} (f : A → raftM unit) l : (∀ x, guar (f x)) → guar (for_each f l).
Proof. intros Hf. induction l as [|x l IH]; [apply keeps_ret|]. apply keeps_bind; [apply Hf|by intros []]. Qed.

(** Changes of the other fields. *)
Lemma keeps_modify f :
  (∀ s, log (f s) = log s ∧ commit_index (f s) = commit_index s) → guar (modify f).
Proof.
  intros Hf s Hlt. rewrite post_modify in *. destruct (Hf s) as [Hl Hc]. rewrite Hl. split; [done|].
  unfold inv. rewrite Hl, Hc. intros Hi. split_and!; [done|lia|]. unfold slice. by rewrite Nat.sub_diag.
Qed.

(** *** Methods that only read *)

Lemma pure_path ks v : pure_method (path ks v : raftM Value).
Proof. revert v. induction ks as [|k ks IH]; intros v; simpl; unfold pure_method in *; respects_steps. apply IH. Qed.

Lemma keeps_path ks v : guar (path ks v).
Proof.
  revert v. induction ks as [|k ks IH]; intros v; [apply keeps_ret|]. apply keeps_bind; [apply keeps_lift|done].
Qed.
Lemma keeps_get_string ks v : guar (get_string ks v).
Proof. apply keeps_bind; [apply keeps_path|intros; apply keeps_lift]. Qed.
Lemma keeps_get_uint ks v : guar (get_uint ks v).
Proof. apply keeps_bind; [apply keeps_path|intros; apply keeps_lift]. Qed.
Lemma keeps_get_bool ks v : guar (get_bool ks v).
Proof. apply keeps_bind; [apply keeps_path|intros; apply keeps_lift]. Qed.
End Runs.

Create HintDb guar.
#[export] Hint Resolve keeps_ret keeps_gets keeps_lift keeps_throw keeps_undefined keeps_path keeps_get_string keeps_get_uint
  keeps_get_bool : guar.
#[export] Hint Extern 1 (guar (emit _)) => apply keeps_emit; exact I : guar.
#[export] Hint Extern 1 (guar (modify _)) => apply keeps_modify; intros ?; split; reflexivity : guar.

Ltac keeps_step :=
  first
  [ solve [auto with guar]
  | lazymatch goal with
    | |- guar (mbind _ _) => apply keeps_bind; [|intros ?]
    | |- guar (when _ _) => apply keeps_when
    | |- guar (attempt _) => apply keeps_attempt
    | |- guar (for_each _ _) => apply keeps_for_each; intros ?
    | |- guar (match ?x with _ => _ end) => destruct x
    end ].
Ltac keeps_steps := repeat keeps_step.

Section Methods.
Context {JS : Jsoncpp} {BO : Boost} {SE : Security} {MA : Message audit_message} {MB : Message bzn_msg}.
Context (iteration : list peer_address_t → list peer_address_t).
Abbreviation raftM := (M raft effect).
Abbreviation entries s := (log_entries (log s)).

Lemma keeps_last_quorum : guar last_quorum.
Proof. unfold last_quorum. keeps_steps. Qed.
Lemma keeps_peer_uuids ps : guar (peer_uuids ps).
Proof. induction ps; simpl; keeps_steps. Qed.
Lemma keeps_get_active_quorum : guar get_active_quorum.
Proof.
  pose proof keeps_last_quorum. pose proof keeps_peer_uuids. unfold get_active_quorum. keeps_steps.
Qed.
Lemma keeps_is_majority votes : guar (is_majority votes).
Proof. pose proof keeps_get_active_quorum. unfold is_majority. keeps_steps. Qed.
Lemma keeps_in_quorum u : guar (in_quorum u).
Proof. pose proof keeps_get_active_quorum. unfold in_quorum. keeps_steps. Qed.
Lemma keeps_insert_peers ps l : guar (insert_peers ps l).
Proof. revert l. induction ps; intros l; simpl; unfold peer_of_json; keeps_steps. Qed.
Lemma keeps_get_all_peers : guar (get_all_peers iteration).
Proof.
  pose proof keeps_last_quorum. pose proof keeps_insert_peers. unfold get_all_peers. keeps_steps.
Qed.
#[local] Hint Resolve keeps_last_quorum keeps_peer_uuids keeps_get_active_quorum keeps_is_majority keeps_in_quorum
  keeps_get_all_peers : guar.

Lemma keeps_get_leader_unsafe : guar (get_leader_unsafe iteration).
Proof. unfold get_leader_unsafe. keeps_steps. Qed.
Lemma keeps_start_election_timer : guar start_election_timer.
Proof. unfold start_election_timer. keeps_steps. Qed.
Lemma keeps_start_heartbeat_timer : guar start_heartbeat_timer.
Proof. unfold start_heartbeat_timer. keeps_steps. Qed.
Lemma keeps_update_raft_state t st : guar (update_raft_state t st).
Proof. unfold update_raft_state. keeps_steps. Qed.
Lemma keeps_send_to_all v : guar (send_to_all iteration v).
Proof. unfold send_to_all. keeps_steps. Qed.
Lemma keeps_notify_leader_status : guar (notify_leader_status iteration).
Proof. pose proof keeps_send_to_all. unfold notify_leader_status. keeps_steps. Qed.
Lemma keeps_notify_commit c o : guar (notify_commit iteration c o).
Proof. pose proof keeps_send_to_all. unfold notify_commit. keeps_steps. Qed.
Lemma keeps_match_index u : guar (match_index u).
Proof.
  unfold match_index. apply keeps_bind; [|intros; apply keeps_gets].
  apply keeps_modify. intros s. by destruct (peer_match_index s !! u).
Qed.
Lemma keeps_match_indices us : guar (match_indices us).
Proof. pose proof keeps_match_index. induction us; simpl; keeps_steps. Qed.
Lemma keeps_min_median qs r : guar (min_median qs r).
Proof. pose proof keeps_match_indices. revert r. induction qs; intros r; simpl; keeps_steps. Qed.
Lemma keeps_last_majority : guar last_majority_replicated_log_index.
Proof. pose proof keeps_min_median. unfold last_majority_replicated_log_index. keeps_steps. Qed.

#[local] Hint Resolve keeps_get_leader_unsafe keeps_start_election_timer keeps_start_heartbeat_timer
  keeps_update_raft_state keeps_notify_leader_status keeps_notify_commit keeps_match_index keeps_last_majority : guar.

Lemma keeps_request_append_entries : guar (request_append_entries iteration).
Proof. unfold request_append_entries, request_append_entry. keeps_steps. Qed.

(** *** Appending *)

Lemma leader_append_memory e l : log_entries (post (leader_append_entry e) l) = log_entries l ++ [e].
Proof. unfold leader_append_entry. rewrite post_bind. simpl. apply append_log_disk_memory. Qed.

Lemma keeps_append e : guar (log_call (leader_append_entry e)).
Proof.
  intros s Hlt. unfold log_call, post in *. cbn [fst snd log set_log commit_index] in *.
  fold (post (leader_append_entry e) (log s)) in *. rewrite leader_append_memory. split; [by eexists|].
  unfold inv, size. cbn [fst snd log set_log commit_index]. rewrite leader_append_memory, lengthN_app.
  intros Hi. split_and!; [lia|lia|]. unfold slice. by rewrite Nat.sub_diag.
Qed.

Lemma keeps_append_log_unsafe v t : guar (append_log_unsafe v t).
Proof. pose proof keeps_append. unfold append_log_unsafe. keeps_steps. Qed.

#[local] Hint Resolve keeps_request_append_entries keeps_append_log_unsafe : guar.

(** *** Committing *)

Lemma pure_bind {A B} (m : raftM A) (k : A → raftM B) :
  pure_method m → (∀ a, pure_method (k a)) → pure_method (m ≫= k).
Proof. intros Hm Hk. unfold pure_method. apply respects_bind; [apply _|done|done]. Qed.

Lemma pure_insert_peers ps l : pure_method (insert_peers ps l : raftM _).
Proof.
  revert l. induction ps as [|p ps IH]; intros l; simpl; [unfold pure_method; respects_steps|].
  apply pure_bind; [|intros a; apply IH].
  unfold peer_of_json, get_string, get_uint. repeat (apply pure_bind; [|intros ?]);
    first [apply pure_path|unfold pure_method; respects_steps].
Qed.

Lemma pure_get_all_peers : pure_method (get_all_peers iteration).
Proof.
  unfold get_all_peers, last_quorum. apply pure_bind; [unfold pure_method; respects_steps|]. intros e.
  destruct (decide _); repeat (apply pure_bind; [first [apply pure_path|apply pure_insert_peers]|intros ?]);
    unfold pure_method; respects_steps.
Qed.

Lemma pure_notify_commit c o : pure_method (notify_commit iteration c o).
Proof.
  unfold notify_commit, send_to_all. apply pure_bind; [unfold pure_method; respects_steps|]. intros a.
  destruct a; simpl; [|unfold pure_method; respects_steps].
  apply pure_bind; [apply pure_get_all_peers|]. intros ps. unfold pure_method. respects_steps.
Qed.

Lemma slice_one i e es : es !! N.to_nat i = Some e → slice i (i + 1) es = [e].
Proof.
  intros He. unfold slice. replace (N.to_nat (i + 1) - N.to_nat i) with 1 by lia.
  by rewrite (drop_S es e (N.to_nat i) He).
Qed.

Lemma lookup_size i (s : raft) e : entries s !! N.to_nat i = Some e → (i + 1 ≤ size (log s))%N.
Proof. intros H%lookup_lt_Some. unfold size, lengthN. lia. Qed.

(** The handler is called and the index advanced. *)
Lemma step_commit s e :
  ((size (log s) < 2 ^ 32)%N → entries s !! N.to_nat (commit_index s) = Some e) →
  step s (set_log (u32 (commit_index s + 1)) (log s) s) [Commit (entry_msg e)].
Proof.
  intros Hl Hlt. simpl in *. specialize (Hl Hlt). pose proof (lookup_size _ _ _ Hl). split; [done|].
  unfold inv. simpl. intros Hi. rewrite u32_small by lia. split_and!; [lia|lia|].
  by rewrite (slice_one _ e).
Qed.

Lemma keeps_perform_commit_at s e :
  ((size (log s) < 2 ^ 32)%N → entries s !! N.to_nat (commit_index s) = Some e) →
  step s (post (perform_commit iteration e) s) (out (perform_commit iteration e) s).
Proof.
  intros Hl. unfold perform_commit. apply keeps_bind_at; [apply keeps_gets|]. intros c [= <-]. rewrite post_gets.
  apply keeps_bind_at; [apply keeps_notify_commit|]. intros [] _. rewrite <-(pure_notify_commit _ _ s).
  apply keeps_bind_at; [apply keeps_gets|]. intros h [= <-]. rewrite post_gets.
  destruct (commit_handler s); [|by apply log_step_refl].
  rewrite post_bind, out_bind, res_emit, post_emit, out_emit, post_bind, out_bind, res_modify, post_modify, out_modify.
  eapply log_step_trans; [by apply step_commit|].
  enough (guar (s ← gets id;
    when (bool_decide (get_state s = raft_state.leader) && bool_decide (entry_type e = joint_quorum))
      (q ← create_single_quorum_from_joint_quorum (entry_msg e); append_log_unsafe q single_quorum;; mret tt))) as Hg
    by apply Hg.
  unfold create_single_quorum_from_joint_quorum. keeps_steps.
Qed.

Lemma entry_at_lookup i l e : entry_at i l = Ok e → log_entries l !! N.to_nat i = Some e.
Proof. unfold entry_at. destruct (_ !! _); congruence. Qed.

Lemma keeps_commit_until fuel bound : guar (commit_until iteration fuel bound).
Proof.
  induction fuel as [|fuel IH]; intros s; cbn [commit_until]; (apply keeps_bind_at; [apply keeps_gets|]);
    intros ? [= <-]; rewrite post_gets; cbn [id]; (destruct (_ <? _)%N; [|by apply log_step_refl]); [by apply log_step_refl|].
  apply keeps_bind_at; [apply keeps_lift|]. intros e He. rewrite res_lift in He. rewrite post_lift.
  apply keeps_bind_at; [|intros [] _; apply IH]. apply keeps_perform_commit_at. intros _. by apply entry_at_lookup.
Qed.

(** Nothing but the log and the index move forward. *)
Definition forward : relation raft := λ s s', commit_index s' = commit_index s ∧ (size (log s) ≤ size (log s'))%N.

#[local] Instance forward_preorder : PreOrder forward.
Proof. split; [by split|]. intros ??? [] []. split; [congruence|lia]. Qed.

Lemma forward_pure {A} (m : raftM A) : pure_method m → respects forward m.
Proof. intros Hm s. rewrite <-(Hm s). done. Qed.

Lemma forward_append_log_unsafe v t : respects forward (append_log_unsafe v t).
Proof.
  unfold append_log_unsafe. respects_steps. intros s. split; [done|].
  unfold log_call, post. cbn [fst snd log set_log]. fold (post (leader_append_entry (LogEntry t (u32 (size (log a))) (current_term a) v)) (log s)).
  unfold size. rewrite leader_append_memory, lengthN_app. lia.
Qed.

Lemma pure_create_single_quorum v : pure_method (create_single_quorum_from_joint_quorum v : raftM Value).
Proof. apply pure_bind; [apply pure_path|done]. Qed.

(** What [perform_commit] does after the index was advanced. *)
Definition finish_joint_quorum (e : log_entry) : raftM unit :=
  s ← gets id;
  when (bool_decide (get_state s = raft_state.leader) && bool_decide (entry_type e = joint_quorum))
    (q ← create_single_quorum_from_joint_quorum (entry_msg e); append_log_unsafe q single_quorum;; mret tt).

Lemma forward_finish_joint_quorum e : respects forward (finish_joint_quorum e).
Proof.
  apply (respects_bind forward); [apply respects_gets; apply _|]. intros a. apply respects_when; [apply _|]. intros _.
  apply respects_bind; [apply _|apply forward_pure, pure_create_single_quorum|]. intros q.
  apply respects_bind; [apply _|apply forward_append_log_unsafe|intros; apply respects_ret; apply _].
Qed.

Lemma perform_commit_index s e :
  res (perform_commit iteration e) s = Ok tt →
  commit_index (post (perform_commit iteration e) s) = u32 (commit_index s + 1) ∧
  (size (log s) ≤ size (log (post (perform_commit iteration e) s)))%N.
Proof.
  unfold perform_commit. rewrite res_bind, post_bind, res_gets, post_gets, res_bind, post_bind.
  rewrite <-(pure_notify_commit _ _ s). destruct (res (notify_commit _ _ _) s) as [[]| |]; [|done..].
  rewrite res_bind, post_bind, res_gets, post_gets. destruct (commit_handler s); [|done].
  rewrite post_bind, res_emit, post_emit, post_bind, res_modify, post_modify. intros _.
  exact (forward_finish_joint_quorum e (set_log (u32 (commit_index s + 1)) (log s) s)).
Qed.

Lemma keeps_commit_from_at fuel i leader_commit s :
  ((size (log s) < 2 ^ 32)%N → commit_index s = i) →
  step s (post (commit_from iteration fuel i leader_commit) s) (out (commit_from iteration fuel i leader_commit) s).
Proof.
  revert i s. induction fuel as [|fuel IH]; intros i s Hi; cbn [commit_from];
    (apply keeps_bind_at; [apply keeps_gets|]); intros ? [= <-]; rewrite post_gets; cbn [id];
    (destruct (_ <? _)%N; [|by apply log_step_refl]); [by apply log_step_refl|].
  apply keeps_bind_at; [apply keeps_lift|]. intros e He. rewrite res_lift in He. rewrite post_lift.
  apply entry_at_lookup in He. apply keeps_bind_at.
  - apply keeps_perform_commit_at. intros Hlt. by rewrite (Hi Hlt).
  - intros [] Hok. apply IH. intros Hlt. destruct (perform_commit_index _ _ Hok) as [-> Hle].
    pose proof (lookup_size _ _ _ He). rewrite Hi by lia. apply u32_small. lia.
Qed.

(** *** A follower accepts entries behind its last one only *)

Lemma keeps_follower_insert s prev_index prev_term e :
  (size (log s) < 2 ^ 32)%N → entry_accepted prev_index prev_term (log s) = Ok true →
  step s (post (log_call (follower_insert_entry (u32 (prev_index + 1)) e)) s)
         (out (log_call (follower_insert_entry (u32 (prev_index + 1)) e)) s).
Proof.
  intros Hlt. unfold entry_accepted. destruct (N.ltb_spec prev_index (sub64 (lengthN (entries s)) 1)) as [|Hge]; [done|].
  destruct (entries s !! N.to_nat prev_index) as [last|] eqn:Hlast; [|done]. intros _ _.
  apply lookup_lt_Some in Hlast. unfold size, lengthN in Hlt. rewrite sub64_small in Hge by (unfold lengthN; lia).
  assert (u32 (prev_index + 1) = lengthN (entries s)) as Hidx.
  { unfold lengthN in *. rewrite u32_small by lia. lia. }
  assert (log_entries (post (follower_insert_entry (u32 (prev_index + 1)) e) (log s)) = entries s ++ [e]) as Hpost.
  { rewrite Hidx. unfold follower_insert_entry. rewrite post_bind, res_gets, post_gets.
    rewrite (proj2 (lookup_ge_None (entries s) (N.to_nat (lengthN (entries s))))) by (unfold lengthN; lia).
    rewrite N.eqb_refl, post_bind, res_modify, post_modify. apply append_log_disk_memory. }
  unfold log_call, post, out. cbn [fst snd]. fold (post (follower_insert_entry (u32 (prev_index + 1)) e) (log s)).
  unfold inv, size. cbn [fst snd log set_log commit_index]. rewrite Hpost, lengthN_app. split; [by eexists|].
  intros Hi. split_and!; [lia|lia|]. unfold slice. by rewrite Nat.sub_diag.
Qed.

Lemma pure_get_uint ks v : pure_method (get_uint ks v : raftM N).
Proof. apply pure_bind; [apply pure_path|done]. Qed.
Lemma pure_get_string ks v : pure_method (get_string ks v : raftM string).
Proof. apply pure_bind; [apply pure_path|done]. Qed.

Lemma keeps_bind_pure {A B} (m : raftM A) (k : A → raftM B) s :
  pure_method m → guar m → (∀ a, res m s = Ok a → step s (post (k a) s) (out (k a) s)) →
  step s (post (m ≫= k) s) (out (m ≫= k) s).
Proof.
  intros Hp Hg Hk. apply keeps_bind_at; [apply Hg|]. intros a Ha. rewrite <-(Hp s). by apply Hk.
Qed.

(** A step from a state that has the log of another. *)
Lemma keeps_bind_modify {B} f (k : unit → raftM B) s :
  (∀ s, log (f s) = log s ∧ commit_index (f s) = commit_index s) →
  step (f s) (post (k tt) (f s)) (out (k tt) (f s)) →
  step s (post (modify f ≫= k) s) (out (modify f ≫= k) s).
Proof.
  intros Hf Hk. apply keeps_bind_at; [by apply keeps_modify|]. intros [] _. by rewrite post_modify.
Qed.

Lemma keeps_deduce_type v : guar (deduce_type_from_message v).
Proof. unfold deduce_type_from_message. keeps_steps. Qed.
Lemma pure_deduce_type v : pure_method (deduce_type_from_message v : raftM _).
Proof.
  unfold deduce_type_from_message. apply pure_bind; [apply pure_path|]. intros m. destruct (isString m); [done|].
  apply pure_bind; [apply pure_path|]. intros ps. destruct (isArray ps); [done|]. by apply pure_bind.
Qed.

(** The reply, the commits and the timer. *)
Lemma keeps_append_reply session msg msg_index accepted :
  guar (s ← gets id;
        let match_index := N.min (size (log s)) (msg_index + 1) in
        emit (SessionSend session
          (create_append_entries_response (uuid s) (current_term s) accepted (u32 match_index)) true);;
        leader_commit ← get_uint ["data"; "commitIndex"]%string msg;
        when (accepted && (commit_index s <? leader_commit)%N)
          (commit_from iteration (N.to_nat (N.min (size (log s)) leader_commit - commit_index s))
             (commit_index s) leader_commit);;
        modify (λ s, set_match (<[leader s := leader_commit]> (peer_match_index s)) s);;
        start_election_timer).
Proof.
  intros s. apply keeps_bind_pure; [done|apply keeps_gets|]. intros ? [= <-]. cbn [id].
  apply keeps_bind_pure; [done|auto with guar|]. intros [] _.
  apply keeps_bind_pure; [apply pure_get_uint|auto with guar|]. intros lc _.
  apply keeps_bind_at; [|intros [] _; set (s' := post _ s); revert s'; apply keeps_bind; auto with guar].
  destruct (accepted && _); [|by apply log_step_refl]. by apply keeps_commit_from_at.
Qed.

Lemma keeps_append_accepted s prev_index prev_term entry_term msg accepted :
  (size (log s) < 2 ^ 32)%N → entry_accepted prev_index prev_term (log s) = Ok accepted →
  let m := when accepted
      (entries ← path ["data"; "entries"]%string msg;
       when (negb (empty entries))
         (t ← deduce_type_from_message entries;
          log_call (follower_insert_entry (u32 (prev_index + 1)) (LogEntry t (u32 (prev_index + 1)) entry_term entries)))) in
  step s (post m s) (out m s).
Proof.
  intros Hlt Ha. cbn zeta. destruct accepted; [|by apply log_step_refl].
  apply keeps_bind_pure; [apply pure_path|auto with guar|]. intros es _.
  destruct (negb (empty es)); [|by apply log_step_refl].
  apply keeps_bind_pure; [apply pure_deduce_type|apply keeps_deduce_type|]. intros t _.
  by eapply keeps_follower_insert.
Qed.

Lemma keeps_handle_ws_append_entries_at msg session s :
  (size (log s) < 2 ^ 32)%N →
  step s (post (handle_ws_append_entries iteration msg session) s) (out (handle_ws_append_entries iteration msg session) s).
Proof.
  intros Hlt. unfold handle_ws_append_entries.
  apply keeps_bind_pure; [apply pure_get_uint|auto with guar|]. intros t _.
  apply keeps_bind_pure; [done|apply keeps_gets|]. intros ? [= <-]. cbn [id].
  set (swarm := if in_a_swarm s then _ else _).
  assert (guar swarm) as Hswarm by (unfold swarm; keeps_steps).
  assert (log (post swarm s) = log s) as Hlog.
  { unfold swarm. destruct (in_a_swarm s); [done|]. rewrite post_bind, <-(pure_get_string _ _ s).
    destruct (res (get_string _ _) s) as [from| |]; [|done..]. by destruct (negb _). }
  apply keeps_bind_at; [apply Hswarm|]. intros [] _. set (s1 := post swarm s) in *. rewrite <-Hlog in Hlt |- *.
  clearbody s1. clear Hswarm swarm.
  destruct (_ && _); [revert s1 Hlog Hlt; intros s1 _ _; apply (keeps_bind (update_raft_state t follower)); [|intros _]; keeps_steps|].
  apply keeps_bind_pure; [apply pure_get_string|auto with guar|]. intros from _.
  apply keeps_bind_modify; [done|]. set (s2 := set_leader from s1). change (log s1) with (log s2) in Hlt |- *.
  clearbody s2. clear Hlog.
  do 3 (apply keeps_bind_pure; [apply pure_get_uint|auto with guar|]; intros ? _).
  apply keeps_bind_pure; [done|apply keeps_lift|]. intros accepted Ha. rewrite res_lift in Ha.
  apply keeps_bind_at; [by eapply keeps_append_accepted|]. intros [] _. apply keeps_append_reply.
Qed.

(** *** The other handlers *)

Lemma keeps_has_peer ps u : guar (has_peer ps u).
Proof. induction ps; simpl; keeps_steps. Qed.
Lemma keeps_other_peers ps u : guar (other_peers ps u).
Proof. induction ps; simpl; keeps_steps. Qed.
Lemma keeps_shutdown b : guar (shutdown_on_exceeded_max_storage b).
Proof. unfold shutdown_on_exceeded_max_storage. keeps_steps. Qed.
Lemma keeps_request_vote_request : guar (request_vote_request iteration).
Proof. unfold request_vote_request. keeps_steps. Qed.
Lemma keeps_auto_add_peer pick : guar (auto_add_peer_if_required iteration pick).
Proof. unfold auto_add_peer_if_required. keeps_steps. Qed.
Lemma keeps_add_self : guar (add_self_to_swarm iteration).
Proof. unfold add_self_to_swarm. keeps_steps. Qed.
Lemma keeps_send_error session e : guar (send_session_error_message session e).
Proof. unfold send_session_error_message. keeps_steps. Qed.
Lemma keeps_send_success session c m : guar (send_success_message session c m).
Proof. unfold send_success_message. keeps_steps. Qed.

#[local] Hint Resolve keeps_has_peer keeps_other_peers keeps_shutdown keeps_request_vote_request keeps_auto_add_peer
  keeps_add_self keeps_send_error keeps_send_success keeps_commit_until : guar.

Lemma keeps_validate session p : guar (validate_new_peer session p).
Proof. unfold validate_new_peer. keeps_steps. Qed.
Lemma keeps_handle_add_peer session p : guar (handle_add_peer session p).
Proof.
  pose proof keeps_validate. unfold handle_add_peer, create_joint_quorum_by_adding_peer. keeps_steps.
Qed.
Lemma keeps_handle_remove_peer session u : guar (handle_remove_peer session u).
Proof. unfold handle_remove_peer, create_joint_quorum_by_removing_peer. keeps_steps. Qed.
Lemma keeps_handle_get_peers session : guar (handle_get_peers iteration session).
Proof. unfold handle_get_peers. keeps_steps. Qed.
Lemma keeps_handle_get_peers_response pick msg : guar (handle_get_peers_response iteration pick msg).
Proof.
  unfold handle_get_peers_response, handle_get_peers_response_from_follower_or_candidate,
    handle_get_peers_response_from_leader. keeps_steps.
Qed.
Lemma keeps_handle_append_response msg : guar (handle_request_append_entries_response iteration msg).
Proof. unfold handle_request_append_entries_response. keeps_steps. Qed.
Lemma keeps_handle_vote_response msg : guar (handle_request_vote_response iteration msg).
Proof. unfold handle_request_vote_response. keeps_steps. Qed.
Lemma keeps_handle_request_vote msg session : guar (handle_ws_request_vote msg session).
Proof. unfold handle_ws_request_vote. keeps_steps. Qed.
Lemma keeps_handle_later_term cmd t msg session : guar (handle_later_term cmd t msg session).
Proof. unfold handle_later_term. keeps_steps. Qed.
Lemma keeps_handle_earlier_term t : guar (handle_earlier_term t).
Proof. unfold handle_earlier_term. keeps_steps. Qed.

Lemma pure_peer_uuids ps : pure_method (peer_uuids ps : raftM _).
Proof.
  induction ps as [|p ps IH]; simpl; [done|]. apply pure_bind; [apply pure_get_string|]. intros u. by apply pure_bind.
Qed.
Lemma pure_get_active_quorum : pure_method (get_active_quorum : raftM _).
Proof.
  unfold get_active_quorum, last_quorum. apply pure_bind; [by apply pure_bind|]. intros e.
  destruct (entry_type e); try done;
    repeat (apply pure_bind; [first [apply pure_path|apply pure_peer_uuids]|intros ?]); done.
Qed.
Lemma pure_in_quorum u : pure_method (in_quorum u : raftM _).
Proof. apply pure_bind; [apply pure_get_active_quorum|done]. Qed.
Lemma pure_shutdown : pure_method (shutdown_on_exceeded_max_storage false).
Proof. apply pure_bind; [done|]. by intros []. Qed.

Lemma keeps_handle_ws_raft_messages_at pick msg session s :
  (size (log s) < 2 ^ 32)%N →
  step s (post (handle_ws_raft_messages iteration pick msg session) s)
         (out (handle_ws_raft_messages iteration pick msg session) s).
Proof.
  intros Hlt. pose proof keeps_handle_add_peer. pose proof keeps_handle_remove_peer. pose proof keeps_handle_get_peers.
  pose proof keeps_handle_get_peers_response.
  unfold handle_ws_raft_messages. apply keeps_bind_pure; [apply pure_shutdown|apply keeps_shutdown|]. intros [] _.
  apply keeps_bind_pure; [apply pure_get_string|auto with guar|]. intros cmd _.
  case_bool_decide; [enough (guar (handle_add_peer_message msg session)) as Hg by apply Hg; unfold handle_add_peer_message; keeps_steps|].
  case_bool_decide; [enough (guar (handle_remove_peer_message msg session)) as Hg by apply Hg; unfold handle_remove_peer_message; keeps_steps|].
  case_bool_decide; [apply keeps_handle_get_peers|]. case_bool_decide; [apply keeps_handle_get_peers_response|].
  apply keeps_bind_pure; [apply pure_get_string|auto with guar|]. intros from _.
  apply keeps_bind_pure; [apply pure_in_quorum|auto with guar|]. intros [] _; [|by apply log_step_refl]. cbn [negb].
  apply keeps_bind_pure; [apply pure_get_uint|auto with guar|]. intros t _.
  apply keeps_bind_pure; [done|apply keeps_gets|]. intros ct _.
  destruct (_ =? _)%N; [|destruct (_ <? _)%N; [apply keeps_handle_later_term|apply keeps_handle_earlier_term]].
  unfold handle_current_term. case_bool_decide; [apply keeps_handle_request_vote|].
  case_bool_decide; [by apply keeps_handle_ws_append_entries_at|].
  case_bool_decide; [apply keeps_bind; [apply keeps_handle_append_response|auto with guar]|].
  case_bool_decide; [apply keeps_bind; [apply keeps_handle_vote_response|auto with guar]|by apply log_step_refl].
Qed.

(** *** Runs *)

Inductive event :=
| Receive (pick : N) (msg : Value) (session : session_id)
| ElectionTimeout (pick : N) (ec : bool)
| HeartbeatTimeout (ec : bool)
| AppendLog (msg : Value) (type : log_entry_type)
| Start
| RegisterCommitHandler
| SetAuditEnabled (val : bool).

Definition handle_event (e : event) : raftM unit :=
  match e with
  | Receive pick msg session => handle_ws_raft_messages iteration pick msg session
  | ElectionTimeout pick ec => handle_election_timeout iteration pick ec
  | HeartbeatTimeout ec => handle_heartbeat_timeout iteration ec
  | AppendLog msg type => append_log msg type;; mret tt
  | Start => start
  | RegisterCommitHandler => register_commit_handler
  | SetAuditEnabled val => set_audit_enabled val
  end.

(** The state and the calls after the events; a handler that throws ends there. *)
Fixpoint run (evs : list event) (s : raft) : raft * list effect :=
  match evs with
  | [] => (s, [])
  | e :: evs => let r := run evs (post (handle_event e) s) in (r.1, out (handle_event e) s ++ r.2)
  end.

(** No handler runs into undefined behaviour, and the log stays below [2 ^ 32]
    entries. *)
Fixpoint regular (evs : list event) (s : raft) : Prop :=
  (size (log s) < 2 ^ 32)%N ∧
  match evs with
  | [] => True
  | e :: evs => res (handle_event e) s ≠ Undefined ∧ regular evs (post (handle_event e) s)
  end.

Lemma keeps_handle_event_at e s :
  (size (log s) < 2 ^ 32)%N → step s (post (handle_event e) s) (out (handle_event e) s).
Proof.
  intros Hlt. destruct e; simpl; [by apply keeps_handle_ws_raft_messages_at|..];
    match goal with |- step _ (post ?m _) _ => enough (guar m) as Hg by apply Hg end.
  - unfold handle_election_timeout. keeps_steps.
  - unfold handle_heartbeat_timeout. keeps_steps.
  - unfold append_log. keeps_steps.
  - unfold start. keeps_steps.
  - unfold register_commit_handler. keeps_steps.
  - unfold set_audit_enabled. keeps_steps.
Qed.

Lemma run_step evs s : regular evs s → step s (run evs s).1 (run evs s).2 ∧ (size (log (run evs s).1) < 2 ^ 32)%N.
Proof.
  revert s. induction evs as [|e evs IH]; intros s; simpl; [intros [Hs _]; split; [by apply log_step_refl|done]|].
  intros (Hs & _ & Hevs). destruct (IH _ Hevs) as [Hstep ?]. split; [|done].
  eapply log_step_trans; [by apply keeps_handle_event_at|done].
Qed.

Lemma new_log_nonempty mx d l : raft_log.new mx d = Ok l → log_entries l ≠ [].
Proof. unfold raft_log.new. destruct (file d); [|done]. destruct (read_entries _ _) as [[]| |]; naive_solver. Qed.

Lemma raft_new_inv peers u mx v key env d s : new peers u mx v key env d = Ok s → inv s ∧ commit_index s = 1%N.
Proof.
  unfold new. destruct peers as [|p ps]; [done|]. intros H.
  destruct (match file d with Some _ => _ | None => _ end) as [d'| |]; [|done..].
  destruct (raft_log.new mx d') as [l| |] eqn:Hl; [|done..]. apply new_log_nonempty in Hl.
  destruct (res _ _); [|done..]. injection H as <-. split; [|done].
  unfold inv, size, lengthN. simpl. destruct (log_entries l); [done|]. simpl. lia.
Qed.

End Methods.
(** ** Majorities *)

Section Majorities.
Context {JS : Jsoncpp} {BO : Boost} {SE : Security} {MA : Message audit_message} {MB : Message bzn_msg}.
Context (iteration : list peer_address_t → list peer_address_t).
Abbreviation raftM := (M raft effect).

#[local] Instance N_le_total : Total N.le.
Proof. intros x y. lia. Qed.

Lemma length_filter_all {A} (P : A → Prop) `{∀ x, Decision (P x)} l : Forall P l → length (filter P l) = length l.
Proof. induction 1; [done|]. rewrite filter_cons_True by done. simpl. lia. Qed.

Lemma sorted_above (l : list N) i m :
  StronglySorted N.le l → l !! i = Some m → length l - i ≤ length (filter (λ x, (m ≤ x)%N) l).
Proof.
  intros Hs. revert i. induction Hs as [|x l Hs IH Hx]; intros i; [done|]. destruct i as [|i]; simpl.
  - intros [= ->]. rewrite filter_cons_True by lia. simpl. by rewrite length_filter_all.
  - intros Hi. specialize (IH _ Hi). rewrite filter_cons. case_decide; simpl; lia.
Qed.

(** At least half of the indices, rounded down, are not below the median. *)
Lemma median_above l m : median l = Some m → Nat.div2 (length l) ≤ length (filter (λ x, (m ≤ x)%N) l).
Proof.
  unfold median. intros Hm. pose proof (merge_sort_Permutation N.le l) as Hp.
  apply sorted_above in Hm; [|apply StronglySorted_merge_sort; apply _].
  rewrite (filter_Permutation _ _ _ Hp) in Hm. rewrite (Permutation_length Hp) in Hm.
  rewrite !Nat.div2_div in *. pose proof (Nat.div_mod (length l + 1) 2 ltac:(done)).
  pose proof (Nat.div_mod (length l) 2 ltac:(done)). pose proof (Nat.mod_upper_bound (length l) 2 ltac:(done)).
  pose proof (Nat.mod_upper_bound (length l + 1) 2 ltac:(done)). lia.
Qed.

(** [peer_match_index[u]] as a reader sees it. *)
Definition matched (s : raft) (u : uuid_t) : N := default 0%N (peer_match_index s !! u).

(** Reading an index may add an entry, which no reader notices. *)
Definition same_matched (s s' : raft) : Prop :=
  log s' = log s ∧ commit_index s' = commit_index s ∧ uuid s' = uuid s ∧ current_state s' = current_state s ∧
  ∀ u, matched s' u = matched s u.

#[local] Instance same_matched_preorder : PreOrder same_matched.
Proof.
  split; [by intros s|]. intros s1 s2 s3 (H1 & H2 & H3 & H4 & H5) (H6 & H7 & H8 & H9 & H10).
  split_and!; try congruence. all: intros; by rewrite H10.
Qed.

Lemma match_index_run u s :
  res (match_index u) s = Ok (matched s u) ∧ same_matched s (post (match_index u) s).
Proof.
  unfold match_index. rewrite res_bind, post_bind, res_modify, post_modify, res_gets, post_gets.
  unfold matched. destruct (peer_match_index s !! u) as [n|] eqn:E; [by rewrite E|].
  simpl. rewrite lookup_insert_eq. split; [done|]. split_and!; [done..|]. intros u'. unfold matched. simpl.
  destruct (decide (u = u')) as [<-|]; [by rewrite lookup_insert_eq, E|by rewrite lookup_insert_ne].
Qed.

Lemma match_indices_run us s :
  res (match_indices us) s = Ok (matched s <$> us) ∧ same_matched s (post (match_indices us) s).
Proof.
  revert s. induction us as [|u us IH]; intros s; [done|]. cbn [match_indices].
  destruct (match_index_run u s) as [Hr Hs]. rewrite res_bind, post_bind, Hr.
  destruct (IH (post (match_index u) s)) as [Hr' Hs']. rewrite res_bind, post_bind, Hr', res_ret, post_ret. split; [|by etrans].
  rewrite fmap_cons. do 2 f_equal. apply list_fmap_ext. intros _ x _. apply Hs.
Qed.

Lemma min_median_run qs r s v :
  res (min_median qs r) s = Ok v →
  same_matched s (post (min_median qs r) s) ∧ (v ≤ r)%N ∧
  ∀ q, q ∈ qs → ∃ m, median (matched s <$> base.elements q) = Some m ∧ (v ≤ m)%N.
Proof.
  revert r s. induction qs as [|q qs IH]; intros r s; cbn [min_median].
  { intros [= <-]. split_and!; [done|done|]. intros q ?%not_elem_of_nil. done. }
  destruct (match_indices_run (base.elements q) s) as [Hr Hs]. rewrite res_bind, post_bind, Hr.
  destruct (median _) as [m|] eqn:Hm; [|done]. intros Hv. destruct (IH _ _ Hv) as (Hs' & Hle & Hall).
  split_and!; [by etrans|lia|]. intros q' [->|Hin]%elem_of_cons; [exists m; split; [done|lia]|].
  destruct (Hall _ Hin) as (m' & Hm' & ?). exists m'. split; [|done]. rewrite <-Hm'. f_equal.
  apply list_fmap_ext. intros _ x _. symmetry. apply Hs.
Qed.

Lemma size_filter_elements (P : uuid_t → Prop) `{∀ x, Decision (P x)} (q : gset uuid_t) :
  base.size (filter P q) = length (filter P (base.elements q)).
Proof.
  unfold base.size, set_size. simpl. apply Permutation_length, NoDup_Permutation.
  - apply NoDup_elements.
  - apply list.NoDup_filter, NoDup_elements.
  - intros x. rewrite elem_of_elements, elem_of_filter, list_elem_of_filter, elem_of_elements. done.
Qed.

Lemma length_filter_fmap (f : uuid_t → N) (P : N → Prop) `{∀ x, Decision (P x)} (l : list uuid_t) :
  length (filter P (f <$> l)) = length (filter (λ u, P (f u)) l).
Proof.
  induction l as [|u l IH]; [done|]. rewrite fmap_cons, !filter_cons.
  destruct (decide (P (f u))); simpl; by rewrite IH.
Qed.

(** The leader, whose own index is low, and the half above the median. *)
Lemma majority_above (f : uuid_t → N) (q : gset uuid_t) self m v :
  self ∈ q → median (f <$> base.elements q) = Some m → (v ≤ m)%N → (f self < v)%N →
  base.size q < 2 * base.size (filter (λ u, u = self ∨ (v ≤ f u)%N) q).
Proof.
  intros Hself Hm Hv Hlow. pose proof (median_above _ _ Hm) as Ha.
  rewrite length_fmap, length_filter_fmap, <-size_filter_elements in Ha.
  assert ({[ self ]} ∪ filter (λ u, (m ≤ f u)%N) q ⊆ filter (λ u, u = self ∨ (v ≤ f u)%N) q) as Hsub.
  { intros u [->%elem_of_singleton|[? ?]%elem_of_filter]%elem_of_union; apply elem_of_filter; [auto|].
    split; [right; lia|done]. }
  apply subseteq_size in Hsub. rewrite size_union, size_singleton in Hsub.
  - assert (base.size q = length (base.elements q)) as Hq by done. rewrite Nat.div2_div in Ha.
    pose proof (Nat.div_mod (length (base.elements q)) 2 ltac:(done)).
    pose proof (Nat.mod_upper_bound (length (base.elements q)) 2 ltac:(done)). lia.
  - apply disjoint_singleton_l. intros [? ?]%elem_of_filter. lia.
Qed.

(** A commit moves the index by one and nothing else that the leader counts. *)
Definition bumps : relation raft := λ s s',
  peer_match_index s' = peer_match_index s ∧ uuid s' = uuid s ∧ (commit_index s' ≤ commit_index s + 1)%N.
Definition same_counts : relation raft := λ s s',
  peer_match_index s' = peer_match_index s ∧ uuid s' = uuid s ∧ commit_index s' = commit_index s.

#[local] Instance same_counts_preorder : PreOrder same_counts.
Proof. split; [done|]. intros ??? (?&?&?) (?&?&?). split_and!; congruence. Qed.

Lemma same_counts_finish e : respects same_counts (finish_joint_quorum e).
Proof.
  apply (respects_bind same_counts); [apply respects_gets; apply _|]. intros a. apply respects_when; [apply _|]. intros _.
  unfold append_log_unsafe. apply respects_bind; [apply _| |].
  - intros s. by rewrite <-(pure_create_single_quorum _ s).
  - intros q. respects_steps. done.
Qed.

Lemma perform_commit_bumps e : respects bumps (perform_commit iteration e).
Proof.
  intros s. unfold perform_commit. rewrite post_bind, res_gets, post_gets, post_bind, <-(pure_notify_commit _ _ _ s).
  assert (bumps s s) as Hrefl by (split_and!; [done|done|lia]).
  destruct (res (notify_commit _ _ _) s) as [[]| |]; [|done..].
  rewrite post_bind, res_gets, post_gets. destruct (commit_handler s); [|done].
  rewrite post_bind, res_emit, post_emit, post_bind, res_modify, post_modify.
  destruct (same_counts_finish e (set_log (u32 (commit_index s + 1)) (log s) s)) as (Hp & Hu & Hc).
  unfold finish_joint_quorum in *. split_and!; [done|done|]. rewrite Hc. simpl. unfold u32. apply N.Div0.mod_le.
Qed.

Lemma commit_until_bound fuel bound s :
  peer_match_index (post (commit_until iteration fuel bound) s) = peer_match_index s ∧
  uuid (post (commit_until iteration fuel bound) s) = uuid s ∧
  (commit_index (post (commit_until iteration fuel bound) s) ≤ N.max (commit_index s) bound)%N.
Proof.
  revert s. induction fuel as [|fuel IH]; intros s; cbn [commit_until]; rewrite post_bind, res_gets, post_gets; cbn [id];
    (destruct (N.ltb_spec (commit_index s) bound); [|split_and!; [done|done|apply N.le_max_l]]); [split_and!; [done|done|apply N.le_max_l]|].
  rewrite post_bind, res_lift, post_lift. destruct (entry_at _ _) as [e| |]; [|split_and!; [done|done|apply N.le_max_l]..].
  destruct (perform_commit_bumps e s) as (Hp & Hu & Hc). rewrite post_bind.
  destruct (res _ _) as [[]| |]; [|split_and!; [done|done|lia]..].
  destruct (IH (post (perform_commit iteration e) s)) as (-> & -> & ?). split_and!; [done|done|lia].
Qed.

(** The quorum is read from the log. *)
Definition reads_log {A} (m : raftM A) : Prop := ∀ s s', log s' = log s → res m s' = res m s.

Lemma reads_log_bind {A B} (m : raftM A) (k : A → raftM B) :
  pure_method m → reads_log m → (∀ a, reads_log (k a)) → reads_log (m ≫= k).
Proof.
  intros Hp Hm Hk s s' Hl. rewrite !res_bind, <-(Hp s), <-(Hp s'), (Hm s s' Hl).
  destruct (res m s); [by apply Hk|done..].
Qed.
Lemma reads_log_path ks v : reads_log (path ks v).
Proof.
  revert v. induction ks as [|k ks IH]; intros v; simpl; [by intros ???|].
  apply reads_log_bind; [done|by intros ???|done].
Qed.
Lemma reads_log_peer_uuids ps : reads_log (peer_uuids ps).
Proof.
  induction ps as [|p ps IH]; simpl; [by intros ???|]. unfold get_string.
  apply reads_log_bind; [apply pure_get_string| |].
  - apply reads_log_bind; [apply pure_path|apply reads_log_path|by intros ????].
  - intros u. apply reads_log_bind; [apply pure_peer_uuids|done|by intros ????].
Qed.
Lemma reads_log_get_active_quorum : reads_log get_active_quorum.
Proof.
  unfold get_active_quorum, last_quorum. apply reads_log_bind; [by apply pure_bind| |].
  - intros s s' Hl. rewrite !res_bind, !res_gets, !post_gets. by rewrite Hl.
  - intros e. destruct (entry_type e); try by intros ???.
    all: repeat (apply reads_log_bind; [first [apply pure_path|apply pure_peer_uuids]
                                       |first [apply reads_log_path|apply reads_log_peer_uuids]|intros ?]);
      by intros ???.
Qed.

Lemma last_majority_run s v :
  res last_majority_replicated_log_index s = Ok v →
  same_matched s (post last_majority_replicated_log_index s) ∧
  ∃ qs, res get_active_quorum s = Ok qs ∧
        ∀ q, q ∈ qs → ∃ m, median (matched s <$> base.elements q) = Some m ∧ (v ≤ m)%N.
Proof.
  unfold last_majority_replicated_log_index. rewrite res_bind, post_bind, <-(pure_get_active_quorum s).
  destruct (res get_active_quorum s) as [qs| |]; [|done..]. intros Hv.
  destruct (min_median_run _ _ _ _ Hv) as (Hs & _ & Hall). eauto.
Qed.

Lemma same_matched_last_majority : respects same_matched last_majority_replicated_log_index.
Proof.
  unfold last_majority_replicated_log_index. apply respects_bind; [apply _| |].
  - intros s. by rewrite <-(pure_get_active_quorum s).
  - intros qs. generalize (2 ^ 32 - 1)%N. induction qs as [|q qs IH]; intros r; cbn [min_median]; [by apply respects_ret; apply _|].
    apply respects_bind; [apply _|intros s; apply match_indices_run|]. intros l.
    destruct (median l); [apply IH|apply respects_undefined; apply _].
Qed.

(** What the leader does with a reply of [from]: the index is noted, and if the
    majority has more, entries are committed up to there. *)
Lemma append_response_cases msg s :
  let s' := post (handle_request_append_entries_response iteration msg) s in
  commit_index s' = commit_index s ∨
  ∃ from m v, res (get_string ["data"; "from"]%string msg) s = Ok from ∧
    let s1 := set_match (<[from := m]> (peer_match_index s)) s in
    res last_majority_replicated_log_index s1 = Ok v ∧
    ∃ fuel, s' = post (commit_until iteration fuel v) (post last_majority_replicated_log_index s1).
Proof.
  cbn zeta. unfold handle_request_append_entries_response.
  rewrite post_bind, res_gets, post_gets. cbn [id]. destruct (negb _); [by left|].
  rewrite post_bind, <-(pure_get_uint _ _ s). destruct (res (get_uint _ _) s) as [m| |] eqn:Hm; [|by left..].
  rewrite post_bind.
  set (t := if (size (log s) <? m)%N then _ else _).
  assert (post t s = s) as -> by (unfold t; destruct (_ <? _)%N; [done|by rewrite <-(pure_get_uint _ _ s)]).
  clearbody t. destruct (res t s) as [tm| |]; [|by left..]. destruct (_ || _); [by left|].
  rewrite post_bind, <-(pure_get_string _ _ s). destruct (res (get_string _ _) s) as [from| |] eqn:Hfrom; [|by left..].
  rewrite post_bind, <-(pure_get_uint _ _ s), Hm, post_bind, res_modify, post_modify.
  set (s1 := set_match _ s). rewrite post_bind.
  assert (post (get_bool ["data"; "success"]%string msg) s1 = s1) as ->
    by (symmetry; apply pure_bind; [apply pure_path|done]).
  destruct (res (get_bool _ _) s1) as [[]| |]; [|by left..]. cbn [negb]. rewrite post_bind.
  destruct (same_matched_last_majority s1) as (_ & Hc & _).
  destruct (res last_majority_replicated_log_index s1) as [v| |] eqn:Hv; [|left; exact Hc..].
  rewrite post_bind, res_gets, post_gets. cbn [id]. set (s2 := post last_majority_replicated_log_index s1) in *.
  destruct (_ <? _)%N; [left; exact Hc|]. right. exists from, m, v. split_and!; [done|done|]. by eexists.
Qed.

(** Entries are committed for a majority of every quorum the leader is in. *)
Lemma commit_majority msg s qs :
  (1 ≤ commit_index s)%N → res get_active_quorum s = Ok qs → (matched s (uuid s) ≤ 1)%N →
  res (get_string ["data"; "from"]%string msg) s ≠ Ok (uuid s) →
  let s' := post (handle_request_append_entries_response iteration msg) s in
  (commit_index s < commit_index s')%N →
  ∀ q, q ∈ qs → uuid s ∈ q →
  base.size q < 2 * base.size (filter (λ u, u = uuid s ∨ (commit_index s' ≤ matched s' u)%N) q).
Proof.
  intros H1 Hqs Hself Hfrom s' Hlt q Hq Hin. unfold s' in *. clear s'.
  destruct (append_response_cases msg s) as [Heq|(from & m & v & Hf & Hv & fuel & Hpost)]; [lia|].
  rewrite Hpost in *. set (s1 := set_match _ s) in *. set (s2 := post last_majority_replicated_log_index s1) in *.
  destruct (last_majority_run _ _ Hv) as [(_ & Hc2 & Hu2 & _ & Hm2) (qs' & Hqs' & Hall)]. fold s2 in Hc2, Hu2, Hm2.
  destruct (commit_until_bound fuel v s2) as (Hp3 & Hu3 & Hc3). set (s3 := post (commit_until _ _ _) s2) in *.
  assert (qs' = qs) as ->.
  { rewrite (reads_log_get_active_quorum s s1) in Hqs' by done. congruence. }
  destruct (Hall q Hq) as (md & Hmd & Hle).
  assert (commit_index s3 ≤ v)%N as Hcv by (simpl in Hc2; lia).
  assert (∀ u, matched s3 u = matched s1 u) as Hm3 by (intros u; unfold matched at 1; rewrite Hp3; apply Hm2).
  assert (filter (λ u, u = uuid s ∨ (commit_index s3 ≤ matched s3 u)%N) q
          = filter (λ u, u = uuid s ∨ (commit_index s3 ≤ matched s1 u)%N) q) as ->.
  { apply set_eq. intros u. by rewrite !elem_of_filter, Hm3. }
  eapply majority_above; [done|done|lia|].
  unfold matched, s1. simpl. rewrite lookup_insert_ne by congruence. unfold matched in Hself. lia.
Qed.
End Majorities.
(** ** Elections *)

Create HintDb pure.
Create HintDb method.
#[export] Hint Resolve pure_path pure_get_string pure_get_uint pure_get_all_peers pure_get_active_quorum pure_in_quorum
  pure_deduce_type pure_create_single_quorum pure_peer_uuids pure_insert_peers : pure.

Section Elections.
Context {JS : Jsoncpp} {BO : Boost} {SE : Security} {MA : Message audit_message} {MB : Message bzn_msg}.
Context (iteration : list peer_address_t → list peer_address_t).
Abbreviation raftM := (M raft effect).

Lemma respects_pure {A} (R : relation raft) `{!Reflexive R} (m : raftM A) : pure_method m → respects R m.
Proof. intros Hm s. rewrite <-(Hm s). done. Qed.

Lemma pure_get_bool ks v : pure_method (get_bool ks v : raftM bool).
Proof. apply pure_bind; [apply pure_path|done]. Qed.
Lemma pure_is_majority votes : pure_method (is_majority votes : raftM bool).
Proof. apply pure_bind; [apply pure_get_active_quorum|done]. Qed.
Lemma pure_start_election_timer : pure_method (start_election_timer : raftM unit).
Proof. unfold start_election_timer, pure_method. respects_steps. Qed.
Lemma pure_last_quorum : pure_method (last_quorum : raftM _).
Proof. by apply pure_bind. Qed.
Lemma pure_get_leader_unsafe : pure_method (get_leader_unsafe iteration).
Proof. apply pure_bind; [apply pure_get_all_peers|]. intros ps. by apply pure_bind. Qed.
Lemma pure_has_peer ps u : pure_method (has_peer ps u : raftM bool).
Proof. induction ps; cbn [has_peer]; [done|]. apply pure_bind; [apply pure_get_string|]. intros x. by destruct (decide _). Qed.
Lemma pure_other_peers ps u : pure_method (other_peers ps u : raftM _).
Proof. induction ps; cbn [other_peers]; [done|]. apply pure_bind; [apply pure_path|]. intros x. by apply pure_bind. Qed.
Lemma respects_attempt (R : relation raft) (m : raftM unit) : respects R m → respects R (attempt m).
Proof. intros Hm s. specialize (Hm s). unfold attempt, post in *. by destruct (m s) as [[[]?]?]. Qed.
Lemma respects_log_call {A} (R : relation raft) (m : M raft_log unit A) :
  (∀ s l, R s (set_log (commit_index s) l s)) → respects R (log_call m).
Proof. intros H s. apply H. Qed.
End Elections.

(** *** Queries *)

Section Queries.
Context {JS : Jsoncpp} {BO : Boost} {SE : Security} {MA : Message audit_message} {MB : Message bzn_msg}.
Context (iteration : list peer_address_t → list peer_address_t).
Abbreviation raftM := (M raft effect).

Lemma query_path ks v : query (path ks v : raftM Value).
Proof. revert v. induction ks as [|k ks IH]; intros v; cbn [path]; auto with query. Qed.
Lemma query_get_string ks v : query (get_string ks v : raftM string).
Proof. apply query_bind; [apply query_path|auto with query]. Qed.
Lemma query_get_uint ks v : query (get_uint ks v : raftM N).
Proof. apply query_bind; [apply query_path|auto with query]. Qed.
Lemma query_get_bool ks v : query (get_bool ks v : raftM bool).
Proof. apply query_bind; [apply query_path|auto with query]. Qed.
Lemma query_peer_uuids ps : query (peer_uuids ps : raftM _).
Proof. induction ps; cbn [peer_uuids]; [auto with query|]. apply query_bind; [apply query_get_string|auto with query]. Qed.
Lemma query_last_quorum : query (last_quorum : raftM _).
Proof. unfold last_quorum. auto with query. Qed.
#[local] Hint Resolve query_path query_get_string query_get_uint query_get_bool query_peer_uuids query_last_quorum : query.
Lemma query_get_active_quorum : query (get_active_quorum : raftM _).
Proof. unfold get_active_quorum. apply query_bind; [auto with query|]. intros e. destruct (entry_type e); auto 7 with query. Qed.
#[local] Hint Resolve query_get_active_quorum : query.
Lemma query_in_quorum u : query (in_quorum u : raftM _).
Proof. unfold in_quorum. auto with query. Qed.
Lemma query_is_majority vs : query (is_majority vs : raftM _).
Proof. unfold is_majority. auto with query. Qed.
Lemma query_insert_peers ps l : query (insert_peers ps l : raftM _).
Proof.
  revert l. induction ps as [|p ps IH]; intros l; cbn [insert_peers]; [auto with query|].
  apply query_bind; [unfold peer_of_json; auto 9 with query|done].
Qed.
#[local] Hint Resolve query_in_quorum query_is_majority query_insert_peers : query.
Lemma query_get_all_peers : query (get_all_peers iteration).
Proof. unfold get_all_peers. apply query_bind; [auto with query|]. intros e. destruct (decide _); auto 9 with query. Qed.
#[local] Hint Resolve query_get_all_peers : query.
Lemma query_get_leader_unsafe : query (get_leader_unsafe iteration).
Proof. unfold get_leader_unsafe. auto with query. Qed.
Lemma query_has_peer ps u : query (has_peer ps u : raftM bool).
Proof.
  induction ps; cbn [has_peer]; [auto with query|]. apply query_bind; [auto with query|]. intros x. destruct (decide _); auto with query.
Qed.
Lemma query_other_peers ps u : query (other_peers ps u : raftM _).
Proof. induction ps; cbn [other_peers]; auto 6 with query. Qed.
Lemma query_deduce_type v : query (deduce_type_from_message v : raftM _).
Proof.
  unfold deduce_type_from_message. apply query_bind; [auto with query|]. intros m. destruct (isString m); [auto with query|].
  apply query_bind; [auto with query|]. intros ps. destruct (isArray ps); auto with query.
Qed.
#[local] Hint Resolve query_get_leader_unsafe query_has_peer query_other_peers query_deduce_type : query.
End Queries.

#[export] Hint Resolve query_path query_get_string query_get_uint query_get_bool query_peer_uuids query_last_quorum query_get_active_quorum query_in_quorum
  query_is_majority query_insert_peers query_get_all_peers query_get_leader_unsafe query_has_peer query_other_peers query_deduce_type : query.

#[export] Hint Resolve pure_start_election_timer pure_get_bool pure_is_majority pure_last_quorum pure_get_leader_unsafe pure_has_peer
  pure_other_peers : pure.

Ltac method_step :=
  first
  [ solve [auto with method]
  | lazymatch goal with
    | |- respects _ (attempt _) => apply respects_attempt
    | |- respects _ (log_call _) => apply respects_log_call; intros ? ?
    | |- _ => first [apply respects_pure; [apply _|solve [auto with pure]]|respects_step]
    end ].
Ltac method_steps := repeat method_step.

Section ElectionSafety.
Context {JS : Jsoncpp} {BO : Boost} {SE : Security} {MA : Message audit_message} {MB : Message bzn_msg}.
Context (iteration : list peer_address_t → list peer_address_t).
Abbreviation raftM := (M raft effect).

(** The method makes no leader. *)
Definition no_crown : relation raft := λ s s',
  current_state s' = raft_state.leader → current_state s = raft_state.leader.
#[local] Instance no_crown_preorder : PreOrder no_crown.
Proof. split; [by intros s ?|]. intros s1 s2 s3 H12 H23 ?. auto. Qed.

(** The method leaves the election alone. *)
Definition same_election : relation raft := λ s s',
  current_state s' = current_state s ∧ yes_votes s' = yes_votes s.
#[local] Instance same_election_preorder : PreOrder same_election.
Proof. split; [done|]. intros ??? [] []. split; congruence. Qed.

Lemma same_election_match_index u : respects same_election (match_index u).
Proof. unfold match_index. method_steps. by destruct (peer_match_index s !! u). Qed.
Lemma same_election_request_append_entries : respects same_election (request_append_entries iteration).
Proof.
  pose proof same_election_match_index. unfold request_append_entries, request_append_entry, start_heartbeat_timer.
  method_steps.
Qed.

Lemma no_crown_same {A} (m : raftM A) : respects same_election m → respects no_crown m.
Proof. intros Hm s. destruct (Hm s) as [Hs _]. unfold no_crown. by rewrite Hs. Qed.

Lemma same_election_perform_commit e : respects same_election (perform_commit iteration e).
Proof. unfold perform_commit, notify_commit, send_to_all, append_log_unsafe. method_steps. all: done. Qed.
Lemma same_election_commit_until fuel bound : respects same_election (commit_until iteration fuel bound).
Proof. pose proof same_election_perform_commit. induction fuel; cbn [commit_until]; method_steps. Qed.
Lemma same_election_commit_from fuel i c : respects same_election (commit_from iteration fuel i c).
Proof. pose proof same_election_perform_commit. revert i. induction fuel; intros i; cbn [commit_from]; method_steps. Qed.

Lemma no_crown_update t st : st ≠ raft_state.leader → respects no_crown (update_raft_state t st).
Proof. intros Hst s. destruct st; [by intros [=]..|done]. Qed.

Lemma no_crown_last_majority : respects no_crown last_majority_replicated_log_index.
Proof. intros s. destruct (same_matched_last_majority s) as (_ & _ & _ & Hs & _). unfold no_crown. by rewrite Hs. Qed.

#[local] Hint Extern 1 (respects no_crown (update_raft_state _ _)) => apply no_crown_update; discriminate : method.
#[local] Hint Extern 1 (respects no_crown (commit_until _ _ _)) => apply no_crown_same, same_election_commit_until : method.
#[local] Hint Extern 1 (respects no_crown (commit_from _ _ _ _)) => apply no_crown_same, same_election_commit_from : method.
#[local] Hint Extern 1 (respects no_crown (request_append_entries _)) =>
  apply no_crown_same, same_election_request_append_entries : method.
#[local] Hint Resolve no_crown_last_majority : method.

Ltac no_crown_solve := method_steps; by intros ?.

Lemma no_crown_append_entries msg session : respects no_crown (handle_ws_append_entries iteration msg session).
Proof. unfold handle_ws_append_entries, start_election_timer. no_crown_solve. Qed.
Lemma no_crown_append_response msg : respects no_crown (handle_request_append_entries_response iteration msg).
Proof. unfold handle_request_append_entries_response. no_crown_solve. Qed.
Lemma no_crown_request_vote msg session : respects no_crown (handle_ws_request_vote msg session).
Proof. unfold handle_ws_request_vote. no_crown_solve. Qed.
Lemma no_crown_later_term cmd t msg session : respects no_crown (handle_later_term cmd t msg session).
Proof. unfold handle_later_term, start_election_timer. no_crown_solve. Qed.
Lemma no_crown_earlier_term t : respects no_crown (handle_earlier_term t).
Proof. unfold handle_earlier_term, start_election_timer. no_crown_solve. Qed.
Lemma no_crown_add_peer msg session : respects no_crown (handle_add_peer_message msg session).
Proof.
  unfold handle_add_peer_message, handle_add_peer, validate_new_peer, send_session_error_message,
    send_success_message, create_joint_quorum_by_adding_peer, append_log_unsafe. no_crown_solve.
Qed.
Lemma no_crown_remove_peer msg session : respects no_crown (handle_remove_peer_message msg session).
Proof.
  unfold handle_remove_peer_message, handle_remove_peer, send_session_error_message,
    send_success_message, create_joint_quorum_by_removing_peer, append_log_unsafe. no_crown_solve.
Qed.
Lemma no_crown_get_peers session : respects no_crown (handle_get_peers iteration session).
Proof. unfold handle_get_peers. no_crown_solve. Qed.
Lemma no_crown_get_peers_response pick msg : respects no_crown (handle_get_peers_response iteration pick msg).
Proof.
  unfold handle_get_peers_response, handle_get_peers_response_from_follower_or_candidate,
    handle_get_peers_response_from_leader, auto_add_peer_if_required, add_self_to_swarm. no_crown_solve.
Qed.
Lemma no_crown_election_timeout pick ec : respects no_crown (handle_election_timeout iteration pick ec).
Proof.
  unfold handle_election_timeout, auto_add_peer_if_required, request_vote_request, start_election_timer. no_crown_solve.
Qed.
Lemma no_crown_heartbeat ec : respects no_crown (handle_heartbeat_timeout iteration ec).
Proof. unfold handle_heartbeat_timeout, notify_leader_status, send_to_all. no_crown_solve. Qed.

(** The node is elected: a candidate with the votes of a majority of every quorum. *)
Definition elected (s s' : raft) : Prop :=
  current_state s = candidate ∧
  ∃ qs, res get_active_quorum s = Ok qs ∧ Forall (λ q, base.size q < 2 * base.size (q ∩ yes_votes s')) qs.

Lemma res_is_majority votes s :
  res (is_majority votes) s = Ok true →
  ∃ qs, res get_active_quorum s = Ok qs ∧ Forall (λ q, base.size q < 2 * base.size (q ∩ votes)) qs.
Proof.
  unfold is_majority. rewrite res_bind. destruct (res get_active_quorum s) as [qs| |]; [|done..].
  rewrite res_ret. intros [= Hall]. exists qs. split; [done|]. apply Forall_forall. intros q Hq.
  rewrite forallb_forall in Hall. specialize (Hall q (proj1 (list_elem_of_In _ _) Hq)).
  unfold majority_of in Hall. by apply Nat.ltb_lt.
Qed.

Lemma vote_response_elects msg s :
  let s' := post (handle_request_vote_response iteration msg) s in
  current_state s' = raft_state.leader → current_state s = raft_state.leader ∨ elected s s'.
Proof.
  cbn zeta. destruct (decide (current_state s = raft_state.leader)) as [|Hnl]; [by left|].
  intros Hl. right. revert Hl. unfold handle_request_vote_response.
  rewrite post_bind, res_gets, post_gets. cbn [id]. rewrite (bool_decide_false _ Hnl).
  rewrite post_bind, res_ret, post_ret. case_bool_decide as Hc; [|intros Hl; by destruct Hnl]. cbn [negb].
  rewrite post_bind, <-(pure_get_bool _ _ s). destruct (res (get_bool _ _) s) as [granted| |]; [|by rewrite Hc..].
  rewrite post_bind, <-(pure_get_string _ _ s). destruct (res (get_string _ _) s) as [from| |]; [|by rewrite Hc..].
  destruct granted.
  - rewrite post_bind, res_modify, post_modify, post_bind, res_gets, post_gets. set (s1 := set_election _ _ _ _ _ s).
    rewrite post_bind, <-(pure_is_majority _ s1).
    destruct (res (is_majority (yes_votes s1)) s1) as [[]| |] eqn:Hmaj; [|by simpl; rewrite Hc..].
    intros _. split; [done|]. destruct (res_is_majority _ _ Hmaj) as (qs & Hqs & Hall).
    rewrite (reads_log_get_active_quorum s s1) in Hqs by done. exists qs. split; [done|]. cbn [when].
    rewrite post_bind, (eq_refl : res (update_raft_state _ raft_state.leader) s1 = Ok tt), post_bind, res_modify, post_modify.
    by destruct (same_election_request_append_entries
      (set_match ((λ _, 1%N) <$> peer_match_index (post (update_raft_state (current_term s) raft_state.leader) s1))
         (post (update_raft_state (current_term s) raft_state.leader) s1))) as [_ ->].
  - rewrite post_bind, res_modify, post_modify, post_bind, res_gets, post_gets. set (s1 := set_election _ _ _ _ _ s).
    rewrite post_bind, <-(pure_is_majority _ s1).
    destruct (res (is_majority (no_votes s1)) s1) as [[]| |]; [|by simpl; rewrite Hc..].
    cbn [when]. rewrite post_bind. set (s2 := post (update_raft_state _ _) s1).
    destruct (res (update_raft_state _ _) s1) as [[]| |]; [rewrite <-(pure_start_election_timer s2)|..]; done.
Qed.

Lemma receive_elects pick msg session s :
  let s' := post (handle_ws_raft_messages iteration pick msg session) s in
  current_state s' = raft_state.leader → current_state s = raft_state.leader ∨ elected s s'.
Proof.
  cbn zeta. unfold handle_ws_raft_messages.
  rewrite post_bind, <-(pure_shutdown s). destruct (res _ s) as [[]| |]; [|by left..].
  rewrite post_bind, <-(pure_get_string _ _ s). destruct (res _ s) as [cmd| |]; [|by left..].
  case_bool_decide; [by intros ?%no_crown_add_peer; left|].
  case_bool_decide; [by intros ?%no_crown_remove_peer; left|].
  case_bool_decide; [by intros ?%no_crown_get_peers; left|].
  case_bool_decide; [by intros ?%no_crown_get_peers_response; left|].
  rewrite post_bind, <-(pure_get_string _ _ s). destruct (res _ s) as [from| |]; [|by left..].
  rewrite post_bind, <-(pure_in_quorum _ s). destruct (res _ s) as [[]| |]; [|by left..]. cbn [negb].
  rewrite post_bind, <-(pure_get_uint _ _ s). destruct (res _ s) as [t| |]; [|by left..].
  rewrite post_bind, res_gets, post_gets.
  destruct (_ =? _)%N; [|destruct (_ <? _)%N; [by intros ?%no_crown_later_term; left|by intros ?%no_crown_earlier_term; left]].
  unfold handle_current_term. case_bool_decide; [by intros ?%no_crown_request_vote; left|].
  case_bool_decide; [by intros ?%no_crown_append_entries; left|].
  case_bool_decide.
  { rewrite post_bind. destruct (res _ s); rewrite ?post_emit; by intros ?%no_crown_append_response; left. }
  case_bool_decide; [|by left].
  rewrite post_bind. destruct (res _ s); rewrite ?post_emit; apply vote_response_elects.
Qed.

Lemma handle_event_elects e s :
  current_state (post (handle_event iteration e) s) = raft_state.leader →
  current_state s = raft_state.leader ∨ elected s (post (handle_event iteration e) s).
Proof.
  destruct e; simpl; [apply receive_elects| | | | | |].
  - by intros ?%no_crown_election_timeout; left.
  - by intros ?%no_crown_heartbeat; left.
  - assert (respects no_crown (append_log msg type;; mret tt)) as H.
    { unfold append_log, append_log_unsafe. no_crown_solve. }
    by intros ?%H; left.
  - assert (respects no_crown start) as H by (unfold start, start_election_timer; no_crown_solve).
    by intros ?%H; left.
  - by left.
  - by left.
Qed.

(** Two majorities of a quorum meet. *)
Lemma majorities_meet (q v1 v2 : gset uuid_t) :
  base.size q < 2 * base.size (q ∩ v1) → base.size q < 2 * base.size (q ∩ v2) → ∃ u, u ∈ q ∧ u ∈ v1 ∧ u ∈ v2.
Proof.
  intros H1 H2. destruct (set_choose_or_empty (q ∩ v1 ∩ v2)) as [[u Hu]|Hem]; [exists u; set_solver|].
  assert ((q ∩ v1) ∪ (q ∩ v2) ⊆ q) as Hsub%subseteq_size by set_solver.
  rewrite size_union in Hsub by set_solver. lia.
Qed.

End ElectionSafety.
End raft_props.
Import raft_props.

Section Claims.
Context {JS : Jsoncpp} {BO : Boost} {SE : Security} {MA : Message audit_message} {MB : Message bzn_msg}.
Context (iteration : list peer_address_t → list peer_address_t).

(** C15: In every run of a Raft node, from its construction on, the commit
    handler is given the entries of the log from index 1 to the commit index,
    in the order of the log and each once, and whatever happens later the log is
    only extended, so no committed entry ever changes.  (The run is free of
    undefined behaviour and its log has fewer than [2 ^ 32] entries.) *)
Theorem raft_commits_log_in_order peers u mx validation key env d s0 (evs evs' : list event) :
  new peers u mx validation key env d = Ok s0 →
  regular iteration evs s0 →
  let s := (run iteration evs s0).1 in
  regular iteration evs' s →
  (1 ≤ commit_index s ≤ size (log s))%N ∧
  commits (run iteration evs s0).2 = entry_msg <$> slice 1 (commit_index s) (log_entries (log s)) ∧
  log_entries (log s0) `prefix_of` log_entries (log s) ∧
  log_entries (log s) `prefix_of` log_entries (log (run iteration evs' s).1) ∧
  (commit_index s ≤ commit_index (run iteration evs' s).1)%N.
Proof.
  intros Hnew Hr s Hr'. destruct (raft_new_inv _ _ _ _ _ _ _ _ Hnew) as [Hi0 H1].
  destruct (run_step iteration evs s0 Hr) as [Hs Hlt]. destruct (Hs Hlt) as [Hp Hc].
  destruct (Hc Hi0) as (Hi & Hle & Hcm). rewrite H1 in *.
  destruct (run_step iteration evs' s Hr') as [Hs' Hlt']. destruct (Hs' Hlt') as [Hp' Hc'].
  destruct (Hc' Hi) as (_ & Hle' & _). split_and!; done.
Qed.

(** C17: A node becomes leader only as a candidate, with the votes of more than
    half of every quorum in force (both, while the quorum is changing), whatever
    event it handles; so any other set of votes that wins in one of these
    quorums shares a voter with it. *)
Theorem raft_leader_has_majority (e : event) (s : raft) :
  let s' := post (handle_event iteration e) s in
  current_state s ≠ raft_state.leader → current_state s' = raft_state.leader →
  current_state s = candidate ∧
  ∃ qs, res get_active_quorum s = Ok qs ∧
    ∀ q, q ∈ qs → base.size q < 2 * base.size (q ∩ yes_votes s') ∧
      ∀ votes, base.size q < 2 * base.size (q ∩ votes) → ∃ u, u ∈ q ∧ u ∈ yes_votes s' ∧ u ∈ votes.
Proof.
  cbn zeta. intros Hnl Hl. destruct (handle_event_elects iteration e s Hl) as [|[Hc (qs & Hqs & Hall)]]; [done|].
  split; [done|]. exists qs. split; [done|]. intros q Hq. rewrite Forall_forall in Hall. split; [by apply Hall|].
  intros votes Hv. by apply majorities_meet; [apply Hall|].
Qed.

End Claims.

(** *** Examples: a swarm of three peers that commits one entry *)
Module sample_swarm.
Import json_tree letters.

Definition security : Security :=
  {| retrieve_bluzelle_public_key_from_contract := Ok ""%string; verify_signature _ _ _ := Ok true; is_blacklisted _ := Ok false |}.
Definition no_audit : Message audit_message := {| SerializeAsString _ := ""; ParseFromString _ := None |}.

Definition peer (u : string) : peer_address_t := Peer "1" 80 81 u u.
Definition node (u : string) : raft :=
  match new [peer "a"; peer "b"; peer "c"] u 10000 false "" None (Disk None true true) with
  | Ok s => s
  | _ => Raft follower 0 ∅ ∅ None 0 0 0 false ∅ "" "" false (RaftLog [] 0 0 Closed (Disk None false false))
           false false "" false
  end.

Definition returns {A} (r : result A) : bool := match r with Ok _ => true | _ => false end.

Lemma node_new : new [peer "a"; peer "b"; peer "c"] "a" 10000 false "" None (Disk None true true) = Ok (node "a").
Proof.
  assert (returns (new [peer "a"; peer "b"; peer "c"] "a" 10000 false "" None (Disk None true true)) = true) as H
    by (vm_compute; reflexivity).
  unfold node. by destruct (new _ _ _ _ _ _ _).
Qed.

Definition entry : Value := Obj [("msg", Str "x")]%string.

Definition election : list event :=
  [RegisterCommitHandler; Start; ElectionTimeout 0 false; Receive 0 (create_request_vote_response "b" 1 true) 7].
Definition replication : list event :=
  [AppendLog entry database; HeartbeatTimeout false; Receive 0 (create_append_entries_response "b" 1 true 2) 8].

Definition runs (evs : list event) (s : raft) : raft * list effect :=
  run (BO := letters_boost) (SE := security) (MA := no_audit) id evs s.

Definition leader_node : raft := (runs election (node "a")).1.

Definition defined {A} (r : result A) : bool := match r with Undefined => false | _ => true end.
Lemma defined_spec {A} (r : result A) : defined r = true → r ≠ Undefined.
Proof. by destruct r. Qed.

Fixpoint regularb (evs : list event) (s : raft) : bool :=
  (size (log s) <? 2 ^ 32)%N &&
  match evs with
  | [] => true
  | e :: evs => defined (res (handle_event (BO := letters_boost) (SE := security) (MA := no_audit) id e) s)
                && regularb evs (post (handle_event (BO := letters_boost) (SE := security) (MA := no_audit) id e) s)
  end.

Lemma regularb_spec evs s :
  regularb evs s = true → regular (BO := letters_boost) (SE := security) (MA := no_audit) id evs s.
Proof.
  revert s. induction evs as [|e evs IH]; intros s; cbn [regularb regular]; rewrite andb_true_iff; intros [H1%N.ltb_lt H2];
    (split; [done|]); [done|]. apply andb_true_iff in H2 as [? ?]. split; [by apply defined_spec|by apply IH].
Qed.

Lemma sample_regular : regularb (election ++ replication) (node "a") = true.
Proof. vm_compute. reflexivity. Qed.

Lemma sample_elected : current_state leader_node = raft_state.leader.
Proof. vm_compute. reflexivity. Qed.

(** The candidate before it has a vote of a peer, and the leader before the reply. *)
Definition candidate_node : raft := (runs (take 3 election) (node "a")).1.
Definition waiting_node : raft := (runs (election ++ take 2 replication) (node "a")).1.
Definition vote : event := Receive 0 (create_request_vote_response "b" 1 true) 7.
Definition reply : Value := create_append_entries_response "b" 1 true 2.
Definition quorums : list (gset uuid_t) :=
  match res get_active_quorum waiting_node with Ok qs => qs | _ => [] end.

Lemma quorums_of_waiting_node : res get_active_quorum waiting_node = Ok quorums.
Proof.
  assert (returns (res get_active_quorum waiting_node) = true) as H by (vm_compute; reflexivity).
  unfold quorums. by destruct (res get_active_quorum waiting_node).
Qed.

End sample_swarm.
Import sample_swarm.

Example raft_commits_log_in_order_witness :
  let s := (runs (election ++ replication) (node "a")).1 in
  commit_index s = 2%N ∧
  commits (runs (election ++ replication) (node "a")).2 = entry_msg <$> slice 1 (commit_index s) (log_entries (log s)).
Proof.
  intros s. split; [vm_compute; reflexivity|].
  apply (raft_commits_log_in_order (BO := letters.letters_boost) (SE := security) (MA := no_audit) id
    _ _ _ _ _ _ _ _ (election ++ replication) [] node_new (regularb_spec _ _ sample_regular)).
  apply regularb_spec. vm_compute. reflexivity.
Defined.

Example raft_leader_has_majority_witness :
  ∃ qs, res get_active_quorum candidate_node = Ok qs ∧
    ∀ q, q ∈ qs → base.size q < 2 * base.size (q ∩ yes_votes (runs election (node "a")).1).
Proof.
  destruct (raft_leader_has_majority (BO := letters.letters_boost) (SE := security) (MA := no_audit) id vote candidate_node)
    as (_ & qs & Hqs & Hall).
  - assert (bool_decide (current_state candidate_node = raft_state.leader) = false) as Hs by (vm_compute; reflexivity).
    by apply bool_decide_eq_false in Hs.
  - assert (bool_decide (current_state (runs election (node "a")).1 = raft_state.leader) = true) as Hs
      by (vm_compute; reflexivity).
    by apply bool_decide_eq_true in Hs.
  - exists qs. split; [exact Hqs|]. intros q Hq. exact (proj1 (Hall q Hq)).
Defined.

(** The reply grants a vote in term [t]. *)
Definition grants_vote (session : session_id) (t : N) (e : effect (JS := json_tree.tree_json)) : bool :=
  match e with
  | SessionSend s v _ =>
      match member v "data" with
      | Ok d => match member d "granted", member d "term" with
                | Ok g, Ok n => match asBool g, asUInt n with
                                | Ok true, Ok n => bool_decide (s = session) && (n =? t)%N
                                | _, _ => false
                                end
                | _, _ => false
                end
      | _ => false
      end
  | _ => false
  end.

(** A node can vote for two candidates in one term: it grants the vote of
    term 5 to [b], a message of term 4 takes it back to that term and clears the
    vote, and then it grants the vote of term 5 to [c]. *)
Theorem raft_votes_twice_in_a_term :
  let out := (runs [Receive 0 (create_request_vote_request "b" 5 1 0) 1;
                    Receive 0 (create_append_entries_request "c" 4 1 0 0 0 json_tree.Null) 2;
                    Receive 0 (create_request_vote_request "c" 5 1 0) 3] (node "a")).2 in
  existsb (grants_vote 1 5) out = true ∧ existsb (grants_vote 3 5) out = true.
Proof. split; vm_compute; reflexivity. Qed.
