(* ===== verification/Replication.v ===== *)
(** * Replication of one entry

    The round trip of an [AppendEntries] request: what the leader sends, what
    the follower does with it and answers, and what the leader notes.  The
    messages are JSON text in between, so each side gets a value that reads as
    the one sent. *)

From S2P Require Import Prelude Messages Json RaftLog Raft RaftProps.
Import raft_log raft_state raft_base raft raft_props.

Module replication.
Section Messages.
Context {JS : Jsoncpp} {JL : JsoncppLaws} {BO : Boost} {SE : Security} {MA : Message audit_message} {MB : Message bzn_msg}.
Context (iteration : list peer_address_t → list peer_address_t).
Abbreviation raftM := (M raft effect).

(** ** Reading the members of a message *)

Lemma data_member cmd data v k x s :
  reads_as (raft_message cmd data) v → NoDup data.*1 → (k, x) ∈ data →
  ∃ x', res (path ["data"%string; k] v) s = Ok x' ∧ reads_as x x'.
Proof.
  intros Hv Hnd Hin. unfold raft_message in Hv.
  destruct (reads_as_member _ _ "data" (obj data) Hv) as (d & Hd & Hrd).
  { apply member_obj; [|by repeat constructor].
    apply (bool_decide_unpack _). by vm_compute. }
  destruct (reads_as_member _ _ k x Hrd) as (x' & Hx & Hrx); [by apply member_obj|].
  exists x'. split; [|done]. cbn [path]. rewrite res_bind, res_lift, Hd, post_lift, res_bind, res_lift, Hx. done.
Qed.

Lemma data_uint cmd data v k n s :
  reads_as (raft_message cmd data) v → NoDup data.*1 → (k, uint n) ∈ data → (n < 2 ^ 32)%N →
  res (get_uint ["data"%string; k] v) s = Ok n.
Proof.
  intros Hv Hnd Hin Hn. destruct (data_member _ _ _ _ _ s Hv Hnd Hin) as (x & Hx & Hr).
  unfold get_uint. rewrite res_bind, Hx, res_lift, (reads_as_asUInt _ _ Hr). by apply asUInt_uint.
Qed.

Lemma data_string cmd data v k t s :
  reads_as (raft_message cmd data) v → NoDup data.*1 → (k, str t) ∈ data →
  res (get_string ["data"%string; k] v) s = Ok t.
Proof.
  intros Hv Hnd Hin. destruct (data_member _ _ _ _ _ s Hv Hnd Hin) as (x & Hx & Hr).
  unfold get_string. rewrite res_bind, Hx, res_lift, (reads_as_asString _ _ Hr). apply asString_str.
Qed.

Lemma data_bool cmd data v k b s :
  reads_as (raft_message cmd data) v → NoDup data.*1 → (k, boolean b) ∈ data →
  res (get_bool ["data"%string; k] v) s = Ok b.
Proof.
  intros Hv Hnd Hin. destruct (data_member _ _ _ _ _ s Hv Hnd Hin) as (x & Hx & Hr).
  unfold get_bool. rewrite res_bind, Hx, res_lift, (reads_as_asBool _ _ Hr). apply asBool_boolean.
Qed.

(** The type of an entry is that of any value that reads as its message. *)
Lemma path_reads_as ks v v' s x :
  reads_as v v' → res (path ks v) s = Ok x → ∃ x', res (path ks v') s = Ok x' ∧ reads_as x x'.
Proof.
  revert v v'. induction ks as [|k ks IH]; intros v v' Hv; cbn [path].
  - intros [= <-]. by exists v'.
  - rewrite !res_bind, !res_lift, !post_lift. destruct (member v k) as [y| |] eqn:Hy; [|done..].
    destruct (reads_as_member _ _ k y Hv Hy) as (y' & -> & Hr). by apply IH.
Qed.

Lemma deduce_reads_as v v' s t :
  reads_as v v' → res (deduce_type_from_message v) s = Ok t → res (deduce_type_from_message v') s = Ok t.
Proof.
  intros Hv. unfold deduce_type_from_message. rewrite !res_bind, <-!(pure_path _ _ s).
  destruct (res (path ["msg"%string] v) s) as [m| |] eqn:Hm; [|done..].
  destruct (path_reads_as _ _ _ _ _ Hv Hm) as (m' & -> & Hrm). rewrite (reads_as_isString _ _ Hrm).
  destruct (isString m); [done|]. rewrite !res_bind, <-!(pure_path _ _ s).
  destruct (res (path ["peers"%string] m) s) as [ps| |] eqn:Hps; [|done..].
  destruct (path_reads_as _ _ _ _ _ Hrm Hps) as (ps' & -> & Hrp). rewrite (reads_as_isArray _ _ Hrp).
  destruct (isArray ps); [done|]. rewrite !res_bind, !res_lift, (reads_as_isMember _ _ _ Hrp). done.
Qed.

(** The deduced type depends on the message only. *)
Lemma path_any_state ks v (s s' : raft) : res (path ks v) s = res (path ks v) s'.
Proof.
  revert v. induction ks as [|k ks IH]; intros v; cbn [path]; [done|].
  rewrite !res_bind, !res_lift, !post_lift. by destruct (member v k).
Qed.
Lemma get_uint_any_state ks v (s s' : raft) : res (get_uint ks v : raftM N) s = res (get_uint ks v) s'.
Proof. unfold get_uint. rewrite !res_bind, <-!pure_path, (path_any_state ks v s s'). by destruct (res _ s'). Qed.

Lemma deduce_any_state v (s s' : raft) : res (deduce_type_from_message v) s = res (deduce_type_from_message v) s'.
Proof.
  unfold deduce_type_from_message. rewrite !res_bind, <-(pure_path _ _ s), <-(pure_path _ _ s'), (path_any_state _ _ s s').
  destruct (res (path _ v) s') as [m| |]; [|done..]. destruct (isString m); [done|].
  rewrite !res_bind, <-(pure_path _ _ s), <-(pure_path _ _ s'), (path_any_state _ _ s s').
  destruct (res (path _ m) s') as [ps| |]; [|done..]. destruct (isArray ps); [done|].
  rewrite !res_bind, !res_lift, !post_lift. by destruct (isMember ps _).
Qed.

End Messages.

(** ** The follower *)

Section Follower.
Context {JS : Jsoncpp} {JL : JsoncppLaws} {BO : Boost} {SE : Security} {MA : Message audit_message} {MB : Message bzn_msg}.
Context (iteration : list peer_address_t → list peer_address_t).
Abbreviation raftM := (M raft effect).
Abbreviation entries s := (log_entries (log s)).

(** A method ends with the entries [l] and has made the call [x] on the way. *)
Definition ends_with (l : list log_entry) (x : effect) (m : raftM unit) (s : raft) : Prop :=
  entries (post m s) = l ∧ x ∈ out m s.

Lemma ends_with_bind {A} l x (m : raftM A) (k : A → raftM unit) s a s' :
  res m s = Ok a → post m s = s' → ends_with l x (k a) s' → ends_with l x (m ≫= k) s.
Proof.
  intros Hr <- [Hl Hx]. split; rewrite ?post_bind, ?out_bind, Hr; [done|]. apply elem_of_app. by right.
Qed.

Lemma ends_with_read {A} l x (m : raftM A) (k : A → raftM unit) s a :
  pure_method m → res m s = Ok a → ends_with l x (k a) s → ends_with l x (m ≫= k) s.
Proof. intros Hp Hr Hk. by eapply ends_with_bind; [|symmetry; apply Hp|]. Qed.

(** Without the leader's duty a commit does not change the log. *)
Lemma perform_commit_follower e s :
  current_state s ≠ raft_state.leader →
  log (post (perform_commit iteration e) s) = log s ∧
  current_state (post (perform_commit iteration e) s) = current_state s.
Proof.
  intros Hnl. unfold perform_commit. rewrite post_bind, res_gets, post_gets, post_bind, <-(pure_notify_commit _ _ _ s).
  destruct (res (notify_commit _ _ _) s) as [[]| |]; [|done..].
  rewrite post_bind, res_gets, post_gets. destruct (commit_handler s); [|done].
  rewrite post_bind, res_emit, post_emit, post_bind, res_modify, post_modify, post_bind, res_gets, post_gets.
  cbn [id get_state set_log current_state]. by rewrite (bool_decide_false _ Hnl).
Qed.

Lemma commit_from_follower fuel i c s :
  current_state s ≠ raft_state.leader → log (post (commit_from iteration fuel i c) s) = log s.
Proof.
  revert i s. induction fuel as [|fuel IH]; intros i s Hnl; cbn [commit_from]; rewrite post_bind, res_gets, post_gets;
    cbn [id]; (destruct (_ <? _)%N; [|done]); [done|].
  rewrite post_bind, res_lift, post_lift. destruct (entry_at i (log s)) as [e| |]; [|done..].
  destruct (perform_commit_follower e s Hnl) as [Hl Hs]. rewrite post_bind.
  destruct (res (perform_commit iteration e) s) as [[]| |]; [|done..]. rewrite IH; [done|congruence].
Qed.

(** The reply is sent whatever happens to the commits. *)
Lemma append_reply_sent session msg msg_index s :
  current_state s ≠ raft_state.leader →
  ends_with (entries s)
    (SessionSend session (create_append_entries_response (uuid s) (current_term s) true
       (u32 (N.min (size (log s)) (msg_index + 1)))) true)
    (s ← gets id;
     let match_index := N.min (size (log s)) (msg_index + 1) in
     emit (SessionSend session
       (create_append_entries_response (uuid s) (current_term s) true (u32 match_index)) true);;
     leader_commit ← get_uint ["data"; "commitIndex"]%string msg;
     when (true && (commit_index s <? leader_commit)%N)
       (commit_from iteration (N.to_nat (N.min (size (log s)) leader_commit - commit_index s))
          (commit_index s) leader_commit);;
     modify (λ s, set_match (<[leader s := leader_commit]> (peer_match_index s)) s);;
     start_election_timer) s.
Proof.
  intros Hnl. eapply ends_with_read; [done|done|]. cbn zeta. cbn [id]. split; [|rewrite out_bind; by left].
  rewrite post_bind, res_emit, post_emit, post_bind, <-(pure_get_uint _ _ s).
  destruct (res (get_uint _ _) s) as [c| |]; [|done..]. rewrite post_bind.
  assert (log (post (when (true && (commit_index s <? c)%N)
    (commit_from iteration (N.to_nat (N.min (size (log s)) c - commit_index s)) (commit_index s) c)) s) = log s) as Hlog.
  { simpl. destruct (_ <? _)%N; [by apply commit_from_follower|done]. }
  destruct (res (when _ _) s) as [[]| |]; [|by rewrite Hlog..].
  rewrite post_bind, res_modify, post_modify, <-pure_start_election_timer. cbn [set_match log]. by rewrite Hlog.
Qed.

(** An entry as the leader's log has it at index [k]: its type can be told from
    its message. *)
Definition replicable (k : N) (e : log_entry) : Prop :=
  log_index e = k ∧ (term e < 2 ^ 32)%N ∧ empty (entry_msg e) = false ∧
  ∀ s, res (deduce_type_from_message (entry_msg e)) s = Ok (entry_type e).

(** The request for entry [e] at index [k], after an entry of term [pt]. *)
Definition append_request (u : uuid_t) (t c k pt : N) (e : log_entry) : Value :=
  create_append_entries_request u t c (k - 1) pt (term e) (entry_msg e).

Lemma accepted_at_end k pt s prev :
  size (log s) = k → (1 ≤ k < 2 ^ 32)%N → entries s !! N.to_nat (k - 1) = Some prev → term prev = pt →
  entry_accepted (k - 1) pt (log s) = Ok true.
Proof.
  intros Hk Hb Hp Ht. unfold entry_accepted. unfold size in Hk. rewrite Hk, sub64_small by lia.
  rewrite N.ltb_irrefl, Hp, Ht. by rewrite N.eqb_refl.
Qed.

Lemma insert_at_end k e s :
  size (log s) = k → log_entries (post (follower_insert_entry k e) (log s)) = entries s ++ [e].
Proof.
  intros Hk. unfold size, lengthN in Hk. unfold follower_insert_entry. rewrite post_bind, res_gets, post_gets.
  rewrite (proj2 (lookup_ge_None (entries s) (N.to_nat k))) by lia.
  rewrite (proj2 (N.eqb_eq k (lengthN (entries s)))) by (unfold lengthN; lia).
  rewrite post_bind, res_modify, post_modify. apply append_log_disk_memory.
Qed.

(** The file of the log can be written. *)
Definition writable (l : raft_log) : Prop := log_entry_out_stream l ≠ Closed ∨ parent_exists (log_disk l) = true.

Lemma insert_at_end_ok k e s :
  size (log s) = k → writable (log s) → res (follower_insert_entry k e) (log s) = Ok tt.
Proof.
  intros Hk Hw. unfold size, lengthN in Hk. unfold follower_insert_entry. rewrite res_bind, res_gets, post_gets.
  rewrite (proj2 (lookup_ge_None (entries s) (N.to_nat k))) by lia.
  rewrite (proj2 (N.eqb_eq k (lengthN (entries s)))) by (unfold lengthN; lia).
  rewrite res_bind, res_modify, post_modify. unfold writable in Hw.
  destruct (log s) as [es n mx st [f p c]]. simpl in *. destruct st; [|done..]. by destruct Hw as [| ->].
Qed.

(** What a follower does with the entry of an accepted request. *)
Lemma insert_entry_run k e v m s :
  size (log s) = k → writable (log s) → replicable k e → reads_as (entry_msg e) m →
  res (path ["data"; "entries"]%string v) s = Ok m →
  let insert := when true
    (entries ← path ["data"; "entries"]%string v;
     when (negb (empty entries))
       (t ← deduce_type_from_message entries;
        log_call (follower_insert_entry k (LogEntry t k (term e) entries)))) in
  res insert s = Ok tt ∧
  post insert s = set_log (commit_index s) (post (follower_insert_entry k (LogEntry (entry_type e) k (term e) m)) (log s)) s.
Proof.
  intros Hk Hw (_ & _ & Hne & Hty) Hrm Hm. cbn zeta. cbn [when].
  rewrite res_bind, post_bind, <-(pure_path _ _ s), Hm, (reads_as_empty _ _ Hrm), Hne. cbn [negb when].
  rewrite res_bind, post_bind, <-(pure_deduce_type _ s), (deduce_reads_as _ _ s _ Hrm (Hty s)).
  split; [|done]. unfold res, log_call. simpl. by apply insert_at_end_ok.
Qed.

(** The note that this node is in a swarm. *)
Lemma note_swarm_run from v s :
  res (get_string ["data"; "from"]%string v) s = Ok from →
  let note := if in_a_swarm s then mret tt
    else from ← get_string ["data"; "from"]%string v;
         when (negb (bool_decide (from = uuid s))) (modify (set_in_a_swarm true)) in
  res note s = Ok tt ∧ ∃ b, post note s = set_in_a_swarm b s.
Proof.
  intros Hf. cbn zeta. destruct (in_a_swarm s) eqn:E.
  - split; [done|]. exists (in_a_swarm s). by destruct s.
  - rewrite res_bind, post_bind, <-(pure_get_string _ _ s), Hf. destruct (negb _); [by eauto|].
    split; [done|]. exists (in_a_swarm s). by destruct s.
Qed.

Lemma follower_accepts u t c k e v session s prev :
  reads_as (append_request u t c k (term prev) e) v → replicable k e →
  (t < 2 ^ 32)%N → (c < 2 ^ 32)%N → (term prev < 2 ^ 32)%N → (1 ≤ k)%N → (k + 1 < 2 ^ 32)%N →
  current_state s = follower → size (log s) = k → writable (log s) →
  (∃ p, entries s !! N.to_nat (k - 1) = Some p ∧ term p = term prev) →
  ∃ e', same_entry e e' ∧
    ends_with (entries s ++ [e'])
      (SessionSend session (create_append_entries_response (uuid s) (current_term s) true (k + 1)) true)
      (handle_ws_append_entries iteration v session) s.
Proof.
  intros Hv (Hidx & Hte & Hne & Hty) Ht Hc Hpt Hk1 Hk2 Hst Hk Hw (p & Hp & Hpterm).
  unfold append_request, create_append_entries_request in Hv. set (data := [_; _; _; _; _; _; _]) in Hv.
  assert (NoDup data.*1) as Hnd by (apply (bool_decide_unpack _); by vm_compute).
  destruct (data_member _ data v "entries" (entry_msg e) s Hv Hnd) as (m & Hm & Hrm); [by repeat constructor|].
  exists (LogEntry (entry_type e) k (term e) m). split; [split_and!; [done|by rewrite Hidx|done|done]|].
  assert (∀ s, res (get_string ["data"; "from"]%string v) s = Ok u) as Hfrom
    by (intros; eapply data_string; [done|done|by repeat constructor]).
  unfold handle_ws_append_entries.
  eapply ends_with_read; [apply pure_get_uint|eapply data_uint; [done|done|by repeat constructor|exact Ht]|].
  eapply ends_with_read; [done|done|]. cbn [id].
  destruct (note_swarm_run u v s (Hfrom s)) as [Hr (b & Hb)].
  eapply ends_with_bind; [exact Hr|exact Hb|]. clear Hr Hb.
  rewrite (bool_decide_false (current_state s = candidate)) by congruence.
  rewrite (bool_decide_false (current_state s = raft_state.leader)) by congruence. cbn [orb andb].
  eapply ends_with_read; [apply pure_get_string|apply Hfrom|].
  eapply ends_with_bind; [done|done|].
  set (s2 := post (modify (set_leader u)) (set_in_a_swarm b s)).
  eapply ends_with_read; [apply pure_get_uint|eapply data_uint; [done|done|by repeat constructor|exact Hpt]|].
  eapply ends_with_read; [apply pure_get_uint|eapply (data_uint _ _ _ _ (k - 1)); [done|done|by repeat constructor|lia]|].
  eapply ends_with_read; [apply pure_get_uint|eapply data_uint; [done|done|by repeat constructor|exact Hte]|].
  rewrite N.sub_add by done. rewrite u32_small by lia.
  eapply ends_with_read; [done|rewrite res_lift; apply (accepted_at_end k _ s p); [done|lia|done|done]|].
  destruct (insert_entry_run k e v m s2 Hk Hw) as [Hr Hb]; [by split_and!|done| |].
  { rewrite <-Hm. by apply reads_log_path. }
  eapply ends_with_bind; [exact Hr|exact Hb|]. clear Hr Hb. set (s3 := set_log _ _ s2).
  assert (entries s3 = entries s ++ [LogEntry (entry_type e) k (term e) m]) as He3 by (by apply (insert_at_end k _ s2)).
  pose proof (append_reply_sent session v k s3) as Hreply. rewrite <-He3.
  replace (k + 1)%N with (u32 (N.min (size (log s3)) (k + 1))) at 1; [apply Hreply; cbn; congruence|].
  unfold size. rewrite He3, lengthN_app. unfold size in Hk. rewrite Hk. unfold lengthN. simpl. rewrite u32_small; lia.
Qed.

End Follower.

(** ** The leader *)

Section Leader.
Context {JS : Jsoncpp} {JL : JsoncppLaws} {BO : Boost} {SE : Security} {MA : Message audit_message} {MB : Message bzn_msg}.
Context (iteration : list peer_address_t → list peer_address_t).
Abbreviation raftM := (M raft effect).
Abbreviation entries s := (log_entries (log s)).

Lemma entry_at_ok i l e : log_entries l !! N.to_nat i = Some e → entry_at i l = Ok e.
Proof. unfold entry_at. by intros ->. Qed.

Lemma leader_sends peer ep k e prev s :
  make_endpoint peer = Ok ep → matched s (Messages.uuid peer) = k → (1 ≤ k)%N → (k < 2 ^ 32)%N →
  entries s !! N.to_nat k = Some e → entries s !! N.to_nat (k - 1) = Some prev →
  SendMessage ep (append_request (uuid s) (current_term s) (commit_index s) k (term prev) e)
    ∈ out (request_append_entry peer) s.
Proof.
  intros Hep Hk H1 H2 He Hp. unfold request_append_entry.
  assert (uuid (post (match_index (Messages.uuid peer)) s) = uuid s ∧
          current_term (post (match_index (Messages.uuid peer)) s) = current_term s) as [Hu Hct].
  { unfold match_index. rewrite post_bind, res_modify, post_modify, post_gets. by destruct (peer_match_index s !! _). }
  destruct (match_index_run (Messages.uuid peer) s) as [Hr (Hl & Hc & _ & _)]. rewrite out_bind, Hr, Hk.
  set (s1 := post (match_index (Messages.uuid peer)) s) in *. apply elem_of_app. right.
  rewrite out_bind, res_gets, post_gets. cbn [id]. rewrite Hl. apply elem_of_app. right.
  rewrite (proj2 (N.ltb_lt k (size (log s)))) by (apply lookup_lt_Some in He; unfold size, lengthN; lia).
  replace (u32 (k + 2 ^ 32 - 1)) with (k - 1)%N.
  2: { unfold u32. replace (k + 2 ^ 32 - 1)%N with ((k - 1) + 1 * 2 ^ 32)%N by lia.
       rewrite N.Div0.mod_add. rewrite N.mod_small; lia. }
  rewrite (entry_at_ok _ _ _ Hp), (entry_at_ok _ _ _ He), Hep. run_simpl. rewrite Hu, Hct, Hc. by left.
Qed.

Lemma leader_notes u t n v s :
  reads_as (create_append_entries_response u t true n) v → (t < 2 ^ 32)%N → (n < 2 ^ 32)%N →
  current_state s = raft_state.leader → current_term s = t → (n ≤ size (log s))%N →
  matched (post (handle_request_append_entries_response iteration v) s) u = n.
Proof.
  intros Hv Ht Hn Hs Hct Hle. unfold create_append_entries_response in Hv. set (data := [_; _; _; _]) in Hv.
  assert (NoDup data.*1) as Hnd by (apply (bool_decide_unpack _); by vm_compute).
  assert (∀ s, res (get_uint ["data"; "matchIndex"]%string v) s = Ok n) as Hm
    by (intros; eapply data_uint; [done|done|by repeat constructor|done]).
  unfold handle_request_append_entries_response.
  rewrite post_bind, res_gets, post_gets. cbn [id]. rewrite bool_decide_true by done. cbn [negb].
  rewrite post_bind, <-(pure_get_uint _ _ s), Hm. rewrite (proj2 (N.ltb_ge _ _) Hle).
  rewrite post_bind, <-(pure_get_uint _ _ s), (data_uint _ _ _ "term" t s Hv Hnd) by (done || by repeat constructor).
  rewrite <-Hct at 1. rewrite N.eqb_refl. cbn [orb negb].
  rewrite post_bind, <-(pure_get_string _ _ s), (data_string _ _ _ "from" u s Hv Hnd) by (by repeat constructor).
  rewrite post_bind, <-(pure_get_uint _ _ s), Hm, post_bind, res_modify, post_modify.
  set (s1 := set_match _ s). assert (matched s1 u = n) as H1 by (unfold matched, s1; simpl; by rewrite lookup_insert_eq).
  rewrite post_bind, <-(pure_get_bool _ _ s1), (data_bool _ _ _ "success" true s1 Hv Hnd) by (by repeat constructor).
  cbn [negb]. rewrite post_bind. destruct (same_matched_last_majority s1) as (_ & _ & _ & _ & Hsame).
  destruct (res last_majority_replicated_log_index s1) as [last| |]; [|by rewrite Hsame..].
  rewrite post_bind, res_gets, post_gets. cbn [id]. destruct (_ <? _)%N; [by rewrite post_ret, Hsame|].
  set (s2 := post last_majority_replicated_log_index s1) in *.
  destruct (commit_until_bound iteration (N.to_nat (last - commit_index s2)) last s2) as (Hp & _).
  unfold matched. rewrite Hp. by rewrite <-H1, <-Hsame.
Qed.

End Leader.
End replication.
Import replication.

(** C19: One round of replication: the leader sends the entry a follower misses;
    a follower whose log is the leader's up to there appends it, so its log is
    the leader's up to and including that entry, and sends the answer that says
    success and that its log now has [k + 1] entries; and the leader that reads the
    answer, in the same term, notes that the follower has one entry more. *)
Theorem raft_replicates_entry {JS : Jsoncpp} {JL : JsoncppLaws} {BO : Boost} {MA : Message audit_message}
    (iteration : list peer_address_t → list peer_address_t)
    (L F : raft) (peer : peer_address_t) (ep : endpoint) (session : session_id) (k : N) (e prev : log_entry) :
  Messages.uuid peer = uuid F → make_endpoint peer = Ok ep →
  matched L (uuid F) = k → (1 ≤ k)%N → (k + 1 < 2 ^ 32)%N →
  log_entries (log L) !! N.to_nat k = Some e → log_entries (log L) !! N.to_nat (k - 1) = Some prev → replicable k e →
  (term prev < 2 ^ 32)%N → (current_term L < 2 ^ 32)%N → (commit_index L < 2 ^ 32)%N →
  current_state F = follower → current_term F = current_term L → writable (log F) →
  Forall2 same_entry (take (N.to_nat k) (log_entries (log L))) (log_entries (log F)) →
  ∃ req, SendMessage ep req ∈ out (request_append_entry peer) L ∧
    ∀ v, reads_as req v →
    let F' := post (handle_ws_append_entries iteration v session) F in
    Forall2 same_entry (take (S (N.to_nat k)) (log_entries (log L))) (log_entries (log F')) ∧
    let resp := create_append_entries_response (uuid F) (current_term L) true (k + 1) in
    SessionSend session resp true ∈ out (handle_ws_append_entries iteration v session) F ∧
      ∀ v' L', reads_as resp v' → current_state L' = raft_state.leader → current_term L' = current_term L →
        (k + 1 ≤ size (log L'))%N →
        matched (post (handle_request_append_entries_response iteration v') L') (uuid F) = (k + 1)%N.
Proof.
  intros Hu Hep Hk H1 H2 He Hp Hrep Hpt HtL HcL HsF HtF Hw Hall.
  exists (append_request (uuid L) (current_term L) (commit_index L) k (term prev) e). split.
  { apply leader_sends; [done|by rewrite Hu|done|lia|done|done]. }
  intros v Hv.
  assert (size (log F) = k) as Hsize.
  { apply Forall2_length in Hall. apply lookup_lt_Some in He. rewrite length_take in Hall. unfold size, lengthN. lia. }
  destruct (follower_accepts iteration _ _ _ k e v session F prev Hv) as (e' & Hsame & Hl & Hout); try done.
  { destruct (Forall2_lookup_l _ _ _ (N.to_nat (k - 1)) prev Hall) as (p & Hlp & (_ & _ & Hterm & _)).
    { rewrite lookup_take_lt by lia. done. }
    by exists p. }
  split.
  - rewrite Hl, (take_S_r _ _ e He). apply Forall2_app; [done|]. by constructor.
  - rewrite HtF in Hout. split; [exact Hout|]. intros v' L' Hv' HsL' HtL' Hle.
    eapply leader_notes; [exact Hv'|done|done|done|done|done].
Qed.

(** *** Example: the leader of three peers and the entry it appended *)
Module sample_replication.
Import sample_swarm.

Definition sample_leader : raft := (runs (election ++ take 1 replication) (node "a")).1.
Definition sample_follower : raft :=
  set_log 1 (set_entries (take 1 (log_entries (log sample_leader))) (log sample_leader)) (set_term 1 (node "b")).

Definition dummy : log_entry := LogEntry undefined_entry 0 0 json_tree.Null.
Definition sample_entry : log_entry := default dummy (log_entries (log sample_leader) !! 1).
Definition sample_prev : log_entry := default dummy (log_entries (log sample_leader) !! 0).

Lemma sample_two_entries : length (log_entries (log sample_leader)) = 2.
Proof. vm_compute. reflexivity. Qed.

Lemma sample_lookup i : i < 2 → log_entries (log sample_leader) !! i = Some (default dummy (log_entries (log sample_leader) !! i)).
Proof.
  intros Hi. destruct (lookup_lt_is_Some_2 (log_entries (log sample_leader)) i) as [e ->]; [|done].
  by rewrite sample_two_entries.
Qed.

Lemma sample_replicable : replicable 1 sample_entry.
Proof.
  assert ((log_index sample_entry =? 1) && (term sample_entry <? 2 ^ 32) && negb (empty (entry_msg sample_entry))
    && match res (deduce_type_from_message (entry_msg sample_entry)) (node "b") with
       | Ok t => bool_decide (t = entry_type sample_entry)
       | _ => false
       end = true)%N as H by (vm_compute; reflexivity).
  revert H. generalize sample_entry (node "b"). intros e s0 H.
  apply andb_true_iff in H as [H Ht]. apply andb_true_iff in H as [H He]. apply andb_true_iff in H as [Hi Hn].
  split_and!; [by apply N.eqb_eq|by apply N.ltb_lt|by apply negb_true_iff|].
  intros s. rewrite (deduce_any_state _ s s0). destruct (res _ _); [|done..].
  by apply bool_decide_eq_true in Ht as ->.
Qed.

End sample_replication.
Import sample_replication.

Example raft_replicates_entry_witness :
  ∃ req, SendMessage (Endpoint 1 80) req ∈
           out (request_append_entry (BO := letters.letters_boost) (sample_swarm.peer "b")) sample_leader ∧
    ∀ v, reads_as req v →
    Forall2 same_entry (take 2 (log_entries (log sample_leader)))
      (log_entries (log (post (handle_ws_append_entries (BO := letters.letters_boost) (MA := sample_swarm.no_audit) id v 9)
                           sample_follower))) ∧
    SessionSend 9 (create_append_entries_response "b" 1 true 2) true
      ∈ out (handle_ws_append_entries (BO := letters.letters_boost) (MA := sample_swarm.no_audit) id v 9) sample_follower.
Proof.
  destruct (raft_replicates_entry (BO := letters.letters_boost)
    (MA := sample_swarm.no_audit) id sample_leader sample_follower (sample_swarm.peer "b") (Endpoint 1 80) 9 1
    sample_entry sample_prev) as (req & Hreq & Hv).
  - vm_compute. reflexivity.
  - vm_compute. reflexivity.
  - vm_compute. reflexivity.
  - done.
  - done.
  - apply sample_lookup. lia.
  - apply sample_lookup. lia.
  - apply sample_replicable.
  - apply N.ltb_lt. vm_compute. reflexivity.
  - apply N.ltb_lt. vm_compute. reflexivity.
  - apply N.ltb_lt. vm_compute. reflexivity.
  - vm_compute. reflexivity.
  - vm_compute. reflexivity.
  - right. vm_compute. reflexivity.
  - apply (reflexivity (R := Forall2 same_entry)).
  - exists req. split; [exact Hreq|]. intros v Hr. destruct (Hv v Hr) as (Hl & Hs & _). split; [exact Hl|exact Hs].
Defined.
