(* ===== verification/RaftCrud.v ===== *)
(** * CRUD over Raft

    [crud/raft_crud.cpp]: a client's request is answered from the local store
    or appended to the Raft log, depending on the role of the node; entries that
    Raft commits are applied to the store.  The Raft node, the store and the
    subscriptions are the components of the state. *)

From S2P Require Import Prelude Messages Json Storage Crud Subscriptions RaftLog Raft RaftProps.

Module raft_crud.
Import storage_base crud_base subscription_manager.

Section Node.
Context {JS : Jsoncpp} {BO : Boost} {SE : Security} {MA : Message audit_message} {MB : Message bzn_msg}.
Context (iteration : list peer_address_t → list peer_address_t).
Context {S : Type} {ST : Storage S}.

Abbreviation raft := raft.raft.

Record raft_crud := RaftCrud {
  raft_node : raft;
  storage : S;
  subscriptions : subscription_manager;
  start_once : bool
}.

Inductive effect :=
| SendMessage (session : session_id) (resp : database_response) (end_session : bool)
| RaftEffect (e : raft.effect)
| SubscriptionEffect (e : subscription_manager.effect)
| RegisterForMessage (msg_type : string).

Abbreviation crudM := (M raft_crud effect).

Definition set_raft (r : raft) (s : raft_crud) : raft_crud :=
  RaftCrud r (storage s) (subscriptions s) (start_once s).
Definition set_storage (st : S) (s : raft_crud) : raft_crud :=
  RaftCrud (raft_node s) st (subscriptions s) (start_once s).
Definition set_subscriptions (m : subscription_manager) (s : raft_crud) : raft_crud :=
  RaftCrud (raft_node s) (storage s) m (start_once s).

(** Calls of the components. *)
Definition raft_call {A} (m : M raft raft.effect A) : crudM A := λ s,
  (res m (raft_node s), set_raft (post m (raft_node s)) s, RaftEffect <$> out m (raft_node s)).
Definition storage_call (f : S → storage_result * S) : crudM storage_result := λ s,
  (Ok (f (storage s)).1, set_storage (f (storage s)).2 s, []).
Definition subscription_call {A} (m : M subscription_manager subscription_manager.effect A) : crudM A := λ s,
  (res m (subscriptions s), set_subscriptions (post m (subscriptions s)) s, SubscriptionEffect <$> out m (subscriptions s)).

(** [request.create()] and its kin: the default message when another member of
    the [oneof] is set. *)
Definition request_create (r : database_msg) : key_t * value_t :=
  match msg r with DbCreate k v => (k, v) | _ => ("", "")%string end.
Definition request_read (r : database_msg) : key_t := match msg r with DbRead k => k | _ => ""%string end.
Definition request_update (r : database_msg) : key_t * value_t :=
  match msg r with DbUpdate k v => (k, v) | _ => ("", "")%string end.
Definition request_delete (r : database_msg) : key_t := match msg r with DbDelete k => k | _ => ""%string end.
Definition request_has (r : database_msg) : key_t := match msg r with DbHas k => k | _ => ""%string end.

Definition validate_value_size (size : N) : bool := (MAX_VALUE_SIZE <? size)%N.
Definition validate_key_size (size : N) : bool := (MAX_KEY_SIZE <? size)%N.

Definition is_leader : crudM bool :=
  gets (λ s, bool_decide (raft.get_state (raft_node s) = raft_state.leader)).
Definition storage_has (u : uuid_t) (k : key_t) : crudM bool := gets (λ s, has u k (storage s)).

Definition set_leader_info (resp : database_response) : crudM database_response :=
  l ← raft_call (raft.get_leader iteration);
  mret (set_response (RespRedirect (Redirect (uuid l) (name l) (host l) (port l) (http_port l))) resp).

(** ** The handlers of requests: the response is the one passed in, changed *)

Definition append_log (m : Value) : crudM unit := raft_call (raft.append_log m RaftLog.database);; mret tt.

Definition handle_create (m : Value) (request : database_msg) (resp : database_response) : crudM database_response :=
  let '(k, v) := request_create request in
  if validate_value_size (strlen v) then mret (set_error MSG_VALUE_SIZE_TOO_LARGE resp)
  else if validate_key_size (strlen k) then mret (set_error MSG_KEY_SIZE_TOO_LARGE resp)
  else
    found ← storage_has (db_uuid (header request)) k;
    if (found : bool) then mret (set_error MSG_RECORD_EXISTS resp)
    else
      leader ← is_leader;
      when leader (append_log m);; mret resp.

Definition handle_read (request : database_msg) (resp : database_response) : crudM database_response :=
  let k := request_read request in
  record ← gets (λ s, read (db_uuid (header request)) k (storage s));
  match record with
  | Some v => mret (set_response (RespRead k v) resp)
  | None =>
      leader ← is_leader;
      if (leader : bool) then mret (set_error MSG_RECORD_NOT_FOUND resp) else set_leader_info resp
  end.

Definition handle_update (m : Value) (request : database_msg) (resp : database_response) : crudM database_response :=
  let '(k, v) := request_update request in
  if validate_value_size (strlen v) then mret (set_error MSG_VALUE_SIZE_TOO_LARGE resp)
  else
    found ← storage_has (db_uuid (header request)) k;
    if negb found then mret (set_error MSG_RECORD_NOT_FOUND resp)
    else
      leader ← is_leader;
      if (leader : bool) then append_log m;; mret resp else set_leader_info resp.

Definition handle_delete (m : Value) (request : database_msg) (resp : database_response) : crudM database_response :=
  leader ← is_leader;
  if negb leader then set_leader_info resp
  else
    found ← storage_has (db_uuid (header request)) (request_delete request);
    if (found : bool) then append_log m;; mret resp else mret (set_error MSG_RECORD_NOT_FOUND resp).

Definition handle_get_keys (request : database_msg) (resp : database_response) : crudM database_response :=
  keys ← gets (λ s, get_keys (db_uuid (header request)) (storage s));
  mret (set_response (RespKeys keys) resp).

Definition handle_has (request : database_msg) (resp : database_response) : crudM database_response :=
  let k := request_has request in
  found ← storage_has (db_uuid (header request)) k;
  mret (set_response (RespHas k found) resp).

(** [set_keys] and [set_bytes] take an [int32]. *)
Definition handle_size (request : database_msg) (resp : database_response) : crudM database_response :=
  ks ← gets (λ s, get_size (db_uuid (header request)) (storage s));
  mret (set_response (RespSize (to_int32 ks.2) (to_int32 ks.1)) resp).

(** ** Routing by the role of the node *)

(** The table [command_handlers]. *)
Definition command_handler (m : Value) (request : database_msg) (resp : database_response)
    : option (crudM database_response) :=
  match msg request with
  | DbCreate _ _ => Some (handle_create m request resp)
  | DbRead _ => Some (handle_read request resp)
  | DbUpdate _ _ => Some (handle_update m request resp)
  | DbDelete _ => Some (handle_delete m request resp)
  | DbKeys => Some (handle_get_keys request resp)
  | DbHas _ => Some (handle_has request resp)
  | DbSize => Some (handle_size request resp)
  | DbNotSet | DbSubscribe _ | DbUnsubscribe _ _ => None
  end.

Definition do_candidate_tasks (resp : database_response) : crudM database_response :=
  mret (set_error MSG_ELECTION_IN_PROGRESS resp).

Definition do_follower_tasks (m : Value) (request : database_msg) (resp : database_response) : crudM database_response :=
  match msg request with
  | DbRead _ | DbKeys | DbHas _ | DbSize => default (mret resp) (command_handler m request resp)
  | _ => set_leader_info resp
  end.

(** A request without a handler is dropped; the response goes out as it is. *)
Definition do_leader_tasks (m : Value) (request : database_msg) (resp : database_response) : crudM database_response :=
  default (mret resp) (command_handler m request resp).

Definition do_raft_task_routing (m : Value) (request : database_msg) (resp : database_response) (session : session_id)
    : crudM database_response :=
  match msg request with
  | DbSubscribe k =>
      λ s, let '(r, subs) := subscribe (db_uuid (header request)) k (transaction_id (header request)) resp session
                               (subscriptions s) in
           (Ok r, set_subscriptions subs s, [])
  | DbUnsubscribe k tx =>
      λ s, let '(r, subs) := unsubscribe (db_uuid (header request)) k tx resp session (subscriptions s) in
           (Ok r, set_subscriptions subs s, [])
  | _ =>
      state ← gets (λ s, raft.get_state (raft_node s));
      match state with
      | raft_state.leader => do_leader_tasks m request resp
      | raft_state.candidate => do_candidate_tasks resp
      | raft_state.follower => do_follower_tasks m request resp
      end
  end.

Definition handle_ws_crud_messages (ws_msg : Value) (session : session_id) : crudM unit :=
  has_msg ← lift (isMember ws_msg "msg");
  if negb has_msg then
    emit (SendMessage session (set_error MSG_INVALID_CRUD_COMMAND default_response) true)
  else
    v ← lift (member ws_msg "msg");
    encoded ← lift (asString v);
    match ParseFromString (base64_decode encoded) with
    | None => emit (SendMessage session (set_error MSG_INVALID_CRUD_COMMAND default_response) true)
    | Some (BznDb db) =>
        resp ← do_raft_task_routing ws_msg db (set_header (header db) default_response) session;
        emit (SendMessage session resp false)
    | Some _ => emit (SendMessage session (set_error MSG_INVALID_ARGUMENTS default_response) true)
    end.

(** ** Commits *)

Definition succeeded (r : storage_result) : bool := bool_decide (r = ok).

Definition commit_create (m : database_msg) : crudM bool :=
  let '(k, v) := request_create m in
  r ← storage_call (create (db_uuid (header m)) k v); mret (succeeded r).
Definition commit_update (m : database_msg) : crudM bool :=
  let '(k, v) := request_update m in
  r ← storage_call (update (db_uuid (header m)) k v); mret (succeeded r).
Definition commit_delete (m : database_msg) : crudM bool :=
  r ← storage_call (remove (db_uuid (header m)) (request_delete m)); mret (succeeded r).

(** The table [commit_handlers]. *)
Definition commit_handler_of (m : database_msg) : option (crudM bool) :=
  match msg m with
  | DbCreate _ _ => Some (commit_create m)
  | DbUpdate _ _ => Some (commit_update m)
  | DbDelete _ => Some (commit_delete m)
  | _ => None
  end.

(** The handler that [start] registers with Raft; [alive] tells which sessions
    can still be locked. *)
Definition commit_handler (alive : session_id → bool) (ws_msg : Value) : crudM bool :=
  v ← lift (member ws_msg "msg");
  if negb (isString v) then mret true
  else
    encoded ← lift (asString v);
    match ParseFromString (base64_decode encoded) with
    | Some (BznDb db) =>
        match commit_handler_of db with
        | Some handler =>
            done ← handler;
            when done (subscription_call (inspect_commit alive db))
        | None => mret tt
        end
    | _ => mret tt
    end;;
    mret true.

(** [registered]: what [node->register_for_message] returned; [call_once] runs
    its function again after an exception. *)
Definition start (registered : bool) : crudM unit :=
  started ← gets start_once;
  if (started : bool) then mret tt
  else
    emit (RegisterForMessage "database");;
    if negb registered then throw "Unable to register for DATABASE messages!"
    else
      raft_call raft.register_commit_handler;;
      subscription_call subscription_manager.start;;
      modify (λ s, RaftCrud (raft_node s) (storage s) (subscriptions s) true).

(** ** The node: Raft drives the commit handler

    The calls a Raft method makes, in their order; a commit runs the handler.
    (The handler is called in the middle of the Raft method, which reads
    neither the store nor the subscriptions.) *)
Fixpoint deliver (alive : session_id → bool) (es : list raft.effect) : crudM unit :=
  match es with
  | [] => mret tt
  | raft.Commit v :: es => commit_handler alive v;; deliver alive es
  | e :: es => emit (RaftEffect e);; deliver alive es
  end.

Definition drive (alive : session_id → bool) (m : M raft raft.effect unit) : crudM unit := λ s,
  (deliver alive (out m (raft_node s));; lift (res m (raft_node s))) (set_raft (post m (raft_node s)) s).

Inductive event :=
| RaftEvent (alive : session_id → bool) (e : raft_props.event)
| ClientMessage (ws_msg : Value) (session : session_id)
| PurgeTimeout (alive : session_id → bool) (ec : bool).

Definition handle_event (e : event) : crudM unit :=
  match e with
  | RaftEvent alive e => drive alive (raft_props.handle_event iteration e)
  | ClientMessage ws_msg session => handle_ws_crud_messages ws_msg session
  | PurgeTimeout alive ec => subscription_call (purge_closed_sessions alive ec)
  end.

(** A handler that throws ends there; the node goes on. *)
Fixpoint run (evs : list event) (s : raft_crud) : raft_crud :=
  match evs with
  | [] => s
  | e :: evs => run evs (post (handle_event e) s)
  end.

End Node.
End raft_crud.

(** ** The store is the committed part of the log *)
Module raft_crud_props.
Import storage_base crud_base raft_props raft_crud.

Section Runs.
Context {JS : Jsoncpp} {JL : JsoncppLaws} {BO : Boost} {SE : Security} {MA : Message audit_message} {MB : Message bzn_msg}.
Context (iteration : list peer_address_t → list peer_address_t).
Context {S : Type} {ST : Storage S}.

Abbreviation crudM := (M (raft_crud (S := S)) effect).
Abbreviation log_of s := (raft_log.log_entries (raft.log (raft_node s))).

(** The request a log message stands for, if it is one that is applied. *)
Definition logged_request (v : Value) : option database_msg :=
  match member v "msg" with
  | Ok x =>
      if isString x then
        match asString x with
        | Ok encoded =>
            match ParseFromString (base64_decode encoded) with
            | Some (BznDb db) => Some db
            | _ => None
            end
        | _ => None
        end
      else None
  | _ => None
  end.

Definition apply_entry (st : S) (v : Value) : S :=
  match logged_request v with Some r => crud.apply_request r st | None => st end.

(** The message is an object (or null): what the commit handler reads. *)
Definition readable (v : Value) : Prop := ∃ x, member v "msg" = Ok x.

(** The handler of a request does to the store what executing it does. *)
Lemma commit_handler_of_run db h s :
  commit_handler_of db = Some h →
  (∃ b, res h s = Ok b) ∧ post h s = set_storage (crud.apply_request db (storage s)) s.
Proof using.
  unfold commit_handler_of, crud.apply_request, commit_create, commit_update, commit_delete, request_create,
    request_update, request_delete.
  intros Hh. destruct (msg db) eqn:Hm; try done; injection Hh as <-; (split; [by eexists|]); by rewrite ?Hm.
Qed.

Lemma no_commit_handler db (st : S) : commit_handler_of (S := S) db = None → crud.apply_request db st = st.
Proof using. unfold commit_handler_of, crud.apply_request. by destruct (msg db). Qed.

Lemma inspect_commit_run alive db m :
  res (subscription_manager.inspect_commit alive db) m = Ok tt ∧ post (subscription_manager.inspect_commit alive db) m = m.
Proof using.
  unfold subscription_manager.inspect_commit. destruct (msg db); try done;
    edestruct subscription_manager.notify_sessions_run as (? & ? & _); split; eassumption.
Qed.

Lemma commit_handler_node alive v s : raft_node (post (commit_handler (S := S) alive v) s) = raft_node s.
Proof using.
  unfold commit_handler. rewrite post_bind, res_lift, post_lift. destruct (member v "msg") as [x| |]; [|done..].
  destruct (isString x); [|done]. cbn [negb]. rewrite post_bind, res_lift, post_lift.
  destruct (asString x) as [e| |]; [|done..]. destruct (ParseFromString _) as [[|db|]|]; try done.
  destruct (commit_handler_of db) as [h|] eqn:Hh; [|done].
  destruct (commit_handler_of_run _ _ s Hh) as [[b Hr] Hp]. autorewrite with run. rewrite Hr, Hp.
  destruct b; [|done]. unfold when, subscription_call, res, post; simpl. by destruct (_ : result unit).
Qed.

Lemma commit_handler_applies alive v s :
  readable v →
  res (commit_handler alive v) s = Ok true ∧
  storage (post (commit_handler alive v) s) = apply_entry (storage s) v.
Proof using JL.
  intros [x Hx]. unfold commit_handler, apply_entry, logged_request. rewrite post_bind, res_bind, res_lift, post_lift, Hx.
  destruct (isString x) eqn:Hs; [|done]. cbn [negb]. destruct (isString_asString x Hs) as [e He].
  rewrite post_bind, res_bind, res_lift, post_lift, He. destruct (ParseFromString _) as [[|db|]|]; try done.
  destruct (commit_handler_of db) as [h|] eqn:Hh; [|by rewrite (no_commit_handler db)].
  destruct (commit_handler_of_run _ _ s Hh) as [[b Hr] Hp]. autorewrite with run. rewrite Hr, Hp.
  destruct b; [|done]. unfold when, subscription_call, res, post; simpl.
  destruct (inspect_commit_run alive db (subscriptions s)) as [Hi _]. unfold res in Hi. by rewrite Hi.
Qed.

(** The calls of a Raft method, delivered: the committed messages are applied in
    their order, and Raft itself is not touched. *)
Lemma deliver_node alive es s : raft_node (post (deliver (S := S) alive es) s) = raft_node s.
Proof using.
  revert s. induction es as [|e es IH]; intros s; [done|].
  assert (raft_node (post (emit (RaftEffect e);; deliver (S := S) alive es) s) = raft_node s) as He by (rewrite post_bind, res_emit, post_emit; apply IH).
  destruct e; cbn [deliver]; try exact He. rewrite post_bind. destruct (res (commit_handler alive msg) s).
  - rewrite IH. apply commit_handler_node.
  - apply commit_handler_node.
  - apply commit_handler_node.
Qed.

Lemma deliver_applies alive es s :
  Forall readable (commits es) →
  storage (post (deliver alive es) s) = foldl apply_entry (storage s) (commits es).
Proof using JL.
  revert s. induction es as [|e es IH]; intros s; [done|].
  destruct e as [| | |v| | | | |]; cbn [deliver]; try (intros H; rewrite post_bind, res_emit, post_emit; apply IH, H).
  change (commits (raft.Commit v :: es)) with (v :: commits es). intros [Hv Hes]%Forall_cons.
  destruct (commit_handler_applies alive v s Hv) as [Hr Hp]. rewrite post_bind, Hr, IH, Hp by done. done.
Qed.

(** *** Clients do not touch the store, and commit nothing *)

Definition client_step : relation (raft_crud (S := S)) := λ s s',
  storage s' = storage s ∧ step (raft_node s) (raft_node s') [].

#[local] Instance client_step_preorder : PreOrder client_step.
Proof using.
  split; [intros s; split; [done|by apply log_step_refl]|].
  intros s1 s2 s3 [? H12] [? H23]. split; [congruence|]. by apply (log_step_trans _ (raft_node s2) _ [] []).
Qed.

Lemma client_append_log m : respects client_step (append_log (S := S) m).
Proof using.
  intros s. unfold append_log. autorewrite with run. unfold raft_call, res, post; simpl.
  assert (step (raft_node s) (post (raft.append_log m database) (raft_node s)) []) as H.
  { pose proof (keeps_append_log_unsafe m database (raft_node s)) as H. unfold raft.append_log.
    replace (out _ _) with (@nil raft.effect) in H; [done|].
    unfold raft.append_log_unsafe. rewrite out_bind, res_gets, post_gets. destruct (negb _); [done|].
    rewrite out_bind. unfold raft.log_call, res, out; simpl. by destruct (_ : result unit). }
  unfold post in H. by destruct (raft.append_log m database (raft_node s)) as [[[]?]?].
Qed.

Lemma client_set_leader_info resp : respects client_step (set_leader_info (S := S) iteration resp).
Proof using.
  intros s. unfold set_leader_info. rewrite post_bind. unfold raft_call, res, post; simpl.
  pose proof (pure_get_leader_unsafe iteration (raft_node s)) as Hp. unfold post in Hp. unfold raft.get_leader.
  rewrite <-Hp. assert (client_step s (set_raft (raft_node s) s)) by (split; [done|by apply log_step_refl]).
  by destruct (raft.get_leader_unsafe iteration (raft_node s)) as [[[]?]?].
Qed.

Ltac client_steps :=
  repeat first [apply client_append_log|apply client_set_leader_info|respects_step].

Lemma client_routing m request resp session :
  respects client_step (do_raft_task_routing (S := S) iteration m request resp session).
Proof using.
  unfold do_raft_task_routing, do_leader_tasks, do_follower_tasks, do_candidate_tasks, command_handler,
    handle_create, handle_read, handle_update, handle_delete, handle_get_keys, handle_has, handle_size, is_leader,
    storage_has.
  destruct (msg request); cbn [default from_option id]; try (client_steps; fail).
  - intros s. unfold post. destruct (subscription_manager.subscribe _ _ _ _ _ _). split; [done|by apply log_step_refl].
  - intros s. unfold post. destruct (subscription_manager.unsubscribe _ _ _ _ _ _). split; [done|by apply log_step_refl].
Qed.

Lemma client_messages ws_msg session : respects client_step (handle_ws_crud_messages (S := S) iteration ws_msg session).
Proof using.
  unfold handle_ws_crud_messages. repeat first [apply client_routing|respects_step].
Qed.

(** No handler runs into undefined behaviour, and the log stays below [2 ^ 32]
    entries. *)
Fixpoint regular (evs : list raft_crud.event) (s : raft_crud (S := S)) : Prop :=
  (raft_log.size (raft.log (raft_node s)) < 2 ^ 32)%N ∧
  match evs with
  | [] => True
  | e :: evs => res (raft_crud.handle_event iteration e) s ≠ Undefined ∧ regular evs (post (raft_crud.handle_event iteration e) s)
  end.

Abbreviation commit_of s := (raft.commit_index (raft_node s)).

(** The log is extended, and the store is changed by the entries that were
    committed. *)
Definition follows : relation (raft_crud (S := S)) := λ s s',
  (raft_log.size (raft.log (raft_node s')) < 2 ^ 32)%N → Forall readable (entry_msg <$> log_of s') →
  log_of s `prefix_of` log_of s' ∧
  (inv (raft_node s) → inv (raft_node s') ∧ (commit_of s ≤ commit_of s')%N ∧
   storage s' = foldl apply_entry (storage s) (entry_msg <$> slice (commit_of s) (commit_of s') (log_of s'))).

Lemma slice_nil i es : slice i i es = [].
Proof using. unfold slice. by rewrite Nat.sub_diag. Qed.

Lemma Forall_prefix {A B} (P : B → Prop) (f : A → B) l k : l `prefix_of` k → Forall P (f <$> k) → Forall P (f <$> l).
Proof using. intros [r ->]. rewrite fmap_app. by intros [??]%Forall_app. Qed.

Lemma Forall_slice {A} (P : A → Prop) (f : log_entry → A) i j es : Forall P (f <$> es) → Forall P (f <$> slice i j es).
Proof using. unfold slice. rewrite !Forall_fmap. intros H. by apply Forall_take, Forall_drop. Qed.

#[local] Instance follows_preorder : PreOrder follows.
Proof using.
  split.
  - intros s _ _. split; [done|]. intros Hi. split_and!; [done|lia|]. by rewrite slice_nil.
  - intros s1 s2 s3 H12 H23 Hlt Hr. destruct (H23 Hlt Hr) as [Hp23 Hc23]. pose proof (prefix_size _ _ Hp23).
    destruct H12 as [Hp12 Hc12]; [lia|by eapply Forall_prefix|].
    split; [by etrans|]. intros Hi. destruct (Hc12 Hi) as (Hi2 & Hle12 & H1). destruct (Hc23 Hi2) as (Hi3 & Hle23 & ->).
    split_and!; [done|lia|]. rewrite H1, (slice_app _ _ _ _ Hle12 Hle23), fmap_app, foldl_app.
    by rewrite (slice_prefix (commit_of s1) (commit_of s2) (log_of s2) (log_of s3)).
Qed.

Lemma client_follows s s' : client_step s s' → follows s s'.
Proof using.
  intros [Hs Hstep] Hlt _. destruct (Hstep Hlt) as [Hp Hc]. split; [done|]. intros Hi.
  destruct (Hc Hi) as (? & ? & Hcm). split_and!; [done..|]. rewrite <-Hcm. done.
Qed.

Lemma drive_follows alive m s :
  step (raft_node s) (post m (raft_node s)) (out m (raft_node s)) → follows s (post (drive (S := S) alive m) s).
Proof using JL.
  intros Hstep. unfold drive, post at 1. fold (post (deliver alive (out m (raft_node s));; lift (res m (raft_node s)))
    (set_raft (post m (raft_node s)) s)). set (s1 := set_raft _ s).
  assert (post (deliver alive (out m (raft_node s));; lift (res m (raft_node s))) s1 =
          post (deliver alive (out m (raft_node s))) s1) as ->.
  { rewrite post_bind. by destruct (res (deliver _ _) _). }
  intros Hlt Hr. rewrite deliver_node in *. change (raft_node s1) with (post m (raft_node s)) in *.
  destruct (Hstep Hlt) as [Hp Hc]. split; [done|]. intros Hi. destruct (Hc Hi) as (? & ? & Hcm). split_and!; [done..|].
  rewrite <-Hcm, deliver_applies; [done|]. rewrite Hcm. by apply Forall_slice.
Qed.

Lemma event_follows e s :
  (raft_log.size (raft.log (raft_node s)) < 2 ^ 32)%N → follows s (post (raft_crud.handle_event iteration e) s).
Proof using JL.
  intros Hlt. destruct e as [alive e|ws_msg session|alive ec]; cbn [raft_crud.handle_event].
  - by apply drive_follows, keeps_handle_event_at.
  - apply client_follows, client_messages.
  - apply client_follows. split; [done|by apply log_step_refl].
Qed.

Lemma run_follows evs s :
  regular evs s → follows s (raft_crud.run iteration evs s) ∧
  (raft_log.size (raft.log (raft_node (raft_crud.run iteration evs s))) < 2 ^ 32)%N.
Proof using JL.
  revert s. induction evs as [|e evs IH]; intros s; cbn [regular raft_crud.run]; [by intros [? _]|].
  intros (Hs & _ & Hevs). destruct (IH _ Hevs) as [? ?]. split; [|done]. etrans; [by apply event_follows|done].
Qed.

(** *** Applying entries, replaying them, and the abstract map *)

(** The type of an entry is the one that [deduce_type_from_message] finds. *)
Definition well_typed (e : log_entry) : Prop :=
  ∃ x, member (entry_msg e) "msg" = Ok x ∧ (entry_type e = database ↔ isString x = true).

Lemma replay_applies es (st : S) :
  Forall well_typed es → raft.replay es st = Ok (foldl apply_entry st (entry_msg <$> es)).
Proof using JL.
  intros Hes. revert st. induction Hes as [|e es (x & Hx & Ht) _ IH]; intros st; [done|]. cbn [raft.replay fmap list_fmap foldl].
  assert (raft.replay_entry e st = Ok (apply_entry st (entry_msg e))) as ->; [|apply IH].
  unfold raft.replay_entry, apply_entry, logged_request. rewrite Hx. case_decide as He.
  - rewrite (proj1 Ht He). destruct (isString_asString x (proj1 Ht He)) as [s ->].
    destruct (ParseFromString _) as [[|db|]|]; done.
  - by destruct (isString x); [destruct He; apply Ht|].
Qed.

Definition apply_entry_spec (m : storage_spec.contents) (v : Value) : storage_spec.contents :=
  match logged_request v with Some r => crud_spec.apply_request r m | None => m end.

Section Refinement.
Context (valid_uuid : uuid_t → Prop) (wf : S → Prop) (R : S → storage_spec.contents → Prop)
  {Href : StorageRefines S valid_uuid wf R} {Hrel : ReliableStorage S valid_uuid}.

Definition valid_entry (v : Value) : Prop :=
  match logged_request v with Some r => valid_uuid (db_uuid (header r)) | None => True end.

Lemma apply_entries_refines vs st m :
  wf st → R st m → Forall valid_entry vs →
  wf (foldl apply_entry st vs) ∧ R (foldl apply_entry st vs) (foldl apply_entry_spec m vs).
Proof using Href Hrel.
  intros Hw HR Hvs. revert st m Hw HR. induction Hvs as [|v vs Hv _ IH]; intros st m Hw HR; [done|].
  simpl. unfold apply_entry at 2 4, apply_entry_spec at 2. unfold valid_entry in Hv.
  destruct (logged_request v) as [r|]; [|by apply IH].
  destruct (crud_spec.apply_request_refines valid_uuid wf R r st m Hw HR Hv). by apply IH.
Qed.
End Refinement.

(** *** What a client is answered, and what is appended *)

(** The answer to a request and whether it goes to the log, over the abstract
    map: the leader appends exactly what the map would accept, and refuses with
    the code of the map; a follower answers reads and points to the leader. *)
Definition outcome (state : raft_state.raft_state) (redirect : redirect_info) (request : database_msg)
    (m : storage_spec.contents) : option (database_result * bool) :=
  let u := db_uuid (header request) in
  let code (r : storage_result) :=
    match crud.error_message r with Some e => (RespError e, false) | None => (RespNotSet, true) end in
  match state, msg request with
  | _, (DbNotSet | DbKeys | DbSize | DbSubscribe _ | DbUnsubscribe _ _) => None
  | raft_state.candidate, _ => Some (RespError MSG_ELECTION_IN_PROGRESS, false)
  | _, DbHas k => Some (RespHas k (bool_decide (is_Some (m !! (u, k)))), false)
  | raft_state.follower, DbRead k =>
      Some (match m !! (u, k) with Some v => RespRead k v | None => RespRedirect redirect end, false)
  | raft_state.leader, DbRead k =>
      Some (match m !! (u, k) with Some v => RespRead k v | None => RespError MSG_RECORD_NOT_FOUND end, false)
  | raft_state.follower, _ => Some (RespRedirect redirect, false)
  | raft_state.leader, DbCreate k v => Some (code (storage_spec.create u k v m).1)
  | raft_state.leader, DbUpdate k v => Some (code (storage_spec.update u k v m).1)
  | raft_state.leader, DbDelete k => Some (code (storage_spec.remove u k m).1)
  end.

(** The log can be written: its stream is open, or its directory is there or
    can be made. *)
Definition writable (l : raft_log.raft_log) : bool :=
  match raft_log.log_entry_out_stream l with
  | raft_log.Closed => raft_log.parent_exists (raft_log.log_disk l) || raft_log.can_create_parent (raft_log.log_disk l)
  | _ => true
  end.

Lemma append_writable e l : writable l = true → res (raft_log.leader_append_entry e) l = Ok tt.
Proof using. destruct l as [es n mx [| |c] [f [] []]]; done. Qed.

(** The entry that a message becomes. *)
Definition new_entry (ws_msg : Value) (r : raft.raft) : log_entry :=
  LogEntry database (u32 (raft_log.size (raft.log r))) (raft.current_term r) ws_msg.

Lemma append_log_run ws_msg (s : raft_crud (S := S)) :
  writable (raft.log (raft_node s)) = true → raft.current_state (raft_node s) = raft_state.leader →
  ∃ s', append_log ws_msg s = (Ok tt, s', []) ∧ storage s' = storage s ∧
        log_of s' = log_of s ++ [new_entry ws_msg (raft_node s)].
Proof using.
  intros Hw Hl. set (e := new_entry ws_msg (raft_node s)).
  exists (set_raft (post (raft.append_log ws_msg database) (raft_node s)) s).
  assert (raft.append_log ws_msg database (raft_node s) =
    (Ok true, raft.set_log (raft.commit_index (raft_node s)) (post (raft_log.leader_append_entry e) (raft.log (raft_node s)))
                (raft_node s), [])) as Hrun.
  { unfold raft.append_log, raft.append_log_unsafe, gets, mbind, M_bind, id. rewrite Hl. cbn [bool_decide negb].
    rewrite bool_decide_true by done. cbn [negb]. unfold raft.log_call. by rewrite (append_writable _ _ Hw). }
  unfold append_log, raft_call, mbind, M_bind, res, post, out. rewrite Hrun. split_and!; [done..|].
  simpl. apply leader_append_memory.
Qed.

Definition redirect_to (l : peer_address_t) : redirect_info := Redirect (uuid l) (name l) (host l) (port l) (http_port l).

Lemma set_leader_info_run resp l (s : raft_crud (S := S)) :
  res (raft.get_leader iteration) (raft_node s) = Ok l →
  ∃ s', set_leader_info iteration resp s = (Ok (set_response (RespRedirect (redirect_to l)) resp), s', []) ∧
        storage s' = storage s ∧ log_of s' = log_of s.
Proof using.
  intros Hl. exists (set_raft (raft_node s) s). unfold set_leader_info, raft_call, mbind, M_bind, res, post, out.
  unfold raft.get_leader in *. rewrite (raft_props.query_get_leader_unsafe iteration (raft_node s)), Hl. done.
Qed.

Section Answers.
Context (valid_uuid : uuid_t → Prop) (wf : S → Prop) (R : S → storage_spec.contents → Prop)
  {Href : StorageRefines S valid_uuid wf R} {Hrel : ReliableStorage S valid_uuid}.

Abbreviation reply_to request x := (DbResponse (header request) x).
Abbreviation fresh request := (set_header (header request) default_response).

(** The handler ends in [s'], with the store as it was and the log extended if
    the request was appended; [resp] is the response it was given. *)
Definition ends (ws_msg : Value) (resp : database_response) (s : raft_crud (S := S)) (m : crudM database_response)
    (out : database_result * bool) : Prop :=
  ∃ s', m s = (Ok (set_response out.1 resp), s', []) ∧ storage s' = storage s ∧
        log_of s' = log_of s ++ if out.2 then [new_entry ws_msg (raft_node s)] else [].

Lemma ends_ret ws_msg resp s x : ends ws_msg resp s (mret (set_response x resp)) (x, false).
Proof using. exists s. split_and!; [done..|]. by rewrite app_nil_r. Qed.

Lemma ends_gets {A} ws_msg resp s (f : raft_crud (S := S) → A) k x :
  ends ws_msg resp s (k (f s)) x → ends ws_msg resp s (gets f ≫= k) x.
Proof using. unfold ends. by rewrite run_gets. Qed.

Lemma ends_append ws_msg resp s :
  raft.current_state (raft_node s) = raft_state.leader → writable (raft.log (raft_node s)) = true →
  response resp = RespNotSet → ends ws_msg resp s (append_log ws_msg;; mret resp) (RespNotSet, true).
Proof using.
  intros Hl Hw Hresp. destruct (append_log_run ws_msg s Hw Hl) as (s' & Hrun & ? & ?). exists s'.
  split_and!; [|done..]. rewrite (run_bind _ _ _ _ _ Hrun). destruct resp as [h x]. simpl in *. by subst x.
Qed.

Lemma ends_redirect ws_msg resp s l :
  res (raft.get_leader iteration) (raft_node s) = Ok l →
  ends ws_msg resp s (set_leader_info iteration resp) (RespRedirect (redirect_to l), false).
Proof using.
  intros Hl. unfold ends. destruct (set_leader_info_run resp l s Hl) as (s' & -> & ? & ?). exists s'.
  split_and!; [done..|]. by rewrite app_nil_r.
Qed.

Section Routing.
Context (ws_msg : Value) (request : database_msg) (resp : database_response) (l : peer_address_t)
  (m : storage_spec.contents) (s : raft_crud (S := S)).
Context (Hresp : response resp = RespNotSet).
Context (Hw : wf (storage s)) (HR : R (storage s) m) (Hu : valid_uuid (db_uuid (header request))).
Context (Hl : res (raft.get_leader iteration) (raft_node s) = Ok l) (Hwr : writable (raft.log (raft_node s)) = true).

Ltac reads_map := rewrite ?(refines_has _ _ _ _ Hw HR Hu), ?(refines_read _ _ _ _ Hw HR Hu).

Lemma leader_outcome x :
  raft.current_state (raft_node s) = raft_state.leader →
  outcome raft_state.leader (redirect_to l) request m = Some x →
  ends ws_msg resp s (do_leader_tasks iteration ws_msg request resp) x.
Proof using Hresp Hw HR Hu Hwr Href Hrel.
  intros Hs. unfold outcome, do_leader_tasks, command_handler, handle_create, handle_read, handle_update, handle_delete,
    handle_has, storage_has, is_leader, storage_spec.create, storage_spec.update, storage_spec.remove, request_create,
    request_read, request_update, request_delete, request_has, raft.get_state, validate_value_size, validate_key_size.
  pose proof (ends_append ws_msg resp s Hs Hwr Hresp) as Happend. pose proof (ends_ret ws_msg resp s) as Hret.
  destruct (msg request) as [|k v|k|k v|k|k| | | |]; try done; intros [= <-]; cbn [default from_option id].
  - destruct (_ <? _)%N; [apply Hret|]. destruct (_ <? _)%N; [apply Hret|]. apply ends_gets. reads_map.
    destruct (m !! _); [apply Hret|]. apply ends_gets. by rewrite Hs.
  - apply ends_gets. reads_map. destruct (m !! _); [apply Hret|]. apply ends_gets. rewrite Hs. apply Hret.
  - destruct (_ <? _)%N; [apply Hret|]. apply ends_gets. reads_map.
    destruct (m !! _); [|apply Hret]. apply ends_gets. by rewrite Hs.
  - apply ends_gets. rewrite Hs. apply ends_gets. reads_map. destruct (m !! _); [apply Happend|apply Hret].
  - apply ends_gets. reads_map. apply Hret.
Qed.

Lemma follower_outcome x :
  raft.current_state (raft_node s) = raft_state.follower →
  outcome raft_state.follower (redirect_to l) request m = Some x →
  ends ws_msg resp s (do_follower_tasks iteration ws_msg request resp) x.
Proof using Hw HR Hu Hl Href.
  intros Hs. unfold outcome, do_follower_tasks, command_handler, handle_read, handle_has, storage_has, is_leader,
    request_read, request_has, raft.get_state.
  pose proof (ends_redirect ws_msg resp s l Hl) as Hredirect. pose proof (ends_ret ws_msg resp s) as Hret.
  destruct (msg request) as [|k v|k|k v|k|k| | | |]; try done; intros [= <-]; cbn [default from_option id]; try done.
  - apply ends_gets. reads_map. destruct (m !! _); [apply Hret|]. apply ends_gets. by rewrite Hs.
  - apply ends_gets. reads_map. apply Hret.
Qed.

Lemma routing_outcome session x :
  outcome (raft.current_state (raft_node s)) (redirect_to l) request m = Some x →
  ends ws_msg resp s (do_raft_task_routing iteration ws_msg request resp session) x.
Proof using Hresp Hw HR Hu Hl Hwr Href Hrel.
  intros Ho. unfold do_raft_task_routing. unfold outcome in Ho.
  destruct (msg request) eqn:Hm; try (by destruct (raft.current_state _)).
  all: apply ends_gets; unfold raft.get_state; destruct (raft.current_state (raft_node s)) eqn:Hs;
    [injection Ho as <-; apply ends_ret|apply follower_outcome; [done|]|apply leader_outcome; [done|]];
    unfold outcome; by rewrite Hm.
Qed.

Lemma message_outcome session x encoded :
  resp = fresh request → isMember ws_msg "msg" = Ok true → member ws_msg "msg" = Ok encoded →
  (∃ e, asString encoded = Ok e ∧ ParseFromString (base64_decode e) = Some (BznDb request)) →
  outcome (raft.current_state (raft_node s)) (redirect_to l) request m = Some x →
  ∃ s', handle_ws_crud_messages iteration ws_msg session s =
          (Ok tt, s', [SendMessage session (reply_to request x.1) false]) ∧
        storage s' = storage s ∧
        log_of s' = log_of s ++ if x.2 then [new_entry ws_msg (raft_node s)] else [].
Proof using Hresp Hw HR Hu Hl Hwr Href Hrel.
  intros Hf Hmem Hv (e & He & Hp) (s' & Hrun & Hst & Hlog)%(routing_outcome session). exists s'.
  split_and!; [|done..]. unfold handle_ws_crud_messages. rewrite Hmem, run_lift. cbn [negb].
  rewrite Hv, run_lift, He, run_lift, Hp. by rewrite <-Hf, (run_bind _ _ _ _ _ Hrun), Hf.
Qed.
End Routing.
End Answers.
End Runs.
End raft_crud_props.

(** ** Claims *)

Section Claims.
Import storage_base raft_props raft_crud raft_crud_props.
Context {JS : Jsoncpp} {JL : JsoncppLaws} {BO : Boost} {SE : Security} {MA : Message audit_message} {MB : Message bzn_msg}.
Context (iteration : list peer_address_t → list peer_address_t).
Context {S : Type} {ST : Storage S}.
Context (valid_uuid : uuid_t → Prop) (wf : S → Prop) (R : S → storage_spec.contents → Prop)
  {Href : StorageRefines S valid_uuid wf R} {Hrel : ReliableStorage S valid_uuid}.

Abbreviation log_of s := (raft_log.log_entries (raft.log (raft_node s))).
Abbreviation commit_of s := (raft.commit_index (raft_node s)).

(** C20: The store of a node is the committed part of its log: in every run of
    Raft events, requests of clients and purges, the store is what replaying
    the entries that were committed meanwhile makes of the store at the start,
    and it stands for the map that the logged requests lead to.  So two nodes
    that have committed the same entries hold the same records, whatever clients
    asked them.  (The entries are typed the way [deduce_type_from_message] types
    them.) *)
Theorem raft_crud_store_follows_log (evs : list raft_crud.event) (s0 : raft_crud) (m0 : storage_spec.contents) :
  raft_crud_props.regular iteration evs s0 → raft_props.inv (raft_node s0) → wf (storage s0) → R (storage s0) m0 →
  let s := raft_crud.run iteration evs s0 in
  Forall well_typed (log_of s) → Forall (valid_entry valid_uuid) (entry_msg <$> log_of s) →
  let committed := slice (commit_of s0) (commit_of s) (log_of s) in
  log_of s0 `prefix_of` log_of s ∧ (commit_of s0 ≤ commit_of s)%N ∧
  raft.replay committed (storage s0) = Ok (storage s) ∧
  R (storage s) (foldl apply_entry_spec m0 (entry_msg <$> committed)).
Proof.
  intros Hr Hi Hw HR s Ht Hv committed. destruct (run_follows iteration evs s0 Hr) as [Hf Hlt].
  destruct (Hf Hlt) as [Hp Hc]. { rewrite Forall_fmap. eapply Forall_impl; [exact Ht|]. intros e (x & ? & _). by exists x. }
  destruct (Hc Hi) as (_ & Hle & Hst). split_and!; [done|done|..].
  - rewrite replay_applies by (unfold committed, slice; by apply Forall_take, Forall_drop).
    unfold committed, s. by rewrite Hst.
  - unfold committed, s. rewrite Hst. eapply (apply_entries_refines valid_uuid wf R); [done..|]. by apply Forall_slice.
Qed.

(** C23: A well-formed request for a record is answered with exactly one message
    and never changes the store; it is appended to the log, once and as the
    message the client sent, exactly when this node is the leader and the store
    as it is would accept the write, and a refused write gets the error the
    store would give.  A follower answers reads from its store and otherwise
    points to the leader. *)
Theorem raft_crud_answers_as_map (ws_msg : Value) (request : database_msg) (session : session_id) (encoded : Value)
    (e : string) (l : peer_address_t) (m : storage_spec.contents) (x : database_result) (appended : bool)
    (s : raft_crud (S := S)) :
  wf (storage s) → R (storage s) m → valid_uuid (db_uuid (header request)) →
  res (raft.get_leader iteration) (raft_node s) = Ok l → writable (raft.log (raft_node s)) = true →
  isMember ws_msg "msg" = Ok true → member ws_msg "msg" = Ok encoded →
  asString encoded = Ok e → ParseFromString (base64_decode e) = Some (BznDb request) →
  outcome (raft.current_state (raft_node s)) (redirect_to l) request m = Some (x, appended) →
  let s' := post (handle_ws_crud_messages iteration ws_msg session) s in
  out (handle_ws_crud_messages iteration ws_msg session) s = [SendMessage session (DbResponse (header request) x) false] ∧
  storage s' = storage s ∧
  log_of s' = log_of s ++ if appended then [new_entry ws_msg (raft_node s)] else [].
Proof.
  intros Hw HR Hu Hl Hwr Hmem Hv He Hp Ho.
  destruct (message_outcome iteration valid_uuid wf R ws_msg request (set_header (header request) default_response) l m s eq_refl
    Hw HR Hu Hl Hwr session (x, appended) encoded eq_refl Hmem Hv) as (s' & Hrun & ? & ?); [by exists e|done|].
  unfold post, out. by rewrite Hrun.
Qed.
End Claims.

(** *** Examples: a leader with an in-memory store *)
Module sample_node.
Import json_tree letters raft_props sample_swarm raft_crud.

#[global] Instance codec : Message bzn_msg := countable_message bzn_msg.

Definition client_message (m : database_msg) : Value :=
  Obj [("bzn-api", Str "database"); ("msg", Str (base64_encode (SerializeAsString (BznDb m))))]%string.

Definition create_request : database_msg := DbMsg (DbHeader "d" 1) (DbCreate "k" "v").

Definition start_node : raft_crud (S := mem_storage.mem_storage) :=
  RaftCrud (sample_swarm.node "a") mem_storage.empty subscription_manager.empty true.

Definition all_alive (s : session_id) : bool := true.

Definition history : list raft_crud.event :=
  (RaftEvent all_alive <$> election) ++ [ClientMessage (client_message create_request) 5] ++
  (RaftEvent all_alive <$> drop 1 replication).

Abbreviation handle := (raft_crud.handle_event (BO := letters_boost) (SE := sample_swarm.security) (MA := no_audit) id).
Abbreviation run := (raft_crud.run (BO := letters_boost) (SE := sample_swarm.security) (MA := no_audit) id).

Fixpoint regularb (evs : list raft_crud.event) (s : raft_crud (S := mem_storage.mem_storage)) : bool :=
  (raft_log.size (raft.log (raft_node s)) <? 2 ^ 32)%N &&
  match evs with
  | [] => true
  | e :: evs => defined (res (handle e) s) && regularb evs (post (handle e) s)
  end.

Lemma crud_regularb_spec evs s :
  regularb evs s = true →
  raft_crud_props.regular (BO := letters_boost) (SE := sample_swarm.security) (MA := no_audit) id evs s.
Proof.
  revert s. induction evs as [|e evs IH]; intros s; cbn [regularb raft_crud_props.regular];
    rewrite andb_true_iff; intros [H1%N.ltb_lt H2]; (split; [done|]); [done|].
  apply andb_true_iff in H2 as [? ?]. split; [by apply defined_spec|by apply IH].
Qed.

(** The type of every entry, decided. *)
Definition typedb (e : log_entry) : bool :=
  match member (entry_msg e) "msg" with
  | Ok x => Bool.eqb (bool_decide (entry_type e = database)) (isString x)
  | _ => false
  end.

Lemma typedb_spec es : forallb typedb es = true → Forall raft_crud_props.well_typed es.
Proof.
  rewrite forallb_forall. intros H. apply Forall_forall. intros e He%list_elem_of_In%H. unfold typedb in He.
  destruct (member _ _) as [x| |] eqn:Hx; [|done..]. exists x. split; [done|].
  apply eqb_prop in He. rewrite <-He. symmetry. apply bool_decide_eq_true.
Qed.

Definition finish : raft_crud := run history start_node.

(** The same node once it is the leader, before the client's message. *)
Definition leader : raft_crud := run (RaftEvent all_alive <$> election) start_node.
Definition leader_peer : peer_address_t :=
  match res (raft.get_leader id) (raft_node leader) with Ok l => l | _ => sample_swarm.peer "" end.

Lemma start_inv : raft_props.inv (raft_node start_node).
Proof. apply N.leb_le. vm_compute. reflexivity. Qed.

Lemma empty_represents : mem_storage.represents mem_storage.empty ∅.
Proof. intros u k. reflexivity. Qed.
End sample_node.
Import json_tree sample_swarm letters raft_crud sample_node.

Example raft_crud_store_follows_log_witness :
  regularb history start_node = true ∧ raft.commit_index (raft_node finish) = 2%N ∧
  raft.replay (raft_props.slice 1 (raft.commit_index (raft_node finish)) (raft_log.log_entries (raft.log (raft_node finish))))
    mem_storage.empty = Ok (storage finish).
Proof.
  assert (regularb history start_node = true) as Hr by (vm_compute; reflexivity).
  split_and!; [exact Hr|vm_compute; reflexivity|].
  apply (raft_crud_store_follows_log id (λ _, True) (λ _, True) mem_storage.represents history start_node ∅
           (crud_regularb_spec _ _ Hr) start_inv I empty_represents).
  - apply typedb_spec. vm_compute. reflexivity.
  - apply Forall_true. intros v. unfold raft_crud_props.valid_entry. destruct (raft_crud_props.logged_request v); exact I.
Defined.

Example raft_crud_answers_as_map_witness :
  storage (post (raft_crud.handle_ws_crud_messages id (client_message create_request) 5) leader) = storage leader ∧
  out (raft_crud.handle_ws_crud_messages id (client_message create_request) 5) leader =
    [SendMessage 5 (DbResponse (DbHeader "d" 1) RespNotSet) false].
Proof.
  destruct (raft_crud_answers_as_map id (λ _, True) (λ _, True) mem_storage.represents (client_message create_request)
    create_request 5 (Str (base64_encode (SerializeAsString (BznDb create_request))))
    (base64_encode (SerializeAsString (BznDb create_request))) leader_peer ∅ RespNotSet true leader) as (Ho & Hs & _);
    [exact I| |exact I| | | | |reflexivity| | |exact (conj Hs Ho)].
  - intros u k. vm_compute. reflexivity.
  - assert (returns (res (raft.get_leader id) (raft_node leader)) = true) as H by (vm_compute; reflexivity).
    unfold leader_peer. destruct (res (raft.get_leader id) (raft_node leader)); [reflexivity|discriminate..].
  - vm_compute. reflexivity.
  - reflexivity.
  - reflexivity.
  - vm_compute. reflexivity.
  - vm_compute. reflexivity.
Defined.
