(* ===== verification/RaftErrors.v ===== *)
(** * What the handlers of a Raft node can end with

    A handler runs into no undefined behaviour unless a peer asks a follower to
    look behind its log, a reply comes to a quorum of fewer than two, or a
    signature does not fit its buffer; and none of the errors by which the code
    guards its own indices ever leaves a handler.  Two of the three are shown to
    be reached by messages that the program itself sends. *)

From S2P Require Import Prelude Messages Storage Crud Subscriptions Json RaftLog Raft RaftProps Replication RaftCrud.
Import raft_log raft_state raft_base raft raft_props.

(** What Raft relies on when it asks whether a peer may join: the checks answer or
    throw, a signature at least when it is [checkable]. *)
Class SecurityThrows {SE : Security} := {
  security_error : string → Prop;
  checkable : string → Prop;
  key_throws : throws_only security_error retrieve_bluzelle_public_key_from_contract;
  verify_throws key sig u : checkable sig → throws_only security_error (verify_signature key sig u);
  is_blacklisted_throws u : throws_only security_error (is_blacklisted u)
}.

Module raft_errors.
Section Errors.
Context {JS : Jsoncpp} {BO : Boost} {SE : Security} {MA : Message audit_message}.
Context {JT : JsoncppThrows} {ST : SecurityThrows}.
Context (iteration : list peer_address_t → list peer_address_t).
Implicit Types s : raft.
Abbreviation raftM := (M raft effect).

(** The exceptions that leave a handler: of the libraries; of a log without a
    quorum, which only a file can bring; of a missing commit handler; of a state
    directory that cannot be made; and those by which a node gives up joining. *)
Definition raft_error (w : string) : Prop :=
  w = "Invalid argument" ∨ json_error w ∨ security_error w ∨
  w ∈ [MSG_NO_PEERS_IN_LOG; "bad_function_call"; MSG_EXITING_DUE_TO_LOG_PATH_CREATION_FAILURE;
       ERROR_BOOTSTRAP_LIST_MUST_HAVE_MORE_THAN_ONE_PEER; ERROR_PEER_BLACKLISTED; ERROR_UNABLE_TO_ADD_PEER_TO_SWARM]%string.

(** The range of the election timer is not empty, which is so until the product of
    the timeout scale wraps around in 32 bits. *)
Definition timer_in_range (s : raft) : Prop :=
  (u32 (DEFAULT_HEARTBEAT_TIMER_LEN * 3 * timeout_scale s) ≤ u32 (DEFAULT_ELECTION_TIMER_LEN * timeout_scale s))%N.

Abbreviation answers m := (answers (St := raft) (Ef := effect) timer_in_range raft_error m).
Abbreviation safe := (@safe raft effect _ raft_error).

Lemma own_error w :
  w ∈ [MSG_NO_PEERS_IN_LOG; "bad_function_call"; MSG_EXITING_DUE_TO_LOG_PATH_CREATION_FAILURE;
       ERROR_BOOTSTRAP_LIST_MUST_HAVE_MORE_THAN_ONE_PEER; ERROR_PEER_BLACKLISTED; ERROR_UNABLE_TO_ADD_PEER_TO_SWARM]%string →
  raft_error w.
Proof using. unfold raft_error. auto. Qed.

(** ** Reading *)

Lemma answers_json {A} (r : result A) : throws_only json_error r → answers (lift r).
Proof using. intros Hr. apply answers_lift. eapply throws_only_weaken, Hr. unfold raft_error. auto. Qed.
Lemma answers_security {A} (r : result A) : throws_only security_error r → answers (lift r).
Proof using. intros Hr. apply answers_lift. eapply throws_only_weaken, Hr. unfold raft_error. auto. Qed.
Lemma answers_endpoint p : answers (lift (make_endpoint p)).
Proof using. apply answers_lift, make_endpoint_throws. by left. Qed.
#[local] Hint Resolve answers_endpoint : answers.
#[local] Hint Extern 1 (Prelude.answers _ _ (lift _)) => apply answers_json; solve [auto with safe] : answers.

Lemma answers_path ks v : answers (path ks v).
Proof using. revert v. induction ks as [|k ks IH]; intros v; cbn [path]; answers_steps. Qed.
#[local] Hint Resolve answers_path : answers.
Lemma answers_get_string ks v : answers (get_string ks v).
Proof using. unfold get_string. answers_steps. Qed.
Lemma answers_get_uint ks v : answers (get_uint ks v).
Proof using. unfold get_uint. answers_steps. Qed.
Lemma answers_get_bool ks v : answers (get_bool ks v).
Proof using. unfold get_bool. answers_steps. Qed.
#[local] Hint Resolve answers_get_string answers_get_uint answers_get_bool : answers.

(** The last quorum of the log is one. *)
Lemma last_quorum_is_quorum l e : last_quorum_entry l = Ok e → entry_type e = single_quorum ∨ entry_type e = joint_quorum.
Proof using.
  unfold last_quorum_entry. destruct (List.find _ _) as [e'|] eqn:E; [|done]. intros [= <-].
  by apply find_some in E as [_ ?%bool_decide_eq_true].
Qed.

Lemma answers_last_quorum : answers last_quorum.
Proof using.
  unfold last_quorum. answers_step; [answers_step|]. apply answers_lift. unfold last_quorum_entry.
  destruct (List.find _ _); [done|]. apply own_error. left.
Qed.
#[local] Hint Resolve answers_last_quorum : answers.

Lemma answers_peer_uuids ps : answers (peer_uuids ps).
Proof using. induction ps as [|p ps IH]; cbn [peer_uuids]; answers_steps. Qed.
#[local] Hint Resolve answers_peer_uuids : answers.

Lemma last_quorum_type s e : res last_quorum s = Ok e → entry_type e = single_quorum ∨ entry_type e = joint_quorum.
Proof using. apply last_quorum_is_quorum. Qed.

Lemma answers_get_active_quorum : answers get_active_quorum.
Proof using.
  apply answers_bind_ok; [answers_steps|]. intros s e [-> | ->]%last_quorum_type; answers_steps.
Qed.
#[local] Hint Resolve answers_get_active_quorum : answers.

Lemma answers_is_majority votes : answers (is_majority votes).
Proof using. unfold is_majority. answers_steps. Qed.
Lemma answers_in_quorum u : answers (in_quorum u).
Proof using. unfold in_quorum. answers_steps. Qed.
Lemma answers_insert_peers ps l : answers (insert_peers ps l).
Proof using. revert l. induction ps as [|p ps IH]; intros l; cbn [insert_peers]; unfold peer_of_json; answers_steps. Qed.
#[local] Hint Resolve answers_is_majority answers_in_quorum answers_insert_peers : answers.
Lemma answers_get_all_peers : answers (get_all_peers iteration).
Proof using. unfold get_all_peers. answers_steps. Qed.
#[local] Hint Resolve answers_get_all_peers : answers.
Lemma answers_get_leader_unsafe : answers (get_leader_unsafe iteration).
Proof using. unfold get_leader_unsafe. answers_steps. Qed.
Lemma answers_has_peer ps u : answers (has_peer ps u).
Proof using. induction ps as [|p ps IH]; cbn [has_peer]; answers_steps. Qed.
Lemma answers_other_peers ps u : answers (other_peers ps u).
Proof using. induction ps as [|p ps IH]; cbn [other_peers]; answers_steps. Qed.
Lemma answers_deduce_type v : answers (deduce_type_from_message v).
Proof using. unfold deduce_type_from_message. answers_steps. Qed.
#[local] Hint Resolve answers_get_leader_unsafe answers_has_peer answers_other_peers answers_deduce_type : answers.

(** ** Sending *)

#[local] Hint Extern 1 (timer_in_range _) => assumption : answers.
Lemma answers_start_election_timer : answers start_election_timer.
Proof using.
  intros s Hs. split; [|by rewrite <-(pure_start_election_timer s)]. unfold start_election_timer.
  rewrite !res_bind, res_emit, post_emit, res_gets, post_gets. by rewrite (proj2 (N.leb_le _ _) Hs).
Qed.
Lemma answers_start_heartbeat_timer : answers start_heartbeat_timer.
Proof using. unfold start_heartbeat_timer. answers_steps. Qed.
Lemma answers_update_raft_state t st : answers (update_raft_state t st).
Proof using. unfold update_raft_state. answers_steps. Qed.
Lemma answers_send_to_all v : answers (send_to_all iteration v).
Proof using. unfold send_to_all. answers_steps. Qed.
#[local] Hint Resolve answers_start_election_timer answers_start_heartbeat_timer answers_update_raft_state answers_send_to_all : answers.
Lemma answers_notify_leader_status : answers (notify_leader_status iteration).
Proof using. unfold notify_leader_status. answers_steps. Qed.
Lemma answers_notify_commit c o : answers (notify_commit iteration c o).
Proof using. unfold notify_commit. answers_steps. Qed.
Lemma answers_match_index u : answers (match_index u).
Proof using. unfold match_index. answers_steps. by destruct (peer_match_index _ !! u). Qed.
#[local] Hint Resolve answers_notify_leader_status answers_notify_commit answers_match_index : answers.
Lemma answers_match_indices us : answers (match_indices us).
Proof using. induction us as [|u us IH]; cbn [match_indices]; answers_steps. Qed.
#[local] Hint Resolve answers_match_indices : answers.

(** What [attempt] runs may throw anything. *)
Lemma answers_attempt (m : raftM unit) : Prelude.answers timer_in_range (λ _, True) m → answers (attempt m).
Proof using.
  intros Hm s Hs. specialize (Hm s Hs). unfold attempt, res, post, throws_only in *. by destruct (m s) as [[[]?]?], Hm.
Qed.

Lemma attempted {A} (m : raftM A) : answers m → Prelude.answers timer_in_range (λ _, True) m.
Proof using. intros Hm s Hs. destruct (Hm s Hs) as [Ht ?]. split; [by eapply throws_only_weaken, Ht|done]. Qed.

Lemma entry_at_throws (E : string → Prop) i l : E "vector::_M_range_check"%string → throws_only E (entry_at i l).
Proof using. unfold entry_at. by destruct (_ !! _). Qed.

Lemma answers_request_append_entries : answers (request_append_entries iteration).
Proof using.
  unfold request_append_entries. answers_steps. apply answers_attempt. unfold request_append_entry.
  answers_steps; first [by apply answers_lift, entry_at_throws|by apply answers_lift, make_endpoint_throws
    |apply attempted; auto with answers].
Qed.
#[local] Hint Resolve answers_request_append_entries : answers.

(** ** The log and its commits *)

Lemma answers_append_disk e : Prelude.answers (λ _, True) raft_error (append_log_disk e).
Proof using.
  unfold append_log_disk, open_stream. answers_steps. apply own_error. do 2 right. left.
Qed.
#[local] Hint Resolve answers_append_disk : answers.
Lemma answers_leader_append e : Prelude.answers (λ _, True) raft_error (leader_append_entry e).
Proof using. unfold leader_append_entry. answers_steps. Qed.
Lemma answers_log_call {A} (m : M raft_log unit A) : Prelude.answers (λ _, True) raft_error m → answers (log_call m).
Proof using. intros Hm s Hs. split; [by apply Hm|exact Hs]. Qed.
Lemma answers_append_log_unsafe v t : answers (append_log_unsafe v t).
Proof using. unfold append_log_unsafe. answers_steps. apply answers_log_call, answers_leader_append. Qed.
#[local] Hint Resolve answers_append_log_unsafe : answers.

Lemma answers_perform_commit e : answers (perform_commit iteration e).
Proof using.
  unfold perform_commit, create_single_quorum_from_joint_quorum. answers_steps. apply own_error. right. left.
Qed.

Lemma lookup_below i l : (i < lengthN l)%N → ∃ e : log_entry, l !! N.to_nat i = Some e.
Proof using. intros Hi. apply lookup_lt_is_Some_2. unfold lengthN in Hi. lia. Qed.

Lemma safe_entry_at i l (Q : log_entry → raft → Prop) s :
  (i < size l)%N → (∀ e, Q e s) → safe (lift (entry_at i l)) Q s.
Proof using. intros [e He]%lookup_below HQ. unfold entry_at. rewrite He. apply HQ. Qed.

(** What is known when a method returns. *)
Lemma safe_call {A} (m : raftM A) (Q : A → raft → Prop) s :
  answers m → timer_in_range s → (∀ a, res m s = Ok a → timer_in_range (post m s) → Q a (post m s)) → safe m Q s.
Proof using.
  intros Hm Hs HQ. destruct (Hm s Hs) as [Ht Hp]. unfold Prelude.safe, throws_only in *. destruct (res m s); auto.
Qed.

(** Every turn of the loop finds its entry, and there is fuel for all of them. *)
Lemma safe_commit_until fuel bound (Q : unit → raft → Prop) s :
  timer_in_range s → (bound ≤ size (log s))%N → (bound < 2 ^ 32)%N → N.to_nat (bound - commit_index s) ≤ fuel →
  (∀ s', timer_in_range s' → Q tt s') → safe (commit_until iteration fuel bound) Q s.
Proof using.
  intros Ht Hb Hlt Hf HQ. revert s Ht Hb Hf.
  induction fuel as [|fuel IH]; intros s Ht Hb Hf; cbn [commit_until]; safe_steps; cbn [id];
    (destruct (N.ltb_spec (commit_index s) bound) as [Hc|Hc]; [|by apply HQ]); [lia|].
  safe_step. apply safe_entry_at; [lia|]. intros e. safe_step.
  apply safe_call; [apply answers_perform_commit|done|]. intros [] Hok Ht'.
  destruct (perform_commit_index iteration s e Hok) as [Hi Hs]. rewrite u32_small in Hi by lia.
  apply IH; [done|lia|]. rewrite Hi. lia.
Qed.

Lemma safe_commit_from fuel i leader_commit (Q : unit → raft → Prop) s :
  timer_in_range s → current_state s ≠ raft_state.leader →
  N.to_nat (N.min (size (log s)) leader_commit - i) ≤ fuel → (∀ s', timer_in_range s' → Q tt s') →
  safe (commit_from iteration fuel i leader_commit) Q s.
Proof using.
  intros Ht Hs Hf HQ. revert i s Ht Hs Hf.
  induction fuel as [|fuel IH]; intros i s Ht Hs Hf; cbn [commit_from]; safe_steps; cbn [id];
    (destruct (N.ltb_spec i (N.min (size (log s)) leader_commit)) as [Hc|Hc]; [|by apply HQ]); [lia|].
  safe_step. apply safe_entry_at; [lia|]. intros e. safe_step.
  apply safe_call; [apply answers_perform_commit|done|]. intros [] _ Ht'.
  destruct (replication.perform_commit_follower iteration e s Hs) as [Hl Hst].
  apply IH; [done|congruence|]. rewrite Hl. lia.
Qed.

(** ** AppendEntries *)

Lemma path_app ks ks' v x s : res (path ks v : raftM Value) s = Ok x → res (path (ks ++ ks') v : raftM Value) s = res (path ks' x) s.
Proof using.
  revert v. induction ks as [|k ks IH]; intros v; cbn [path app]; [by intros [= ->]|]. rewrite !res_bind, !res_lift, !post_lift.
  destruct (member v k); [apply IH|done..].
Qed.
Lemma safe_answers {A} (m : raftM A) s : timer_in_range s → answers m → safe m (λ _ _, True) s.
Proof using. intros Hs Hm. by apply safe_call. Qed.

Lemma safe_answers_query {A} (m : raftM A) (Q : A → raft → Prop) s :
  query m → answers m → timer_in_range s → (∀ a, res m s = Ok a → Q a s) → safe m Q s.
Proof using. intros Hq Hm Hs. apply safe_query; [done|by apply Hm]. Qed.

(** The next step reads. *)
#[local] Ltac safe_read := try safe_step; apply safe_answers_query; [solve [auto with query]|solve [auto with answers]|assumption|].

(** An entry is accepted behind the last one only, where there is room for it. *)
Lemma safe_follower_insert prev_index prev_term e (Q : unit → raft → Prop) s :
  (size (log s) < 2 ^ 32)%N → (prev_index < size (log s))%N → entry_accepted prev_index prev_term (log s) = Ok true →
  (∀ l, Q tt (set_log (commit_index s) l s)) →
  safe (log_call (follower_insert_entry (u32 (prev_index + 1)) e)) Q s.
Proof using.
  intros Hlt Hp Ha HQ. unfold entry_accepted in Ha. fold (size (log s)) in Ha.
  destruct (N.ltb_spec prev_index (sub64 (size (log s)) 1)) as [|Hge]; [done|]. rewrite sub64_small in Hge by lia.
  replace (u32 (prev_index + 1)) with (size (log s)) by (rewrite u32_small by lia; lia).
  assert (throws_only raft_error (res (follower_insert_entry (size (log s)) e) (log s))) as Ht.
  { unfold follower_insert_entry. rewrite res_bind, res_gets, post_gets.
    rewrite (proj2 (lookup_ge_None _ _)) by (unfold size, lengthN; lia).
    unfold size. rewrite N.eqb_refl. by apply (answers_bind (λ _, True) raft_error (modify _)); [|intros _; apply answers_append_disk|]. }
  unfold safe, throws_only, log_call, res, post in *. cbn [fst snd].
  destruct (follower_insert_entry (size (log s)) e (log s)).1.1 as [[]| |]; [apply HQ|exact Ht..].
Qed.

(** The reply, the commits and the timer of a follower. *)
Lemma safe_append_reply session msg msg_index accepted s :
  timer_in_range s → current_state s ≠ raft_state.leader →
  safe (s ← gets id;
        let match_index := N.min (size (log s)) (msg_index + 1) in
        emit (SessionSend session
          (create_append_entries_response (uuid s) (current_term s) accepted (u32 match_index)) true);;
        leader_commit ← get_uint ["data"; "commitIndex"]%string msg;
        when (accepted && (commit_index s <? leader_commit)%N)
          (commit_from iteration (N.to_nat (N.min (size (log s)) leader_commit - commit_index s))
             (commit_index s) leader_commit);;
        modify (λ s, set_match (<[leader s := leader_commit]> (peer_match_index s)) s);;
        start_election_timer) (λ _ _, True) s.
Proof using.
  intros Ht Hs. safe_steps. cbn [id]. safe_steps. safe_read. intros lc _.
  safe_step. apply safe_when; intros _; [apply safe_commit_from; [done..|intros s' Ht']|]; safe_step; safe_step;
    (apply safe_answers; [assumption|auto with answers]).
Qed.

Definition prev_index_in_log (msg : Value) (s : raft) : Prop :=
  ∀ p, res (get_uint ["data"; "prevIndex"]%string msg) s = Ok p → (p < size (log s))%N.

Lemma safe_handle_ws_append_entries msg session s :
  timer_in_range s → (size (log s) < 2 ^ 32)%N → (∀ t, res (get_uint ["data"; "term"]%string msg) s = Ok t → (t ≤ current_term s)%N) →
  prev_index_in_log msg s →
  safe (handle_ws_append_entries iteration msg session) (λ _ _, True) s.
Proof using.
  intros Ht Hlt Hterm Hp. unfold handle_ws_append_entries. safe_step.
  safe_read. intros t Hle%Hterm. safe_steps. cbn [id].
  apply (safe_mono raft_error _ (λ _ s', log s' = log s ∧ current_state s' = current_state s ∧ timer_in_range s')).
  { destruct (in_a_swarm s); [by apply safe_ret|]. safe_step.
    safe_read. intros from _. by safe_steps. }
  intros [] s1 (Hl1 & Hs1 & Ht1). rewrite (proj2 (N.leb_le _ _) Hle), andb_true_r.
  destruct (bool_decide _ || bool_decide _) eqn:Hrole.
  { apply safe_answers; [done|answers_steps]. }
  apply orb_false_iff in Hrole as [_ Hnl%bool_decide_eq_false].
  safe_read. intros from _. do 2 safe_step.
  assert (log (set_leader from s1) = log s) as Hl by done.
  assert (current_state (set_leader from s1) ≠ raft_state.leader) as Hs by (by rewrite <-Hs1 in Hnl).
  assert (timer_in_range (set_leader from s1)) as Hti by done.
  revert Hl Hs Hti. generalize (set_leader from s1). clear s1 Hl1 Hs1 Ht1. intros s1 Hl Hs Hti.
  safe_read. intros prev_term _.
  safe_read. intros prev_index Hprev.
  rewrite (replication.get_uint_any_state _ _ s1 s) in Hprev. apply Hp in Hprev.
  safe_read. intros entry_term _.
  safe_step. apply safe_lift.
  { unfold entry_accepted. destruct (_ <? _)%N; [done|]. by destruct (lookup_below _ _ Hprev) as [? ->]. }
  intros accepted Ha. safe_step. apply safe_when; intros Hacc; [|by apply safe_append_reply].
  safe_read. intros es _.
  apply safe_when; intros _; [|by apply safe_append_reply].
  safe_read. intros ty _.
  rewrite <-Hl in Hlt, Hprev, Ha. subst accepted. eapply safe_follower_insert; [done..|]. intros l. by apply safe_append_reply.
Qed.

(** ** Replies *)

(** Two and more have a median. *)
Lemma median_defined l : 2 ≤ length l → ∃ m, median l = Some m.
Proof using.
  intros Hl. apply lookup_lt_is_Some_2. rewrite (merge_sort_Permutation N.le l), Nat.div2_div.
  apply Nat.Div0.div_lt_upper_bound; lia.
Qed.

Lemma min_median_defined qs r s : Forall (λ q : gset uuid_t, 2 ≤ base.size q) qs → ∃ v, res (min_median qs r) s = Ok v.
Proof using.
  intros Hqs. revert r s. induction Hqs as [|q qs Hq _ IH]; intros r s; cbn [min_median]; [by eexists|].
  destruct (match_indices_run (base.elements q) s) as [Hr _]. rewrite res_bind, Hr.
  destruct (median_defined (matched s <$> base.elements q)) as [m ->]; [by rewrite length_fmap|]. apply IH.
Qed.

Definition quorums_of_two (s : raft) : Prop :=
  ∀ qs, res get_active_quorum s = Ok qs → Forall (λ q : gset uuid_t, 2 ≤ base.size q) qs.

Definition same_scale : relation raft := λ s s', timeout_scale s' = timeout_scale s.
#[local] Instance same_scale_preorder : PreOrder same_scale.
Proof using. split; [done|]. intros ??? H H'. unfold same_scale in *. congruence. Qed.

Lemma last_majority_scale : respects same_scale last_majority_replicated_log_index.
Proof using.
  assert (∀ u, respects same_scale (match_index u)) as Hm.
  { intros u. unfold match_index. method_steps. by destruct (peer_match_index _ !! u). }
  assert (∀ us, respects same_scale (match_indices us)) as Hs by (induction us; cbn [match_indices]; method_steps).
  unfold last_majority_replicated_log_index. method_step; [method_steps|]. generalize (2 ^ 32 - 1)%N as r. revert a.
  intros qs. induction qs as [|q qs IH]; intros r; cbn [min_median]; method_steps.
Qed.

Lemma safe_last_majority s :
  timer_in_range s → quorums_of_two s →
  safe last_majority_replicated_log_index (λ _ s', log s' = log s ∧ timer_in_range s') s.
Proof using.
  intros Hs Hq. eapply safe_and; [apply safe_result|].
  - unfold last_majority_replicated_log_index. rewrite res_bind, <-(pure_get_active_quorum s).
    destruct (answers_get_active_quorum s Hs) as [Ha _]. destruct (res get_active_quorum s) as [qs| |] eqn:E; [|done..].
    by destruct (min_median_defined qs (2 ^ 32 - 1) s (Hq qs E)) as [v ->].
  - intros v _ [Hv _]. destruct (last_majority_run s v Hv) as [[Hl _] _]. split; [done|].
    unfold timer_in_range. by rewrite (last_majority_scale s).
Qed.

Lemma safe_handle_append_response msg s :
  timer_in_range s → (size (log s) < 2 ^ 32)%N → quorums_of_two s →
  safe (handle_request_append_entries_response iteration msg) (λ _ _, True) s.
Proof using.
  intros Ht Hlt Hq. unfold handle_request_append_entries_response. safe_steps. cbn [id].
  destruct (negb _); [done|]. safe_read. intros m _. safe_step.
  apply safe_answers_query; [destruct (_ <? _)%N; auto with query|answers_steps|done|]. intros t _.
  destruct (_ || _); [done|]. safe_read. intros from _. safe_read. intros m' _. do 2 safe_step.
  set (s1 := set_match _ s). safe_read. intros success _. destruct success; [|done]. cbn [negb]. safe_step.
  eapply safe_mono; [apply safe_last_majority; [done|]|].
  { intros qs Hqs. apply Hq. by rewrite (reads_log_get_active_quorum s1 s). }
  intros last s2 [Hl Ht2]. change (log s1) with (log s) in Hl. safe_steps. cbn [id].
  destruct (N.ltb_spec (size (log s2)) last) as [|Hle]; [done|]. apply safe_commit_until; [done|done| |done|done].
  rewrite Hl in Hle. lia.
Qed.

(** ** The other handlers *)

Lemma choose_some ps pick : ps ≠ [] → ∃ p, choose_any_one_of ps pick = Some p.
Proof using.
  intros Hps. apply lookup_lt_is_Some_2. assert (lengthN ps ≠ 0%N) by (unfold lengthN; destruct ps; [done|simpl; lia]).
  pose proof (N.mod_lt pick (lengthN ps)). unfold lengthN in *. lia.
Qed.

Lemma answers_auto_add_peer pick : answers (auto_add_peer_if_required iteration pick).
Proof using.
  unfold auto_add_peer_if_required. answers_steps.
  - apply own_error. by do 3 right; left.
  - destruct (choose_some (p :: l) pick) as [q Hq]; [done|congruence].
Qed.
#[local] Hint Resolve answers_auto_add_peer : answers.

Lemma answers_request_vote_request : answers (request_vote_request iteration).
Proof using.
  unfold request_vote_request. answers_steps. apply answers_attempt, attempted. answers_steps.
Qed.
#[local] Hint Resolve answers_request_vote_request : answers.

Lemma answers_handle_request_vote_response msg : answers (handle_request_vote_response iteration msg).
Proof using. unfold handle_request_vote_response. answers_steps. Qed.
Lemma answers_handle_ws_request_vote msg session : answers (handle_ws_request_vote msg session).
Proof using. unfold handle_ws_request_vote. answers_steps. Qed.
Lemma answers_handle_later_term cmd t msg session : answers (handle_later_term cmd t msg session).
Proof using. unfold handle_later_term. answers_steps. Qed.
Lemma answers_handle_earlier_term t : answers (handle_earlier_term t).
Proof using. unfold handle_earlier_term. answers_steps. Qed.
Lemma answers_send_error session e : answers (send_session_error_message session e).
Proof using. unfold send_session_error_message. answers_steps. Qed.
Lemma answers_send_success session c m : answers (send_success_message session c m).
Proof using. unfold send_success_message. answers_steps. Qed.
#[local] Hint Resolve answers_handle_request_vote_response answers_handle_ws_request_vote answers_handle_later_term
  answers_handle_earlier_term answers_send_error answers_send_success : answers.

Lemma answers_handle_remove_peer_message msg session : answers (handle_remove_peer_message msg session).
Proof using.
  unfold handle_remove_peer_message, handle_remove_peer, create_joint_quorum_by_removing_peer. answers_steps.
Qed.
Lemma answers_handle_get_peers session : answers (handle_get_peers iteration session).
Proof using. unfold handle_get_peers. answers_steps. Qed.
Lemma answers_add_self : answers (add_self_to_swarm iteration).
Proof using.
  unfold add_self_to_swarm. answers_steps.
  all: first [apply answers_security, is_blacklisted_throws|apply own_error; set_solver].
Qed.
#[local] Hint Resolve answers_handle_remove_peer_message answers_handle_get_peers answers_add_self : answers.
Lemma answers_handle_get_peers_response pick msg : answers (handle_get_peers_response iteration pick msg).
Proof using.
  unfold handle_get_peers_response, handle_get_peers_response_from_follower_or_candidate,
    handle_get_peers_response_from_leader. answers_steps.
Qed.
#[local] Hint Resolve answers_handle_get_peers_response : answers.

(** ** Peers that join *)

Definition checkable_peer (peer : Value) : Prop :=
  ∀ sig s, res (get_string ["signature"]%string peer : raftM string) s = Ok sig → checkable sig.

Lemma answers_validate session peer : checkable_peer peer → answers (validate_new_peer session peer).
Proof using.
  intros Hp. unfold validate_new_peer. answers_step; [auto with answers|]. answers_step; [auto with answers|].
  destruct a0; cbn [negb orb]; [|answers_steps]. apply answers_bind_ok; [auto with answers|]. intros s sig Hsig%Hp.
  answers_steps; apply answers_security; auto using key_throws, verify_throws, is_blacklisted_throws.
Qed.

Lemma safe_handle_add_peer session peer s :
  timer_in_range s → (enable_peer_validation s = true → checkable_peer peer) → safe (handle_add_peer session peer) (λ _ _, True) s.
Proof using.
  intros Ht Hv. unfold handle_add_peer. do 2 safe_step. destruct (negb _); [apply safe_answers; auto with answers|].
  safe_read. intros q _. destruct (decide _); [apply safe_answers; auto with answers|].
  safe_read. intros peers _. safe_step.
  apply safe_answers_query; [destruct (elements peers); auto with query|answers_steps|done|]. intros u _.
  safe_read. intros known _. destruct known; [apply safe_answers; auto with answers|].
  safe_read. intros has _. safe_step.
  apply safe_answers_query; [destruct has; auto with query|answers_steps|done|]. intros u' _.
  destruct (_ || _); [apply safe_answers; auto with answers|]. do 2 safe_step.
  unfold create_joint_quorum_by_adding_peer.
  destruct (enable_peer_validation s); (apply safe_answers; [done|answers_steps]). apply answers_validate, Hv. done.
Qed.

Lemma safe_handle_add_peer_message msg session s :
  timer_in_range s → (enable_peer_validation s = true →
   ∀ sig s, res (get_string ["data"; "peer"; "signature"]%string msg : raftM string) s = Ok sig → checkable sig) →
  safe (handle_add_peer_message msg session) (λ _ _, True) s.
Proof using.
  intros Ht Hv. unfold handle_add_peer_message. safe_read. intros response _.
  destruct response; [apply safe_answers; [done|answers_steps]|]. safe_read. intros peer Hpeer.
  apply safe_handle_add_peer; [done|]. intros Hon sig s' Hsig. apply (Hv Hon sig s'). revert Hsig.
  rewrite (replication.path_any_state _ _ s s') in Hpeer. unfold get_string. rewrite !res_bind, <-!(pure_path _ _ s').
  pose proof (path_app ["data"; "peer"]%string ["signature"]%string msg peer s' Hpeer) as E. cbn [app] in E. by rewrite E.
Qed.

(** ** Events *)

(** A message that does not take the node to one of the three places. *)
Definition harmless (msg : Value) (s : raft) : Prop :=
  ∀ cmd, res (get_string ["cmd"]%string msg : raftM string) s = Ok cmd →
    (cmd = "AppendEntries"%string → prev_index_in_log msg s) ∧
    (cmd = "AppendEntriesReply"%string → quorums_of_two s) ∧
    (cmd = "add_peer"%string → enable_peer_validation s = true →
     ∀ sig s', res (get_string ["data"; "peer"; "signature"]%string msg : raftM string) s' = Ok sig → checkable sig).

Lemma safe_handle_ws_raft_messages pick msg session s :
  timer_in_range s → (size (log s) < 2 ^ 32)%N → harmless msg s →
  safe (handle_ws_raft_messages iteration pick msg session) (λ _ _, True) s.
Proof using.
  intros Hti Hlt Hm. unfold handle_ws_raft_messages. safe_step.
  apply (safe_mono raft_error _ (λ _ s', s' = s)); [unfold shutdown_on_exceeded_max_storage; by safe_steps|]. intros [] ? ->.
  safe_read. intros cmd Hcmd. destruct (Hm cmd Hcmd) as (Hap & Hre & Had).
  case_bool_decide; [by apply safe_handle_add_peer_message, Had|].
  case_bool_decide; [apply safe_answers; auto with answers|].
  case_bool_decide; [apply safe_answers; auto with answers|].
  case_bool_decide; [apply safe_answers; auto with answers|].
  safe_read. intros from _. safe_read. intros member _. destruct member; [|done]. cbn [negb].
  safe_read. intros term Hterm. do 2 safe_step.
  destruct (N.eqb_spec (current_term s) term) as [Ht|_]; [|destruct (_ <? _)%N; apply safe_answers; auto with answers].
  unfold handle_current_term. case_bool_decide; [apply safe_answers; auto with answers|].
  case_bool_decide; [apply safe_handle_ws_append_entries; auto; intros t; rewrite Hterm; intros [= <-]; lia|].
  case_bool_decide; [|case_bool_decide; [apply safe_answers; [done|answers_steps]|done]].
  safe_step. eapply safe_mono; [apply safe_handle_append_response; auto|]. by intros [] s' _.
Qed.

Definition harmless_event (e : event) (s : raft) : Prop :=
  match e with Receive _ msg _ => harmless msg s | _ => True end.

Lemma safe_raft_event e s :
  timer_in_range s → (size (log s) < 2 ^ 32)%N → harmless_event e s → safe (handle_event iteration e) (λ _ _, True) s.
Proof using.
  intros Ht Hlt He. destruct e; cbn [handle_event]; [by apply safe_handle_ws_raft_messages|..];
    (apply safe_answers; [done|]).
  - unfold handle_election_timeout. answers_steps.
  - unfold handle_heartbeat_timeout. answers_steps.
  - unfold append_log. answers_steps.
  - unfold start. answers_steps.
  - unfold register_commit_handler. answers_steps.
  - unfold set_audit_enabled. answers_steps.
Qed.

(** A run of such events is one in which nothing is undefined. *)
Fixpoint harmless_run (evs : list event) (s : raft) : Prop :=
  timer_in_range s ∧ (size (log s) < 2 ^ 32)%N ∧
  match evs with
  | [] => True
  | e :: evs => harmless_event e s ∧ harmless_run evs (post (handle_event iteration e) s)
  end.

Lemma harmless_regular evs s : harmless_run evs s → regular iteration evs s.
Proof using JT ST.
  revert s. induction evs as [|e evs IH]; intros s; cbn [harmless_run regular]; [by intros (_ & ? & _)|].
  intros (Hti & Hs & He & Hevs). split_and!; [done| |by apply IH].
  pose proof (safe_throws_only _ _ _ _ (safe_raft_event e s Hti Hs He)) as Ht.
  intros E. by rewrite E in Ht.
Qed.
End Errors.
End raft_errors.

(** ** The node: Raft, the store and the subscriptions *)
Module raft_crud_errors.
Import raft_errors raft_crud.
Section Errors.
Context {JS : Jsoncpp} {BO : Boost} {SE : Security} {MA : Message audit_message} {MB : Message bzn_msg}.
Context {JT : JsoncppThrows} {ST : SecurityThrows}.
Context (iteration : list peer_address_t → list peer_address_t).
Context {S : Type} {STO : storage_base.Storage S}.

Abbreviation crudM := (M (raft_crud (S := S)) effect).
Abbreviation in_range := (λ s : raft_crud (S := S), timer_in_range (raft_node s)).
Abbreviation answers m := (Prelude.answers (St := raft_crud (S := S)) (Ef := effect) in_range raft_error m).
(** What the commit handlers do does not involve the timer. *)
Abbreviation delivers m := (Prelude.answers (St := raft_crud (S := S)) (Ef := effect) (λ _, True) raft_error m).

Lemma answers_raft_call {A} (m : M raft.raft raft.effect A) : Prelude.answers timer_in_range raft_error m → answers (raft_call m).
Proof using. intros Hm s. apply Hm. Qed.
Lemma answers_storage_call f : answers (storage_call f).
Proof using. by intros s. Qed.
Lemma answers_subscription_call {A} (m : M subscription_manager.subscription_manager subscription_manager.effect A) :
  Prelude.answers (λ _, True) raft_error m → answers (subscription_call m).
Proof using. intros Hm s Hs. split; [by apply Hm|exact Hs]. Qed.
Lemma delivers_storage_call f : delivers (storage_call f).
Proof using. by intros s. Qed.
Lemma delivers_subscription_call {A} (m : M subscription_manager.subscription_manager subscription_manager.effect A) :
  Prelude.answers (λ _, True) raft_error m → delivers (subscription_call m).
Proof using. intros Hm s Hs. split; [by apply Hm|done]. Qed.
Lemma answers_inspect_commit alive m : Prelude.answers (λ _, True) raft_error (subscription_manager.inspect_commit alive m).
Proof using.
  unfold subscription_manager.inspect_commit, subscription_manager.notify_sessions, subscription_manager.notify_session.
  answers_steps.
Qed.
Lemma answers_crud_json {A} I (r : result A) :
  throws_only json_error r → Prelude.answers (St := raft_crud (S := S)) (Ef := effect) I raft_error (lift r).
Proof using. intros Hr. apply answers_lift. eapply throws_only_weaken, Hr. unfold raft_error. auto. Qed.
#[local] Hint Resolve answers_storage_call answers_inspect_commit answers_subscription_call delivers_storage_call
  delivers_subscription_call : answers.
#[local] Hint Extern 1 (Prelude.answers _ _ (lift _)) => apply answers_crud_json; solve [auto with safe] : answers.

(** *** Requests of clients *)

Lemma answers_append_log m : answers (append_log m).
Proof using. unfold append_log. answers_steps. apply answers_raft_call, answers_append_log_unsafe. Qed.
Lemma answers_set_leader_info resp : answers (set_leader_info iteration resp).
Proof using. unfold set_leader_info. answers_steps. apply answers_raft_call, answers_get_leader_unsafe. Qed.
#[local] Hint Resolve answers_append_log answers_set_leader_info : answers.

Lemma answers_routing m request resp session : answers (do_raft_task_routing iteration m request resp session).
Proof using.
  unfold do_raft_task_routing, do_leader_tasks, do_follower_tasks, do_candidate_tasks, command_handler, handle_create,
    handle_read, handle_update, handle_delete, handle_get_keys, handle_has, handle_size, is_leader, storage_has.
  destruct (msg request); cbn [default from_option id]; answers_steps; cbn [default from_option id]; answers_steps;
    intros s Hs; unfold res, post; by case_match.
Qed.
#[local] Hint Resolve answers_routing : answers.

Lemma answers_messages ws_msg session : answers (handle_ws_crud_messages iteration ws_msg session).
Proof using. unfold handle_ws_crud_messages. answers_steps. Qed.

(** *** Commits *)

Lemma answers_commit_handler_of m h : commit_handler_of m = Some h → delivers h.
Proof using.
  unfold commit_handler_of, commit_create, commit_update, commit_delete, request_create, request_update.
  destruct (msg m); intros [= <-]; answers_steps.
Qed.
Lemma answers_commit_handler alive v : delivers (commit_handler alive v).
Proof using. unfold commit_handler. answers_steps. by eapply answers_commit_handler_of. Qed.
#[local] Hint Resolve answers_commit_handler : answers.

Lemma answers_deliver alive es : delivers (deliver alive es).
Proof using. induction es as [|[] es IH]; cbn [deliver]; answers_steps. Qed.

(** *** Events *)

Definition harmless_event (e : event) (s : raft_crud (S := S)) : Prop :=
  match e with RaftEvent _ e => raft_errors.harmless_event e (raft_node s) | _ => True end.

Lemma handle_event_throws e s :
  timer_in_range (raft_node s) → (size (raft.log (raft_node s)) < 2 ^ 32)%N → harmless_event e s →
  throws_only raft_error (res (raft_crud.handle_event iteration e) s).
Proof using.
  intros Hti Hlt He. destruct e as [alive e|ws_msg session|alive ec]; cbn [raft_crud.handle_event].
  - pose proof (safe_throws_only _ _ _ _ (safe_raft_event iteration e _ Hti Hlt He)) as Hr.
    refine (proj1 (answers_bind (λ _, True) raft_error (deliver alive _) _ _ _ (set_raft _ s) I)); [apply answers_deliver|].
    intros _. by apply answers_lift.
  - by apply answers_messages.
  - unfold subscription_manager.purge_closed_sessions. apply answers_subscription_call; [|done]. answers_steps.
Qed.

(** A run of such events is one in which nothing is undefined. *)
Fixpoint harmless_run (evs : list event) (s : raft_crud (S := S)) : Prop :=
  timer_in_range (raft_node s) ∧ (size (raft.log (raft_node s)) < 2 ^ 32)%N ∧
  match evs with
  | [] => True
  | e :: evs => harmless_event e s ∧ harmless_run evs (post (raft_crud.handle_event iteration e) s)
  end.

Lemma harmless_node_regular evs s : harmless_run evs s → raft_crud_props.regular iteration evs s.
Proof using JT ST.
  revert s. induction evs as [|e evs IH]; intros s; cbn [harmless_run raft_crud_props.regular]; [by intros (_ & ? & _)|].
  intros (Hti & Hs & He & Hevs). split_and!; [done| |by apply IH]. pose proof (handle_event_throws e s Hti Hs He) as Ht.
  intros E. by rewrite E in Ht.
Qed.
End Errors.
End raft_crud_errors.

Section Claims.
Context {JS : Jsoncpp} {BO : Boost} {SE : Security} {MA : Message audit_message} {MB : Message bzn_msg}.
Context {JT : JsoncppThrows} {ST : SecurityThrows}.
Context (iteration : list peer_address_t → list peer_address_t) {S : Type} {STO : storage_base.Storage S}.
Import raft_errors.

(** C18: What a handler of a Raft node can end with, in any state whose log has fewer
    than 2^32 entries and whose timeout scale does not empty the range of the election
    timer.  If an AppendEntries does not name an index behind the log, a reply does not
    come to a quorum of fewer than two peers, and the signature that comes with a new
    peer fits its buffer, then no message, request of a client, timer or purge runs into
    undefined behaviour: every loop ends, every index is in range, a draw always finds a
    peer.  What is thrown is an exception of a library, or one of six of its own: that
    an index is out of range, that an entry does not fit, or that the last quorum is no
    quorum never leaves a handler. *)
Theorem raft_handlers_defined (e : raft_crud.event) (s : raft_crud.raft_crud (S := S)) :
  timer_in_range (raft_crud.raft_node s) → (size (raft.log (raft_crud.raft_node s)) < 2 ^ 32)%N →
  raft_crud_errors.harmless_event e s →
  throws_only raft_error (res (raft_crud.handle_event iteration e) s).
Proof using. apply raft_crud_errors.handle_event_throws. Qed.
End Claims.

(** *** Examples *)
Module sample_errors.
Import json_tree letters sample_swarm raft_errors.
#[local] Existing Instances tree_json tree_json_laws tree_json_throws letters_boost security no_audit.

#[refine] Instance security_throws : SecurityThrows := {| security_error _ := False; checkable _ := True |}.
Proof. all: done. Defined.

Lemma quorums_two : Forall (λ q : gset uuid_t, 2 ≤ base.size q) quorums.
Proof. apply (bool_decide_unpack _). vm_compute. reflexivity. Qed.

(** A node whose Raft is the leader of three, and the reply that makes it commit. *)
Definition waiting : raft_crud.raft_crud (S := mem_storage.mem_storage) :=
  raft_crud.RaftCrud waiting_node mem_storage.empty subscription_manager.empty true.
Definition acknowledged : raft_crud.event := raft_crud.RaftEvent sample_node.all_alive (Receive 0 sample_swarm.reply 8).

Example raft_handlers_defined_witness :
  timer_in_range waiting_node ∧ (size (log waiting_node) < 2 ^ 32)%N ∧
  throws_only raft_error (res (raft_crud.handle_event id acknowledged) waiting).
Proof.
  assert (size (log waiting_node) < 2 ^ 32)%N as Hlt by (apply N.ltb_lt; vm_compute; reflexivity).
  assert (timer_in_range waiting_node) as Hti by (apply N.leb_le; vm_compute; reflexivity). split_and!; [exact Hti|exact Hlt|].
  apply (raft_handlers_defined id acknowledged waiting Hti Hlt).
  intros cmd Hcmd. assert (cmd = "AppendEntriesReply"%string) as -> by (by injection Hcmd).
  split_and!; [intros H; discriminate H| |intros H; discriminate H]. intros _ qs Hqs. cbn [raft_crud.raft_node waiting] in Hqs.
  rewrite quorums_of_waiting_node in Hqs. apply (inj Ok) in Hqs as <-. exact quorums_two.
Defined.

(** What a node sent last to a peer, and last in answer. *)
Definition last_request (o : list effect) : Value :=
  foldl (λ v e, match e with SendMessage _ m => m | _ => v end) null o.
Definition last_reply (o : list effect) : Value :=
  foldl (λ v e, match e with SessionSend _ m _ => m | _ => v end) null o.

Definition boot : list event := [SetAuditEnabled false; RegisterCommitHandler; Start].

(** *** A large timeout scale *)

Definition scaled (env : string) : result raft :=
  new [peer "a"; peer "b"; peer "c"] "a" 10000 false "" (Some env) (Disk None true true).

(** A finding.  RAFT_TIMEOUT_SCALE is accepted whatever its size.  With 3435974 the
    upper end of the election timer wraps around below its lower end, so the node draws
    from an empty range when it starts; with 3435973 it starts a timer. *)
Theorem large_timeout_scale_is_undefined :
  match scaled "3435974", scaled "3435973" with
  | Ok s, Ok s' =>
      res (handle_event id Start) s = Undefined ∧
      omap (λ e, match e with StartElectionTimer from to => Some (from, to) | _ => None end) (out (handle_event id Start) s') =
        [(2576979750, 4294966250)]%N
  | _, _ => False
  end.
Proof. vm_compute. split; reflexivity. Qed.

(** *** A swarm of two peers *)

Definition one_of_two (u : uuid_t) : raft :=
  match new [peer "a"; peer "b"] u 10000 false "" None (Disk None true true) with Ok s => s | _ => node u end.
Definition remove_b : Value :=
  obj [("bzn-api", str "raft"); ("cmd", str "remove_peer"); ("data", obj [("uuid", str "b")])]%string.

(** "a" asks for the vote of "b", leads, is told to remove "b" and sends it the joint
    quorum, which "b" appends. *)
Definition a_asks := runs (boot ++ [ElectionTimeout 0 false]) (one_of_two "a").
Definition b_votes := runs (boot ++ [Receive 0 (last_request a_asks.2) 1]) (one_of_two "b").
Definition a_leads := runs [Receive 0 (last_reply b_votes.2) 2] a_asks.1.
Definition a_removes := runs [Receive 0 remove_b 3; HeartbeatTimeout false] a_leads.1.
Definition b_appends := runs [Receive 0 (last_request a_removes.2) 4] b_votes.1.

(** A finding.  Of two peers one is removed, with nothing lost or forged on the way:
    when the removed peer has acknowledged the joint quorum, the leader looks for the
    median of the indices of the new quorum, which is itself alone, behind a vector of
    one element. *)
Theorem removing_one_of_two_is_undefined :
  current_state a_leads.1 = raft_state.leader ∧
  res (handle_event id (Receive 0 (last_reply b_appends.2) 5)) a_removes.1 = Undefined.
Proof. split; vm_compute; reflexivity. Qed.

(** *** A follower that lost its file *)

Definition leader_of_three := runs (boot ++ skipn 2 election ++ replication) (node "a").
Definition heartbeat : Value :=
  match omap (λ e, match e with SendMessage _ m => Some m | _ => None end)
          (runs [HeartbeatTimeout false] leader_of_three.1).2 with
  | m :: _ => m
  | [] => null
  end.

(** A finding.  "b" has acknowledged the first entry and starts again without its
    file.  The leader goes on from where "b" was; the first request only moves "b" to
    the term of the leader, and the next one, sent before the leader has the answer to
    the first, makes "b" read behind its log. *)
Theorem wiped_follower_is_undefined :
  commit_index leader_of_three.1 = 2%N ∧
  res (handle_event id (Receive 0 heartbeat 2)) (runs [Receive 0 heartbeat 1] (node "b")).1 = Undefined.
Proof. split; vm_compute; reflexivity. Qed.
End sample_errors.
