(* ===== verification/RaftElections.v ===== *)
(** * Votes of one term

    What a node does with the votes of a term when a late message of an earlier term
    comes between them. *)

From S2P Require Import Prelude Messages Json RaftLog Raft RaftProps Replication RaftErrors.
Import raft_log raft_state raft_base raft raft_props raft_errors.

(** A member that an object does not have reads as the empty string. *)
Class JsoncppMissing `{JL : JsoncppLaws} := {
  member_missing kvs k : k ∉ kvs.*1 → ∃ x, member (obj kvs) k = Ok x ∧ asString x = Ok ""%string
}.

Module raft_elections.
Section Elections.
Context {JS : Jsoncpp} {JL : JsoncppLaws} {JM : JsoncppMissing}.
Context {BO : Boost} {SE : Security} {MA : Message audit_message} {MB : Message bzn_msg}.
Context (iteration : list peer_address_t → list peer_address_t).
Abbreviation raftM := (M raft effect).
Implicit Types s : raft.

(** A message of the election or the replication, as every node reads it. *)
Definition of_term (cmd : string) (from : uuid_t) (t : N) (msg : Value) : Prop :=
  (cmd ∉ ["add_peer"; "remove_peer"; "get_peers"; "get_peers_response"]%string) ∧
  ∀ s, res (get_string ["cmd"%string] msg) s = Ok cmd ∧
       res (get_string ["data"; "from"]%string msg) s = Ok from ∧
       res (get_uint ["data"; "term"]%string msg) s = Ok t.

Lemma of_term_message cmd data v from t :
  reads_as (raft_message cmd data) v → NoDup data.*1 → ("from"%string, str from) ∈ data → ("term"%string, uint t) ∈ data →
  (t < 2 ^ 32)%N → cmd ∉ ["add_peer"; "remove_peer"; "get_peers"; "get_peers_response"]%string → of_term cmd from t v.
Proof using.
  intros Hv Hnd Hf Ht Hlt Hcmd. split; [done|]. intros s. split_and!.
  - unfold raft_message in Hv. destruct (reads_as_member _ _ "cmd" (str cmd) Hv) as (x & Hx & Hr).
    { apply member_obj; [apply (bool_decide_unpack _); by vm_compute|right; left; done]. }
    unfold get_string. cbn [path]. rewrite !res_bind, res_lift, Hx, res_ret, res_lift.
    by rewrite (reads_as_asString _ _ Hr), asString_str.
  - by eapply replication.data_string.
  - by eapply replication.data_uint.
Qed.

Definition by_term (cmd : string) (t : N) (msg : Value) (session : session_id) (s : raft) : raftM unit :=
  if (current_term s =? t)%N then handle_current_term iteration cmd msg session
  else if (current_term s <? t)%N then handle_later_term cmd t msg session
  else handle_earlier_term t.

(** A member's message goes to the handler of its term. *)
Lemma dispatched pick cmd from t msg session s :
  of_term cmd from t msg → res (in_quorum from) s = Ok true →
  let m := handle_event iteration (Receive pick msg session) in let h := by_term cmd t msg session s in
  res m s = res h s ∧ post m s = post h s ∧ ∀ e, e ∈ out h s → e ∈ out m s.
Proof using.
  intros [Hcmd Hmsg] Hq. destruct (Hmsg s) as (Hc & Hf & Ht). cbn [handle_event]. unfold handle_ws_raft_messages.
  assert (res (shutdown_on_exceeded_max_storage false) s = Ok tt) as Hsh.
  { unfold shutdown_on_exceeded_max_storage. rewrite res_bind, res_gets, post_gets. by destruct (maximum_storage_exceeded _). }
  cbn zeta. rewrite res_bind, post_bind, out_bind, Hsh, <-(pure_shutdown s).
  rewrite res_bind, post_bind, out_bind, Hc, <-(pure_get_string _ _ s).
  rewrite !bool_decide_false by (intros ->; apply Hcmd; repeat (first [left; reflexivity|right])).
  rewrite res_bind, post_bind, out_bind, Hf, <-(pure_get_string _ _ s).
  rewrite res_bind, post_bind, out_bind, Hq, <-(pure_in_quorum _ s). cbn [negb].
  rewrite res_bind, post_bind, out_bind, Ht, <-(pure_get_uint _ _ s).
  rewrite res_bind, post_bind, out_bind, res_gets, post_gets.
  split_and!; [done..|]. intros e He. rewrite !elem_of_app. tauto.
Qed.

(** ** The voter *)

Definition request (v : uuid_t) (t : N) (msg : Value) : Prop :=
  (t < 2 ^ 32)%N ∧ ∃ li lt, reads_as (create_request_vote_request v t li lt) msg.

(** A request for a vote of a later term is granted whoever asks. *)
Lemma grants_later pick v t msg session s :
  request v t msg → res (in_quorum v) s = Ok true → (current_term s < t)%N →
  let m := handle_event iteration (Receive pick msg session) in
  res m s = Ok tt ∧ SessionSend session (create_request_vote_response (uuid s) t true) true ∈ out m s ∧
  current_term (post m s) = t ∧ uuid (post m s) = uuid s ∧ log (post m s) = log s ∧
  timeout_scale (post m s) = timeout_scale s.
Proof using JM.
  intros (Ht & li & lt & Hv) Hq Hlt. unfold create_request_vote_request in Hv. set (data := [_; _; _; _]) in Hv.
  assert (NoDup data.*1) as Hnd by (apply (bool_decide_unpack _); by vm_compute).
  destruct (dispatched pick "RequestVote" v t msg session s) as (Hr & Hp & Ho); [|done|].
  { eapply of_term_message; [done|done|by repeat constructor..|done|]. by apply (bool_decide_unpack _); vm_compute. }
  assert (∀ s, res (get_string ["data"; "uuid"]%string msg) s = Ok ""%string) as Hu.
  { intros s1. unfold raft_message in Hv. destruct (reads_as_member _ _ "data" (obj data) Hv) as (d & Hd & Hrd).
    { apply member_obj; [apply (bool_decide_unpack _); by vm_compute|by repeat constructor]. }
    destruct (member_missing data "uuid") as (x & Hx & Hxs); [by intros ?%(bool_decide_pack _)|].
    destruct (reads_as_member _ _ _ _ Hrd Hx) as (y & Hy & Hry).
    unfold get_string. cbn [path]. rewrite !res_bind, res_lift, Hd, !res_bind, !post_lift, res_lift, Hy, res_ret, res_lift.
    by rewrite (reads_as_asString _ _ Hry). }
  unfold by_term in *. rewrite (proj2 (N.eqb_neq _ _)), (proj2 (N.ltb_lt _ _)) in Hr, Hp, Ho by lia.
  unfold handle_later_term in *. cbn zeta. rewrite Hr, Hp.
  rewrite res_bind, post_bind, res_modify, post_modify, res_bind, post_bind, res_gets, post_gets. cbn [id].
  rewrite bool_decide_true by done. rewrite res_bind, post_bind, Hu, <-(pure_get_string _ _ (set_term t s)).
  rewrite res_bind, post_bind, res_modify, post_modify. split_and!; [done| |done..]. apply Ho.
  rewrite out_bind, res_modify, post_modify. apply elem_of_app. right. rewrite out_bind, res_gets, post_gets. cbn [id].
  apply elem_of_app. right. rewrite bool_decide_true by done. rewrite out_bind, Hu, <-(pure_get_string _ _ (set_term t s)).
  apply elem_of_app. right. rewrite out_bind, res_modify. apply elem_of_app. right. by left.
Qed.

(** A message of an earlier term takes the node back to that term. *)
Lemma goes_back pick cmd from t msg session s :
  of_term cmd from t msg → res (in_quorum from) s = Ok true → timer_in_range s → (t < current_term s)%N →
  let m := handle_event iteration (Receive pick msg session) in
  res m s = Ok tt ∧ current_term (post m s) = t ∧ uuid (post m s) = uuid s ∧ log (post m s) = log s.
Proof using.
  intros Hm Hq Hti Hlt. destruct (dispatched pick cmd from t msg session s Hm Hq) as (Hr & Hp & _). cbn zeta.
  unfold by_term in *. rewrite (proj2 (N.eqb_neq _ _)), (proj2 (N.ltb_ge _ _)) in Hr, Hp by lia. rewrite Hr, Hp.
  unfold handle_earlier_term. rewrite res_bind, post_bind.
  set (s1 := post (update_raft_state t follower) s). change (res (update_raft_state t follower) s) with (Ok (A := unit) tt).
  cbn iota. rewrite res_bind, post_bind, res_modify, post_modify.
  rewrite <-(pure_start_election_timer (set_voted_for None s1)). split_and!; [|done..].
  unfold start_election_timer. rewrite res_bind, res_emit, post_emit, res_bind, res_gets, post_gets.
  change (timeout_scale (set_voted_for None s1)) with (timeout_scale s). cbn zeta.
  by rewrite (proj2 (N.leb_le _ _) Hti).
Qed.
(** ** The candidates *)

(** A candidate of term [t] that the vote of [d] makes the leader. *)
Definition lacks_one_vote (d : uuid_t) (t : N) (s : raft) : Prop :=
  current_state s = candidate ∧ current_term s = t ∧ res (in_quorum d) s = Ok true ∧
  ∃ qs, res get_active_quorum s = Ok qs ∧ Forall (λ q, base.size q < 2 * base.size (q ∩ ({[ d ]} ∪ yes_votes s))) qs.

Definition same_role : relation raft := λ s s', current_state s' = current_state s ∧ current_term s' = current_term s.
#[local] Instance same_role_preorder : PreOrder same_role.
Proof. split; [done|]. intros ??? [] []. split; congruence. Qed.

Lemma same_role_request_append_entries : respects same_role (request_append_entries iteration).
Proof using.
  assert (∀ u, respects same_role (match_index u)) as Hm.
  { intros u. unfold match_index. method_steps. by destruct (peer_match_index s !! u). }
  unfold request_append_entries, request_append_entry, start_heartbeat_timer. method_steps.
Qed.

Lemma vote_elects d t v s :
  reads_as (create_request_vote_response d t true) v → (t < 2 ^ 32)%N → lacks_one_vote d t s →
  let s' := post (handle_request_vote_response iteration v) s in
  current_state s' = raft_state.leader ∧ current_term s' = t.
Proof using JL.
  intros Hv Ht (Hs & Hct & _ & qs & Hqs & Hall). unfold create_request_vote_response in Hv. set (data := [_; _; _; _; _]) in Hv.
  assert (NoDup data.*1) as Hnd by (apply (bool_decide_unpack _); by vm_compute).
  destruct (replication.data_member _ data v "granted" (boolean true) s Hv Hnd) as (g & Hg & Hrg); [by repeat constructor|].
  cbn zeta. unfold handle_request_vote_response. rewrite post_bind, res_gets, post_gets. cbn [id].
  rewrite (bool_decide_false (current_state s = raft_state.leader)) by (rewrite Hs; done). rewrite post_bind, res_ret, post_ret.
  rewrite bool_decide_true by done. cbn [negb]. rewrite post_bind, <-(pure_get_bool _ _ s).
  unfold get_bool. rewrite res_bind, Hg, res_lift, (reads_as_asBool _ _ Hrg), asBool_boolean.
  rewrite post_bind, <-(pure_get_string _ _ s), (replication.data_string _ _ _ "from" d s Hv Hnd) by (by repeat constructor).
  rewrite post_bind, res_modify, post_modify, post_bind, res_gets, post_gets. set (s1 := set_election _ _ _ _ _ s).
  rewrite post_bind, <-(pure_is_majority _ s1).
  assert (res (is_majority (yes_votes s1)) s1 = Ok true) as ->.
  { unfold is_majority. rewrite res_bind, (reads_log_get_active_quorum s s1), Hqs, res_ret by done. f_equal.
    apply forallb_forall. intros q Hq%list_elem_of_In. apply Nat.ltb_lt. exact (proj1 (Forall_forall _ _) Hall q Hq). }
  cbn [when]. rewrite post_bind.
  change (res (update_raft_state (current_term s) raft_state.leader) s1) with (Ok (A := unit) tt). cbn iota.
  rewrite post_bind, res_modify, post_modify. set (s2 := set_match _ _).
  destruct (same_role_request_append_entries s2) as [-> ->]. done.
Qed.

Lemma vote_wins pick d t v session s :
  reads_as (create_request_vote_response d t true) v → (t < 2 ^ 32)%N → lacks_one_vote d t s →
  let s' := post (handle_event iteration (Receive pick v session)) s in
  current_state s' = raft_state.leader ∧ current_term s' = t.
Proof using JL.
  intros Hv Ht Hl. pose proof (vote_elects d t v s Hv Ht Hl) as Hel. cbn zeta in *.
  destruct Hl as (Hs & Hct & Hq & _). unfold create_request_vote_response in Hv. set (data := [_; _; _; _; _]) in Hv.
  assert (NoDup data.*1) as Hnd by (apply (bool_decide_unpack _); by vm_compute).
  destruct (dispatched pick "ResponseVote" d t v session s) as (_ & Hp & _); [|done|].
  { eapply of_term_message; [done|done|by repeat constructor..|done|]. by apply (bool_decide_unpack _); vm_compute. }
  rewrite Hp. unfold by_term. rewrite (proj2 (N.eqb_eq _ _) Hct). unfold handle_current_term.
  do 3 rewrite bool_decide_false by done. rewrite bool_decide_true by done. rewrite post_bind.
  by destruct (res (handle_request_vote_response _ _) s); rewrite ?post_emit.
Qed.
End Elections.
End raft_elections.

(** ** Claims *)
Section Claims.
Context {JS : Jsoncpp} {JL : JsoncppLaws} {JM : JsoncppMissing}.
Context {BO : Boost} {SE : Security} {MA : Message audit_message} {MB : Message bzn_msg}.
Context (iteration : list peer_address_t → list peer_address_t).
Import raft_elections.

(** C14: A finding: elections are not safe.  Let the peers [a] and [b] ask a node of
    an earlier term for its vote in term [t], and let any message of another member
    that is of a term before [t] come between the two requests.  Then the node grants
    both, whatever its log; and any two candidates of term [t] that lack one vote both
    lead in term [t] when they are handed these answers. *)
Theorem raft_two_leaders_in_a_term (D A B : raft) (a b from : uuid_t) (t t' : N) (cmd : string) (m1 m2 m3 : Value)
    (session1 session2 session3 : session_id) (pick : N) :
  timer_in_range D → (current_term D < t)%N → (t' < t)%N →
  res (in_quorum a) D = Ok true → res (in_quorum b) D = Ok true → res (in_quorum from) D = Ok true →
  request a t m1 → of_term cmd from t' m2 → request b t m3 →
  lacks_one_vote (uuid D) t A → lacks_one_vote (uuid D) t B →
  let receive m session := handle_event iteration (Receive pick m session) in
  let D1 := post (receive m1 session1) D in
  let D2 := post (receive m2 session2) D1 in
  ∃ vote, SessionSend session1 vote true ∈ out (receive m1 session1) D ∧
          SessionSend session3 vote true ∈ out (receive m3 session3) D2 ∧
  ∀ v1 v2, reads_as vote v1 → reads_as vote v2 →
    let A' := post (receive v1 session1) A in let B' := post (receive v2 session3) B in
    current_state A' = raft_state.leader ∧ current_term A' = t ∧
    current_state B' = raft_state.leader ∧ current_term B' = t.
Proof.
  intros Hti Hlt Hlt' Hqa Hqb Hqf H1 H2 H3 HA HB. cbn zeta. pose proof (proj1 H1) as Ht.
  destruct (grants_later iteration pick a t m1 session1 D H1 Hqa Hlt) as (_ & Hv1 & Ht1 & Hu1 & Hl1 & Hs1).
  set (D1 := post _ D) in *.
  assert (∀ s' u, log s' = log D → res (in_quorum u) D = Ok true → res (in_quorum u) s' = Ok true) as Hin.
  { intros s' u Hl Hq. unfold in_quorum in *. rewrite res_bind in *. rewrite (reads_log_get_active_quorum D s' Hl).
    by destruct (res get_active_quorum D). }
  destruct (goes_back iteration pick cmd from t' m2 session2 D1 H2) as (_ & Ht2 & Hu2 & Hl2).
  { by apply Hin. }
  { unfold timer_in_range. by rewrite Hs1. }
  { by rewrite Ht1. }
  set (D2 := post _ D1) in *.
  destruct (grants_later iteration pick b t m3 session3 D2 H3) as (_ & Hv3 & _); [apply Hin; congruence|by rewrite Ht2|].
  eexists. split; [exact Hv1|]. split; [by rewrite Hu2, Hu1 in Hv3|]. intros v1 v2 Hr1 Hr2.
  destruct (vote_wins iteration pick _ t v1 session1 A Hr1 Ht HA), (vote_wins iteration pick _ t v2 session3 B Hr2 Ht HB).
  done.
Qed.
End Claims.

(** *** Example: [b] votes for [a] and for [c] in term 2 *)

Module sample_elections.
Import json_tree letters sample_swarm raft_elections.
#[local] Existing Instances tree_json tree_json_laws letters_boost security no_audit.

#[export, refine] Instance tree_json_missing : JsoncppMissing := {}.
Proof.
  intros kvs k Hk. simpl in kvs |- *. destruct (List.find (λ kx : string * tree, bool_decide (kx.1 = k)) kvs) as [[k' x]|] eqn:E; [|by exists Null].
  apply find_some in E as [Hin E]. apply bool_decide_eq_true in E. simpl in E. subst k'.
  destruct Hk. apply list_elem_of_fmap. exists (k, x). split; [done|]. by apply list_elem_of_In.
Defined.

Definition asking (u : string) : raft := (runs [ElectionTimeout 0 false; ElectionTimeout 0 false] (node u)).1.
Definition quorums_of (s : raft) : list (gset uuid_t) := match res get_active_quorum s with Ok qs => qs | _ => [] end.

Definition lacks_one_voteb (d : uuid_t) (t : N) (s : raft) : bool :=
  bool_decide (current_state s = candidate) && (current_term s =? t)%N &&
  match res (in_quorum d) s with Ok b => b | _ => false end && returns (res get_active_quorum s) &&
  forallb (λ q, (base.size q <? 2 * base.size (q ∩ ({[ d ]} ∪ yes_votes s)))%nat) (quorums_of s).

Lemma lacks_one_voteb_sound d t s : lacks_one_voteb d t s = true → lacks_one_vote d t s.
Proof.
  unfold lacks_one_voteb, lacks_one_vote, quorums_of.
  intros [[[[Hs Ht]%andb_prop Hd]%andb_prop Hr]%andb_prop Hall]%andb_prop.
  split; [by eapply bool_decide_eq_true|]. split; [by apply N.eqb_eq|].
  split; [by destruct (res (in_quorum d) s) as [[]| |]|].
  destruct (res get_active_quorum s) as [qs| |]; [|done..]. exists qs. split; [done|].
  apply Forall_forall. intros q Hq%list_elem_of_In. rewrite forallb_forall in Hall. by apply Nat.ltb_lt, Hall.
Qed.

Lemma request_there u t li lt : (t < 2 ^ 32)%N → request u t (create_request_vote_request u t li lt).
Proof. intros Ht. split; [done|]. by exists li, lt. Qed.

Lemma late_request u t li lt : (t < 2 ^ 32)%N → of_term "RequestVote" u t (create_request_vote_request u t li lt).
Proof.
  intros Ht. eapply of_term_message; [reflexivity| |left; reflexivity|right; left; reflexivity|exact Ht|];
    apply (bool_decide_unpack _); vm_compute; exact I.
Qed.
End sample_elections.
Import json_tree letters sample_swarm sample_elections raft_elections.
#[local] Existing Instances security no_audit letters_boost.

Example raft_two_leaders_in_a_term_witness :
  lacks_one_vote "b" 2 (asking "a") ∧ lacks_one_vote "b" 2 (asking "c") ∧
  ∃ vote : tree, ∀ v1 v2, vote = v1 → vote = v2 →
    current_state (post (handle_event id (Receive 0 v1 1)) (asking "a")) = raft_state.leader ∧
    current_state (post (handle_event id (Receive 0 v2 3)) (asking "c")) = raft_state.leader.
Proof.
  assert (lacks_one_vote "b" 2 (asking "a")) as HA by (apply lacks_one_voteb_sound; vm_compute; reflexivity).
  assert (lacks_one_vote "b" 2 (asking "c")) as HC by (apply lacks_one_voteb_sound; vm_compute; reflexivity).
  assert (uuid (node "b") = "b"%string) as Hb by (vm_compute; reflexivity).
  split; [exact HA|]. split; [exact HC|].
  assert (timer_in_range (node "b")) as Hti by (apply N.leb_le; vm_compute; reflexivity).
  assert (current_term (node "b") < 2)%N as Hlt by (apply N.ltb_lt; vm_compute; reflexivity).
  assert (res (in_quorum "a") (node "b") = Ok true) as Hqa by (vm_compute; reflexivity).
  assert (res (in_quorum "c") (node "b") = Ok true) as Hqc by (vm_compute; reflexivity).
  destruct (raft_two_leaders_in_a_term id (node "b") (asking "a") (asking "c") "a" "c" "a" 2 1 "RequestVote"
    (create_request_vote_request "a" 2 1 0) (create_request_vote_request "a" 1 1 0) (create_request_vote_request "c" 2 1 0)
    1 2 3 0 Hti Hlt ltac:(reflexivity) Hqa Hqc Hqa (request_there "a" 2 1 0 ltac:(reflexivity))
    (late_request "a" 1 1 0 ltac:(reflexivity)) (request_there "c" 2 1 0 ltac:(reflexivity))) as (vote & _ & _ & Hv).
  - rewrite Hb. exact HA.
  - rewrite Hb. exact HC.
  - exists vote. intros v1 v2 Hr1 Hr2. destruct (Hv v1 v2 Hr1 Hr2) as (H1 & _ & H3 & _). split; [exact H1|exact H3].
Defined.
