(* ===== verification/RaftRecovery.v ===== *)
(** * Restarting a Raft node

    [swarm/main.cpp] rebuilds the store from the whole log before Raft starts,
    and Raft then commits the entries from index 1 again.  What makes this
    right: in a log that leaders have written, an update of a record comes after
    its creation, and replaying such a log over its own result changes nothing. *)

From S2P Require Import Prelude Messages Json Storage Crud Subscriptions RaftLog Raft RaftProps RaftCrud.

Module recovery.
Import storage_base raft_props raft_crud raft_crud_props.

Abbreviation record := (uuid_t * key_t)%type.

(** ** What a request does to one record *)

Inductive write := Put (v : value_t) | Set_ (v : value_t) | Drop_.

Definition write_record (w : write) (x : option value_t) : option value_t :=
  match w, x with
  | Put v, None => Some v
  | Put _, Some _ => x
  | Set_ v, Some _ => Some v
  | Set_ _, None => None
  | Drop_, _ => None
  end.

(** The record a request writes; one that is too large writes nothing. *)
Definition write_of (r : database_msg) : option (record * write) :=
  let u := db_uuid (header r) in
  match msg r with
  | DbCreate k v =>
      if ((MAX_VALUE_SIZE <? strlen v) || (MAX_KEY_SIZE <? strlen k))%N then None else Some ((u, k), Put v)
  | DbUpdate k v => if (MAX_VALUE_SIZE <? strlen v)%N then None else Some ((u, k), Set_ v)
  | DbDelete k => Some ((u, k), Drop_)
  | _ => None
  end.

Definition write_at (uk : record) (r : database_msg) : option write :=
  match write_of r with
  | Some (uk', w) => if decide (uk' = uk) then Some w else None
  | None => None
  end.

Lemma lookup_apply_request uk r m :
  crud_spec.apply_request r m !! uk =
  match write_at uk r with Some w => write_record w (m !! uk) | None => m !! uk end.
Proof.
  unfold crud_spec.apply_request, write_at, write_of, storage_spec.create, storage_spec.update, storage_spec.remove.
  destruct (msg r) as [|k v|k|k v|k|k| | | |]; try done.
  - destruct (_ <? _)%N; [done|]. destruct (_ <? _)%N; [done|]. simpl.
    case_decide as E; [subst uk|]; destruct (m !! (_, k)) eqn:Hm; simpl; rewrite ?Hm, ?lookup_insert_eq; try done.
    by rewrite lookup_insert_ne.
  - destruct (_ <? _)%N; [done|].
    case_decide as E; [subst uk|]; destruct (m !! (_, k)) eqn:Hm; simpl; rewrite ?Hm, ?lookup_insert_eq; try done.
    by rewrite lookup_insert_ne.
  - case_decide as E; [subst uk|]; destruct (m !! (_, k)) eqn:Hm; simpl; rewrite ?Hm, ?lookup_delete_eq; try done.
    by rewrite lookup_delete_ne.
Qed.

Definition apply_requests (rs : list database_msg) (m : storage_spec.contents) : storage_spec.contents :=
  foldl (λ m r, crud_spec.apply_request r m) m rs.

Definition write_all (ws : list write) (x : option value_t) : option value_t := foldl (λ x w, write_record w x) x ws.

Lemma lookup_apply_requests uk rs m :
  apply_requests rs m !! uk = write_all (omap (write_at uk) rs) (m !! uk).
Proof.
  revert m. induction rs as [|r rs IH]; intros m; [done|]. unfold apply_requests in *. cbn [foldl].
  rewrite IH, lookup_apply_request. cbn [omap list_omap]. by destruct (write_at uk r).
Qed.

(** ** Writing twice

    A sequence of writes is constant, or keeps every present value, or sets
    every present value to one. *)
Lemma write_all_shape ws :
  (∃ c, ∀ x, write_all ws x = c) ∨ (∀ v, write_all ws (Some v) = Some v) ∨
  (∃ w, ∀ v, write_all ws (Some v) = Some w).
Proof.
  unfold write_all. induction ws as [|w ws IH]; [auto|]. destruct w as [v'|v'|]; simpl.
  - destruct IH as [[c Hc]|[?|?]]; [left|auto..]. exists c. intros x. by rewrite Hc.
  - destruct IH as [[c Hc]|[Hi|[w Hw]]]; [left; exists c|right; right; exists v'|right; right; exists w]; intros; by rewrite ?Hc, ?Hi, ?Hw.
  - left. exists (write_all ws None). by intros [].
Qed.

(** Nothing is set before it is put. *)
Definition starts_put (ws : list write) : Prop := match ws with Set_ _ :: _ => False | _ => True end.

Lemma write_all_twice ws x :
  (x = None → starts_put ws) → write_all ws (write_all ws x) = write_all ws x.
Proof.
  intros Hx. destruct (write_all_shape ws) as [[c Hc]|[Hi|[w Hw]]]; [by rewrite !Hc| |].
  - destruct x as [v|]; [by rewrite !Hi|]. destruct (write_all ws None) as [v|] eqn:E; [apply Hi|done].
  - destruct x as [v|]; [by rewrite !Hw|]. specialize (Hx eq_refl). destruct ws as [|[v|v|] ws]; [done| |done|].
    + unfold write_all in *. simpl in *. rewrite (Hw v). apply Hw.
    + unfold write_all in *. simpl in *. by destruct (foldl _ None ws).
Qed.

(** ** Grounded logs *)

Definition creates (r : database_msg) (known : gset record) : gset record :=
  match write_of r with Some (uk, Put _) => {[ uk ]} ∪ known | _ => known end.

(** Every update is of a record that is known or was created before. *)
Fixpoint grounded (known : gset record) (rs : list database_msg) : bool :=
  match rs with
  | [] => true
  | r :: rs =>
      match write_of r with
      | Some (uk, Set_ _) => bool_decide (uk ∈ known)
      | _ => true
      end && grounded (creates r known) rs
  end.

Definition known_after (known : gset record) (rs : list database_msg) : gset record := foldl (λ k r, creates r k) known rs.

Lemma grounded_starts_put uk known rs :
  grounded known rs = true → uk ∉ known → starts_put (omap (write_at uk) rs).
Proof.
  revert known. induction rs as [|r rs IH]; intros known; [done|]. cbn [grounded omap list_omap].
  unfold write_at at 1, creates. destruct (write_of r) as [[uk' w]|]; [|by apply IH].
  intros [Hw Hg]%andb_true_iff Hn. destruct (decide (uk' = uk)) as [E|E].
  - subst uk'. destruct w; try done. by apply bool_decide_eq_true in Hw.
  - destruct w; (eapply IH; [done|]); set_solver.
Qed.

Lemma grounded_replay_twice rs m :
  grounded (dom m) rs = true → apply_requests rs (apply_requests rs m) = apply_requests rs m.
Proof.
  intros Hg. apply map_eq. intros uk. rewrite !lookup_apply_requests. apply write_all_twice. intros Hn.
  eapply grounded_starts_put; [done|]. by apply not_elem_of_dom.
Qed.

Lemma grounded_app known rs rs' : grounded known (rs ++ rs') = grounded known rs && grounded (known_after known rs) rs'.
Proof.
  revert known. induction rs as [|r rs IH]; intros known; [done|]. cbn [app grounded known_after foldl].
  rewrite IH. unfold known_after. by rewrite andb_assoc.
Qed.

Lemma creates_mono (r : database_msg) (k k' : gset record) : k ⊆ k' → creates r k ⊆ creates r k'.
Proof. unfold creates. destruct (write_of r) as [[? []]|]; set_solver. Qed.
Lemma creates_grows (r : database_msg) (k : gset record) : k ⊆ creates r k.
Proof. unfold creates. destruct (write_of r) as [[? []]|]; set_solver. Qed.

Lemma known_after_sublist (rs rs' : list database_msg) (k k' : gset record) : rs `sublist_of` rs' → k ⊆ k' → known_after k rs ⊆ known_after k' rs'.
Proof.
  intros Hs. revert k k'. induction Hs as [|r rs rs' _ IH|r rs rs' _ IH]; intros k k' Hk; [done|..].
  - apply IH. by apply creates_mono.
  - apply IH. etrans; [done|apply creates_grows].
Qed.

Lemma dom_apply_requests (rs : list database_msg) m : dom (apply_requests rs m) ⊆ known_after (dom m) rs.
Proof.
  revert m. induction rs as [|r rs IH]; intros m; [done|]. unfold apply_requests, known_after in *. cbn [foldl].
  etrans; [apply IH|]. apply (known_after_sublist rs rs); [done|]. intros uk. rewrite !elem_of_dom, lookup_apply_request.
  unfold write_at, creates. destruct (write_of r) as [[uk' w]|]; [|by rewrite elem_of_dom].
  case_decide as E; destruct w; destruct (m !! uk) eqn:Hm; simpl; intros [? ?]; try done; subst;
    rewrite ?elem_of_union, ?elem_of_singleton, ?elem_of_dom, ?Hm; eauto.
Qed.

(** ** The node that [main] starts *)
Section Boot.
Context {JS : Jsoncpp} {JL : JsoncppLaws} {BO : Boost} {SE : Security} {MA : Message audit_message} {MB : Message bzn_msg}.
Context (iteration : list peer_address_t → list peer_address_t).
Context {S : Type} {ST : Storage S}.

(** [raft->initialize_storage_from_log(storage)] for the Raft node and the
    store that [main] has made; [crud->start()] follows. *)
Definition boot (r : raft.raft) (st : S) : result (raft_crud (S := S)) :=
  match raft.initialize_storage_from_log r st with
  | Ok st => Ok (RaftCrud r st subscription_manager.empty false)
  | Throw w => Throw w
  | Undefined => Undefined
  end.

Abbreviation log_of s := (raft_log.log_entries (raft.log (raft_node s))).
Abbreviation commit_of s := (raft.commit_index (raft_node s)).

(** The requests in a list of entries. *)
Definition requests (es : list log_entry) : list database_msg := omap logged_request (entry_msg <$> es).

Lemma requests_app es es' : requests (es ++ es') = requests es ++ requests es'.
Proof using. unfold requests. by rewrite fmap_app, omap_app. Qed.

Lemma apply_entries_requests es m :
  foldl apply_entry_spec m (entry_msg <$> es) = apply_requests (requests es) m.
Proof using.
  revert m. induction es as [|e es IH]; intros m; [done|]. unfold requests, apply_requests in *.
  cbn [fmap list_fmap foldl omap list_omap]. rewrite IH. unfold apply_entry_spec. by destruct (logged_request _).
Qed.

Lemma slice_zero j es : slice 0 j es = take (N.to_nat j) es.
Proof using. unfold slice. by rewrite Nat.sub_0_r, drop_0. Qed.

Lemma slice_all es : slice 0 (lengthN es) es = es.
Proof using. rewrite slice_zero. unfold lengthN. rewrite Nat2N.id. by apply firstn_all. Qed.

Lemma requests_take_sublist i j es : requests (slice i j es) `sublist_of` requests es.
Proof using.
  rewrite <-(take_drop (N.to_nat i) es) at 2. rewrite <-(take_drop (N.to_nat j - N.to_nat i) (drop (N.to_nat i) es)) at 1.
  rewrite !requests_app. unfold slice. apply sublist_inserts_l. by apply sublist_inserts_r.
Qed.

(** After a boot, once every entry of the old log is committed again, the map is
    that of the entries applied once: those already replayed are idempotent. *)
Lemma recommitted (es es' : list log_entry) (c : N) (m : storage_spec.contents) :
  es `prefix_of` es' → (lengthN es ≤ c)%N → (1 ≤ lengthN es)%N → requests (take 1 es) = [] →
  grounded (dom m) (requests es) = true →
  foldl apply_entry_spec (foldl apply_entry_spec m (entry_msg <$> es)) (entry_msg <$> slice 1 c es') =
  foldl apply_entry_spec m (entry_msg <$> slice 1 c es').
Proof using.
  intros Hp Hc H1 Hfirst Hg. rewrite !apply_entries_requests.
  assert (requests (slice 1 c es') = requests es ++ requests (slice (lengthN es) c es')) as ->.
  { rewrite (slice_app 1 (lengthN es) c) by done. rewrite requests_app. f_equal.
    rewrite (slice_prefix 1 (lengthN es) es es' Hp) by done.
    transitivity (requests (slice 0 (lengthN es) es)); [|by rewrite slice_all].
    rewrite (slice_app 0 1 (lengthN es)), requests_app by (done || lia). rewrite slice_zero. change (N.to_nat 1) with 1. by rewrite Hfirst. }
  unfold apply_requests in *. rewrite !foldl_app. f_equal. by apply grounded_replay_twice.
Qed.

(** *** What a client's message does to the log, whatever it holds *)

Definition extended (ws_msg : Value) (s s' : raft_crud (S := S)) : Prop :=
  log_of s' = log_of s ∨ log_of s' = log_of s ++ [new_entry ws_msg (raft_node s)].

Definition extends {A} (ws_msg : Value) (m : M (raft_crud (S := S)) effect A) (s : raft_crud) : Prop :=
  extended ws_msg s (post m s).

Lemma extends_gets {A B} ws_msg (f : raft_crud → A) (k : A → M raft_crud effect B) s :
  extends ws_msg (k (f s)) s → extends ws_msg (gets f ≫= k) s.
Proof using. unfold extends. by rewrite post_bind, res_gets. Qed.

Lemma extends_ret {A} ws_msg (a : A) s : extends ws_msg (mret a) s.
Proof using. by left. Qed.

Lemma raft_append_log ws_msg (r : raft.raft) :
  let es := raft_log.log_entries (raft.log (post (raft.append_log ws_msg database) r)) in
  es = raft_log.log_entries (raft.log r) ∨ es = raft_log.log_entries (raft.log r) ++ [new_entry ws_msg r].
Proof using.
  unfold raft.append_log, raft.append_log_unsafe. cbn zeta. rewrite post_bind, res_gets, post_gets.
  destruct (negb _); [by left|]. right. rewrite post_bind.
  assert (raft_log.log_entries (raft.log (post (raft.log_call (raft_log.leader_append_entry (new_entry ws_msg r))) r)) =
          raft_log.log_entries (raft.log r) ++ [new_entry ws_msg r]) as <- by apply leader_append_memory.
  by destruct (res _ _).
Qed.

Lemma extends_append_log ws_msg resp s : extends ws_msg (append_log ws_msg;; mret resp : M _ _ database_response) s.
Proof using.
  unfold extends, append_log. rewrite !post_bind.
  assert (extended ws_msg s (post (raft_call (raft.append_log ws_msg database)) s)) as H by apply raft_append_log.
  destruct (res _ s); [|by destruct (res (raft_call _) s)..]. by destruct (res (raft_call _) s).
Qed.

Lemma extends_when_append ws_msg b resp s :
  extends ws_msg (when b (append_log ws_msg);; mret resp : M _ _ database_response) s.
Proof using. destruct b; [apply extends_append_log|by left]. Qed.

Lemma redirect_log resp s : log_of (post (set_leader_info (S := S) iteration resp) s) = log_of s.
Proof using.
  unfold set_leader_info, raft_call. rewrite post_bind. unfold res, post. cbn [fst snd].
  unfold raft.get_leader. rewrite (raft_props.query_get_leader_unsafe iteration (raft_node s)). cbn [fst snd].
  by destruct (res (raft.get_leader_unsafe _) _).
Qed.

Lemma extends_redirect ws_msg resp s : extends ws_msg (set_leader_info iteration resp) s.
Proof using. left. apply redirect_log. Qed.

Ltac extends_steps :=
  repeat first [apply extends_ret|apply extends_append_log|apply extends_when_append|apply extends_redirect|apply extends_gets
               |match goal with |- extends _ (match ?x with _ => _ end) _ => destruct x end].

(** The log is extended by the message at most, and by an update only of a
    record in the store. *)
Lemma routing_log ws_msg request resp session s :
  extends ws_msg (do_raft_task_routing iteration ws_msg request resp session) s ∧
  (∀ k v, msg request = DbUpdate k v → has (db_uuid (header request)) k (storage s) = false →
     log_of (post (do_raft_task_routing iteration ws_msg request resp session) s) = log_of s).
Proof using.
  unfold do_raft_task_routing, do_leader_tasks, do_follower_tasks, do_candidate_tasks, command_handler,
    handle_create, handle_read, handle_update, handle_delete, handle_get_keys, handle_has, handle_size, is_leader,
    storage_has.
  destruct (msg request) as [|k v|k|k v|k|k| | |k|k tx] eqn:Hm; cbn [default from_option id]; (split; [|try done]).
  all: try (extends_steps; fail).
  - intros k' v' [= <- <-] Hh. rewrite post_bind, res_gets, post_gets. unfold request_update. rewrite Hm.
    destruct (raft.get_state _); [done|apply redirect_log|]. destruct (validate_value_size _); [done|].
    by rewrite post_bind, res_gets, post_gets, Hh.
  - left. unfold post. by destruct (subscription_manager.subscribe _ _ _ _ _ _).
  - left. unfold post. by destruct (subscription_manager.unsubscribe _ _ _ _ _ _).
Qed.

Lemma message_log ws_msg session s :
  let s' := post (handle_ws_crud_messages iteration ws_msg session) s in
  log_of s' = log_of s ∨
  log_of s' = log_of s ++ [new_entry ws_msg (raft_node s)] ∧
  ∀ r k v, logged_request ws_msg = Some r → msg r = DbUpdate k v → has (db_uuid (header r)) k (storage s) = true.
Proof using.
  cbn zeta. unfold handle_ws_crud_messages, logged_request. rewrite post_bind, res_lift, post_lift.
  destruct (isMember ws_msg "msg") as [[]| |]; [|by left..]. cbn [negb].
  rewrite post_bind, res_lift, post_lift. destruct (member ws_msg "msg") as [x| |]; [|by left..].
  rewrite post_bind, res_lift, post_lift. destruct (asString x) as [e| |]; [|by left..].
  destruct (ParseFromString _) as [[|db|]|]; [by left| |by left|by left].
  destruct (routing_log ws_msg db (set_header (header db) default_response) session s) as [H Hu].
  assert (∀ s2, post (resp ← do_raft_task_routing iteration ws_msg db (set_header (header db) default_response) session;
                      emit (SendMessage session resp false)) s2 =
                post (do_raft_task_routing iteration ws_msg db (set_header (header db) default_response) session) s2) as ->.
  { intros s2. rewrite post_bind. by destruct (res _ s2). }
  destruct H as [H|H]; [by left|]. destruct (msg db) as [| | |k v| | | | | |] eqn:Hm.
  4: { destruct (has (db_uuid (header db)) k (storage s)) eqn:Hh; [|left; by eapply Hu].
       right. split; [done|]. intros r k' v'. destruct (isString x); [|done]. intros [= <-]. rewrite Hm. by intros [= <- <-]. }
  all: right; split; [done|]; intros r k' v'; destruct (isString x); [|done]; intros [= <-]; by rewrite Hm.
Qed.
End Boot.
End recovery.

(** ** Claims *)

Section Claims.
Import storage_base raft_props raft_crud raft_crud_props recovery.
Context {JS : Jsoncpp} {JL : JsoncppLaws} {BO : Boost} {SE : Security} {MA : Message audit_message} {MB : Message bzn_msg}.
Context (iteration : list peer_address_t → list peer_address_t).
Context {S : Type} {ST : Storage S}.
Context (valid_uuid : uuid_t → Prop) (wf : S → Prop) (R : S → storage_spec.contents → Prop)
  {Href : StorageRefines S valid_uuid wf R} {Hrel : ReliableStorage S valid_uuid}.

Abbreviation log_of s := (raft_log.log_entries (raft.log (raft_node s))).
Abbreviation commit_of s := (raft.commit_index (raft_node s)).

(** C21: A restart recovers the store.  [main] replays the whole log and Raft
    then commits it again from index 1; once the entries the node had on disk
    are committed again, the store stands for the map that the committed
    entries, each applied once, make of the map the node started on, provided
    the log is grounded: no record is updated before it is created. *)
Theorem raft_restart_recovers (r : raft.raft) (st : S) (m : storage_spec.contents) (s0 : raft_crud)
    (evs : list raft_crud.event) :
  boot r st = Ok s0 → wf st → R st m → raft.commit_index r = 1%N →
  requests (take 1 (raft_log.log_entries (raft.log r))) = [] → (1 ≤ raft_log.size (raft.log r))%N →
  grounded (dom m) (requests (raft_log.log_entries (raft.log r))) = true →
  raft_crud_props.regular iteration evs s0 →
  let s := raft_crud.run iteration evs s0 in
  Forall well_typed (log_of s) → Forall (valid_entry valid_uuid) (entry_msg <$> log_of s) →
  (raft_log.size (raft.log r) ≤ commit_of s)%N →
  R (storage s) (foldl apply_entry_spec m (entry_msg <$> slice 1 (commit_of s) (log_of s))).
Proof.
  intros Hb Hw HR Hc Hfirst Hsize Hg Hrun s Ht Hv Hle. unfold boot in Hb.
  destruct (raft.initialize_storage_from_log r st) as [st'| |] eqn:Hst; [|done..]. injection Hb as <-.
  destruct (run_follows iteration evs _ Hrun) as [Hf Hlt].
  destruct (Hf Hlt) as [Hp Hcm]. { rewrite Forall_fmap. eapply Forall_impl; [exact Ht|]. intros e (x & ? & _). by exists x. }
  cbn [raft_node storage] in *. destruct Hcm as (_ & _ & Hs); [unfold inv; lia|]. rewrite Hc in Hs.
  assert (Forall well_typed (raft_log.log_entries (raft.log r))) as Ht0.
  { destruct Hp as [k Hk]. unfold s in Ht. rewrite Hk in Ht. by apply Forall_app in Ht as [? _]. }
  unfold raft.initialize_storage_from_log in Hst. rewrite replay_applies in Hst by done. injection Hst as <-.
  destruct (apply_entries_refines valid_uuid wf R (entry_msg <$> raft_log.log_entries (raft.log r)) st m) as [Hw' HR'];
    [done|done|by eapply Forall_prefix|].
  rewrite <-(recommitted (raft_log.log_entries (raft.log r)) (log_of s) (commit_of s) m) by done.
  unfold s in *. rewrite Hs. apply (apply_entries_refines valid_uuid wf R); [done..|]. by apply Forall_slice.
Qed.

(** C22: A leader keeps its log grounded: after any run from a store whose
    records are known, a client's message never puts an update into the log
    before the creation of its record, since the leader accepts an update only
    of a record that is in its store. *)
Theorem raft_leader_keeps_log_grounded (evs : list raft_crud.event) (s0 : raft_crud) (m0 : storage_spec.contents)
    (ws_msg : Value) (session : session_id) :
  raft_crud_props.regular iteration evs s0 → raft_props.inv (raft_node s0) → wf (storage s0) → R (storage s0) m0 →
  let s := raft_crud.run iteration evs s0 in
  Forall well_typed (log_of s) → Forall (valid_entry valid_uuid) (ws_msg :: (entry_msg <$> log_of s)) →
  grounded (dom m0) (requests (log_of s)) = true →
  grounded (dom m0) (requests (log_of (post (handle_ws_crud_messages iteration ws_msg session) s))) = true.
Proof.
  intros Hr Hi Hw HR s Ht [Hv0 Hv]%Forall_cons Hg.
  destruct (message_log iteration ws_msg session s) as [->|[-> Hup]]; [done|].
  destruct (run_follows iteration evs s0 Hr) as [Hf Hlt].
  destruct (Hf Hlt) as [_ Hc]. { rewrite Forall_fmap. eapply Forall_impl; [exact Ht|]. intros e (x & ? & _). by exists x. }
  destruct (Hc Hi) as (_ & _ & Hst). fold s in Hst.
  destruct (apply_entries_refines valid_uuid wf R (entry_msg <$> slice (commit_of s0) (commit_of s) (log_of s)) (storage s0) m0)
    as [Hw' HR']; [done|done|by apply Forall_slice|]. rewrite <-Hst, apply_entries_requests in *.
  rewrite requests_app, grounded_app, Hg. unfold requests at 2. cbn [fmap list_fmap omap list_omap new_entry entry_msg andb].
  unfold valid_entry in Hv0. destruct (logged_request ws_msg) as [r|]; [|done]. cbn [grounded]. rewrite andb_true_r.
  unfold write_of. destruct (msg r) as [|k v|k|k v|k|k| | | |] eqn:Hm; try done; [by destruct (_ || _)|].
  destruct (_ <? _)%N; [done|]. apply bool_decide_eq_true.
  specialize (Hup r k v eq_refl Hm). rewrite (refines_has _ _ _ _ Hw' HR' Hv0), bool_decide_eq_true, <-elem_of_dom in Hup.
  apply dom_apply_requests in Hup. eapply known_after_sublist; [apply requests_take_sublist|done|exact Hup].
Qed.
End Claims.

(** *** Examples: the leader of [sample_node] is restarted *)
Module sample_restart.
Import json_tree letters raft_props sample_swarm raft_crud sample_node recovery.

Definition restarted : raft.raft :=
  match raft.new [peer "a"; peer "b"; peer "c"] "a" 10000 false "" None (raft_log.log_disk (raft.log (raft_node finish))) with
  | Ok r => r
  | _ => sample_swarm.node "a"
  end.
Definition booted : raft_crud (S := mem_storage.mem_storage) :=
  match boot restarted mem_storage.empty with Ok s => s | _ => start_node end.
Definition again : list raft_crud.event := RaftEvent all_alive <$> (election ++ drop 1 replication).

Lemma boot_returns : boot restarted mem_storage.empty = Ok booted.
Proof.
  assert (returns (boot restarted mem_storage.empty) = true) as H by (vm_compute; reflexivity).
  unfold booted. by destruct (boot restarted mem_storage.empty).
Qed.

Lemma every_uuid_valid vs : Forall (raft_crud_props.valid_entry (λ _, True)) vs.
Proof. apply Forall_true. intros v. unfold raft_crud_props.valid_entry. by destruct (raft_crud_props.logged_request v). Qed.

(** The leader is asked to update the record it has committed. *)
Definition update_message : Value := client_message (DbMsg (DbHeader "d" 2) (DbUpdate "k" "w")).
Definition updated : raft_crud (S := mem_storage.mem_storage) :=
  post (raft_crud.handle_ws_crud_messages (BO := letters_boost) (MB := codec) id update_message 6) (run history start_node).
End sample_restart.
Import json_tree letters raft_props sample_swarm raft_crud sample_node recovery sample_restart.

Example raft_restart_recovers_witness :
  let s := run again booted in
  raft.commit_index (raft_node s) = 2%N ∧
  mem_storage.represents (storage s)
    (foldl raft_crud_props.apply_entry_spec ∅
       (entry_msg <$> slice 1 (raft.commit_index (raft_node s)) (raft_log.log_entries (raft.log (raft_node s))))).
Proof.
  intros s. assert (raft.commit_index (raft_node s) = 2%N) as Hc by (vm_compute; reflexivity). split; [exact Hc|].
  apply (raft_restart_recovers (BO := letters_boost) (SE := sample_swarm.security) (MA := no_audit) (MB := codec) id (λ _, True) (λ _, True) mem_storage.represents restarted mem_storage.empty ∅ booted again
           boot_returns I empty_represents).
  - vm_compute. reflexivity.
  - vm_compute. reflexivity.
  - apply N.leb_le. vm_compute. reflexivity.
  - vm_compute. reflexivity.
  - apply crud_regularb_spec. vm_compute. reflexivity.
  - apply typedb_spec. vm_compute. reflexivity.
  - apply every_uuid_valid.
  - fold s. rewrite Hc. apply N.leb_le. vm_compute. reflexivity.
Defined.

Example raft_leader_keeps_log_grounded_witness :
  length (requests (raft_log.log_entries (raft.log (raft_node updated)))) = 2 ∧
  grounded (dom (∅ : storage_spec.contents)) (requests (raft_log.log_entries (raft.log (raft_node updated)))) = true.
Proof.
  split; [vm_compute; reflexivity|].
  assert (raft_crud_props.regular (BO := letters_boost) (SE := sample_swarm.security) (MA := no_audit) id history start_node)
    as Hr by (apply crud_regularb_spec; vm_compute; reflexivity).
  assert (Forall raft_crud_props.well_typed (raft_log.log_entries (raft.log (raft_node (run history start_node))))) as Ht
    by (apply typedb_spec; vm_compute; reflexivity).
  assert (grounded (dom (∅ : storage_spec.contents))
    (requests (raft_log.log_entries (raft.log (raft_node (run history start_node))))) = true) as Hg by (vm_compute; reflexivity).
  exact (raft_leader_keeps_log_grounded (BO := letters_boost) (SE := sample_swarm.security) (MA := no_audit) (MB := codec) id
    (λ _, True) (λ _, True) mem_storage.represents history start_node ∅ update_message 6 Hr start_inv I empty_represents Ht
    (every_uuid_valid _) Hg).
Defined.
