(* ===== verification/Http.v ===== *)
(** * The HTTP front end

    [http/connection.cpp]: one request per connection, translated to a request
    of the CRUD interface of [crud/crud_base.hpp] ([bzn::deprecated::crud_base])
    and answered in plain text.  [RaftCrud] implements the interface. *)

From S2P Require Import Prelude Messages Json Storage Crud Subscriptions RaftLog Raft RaftProps RaftCrud.

(** ** The interface of the back end *)

(** The handlers take the response and give it back changed. *)
Class CrudBackend (C Ef : Type) {JS : Jsoncpp} := {
  backend_create : Value → database_msg → database_response → M C Ef database_response;
  backend_read : Value → database_msg → database_response → M C Ef database_response;
  backend_update : Value → database_msg → database_response → M C Ef database_response;
  backend_delete : Value → database_msg → database_response → M C Ef database_response
}.

Module connection.

Inductive verb := verb_get | verb_post | verb_other.
Inductive status := status_ok | bad_request | temporary_redirect.

Record request := Request { method : verb; target : string; req_body : string; req_version : N }.

Record response := Response {
  result_code : status;
  location : option string;
  body : string;
  version : N;
  server : string;
  content_type : string;
  content_length : N;
  keep_alive : bool
}.

Definition CREATE_REQ : string := "create".
Definition READ_REQ : string := "read".
Definition UPDATE_REQ : string := "update".
Definition DELETE_REQ : string := "delete".

(** Seconds. *)
Definition HTTP_TIMEOUT : N := 10.

Definition REQUEST_PATH_IDX : nat := 1.
Definition UUID_PATH_IDX : nat := 2.
Definition KEY_PATH_IDX : nat := 3.
Definition MAX_PATH_SIZE : nat := 4.

(** A response that was not written to. *)
Definition empty_response : response := Response status_ok None "" 11 "" "" 0 true.

Definition set_result (x : status) (r : response) : response :=
  Response x (location r) (body r) (version r) (server r) (content_type r) (content_length r) (keep_alive r).
Definition set_location (x : string) (r : response) : response :=
  Response (result_code r) (Some x) (body r) (version r) (server r) (content_type r) (content_length r) (keep_alive r).
(** [boost::beast::ostream(response.body()) << x] appends. *)
Definition write_body (x : string) (r : response) : response :=
  Response (result_code r) (location r) (body r ++ x) (version r) (server r) (content_type r) (content_length r) (keep_alive r).

Definition format_http_response (target : string) (resp : database_response) (r : response) : response :=
  match Messages.response resp with
  | RespRedirect info =>
      if negb (bool_decide (leader_host info = ""%string)) then
        set_location ("http://" ++ leader_host info ++ ":" ++ to_string (leader_http_port info) ++ target)
          (set_result temporary_redirect r)
      else write_body "err" r
  | RespRead _ v => write_body ("ack" ++ v) r
  | RespError _ => write_body "err" r
  | _ => write_body "ack" r
  end.

(** [boost::split(path, target, is_any_of("/"))]: every separator splits. *)
Fixpoint split (s : string) : list string :=
  match s with
  | EmptyString => [""%string]
  | String c s =>
      if bool_decide (c = "/"%char) then ""%string :: split s
      else match split s with
           | [] => [String c ""]
           | t :: ts => String c t :: ts
           end
  end.

Section Connection.
Context {JS : Jsoncpp} {BO : Boost} {MB : Message bzn_msg} {C Ef : Type} {CB : CrudBackend C Ef}.
(** "Bluzelle/" and the version, which the build generates. *)
Context (server_name : string).

Record connection := Connection {
  the_request : request;
  the_response : response;
  start_once : bool;
  crud : C
}.

Inductive effect :=
| StartDeadlineTimer (seconds : N)
| CancelDeadlineTimer
| AsyncRead
| AsyncWrite (r : response)
| ShutdownSend
| CloseSocket
| CrudEffect (e : Ef).

Abbreviation connM := (M connection effect).

Definition set_request (x : request) (s : connection) : connection := Connection x (the_response s) (start_once s) (crud s).
Definition set_response (x : response) (s : connection) : connection := Connection (the_request s) x (start_once s) (crud s).
Definition set_crud (x : C) (s : connection) : connection := Connection (the_request s) (the_response s) (start_once s) x.

Definition crud_call {A} (m : M C Ef A) : connM A := λ s,
  (res m (crud s), set_crud (post m (crud s)) s, CrudEffect <$> out m (crud s)).

Definition respond (f : response → response) : connM unit := modify (λ s, set_response (f (the_response s)) s).

(** [vector::operator[]]. *)
Definition at_ (path : list string) (i : nat) : connM string :=
  match path !! i with Some x => mret x | None => undefined end.

(** One call of the back end and its answer. *)
Definition execute (m : M C Ef database_response) : connM unit :=
  resp ← crud_call m;
  target ← gets (λ s, target (the_request s));
  respond (format_http_response target resp).

Definition handle_get (path : list string) : connM unit :=
  cmd ← at_ path REQUEST_PATH_IDX;
  if bool_decide (cmd = READ_REQ) then
    u ← at_ path UUID_PATH_IDX;
    k ← at_ path KEY_PATH_IDX;
    execute (backend_read null (DbMsg (DbHeader u 0) (DbRead k)) default_response)
  else respond (set_result bad_request).

(** The message that goes to the log. *)
Definition crud_msg (m : database_msg) : Value :=
  obj [("bzn-api", str "crud"); ("msg", str (base64_encode (SerializeAsString (BznDb m))))]%string.

Definition handle_post (path : list string) : connM unit :=
  post_data ← gets (λ s, req_body (the_request s));
  cmd ← at_ path REQUEST_PATH_IDX;
  if bool_decide (cmd = CREATE_REQ) then
    u ← at_ path UUID_PATH_IDX;
    k ← at_ path KEY_PATH_IDX;
    let m := DbMsg (DbHeader u 0) (DbCreate k post_data) in
    execute (backend_create (crud_msg m) m default_response)
  else if bool_decide (cmd = UPDATE_REQ) then
    u ← at_ path UUID_PATH_IDX;
    k ← at_ path KEY_PATH_IDX;
    let m := DbMsg (DbHeader u 0) (DbUpdate k post_data) in
    execute (backend_update (crud_msg m) m default_response)
  else if bool_decide (cmd = DELETE_REQ) then
    u ← at_ path UUID_PATH_IDX;
    k ← at_ path KEY_PATH_IDX;
    let m := DbMsg (DbHeader u 0) (DbDelete k) in
    execute (backend_delete (crud_msg m) m default_response)
  else respond (set_result bad_request).

Definition start_deadline_timer : connM unit := emit (StartDeadlineTimer HTTP_TIMEOUT).

(** The completion of the timer. *)
Definition handle_deadline (ec : bool) : connM unit := when (negb ec) (emit CloseSocket).

Definition write_response : connM unit :=
  modify (λ s, let r := the_response s in
    set_response (Response (result_code r) (location r) (body r) (req_version (the_request s)) server_name "text/plain"
                    (strlen (body r)) false) s);;
  r ← gets the_response;
  emit (AsyncWrite r).

Definition handle_written : connM unit := emit ShutdownSend.

Definition do_read_request : connM unit := start_deadline_timer;; emit AsyncRead.

(** The completion of the read of [req]. *)
Definition handle_read_done (ec : bool) (req : request) : connM unit :=
  if ec then mret tt
  else
    modify (set_request req);;
    emit CancelDeadlineTimer;;
    let path := split (target req) in
    (if negb (Nat.eqb (length path) MAX_PATH_SIZE) then respond (set_result bad_request)
     else match method req with
          | verb_get => handle_get path
          | verb_post => handle_post path
          | verb_other => respond (set_result bad_request)
          end);;
    write_response.

Definition start : connM unit :=
  started ← gets start_once;
  if (started : bool) then mret tt
  else modify (λ s, Connection (the_request s) (the_response s) true (crud s));; do_read_request.

(** A connection that was just accepted. *)
Definition accept (c : C) : connection := Connection (Request verb_other "" "" 11) empty_response false c.

End Connection.

(** *** Paths *)

(** The path that a client asks for. *)
Definition resource (cmd u k : string) : string := "/" ++ cmd ++ "/" ++ u ++ "/" ++ k.

Fixpoint no_slash (s : string) : bool :=
  match s with EmptyString => true | String c s => negb (bool_decide (c = "/"%char)) && no_slash s end.

Lemma split_slash s t : no_slash s = true → split (s ++ String "/" t) = s :: split t.
Proof.
  induction s as [|c s IH]; [done|]. cbn [no_slash]. intros [Hc Hs]%andb_true_iff.
  change (String c s ++ String "/" t)%string with (String c (s ++ String "/" t)). cbn [split].
  destruct (bool_decide (c = "/"%char)); [done|]. by rewrite IH.
Qed.

Lemma split_last s : no_slash s = true → split s = [s].
Proof.
  induction s as [|c s IH]; [done|]. cbn [no_slash split]. intros [Hc Hs]%andb_true_iff.
  destruct (bool_decide (c = "/"%char)); [done|]. by rewrite IH.
Qed.

Lemma split_resource cmd u k :
  no_slash cmd = true → no_slash u = true → no_slash k = true → split (resource cmd u k) = [""; cmd; u; k]%string.
Proof.
  intros Hc Hu Hk. unfold resource.
  repeat match goal with |- context [("/" ++ ?x)%string] => change ("/" ++ x)%string with (String "/" x) end.
  cbn [split]. by rewrite !split_slash, split_last.
Qed.

(** Splitting loses nothing. *)
Fixpoint join (ts : list string) : string :=
  match ts with [] => "" | [t] => t | t :: ts => t ++ "/" ++ join ts end.

Lemma join_split s : join (split s) = s.
Proof.
  induction s as [|c s IH]; [done|]. cbn [split]. destruct (split s) as [|t ts] eqn:E; [by destruct s; simpl in E; repeat case_match|].
  case_bool_decide as Hc; [subst c|]; [|destruct ts]; rewrite <-IH; done.
Qed.

End connection.

(** ** The server *)
Module server.
Section Server.
Context {C : Type}.

(** [start_once], and the back end the connections share. *)
Record server := Server { start_once : bool; crud : C }.

Inductive effect :=
| AsyncAccept
| StartConnection (c : connection.connection (C := C)).

Abbreviation serverM := (M server effect).

Definition do_accept : serverM unit := emit AsyncAccept.

Definition start : serverM unit :=
  started ← gets start_once;
  if (started : bool) then mret tt else modify (λ s, Server true (crud s));; do_accept.

(** The completion of the accept. *)
Definition handle_accepted (ec : bool) : serverM unit :=
  (if ec then mret tt else c ← gets crud; emit (StartConnection (connection.accept c)));;
  do_accept.

End Server.
End server.

(** ** The back end that [main] gives the server: CRUD over Raft *)
Module http_raft.
Import raft_crud raft_crud_props connection.

Section Backend.
Context {JS : Jsoncpp} {JL : JsoncppLaws} {BO : Boost} {BL : Base64Laws} {SE : Security} {MA : Message audit_message}
  {MB : Message bzn_msg} {ML : MessageLaws bzn_msg}.
Context (iteration : list peer_address_t → list peer_address_t) (server_name : string).
Context {S : Type} {ST : storage_base.Storage S}.

#[global] Instance raft_backend : CrudBackend (raft_crud (S := S)) raft_crud.effect := {
  backend_create m r resp := raft_crud.handle_create m r resp;
  backend_read _ r resp := raft_crud.handle_read iteration r resp;
  backend_update m r resp := raft_crud.handle_update iteration m r resp;
  backend_delete m r resp := raft_crud.handle_delete iteration m r resp
}.

Abbreviation conn := (connection (C := raft_crud (S := S))).
Abbreviation log_of s := (raft_log.log_entries (raft.log (raft_node s))).

(** The HTTP request for an operation, and the text of an answer. *)
Definition render (u : uuid_t) (o : database_op) : option request :=
  match o with
  | DbRead k => Some (Request verb_get (resource READ_REQ u k) "" 11)
  | DbCreate k v => Some (Request verb_post (resource CREATE_REQ u k) v 11)
  | DbUpdate k v => Some (Request verb_post (resource UPDATE_REQ u k) v 11)
  | DbDelete k => Some (Request verb_post (resource DELETE_REQ u k) "" 11)
  | _ => None
  end.

Definition op_key (o : database_op) : key_t :=
  match o with DbRead k | DbCreate k _ | DbUpdate k _ | DbDelete k => k | _ => ""%string end.

Definition text (x : database_result) : string :=
  match x with RespRead _ v => "ack" ++ v | RespError _ => "err" | _ => "ack" end.

(** The operation as the back end runs it. *)
Definition backend_run (u : uuid_t) (o : database_op) : M (raft_crud (S := S)) raft_crud.effect database_response :=
  let m := DbMsg (DbHeader u 0) o in
  match o with
  | DbRead _ => backend_read null m default_response
  | DbCreate _ _ => backend_create (crud_msg m) m default_response
  | DbUpdate _ _ => backend_update (crud_msg m) m default_response
  | _ => backend_delete (crud_msg m) m default_response
  end.

(** The response a connection writes. *)
Definition written (req : request) (resp : database_response) : response :=
  let r := format_http_response (target req) resp empty_response in
  Response (result_code r) (location r) (body r) (req_version req) server_name "text/plain" (strlen (body r)) false.

Lemma execute_run (m : M (raft_crud (S := S)) raft_crud.effect database_response) resp c' (s : conn) :
  m (crud s) = (Ok resp, c', []) →
  execute m s = (Ok tt, connection.set_response (format_http_response (target (the_request s)) resp (the_response s))
                          (set_crud c' s), []).
Proof using. intros Hm. unfold execute, crud_call, mbind, M_bind, res, post, out. by rewrite Hm. Qed.

(** The parts of a path of the right length. *)
Section Path.
Context {A : Type} (cmd u k : string) (f : string → M conn (connection.effect (Ef := raft_crud.effect)) A) (s : conn).
Lemma run_cmd : (at_ [""%string; cmd; u; k] REQUEST_PATH_IDX ≫= f) s = f cmd s.
Proof using. by apply run_bind. Qed.
Lemma run_uuid : (at_ [""%string; cmd; u; k] UUID_PATH_IDX ≫= f) s = f u s.
Proof using. by apply run_bind. Qed.
Lemma run_key : (at_ [""%string; cmd; u; k] KEY_PATH_IDX ≫= f) s = f k s.
Proof using. by apply run_bind. Qed.
End Path.

(** The handler that the path selects runs the operation. *)
Lemma handler_run u o req resp c c' :
  render u o = Some req → backend_run u o c = (Ok resp, c', []) →
  ∃ cmd, let s := Connection req empty_response false c in
  target req = resource cmd u (op_key o) ∧ no_slash cmd = true ∧
  match method req with
  | verb_get => handle_get [""%string; cmd; u; op_key o]
  | verb_post => handle_post [""%string; cmd; u; op_key o]
  | verb_other => respond (connection.set_result bad_request)
  end s = (Ok tt, connection.set_response (format_http_response (target req) resp empty_response) (set_crud c' s), []).
Proof using.
  intros Hr Hrun. destruct o as [|k v|k|k v|k|k| | | |]; try done; injection Hr as <-; unfold backend_run in Hrun;
    cbn [op_key method target]; eexists; (split; [reflexivity|split; [reflexivity|]]).
  - unfold handle_post. rewrite run_gets, run_cmd, bool_decide_true, run_uuid, run_key by done. by apply execute_run.
  - unfold handle_get. rewrite run_cmd, bool_decide_true, run_uuid, run_key by done. by apply execute_run.
  - unfold handle_post. rewrite run_gets, run_cmd, bool_decide_false, bool_decide_true, run_uuid, run_key by done.
    by apply execute_run.
  - unfold handle_post. rewrite run_gets, run_cmd, bool_decide_false, bool_decide_false, bool_decide_true, run_uuid, run_key by done.
    by apply execute_run.
Qed.

Lemma read_done_run u o req resp (c c' : raft_crud (S := S)) :
  no_slash u = true → no_slash (op_key o) = true → render u o = Some req →
  backend_run u o c = (Ok resp, c', []) →
  handle_read_done server_name false req (accept c) =
    (Ok tt, Connection req (written req resp) false c', [CancelDeadlineTimer; AsyncWrite (written req resp)]).
Proof using.
  intros Hu Hk Hr Hrun. destruct (handler_run u o req resp c c' Hr Hrun) as (cmd & Ht & Hc & Hh).
  unfold handle_read_done. cbn [negb]. rewrite run_modify, run_emit, Ht, split_resource by done.
  change (set_request req (accept c)) with (Connection req empty_response false c).
  unfold res, post, out. cbn [length Nat.eqb MAX_PATH_SIZE negb].
  rewrite (run_bind _ _ _ _ _ Hh). done.
Qed.
(** The message the front end makes of a request is one that commits. *)
Lemma crud_msg_logged (m : database_msg) : well_formed m = true → logged_request (crud_msg m) = Some m.
Proof using JL BL ML.
  intros Hw. unfold logged_request, crud_msg. rewrite (member_obj _ "msg" (str (base64_encode (SerializeAsString (BznDb m))))).
  - by rewrite isString_str, asString_str, base64_decode_encode, (parse_serialize (BznDb m) Hw).
  - simpl. apply NoDup_cons. split; [by intros ?%list_elem_of_singleton|apply NoDup_singleton].
  - by right; left.
Qed.

End Backend.
End http_raft.

(** ** Claims *)

Section Claims.
Import raft_crud raft_crud_props connection http_raft.
Context {JS : Jsoncpp} {JL : JsoncppLaws} {BO : Boost} {BL : Base64Laws} {SE : Security} {MA : Message audit_message}
  {MB : Message bzn_msg} {ML : MessageLaws bzn_msg}.
Context (iteration : list peer_address_t → list peer_address_t) (server_name : string).
Context {S : Type} {ST : storage_base.Storage S}.
Context (valid_uuid : uuid_t → Prop) (wf : S → Prop) (R : S → storage_spec.contents → Prop)
  {Href : StorageRefines S valid_uuid wf R} {Hrel : ReliableStorage S valid_uuid}.

Abbreviation log_of s := (raft_log.log_entries (raft.log (raft_node s))).

(** C27: An HTTP request on the leader's front end is executed like the request
    of a websocket client: it is answered once, with [ack] and the value, or
    [err] when the store would refuse it; the store does not change; and the
    entry an accepted write adds to the log is the one from which a commit, or
    a replay, reads back exactly the operation asked for, when the database and the
    key are UTF-8 (any other text protobuf writes, but does not read back). *)
Theorem http_leader_executes (u : uuid_t) (o : database_op) (req : request) (l : peer_address_t)
    (m : storage_spec.contents) (x : database_result) (appended : bool) (s : raft_crud (S := S)) :
  render u o = Some req → no_slash u = true → no_slash (op_key o) = true →
  wf (storage s) → R (storage s) m → valid_uuid u →
  raft.current_state (raft_node s) = raft_state.leader → res (raft.get_leader iteration) (raft_node s) = Ok l →
  writable (raft.log (raft_node s)) = true →
  outcome raft_state.leader (redirect_to l) (DbMsg (DbHeader u 0) o) m = Some (x, appended) →
  let run := handle_read_done (CB := raft_backend iteration) server_name false req in
  ∃ r e, out run (accept s) = [CancelDeadlineTimer; AsyncWrite r] ∧
    result_code r = status_ok ∧ body r = text x ∧ content_length r = strlen (text x) ∧
    storage (crud (post run (accept s))) = storage s ∧
    log_of (crud (post run (accept s))) = log_of s ++ (if appended then [e] else []) ∧
    (well_formed (DbMsg (DbHeader u 0) o) = true → logged_request (entry_msg e) = Some (DbMsg (DbHeader u 0) o)).
Proof.
  intros Hreq Hu Hk Hw HR Hv Hlead Hl Hwr Ho. set (m0 := DbMsg (DbHeader u 0) o) in *.
  destruct (leader_outcome iteration valid_uuid wf R (crud_msg m0) m0 default_response l m s eq_refl Hw HR Hv Hwr
              (x, appended) Hlead Ho) as (c' & Hrun & Hst & Hlog).
  assert (backend_run iteration u o s = (Ok (Messages.set_response x default_response), c', [])) as Hback.
  { destruct o; try done; exact Hrun. }
  cbn zeta. unfold out, post. rewrite (read_done_run iteration server_name u o req _ s c' Hu Hk Hreq Hback).
  exists (written server_name req (Messages.set_response x default_response)), (new_entry (crud_msg m0) (raft_node s)).
  cbn [fst snd crud entry_msg new_entry]. split_and!; [done| | | |done|done|apply crud_msg_logged].
  all: unfold outcome in Ho; destruct o; try done; injection Ho as Ho;
    unfold written, format_http_response; cbn [Messages.response Messages.set_response];
    repeat case_match; simplify_eq/=; try done.
Qed.

(** A finding.  A create that reaches a node which does not lead is lost: the
    handler neither appends it nor points to the leader, and the client is told
    [ack]. *)
Theorem http_create_off_leader_is_lost (u : uuid_t) (k : key_t) (v : value_t) (s : raft_crud (S := S)) :
  no_slash u = true → no_slash k = true →
  raft.current_state (raft_node s) ≠ raft_state.leader →
  (strlen v ≤ storage_base.MAX_VALUE_SIZE)%N → (strlen k ≤ storage_base.MAX_KEY_SIZE)%N →
  storage_base.has u k (storage s) = false →
  let run := handle_read_done (CB := raft_backend iteration) server_name false
               (Request verb_post (resource CREATE_REQ u k) v 11) in
  ∃ r, out run (accept s) = [CancelDeadlineTimer; AsyncWrite r] ∧ result_code r = status_ok ∧ body r = "ack"%string ∧
    crud (post run (accept s)) = s.
Proof.
  intros Hu Hk Hl Hv Hks Hh run. set (m0 := DbMsg (DbHeader u 0) (DbCreate k v)).
  assert (backend_run iteration u (DbCreate k v) s = (Ok default_response, s, [])) as Hback.
  { change (handle_create (crud_msg m0) m0 default_response s = (Ok default_response, s, [])). unfold handle_create.
    cbn [request_create msg m0]. unfold validate_value_size, validate_key_size. rewrite !(proj2 (N.ltb_ge _ _)) by done.
    unfold storage_has, is_leader. rewrite run_gets. cbn [header db_uuid m0]. rewrite Hh, run_gets.
    by rewrite bool_decide_false. }
  unfold run, out, post. rewrite (read_done_run iteration server_name u (DbCreate k v) _ default_response s s Hu Hk eq_refl Hback).
  by eexists.
Qed.
End Claims.

Section Witnesses.
Import json_tree letters sample_swarm raft_crud sample_node connection http_raft.

Lemma bzn_codec_laws : MessageLaws bzn_msg (Message0 := codec).
Proof. apply countable_message_laws. Qed.

Lemma leader_of_swarm : res (raft.get_leader id) (raft_node leader) = Ok leader_peer.
Proof.
  assert (returns (res (raft.get_leader id) (raft_node leader)) = true) as H by (vm_compute; reflexivity).
  unfold leader_peer. destruct (res (raft.get_leader id) (raft_node leader)); [reflexivity|discriminate..].
Qed.

Example http_leader_executes_witness :
  ∃ r, out (handle_read_done (MB := codec) (CB := raft_backend id) "Bluzelle/1" false
              (Request verb_post (resource CREATE_REQ "d" "k") "v" 11)) (accept leader) = [CancelDeadlineTimer; AsyncWrite r] ∧
       body r = "ack"%string.
Proof.
  destruct (http_leader_executes (ML := bzn_codec_laws) id "Bluzelle/1" (λ _, True) (λ _, True) mem_storage.represents
    "d" (DbCreate "k" "v") _ leader_peer ∅ RespNotSet true leader eq_refl eq_refl eq_refl I) as (r & e & Ho & _ & Hb & _).
  - intros u k. vm_compute. reflexivity.
  - exact I.
  - vm_compute. reflexivity.
  - exact leader_of_swarm.
  - vm_compute. reflexivity.
  - vm_compute. reflexivity.
  - exists r. split; [exact Ho|exact Hb].
Defined.

Example http_create_off_leader_is_lost_witness :
  crud (post (handle_read_done (MB := codec) (CB := raft_backend id) "Bluzelle/1" false
                (Request verb_post (resource CREATE_REQ "d" "k") "v" 11)) (accept start_node)) = start_node.
Proof.
  destruct (http_create_off_leader_is_lost (MB := codec) id "Bluzelle/1" "d" "k" "v" start_node) as (r & _ & _ & _ & H);
    [reflexivity|reflexivity| |vm_compute; discriminate|vm_compute; discriminate|reflexivity|exact H].
  vm_compute. discriminate.
Defined.
End Witnesses.
