(* ===== verification/Node.v ===== *)
(** * The network front end of a node

    [chaos/chaos.cpp], [crypto/crypto.cpp], [node/session.cpp] and
    [node/node.cpp]: deliberate faults, signatures, one websocket connection,
    and the node that accepts connections, dispatches messages to the handlers
    registered for them and sends messages to other nodes.

    Completions of asynchronous calls are operations of their own, with the
    error code as an argument; random draws are arguments. *)

From S2P Require Import Prelude Messages Json.
From Stdlib Require Import QArith Qround.
#[local] Close Scope Q_scope.
#[local] Open Scope stdpp_scope.

(** ** Chaos *)
Module chaos.

Record options := Options {
  CHAOS_ENABLED : bool;
  CHAOS_NODE_FAILURE_SHAPE : Q;
  CHAOS_NODE_FAILURE_SCALE : Q;
  CHAOS_MESSAGE_DELAY_CHANCE : Q;
  CHAOS_MESSAGE_DELAY_TIME : N;
  CHAOS_MESSAGE_DROP_CHANCE : Q
}.

Inductive effect := StartCrashTimer (milliseconds : Z) | Abort_.

(** [start_once]. *)
Abbreviation chaosM := (M bool effect).

Definition enabled (o : options) : bool := CHAOS_ENABLED o.

(** [hours]: the draw from the Weibull distribution of the options. *)
Definition start_crash_timer (hours : Q) : chaosM unit := emit (StartCrashTimer (Qfloor (hours * inject_Z 3600000)%Q)).

Definition start (o : options) (hours : Q) : chaosM unit :=
  when (enabled o)
    (started ← gets id;
     if (started : bool) then mret tt else modify (λ _, true);; start_crash_timer hours).

Definition handle_crash_timer : chaosM unit := emit Abort_.

(** [chance > draw], the draw in [0, 1). *)
Definition hits (chance draw : Q) : bool := negb (Qle_bool chance draw).

Definition is_message_delayed (o : options) (draw : Q) : bool := enabled o && hits (CHAOS_MESSAGE_DELAY_CHANCE o) draw.
Definition is_message_dropped (o : options) (draw : Q) : bool := enabled o && hits (CHAOS_MESSAGE_DROP_CHANCE o) draw.

(** Milliseconds until the callback is called. *)
Definition reschedule_message (o : options) : N := CHAOS_MESSAGE_DELAY_TIME o.

End chaos.

(** ** Signatures *)

(** OpenSSL: reading and checking a public key in PEM format, loading and
    checking a private key from a file, and SHA-512 digests. *)
Class OpenSSL := {
  public_key : Type;
  private_key : Type;
  read_public_key : string → option public_key;
  read_private_key : string → option private_key;
  digest_verify : public_key → string → string → bool;
  digest_sign : private_key → string → option string;
  sha512 : string → option string;
  (** the key pairs *)
  key_pair : private_key → public_key → Prop
}.

(** What is signed with a private key verifies under its public key. *)
Class OpenSSLLaws `{!OpenSSL} : Prop := {
  sign_verifies sk pk p sig : key_pair sk pk → digest_sign sk p = Some sig → digest_verify pk p sig = true
}.

(** The field numbers of the [oneof]. *)
Definition payload_case_number (c : payload_case) : N :=
  match c with
  | PAYLOAD_NOT_SET => 0 | kPbftRequest => 3 | kDatabaseResponse => 4 | kJson => 5 | kAudit => 6
  | kPbft => 7 | kPbftMembership => 8 | kStatusRequest => 9
  end.

#[export] Instance payload_case_countable : Countable payload_case.
Proof.
  refine (inj_countable' payload_case_number
    (λ n, match n with
          | 3 => kPbftRequest | 4 => kDatabaseResponse | 5 => kJson | 6 => kAudit | 7 => kPbft
          | 8 => kPbftMembership | 9 => kStatusRequest | _ => PAYLOAD_NOT_SET
          end%N) _).
  by intros [].
Defined.

Module crypto.
Section Crypto.
Context {SSL : OpenSSL}.

Definition PEM_PREFIX : string := "-----BEGIN PUBLIC KEY-----" ++ String "010" "".
Definition PEM_SUFFIX : string := String "010" ("-----END PUBLIC KEY-----" ++ String "010" "").

(** [private_key_EVP], null when no key was loaded, and the uuid of the options. *)
Record crypto := Crypto { private_key_EVP : option private_key; options_uuid : uuid_t }.

Definition load_private_key (filename : string) : option private_key := read_private_key filename.

Definition new (crypto_enabled_outgoing : bool) (filename : string) (u : uuid_t) : crypto :=
  Crypto (if crypto_enabled_outgoing then load_private_key filename else None) u.

Definition extract_payload (msg : bzn_envelope) : result string :=
  match env_case msg with
  | kPbftRequest | kDatabaseResponse | kJson | kAudit | kPbft | kPbftMembership => Ok (payload msg)
  | c => Throw ("Crypto does not know how to handle a message with type " ++ to_string (payload_case_number c))
  end.

(** [BIO_write] of nothing does not return a positive number. *)
Definition verify (msg : bzn_envelope) : result bool :=
  if bool_decide (sender msg = ""%string) then Ok false
  else match read_public_key (PEM_PREFIX ++ sender msg ++ PEM_SUFFIX) with
       | None => Ok false
       | Some key =>
           match extract_payload msg with
           | Ok p => Ok (digest_verify key p (signature msg))
           | Throw w => Throw w
           | Undefined => Undefined
           end
       end.

Definition set_sender (u : uuid_t) (msg : bzn_envelope) : bzn_envelope :=
  Envelope u (signature msg) (env_case msg) (payload msg).
Definition set_signature (s : string) (msg : bzn_envelope) : bzn_envelope :=
  Envelope (sender msg) s (env_case msg) (payload msg).

(** The message is changed in place. *)
Definition sign (c : crypto) (msg : bzn_envelope) : result bool * bzn_envelope :=
  let msg := if bool_decide (sender msg = ""%string) then set_sender (options_uuid c) msg else msg in
  if negb (bool_decide (sender msg = options_uuid c)) then (Ok false, msg)
  else match private_key_EVP c with
       | None => (Ok false, msg)
       | Some key =>
           match extract_payload msg with
           | Ok p => match digest_sign key p with
                     | Some s => (Ok true, set_signature s msg)
                     | None => (Ok false, msg)
                     end
           | Throw w => (Throw w, msg)
           | Undefined => (Undefined, msg)
           end
       end.

Definition hash (msg : string) : result string :=
  match sha512 msg with
  | Some h => Ok h
  | None => Throw (String "010" ("failed to compute message hash " ++ msg))
  end.

End Crypto.
End crypto.

(** ** One connection *)
Module session.
Section Session.
Context {JS : Jsoncpp} {ME : Message bzn_envelope}.

Definition DEFAULT_WS_TIMEOUT_MS : N := 10000.

Record session := Session {
  get_session_id : session_id;
  ws_idle_timeout : N;
  handlers : bool;                 (* whether [start] has set them *)
  chaos_options : chaos.options
}.

(** What [reschedule_message] binds. *)
Inductive delayed := DelayedMessage (msg : string) (end_session : bool) | DelayedDatagram (msg : string).

Inductive effect :=
| AsyncAccept
| AsyncRead
| StartIdleTimer (milliseconds : N)
| CancelIdleTimer
| Write (msg : string)
| AsyncClose
| Reschedule (milliseconds : N) (what : delayed)
| CallHandler (msg : Value)
| CallProtoHandler (msg : bzn_envelope).

Abbreviation sessionM := (M session effect).

Definition new (id : session_id) (timeout : N) (o : chaos.options) : session :=
  Session id (if (timeout =? 0)%N then DEFAULT_WS_TIMEOUT_MS else timeout) false o.

Definition start_idle_timeout : sessionM unit :=
  emit CancelIdleTimer;;
  ms ← gets ws_idle_timeout;
  emit (StartIdleTimer ms).

(** The close on a timeout is compiled out. *)
Definition handle_idle_timeout (ec : bool) : sessionM unit := mret tt.

Definition do_read : sessionM unit := start_idle_timeout;; emit AsyncRead.

Definition start (is_open : bool) : sessionM unit :=
  modify (λ s, Session (get_session_id s) (ws_idle_timeout s) true (chaos_options s));;
  when (negb is_open) (emit AsyncAccept).

Definition handle_accepted (ec : bool) : sessionM unit := if ec then mret tt else do_read.

(** The completion of a read: JSON is tried first. *)
Definition handle_read (ec : bool) (bytes : string) : sessionM unit :=
  emit CancelIdleTimer;;
  if ec then mret tt
  else match parse bytes with
       | Some v => emit (CallHandler v)
       | None =>
           match ParseFromString bytes with
           | Some e => emit (CallProtoHandler e)
           | None => mret tt
           end
       end.

Definition close (is_open : bool) : sessionM unit := emit CancelIdleTimer;; when is_open (emit AsyncClose).

(** [delay] and [drop]: the draws; [ec]: the result of the write. *)
Definition send_message (delay drop : Q) (ec is_open : bool) (msg : string) (end_session : bool) : sessionM unit :=
  o ← gets chaos_options;
  if chaos.is_message_delayed o delay then
    emit (Reschedule (chaos.reschedule_message o) (DelayedMessage msg end_session))
  else if chaos.is_message_dropped o drop then mret tt
  else
    emit CancelIdleTimer;;
    emit (Write msg);;
    if ec then close is_open
    else if end_session then close is_open
    else do_read.

Definition send_json (delay drop : Q) (ec is_open : bool) (msg : Value) (end_session : bool) : sessionM unit :=
  send_message delay drop ec is_open (toStyledString msg) end_session.

Definition send_datagram (delay drop : Q) (ec is_open : bool) (msg : string) : sessionM unit :=
  o ← gets chaos_options;
  if chaos.is_message_delayed o delay then emit (Reschedule (chaos.reschedule_message o) (DelayedDatagram msg))
  else if chaos.is_message_dropped o drop then mret tt
  else
    emit (Write msg);;
    if ec then close is_open else mret tt.

End Session.
End session.

(** ** The node *)
Module node.
Section Node.
Context {JS : Jsoncpp} {SSL : OpenSSL} {ME : Message bzn_envelope} {H : Type}.

Definition BZN_API_KEY : string := "bzn-api".

(** A handler is named by a value of [H]. *)
Record node := Node {
  message_map : gmap string H;
  protobuf_map : gmap payload_case H;
  start_once : bool;
  session_id_counter : N;
  crypto_enabled_incoming : bool;
  crypto_enabled_outgoing : bool;
  the_crypto : crypto.crypto;
  chaos_options : chaos.options
}.

Inductive effect :=
| AsyncAccept
| NewSession (id : session_id)                              (* made and started *)
| CallMessageHandler (h : H) (msg : Value) (session : session_id)
| CallProtobufHandler (h : H) (msg : bzn_envelope) (session : session_id)
| CloseSession (session : session_id)
| AsyncConnect (ep : endpoint) (msg : string)
| AsyncHandshake (ep : endpoint) (msg : string)
| SessionSend (session : session_id) (msg : string) (end_session : bool)
| Reschedule (milliseconds : N) (ep : endpoint) (msg : string).

Abbreviation nodeM := (M node effect).

Definition set_maps (m : gmap string H) (p : gmap payload_case H) (s : node) : node :=
  Node m p (start_once s) (session_id_counter s) (crypto_enabled_incoming s) (crypto_enabled_outgoing s) (the_crypto s)
    (chaos_options s).
Definition set_counter (started : bool) (n : N) (s : node) : node :=
  Node (message_map s) (protobuf_map s) started n (crypto_enabled_incoming s) (crypto_enabled_outgoing s) (the_crypto s)
    (chaos_options s).

Definition do_accept : nodeM unit := emit AsyncAccept.

Definition start : nodeM unit :=
  started ← gets start_once;
  if (started : bool) then mret tt
  else modify (λ s, set_counter true (session_id_counter s) s);; do_accept.

(** [None] is an empty [std::function]. *)
Definition register_for_message (msg_type : string) (msg_handler : option H) : nodeM bool :=
  match msg_handler with
  | None => mret false
  | Some h =>
      m ← gets message_map;
      match m !! msg_type with
      | Some _ => mret false
      | None => modify (λ s, set_maps (<[msg_type := h]> (message_map s)) (protobuf_map s) s);; mret true
      end
  end.

Definition register_for_payload (type : payload_case) (msg_handler : option H) : nodeM bool :=
  match msg_handler with
  | None => mret false
  | Some h =>
      m ← gets protobuf_map;
      match m !! type with
      | Some _ => mret false
      | None => modify (λ s, set_maps (message_map s) (<[type := h]> (protobuf_map s)) s);; mret true
      end
  end.

(** [++session_id_counter], a [uint64_t]. *)
Definition next_session_id : nodeM session_id :=
  modify (λ s, set_counter (start_once s) (add64 (session_id_counter s) 1) s);;
  gets session_id_counter.

Definition handle_accepted (ec : bool) : nodeM unit :=
  (if ec then mret tt else id ← next_session_id; emit (NewSession id));;
  do_accept.

Definition priv_msg_handler (msg : Value) (session : session_id) : nodeM unit :=
  known ← lift (isMember msg BZN_API_KEY);
  h ← (if (known : bool) then
         v ← lift (member msg BZN_API_KEY);
         t ← lift (asString v);
         m ← gets message_map;
         mret (m !! t)
       else mret None);
  match h with
  | Some h => emit (CallMessageHandler h msg session)
  | None => emit (CloseSession session)
  end.

Definition priv_protobuf_handler (msg : bzn_envelope) (session : session_id) : nodeM unit :=
  incoming ← gets crypto_enabled_incoming;
  dropped ← (if incoming && negb (bool_decide (sender msg = ""%string)) then
               valid ← lift (crypto.verify msg); mret (negb valid)
             else mret false);
  if (dropped : bool) then mret tt
  else
    m ← gets protobuf_map;
    match m !! env_case msg with
    | Some h => emit (CallProtobufHandler h msg session)
    | None => mret tt
    end.

Definition send_message_str (delay drop : Q) (ep : endpoint) (msg : string) : nodeM unit :=
  o ← gets chaos_options;
  if chaos.is_message_delayed o delay then emit (Reschedule (chaos.reschedule_message o) ep msg)
  else if chaos.is_message_dropped o drop then mret tt
  else emit (AsyncConnect ep msg).

Definition handle_connected (ec : bool) (ep : endpoint) (msg : string) : nodeM unit :=
  if ec then mret tt else emit (AsyncHandshake ep msg).

Definition handle_handshaken (ec : bool) (msg : string) : nodeM unit :=
  if ec then mret tt
  else id ← next_session_id; emit (NewSession id);; emit (SessionSend id msg false).

Definition send_json (delay drop : Q) (ep : endpoint) (msg : Value) : nodeM unit :=
  send_message_str delay drop ep (toStyledString msg).

(** The envelope, which the caller shares, gets a sender and a signature; it is
    returned. *)
Definition send_message (delay drop : Q) (ep : endpoint) (msg : bzn_envelope) : nodeM bzn_envelope :=
  s ← gets id;
  let msg := if bool_decide (sender msg = ""%string) then crypto.set_sender (crypto.options_uuid (the_crypto s)) msg else msg in
  msg ← (if bool_decide (signature msg = ""%string) && crypto_enabled_outgoing s then
           let '(r, msg) := crypto.sign (the_crypto s) msg in lift r;; mret msg
         else mret msg);
  send_message_str delay drop ep (SerializeAsString msg);;
  mret msg.

End Node.
End node.

(** ** Properties *)
Module node_props.
Import node.

Section Dispatch.
Context {JS : Jsoncpp} {SSL : OpenSSL} {ME : Message bzn_envelope} {H : Type}.
Abbreviation nodeM := (M (node (H := H)) (effect (H := H))).

(** What the signature check lets through. *)
Definition accepts (s : node (H := H)) (msg : bzn_envelope) : Prop :=
  crypto_enabled_incoming s = true → sender msg = ""%string ∨ crypto.verify msg = Ok true.

Lemma dispatch_accepted s msg session :
  accepts s msg →
  priv_protobuf_handler msg session s =
    (Ok tt, s, match protobuf_map s !! env_case msg with Some h => [CallProtobufHandler h msg session] | None => [] end).
Proof using.
  intros Ha. unfold priv_protobuf_handler. rewrite run_gets.
  assert (∀ f : bool → nodeM unit,
    ((if crypto_enabled_incoming s && negb (bool_decide (sender msg = ""%string))
      then valid ← lift (crypto.verify msg); mret (negb valid) else mret false) ≫= f) s = f false s) as Hd.
  { intros f. apply run_bind. unfold accepts in Ha. destruct (crypto_enabled_incoming s); [|done].
    destruct (Ha eq_refl) as [->|Hv]; [done|]. case_bool_decide; [done|]. cbn [andb negb]. by rewrite Hv, run_lift. }
  rewrite Hd. cbn [negb]. rewrite run_gets. by destruct (protobuf_map s !! env_case msg).
Qed.

Lemma dispatch_refused s msg session : ¬ accepts s msg → out (priv_protobuf_handler msg session) s = [].
Proof using.
  intros Ha. unfold priv_protobuf_handler. rewrite out_bind, out_gets, res_gets, post_gets. cbn [app].
  destruct (crypto_enabled_incoming s) eqn:Hi; [|by destruct Ha; unfold accepts; rewrite Hi].
  case_bool_decide as Hs; [by destruct Ha; left|]. cbn [andb negb].
  destruct (crypto.verify msg) as [[]| |] eqn:Hv; [by destruct Ha; right|done..].
Qed.

(** *** Runs *)

Inductive event :=
| Start
| Accepted (ec : bool)
| Connected (ec : bool) (ep : endpoint) (msg : string)
| Handshaken (ec : bool) (msg : string)
| ReceiveJson (msg : Value) (session : session_id)
| ReceiveProtobuf (msg : bzn_envelope) (session : session_id)
| RegisterMessage (t : string) (h : option H)
| RegisterPayload (t : payload_case) (h : option H)
| SendJson (delay drop : Q) (ep : endpoint) (msg : Value)
| SendString (delay drop : Q) (ep : endpoint) (msg : string)
| SendEnvelope (delay drop : Q) (ep : endpoint) (msg : bzn_envelope).

Definition handle_event (e : event) : nodeM unit :=
  match e with
  | Start => start
  | Accepted ec => handle_accepted ec
  | Connected ec ep msg => handle_connected ec ep msg
  | Handshaken ec msg => handle_handshaken ec msg
  | ReceiveJson msg session => priv_msg_handler msg session
  | ReceiveProtobuf msg session => priv_protobuf_handler msg session
  | RegisterMessage t h => register_for_message t h;; mret tt
  | RegisterPayload t h => register_for_payload t h;; mret tt
  | SendJson delay drop ep msg => send_json delay drop ep msg
  | SendString delay drop ep msg => send_message_str delay drop ep msg
  | SendEnvelope delay drop ep msg => send_message delay drop ep msg;; mret tt
  end.

Fixpoint run (evs : list event) (s : node (H := H)) : node * list effect :=
  match evs with
  | [] => (s, [])
  | e :: evs => let r := run evs (post (handle_event e) s) in (r.1, out (handle_event e) s ++ r.2)
  end.

Definition new_sessions (es : list (effect (H := H))) : list session_id :=
  omap (λ e, match e with NewSession id => Some id | _ => None end) es.

Lemma new_sessions_app es es' : new_sessions (es ++ es') = new_sessions es ++ new_sessions es'.
Proof using. apply omap_app. Qed.

(** Each event makes at most one session, with the next number, and keeps the
    handlers that are registered. *)
Definition advances (s s' : node (H := H)) (es : list effect) : Prop :=
  message_map s ⊆ message_map s' ∧ protobuf_map s ⊆ protobuf_map s' ∧
  (session_id_counter s' = session_id_counter s ∧ new_sessions es = [] ∨
   session_id_counter s' = add64 (session_id_counter s) 1 ∧ new_sessions es = [session_id_counter s']).

Lemma advances_quiet s es : new_sessions es = [] → advances s s es.
Proof using. intros Hes. split_and!; [done..|]. by left. Qed.

(** The methods that change nothing and make no session. *)
Definition quiet {A} (m : M (node (H := H)) (effect (H := H)) A) : Prop :=
  ∀ s, post m s = s ∧ new_sessions (out m s) = [].

Lemma quiet_query {A} (m : M (node (H := H)) (effect (H := H)) A) : query m → quiet m.
Proof using. intros Hm s. unfold post, out. by rewrite (Hm s). Qed.

Lemma quiet_emit e : match e with NewSession _ => False | _ => True end → quiet (emit e).
Proof using. intros He s. by destruct e. Qed.

Lemma quiet_seq {A B} (m : M (node (H := H)) (effect (H := H)) A) (k : A → M (node (H := H)) (effect (H := H)) B) :
  quiet m → (∀ a, quiet (k a)) → quiet (m ≫= k).
Proof using.
  intros Hm Hk s. rewrite post_bind, out_bind, new_sessions_app. destruct (Hm s) as [-> ->].
  destruct (res m s) as [a| |]; [apply Hk|done..].
Qed.

Ltac quiet_steps :=
  repeat first
    [ apply quiet_seq; [|intros ?]
    | apply quiet_emit; exact I
    | apply quiet_query; solve [auto with query nocore]
    | match goal with |- quiet (match ?x with _ => _ end) => destruct x end ].

Lemma quiet_send delay drop ep msg : quiet (send_message_str delay drop ep msg).
Proof using. unfold send_message_str. quiet_steps. Qed.

Lemma quiet_protobuf msg session : quiet (priv_protobuf_handler msg session).
Proof using. unfold priv_protobuf_handler. quiet_steps. Qed.

Lemma quiet_json msg session : quiet (priv_msg_handler msg session).
Proof using. unfold priv_msg_handler. quiet_steps. Qed.

Lemma quiet_send_envelope delay drop ep msg : quiet (send_message delay drop ep msg).
Proof using. pose proof quiet_send. unfold send_message. quiet_steps; auto. Qed.

Lemma quiet_advances {A} (m : M (node (H := H)) (effect (H := H)) A) s :
  quiet m → advances s (post m s) (out m s).
Proof using. intros Hm. destruct (Hm s) as [-> ?]. by apply advances_quiet. Qed.

Lemma event_advances e s : advances s (post (handle_event e) s) (out (handle_event e) s).
Proof using.
  destruct e as [|ec|ec ep msg|ec msg|msg session|msg session|t h|t h|delay drop ep msg|delay drop ep msg|delay drop ep msg];
    cbn [handle_event].
  - unfold start. rewrite post_bind, out_bind, res_gets, post_gets. destruct (start_once s); [by apply advances_quiet|].
    split_and!; [done..|]. by left.
  - destruct ec; [by apply advances_quiet|]. split_and!; [done..|]. by right.
  - destruct ec; by apply advances_quiet.
  - destruct ec; [by apply advances_quiet|]. split_and!; [done..|]. by right.
  - apply quiet_advances, quiet_json.
  - apply quiet_advances, quiet_protobuf.
  - unfold register_for_message. destruct h as [h|]; [|by apply advances_quiet].
    rewrite !post_bind, !out_bind, !res_bind, !res_gets, !post_gets.
    destruct (message_map s !! t) eqn:Ht; [by apply advances_quiet|]. split_and!; [by apply insert_subseteq|done|by left].
  - unfold register_for_payload. destruct h as [h|]; [|by apply advances_quiet].
    rewrite !post_bind, !out_bind, !res_bind, !res_gets, !post_gets.
    destruct (protobuf_map s !! t) eqn:Ht; [by apply advances_quiet|]. split_and!; [done|by apply insert_subseteq|by left].
  - apply quiet_advances, quiet_send.
  - apply quiet_advances, quiet_send.
  - apply quiet_advances. apply quiet_seq; [apply quiet_send_envelope|]. intros ?. by apply quiet_query.
Qed.

(** The sessions of a run are numbered upwards from the counter. *)
Lemma run_advances evs s :
  (session_id_counter s + lengthN evs < 2 ^ 64)%N →
  let r := run evs s in
  message_map s ⊆ message_map r.1 ∧ protobuf_map s ⊆ protobuf_map r.1 ∧
  (session_id_counter s ≤ session_id_counter r.1)%N ∧ NoDup (new_sessions r.2) ∧
  ∀ id, id ∈ new_sessions r.2 → (session_id_counter s < id ≤ session_id_counter r.1)%N.
Proof using.
  revert s. induction evs as [|e evs IH]; intros s Hb; cbn zeta.
  { split_and!; [done..|constructor|]. by intros ? ?%elem_of_nil. }
  cbn [run fst snd]. destruct (event_advances e s) as (Hm & Hp & Hc). unfold lengthN in *. cbn [length] in Hb.
  assert (session_id_counter (post (handle_event e) s) ≤ session_id_counter s + 1)%N as Hle.
  { destruct Hc as [[-> _]|[-> _]]; [lia|]. rewrite add64_small by lia. lia. }
  destruct (IH (post (handle_event e) s)) as (Hm' & Hp' & Hle' & Hnd & Hids); [lia|]. rewrite new_sessions_app.
  split_and!; [by etrans|by etrans|..].
  - destruct Hc as [[E _]|[E _]]; rewrite E in *; [lia|]. rewrite add64_small in Hle' by lia. lia.
  - destruct Hc as [[_ ->]|[_ ->]]; [done|]. apply NoDup_cons. split; [|done]. intros ?%Hids. lia.
  - intros id [Hin|Hin]%elem_of_app; [|apply Hids in Hin; destruct Hc as [[E _]|[E _]]; rewrite E in *; [done|];
      rewrite add64_small in Hin by lia; lia].
    destruct Hc as [[_ Ho]|[E Ho]]; rewrite Ho in Hin; [by apply elem_of_nil in Hin|].
    apply list_elem_of_singleton in Hin as ->. rewrite E in *. rewrite add64_small in * by lia. lia.
Qed.

End Dispatch.
End node_props.

(** ** Claims *)

Section Claims.
Import node node_props.
Context {JS : Jsoncpp} {SSL : OpenSSL} {ME : Message bzn_envelope} {H : Type}.

(** Only authentic messages are dispatched.  With the check of signatures
    on, a protobuf message is handed on exactly when its signature verifies
    under the key its sender names (or it names no sender: such a message is
    not checked at all); then it goes, unchanged and once, to the handler
    registered for its kind, and to no other. *)
Theorem node_dispatches_verified (msg : bzn_envelope) (session : session_id) (s : node (H := H)) :
  (accepts s msg →
   priv_protobuf_handler msg session s =
     (Ok tt, s, match protobuf_map s !! env_case msg with Some h => [CallProtobufHandler h msg session] | None => [] end)) ∧
  (crypto_enabled_incoming s = true → sender msg ≠ ""%string → crypto.verify msg ≠ Ok true →
   out (priv_protobuf_handler msg session) s = []).
Proof.
  split; [apply dispatch_accepted|]. intros Hi Hs Hv. apply dispatch_refused. intros Ha. by destruct (Ha Hi).
Qed.

(** C26: A signed message arrives.  An envelope without sender and signature that
    a node sends (no fault injected) reaches the handler of the receiver, which
    checks signatures, with the same payload and with the name of the sending
    node: what [send_message] puts on the wire, the session of the receiver
    reads back (it is not JSON, and the name is UTF-8), and the signature made with the sender's key
    verifies under the key the sender's name stands for. *)
Theorem signed_message_arrives {SL : OpenSSLLaws} {ML : MessageLaws bzn_envelope}
    (a b : node (H := H)) (ep : endpoint) (msg : bzn_envelope) (p sig : string) (sk : private_key) (pk : public_key)
    (delay drop : Q) (h : H) (conn : session.session) (sid : session_id) :
  sender msg = ""%string → signature msg = ""%string → crypto.extract_payload msg = Ok p →
  crypto_enabled_outgoing a = true → crypto.private_key_EVP (the_crypto a) = Some sk → digest_sign sk p = Some sig →
  key_pair sk pk → crypto.options_uuid (the_crypto a) ≠ ""%string → utf8 (crypto.options_uuid (the_crypto a)) = true →
  read_public_key (crypto.PEM_PREFIX ++ crypto.options_uuid (the_crypto a) ++ crypto.PEM_SUFFIX) = Some pk →
  chaos.CHAOS_ENABLED (chaos_options a) = false →
  protobuf_map b !! env_case msg = Some h →
  let sent := Envelope (crypto.options_uuid (the_crypto a)) sig (env_case msg) (payload msg) in
  parse (SerializeAsString sent) = None →
  out (send_message delay drop ep msg) a = [AsyncConnect ep (SerializeAsString sent)] ∧
  out (session.handle_read false (SerializeAsString sent)) conn =
    [session.CancelIdleTimer; session.CallProtoHandler sent] ∧
  priv_protobuf_handler sent sid b = (Ok tt, b, [CallProtobufHandler h sent sid]).
Proof.
  intros Hs Hsig Hp Hout Hsk Hsign Hpair Hu Hutf Hpk Hchaos Hh sent Hparse. split_and!.
  - destruct msg as [u0 sig0 c pl]. cbn [sender signature] in Hs, Hsig. subst u0 sig0.
    unfold send_message. rewrite out_bind, out_gets, res_gets, post_gets. cbn [app id].
    rewrite bool_decide_true by done. cbn [signature]. rewrite bool_decide_true, Hout by done. cbn [andb].
    unfold crypto.sign, crypto.set_sender. cbn [sender signature env_case payload].
    rewrite !(bool_decide_eq_false_2 _ Hu). cbn [sender]. rewrite bool_decide_true by done. cbn [negb]. rewrite Hsk.
    change (crypto.extract_payload (Envelope (crypto.options_uuid (the_crypto a)) "" c pl) = Ok p) in Hp. rewrite Hp, Hsign.
    rewrite !out_bind, !res_bind, !post_bind, !res_lift, !post_lift, !out_lift. cbn [app].
    rewrite ?res_ret, ?post_ret, ?out_ret, out_bind. cbn [app].
    assert (∀ bytes, send_message_str delay drop ep bytes a = (Ok tt, a, [AsyncConnect ep bytes])) as Hstr.
    { intros bytes. unfold send_message_str. rewrite run_gets. unfold chaos.is_message_delayed, chaos.is_message_dropped,
        chaos.enabled. by rewrite Hchaos. }
    unfold out at 1, res, post. by rewrite Hstr.
  - unfold session.handle_read. rewrite out_bind, out_emit, res_emit, post_emit. cbn [app]. rewrite Hparse.
    rewrite parse_serialize; [done|]. unfold well_formed, wf_bzn_envelope, sent. cbn [sender env_case payload].
    rewrite Hutf. unfold crypto.extract_payload in Hp. by destruct (env_case msg).
  - rewrite dispatch_accepted; [by cbn [env_case sent]; rewrite Hh|]. intros _. right.
    unfold crypto.verify. cbn [sender sent]. rewrite bool_decide_false by done. rewrite Hpk.
    assert (crypto.extract_payload sent = Ok p) as -> by (unfold crypto.extract_payload in *; exact Hp).
    cbn [signature sent]. by rewrite (sign_verifies sk pk).
Qed.

(** In every run of a node the sessions it makes have distinct ids (as long
    as the counter does not wrap), and a handler, once registered, is never
    replaced. *)
Theorem node_sessions_distinct (evs : list event) (s : node (H := H)) :
  (session_id_counter s + lengthN evs < 2 ^ 64)%N →
  let r := node_props.run evs s in
  NoDup (new_sessions r.2) ∧
  (∀ id, id ∈ new_sessions r.2 → (session_id_counter s < id)%N) ∧
  message_map s ⊆ message_map r.1 ∧ protobuf_map s ⊆ protobuf_map r.1.
Proof.
  intros Hb. destruct (run_advances evs s Hb) as (? & ? & _ & ? & Hids). split_and!; try done.
  intros sid Hid. exact (proj1 (Hids sid Hid)).
Qed.
End Claims.

(** *** Examples: keys that are names, signatures that name the key *)
Module sample_keys.
Import json_tree.

#[export] Instance names : OpenSSL := {
  public_key := string;
  private_key := string;
  read_public_key s := if bool_decide (s = crypto.PEM_PREFIX ++ "a" ++ crypto.PEM_SUFFIX)%string then Some "a"%string else None;
  read_private_key s := Some s;
  digest_verify pk p sig := bool_decide (sig = pk ++ p)%string;
  digest_sign sk p := Some (sk ++ p)%string;
  sha512 s := Some s;
  key_pair sk pk := sk = pk
}.

#[export] Instance names_laws : OpenSSLLaws.
Proof. split. intros sk pk p sig Hk Hs. simpl in *. injection Hs as <-. subst. by apply bool_decide_true. Qed.

#[export] Instance envelope_codec : Message bzn_envelope := countable_message bzn_envelope.
#[export] Instance envelope_codec_laws : MessageLaws bzn_envelope := countable_message_laws bzn_envelope.

Definition no_chaos : chaos.options := chaos.Options false 0 0 0 0 0.
Definition sample_node (u : uuid_t) : node.node (H := nat) :=
  node.Node ∅ {[ kPbft := 7 ]} true 0 true true (crypto.Crypto (Some "a"%string) u) no_chaos.
Definition vote : bzn_envelope := Envelope "" "" kPbft "x".
End sample_keys.

Import sample_keys.

Example node_dispatches_verified_witness :
  out (node.priv_protobuf_handler (Envelope "a" "forged" kPbft "x") 3) (sample_keys.sample_node "b") = [].
Proof.
  apply (node_dispatches_verified (Envelope "a" "forged" kPbft "x") 3 (sample_keys.sample_node "b"));
    [reflexivity|discriminate|vm_compute; discriminate].
Defined.

Example signed_message_arrives_witness :
  let sent := Envelope "a" "ax" kPbft "x" in
  node.priv_protobuf_handler sent 3 (sample_keys.sample_node "b") =
    (Ok tt, sample_keys.sample_node "b", [node.CallProtobufHandler 7 sent 3]).
Proof.
  intros sent.
  apply (signed_message_arrives (sample_keys.sample_node "a") (sample_keys.sample_node "b") (Endpoint 1 80) sample_keys.vote
           "x" "ax" "a" "a" 0 0 7 (session.new 3 0 sample_keys.no_chaos) 3); try reflexivity; try discriminate.
Defined.

Example node_sessions_distinct_witness :
  NoDup (node_props.new_sessions
    (node_props.run [node_props.Start; node_props.Accepted false; node_props.Accepted true; node_props.Accepted false]
       (sample_keys.sample_node "a")).2).
Proof.
  apply (node_sessions_distinct
    [node_props.Start; node_props.Accepted false; node_props.Accepted true; node_props.Accepted false]
    (sample_keys.sample_node "a")).
  vm_compute. reflexivity.
Defined.
