(* ===== verification/RaftEvents.v ===== *)
(** * What the events of a Raft node do

    Each event of [Raft] changes the log in one of three ways, and what a node
    sends of its log is in its log: the facts about one node that a swarm of them
    ([RaftSwarm]) is about. *)

From S2P Require Import Prelude Messages Json RaftLog Raft RaftProps Replication.
Import raft_log raft_state raft_base raft raft_props.

(** ** What one event does to the log *)
Module raft_events.
Section Events.
Context {JS : Jsoncpp} {JL : JsoncppLaws} {BO : Boost} {SE : Security} {MA : Message audit_message} {MB : Message bzn_msg}.
Context (iteration : list peer_address_t → list peer_address_t).
Abbreviation raftM := (M raft effect).
Abbreviation entries s := (log_entries (log s)).

(** *** Handlers that leave the log alone *)

Definition same_log : relation raft := λ s s', log s' = log s ∧ commit_index s' = commit_index s.
#[export] Instance same_log_preorder : PreOrder same_log.
Proof. split; [done|]. intros ??? [] []. split; congruence. Qed.

Lemma same_log_match_index u : respects same_log (match_index u).
Proof. unfold match_index. method_steps. by destruct (peer_match_index s !! u). Qed.
Lemma same_log_update t st : respects same_log (update_raft_state t st).
Proof. unfold update_raft_state. method_steps; done. Qed.
#[local] Hint Resolve same_log_match_index same_log_update : method.

Lemma same_log_request_append_entries : respects same_log (request_append_entries iteration).
Proof. unfold request_append_entries, request_append_entry, start_heartbeat_timer. method_steps. Qed.
#[local] Hint Resolve same_log_request_append_entries : method.

Lemma same_log_notify_leader_status : respects same_log (notify_leader_status iteration).
Proof. unfold notify_leader_status, send_to_all. method_steps. Qed.
#[local] Hint Resolve same_log_notify_leader_status : method.
Lemma same_log_heartbeat ec : respects same_log (handle_heartbeat_timeout iteration ec).
Proof. unfold handle_heartbeat_timeout. method_steps. Qed.
Lemma same_log_election_timeout pick ec : respects same_log (handle_election_timeout iteration pick ec).
Proof.
  unfold handle_election_timeout, auto_add_peer_if_required, request_vote_request, start_election_timer. method_steps; done.
Qed.
Lemma same_log_request_vote msg session : respects same_log (handle_ws_request_vote msg session).
Proof. unfold handle_ws_request_vote. method_steps; done. Qed.
Lemma same_log_vote_response msg : respects same_log (handle_request_vote_response iteration msg).
Proof. unfold handle_request_vote_response, start_election_timer. method_steps; done. Qed.
Lemma same_log_later_term cmd t msg session : respects same_log (handle_later_term cmd t msg session).
Proof. unfold handle_later_term, start_election_timer. method_steps; done. Qed.
Lemma same_log_earlier_term t : respects same_log (handle_earlier_term t).
Proof. unfold handle_earlier_term, start_election_timer. method_steps; done. Qed.
Lemma same_log_get_peers session : respects same_log (handle_get_peers iteration session).
Proof. unfold handle_get_peers. method_steps. Qed.
Lemma same_log_get_peers_response pick msg : respects same_log (handle_get_peers_response iteration pick msg).
Proof.
  unfold handle_get_peers_response, handle_get_peers_response_from_follower_or_candidate,
    handle_get_peers_response_from_leader, auto_add_peer_if_required, add_self_to_swarm. method_steps; done.
Qed.

(** *** Handlers that append as the leader *)

(** Role and term stay; what is appended is of the current term; a node that does
    not lead keeps its log. *)
Definition appends : relation raft := λ s s',
  current_state s' = current_state s ∧ current_term s' = current_term s ∧
  (∃ new, entries s' = entries s ++ new ∧ Forall (λ e, term e = current_term s) new) ∧
  (current_state s ≠ raft_state.leader → log s' = log s).
#[export] Instance appends_preorder : PreOrder appends.
Proof.
  split.
  - intros s. split_and!; [done..| |done]. exists []. by rewrite app_nil_r.
  - intros s1 s2 s3 (Hs1 & Ht1 & (new1 & He1 & Hf1) & Hn1) (Hs2 & Ht2 & (new2 & He2 & Hf2) & Hn2).
    split_and!; [congruence..| |].
    + exists (new1 ++ new2). rewrite He2, He1, app_assoc. split; [done|]. apply Forall_app. split; [done|].
      by rewrite <-Ht1.
    + intros Hnl. rewrite Hn2 by congruence. by apply Hn1.
Qed.

Lemma appends_frame s s' :
  log s' = log s → current_state s' = current_state s → current_term s' = current_term s → appends s s'.
Proof. intros Hl Hs Ht. split_and!; [done..| |done]. exists []. by rewrite Hl, app_nil_r. Qed.

Lemma appends_append_log v t : respects appends (append_log_unsafe v t).
Proof.
  unfold append_log_unsafe. intros s. rewrite post_bind, res_gets, post_gets. cbn [id].
  case_bool_decide as Hl; cbn [negb]; [|reflexivity]. rewrite post_bind.
  set (e := LogEntry _ _ _ _). assert (appends s (post (log_call (leader_append_entry e)) s)) as H; [|by destruct (res _ s)].
  unfold log_call, post. cbn [fst snd]. fold (post (leader_append_entry e) (log s)).
  split_and!; [done|done| |intros Hn; by destruct Hn].
  exists [e]. cbn [log set_log]. rewrite leader_append_memory. split; [done|]. by repeat constructor.
Qed.
#[local] Hint Resolve appends_append_log : method.

Lemma appends_match_index u : respects appends (match_index u).
Proof. unfold match_index. method_steps. destruct (peer_match_index _ !! u); [reflexivity|by apply appends_frame]. Qed.
#[local] Hint Resolve appends_match_index : method.

Lemma appends_match_indices us : respects appends (match_indices us).
Proof. induction us; cbn [match_indices]; method_steps. Qed.
#[local] Hint Resolve appends_match_indices : method.
Lemma appends_last_majority : respects appends last_majority_replicated_log_index.
Proof.
  unfold last_majority_replicated_log_index. method_step; [method_steps|]. generalize (2 ^ 32 - 1)%N as r. revert a.
  intros qs. induction qs as [|q qs IH]; intros r; cbn [min_median]; method_steps.
Qed.
Lemma appends_perform_commit e : respects appends (perform_commit iteration e).
Proof.
  unfold perform_commit, notify_commit, send_to_all, create_single_quorum_from_joint_quorum. method_steps.
  by apply appends_frame.
Qed.
#[local] Hint Resolve appends_last_majority appends_perform_commit : method.
Lemma appends_commit_until fuel bound : respects appends (commit_until iteration fuel bound).
Proof. induction fuel; cbn [commit_until]; method_steps. Qed.
Lemma appends_commit_from fuel i c : respects appends (commit_from iteration fuel i c).
Proof. revert i. induction fuel; intros i; cbn [commit_from]; method_steps. Qed.
#[local] Hint Resolve appends_commit_until appends_commit_from : method.

(** A node that does not lead does not move its commit index either. *)
Definition leads : relation raft := λ s s',
  appends s s' ∧ (current_state s ≠ raft_state.leader → commit_index s' = commit_index s).
#[local] Instance leads_preorder : PreOrder leads.
Proof.
  split; [by intros s; split|]. intros s1 s2 s3 [H1 Hn1] [H2 Hn2]. split; [by etrans|].
  intros Hnl. destruct H1 as [Hs _]. rewrite Hn2 by congruence. by apply Hn1.
Qed.

Lemma leads_frame s s' :
  log s' = log s → current_state s' = current_state s → current_term s' = current_term s →
  commit_index s' = commit_index s → leads s s'.
Proof. intros. split; [by apply appends_frame|done]. Qed.

Lemma leads_append_log v t : respects leads (append_log_unsafe v t).
Proof.
  intros s. split; [apply appends_append_log|]. intros Hnl. unfold append_log_unsafe.
  rewrite post_bind, res_gets, post_gets. cbn [id]. by rewrite bool_decide_false.
Qed.
#[local] Hint Resolve leads_append_log : method.

Lemma leads_add_peer msg session : respects leads (handle_add_peer_message msg session).
Proof.
  unfold handle_add_peer_message, handle_add_peer, validate_new_peer, send_session_error_message,
    send_success_message, create_joint_quorum_by_adding_peer. method_steps; by apply leads_frame.
Qed.
Lemma leads_remove_peer msg session : respects leads (handle_remove_peer_message msg session).
Proof.
  unfold handle_remove_peer_message, handle_remove_peer, send_session_error_message,
    send_success_message, create_joint_quorum_by_removing_peer. method_steps; by apply leads_frame.
Qed.

Lemma appends_append_response msg : respects appends (handle_request_append_entries_response iteration msg).
Proof. unfold handle_request_append_entries_response. method_steps; by apply appends_frame. Qed.
Lemma leads_append_response msg : respects leads (handle_request_append_entries_response iteration msg).
Proof.
  intros s. split; [apply appends_append_response|]. intros Hnl. unfold handle_request_append_entries_response.
  rewrite post_bind, res_gets, post_gets. cbn [id]. by rewrite bool_decide_false.
Qed.

(** *** A follower that is sent entries *)

(** What an accepted [AppendEntries] request does: the entry is appended behind
    the last one, if there is one, and the commit index grows to the leader's at
    most. *)
Record follows (msg : Value) (s s' : raft) : Prop := {
  follows_commit : (commit_index s' ≤ commit_index s)%N ∨
    ∃ c, res (get_uint ["data"; "commitIndex"]%string msg) s = Ok c ∧ (commit_index s' ≤ c)%N;
  follows_log : entries s' = entries s ∨
    ∃ pi pt et m t,
      res (get_uint ["data"; "prevIndex"]%string msg) s = Ok pi ∧
      res (get_uint ["data"; "prevTerm"]%string msg) s = Ok pt ∧
      res (get_uint ["data"; "entryTerm"]%string msg) s = Ok et ∧
      res (path ["data"; "entries"]%string msg) s = Ok m ∧ empty m = false ∧
      entry_accepted pi pt (log s) = Ok true ∧
      entries s' = entries s ++ [LogEntry t (u32 (pi + 1)) et m]
}.

Lemma perform_commit_moves e s :
  commit_index (post (perform_commit iteration e) s) = commit_index s ∨
  commit_index (post (perform_commit iteration e) s) = u32 (commit_index s + 1).
Proof.
  unfold perform_commit. rewrite post_bind, res_gets, post_gets, post_bind, <-(pure_notify_commit _ _ _ s).
  destruct (res (notify_commit _ _ _) s) as [[]| |]; [|by left..].
  rewrite post_bind, res_gets, post_gets. destruct (commit_handler s); [|by left].
  rewrite post_bind, res_emit, post_emit, post_bind, res_modify, post_modify. right.
  exact (proj1 (forward_finish_joint_quorum e (set_log (u32 (commit_index s + 1)) (log s) s))).
Qed.

Lemma commit_from_bound fuel i c s :
  current_state s ≠ raft_state.leader → (size (log s) < 2 ^ 32)%N → commit_index s = i →
  (commit_index (post (commit_from iteration fuel i c) s) ≤ N.max i c)%N.
Proof.
  revert i s. induction fuel as [|fuel IH]; intros i s Hnl Hlt Hi; cbn [commit_from]; rewrite post_bind, res_gets, post_gets;
    cbn [id]; (destruct (N.ltb_spec i (N.min (size (log s)) c)); [|rewrite post_ret; lia]);
    [change (commit_index s ≤ N.max i c)%N; lia|].
  rewrite post_bind, res_lift, post_lift. destruct (entry_at i (log s)) as [e| |]; [|cbn; lia..].
  rewrite post_bind. destruct (replication.perform_commit_follower iteration e s Hnl) as [Hl Hs].
  pose proof (perform_commit_moves e s) as Hc. rewrite u32_small in Hc by lia.
  destruct (res (perform_commit iteration e) s) as [[]| |] eqn:E; [|lia..].
  apply perform_commit_index in E as [E _]. rewrite u32_small in E by lia.
  etrans; [apply IH; [congruence|by rewrite Hl|lia]|lia].
Qed.

(** The log and the commit index after the reply. *)
Lemma append_reply_effect session msg msg_index accepted s :
  current_state s ≠ raft_state.leader → (size (log s) < 2 ^ 32)%N →
  let m := s ← gets id;
    let match_index := N.min (size (log s)) (msg_index + 1) in
    emit (SessionSend session
      (create_append_entries_response (uuid s) (current_term s) accepted (u32 match_index)) true);;
    leader_commit ← get_uint ["data"; "commitIndex"]%string msg;
    when (accepted && (commit_index s <? leader_commit)%N)
      (commit_from iteration (N.to_nat (N.min (size (log s)) leader_commit - commit_index s))
         (commit_index s) leader_commit);;
    modify (λ s, set_match (<[leader s := leader_commit]> (peer_match_index s)) s);;
    start_election_timer in
  log (post m s) = log s ∧
  ((commit_index (post m s) ≤ commit_index s)%N ∨
   accepted = true ∧ ∃ c, res (get_uint ["data"; "commitIndex"]%string msg) s = Ok c ∧ (commit_index (post m s) ≤ c)%N).
Proof.
  intros Hnl Hlt. cbn zeta. rewrite post_bind, res_gets, post_gets. cbn [id].
  rewrite post_bind, res_emit, post_emit, post_bind, <-(pure_get_uint _ _ s).
  destruct (res (get_uint _ _) s) as [c| |]; [|split; [done|by left]..]. rewrite post_bind.
  set (w := when _ _). assert (log (post w s) = log s ∧
    ((commit_index (post w s) ≤ commit_index s)%N ∨ accepted = true ∧ (commit_index (post w s) ≤ c)%N)) as [Hl Hc].
  { unfold w. destruct accepted; [|split; [done|by left]]. simpl.
    destruct (N.ltb_spec (commit_index s) c) as [Hcc|]; [|split; [done|by left]]. simpl.
    split; [by apply replication.commit_from_follower|]. right. split; [done|].
    etrans; [by apply commit_from_bound|lia]. }
  assert (∀ s', log s' = log (post w s) → commit_index s' = commit_index (post w s) → log s' = log s ∧
    ((commit_index s' ≤ commit_index s)%N ∨
     accepted = true ∧ ∃ c', Ok (A := N) c = Ok c' ∧ (commit_index s' ≤ c')%N)) as H.
  { intros s' -> ->. split; [done|]. destruct Hc as [|[? ?]]; [by left|right]. eauto. }
  destruct (res w s) as [[]| |]; [|by apply H..].
  rewrite post_bind, res_modify, post_modify. set (s3 := set_match _ _).
  rewrite <-(pure_start_election_timer s3). by apply H.
Qed.

Lemma insert_behind_last s prev_index prev_term e :
  (size (log s) < 2 ^ 32)%N → entry_accepted prev_index prev_term (log s) = Ok true →
  entries (post (log_call (follower_insert_entry (u32 (prev_index + 1)) e)) s) = entries s ++ [e].
Proof.
  intros Hlt. unfold entry_accepted. destruct (N.ltb_spec prev_index (sub64 (lengthN (entries s)) 1)) as [|Hge]; [done|].
  destruct (entries s !! N.to_nat prev_index) as [last|] eqn:Hlast; [|done]. intros _. apply lookup_lt_Some in Hlast.
  unfold size, lengthN in *. rewrite sub64_small in Hge by lia.
  apply (replication.insert_at_end _ e s). unfold size, lengthN. rewrite u32_small by lia. lia.
Qed.

(** The part that puts the entry into the log. *)
Lemma insert_effect s pi pt et msg accepted :
  (size (log s) < 2 ^ 32)%N → entry_accepted pi pt (log s) = Ok accepted →
  let m := when accepted
    (entries ← path ["data"; "entries"]%string msg;
     when (negb (empty entries))
       (t ← deduce_type_from_message entries;
        log_call (follower_insert_entry (u32 (pi + 1)) (LogEntry t (u32 (pi + 1)) et entries)))) in
  current_state (post m s) = current_state s ∧ commit_index (post m s) = commit_index s ∧
  (entries (post m s) = entries s ∨
   accepted = true ∧ ∃ v t, res (path ["data"; "entries"]%string msg) s = Ok v ∧ empty v = false ∧
     entries (post m s) = entries s ++ [LogEntry t (u32 (pi + 1)) et v]).
Proof.
  intros Hlt Ha. cbn zeta. destruct accepted; [|split_and!; [done..|by left]]. cbn [when].
  rewrite post_bind, <-(pure_path _ _ s). destruct (res (path _ msg) s) as [v| |]; [|split_and!; [done..|by left]..].
  destruct (empty v) eqn:He; cbn [negb when]; [split_and!; [done..|by left]|].
  rewrite post_bind, <-(pure_deduce_type _ s).
  destruct (res (deduce_type_from_message v) s) as [t| |]; [|split_and!; [done..|by left]..].
  split_and!; [done..|]. right. split; [done|]. exists v, t. split_and!; [done..|]. by apply (insert_behind_last s pi pt).
Qed.

(** What the message has put into the log of a node that has the log of [s]. *)
Lemma insert_follows s s2 pi pt et msg accepted :
  (size (log s) < 2 ^ 32)%N → log s2 = log s → entry_accepted pi pt (log s2) = Ok accepted →
  res (get_uint ["data"; "prevIndex"]%string msg) s2 = Ok pi → res (get_uint ["data"; "prevTerm"]%string msg) s2 = Ok pt →
  res (get_uint ["data"; "entryTerm"]%string msg) s2 = Ok et →
  let m := when accepted
    (entries ← path ["data"; "entries"]%string msg;
     when (negb (empty entries))
       (t ← deduce_type_from_message entries;
        log_call (follower_insert_entry (u32 (pi + 1)) (LogEntry t (u32 (pi + 1)) et entries)))) in
  entries (post m s2) = entries s ∨ ∃ pi pt et m' t,
    res (get_uint ["data"; "prevIndex"]%string msg) s = Ok pi ∧
    res (get_uint ["data"; "prevTerm"]%string msg) s = Ok pt ∧
    res (get_uint ["data"; "entryTerm"]%string msg) s = Ok et ∧
    res (path ["data"; "entries"]%string msg) s = Ok m' ∧ empty m' = false ∧
    entry_accepted pi pt (log s) = Ok true ∧
    entries (post m s2) = entries s ++ [LogEntry t (u32 (pi + 1)) et m'].
Proof.
  intros Hlt Hl Ha Hpi Hpt Het. cbn zeta. rewrite <-Hl in Hlt.
  destruct (insert_effect s2 pi pt et msg accepted Hlt Ha) as (_ & _ & [He|(-> & v & t & Hv & Hem & He)]);
    [left; by rewrite He, Hl|right].
  rewrite Hl in Ha, He. exists pi, pt, et, v, t.
  rewrite !(replication.get_uint_any_state _ _ s s2), (replication.path_any_state _ _ s s2). done.
Qed.

Lemma append_entries_follows msg session s :
  (size (log s) + 1 < 2 ^ 32)%N → res (get_uint ["data"; "term"]%string msg) s = Ok (current_term s) →
  follows msg s (post (handle_ws_append_entries iteration msg session) s).
Proof.
  intros Hlt Ht. unfold handle_ws_append_entries. rewrite post_bind, <-(pure_get_uint _ _ s), Ht.
  rewrite post_bind, res_gets, post_gets. cbn [id].
  set (swarm := if in_a_swarm s then _ else _).
  assert (log (post swarm s) = log s ∧ commit_index (post swarm s) = commit_index s ∧
          current_state (post swarm s) = current_state s) as (Hl & Hc & Hs).
  { unfold swarm. destruct (in_a_swarm s); [done|]. rewrite post_bind, <-(pure_get_string _ _ s).
    destruct (res (get_string _ _) s) as [from| |]; [|done..]. by destruct (negb _). }
  assert (∀ s', log s' = log s → commit_index s' = commit_index s → follows msg s s') as Hsame.
  { intros s' El Ec. split; [left; by rewrite Ec|left; by rewrite El]. }
  rewrite post_bind. destruct (res swarm s) as [[]| |]; [|by apply Hsame..].
  set (s1 := post swarm s) in *. clearbody s1. clear swarm.
  rewrite N.leb_refl, andb_true_r. destruct (_ || _) eqn:Erole.
  { destruct (same_log_update (current_term s) follower s1) as [E1 E2]. rewrite post_bind.
    destruct (res _ s1) as [[]| |]; [|apply Hsame; congruence..].
    rewrite post_bind. set (s4 := post (update_raft_state _ _) s1) in *.
    assert (follows msg s (post start_election_timer s4)) as Ht4; [|by destruct (res start_election_timer s4)].
    rewrite <-(pure_start_election_timer s4). apply Hsame; [by rewrite <-Hl, <-E1|by rewrite <-Hc, <-E2]. }
  apply orb_false_iff in Erole as [_ Hnl%bool_decide_eq_false].
  rewrite post_bind, <-(pure_get_string _ _ s1). destruct (res (get_string _ _) s1) as [from| |]; [|by apply Hsame..].
  rewrite post_bind, res_modify, post_modify. set (s2 := set_leader from s1).
  change (log s1) with (log s2) in Hl. change (commit_index s1) with (commit_index s2) in Hc.
  change (current_state s1) with (current_state s2) in Hs. clearbody s2. clear s1.
  rewrite post_bind, <-(pure_get_uint _ _ s2).
  destruct (res (get_uint ["data"; "prevTerm"]%string msg) s2) as [pt| |] eqn:Hpt; [|by apply Hsame..].
  rewrite post_bind, <-(pure_get_uint _ _ s2).
  destruct (res (get_uint ["data"; "prevIndex"]%string msg) s2) as [pi| |] eqn:Hpi; [|by apply Hsame..].
  rewrite post_bind, <-(pure_get_uint _ _ s2).
  destruct (res (get_uint ["data"; "entryTerm"]%string msg) s2) as [et| |] eqn:Het; [|by apply Hsame..].
  rewrite post_bind, res_lift, post_lift.
  rewrite <-Hl. destruct (entry_accepted pi pt (log s2)) as [accepted| |] eqn:Ha; [|by apply Hsame..].
  assert (size (log s2) < 2 ^ 32)%N as Hlt2 by (rewrite Hl; lia).
  destruct (insert_effect s2 pi pt et msg accepted Hlt2 Ha) as (Hs3 & Hc3 & _). cbn zeta in *.
  pose proof (insert_follows s s2 pi pt et msg accepted ltac:(lia) Hl Ha Hpi Hpt Het) as Hlog. cbn zeta in Hlog.
  set (m := when accepted _) in *.
  assert (size (log (post m s2)) < 2 ^ 32)%N as Hlt3.
  { unfold size in *. destruct Hlog as [->|(? & ? & ? & ? & ? & _ & _ & _ & _ & _ & _ & ->)]; [lia|].
    rewrite lengthN_app. unfold lengthN in *. simpl. lia. }
  clearbody m. rewrite post_bind. destruct (res m s2) as [[]| |]; [|split; [left; lia|done]..].
  set (s3 := post m s2) in *. clearbody s3. clear m.
  destruct (append_reply_effect session msg (u32 (pi + 1)) accepted s3) as [El Ec]; [congruence|done|].
  cbn zeta in El, Ec. set (r := _ ≫= _) in *. split; [|by rewrite El].
  destruct Ec as [Ec|(_ & c & Hc' & Ec)]; [left; lia|right]. exists c. by rewrite (replication.get_uint_any_state _ _ s s3).
Qed.

(** *** Every event *)

(** The command of a message. *)
Definition commands (msg : Value) (cmd : string) : Prop := ∃ x, member msg "cmd" = Ok x ∧ asString x = Ok cmd.

Lemma get_cmd msg cmd (s : raft) : res (get_string ["cmd"%string] msg) s = Ok cmd → commands msg cmd.
Proof.
  unfold get_string. cbn [path]. rewrite !res_bind, res_lift, post_lift. destruct (member msg "cmd") as [x| |] eqn:E; [|done..].
  rewrite res_ret, res_lift. intros Hx. by exists x.
Qed.

Variant changes (ev : event) (s s' : raft) : Prop :=
| keeps_log : same_log s s' → changes ev s s'
| leads_log : leads s s' → changes ev s s'
| follows_leader pick msg session :
    ev = Receive pick msg session → commands msg "AppendEntries" → follows msg s s' → changes ev s s'.

Lemma changes_same ev {A} (m : raftM A) s : respects same_log m → changes ev s (post m s).
Proof. intros Hm. apply keeps_log, Hm. Qed.
Lemma changes_leads ev {A} (m : raftM A) s : respects leads m → changes ev s (post m s).
Proof. intros Hm. apply leads_log, Hm. Qed.

Lemma receive_changes pick msg session s :
  (size (log s) + 1 < 2 ^ 32)%N →
  changes (Receive pick msg session) s (post (handle_ws_raft_messages iteration pick msg session) s).
Proof.
  intros Hlt. assert (changes (Receive pick msg session) s s) as Hs by (by apply keeps_log).
  unfold handle_ws_raft_messages.
  rewrite post_bind, <-(pure_shutdown s). destruct (res _ s) as [[]| |]; [|done..].
  rewrite post_bind, <-(pure_get_string _ _ s). destruct (res _ s) as [cmd| |] eqn:Hcmd; [|done..].
  case_bool_decide; [apply changes_leads, leads_add_peer|].
  case_bool_decide; [apply changes_leads, leads_remove_peer|].
  case_bool_decide; [apply changes_same, same_log_get_peers|].
  case_bool_decide; [apply changes_same, same_log_get_peers_response|].
  rewrite post_bind, <-(pure_get_string _ _ s).
  destruct (res (get_string ["data"; "from"]%string msg) s) as [from| |]; [|done..].
  rewrite post_bind, <-(pure_in_quorum _ s). destruct (res (in_quorum from) s) as [[]| |]; [|done..]. cbn [negb].
  rewrite post_bind, <-(pure_get_uint _ _ s).
  destruct (res (get_uint ["data"; "term"]%string msg) s) as [t| |] eqn:Ht; [|done..].
  rewrite post_bind, res_gets, post_gets.
  destruct (N.eqb_spec (current_term s) t) as [<-|];
    [|destruct (_ <? _)%N; [apply changes_same, same_log_later_term|apply changes_same, same_log_earlier_term]].
  unfold handle_current_term. case_bool_decide; [apply changes_same, same_log_request_vote|].
  case_bool_decide as Ha; [subst cmd|].
  { eapply follows_leader; [done|by eapply get_cmd|by apply append_entries_follows]. }
  case_bool_decide.
  { rewrite post_bind. destruct (res (handle_request_append_entries_response _ _) s); rewrite ?post_emit;
      apply changes_leads, leads_append_response. }
  case_bool_decide; [|done]. rewrite post_bind.
  destruct (res (handle_request_vote_response _ _) s); rewrite ?post_emit; apply changes_same, same_log_vote_response.
Qed.

Lemma event_changes ev s :
  (size (log s) + 1 < 2 ^ 32)%N → changes ev s (post (handle_event iteration ev) s).
Proof.
  intros Hlt. destruct ev; simpl; [by apply receive_changes|apply changes_same, same_log_election_timeout|
    apply changes_same, same_log_heartbeat| | | |].
  - apply changes_leads. unfold append_log. method_steps.
  - apply changes_same. unfold start, start_election_timer. method_steps; done.
  - by apply keeps_log.
  - by apply keeps_log.
Qed.

End Events.
End raft_events.

(** ** What one event does to what the leader counts *)
Module raft_table.
Import raft_events.
Section Table.
Context {JS : Jsoncpp} {BO : Boost} {SE : Security} {MA : Message audit_message} {MB : Message bzn_msg}.
Context (iteration : list peer_address_t → list peer_address_t).
Abbreviation raftM := (M raft effect).

(** A leader after the event has in its table what it had there before, as a
    leader, or at most 1. *)
Definition counted (s s' : raft) : Prop :=
  current_state s' = raft_state.leader →
  ∀ u, (matched s' u ≤ 1)%N ∨ current_state s = raft_state.leader ∧ (matched s' u ≤ matched s u)%N.

(** Besides, the name and the commit index stay. *)
Definition tracks : relation raft := λ s s',
  uuid s' = uuid s ∧ commit_index s' = commit_index s ∧ counted s s'.
#[export] Instance tracks_preorder : PreOrder tracks.
Proof.
  split; [by intros s; split_and!; [done..|]; right|]. intros s1 s2 s3 (Hu1 & Hc1 & H1) (Hu2 & Hc2 & H2).
  split_and!; [congruence..|]. intros Hl u. destruct (H2 Hl u) as [|[Hl2 ?]]; [by left|].
  destruct (H1 Hl2 u) as [|[? ?]]; [left; lia|right; split; [done|lia]].
Qed.

Lemma tracks_frame s s' :
  uuid s' = uuid s → commit_index s' = commit_index s → current_state s' = current_state s →
  peer_match_index s' = peer_match_index s → tracks s s'.
Proof using. intros Hu Hc Hs Hm. split_and!; [done..|]. intros Hl u. right. unfold matched. by rewrite Hm, <-Hs. Qed.

Lemma tracks_same {A} (m : raftM A) : respects same_matched m → respects tracks m.
Proof using.
  intros Hm s. destruct (Hm s) as (_ & Hc & Hu & Hs & Hall). split_and!; [done..|]. intros Hl u. right.
  rewrite Hall. by rewrite <-Hs.
Qed.
Lemma tracks_match_index u : respects tracks (match_index u).
Proof using. apply tracks_same. intros s. apply match_index_run. Qed.
Lemma tracks_last_majority : respects tracks last_majority_replicated_log_index.
Proof using. apply tracks_same, same_matched_last_majority. Qed.

Lemma tracks_update t st : st ≠ raft_state.leader → respects tracks (update_raft_state t st).
Proof using. intros Hst s. destruct st; [split_and!; [done..|]; by intros [=]..|done]. Qed.

(** A peer is added with the index 1. *)
Lemma tracks_add u s : tracks s (set_match (<[u := 1%N]> (peer_match_index s)) s).
Proof using.
  split_and!; [done..|]. intros Hl x. unfold matched. simpl. destruct (decide (u = x)) as [<-|].
  - left. by rewrite lookup_insert_eq.
  - right. by rewrite lookup_insert_ne.
Qed.

#[local] Hint Resolve tracks_match_index tracks_last_majority tracks_add : method.
#[local] Hint Extern 1 (respects tracks (update_raft_state _ _)) => apply tracks_update; discriminate : method.
Ltac tracks_steps := method_steps; first [by apply tracks_add|by apply tracks_frame].

Lemma tracks_append_log v t : respects tracks (append_log_unsafe v t).
Proof using. unfold append_log_unsafe. tracks_steps. Qed.
Lemma tracks_request_append_entries : respects tracks (request_append_entries iteration).
Proof using. unfold request_append_entries, request_append_entry, start_heartbeat_timer. method_steps. Qed.
#[local] Hint Resolve tracks_append_log tracks_request_append_entries : method.

(** A node that is elected counts 1 for every peer. *)
Lemma tracks_crown t :
  respects tracks (update_raft_state t raft_state.leader;;
                   modify (λ s, set_match ((λ _, 1%N) <$> peer_match_index s) s);;
                   request_append_entries iteration).
Proof using.
  intros s. rewrite post_bind, (eq_refl : res (update_raft_state t raft_state.leader) s = Ok tt).
  rewrite post_bind, res_modify, post_modify. etrans; [|apply tracks_request_append_entries].
  split_and!; [done..|]. intros _ u. left. unfold matched. simpl. rewrite lookup_fmap.
  by destruct (peer_match_index s !! u).
Qed.
#[local] Hint Resolve tracks_crown : method.

Lemma tracks_heartbeat ec : respects tracks (handle_heartbeat_timeout iteration ec).
Proof using. unfold handle_heartbeat_timeout, notify_leader_status, send_to_all. method_steps. Qed.
Lemma tracks_election_timeout pick ec : respects tracks (handle_election_timeout iteration pick ec).
Proof using.
  unfold handle_election_timeout, auto_add_peer_if_required, request_vote_request. tracks_steps.
Qed.
Lemma tracks_request_vote msg session : respects tracks (handle_ws_request_vote msg session).
Proof using. unfold handle_ws_request_vote. tracks_steps. Qed.
Lemma tracks_vote_response msg : respects tracks (handle_request_vote_response iteration msg).
Proof using. unfold handle_request_vote_response. tracks_steps. Qed.
Lemma tracks_later_term cmd t msg session : respects tracks (handle_later_term cmd t msg session).
Proof using. unfold handle_later_term. tracks_steps. Qed.
Lemma tracks_earlier_term t : respects tracks (handle_earlier_term t).
Proof using. unfold handle_earlier_term. tracks_steps. Qed.
Lemma tracks_get_peers session : respects tracks (handle_get_peers iteration session).
Proof using. unfold handle_get_peers. method_steps. Qed.
Lemma tracks_get_peers_response pick msg : respects tracks (handle_get_peers_response iteration pick msg).
Proof using.
  unfold handle_get_peers_response, handle_get_peers_response_from_follower_or_candidate,
    handle_get_peers_response_from_leader, auto_add_peer_if_required, add_self_to_swarm. tracks_steps.
Qed.
Lemma tracks_add_peer msg session : respects tracks (handle_add_peer_message msg session).
Proof using.
  unfold handle_add_peer_message, handle_add_peer, validate_new_peer, send_session_error_message,
    send_success_message, create_joint_quorum_by_adding_peer. tracks_steps.
Qed.
Lemma tracks_remove_peer msg session : respects tracks (handle_remove_peer_message msg session).
Proof using.
  unfold handle_remove_peer_message, handle_remove_peer, send_session_error_message,
    send_success_message, create_joint_quorum_by_removing_peer. tracks_steps.
Qed.

(** *** The two handlers that commit *)

Definition same_uuid : relation raft := λ s s', uuid s' = uuid s.
#[export] Instance same_uuid_preorder : PreOrder same_uuid.
Proof. split; [done|]. intros ??? H1 H2. unfold same_uuid in *. congruence. Qed.

Lemma same_uuid_perform_commit e : respects same_uuid (perform_commit iteration e).
Proof using. intros s. by destruct (perform_commit_bumps iteration e s) as (_ & Hu & _). Qed.
Lemma same_uuid_commit_until fuel bound : respects same_uuid (commit_until iteration fuel bound).
Proof using. intros s. by destruct (commit_until_bound iteration fuel bound s) as (_ & Hu & _). Qed.
#[local] Hint Resolve same_uuid_perform_commit same_uuid_commit_until : method.
Lemma same_uuid_commit_from fuel i c : respects same_uuid (commit_from iteration fuel i c).
Proof using. revert i. induction fuel; intros i; cbn [commit_from]; method_steps. Qed.
#[local] Hint Resolve same_uuid_commit_from : method.
Lemma same_uuid_tracks {A} (m : raftM A) : respects tracks m → respects same_uuid m.
Proof using. intros Hm s. apply Hm. Qed.
Lemma same_uuid_append_entries msg session : respects same_uuid (handle_ws_append_entries iteration msg session).
Proof using.
  pose proof (λ t, same_uuid_tracks _ (tracks_update t follower ltac:(done))).
  unfold handle_ws_append_entries. method_steps; done.
Qed.
Lemma same_uuid_append_response msg : respects same_uuid (handle_request_append_entries_response iteration msg).
Proof using.
  pose proof (same_uuid_tracks _ tracks_last_majority).
  unfold handle_request_append_entries_response. method_steps; done.
Qed.

(** A leader that is sent entries of its own term steps down; another node does not
    become the leader. *)
Lemma counted_append_entries msg session s :
  res (get_uint ["data"; "term"]%string msg) s = Ok (current_term s) →
  let s' := post (handle_ws_append_entries iteration msg session) s in
  counted s s' ∧ (current_state s = raft_state.leader → commit_index s' = commit_index s).
Proof using.
  intros Ht. cbn zeta. destruct (decide (current_state s = raft_state.leader)) as [Hl|Hnl].
  2: { split; [|done]. by intros ?%no_crown_append_entries. }
  set (s' := post _ s). enough (tracks s s') as (_ & Hc & Hcount) by done. unfold s'. clear s'.
  unfold handle_ws_append_entries. rewrite post_bind, <-(pure_get_uint _ _ s), Ht.
  rewrite post_bind, res_gets, post_gets. cbn [id]. rewrite Hl, N.leb_refl. cbn [bool_decide orb andb].
  set (swarm := if in_a_swarm s then _ else _).
  assert (respects tracks swarm) as Hs by (unfold swarm; method_steps; by apply tracks_frame).
  apply respects_bind_at; [apply _|apply Hs|]. intros _ _.
  assert (respects tracks (update_raft_state (current_term s) follower;; start_election_timer;; emit (SessionClose session)))
    as H by method_steps. apply H.
Qed.

(** What a reply changes in the table: the index of its author. *)
Lemma append_response_table msg s :
  let s' := post (handle_request_append_entries_response iteration msg) s in
  (∀ u, matched s' u = matched s u) ∨
  ∃ from m, res (get_string ["data"; "from"]%string msg) s = Ok from ∧
    res (get_uint ["data"; "matchIndex"]%string msg) s = Ok m ∧
    ∀ u, matched s' u = if decide (u = from) then m else matched s u.
Proof using.
  cbn zeta. unfold handle_request_append_entries_response.
  rewrite post_bind, res_gets, post_gets. cbn [id]. destruct (negb _); [by left|].
  rewrite post_bind, <-(pure_get_uint _ _ s). destruct (res (get_uint _ _) s) as [m| |] eqn:Hm; [|by left..].
  rewrite post_bind.
  set (t := if (size (log s) <? m)%N then _ else _).
  assert (post t s = s) as -> by (unfold t; destruct (_ <? _)%N; [done|by rewrite <-(pure_get_uint _ _ s)]).
  clearbody t. destruct (res t s) as [tm| |]; [|by left..]. destruct (_ || _); [by left|].
  rewrite post_bind, <-(pure_get_string _ _ s). destruct (res (get_string _ _) s) as [from| |] eqn:Hfrom; [|by left..].
  rewrite post_bind, <-(pure_get_uint _ _ s), Hm, post_bind, res_modify, post_modify.
  set (s1 := set_match _ s). right. exists from, m. split_and!; [done..|].
  assert (∀ u, matched s1 u = if decide (u = from) then m else matched s u) as H1.
  { intros u. unfold matched, s1. simpl. destruct (decide (u = from)) as [->|]; [by rewrite lookup_insert_eq|].
    by rewrite lookup_insert_ne. }
  rewrite post_bind, <-(pure_get_bool _ _ s1).
  destruct (res (get_bool _ _) s1) as [[]| |]; [|done..]. cbn [negb]. rewrite post_bind.
  destruct (same_matched_last_majority s1) as (_ & _ & _ & _ & H2).
  set (s2 := post last_majority_replicated_log_index s1) in *.
  assert (∀ u, matched s2 u = if decide (u = from) then m else matched s u) as H3 by (intros u; by rewrite H2).
  destruct (res last_majority_replicated_log_index s1) as [v| |]; [|done..].
  rewrite post_bind, res_gets, post_gets. cbn [id]. destruct (_ <? _)%N; [done|]. intros u.
  unfold matched at 1. destruct (commit_until_bound iteration (N.to_nat (v - commit_index s2)) v s2) as (-> & _ & _).
  apply H3.
Qed.

(** *** Every event *)

Variant counts (ev : event) (s s' : raft) : Prop :=
| counts_on : counted s s' → (current_state s = raft_state.leader → commit_index s' = commit_index s) → counts ev s s'
| counts_reply pick msg session :
    ev = Receive pick msg session → commands msg "AppendEntriesReply" →
    s' = post (handle_request_append_entries_response iteration msg) s → counts ev s s'.

Lemma counts_tracks ev {A} (m : raftM A) s : respects tracks m → uuid (post m s) = uuid s ∧ counts ev s (post m s).
Proof using. intros Hm. destruct (Hm s) as (Hu & Hc & Ht). split; [done|]. by apply counts_on. Qed.

Lemma receive_counts pick msg session s :
  let s' := post (handle_ws_raft_messages iteration pick msg session) s in
  uuid s' = uuid s ∧ counts (Receive pick msg session) s s'.
Proof using.
  assert (uuid s = uuid s ∧ counts (Receive pick msg session) s s) as Hs.
  { split; [done|]. apply counts_on; [by right|done]. }
  cbn zeta. unfold handle_ws_raft_messages.
  rewrite post_bind, <-(pure_shutdown s). destruct (res _ s) as [[]| |]; [|done..].
  rewrite post_bind, <-(pure_get_string _ _ s). destruct (res _ s) as [cmd| |] eqn:Hcmd; [|done..].
  case_bool_decide; [apply counts_tracks, tracks_add_peer|].
  case_bool_decide; [apply counts_tracks, tracks_remove_peer|].
  case_bool_decide; [apply counts_tracks, tracks_get_peers|].
  case_bool_decide; [apply counts_tracks, tracks_get_peers_response|].
  rewrite post_bind, <-(pure_get_string _ _ s).
  destruct (res (get_string ["data"; "from"]%string msg) s) as [from| |]; [|done..].
  rewrite post_bind, <-(pure_in_quorum _ s). destruct (res (in_quorum from) s) as [[]| |]; [|done..]. cbn [negb].
  rewrite post_bind, <-(pure_get_uint _ _ s).
  destruct (res (get_uint ["data"; "term"]%string msg) s) as [t| |] eqn:Ht; [|done..].
  rewrite post_bind, res_gets, post_gets.
  destruct (N.eqb_spec (current_term s) t) as [<-|];
    [|destruct (_ <? _)%N; [apply counts_tracks, tracks_later_term|apply counts_tracks, tracks_earlier_term]].
  unfold handle_current_term. case_bool_decide; [apply counts_tracks, tracks_request_vote|].
  case_bool_decide.
  { split; [apply same_uuid_append_entries|]. destruct (counted_append_entries msg session s Ht). by apply counts_on. }
  case_bool_decide as Hr.
  { subst cmd. rewrite post_bind. set (s' := post (handle_request_append_entries_response _ _) s).
    assert (uuid s' = uuid s ∧ counts (Receive pick msg session) s s') as Hc.
    2: { destruct (res (handle_request_append_entries_response _ _) s); rewrite ?post_emit; exact Hc. }
    split; [apply same_uuid_append_response|]. by eapply counts_reply; [|eapply get_cmd|]. }
  case_bool_decide; [|done]. rewrite post_bind.
  destruct (res (handle_request_vote_response _ _) s); rewrite ?post_emit; apply counts_tracks, tracks_vote_response.
Qed.

Lemma event_counts ev s :
  let s' := post (handle_event iteration ev) s in uuid s' = uuid s ∧ counts ev s s'.
Proof using.
  destruct ev; simpl; [apply receive_counts|apply counts_tracks, tracks_election_timeout|
    apply counts_tracks, tracks_heartbeat| | | |].
  - apply counts_tracks. unfold append_log. method_steps.
  - apply counts_tracks. unfold start. method_steps; by apply tracks_frame.
  - split; [done|]. apply counts_on; [by right|done].
  - split; [done|]. apply counts_on; [by right|done].
Qed.
End Table.
End raft_table.

(** ** What is sent *)
Module raft_sent.
Import raft_events raft_table.
Section Sent.
Context {JS : Jsoncpp} {JL : JsoncppLaws} {BO : Boost} {SE : Security} {MA : Message audit_message} {MB : Message bzn_msg}.
Context (iteration : list peer_address_t → list peer_address_t).
Abbreviation raftM := (M raft effect).
Abbreviation entries s := (log_entries (log s)).

(** A message that the node hands to Raft. *)
Definition raft_api (v : Value) : Prop :=
  isMember v "bzn-api" = Ok true ∧ ∃ x, member v "bzn-api" = Ok x ∧ asString x = Ok "raft"%string.
Definition appending (v : Value) : Prop := raft_api v ∧ commands v "AppendEntries".

Definition replying (v : Value) : Prop := raft_api v ∧ commands v "AppendEntriesReply".

(** Read as neither a request to append entries nor a reply to one. *)
Definition harmless (r : Value) : Prop := ∀ v, reads_as r v → ¬ appending v ∧ ¬ replying v.

Lemma reads_command kvs c v cmd :
  NoDup kvs.*1 → ("cmd"%string, str c) ∈ kvs → reads_as (obj kvs) v → commands v cmd → c = cmd.
Proof using.
  intros Hnd Hin Hv (x & Hx & Hxs).
  destruct (reads_as_member _ _ _ _ Hv (member_obj _ _ _ Hnd Hin)) as (y & Hy & Hry).
  assert (y = x) as -> by congruence. rewrite (reads_as_asString _ _ Hry), asString_str in Hxs. congruence.
Qed.

Lemma harmless_cmd kvs c :
  NoDup kvs.*1 → ("cmd"%string, str c) ∈ kvs → c ≠ "AppendEntries"%string → c ≠ "AppendEntriesReply"%string →
  harmless (obj kvs).
Proof using.
  intros Hnd Hin H1 H2 v Hv. split; intros [_ Hc]; pose proof (reads_command _ _ _ _ Hnd Hin Hv Hc); done.
Qed.

Lemma harmless_api kvs a :
  NoDup kvs.*1 → ("bzn-api"%string, str a) ∈ kvs → a ≠ "raft"%string → harmless (obj kvs).
Proof using.
  intros Hnd Hin Ha v Hv. enough (¬ raft_api v) as H by (split; intros []; done). intros (_ & x & Hx & Hxs).
  destruct (reads_as_member _ _ _ _ Hv (member_obj _ _ _ Hnd Hin)) as (y & Hy & Hry).
  assert (y = x) as -> by congruence. rewrite (reads_as_asString _ _ Hry), asString_str in Hxs. congruence.
Qed.

Lemma harmless_none kvs : "bzn-api"%string ∉ kvs.*1 → harmless (obj kvs).
Proof using.
  intros Hn v Hv. enough (¬ raft_api v) as H by (split; intros []; done). intros [Hm _].
  rewrite (reads_as_isMember _ _ _ Hv), isMember_obj, bool_decide_false in Hm by done. done.
Qed.

(** A request with what the log has behind index [pi], or with nothing. *)
Definition request_of (s : raft) (r : Value) : Prop :=
  ∃ u t c pi et m prev,
    r = create_append_entries_request u t c pi (term prev) et m ∧ (pi < 2 ^ 32)%N ∧ (c ≤ commit_index s)%N ∧
    entries s !! N.to_nat pi = Some prev ∧
    (m = null ∨ ∃ e, entries s !! N.to_nat (u32 (pi + 1)) = Some e ∧ et = term e ∧ m = entry_msg e).

(** A reply that tells no more entries than the log has. *)
Definition reply_of (s : raft) (r : Value) : Prop :=
  ∃ t accepted m, r = create_append_entries_response (uuid s) t accepted m ∧ (m ≤ size (log s))%N.

(** Neither reads as the other. *)
Lemma request_is_no_reply s r v : request_of s r → reads_as r v → ¬ commands v "AppendEntriesReply".
Proof using.
  intros (u & t & c & pi & et & m & prev & -> & _) Hv Hc. unfold create_append_entries_request in Hv.
  assert ("AppendEntries"%string = "AppendEntriesReply"%string) as [=].
  eapply reads_command; [|right; left; reflexivity|exact Hv|exact Hc]. apply (bool_decide_unpack _). by vm_compute.
Qed.
Lemma reply_is_no_request s r v : reply_of s r → reads_as r v → ¬ commands v "AppendEntries".
Proof using.
  intros (t & b & m & -> & _) Hv Hc. unfold create_append_entries_response in Hv.
  assert ("AppendEntriesReply"%string = "AppendEntries"%string) as [=].
  eapply reads_command; [|right; left; reflexivity|exact Hv|exact Hc]. apply (bool_decide_unpack _). by vm_compute.
Qed.

(** The calls that send neither, and those that send what the log has. *)
Definition quiet_call (e : effect) : Prop :=
  match e with SendMessage _ r | SessionSend _ r _ => harmless r | _ => True end.
Definition sound_call (s : raft) (e : effect) : Prop :=
  match e with
  | SendMessage _ r => harmless r ∨ request_of s r
  | SessionSend _ r _ => harmless r ∨ reply_of s r
  | _ => True
  end.

Lemma quiet_sound s e : quiet_call e → sound_call s e.
Proof using. destruct e; simpl; auto. Qed.

(** What a node has sent stays sound while its log grows. *)
Lemma request_of_mono s s' r :
  entries s `prefix_of` entries s' → (commit_index s ≤ commit_index s')%N → request_of s r → request_of s' r.
Proof using.
  intros Hp Hc (u & t & c & pi & et & m & prev & -> & Hpi & Hcc & Hprev & Hm).
  exists u, t, c, pi, et, m, prev. split_and!; [done|done|lia|by eapply prefix_lookup_Some|].
  destruct Hm as [|(e & He & ? & ?)]; [by left|right]. exists e. split_and!; [by eapply prefix_lookup_Some|done..].
Qed.

Lemma size_prefix s s' : entries s `prefix_of` entries s' → (size (log s) ≤ size (log s'))%N.
Proof using. intros Hp%prefix_length. unfold size, lengthN. lia. Qed.

Lemma sound_call_mono s s' c :
  uuid s' = uuid s → entries s `prefix_of` entries s' → (commit_index s ≤ commit_index s')%N →
  sound_call s c → sound_call s' c.
Proof using.
  intros Hu Hp Hc. destruct c; try done; (intros [|H]; [by left|right]); [by eapply request_of_mono|].
  destruct H as (t & b & m & -> & Hm). exists t, b, m. rewrite Hu. split; [done|]. pose proof (size_prefix _ _ Hp). lia.
Qed.

Abbreviation silent := (maintains (λ _ : raft, True) quiet_call).

Lemma maintains_attempt I Q (m : raftM unit) : maintains I Q m → maintains I Q (attempt m).
Proof using. intros Hm s Hi. destruct (Hm s Hi) as [H1 H2]. unfold attempt, post, out in *. by destruct (m s) as [[[]?]?]. Qed.
Lemma maintains_log_call {A} Q (m : M raft_log unit A) : maintains (λ _ : raft, True) Q (log_call m).
Proof using. intros s _. split; [done|]. unfold log_call, out. simpl. constructor. Qed.

#[local] Hint Extern 5 (maintains _ _ _) => solve [apply maintains_query; auto with query nocore] : maintains.
#[local] Hint Resolve maintains_log_call : maintains.
Ltac maintains_steps := repeat first [solve [auto with maintains nocore] | apply maintains_attempt | maintains_step].

(** The members of a message that tell it is harmless. *)
Ltac distinct := apply (bool_decide_unpack _); vm_compute; exact I.
Ltac listed := repeat first [left; reflexivity|right].
Ltac harmless :=
  lazymatch goal with
  | |- sound_call _ _ => apply quiet_sound; harmless
  | |- _ =>
      first [exact I
            |eapply harmless_cmd; [distinct|listed|discriminate|discriminate]
            |eapply harmless_api; [distinct|listed|discriminate]
            |apply harmless_none; intros ?%(bool_decide_pack _); contradiction]
  end.
#[local] Hint Extern 3 (maintains _ _ (emit _)) => solve [apply maintains_emit; harmless] : maintains.
#[local] Hint Extern 3 (maintains (λ _, True) _ (modify _)) => solve [apply maintains_modify; intros; exact I] : maintains.

Lemma silent_match_index u : silent (match_index u).
Proof using. unfold match_index. maintains_steps. Qed.
Lemma silent_update_raft_state t st : silent (update_raft_state t st).
Proof using. unfold update_raft_state. maintains_steps. Qed.
Lemma silent_start_election_timer : silent start_election_timer.
Proof using. unfold start_election_timer. maintains_steps. Qed.
Lemma silent_send_error session e : silent (send_session_error_message session e).
Proof using. unfold send_session_error_message. maintains_steps. Qed.
Lemma silent_send_success session c m :
  c ≠ "AppendEntries"%string → c ≠ "AppendEntriesReply"%string → silent (send_success_message session c m).
Proof using.
  intros Hc Hc'. unfold send_success_message. maintains_step; [maintains_steps|]. apply maintains_emit.
  eapply harmless_cmd; [distinct|listed|done|done].
Qed.
Lemma silent_notify_commit c o : silent (notify_commit iteration c o).
Proof using. unfold notify_commit, send_to_all. maintains_steps. Qed.
Lemma silent_notify_leader_status : silent (notify_leader_status iteration).
Proof using. unfold notify_leader_status, send_to_all. maintains_steps. Qed.
Lemma silent_append_log v t : silent (append_log_unsafe v t).
Proof using. unfold append_log_unsafe. maintains_steps. Qed.
#[local] Hint Resolve silent_match_index silent_update_raft_state silent_start_election_timer silent_send_error
  silent_notify_commit silent_notify_leader_status silent_append_log : maintains.
#[local] Hint Extern 3 (maintains _ _ (send_success_message _ _ _)) => solve [apply silent_send_success; discriminate] : maintains.

Lemma silent_perform_commit e : silent (perform_commit iteration e).
Proof using. unfold perform_commit, create_single_quorum_from_joint_quorum. maintains_steps. Qed.
#[local] Hint Resolve silent_perform_commit : maintains.
Lemma silent_commit_until fuel bound : silent (commit_until iteration fuel bound).
Proof using. induction fuel; cbn [commit_until]; maintains_steps. Qed.
Lemma silent_commit_from fuel i c : silent (commit_from iteration fuel i c).
Proof using. revert i. induction fuel; intros i; cbn [commit_from]; maintains_steps. Qed.
Lemma silent_match_indices us : silent (match_indices us).
Proof using. induction us; cbn [match_indices]; maintains_steps. Qed.
#[local] Hint Resolve silent_commit_until silent_commit_from silent_match_indices : maintains.
Lemma silent_last_majority : silent last_majority_replicated_log_index.
Proof using.
  unfold last_majority_replicated_log_index. maintains_step; [maintains_steps|]. generalize (2 ^ 32 - 1)%N as r. revert a.
  intros qs. induction qs as [|q qs IH]; intros r; cbn [min_median]; maintains_steps.
Qed.
#[local] Hint Resolve silent_last_majority : maintains.

Lemma silent_append_response msg : silent (handle_request_append_entries_response iteration msg).
Proof using. unfold handle_request_append_entries_response. maintains_steps. Qed.
Lemma silent_request_vote msg session : silent (handle_ws_request_vote msg session).
Proof using. unfold handle_ws_request_vote. maintains_steps. Qed.
Lemma silent_request_vote_request : silent (request_vote_request iteration).
Proof using. unfold request_vote_request. maintains_steps. Qed.
Lemma silent_auto_add_peer pick : silent (auto_add_peer_if_required iteration pick).
Proof using. unfold auto_add_peer_if_required. maintains_steps. Qed.
#[local] Hint Resolve silent_append_response silent_request_vote silent_request_vote_request
  silent_auto_add_peer : maintains.
Lemma silent_election_timeout pick ec : silent (handle_election_timeout iteration pick ec).
Proof using. unfold handle_election_timeout. maintains_steps. Qed.
Lemma silent_validate session p : silent (validate_new_peer session p).
Proof using. unfold validate_new_peer. maintains_steps. Qed.
#[local] Hint Resolve silent_validate : maintains.
Lemma silent_add_peer_message msg session : silent (handle_add_peer_message msg session).
Proof using.
  unfold handle_add_peer_message, handle_add_peer, create_joint_quorum_by_adding_peer. maintains_steps.
Qed.
Lemma silent_remove_peer_message msg session : silent (handle_remove_peer_message msg session).
Proof using.
  unfold handle_remove_peer_message, handle_remove_peer, create_joint_quorum_by_removing_peer. maintains_steps.
Qed.
Lemma silent_add_self : silent (add_self_to_swarm iteration).
Proof using. unfold add_self_to_swarm. maintains_steps. Qed.
#[local] Hint Resolve silent_add_self : maintains.
Lemma silent_get_peers_response pick msg : silent (handle_get_peers_response iteration pick msg).
Proof using.
  unfold handle_get_peers_response, handle_get_peers_response_from_follower_or_candidate,
    handle_get_peers_response_from_leader. maintains_steps.
Qed.
Lemma silent_earlier_term t : silent (handle_earlier_term t).
Proof using. unfold handle_earlier_term. maintains_steps. Qed.
Lemma silent_get_peers session : silent (handle_get_peers iteration session).
Proof using.
  unfold handle_get_peers. maintains_step; [maintains_steps|]. destruct (current_state a).
  - intros s. apply maintains_bind_at; [by apply maintains_query|]. intros ? [= <-]. apply maintains_emit. harmless.
  - intros s. apply maintains_bind_at; [apply maintains_query; auto with query|]. intros x Hx.
    apply maintains_emit. revert Hx. rewrite res_bind. destruct (res (get_leader_unsafe _) s) as [l| |]; [|done..].
    rewrite res_ret. intros [= <-]. harmless.
  - intros s. apply maintains_bind_at; [apply maintains_query; auto with query|]. intros x Hx.
    apply maintains_emit. revert Hx. rewrite res_bind. destruct (res (get_all_peers _) s) as [l| |]; [|done..].
    rewrite res_ret. intros [= <-]. destruct l; harmless.
Qed.

(** *** Requests *)

Lemma silent_sound {A} s0 (m : raftM A) :
  respects same_log m → silent m → maintains (same_log s0) (sound_call s0) m.
Proof using.
  intros Hm Hs s [H1 H2]. destruct (Hm s) as [E1 E2]. split; [split; congruence|].
  eapply Forall_impl; [by apply Hs|]. intros e. apply quiet_sound.
Qed.

Lemma previous_index k : (0 < k < 2 ^ 32)%N → u32 (k + 2 ^ 32 - 1) = (k - 1)%N.
Proof using.
  intros Hk. unfold u32. replace (k + 2 ^ 32 - 1)%N with ((k - 1) + 1 * 2 ^ 32)%N by lia.
  rewrite N.Div0.mod_add. apply N.mod_small. lia.
Qed.

Lemma next_index k : (k < 2 ^ 32)%N → u32 (u32 (k + 2 ^ 32 - 1) + 1) = k.
Proof using.
  intros Hk. destruct (decide (k = 0)%N) as [->|]; [done|]. rewrite previous_index by lia. rewrite u32_small; lia.
Qed.

Lemma u32_lt n : (u32 n < 2 ^ 32)%N.
Proof using. by apply N.mod_lt. Qed.

Lemma sound_request_append_entry s0 peer :
  (size (log s0) < 2 ^ 32)%N → maintains (same_log s0) (sound_call s0) (request_append_entry peer).
Proof using.
  intros Hlt. unfold request_append_entry.
  apply maintains_bind; [apply silent_sound; [apply same_log_match_index|apply silent_match_index]|].
  intros index s. apply maintains_bind_at; [apply maintains_query, query_gets|]. intros ? [= <-]. cbn [id].
  rewrite post_gets. destruct (N.ltb_spec index (size (log s))).
  - intros Hs. assert (index < 2 ^ 32)%N as Hi by (destruct Hs as [Hs _]; rewrite Hs in *; lia). revert Hs.
    apply maintains_bind_at; [apply maintains_query, query_lift|]. intros prev Hprev%entry_at_lookup.
    apply maintains_bind_at; [apply maintains_query, query_lift|]. intros e He%entry_at_lookup.
    apply maintains_bind_at; [apply maintains_query, query_lift|]. intros ep _ [Hl Hc].
    apply maintains_emit; [|done]. right. rewrite !post_lift in *. rewrite Hl in *.
    eexists _, _, _, _, _, _, prev. split; [done|]. split; [apply u32_lt|]. split; [by rewrite Hc|].
    split; [done|].
    right. exists e. by rewrite next_index.
  - apply maintains_bind_at; [apply maintains_query, query_lift|]. intros prev Hprev%entry_at_lookup.
    apply maintains_bind_at; [apply maintains_query, query_lift|]. intros ep _ [Hl Hc].
    apply maintains_emit; [|done]. right. rewrite !post_lift in *. rewrite Hl in *.
    eexists _, _, _, _, _, _, prev. split; [done|]. split; [apply u32_lt|]. split; [by rewrite Hc|].
    split; [done|]. by left.
Qed.

Lemma sound_request_append_entries s0 :
  (size (log s0) < 2 ^ 32)%N → maintains (same_log s0) (sound_call s0) (request_append_entries iteration).
Proof using.
  intros Hlt. pose proof (λ p, sound_request_append_entry s0 p Hlt).
  unfold request_append_entries, start_heartbeat_timer. maintains_steps.
Qed.

Lemma sound_heartbeat s0 ec :
  (size (log s0) < 2 ^ 32)%N → maintains (same_log s0) (sound_call s0) (handle_heartbeat_timeout iteration ec).
Proof using.
  intros Hlt. unfold handle_heartbeat_timeout. destruct ec; [by apply maintains_query|].
  apply maintains_bind; [by apply sound_request_append_entries|]. intros [].
  apply silent_sound; [apply same_log_notify_leader_status|apply silent_notify_leader_status].
Qed.

Lemma sound_update s0 t st : maintains (same_log s0) (sound_call s0) (update_raft_state t st).
Proof using. apply silent_sound; [apply same_log_update|apply silent_update_raft_state]. Qed.

Lemma sound_vote_response s0 msg :
  (size (log s0) < 2 ^ 32)%N → maintains (same_log s0) (sound_call s0) (handle_request_vote_response iteration msg).
Proof using.
  intros Hlt. pose proof (sound_request_append_entries s0 Hlt). pose proof (sound_update s0).
  unfold handle_request_vote_response, start_election_timer. maintains_steps; done.
Qed.

(** Every call of an event is sound for the log after it. *)
Definition calls_sound {A} (m : raftM A) (s : raft) : Prop := Forall (sound_call (post m s)) (out m s).

Lemma silent_calls {A} (m : raftM A) s : silent m → calls_sound m s.
Proof using. intros Hm. eapply Forall_impl; [by apply Hm|]. intros e. apply quiet_sound. Qed.

(** What a method that leaves the log alone sends of it. *)
Lemma sound_calls {A} (m : raftM A) s : respects tracks m → maintains (same_log s) (sound_call s) m → calls_sound m s.
Proof using.
  intros Ht Hm. destruct (Hm s ltac:(done)) as [[Hl Hc] Hall]. destruct (Ht s) as [Hu _].
  eapply Forall_impl; [exact Hall|]. intros e. apply sound_call_mono; [done|by rewrite Hl|by rewrite Hc].
Qed.

(** Something silent goes ahead. *)
Lemma calls_sound_bind {A B} (m : raftM A) (k : A → raftM B) s :
  silent m → (∀ a, res m s = Ok a → calls_sound (k a) (post m s)) → calls_sound (m ≫= k) s.
Proof using.
  intros Hm Hk. unfold calls_sound. rewrite out_bind, post_bind. apply Forall_app.
  split.
  - eapply Forall_impl; [by apply Hm|]. intros e. apply quiet_sound.
  - destruct (res m s) as [a| |] eqn:E; [by apply Hk|constructor..].
Qed.
Lemma calls_sound_query {A B} (m : raftM A) (k : A → raftM B) s :
  query m → (∀ a, res m s = Ok a → calls_sound (k a) s) → calls_sound (m ≫= k) s.
Proof using.
  intros Hm Hk. apply calls_sound_bind; [by apply maintains_query|]. intros a Ha. unfold post. rewrite (Hm s). by apply Hk.
Qed.

Lemma calls_sound_then (m : raftM unit) session s :
  calls_sound m s → calls_sound (m;; emit (SessionClose session)) s.
Proof using.
  intros Hm. unfold calls_sound in *. rewrite out_bind, post_bind. destruct (res m s); rewrite ?post_emit; apply Forall_app;
    (split; [exact Hm|repeat constructor]).
Qed.

Lemma calls_sound_after (m k : raftM unit) s :
  calls_sound m s → silent k → respects same_log k → respects same_uuid k → calls_sound (m;; k) s.
Proof using.
  intros Hm Hk Hl Hu. unfold calls_sound in *. rewrite out_bind, post_bind.
  destruct (res m s) as [[]| |]; [|rewrite app_nil_r; exact Hm..]. set (s1 := post m s) in *. apply Forall_app.
  destruct (Hl s1) as [Hl1 Hc1]. split.
  - eapply Forall_impl; [exact Hm|]. intros e. apply sound_call_mono; [apply Hu|by rewrite Hl1|by rewrite Hc1].
  - by apply silent_calls.
Qed.

(** A reply, and then something silent that drops no entry. *)
Lemma sound_reply session s t accepted n e :
  (n ≤ size (log s))%N → sound_call s (SessionSend session (create_append_entries_response (uuid s) t accepted (u32 n)) e).
Proof using.
  intros Hn. right. exists t, accepted, (u32 n). split; [done|]. pose proof (N.Div0.mod_le n (2 ^ 32)). unfold u32. lia.
Qed.
Lemma calls_sound_reply session s t accepted n (k : raftM unit) :
  (n ≤ size (log s))%N → silent k → respects appends k → respects same_uuid k →
  calls_sound (emit (SessionSend session (create_append_entries_response (uuid s) t accepted (u32 n)) true);; k) s.
Proof using.
  intros Hn Hk Ha Hu. unfold calls_sound. rewrite out_bind, post_bind, res_emit, post_emit. constructor.
  - rewrite <-(Hu s). apply sound_reply. destruct (Ha s) as (_ & _ & (new & Hnew & _) & _).
    etrans; [exact Hn|]. apply size_prefix. rewrite Hnew. by exists new.
  - eapply Forall_impl; [by apply Hk|]. intros e. apply quiet_sound.
Qed.

#[local] Hint Resolve silent_calls : maintains.

Lemma append_entries_calls msg session s : calls_sound (handle_ws_append_entries iteration msg session) s.
Proof using.
  unfold handle_ws_append_entries.
  apply calls_sound_query; [apply query_get_uint|]. intros t _. apply calls_sound_query; [apply query_gets|]. intros s0 _.
  apply calls_sound_bind; [maintains_steps|]. intros [] _. destruct (_ && _); [apply silent_calls; maintains_steps|].
  apply calls_sound_query; [apply query_get_string|]. intros from _.
  apply calls_sound_bind; [maintains_steps|]. intros [] _.
  do 3 (apply calls_sound_query; [apply query_get_uint|]; intros ? _).
  apply calls_sound_query; [apply query_lift|]. intros accepted _.
  apply calls_sound_bind; [maintains_steps|]. intros [] _. set (s1 := post _ _). clearbody s1.
  apply calls_sound_query; [apply query_gets|]. intros ? [= <-]. cbn [id].
  apply calls_sound_reply; [lia|maintains_steps| |].
  - pose proof (appends_commit_from iteration). method_steps. by apply appends_frame.
  - pose proof (same_uuid_commit_from iteration). method_steps. done.
Qed.

Lemma later_term_calls cmd t msg session s : calls_sound (handle_later_term cmd t msg session) s.
Proof using.
  unfold handle_later_term. apply calls_sound_bind; [maintains_steps|]. intros [] _.
  set (s1 := post _ _). clearbody s1. apply calls_sound_query; [apply query_gets|]. intros ? [= <-]. cbn [id].
  destruct (bool_decide _); [apply silent_calls; maintains_steps|].
  destruct (bool_decide _); [|apply silent_calls; maintains_steps]. cbn [when].
  apply calls_sound_after.
  - apply calls_sound_query; [apply query_get_string|]. intros from _. apply calls_sound_bind; [maintains_steps|].
    intros [] _. constructor; [|constructor]. by apply (sound_reply session (set_leader from s1)).
  - maintains_steps.
  - pose proof same_log_update. method_steps. done.
  - pose proof (λ u, same_uuid_tracks _ (tracks_update u follower ltac:(done))). method_steps. done.
Qed.

Lemma receive_calls_sound pick msg session s :
  (size (log s) < 2 ^ 32)%N → calls_sound (handle_ws_raft_messages iteration pick msg session) s.
Proof using JL.
  intros Hlt. unfold handle_ws_raft_messages. unfold calls_sound.
  assert (silent (shutdown_on_exceeded_max_storage false)) as Hsh.
  { unfold shutdown_on_exceeded_max_storage. maintains_steps. }
  apply calls_sound_bind; [done|]. intros [] _. rewrite <-(pure_shutdown s).
  apply calls_sound_query; [apply query_get_string|]. intros cmd _.
  case_bool_decide; [apply silent_calls, silent_add_peer_message|].
  case_bool_decide; [apply silent_calls, silent_remove_peer_message|].
  case_bool_decide; [apply silent_calls, silent_get_peers|].
  case_bool_decide; [apply silent_calls, silent_get_peers_response|].
  apply calls_sound_query; [apply query_get_string|]. intros from _.
  apply calls_sound_query; [apply query_in_quorum|]. intros [] _; [|constructor]. cbn [negb].
  apply calls_sound_query; [apply query_get_uint|]. intros t _.
  apply calls_sound_query; [apply query_gets|]. intros ct _.
  destruct (_ =? _)%N;
    [|destruct (_ <? _)%N; [apply later_term_calls|apply silent_calls, silent_earlier_term]].
  unfold handle_current_term. case_bool_decide; [apply silent_calls, silent_request_vote|].
  case_bool_decide; [apply append_entries_calls|].
  case_bool_decide; [apply calls_sound_then, silent_calls, silent_append_response|].
  case_bool_decide; [|constructor].
  by apply calls_sound_then, sound_calls, sound_vote_response; [apply tracks_vote_response|].
Qed.

Lemma event_calls_sound ev s : (size (log s) < 2 ^ 32)%N → calls_sound (handle_event iteration ev) s.
Proof using JL.
  intros Hlt. destruct ev; simpl; [by apply receive_calls_sound|apply silent_calls, silent_election_timeout|
    by apply sound_calls; [apply tracks_heartbeat|apply sound_heartbeat]| | |by constructor|by constructor].
  - apply silent_calls. unfold append_log. maintains_steps.
  - apply silent_calls. unfold start. maintains_steps.
Qed.

End Sent.
End raft_sent.
