(* ===== verification/Network.v ===== *)
(** * Nodes that exchange messages

    A world of nodes of one kind: the state of every node and the calls it has
    made.  One node handles one event at a time; which events a node may be given
    depends on what the nodes have called, so a network that loses, repeats,
    delays and reorders messages is one whose deliveries stay admissible. *)

From stdpp Require Import functions relations.
From S2P Require Import Prelude Messages.

Module network.

Record world (St Ef : Type) := World { node_of : uuid_t → St; calls_of : uuid_t → list Ef }.
Arguments World {St Ef}.
Arguments node_of {St Ef}.
Arguments calls_of {St Ef}.

Section Worlds.
Context {St Ef Ev : Type}.
Abbreviation world := (world St Ef).
(** How a node handles an event; the events it may be given; the first worlds. *)
Context (run_event : uuid_t → Ev → M St Ef unit) (may : world → uuid_t → Ev → Prop) (initial : world → Prop).

Definition handle (u : uuid_t) (ev : Ev) (w : world) : world :=
  World (<[u := post (run_event u ev) (node_of w u)]> (node_of w))
        (<[u := calls_of w u ++ out (run_event u ev) (node_of w u)]> (calls_of w)).

Inductive step : world → world → Prop :=
| step_handle w u ev : may w u ev → step w (handle u ev w).

Definition reachable (w : world) : Prop := ∃ w0, initial w0 ∧ rtc step w0 w.

(** An invariant holds of what can be reached. *)
Lemma reachable_invariant (I : world → Prop) :
  (∀ w, initial w → I w) → (∀ w u ev, may w u ev → I w → I (handle u ev w)) → ∀ w, reachable w → I w.
Proof using.
  intros H0 Hs w (w0 & Hw & Hr). apply H0 in Hw. induction Hr as [|x y z [w1 u ev Hm] _ IH]; auto.
Qed.

Lemma node_of_handle u ev w : node_of (handle u ev w) u = post (run_event u ev) (node_of w u).
Proof using. apply fn_lookup_insert. Qed.
Lemma node_of_handle_ne u v ev w : u ≠ v → node_of (handle u ev w) v = node_of w v.
Proof using. apply fn_lookup_insert_ne. Qed.
Lemma calls_of_handle u ev w :
  calls_of (handle u ev w) u = calls_of w u ++ out (run_event u ev) (node_of w u).
Proof using. apply fn_lookup_insert. Qed.
Lemma calls_of_handle_ne u v ev w : u ≠ v → calls_of (handle u ev w) v = calls_of w v.
Proof using. apply fn_lookup_insert_ne. Qed.

Lemma calls_grow w u ev v e : e ∈ calls_of w v → e ∈ calls_of (handle u ev w) v.
Proof using.
  intros He. destruct (decide (u = v)) as [<-|Hne].
  - rewrite calls_of_handle. apply elem_of_app. by left.
  - by rewrite calls_of_handle_ne.
Qed.

(** ** Schedules

    A run given as a list, with a check that it is one. *)
Context (mayb : world → uuid_t → Ev → bool).

Definition play (evs : list (uuid_t * Ev)) (w : world) : world := foldl (λ w ev, handle ev.1 ev.2 w) w evs.

Fixpoint playable (evs : list (uuid_t * Ev)) (w : world) : bool :=
  match evs with
  | [] => true
  | (u, ev) :: evs => mayb w u ev && playable evs (handle u ev w)
  end.

Lemma play_reachable evs w :
  (∀ w u ev, mayb w u ev = true → may w u ev) → reachable w → playable evs w = true → reachable (play evs w).
Proof using.
  intros Hsound. revert w. induction evs as [|[u ev] evs IH]; intros w Hr Hp; [done|].
  apply andb_prop in Hp as [Hm Hp]. apply IH; [|done]. destruct Hr as (w0 & H0 & Hr). exists w0. split; [done|].
  eapply rtc_r; [done|]. constructor. by apply Hsound.
Qed.

(** A schedule every event of which may happen, and the events of one node. *)
Fixpoint scheduled (evs : list (uuid_t * Ev)) (w : world) : Prop :=
  match evs with
  | [] => True
  | (u, ev) :: evs => may w u ev ∧ scheduled evs (handle u ev w)
  end.

Definition own (u : uuid_t) (evs : list (uuid_t * Ev)) : list Ev :=
  omap (λ ev, if decide (ev.1 = u) then Some ev.2 else None) evs.

Lemma own_cons u x ev evs : own u ((x, ev) :: evs) = if decide (x = u) then ev :: own u evs else own u evs.
Proof using. unfold own. simpl. by destruct (decide (x = u)). Qed.

Lemma own_elem u ev evs : ev ∈ own u evs ↔ (u, ev) ∈ evs.
Proof using.
  unfold own. rewrite list_elem_of_omap. split.
  - intros ([x ev'] & Hin & E). simpl in E. destruct (decide (x = u)) as [->|]; [|done]. by injection E as ->.
  - intros Hin. exists (u, ev). split; [done|]. simpl. by rewrite decide_True.
Qed.

Lemma scheduled_own (P : uuid_t → Ev → Prop) evs w u :
  (∀ w u ev, may w u ev → P u ev) → scheduled evs w → Forall (P u) (own u evs).
Proof using.
  intros HP. revert w. induction evs as [|[x ev] evs IH]; intros w; [constructor|]. intros [Hm Hs].
  rewrite own_cons. destruct (decide (x = u)) as [->|]; [constructor|]; [by eapply HP|by eapply IH..].
Qed.

Lemma play_reachable_scheduled evs w : reachable w → scheduled evs w → reachable (play evs w).
Proof using.
  revert w. induction evs as [|[u ev] evs IH]; intros w Hr Hs; [done|]. destruct Hs as [Hm Hs]. apply IH; [|done].
  destruct Hr as (w0 & H0 & Hr). exists w0. split; [done|]. eapply rtc_r; [done|]. by constructor.
Qed.

Lemma playable_scheduled evs w :
  (∀ w u ev, mayb w u ev = true → may w u ev) → playable evs w = true → scheduled evs w.
Proof using.
  intros Hsound. revert w. induction evs as [|[u ev] evs IH]; intros w Hp; [done|].
  apply andb_prop in Hp as [Hm Hp]. split; [by apply Hsound|by apply IH].
Qed.

End Worlds.
End network.
