(* ===== verification/PbftSwarm.v ===== *)
(** * A swarm of PBFT nodes

    Nodes of [Pbft], connected by a network that loses, repeats, delays and
    reorders messages, with peers that misbehave among them. *)

From S2P Require Import Prelude Messages Storage Json Crud PbftOperation PbftConfig PbftService Pbft PbftProps PbftVotes Node Network.

(** ** The swarm *)
Module pbft_swarm.
Import pbft_operation pbft_configuration pbft_config_store pbft pbft_votes network.

Section Swarm.
Context {PB : Protobuf} {JS : Jsoncpp} {HS : StdHash} {BO : Boost}.
Context {MP : Message pbft_msg} {ME : Message bzn_envelope} {MA : Message audit_message}
  {MM : Message pbft_membership_msg} {MB : Message bzn_msg}.

(** The list of peers that every node is started with, the names of the peers
    that misbehave, and the state hashes of the nodes. *)
Context (bootstrap : list peer_address_t) (faulty : gset uuid_t) (state_hash : uuid_t → N → hash_t).

Abbreviation swarm := (world pbft effect).

Definition members : gset uuid_t := list_to_set (Messages.uuid <$> first_peers bootstrap).
Definition correct (u : uuid_t) : Prop := u ∈ members ∧ u ∉ faulty.

(** What a session makes of a text that it reads. *)
Definition delivers (text : string) (e : bzn_envelope) : Prop :=
  ∃ conn, session.CallProtoHandler e ∈ out (session.handle_read false text) conn.

(** The channels are authenticated: an envelope that arrives names a peer, and
    when that peer is correct it has sent the text.  A faulty peer sends what it
    likes. *)
Definition genuine (w : swarm) (e : bzn_envelope) : Prop :=
  sender e ∈ members ∧
  (sender e ∉ faulty → ∃ ep text, SendMessageStr ep text ∈ calls_of w (sender e) ∧ delivers text e).

Definition admissible (w : swarm) (ev : pbft_props.event) : Prop :=
  match ev with
  | pbft_props.Received e => genuine w e
  | pbft_props.MoveTo _ => False
  | _ => pbft_props.event_ok ev
  end.

Definition run_event (u : uuid_t) (ev : pbft_props.event) : M pbft effect unit :=
  pbft_props.handle_event (state_hash u) ev.

Definition may (w : swarm) (u : uuid_t) (ev : pbft_props.event) : Prop := correct u ∧ admissible w ev.

Definition initial (w : swarm) : Prop :=
  ∀ u, correct u → pbft.new bootstrap u = Ok (node_of w u) ∧ calls_of w u = [].

Definition reachable : swarm → Prop := network.reachable run_event may initial.
Abbreviation handle := (network.handle run_event).

(** *** The invariant *)

(** A node of the swarm is a node in a run of its own, with delivered votes. *)
Record node_inv (w : swarm) (u : uuid_t) : Prop := {
  node_run : ∃ s0 evs, pbft.new bootstrap u = Ok s0 ∧ Forall pbft_props.event_ok evs ∧
    pbft_props.run (state_hash u) evs s0 = (node_of w u, calls_of w u);
  node_votes : votes_heard (state_hash u) (first_peers bootstrap) (genuine w) (node_of w u);
  node_posts : Forall (posts_backed (first_peers bootstrap) (genuine w)) (calls_of w u)
}.

Definition inv (w : swarm) : Prop := ∀ u, correct u → node_inv w u.

Lemma run_snoc h evs ev s :
  pbft_props.run h (evs ++ [ev]) s =
  let r := pbft_props.run h evs s in
  (post (pbft_props.handle_event h ev) r.1, r.2 ++ out (pbft_props.handle_event h ev) r.1).
Proof.
  revert s. induction evs as [|e evs IH]; intros s; simpl; [by rewrite app_nil_r|].
  rewrite IH. simpl. destruct (pbft_props.run h evs _) as [s' es]. by rewrite app_assoc.
Qed.

Lemma genuine_mono w u ev e : genuine w e → genuine (handle u ev w) e.
Proof.
  intros [Hm Hs]. split; [done|]. intros Hf. destruct (Hs Hf) as (ep & text & Hin & Hd).
  exists ep, text. split; [|done]. by apply network.calls_grow.
Qed.

Lemma initial_inv w : initial w → inv w.
Proof.
  intros Hw u Hu. destruct (Hw u Hu) as [Hn Hc]. split.
  - exists (node_of w u), []. split; [done|]. split; [done|]. simpl. by rewrite Hc.
  - by eapply votes_heard_new.
  - by rewrite Hc.
Qed.

Lemma node_inv_mono w u ev v : u ≠ v → node_inv w v → node_inv (handle u ev w) v.
Proof.
  intros Hne [Hr Hv Hp]. split; rewrite ?network.node_of_handle_ne, ?network.calls_of_handle_ne by done; [done|..].
  - eapply votes_heard_mono; [|done]. intros e. apply genuine_mono.
  - eapply Forall_impl; [done|]. intros x. apply posts_backed_mono. intros e. apply genuine_mono.
Qed.

Lemma admissible_ok w ev : admissible w ev → pbft_props.event_ok ev.
Proof. by destruct ev. Qed.

Lemma handle_inv w u ev : admissible w ev → node_inv w u → node_inv (handle u ev w) u.
Proof.
  intros Ha [(s0 & evs & Hn & Hok & Hr) Hv Hp].
  set (heard := genuine (handle u ev w)).
  assert (∀ e, genuine w e → heard e) as Hmono by (intros e; apply genuine_mono).
  destruct (keeps_handle_event (state_hash u) (first_peers bootstrap) heard ev) with (s := node_of w u) as [Hv' Hp'].
  { destruct ev; try done. by apply Hmono. }
  { by eapply votes_heard_mono. }
  split; rewrite ?network.node_of_handle, ?network.calls_of_handle.
  - exists s0, (evs ++ [ev]). split; [done|]. split.
    + apply Forall_app. split; [done|]. apply Forall_singleton. by eapply admissible_ok.
    + by rewrite run_snoc, Hr.
  - done.
  - apply Forall_app. split; [|done]. eapply Forall_impl; [done|]. intros x. by apply posts_backed_mono.
Qed.

Lemma reachable_nodes_inv w : reachable w → inv w.
Proof.
  apply network.reachable_invariant; [apply initial_inv|]. intros w' u ev [_ Ha] Hi v Hv.
  destruct (decide (u = v)) as [<-|Hne]; [by apply handle_inv, Hi|by apply node_inv_mono, Hi].
Qed.

(** *** What the correct nodes have sent *)

Lemma new_uuid u s : pbft.new bootstrap u = Ok s → uuid s = u.
Proof. unfold pbft.new. destruct (decide (bootstrap = [])); [done|]. by intros [= <-]. Qed.

Lemma node_guarantee w u :
  node_inv w u → ∃ s0, uuid s0 = u ∧ pbft_props.step (state_hash u) s0 (calls_of w u) (node_of w u).
Proof.
  intros [(s0 & evs & Hn & Hok & Hr) _ _]. exists s0. split; [by eapply new_uuid|].
  destruct (pbft_props.run_guarantee (state_hash u) evs s0 (pbft_props.node_new_inv _ _ _ Hn) Hok) as [_ Hs].
  by rewrite Hr in Hs.
Qed.

Context {JL : JsoncppLaws} {MPL : MessageLaws pbft_msg} {MEL : MessageLaws bzn_envelope}.

(** A session tries JSON first. *)
Lemma delivers_spec text e : delivers text e ↔ parse text = None ∧ ParseFromString text = Some e.
Proof using.
  assert (∀ conn, session.CallProtoHandler e ∈ out (session.handle_read false text) conn ↔
    parse text = None ∧ ParseFromString text = Some e) as H.
  { intros conn. unfold session.handle_read. rewrite out_bind, out_emit. simpl. rewrite elem_of_cons.
    destruct (parse text) as [v|]; [|destruct (ParseFromString text) as [e'|]];
      rewrite ?out_emit, ?out_ret, ?list_elem_of_singleton, ?elem_of_nil;
      (split; [intros [?|?]|intros [??]]; simplify_eq; first [done|auto]). }
  split; [intros [conn Hc]; by apply (H conn)|]. intros He.
  exists (session.new 0 0 sample_keys.no_chaos). by apply H.
Qed.

Lemma audit_not_delivered a e : ¬ delivers (wrap_audit_message a) e.
Proof using JL.
  intros [Hp _]%delivers_spec. unfold wrap_audit_message in Hp.
  destruct (parse_toStyledString (obj [("bzn-api", str "audit"); ("audit-data", str (base64_encode (SerializeAsString a)))]))
    as (v & Hv & _). congruence.
Qed.

Lemma delivers_envelope e0 e : delivers (SerializeAsString e0) e → e = e0.
Proof using MEL. intros [_ He]%delivers_spec. by apply parse_serialized. Qed.

(** What arrives in the name of a correct node is an honest vote or checkpoint. *)
Lemma genuine_message w e m u :
  inv w → genuine w e → correct u → sender e = u → ParseFromString (payload_of kPbft e) = Some m →
  pbft_props.vote_ok (state_hash u) (node_of w u) m.
Proof using JL MPL MEL.
  intros Hi [_ Hg] Hu He Hm. subst u. destruct (Hg (proj2 Hu)) as (ep & text & Hin & Hd).
  destruct (node_guarantee _ _ (Hi _ Hu)) as (s0 & Hs0 & Hs).
  destruct (pbft_props.step_sent _ _ _ _ Hs ep text Hin) as [[a ->]|(m' & -> & Hv)]; [by apply audit_not_delivered in Hd|].
  apply delivers_envelope in Hd. rewrite Hd in Hm. unfold payload_of in Hm. simpl in Hm.
  apply parse_serialized in Hm as ->. done.
Qed.

(** *** Agreement *)

Lemma posted_operation w u op :
  inv w → correct u → PostApplyOperation op ∈ calls_of w u →
  backed (first_peers bootstrap) (genuine w) (get_operation_key op) op ∧ is_committed op = true ∧
  pbft_operation.view op = 1%N.
Proof.
  intros Hi Hu Hin. destruct (Hi u Hu) as [(s0 & evs & Hn & Hok & Hr) _ Hp]. split_and!.
  - by apply (proj1 (Forall_forall _ _) Hp _ Hin).
  - destruct (node_guarantee _ _ (Hi u Hu)) as (? & _ & Hs). by apply (pbft_props.step_committed _ _ _ _ Hs).
  - destruct (run_applied (state_hash u) bootstrap u s0 evs Hn Hok) as [_ Hf]. rewrite Hr in Hf.
    rewrite Forall_forall in Hf. by apply Hf, elem_applied.
Qed.

(** The voters of an operation are members. *)
Lemma backed_members w k op :
  backed (first_peers bootstrap) (genuine w) k op → prepares_seen op ⊆ pbft_operation.members op.
Proof.
  intros [_ Hp Hv _] u (e & m & [Hg _] & <- & _)%Hv. unfold pbft_operation.members. by rewrite Hp.
Qed.

(** A correct voter of two prepared operations. *)
Lemma correct_common_voter w f k1 k2 op1 op2 :
  lengthN (first_peers bootstrap) = (3 * f + 1)%N → (3 * f + 1 < 2 ^ 63)%N → (N.of_nat (size faulty) ≤ f)%N →
  backed (first_peers bootstrap) (genuine w) k1 op1 → backed (first_peers bootstrap) (genuine w) k2 op2 →
  is_prepared op1 = true → is_prepared op2 = true →
  ∃ u, correct u ∧ u ∈ prepares_seen op1 ∧ u ∈ prepares_seen op2.
Proof.
  intros Hn Hf Hfaulty Hb1 Hb2 Hp1 Hp2.
  pose proof (backed_peers _ _ _ _ Hb1) as Hps1. pose proof (backed_peers _ _ _ _ Hb2) as Hps2.
  pose proof (backed_members _ _ _ Hb1) as Hm1. pose proof (backed_members _ _ _ Hb2) as Hm2.
  destruct (prepared_quorums_intersect f op1 op2) as [_ Hq]; [by rewrite Hps1|done|congruence|done| |done..|].
  { unfold pbft_operation.members in *. by rewrite Hps1, <-Hps2. }
  set (X := prepares_seen op1 ∩ prepares_seen op2) in *.
  assert (∃ u, u ∈ X ∖ faulty) as [u Hu].
  { apply size_pos_elem_of. pose proof (size_without X faulty). lia. }
  exists u. assert (u ∈ prepares_seen op1) as Hu1 by set_solver. split_and!; [|done|set_solver].
  split; [|set_solver]. apply Hm1 in Hu1. unfold pbft_operation.members in Hu1. by rewrite Hps1 in Hu1.
Qed.

(** A delivered prepare vote of a correct node is for the request it accepted. *)
Lemma voted_accepted w k u :
  inv w → correct u → voted_for (genuine w) PBFT_MSG_PREPARE k u → accepted_preprepares (node_of w u) !! k.1 = Some k.
Proof using JL MPL MEL.
  intros Hi Hu (e & m & Hg & He & Hm & Ht & <-). by apply (genuine_message w e m u Hi Hg Hu He Hm); left.
Qed.

Lemma agreement w f a b opa opb :
  reachable w → lengthN (first_peers bootstrap) = (3 * f + 1)%N → (3 * f + 1 < 2 ^ 63)%N →
  (N.of_nat (size faulty) ≤ f)%N → correct a → correct b →
  PostApplyOperation opa ∈ calls_of w a → PostApplyOperation opb ∈ calls_of w b →
  sequence opa = sequence opb → request_hash (request opa) = request_hash (request opb).
Proof using JL MPL MEL.
  intros Hr Hn Hf Hfaulty Ha Hb Hina Hinb Hseq. apply reachable_nodes_inv in Hr as Hi.
  destruct (posted_operation _ _ _ Hi Ha Hina) as (Hba & [Hpa _]%andb_prop & Hva).
  destruct (posted_operation _ _ _ Hi Hb Hinb) as (Hbb & [Hpb _]%andb_prop & Hvb).
  destruct (correct_common_voter w f _ _ _ _ Hn Hf Hfaulty Hba Hbb Hpa Hpb) as (u & Hu & Hua & Hub).
  apply (backed_prepares _ _ _ _ Hba) in Hua. apply (backed_prepares _ _ _ _ Hbb) in Hub.
  apply (voted_accepted _ _ _ Hi Hu) in Hua, Hub. unfold get_operation_key in *. simpl in *. congruence.
Qed.

(** *** Checkpoints *)

(** A correct node that vouches for a checkpoint is in that state. *)
Lemma vouched_state w cp u :
  inv w → correct u → vouched (genuine w) cp u → cp.2 = state_hash u cp.1.
Proof using JL MPL MEL.
  intros Hi Hu [_ (e & m & Hg & He & Hm & Ht & <-)]. by apply (genuine_message w e m u Hi Hg Hu He Hm).
Qed.

(** The faulty members of a quorum are few. *)
Lemma size_correct (Q : gset uuid_t) f :
  Q ⊆ members → (N.of_nat (size faulty) ≤ f)%N →
  (N.of_nat (size Q) ≤ N.of_nat (size (Q ∖ faulty)) + f)%N ∧ ∀ u, u ∈ Q ∖ faulty → correct u.
Proof using.
  intros Hm Hf. split.
  - pose proof (size_without Q faulty). lia.
  - intros u [Hu Hn]%elem_of_difference. split; [by apply Hm|done].
Qed.

Lemma members_few : size members ≤ length (first_peers bootstrap).
Proof using. etrans; [apply size_list_to_set_le|]. by rewrite length_fmap. Qed.

Lemma third f : ((3 * f + 1) / 3 = f)%N.
Proof using. symmetry. apply (N.div_unique _ 3 f 1); lia. Qed.

Lemma vouched_member w cp u : vouched (genuine w) cp u → u ∈ members.
Proof. intros [_ (e & m & [Hm _] & <- & _)]. done. Qed.

(** A stable checkpoint after the first has correct nodes behind it. *)
Lemma settled_correct w f u cp :
  inv w → lengthN (first_peers bootstrap) = (3 * f + 1)%N → (N.of_nat (size faulty) ≤ f)%N →
  settled (state_hash u) (first_peers bootstrap) (genuine w) cp →
  ∃ Q : gset uuid_t, (2 * f + 1 ≤ N.of_nat (size Q))%N ∧ Q ⊆ members ∧
    ∀ v, v ∈ Q → v ∉ faulty → correct v ∧ state_hash v cp.1 = cp.2.
Proof using JL MPL MEL.
  intros Hi Hn Hf [_ (Q & Hq & Hv)]. rewrite Hn, third in Hq. exists Q.
  assert (Q ⊆ members) as Hm by (intros v Hvq; by eapply vouched_member, Hv). split_and!; [lia|done|].
  intros v Hvq Hvf. assert (correct v) as Hc by (split; [by apply Hm|done]). split; [done|].
  symmetry. by apply (vouched_state w); [done..|apply Hv].
Qed.

Lemma checkpoints_agree w f a b :
  reachable w → lengthN (first_peers bootstrap) = (3 * f + 1)%N → (N.of_nat (size faulty) ≤ f)%N →
  correct a → correct b →
  (stable_checkpoint (node_of w a)).1 = (stable_checkpoint (node_of w b)).1 →
  stable_checkpoint (node_of w a) = stable_checkpoint (node_of w b).
Proof using JL MPL MEL.
  intros Hr Hn Hf Ha Hb Heq. apply reachable_nodes_inv in Hr as Hi.
  pose proof (heard_stable _ _ _ _ (node_votes _ _ (Hi a Ha))) as Hsa.
  pose proof (heard_stable _ _ _ _ (node_votes _ _ (Hi b Hb))) as Hsb.
  assert (∀ u, settled (state_hash u) (first_peers bootstrap) (genuine w) (stable_checkpoint (node_of w u)) →
    (stable_checkpoint (node_of w u)).1 ≠ 0%N) as Hpos.
  { intros u [_ (Q & Hq & Hv)]. rewrite Hn, third in Hq. assert (0 < size Q) as [v Hvq]%size_pos_elem_of by lia.
    destruct (Hv v Hvq) as [H _]. lia. }
  destruct Hsa as [Ea|Hsa], Hsb as [Eb|Hsb].
  - congruence.
  - destruct (Hpos b Hsb). rewrite <-Heq, Ea. done.
  - destruct (Hpos a Hsa). rewrite Heq, Eb. done.
  - destruct (settled_correct w f a _ Hi Hn Hf Hsa) as (Qa & Hqa & Hma & Hca).
    destruct (settled_correct w f b _ Hi Hn Hf Hsb) as (Qb & Hqb & Hmb & Hcb).
    assert (2 * N.to_nat (2 * f + 1) ≤ size members + size (Qa ∩ Qb)) as Hq by (apply quorum_intersection_size; [done..|lia|lia]).
    pose proof members_few as Hm. unfold lengthN in Hn.
    destruct (size_correct (Qa ∩ Qb) f ltac:(set_solver) Hf) as [Hsz _].
    assert (0 < size ((Qa ∩ Qb) ∖ faulty)) as [v Hv]%size_pos_elem_of by lia.
    destruct (Hca v) as [_ E1]; [set_solver..|]. destruct (Hcb v) as [_ E2]; [set_solver..|].
    apply (injective_projections _ _ Heq). rewrite <-E1, <-E2. by rewrite Heq.
Qed.

(** *** Schedules

    A run given as a list, with a check that it is one. *)

Definition admissibleb (w : swarm) (ev : pbft_props.event) : bool :=
  match ev with
  | pbft_props.Received e =>
      bool_decide (sender e ∈ members) &&
      existsb (λ c, match c with
                    | SendMessageStr _ t =>
                        match parse t with None => bool_decide (ParseFromString t = Some e) | Some _ => false end
                    | _ => false
                    end) (calls_of w (sender e))
  | pbft_props.Executed _ n => (n <? 2 ^ 64)%N
  | pbft_props.MoveTo _ => false
  | _ => true
  end.

Definition mayb (w : swarm) (u : uuid_t) (ev : pbft_props.event) : bool :=
  bool_decide (u ∈ members) && bool_decide (u ∉ faulty) && admissibleb w ev.

Lemma admissibleb_sound w ev : admissibleb w ev = true → admissible w ev.
Proof.
  destruct ev as [|e| | | | | | |]; simpl; try done; [|by intros ?%N.ltb_lt]. intros [Hm Hc]%andb_prop. apply bool_decide_eq_true in Hm.
  split; [done|]. intros _. apply existsb_exists in Hc as (c & Hin & Hc).
  destruct c as [ep t| | | | | | | | | |]; try done. destruct (parse t) eqn:Hp; [done|].
  apply bool_decide_eq_true in Hc. exists ep, t. split; [by apply list_elem_of_In|]. by apply delivers_spec.
Qed.

Lemma mayb_sound w u ev : mayb w u ev = true → may w u ev.
Proof.
  intros [[Hm Hf]%andb_prop Ha]%andb_prop. apply bool_decide_eq_true in Hm, Hf. split; [done|].
  by apply admissibleb_sound.
Qed.

End Swarm.
End pbft_swarm.

(** ** Claims *)

Section Claims.
Context {PB : Protobuf} {JS : Jsoncpp} {HS : StdHash} {BO : Boost}.
Context {MP : Message pbft_msg} {ME : Message bzn_envelope} {MA : Message audit_message}
  {MM : Message pbft_membership_msg} {MB : Message bzn_msg}.
Context {JL : JsoncppLaws} {MPL : MessageLaws pbft_msg} {MEL : MessageLaws bzn_envelope}.
Context (bootstrap : list peer_address_t) (faulty : gset uuid_t) (state_hash : uuid_t → N → hash_t).
Import pbft_operation pbft pbft_votes network pbft_swarm.
Abbreviation swarm := (world pbft effect).

(** C1: agreement.  In a swarm of [3f+1] peers of which at most [f] misbehave,
    over a network that may lose, repeat, delay and reorder messages but delivers
    only envelopes of peers, and in the name of a correct peer only what it has
    sent: whatever the correct nodes are asked, in whatever order, no two of them
    hand their services different requests with the same sequence number. *)
Theorem pbft_agreement (w : swarm) (f : N) (a b : uuid_t) (opa opb : pbft_operation) :
  reachable bootstrap faulty state_hash w →
  lengthN (first_peers bootstrap) = (3 * f + 1)%N → (3 * f + 1 < 2 ^ 63)%N → (N.of_nat (size faulty) ≤ f)%N →
  correct bootstrap faulty a → correct bootstrap faulty b →
  opa ∈ applied_operations (calls_of w a) → opb ∈ applied_operations (calls_of w b) →
  sequence opa = sequence opb →
  request_hash (request opa) = request_hash (request opb).
Proof using JL MPL MEL.
  intros Hr Hn Hf Hfaulty Ha Hb Hina%elem_applied Hinb%elem_applied. 
  by apply (agreement bootstrap faulty state_hash w f a b).
Qed.

(** C4: checkpoints agree.  Under the same conditions, behind the stable
    checkpoint of a correct node, unless it is the one it started with, are at
    least [f+1] correct nodes whose services are in that state; and correct nodes
    whose stable checkpoints have the same sequence number have the same. *)
Theorem pbft_checkpoints_agree (w : swarm) (f : N) (a b : uuid_t) :
  reachable bootstrap faulty state_hash w →
  lengthN (first_peers bootstrap) = (3 * f + 1)%N → (N.of_nat (size faulty) ≤ f)%N →
  correct bootstrap faulty a → correct bootstrap faulty b →
  ((stable_checkpoint (node_of w a)).1 = (stable_checkpoint (node_of w b)).1 →
   stable_checkpoint (node_of w a) = stable_checkpoint (node_of w b)) ∧
  (stable_checkpoint (node_of w a) = (0%N, INITIAL_CHECKPOINT_HASH) ∨
   ∃ Q : gset uuid_t, (f + 1 ≤ N.of_nat (size Q))%N ∧
     ∀ u, u ∈ Q → correct bootstrap faulty u ∧
       state_hash u (stable_checkpoint (node_of w a)).1 = (stable_checkpoint (node_of w a)).2).
Proof using JL MPL MEL.
  intros Hr Hn Hf Ha Hb. split; [by apply (checkpoints_agree bootstrap faulty state_hash w f)|].
  apply reachable_nodes_inv in Hr as Hi. destruct (heard_stable _ _ _ _ (node_votes _ _ _ _ _ (Hi a Ha))) as [|Hs]; [by left|right].
  destruct (settled_correct _ _ _ w f a _ Hi Hn Hf Hs) as (Q & Hq & _ & Hc). exists (Q ∖ faulty).
  pose proof (size_without Q faulty). split; [lia|]. intros u [Hu Hnf]%elem_of_difference. by apply Hc.
Qed.

(** The database service of node [u], given the operations the node has handed
    over, in this order. *)
Definition database_of `{PM : Message pbft_request} (alive : session_id → bool) (w : swarm) (u : uuid_t) :=
  let st0 := (database_pbft_service.construct u mem_storage.empty mem_storage.empty).1.2 in
  let run := database_pbft_service.run u ((λ op, (alive, op)) <$> applied_operations (calls_of w u)) in
  (post run st0, out run st0).

Lemma database_of_run `{PM : Message pbft_request, HPM : !MessageLaws pbft_request} (alive : session_id → bool) w u :
  reachable bootstrap faulty state_hash w → correct bootstrap faulty u →
  Forall database_pbft_service.storable (applied_operations (calls_of w u)) →
  ∃ x, in_order_executor.run_inv
         (database_pbft_service.applied ∅ ((λ op, (alive, op)) <$> applied_operations (calls_of w u)))
         (database_pbft_service.executed (database_of alive w u).2) x ∧
    database_pbft_service.crud_storage (database_of alive w u).1 =
      foldl (λ c r, crud.apply_request (req_operation r.1) c) mem_storage.empty
        (database_pbft_service.executed (database_of alive w u).2).
Proof using.
  intros Hr Hu Hst. destruct (reachable_nodes_inv _ _ _ _ Hr u Hu) as [(s0 & evs & Hn & Hok & Hrun) _ _].
  destruct (run_applied (state_hash u) bootstrap u s0 evs Hn Hok) as [Hnd Hf]. rewrite Hrun in Hnd, Hf.
  assert (proper_operations ((λ op, (alive, op)) <$> applied_operations (calls_of w u))) as Hproper.
  { split.
    - apply Forall_fmap. rewrite Forall_forall in *. intros op Hop. split; [by apply Hst|]. by apply Hf.
    - by rewrite <-list_fmap_compose. }
  destruct (run_from_fresh u (λ _, True) (λ _, True) mem_storage.represents _ mem_storage.empty mem_storage.empty
    I (mem_storage_fresh u) Hproper) as (st0 & st & es & x & Hc & Hd & _ & Hi & Hcs).
  exists x. unfold database_of. rewrite Hc. simpl. unfold post, out. by rewrite Hd.
Qed.

(** What two correct nodes have executed differs only in how far they are. *)
Lemma executed_comparable `{PM : Message pbft_request, HPM : !MessageLaws pbft_request, HI : !Inj (=) (=) ShortDebugString}
    (alive : uuid_t → session_id → bool) w f a b :
  reachable bootstrap faulty state_hash w →
  lengthN (first_peers bootstrap) = (3 * f + 1)%N → (3 * f + 1 < 2 ^ 63)%N → (N.of_nat (size faulty) ≤ f)%N →
  correct bootstrap faulty a → correct bootstrap faulty b →
  Forall database_pbft_service.storable (applied_operations (calls_of w a)) →
  Forall database_pbft_service.storable (applied_operations (calls_of w b)) →
  let executed u := database_pbft_service.executed (database_of (alive u) w u).2 in
  executed a `prefix_of` executed b ∨ executed b `prefix_of` executed a.
Proof using JL MPL MEL.
  intros Hr Hn Hf Hfaulty Ha Hb Hsa Hsb.
  destruct (database_of_run (alive a) w a Hr Ha Hsa) as (xa & Hia & _).
  destruct (database_of_run (alive b) w b Hr Hb Hsb) as (xb & Hib & _).
  eapply in_order_executor.run_inv_comparable; [done..|]. intros n r1 r2 H1 H2.
  apply database_pbft_service.applied_lookup in H1 as [H1|(ao1 & Hin1 & Hn1 & <-)]; [by rewrite lookup_empty in H1|].
  apply database_pbft_service.applied_lookup in H2 as [H2|(ao2 & Hin2 & Hn2 & <-)]; [by rewrite lookup_empty in H2|].
  apply list_elem_of_fmap in Hin1 as (op1 & -> & Hin1%elem_applied).
  apply list_elem_of_fmap in Hin2 as (op2 & -> & Hin2%elem_applied). simpl in *.
  apply (inj ShortDebugString). apply (agreement bootstrap faulty state_hash w f a b op1 op2); try done. congruence.
Qed.

(** C3: the replicated databases agree.  Under the same conditions (and when
    different requests have different texts), feed the database service of every
    node with the operations the node hands over.  Of two correct nodes, one has
    executed all the requests the other has executed, in the same order, and its
    store is what executing the rest makes of the store of the other. *)
Theorem pbft_databases_agree `{PM : Message pbft_request, HPM : !MessageLaws pbft_request, HI : !Inj (=) (=) ShortDebugString}
    (alive : uuid_t → session_id → bool) (w : swarm) (f : N) (a b : uuid_t) :
  reachable bootstrap faulty state_hash w →
  lengthN (first_peers bootstrap) = (3 * f + 1)%N → (3 * f + 1 < 2 ^ 63)%N → (N.of_nat (size faulty) ≤ f)%N →
  correct bootstrap faulty a → correct bootstrap faulty b →
  Forall database_pbft_service.storable (applied_operations (calls_of w a)) →
  Forall database_pbft_service.storable (applied_operations (calls_of w b)) →
  let executed u := database_pbft_service.executed (database_of (alive u) w u).2 in
  let store u := database_pbft_service.crud_storage (database_of (alive u) w u).1 in
  let behind u v := ∃ rest, executed v = executed u ++ rest ∧
    store v = foldl (λ c r, crud.apply_request (req_operation r.1) c) (store u) rest in
  behind a b ∨ behind b a.
Proof using JL MPL MEL.
  intros Hr Hn Hf Hfaulty Ha Hb Hsa Hsb executed store behind.
  destruct (database_of_run (alive a) w a Hr Ha Hsa) as (_ & _ & Hda).
  destruct (database_of_run (alive b) w b Hr Hb Hsb) as (_ & _ & Hdb).
  unfold behind, store, executed. rewrite Hda, Hdb.
  destruct (executed_comparable alive w f a b Hr Hn Hf Hfaulty Ha Hb Hsa Hsb) as [[rest E]|[rest E]]; [left|right];
    exists rest; (split; [done|]); by rewrite <-foldl_app, <-E.
Qed.

End Claims.

(** *** Examples: four peers, one of them silent, order a request *)

(** A codec that prints tokens behind a letter no JSON text starts with. *)
Definition token_message {A} (to : A → list json_tree.token) (from : list json_tree.token → option A) : Message A := {|
  SerializeAsString a := String "e" (json_tree.print_tokens (to a));
  ParseFromString s :=
    match s with String "e" s => json_tree.read_tokens (String.length s) s ≫= from | _ => None end
|}.

Lemma token_message_round_trip {A} to (from : list json_tree.token → option A) a :
  from (to a) = Some a → @ParseFromString A (token_message to from) (@SerializeAsString A (token_message to from) a) = Some a.
Proof. intros Hp. simpl. rewrite json_tree.read_print_tokens by done. simpl. apply Hp. Qed.

Module sample_swarm.
Import json_tree.

Abbreviation text s := (inr (inl (inl s))).
Abbreviation number n := (inr (inl (inr n))).

(** Envelopes of PBFT messages as four tokens; other messages by their number. *)
Definition envelope_tokens (e : bzn_envelope) : list token :=
  match env_case e with
  | kPbft => [text (sender e); text (signature e); text (payload e)]
  | _ => [number (Npos (encode e))]
  end.
Definition envelope_of (ts : list token) : option bzn_envelope :=
  match ts with
  | [text u; text s; text p] => Some (Envelope u s kPbft p)
  | [number (Npos n)] => decode n
  | _ => None
  end.
#[export] Instance envelopes : Message bzn_envelope := token_message envelope_tokens envelope_of.
Lemma envelope_of_tokens e : envelope_of (envelope_tokens e) = Some e.
Proof. destruct e as [u s [] p]; [..|reflexivity| |]; apply decode_encode. Qed.
Lemma envelopes_round_trip (e : bzn_envelope) : ParseFromString (SerializeAsString e) = Some e.
Proof. apply token_message_round_trip, envelope_of_tokens. Qed.
#[export] Instance envelopes_laws : MessageLaws bzn_envelope.
Proof. apply round_trip_laws, envelopes_round_trip. Qed.

(** Requests to create a record as six tokens. *)
Definition request_tokens (r : pbft_request) : list token :=
  match r with
  | PbftRequest PBFT_REQ_UNDEFINED (ReqOperation (DbMsg (DbHeader u i) (DbCreate k v))) n c =>
      [text u; number i; text k; text v; number n; text c]
  | _ => [number (Npos (encode r))]
  end.
Definition request_of (ts : list token) : option pbft_request :=
  match ts with
  | [text u; number i; text k; text v; number n; text c] =>
      Some (PbftRequest PBFT_REQ_UNDEFINED (ReqOperation (DbMsg (DbHeader u i) (DbCreate k v))) n c)
  | [number (Npos n)] => decode n
  | _ => None
  end.
Lemma request_of_tokens r : request_of (request_tokens r) = Some r.
Proof. destruct r as [[] [|[[u i] []]|c] n cl]; first [reflexivity|apply decode_encode]. Qed.
Lemma request_tokens_cons r : ∃ t ts, request_tokens r = t :: ts.
Proof. destruct r as [[] [|[[u i] []]|c] n cl]; by eexists _, _. Qed.

Definition type_number (t : pbft_msg_type) : N :=
  match t with
  | PBFT_MSG_UNDEFINED => 0 | PBFT_MSG_PREPREPARE => 1 | PBFT_MSG_PREPARE => 2 | PBFT_MSG_COMMIT => 3
  | PBFT_MSG_CHECKPOINT => 4
  end.
Definition type_of (n : N) : pbft_msg_type :=
  match n with
  | 0 => PBFT_MSG_UNDEFINED | 1 => PBFT_MSG_PREPREPARE | 2 => PBFT_MSG_PREPARE | 3 => PBFT_MSG_COMMIT
  | _ => PBFT_MSG_CHECKPOINT
  end%N.

Definition msg_tokens (m : pbft_msg) : list token :=
  number (type_number (pm_type m)) :: number (pm_view m) :: number (pm_sequence m) :: text (pm_state_hash m) ::
  match pm_request m with None => [] | Some r => request_tokens r end.
Definition msg_of (ts : list token) : option pbft_msg :=
  match ts with
  | number t :: number v :: number n :: text h :: [] => Some (PbftMsg (type_of t) v n None h)
  | number t :: number v :: number n :: text h :: ts => r ← request_of ts; Some (PbftMsg (type_of t) v n (Some r) h)
  | _ => None
  end.
#[export] Instance messages : Message pbft_msg := token_message msg_tokens msg_of.
#[export] Instance messages_laws : MessageLaws pbft_msg.
Proof.
  apply round_trip_laws. intros m. apply token_message_round_trip. destruct m as [t v n [r|] h]; unfold msg_tokens, msg_of; simpl; [|by destruct t].
  destruct (request_tokens_cons r) as (x & xs & E). rewrite E, <-E, request_of_tokens. by destruct t.
Qed.

#[export] Instance texts : Protobuf := {| ShortDebugString r := print_tokens (request_tokens r) |}.
#[export] Instance texts_inj : Inj (=) (=) ShortDebugString.
Proof.
  intros r r' E. change (print_tokens (request_tokens r) = print_tokens (request_tokens r')) in E.
  pose proof (read_print_tokens (request_tokens r) _ ltac:(done)) as H. rewrite E, read_print_tokens in H by done.
  assert (Some r = Some r') as [= ->]; [|done]. rewrite <-!request_of_tokens. congruence.
Qed.

#[export] Existing Instance sample_boost.
#[export] Instance audits : Message audit_message := silent_message _.
#[export] Instance memberships : Message pbft_membership_msg := silent_message _.
#[export] Instance clients : Message bzn_msg := countable_message bzn_msg.

Definition others : list peer_address_t :=
  [Peer "127.0.0.1" 1 11 "a" "a"; Peer "127.0.0.1" 2 12 "b" "b"; Peer "127.0.0.1" 3 13 "c" "c"; Peer "127.0.0.1" 4 14 "d" "d"].
Definition broken : gset uuid_t := {[ "d" ]}.
Definition hashes (u : uuid_t) (n : N) : hash_t := to_string n.

Definition at_start : network.world pbft.pbft pbft.effect :=
  network.World (λ u, match pbft.new others u with Ok s => s | _ => sample_node end) (λ _, []).

Lemma at_start_reachable : pbft_swarm.reachable others broken hashes at_start.
Proof. exists at_start. split; [|reflexivity]. intros u _. split; reflexivity. Qed.

Definition order : database_msg := DbMsg (DbHeader "db" 0) (DbCreate "k" "v").
Definition request : pbft_request := PbftRequest PBFT_REQ_UNDEFINED (ReqOperation order) 0 "".
Definition vote (t : pbft_msg_type) (u : uuid_t) : pbft_props.event :=
  pbft_props.Received (Envelope u "" kPbft (SerializeAsString (PbftMsg t 1 1 (Some request) ""))).

(** Everybody receives the message of [v]. *)
Definition to_all (t : pbft_msg_type) (v : uuid_t) : list (uuid_t * pbft_props.event) :=
  (λ u, (u, vote t v)) <$> ["a"; "b"; "c"].

Definition schedule : list (uuid_t * pbft_props.event) :=
  ("b", pbft_props.Database (obj [("msg", str (SerializeAsString (BznDb order)))]) 1%N) ::
  to_all PBFT_MSG_PREPREPARE "b" ++
  (["a"; "b"; "c"] ≫= to_all PBFT_MSG_PREPARE) ++
  (["b"; "a"; "a"; "c"] ≫= λ v, [("a", vote PBFT_MSG_COMMIT v); ("b", vote PBFT_MSG_COMMIT v)]) ++
  [("c", vote PBFT_MSG_COMMIT "b")].

Definition in_order : network.world pbft.pbft pbft.effect :=
  network.play (pbft_swarm.run_event hashes) schedule at_start.

Lemma in_order_reachable : pbft_swarm.reachable others broken hashes in_order.
Proof.
  apply (network.play_reachable _ _ _ (pbft_swarm.mayb others broken));
    [apply pbft_swarm.mayb_sound|apply at_start_reachable|vm_compute; reflexivity].
Defined.

(** The services report request 100, and three nodes vouch for the checkpoint. *)
Definition checkpoint_of (u : uuid_t) : pbft_props.event :=
  pbft_props.Received (Envelope u "" kPbft (SerializeAsString (PbftMsg PBFT_MSG_CHECKPOINT 1 100 None (to_string 100%N)))).
Definition checkpointing : list (uuid_t * pbft_props.event) :=
  ((λ u, (u, pbft_props.Executed request 100)) <$> ["a"; "b"; "c"]) ++
  (["a"; "b"; "c"] ≫= λ v, [("a", checkpoint_of v); ("b", checkpoint_of v)]).

Definition checkpointed : network.world pbft.pbft pbft.effect :=
  network.play (pbft_swarm.run_event hashes) checkpointing at_start.

Lemma checkpointed_reachable : pbft_swarm.reachable others broken hashes checkpointed.
Proof.
  apply (network.play_reachable _ _ _ (pbft_swarm.mayb others broken));
    [apply pbft_swarm.mayb_sound|apply at_start_reachable|vm_compute; reflexivity].
Defined.

Lemma members_correct u :
  bool_decide (u ∈ pbft_swarm.members others) && bool_decide (u ∉ broken) = true → pbft_swarm.correct others broken u.
Proof. intros [H1 H2]%andb_prop. split; by eapply bool_decide_eq_true. Qed.

Abbreviation handed u := (applied_operations (network.calls_of in_order u)).

#[export] Instance codec : Message pbft_request := countable_message pbft_request.
#[export] Instance codec_laws : MessageLaws pbft_request := countable_message_laws pbft_request.

Definition storableb (op : pbft_operation.pbft_operation) : bool :=
  bool_decide (pbft_operation.sequence op + 1 < 2 ^ 64)%N && well_formed (pbft_operation.request op) &&
  bool_decide (strlen (SerializeAsString (pbft_operation.request op)) ≤ storage_base.MAX_VALUE_SIZE)%N.
Lemma all_storable ops : forallb storableb ops = true → Forall database_pbft_service.storable ops.
Proof.
  intros H. apply Forall_forall. intros op Hop%list_elem_of_In. rewrite forallb_forall in H.
  apply H, andb_prop in Hop as [[H1 Hw]%andb_prop H2].
  split; [by eapply bool_decide_eq_true|split; [done|by eapply bool_decide_eq_true]].
Qed.
End sample_swarm.

Import sample_swarm.

Definition some_operation (u : uuid_t) : pbft_operation.pbft_operation :=
  default (pbft_operation.new 0 0 default_request []) (head (handed u)).
Lemma some_operation_handed u : (0 <? length (handed u)) = true → some_operation u ∈ handed u.
Proof. unfold some_operation. destruct (handed u) as [|x xs]; [done|]. intros _. left. Defined.

Example pbft_agreement_witness :
  some_operation "a" ∈ handed "a" ∧ some_operation "b" ∈ handed "b" ∧
  pbft_operation.request_hash (pbft_operation.request (some_operation "a")) =
    pbft_operation.request_hash (pbft_operation.request (some_operation "b")).
Proof.
  assert (some_operation "a" ∈ handed "a") as Ha by (apply some_operation_handed; vm_compute; reflexivity).
  assert (some_operation "b" ∈ handed "b") as Hb by (apply some_operation_handed; vm_compute; reflexivity).
  split; [exact Ha|]. split; [exact Hb|].
  refine (pbft_agreement others broken hashes in_order 1 "a" "b" (some_operation "a") (some_operation "b")
    in_order_reachable _ _ _ _ _ Ha Hb _).
  1-3: vm_compute; first [reflexivity|discriminate].
  1-2: apply members_correct; vm_compute; reflexivity.
  vm_compute. reflexivity.
Defined.

Example pbft_checkpoints_agree_witness :
  pbft.stable_checkpoint (network.node_of checkpointed "a") = (100%N, "100"%string) ∧
  ∃ Q : gset uuid_t, (1 + 1 ≤ N.of_nat (size Q))%N ∧ ∀ u, u ∈ Q → pbft_swarm.correct others broken u.
Proof.
  assert (pbft.stable_checkpoint (network.node_of checkpointed "a") = (100%N, "100"%string)) as Hs by (vm_compute; reflexivity).
  split; [exact Hs|].
  destruct (proj2 (pbft_checkpoints_agree others broken hashes checkpointed 1 "a" "b" checkpointed_reachable
    ltac:(vm_compute; reflexivity) ltac:(vm_compute; discriminate) (members_correct "a" ltac:(vm_compute; reflexivity))
    (members_correct "b" ltac:(vm_compute; reflexivity)))) as [E|(Q & Hq & Hc)].
  - exfalso. rewrite Hs in E. discriminate E.
  - exists Q. split; [exact Hq|]. intros u Hu. exact (proj1 (Hc u Hu)).
Defined.

Example pbft_databases_agree_witness :
  database_pbft_service.executed (database_of (λ _, true) in_order "a").2 = [(request, 1%N)] ∧
  database_pbft_service.executed (database_of (λ _, true) in_order "c").2 = [] ∧
  ∃ rest, database_pbft_service.crud_storage (database_of (λ _, true) in_order "a").1 =
    foldl (λ c (r : pbft_request * N), crud.apply_request (req_operation r.1) c)
      (database_pbft_service.crud_storage (database_of (λ _, true) in_order "c").1) rest.
Proof.
  assert (database_pbft_service.executed (database_of (λ _, true) in_order "a").2 = [(request, 1%N)]) as Ha
    by (vm_compute; reflexivity).
  assert (database_pbft_service.executed (database_of (λ _, true) in_order "c").2 = []) as Hc by (vm_compute; reflexivity).
  split; [exact Ha|]. split; [exact Hc|].
  destruct (pbft_databases_agree others broken hashes (λ _ _, true) in_order 1 "a" "c" in_order_reachable)
    as [(rest & E & _)|(rest & _ & E)].
  1-3: vm_compute; first [reflexivity|discriminate].
  1-2: apply members_correct; vm_compute; reflexivity.
  1-2: apply all_storable; vm_compute; reflexivity.
  - exfalso. rewrite Ha, Hc in E. discriminate E.
  - exists rest. exact E.
Defined.

(** ** Signatures *)

Section Unsigned.
Context {PB : Protobuf} {JS : Jsoncpp} {HS : StdHash} {BO : Boost} {SSL : OpenSSL} {H : Type}.
Context {MP : Message pbft_msg} {ME : Message bzn_envelope} {MA : Message audit_message}
  {MM : Message pbft_membership_msg} {MB : Message bzn_msg}.
Context {JL : JsoncppLaws} {MEL : MessageLaws bzn_envelope}.
Context (service_state_hash : N → hash_t).
Import pbft pbft_props.

(** A finding.  The PBFT messages are sent as strings, past the code that signs
    envelopes, but they name their sender; so a node that checks signatures drops
    every message that a PBFT node sends, and cannot take part (no empty string is
    a signature). *)
Theorem checking_node_drops_votes (ps : list peer_address_t) (u : uuid_t) (s0 : pbft) (evs : list event)
    (ep : endpoint) (text : string) (e : bzn_envelope) (sid : session_id) (b : node.node (H := H)) :
  pbft.new ps u = Ok s0 → Forall event_ok evs → u ≠ ""%string →
  SendMessageStr ep text ∈ (run service_state_hash evs s0).2 → pbft_swarm.delivers text e →
  node.crypto_enabled_incoming b = true → (∀ pk p, digest_verify pk p "" = false) →
  node.priv_protobuf_handler e sid b = (Ok tt, b, []).
Proof using JL MEL.
  intros Hnew Hok Hu Hin Hd Hb Hempty.
  destruct (run_guarantee service_state_hash evs s0 (node_new_inv _ _ _ Hnew) Hok) as [_ Hs].
  destruct (step_sent _ _ _ _ Hs ep text Hin) as [[a ->]|(m & -> & _)]; [by apply pbft_swarm.audit_not_delivered in Hd|].
  apply pbft_swarm.delivers_envelope in Hd as ->.
  rewrite (step_uuid _ _ _ _ Hs), (pbft_swarm.new_uuid _ _ _ Hnew).
  unfold node.priv_protobuf_handler. rewrite run_gets, Hb, bool_decide_false by done. cbn [andb negb].
  unfold crypto.verify. cbn [sender signature]. rewrite bool_decide_false by done.
  destruct (read_public_key _) as [pk|]; cbn; [|done]. by rewrite Hempty.
Qed.
End Unsigned.

(** Signatures that start with the letter s. *)
Module sealed_keys.
#[export] Instance sealed : OpenSSL := {
  public_key := string;
  private_key := string;
  read_public_key s := Some s;
  read_private_key s := Some s;
  digest_verify pk p sig := bool_decide (sig = String "s" (pk ++ p));
  digest_sign sk p := Some (String "s" (sk ++ p));
  sha512 s := Some s;
  key_pair sk pk := sk = pk
}.
#[export] Instance sealed_laws : OpenSSLLaws.
Proof. split. intros sk pk p sig Hk Hs. simpl in *. injection Hs as <-. subst. by apply bool_decide_true. Qed.

Definition checking : node.node (H := nat) :=
  node.Node ∅ {[ kPbft := 7 ]} true 0 true true (crypto.Crypto (Some "b"%string) "b") sample_keys.no_chaos.
Definition prepare : bzn_envelope :=
  Envelope "a" "" kPbft (SerializeAsString (PbftMsg PBFT_MSG_PREPARE 1 1 (Some request) "")).
End sealed_keys.

Example checking_node_drops_votes_witness :
  node.priv_protobuf_handler (SSL := sealed_keys.sealed) sealed_keys.prepare 3 sealed_keys.checking =
    (Ok tt, sealed_keys.checking, []).
Proof.
  apply (checking_node_drops_votes (SSL := sealed_keys.sealed) (λ _, ""%string) others "a" (network.node_of at_start "a")
    [vote PBFT_MSG_PREPREPARE "b"] (Endpoint 1 1) (SerializeAsString sealed_keys.prepare)).
  - reflexivity.
  - repeat constructor.
  - discriminate.
  - apply (list_elem_of_lookup_2 _ 1). reflexivity.
  - apply pbft_swarm.delivers_spec. split; vm_compute; reflexivity.
  - reflexivity.
  - intros pk p. reflexivity.
Defined.
