(* ===== verification/PbftLiveness.v ===== *)
(** * A swarm of PBFT nodes makes progress

    A request of a client at a correct primary is executed by every correct node,
    when the votes for it have arrived.  The swarm is the one of [PbftSwarm], what
    a node does with its votes is in [PbftProgress]. *)

From S2P Require Import Prelude Messages Storage Json Crud PbftOperation PbftConfig PbftService Pbft PbftProps PbftVotes PbftProgress Network PbftSwarm.

Module pbft_liveness.
Import pbft_operation pbft_configuration pbft_config_store pbft pbft_votes network pbft_swarm pbft_progress.

(** ** Runs of the swarm *)
Section Live.
Context {PB : Protobuf} {JS : Jsoncpp} {HS : StdHash} {BO : Boost}.
Context {MP : Message pbft_msg} {ME : Message bzn_envelope} {MA : Message audit_message}
  {MM : Message pbft_membership_msg} {MB : Message bzn_msg}.
Context (bootstrap : list peer_address_t) (faulty : gset uuid_t) (state_hash : uuid_t → N → hash_t).

Abbreviation swarm := (world pbft effect).
Abbreviation may := (pbft_swarm.may bootstrap faulty).
Abbreviation correct := (pbft_swarm.correct bootstrap faulty).
Abbreviation reachable := (pbft_swarm.reachable bootstrap faulty state_hash).
Abbreviation play := (network.play (pbft_swarm.run_event state_hash)).
Abbreviation scheduled := (network.scheduled (pbft_swarm.run_event state_hash) may).
Abbreviation peers := (first_peers bootstrap).

(** The run of one node in a schedule. *)
Lemma play_run sched w u :
  let x := pbft_props.run (state_hash u) (own u sched) (node_of w u) in
  node_of (play sched w) u = x.1 ∧ calls_of (play sched w) u = calls_of w u ++ x.2.
Proof using.
  revert w. induction sched as [|[x ev] sched IH]; intros w; [simpl; by rewrite app_nil_r|].
  change (play ((x, ev) :: sched) w) with (play sched (network.handle (pbft_swarm.run_event state_hash) x ev w)).
  destruct (IH (network.handle (pbft_swarm.run_event state_hash) x ev w)) as [-> ->].
  rewrite own_cons. destruct (decide (x = u)) as [->|Hne]; cbn [pbft_props.run].
  - rewrite network.node_of_handle, network.calls_of_handle. unfold pbft_swarm.run_event.
    destruct (pbft_props.run (state_hash u) _ _). simpl. by rewrite app_assoc.
  - by rewrite network.node_of_handle_ne, network.calls_of_handle_ne.
Qed.

Lemma may_stays w u ev : may w u ev → stays ev.
Proof using. intros [_ H]. by destruct ev. Qed.

Lemma own_stays sched w u : scheduled sched w → Forall stays (own u sched).
Proof using. apply (network.scheduled_own _ _ (λ _, stays)). intros w' x ev. apply may_stays. Qed.

(** All the correct nodes. *)
Definition honest : gset uuid_t := pbft_swarm.members bootstrap ∖ faulty.

Lemma honest_correct u : u ∈ honest ↔ correct u.
Proof using. apply elem_of_difference. Qed.

Lemma honest_quorum :
  (N.of_nat (size faulty) ≤ (lengthN peers - 1) / 3)%N → (lengthN peers < 2 ^ 63)%N → peers ≠ [] → quorum peers honest.
Proof using.
  intros Hf Hl Hne. assert (size (pbft_swarm.members bootstrap) = length peers) as Hm.
  { unfold pbft_swarm.members. rewrite size_list_to_set by apply first_peers_uuids. apply length_fmap. }
  pose proof (size_without (pbft_swarm.members bootstrap) faulty) as Hw. fold honest in Hw.
  assert (1 ≤ lengthN peers)%N by (destruct peers; [done|unfold lengthN; simpl; lia]).
  pose proof (N.Div0.mul_div_le (lengthN peers - 1) 3). unfold quorum. rewrite sub64_small by lia.
  unfold lengthN in *. split; lia.
Qed.

(** Every message of this kind that a correct node has sent to a correct node
    arrives in the schedule. *)
Definition exchanged (kind : pbft_msg → Prop) (sched : list (uuid_t * pbft_props.event)) (w : swarm) : Prop :=
  ∀ u x q ep e m, correct u → correct x → q ∈ peers → Messages.uuid q = x → make_endpoint q = Ok ep →
    SendMessageStr ep (SerializeAsString e) ∈ calls_of w u → ParseFromString (payload_of kPbft e) = Some m → kind m →
    (x, pbft_props.Received e) ∈ sched.

(** The check of it, for a given schedule. *)
Definition arrivedb (sched : list (uuid_t * pbft_props.event)) (x : uuid_t) (e : bzn_envelope) : bool :=
  existsb (λ d, match d.2 with pbft_props.Received e' => bool_decide (d.1 = x ∧ e' = e) | _ => false end) sched.

Definition exchangedb (kind : pbft_msg → bool) (sched : list (uuid_t * pbft_props.event)) (w : swarm) : bool :=
  forallb (λ u, forallb (λ c,
    match c with
    | SendMessageStr ep text =>
        match ParseFromString text with
        | Some e =>
            match ParseFromString (payload_of kPbft e) with
            | Some m => negb (kind m) || forallb (λ q,
                match make_endpoint q with
                | Ok ep' => negb (bool_decide (ep' = ep)) || bool_decide (Messages.uuid q ∉ honest) || arrivedb sched (Messages.uuid q) e
                | _ => true
                end) peers
            | None => true
            end
        | None => true
        end
    | _ => true
    end) (calls_of w u)) (base.elements honest).

Lemma exchangedb_sound (kind : pbft_msg → Prop) `{!∀ m, Decision (kind m)} sched w :
  (∀ e : bzn_envelope, ParseFromString (SerializeAsString e) = Some e) →
  exchangedb (λ m, bool_decide (kind m)) sched w = true → exchanged kind sched w.
Proof using.
  intros Hparse Hb u x q ep e m Hu%honest_correct Hx%honest_correct Hq Hqx Hep Hin Hm Hk.
  unfold exchangedb in Hb. rewrite forallb_forall in Hb. specialize (Hb u ltac:(by apply list_elem_of_In, elem_of_elements)).
  rewrite forallb_forall in Hb. specialize (Hb _ ltac:(by apply list_elem_of_In)). simpl in Hb.
  rewrite Hparse, Hm, bool_decide_true in Hb by done. simpl in Hb. rewrite forallb_forall in Hb.
  specialize (Hb q ltac:(by apply list_elem_of_In)). rewrite Hep, bool_decide_true, Hqx in Hb by done. simpl in Hb.
  rewrite (bool_decide_false (x ∉ honest)) in Hb by (intros Hno; exact (Hno Hx)). simpl in Hb. apply existsb_exists in Hb as ([y ev] & Hy & Hb).
  destruct ev; try done. apply bool_decide_eq_true in Hb as [E1 E2]. simpl in *. subst. by apply list_elem_of_In.
Qed.

Section Request.
Context (eps : list endpoint) (n : N) (r : pbft_request).
Hypothesis Heps : Forall2 (λ p ep, make_endpoint p = Ok ep) peers eps.
Hypothesis Hr : req_type r ≠ PBFT_REQ_NEW_CONFIG.
Hypothesis Hwf : well_formed r = true.
Context {Htext : Inj (=) (=) ShortDebugString}.

Abbreviation home u := (home peers u 1 (state_hash u)).
Abbreviation settled u := (settled eps u 1 n r).
Abbreviation filed := (filed 1 n r).
Abbreviation key := (key 1 n r).

(** Every correct node has always taken the steps that its votes allow. *)
Lemma reachable_settled w u :
  reachable w → correct u → home u (node_of w u) ∧ filed (settled u (calls_of w u)) (node_of w u).
Proof using Heps Hr Htext.
  intros Hw. revert u. pattern w. revert w Hw. apply network.reachable_invariant.
  - intros w Hw u Hu. destruct (Hw u Hu) as [Hn _]. split.
    + split; [by eapply pbft_props.node_new_inv|by eapply votes_heard_new|..];
        (unfold pbft.new in Hn; destruct (decide (bootstrap = [])); [done|]; by injection Hn as <-).
    + intros o Ho. unfold pbft.new in Hn. destruct (decide (bootstrap = [])); [done|]. injection Hn as Hn. by rewrite <-Hn in Ho.
  - intros w x ev Hm Hi u Hu. destruct (Hi u Hu) as [Hh Hf]. destruct (decide (x = u)) as [->|Hne].
    + rewrite network.node_of_handle, network.calls_of_handle. pose proof (may_stays _ _ _ Hm) as Hs. split.
      * by apply home_event.
      * by apply (event_settled peers eps u 1 n r Heps Hr (state_hash u)).
    + by rewrite network.node_of_handle_ne, network.calls_of_handle_ne.
Qed.
Lemma member_peer x : x ∈ pbft_swarm.members bootstrap → ∃ q ep, q ∈ peers ∧ Messages.uuid q = x ∧ make_endpoint q = Ok ep ∧ ep ∈ eps.
Proof using Heps.
  unfold pbft_swarm.members. rewrite elem_of_list_to_set. intros (q & -> & Hq)%list_elem_of_fmap.
  apply list_elem_of_lookup in Hq as [i Hi]. destruct (Forall2_lookup_l _ _ _ _ _ Heps Hi) as (ep & Hep & He).
  exists q, ep. split_and!; [by eapply list_elem_of_lookup_2|done|done|by eapply list_elem_of_lookup_2].
Qed.

Section End_of_run.
Context {MPL : MessageLaws pbft_msg}.
Context (w : swarm) (sched : list (uuid_t * pbft_props.event)).
Let w' := play sched w.

Hypothesis Hreach : reachable w.
Hypothesis Hsched : scheduled sched w.
Hypothesis Hn : (n + HIGH_WATER_INTERVAL < 2 ^ 64)%N.
Hypothesis Hwindow : ∀ u, correct u → (n ≤ (stable_checkpoint (node_of w u)).1 + HIGH_WATER_INTERVAL)%N.
Hypothesis Hopen : ∀ u, correct u → open 1 n r (node_of w' u).
Hypothesis Hexchanged : exchanged (about 1 n r) sched w'.

(** What is true of a correct node at the end. *)
Lemma end_settled u :
  correct u → home u (node_of w' u) ∧ filed (settled u (calls_of w' u)) (node_of w' u) ∧
    recorded 1 n r (own u sched) (node_of w' u).
Proof using Heps Hr Htext Hreach Hsched Hn Hwindow Hopen.
  intros Hu. destruct (reachable_settled w u Hreach Hu) as [Hh Hf]. destruct (play_run sched w u) as [E1 E2].
  pose proof (own_stays sched w u Hsched) as Hst. unfold w'. rewrite E2. pose proof (Hopen u Hu) as Ho. unfold w' in Ho. rewrite E1 in *.
  destruct (run_settled peers eps u 1 n r Heps Hr (state_hash u) _ _ _ Hst Hh Hf) as [Hh' Hf']. split_and!; [done|done|].
  apply (run_records peers eps u 1 n r Heps Hr (state_hash u) (own u sched) (node_of w u) (calls_of w u) []); auto.
  by intros ev e m ?%elem_of_nil.
Qed.

(** A vote that a correct node has sent counts at every correct node. *)
Lemma vote_counts u x t :
  correct u → correct x → votes t = true → sends eps (ballot u 1 n r t) ⊆ calls_of w' u →
  ∃ o, operations (node_of w' x) !! key = Some o ∧ counted t u o.
Proof using Heps Hr Hwf Htext Hreach Hsched Hn Hwindow Hopen Hexchanged MPL.
  intros Hu Hx Ht Hs. destruct (member_peer x (proj1 Hx)) as (q & ep & Hq & Hqx & Hep & Hin).
  set (m := PbftMsg t 1 n (Some r) ""). assert (about 1 n r m) as Ha by by split.
  assert (ParseFromString (payload_of kPbft (ballot_envelope u 1 n r t)) = Some m) as Hm.
  { apply parse_serialize. unfold well_formed, wf_pbft_msg. cbn [pm_view pm_sequence pm_request pm_state_hash m].
    rewrite Hwf. unfold fits_uint64. rewrite (proj2 (N.ltb_lt n _)) by (unfold HIGH_WATER_INTERVAL in Hn; lia). done. }
  assert (pbft_props.Received (ballot_envelope u 1 n r t) ∈ own x sched) as Hown.
  { apply network.own_elem. apply (Hexchanged u x q ep _ m); try done. apply Hs.
    unfold sends. apply list_elem_of_fmap. by exists ep. }
  destruct (end_settled x Hx) as (_ & _ & Hrec). apply (Hrec _ (ballot_envelope u 1 n r t) m Hown); [|done].
  simpl. by rewrite Hm.
Qed.

Lemma all_execute p x :
  quorum peers honest → correct p → sends eps (ballot p 1 n r PBFT_MSG_PREPREPARE) ⊆ calls_of w' p → correct x →
  ∃ op, PostApplyOperation op ∈ calls_of w' x ∧ sequence op = n ∧ request op = r.
Proof using Heps Hr Hwf Htext Hreach Hsched Hn Hwindow Hopen Hexchanged MPL.
  intros Hq Hp Hsent Hx.
  assert (∀ t, votes t = true → (∀ u, correct u → sends eps (ballot u 1 n r t) ⊆ calls_of w' u) →
    ∀ u, correct u → ∃ o, operations (node_of w' u) !! key = Some o ∧ ∀ y, y ∈ honest → counted t y o) as Hround.
  { intros t Ht Hall u Hu. destruct (vote_counts p u t Hp Hu Ht (Hall p Hp)) as (o & Ho & _). exists o. split; [done|].
    intros y Hy%honest_correct. destruct (vote_counts y u t Hy Hu Ht (Hall y Hy)) as (o' & Ho' & Hc). congruence. }
  assert (∀ u o, correct u → operations (node_of w' u) !! key = Some o →
    settled u (calls_of w' u) o ∧ pbft_operation.peers o = peers ∧ preprepare_seen o = true) as Hnode.
  { intros u o Hu Ho. destruct (end_settled u Hu) as ([_ Hv _ _] & Hf & _).
    split_and!; [by apply Hf|by apply (heard_operation _ _ _ _ Hv) in Ho as []|].
    destruct (vote_counts p u PBFT_MSG_PREPREPARE Hp Hu eq_refl Hsent) as (o' & Ho' & Hc). congruence. }
  assert (∀ u, correct u → sends eps (ballot u 1 n r PBFT_MSG_PREPARE) ⊆ calls_of w' u) as Hprepare.
  { intros u Hu. destruct (vote_counts p u PBFT_MSG_PREPREPARE Hp Hu eq_refl Hsent) as (o & Ho & Hc).
    destruct (Hnode u o Hu Ho) as ([Hs _ _ _ _] & _ & _). by apply Hs. }
  assert (∀ u o, correct u → operations (node_of w' u) !! key = Some o → is_prepared o = true) as Hprepared.
  { intros u o Hu Ho. destruct (Hnode u o Hu Ho) as (_ & Hps & Hseen). apply (quorum_prepares peers o honest); try done.
    intros y Hy. destruct (Hround PBFT_MSG_PREPARE eq_refl Hprepare u Hu) as (o' & Ho' & Hall).
    replace o with o' by congruence. by apply Hall. }
  assert (∀ u, correct u → sends eps (ballot u 1 n r PBFT_MSG_COMMIT) ⊆ calls_of w' u) as Hcommit.
  { intros u Hu. destruct (vote_counts p u PBFT_MSG_PREPREPARE Hp Hu eq_refl Hsent) as (o & Ho & _).
    destruct (Hnode u o Hu Ho) as ([_ Hs1 Hs2 _ _] & _ & _). eapply Hs2, Hs1, Hprepared; done. }
  destruct (Hround PBFT_MSG_COMMIT eq_refl Hcommit x Hx) as (o & Ho & Hall).
  destruct (Hnode x o Hx Ho) as ([_ _ _ Hs1 Hs2] & Hps & _).
  destruct (Hs2 (Hs1 (quorum_commits peers o honest Hq Hps (Hprepared x o Hx Ho) Hall))) as (op & Hin & Hk).
  exists op. split; [done|]. by destruct (key_mine 1 n r op Hk) as (_ & ? & ?).
Qed.
End End_of_run.
End Request.
End Live.

End pbft_liveness.

(** ** Claims *)

Section Claims.
Context {PB : Protobuf} {JS : Jsoncpp} {HS : StdHash} {BO : Boost}.
Context {MP : Message pbft_msg} {ME : Message bzn_envelope} {MA : Message audit_message}
  {MM : Message pbft_membership_msg} {MB : Message bzn_msg}.
Context {MPL : MessageLaws pbft_msg} {Htext : Inj (=) (=) ShortDebugString}.
Context (bootstrap : list peer_address_t) (faulty : gset uuid_t) (state_hash : uuid_t → N → hash_t).
Import pbft_operation pbft pbft_progress network pbft_liveness.

Abbreviation peers := (pbft_votes.first_peers bootstrap).
Abbreviation correct := (pbft_swarm.correct bootstrap faulty).

(** The request that a database message of a client is turned into. *)
Definition client_request (db : database_msg) : pbft_request :=
  PbftRequest PBFT_REQ_UNDEFINED (ReqOperation db) 0 "".

(** C2: the swarm makes progress.  Less than a third of the peers misbehave, and
    a client sends a request, whose texts are UTF-8, to the primary of the first
    view, which is correct.
    When every preprepare, prepare and commit for the request that a correct node
    has sent to a correct node has arrived, in whatever order and among whatever
    else, every correct node has handed the request to its database service, under
    the number that the primary gave to it; provided that number was in the window
    of every correct node and is after its stable checkpoint, and that no correct
    node has accepted another request under it.  The database of a correct node has
    then executed it, as the request of that number, if the node has handed over the
    requests with smaller numbers too. *)
Theorem pbft_orders_requests `{PM : Message pbft_request, HPM : !MessageLaws pbft_request}
    (w : world pbft effect) (rest : list (uuid_t * pbft_props.event))
    (p x : uuid_t) (q : peer_address_t) (json : Value) (session : session_id) (db : database_msg) (alive : session_id → bool) :
  let sched := (p, pbft_props.Database json session) :: rest in
  let w' := play (pbft_swarm.run_event state_hash) sched w in
  let n := next_issued_sequence_number (node_of w p) in
  let r := client_request db in
  Forall (λ q, ∃ ep, make_endpoint q = Ok ep) peers → (lengthN peers < 2 ^ 63)%N →
  (N.of_nat (size faulty) ≤ (lengthN peers - 1) / 3)%N →
  pbft_swarm.reachable bootstrap faulty state_hash w →
  scheduled (pbft_swarm.run_event state_hash) (pbft_swarm.may bootstrap faulty) sched w →
  correct p → peers !! N.to_nat (1 mod lengthN peers) = Some q → Messages.uuid q = p → asks json db → well_formed db = true →
  (n + HIGH_WATER_INTERVAL < 2 ^ 64)%N →
  (∀ u, correct u → (n ≤ (stable_checkpoint (node_of w u)).1 + HIGH_WATER_INTERVAL)%N ∧ open 1 n r (node_of w' u)) →
  exchanged bootstrap faulty (about 1 n r) sched w' →
  correct x →
  let ops := applied_operations (calls_of w' x) in
  (∃ op, op ∈ ops ∧ sequence op = n ∧ request op = r) ∧
  (Forall database_pbft_service.storable ops → (∀ i, (1 ≤ i < n)%N → i ∈ sequence <$> ops) →
   database_pbft_service.executed (database_of alive w' x).2 !! N.to_nat (n - 1) = Some (r, n)).
Proof using MPL Htext.
  intros sched w' n r Hends Hl Hf Hw Hsched Hp Hq Hqp Hasks Hwf Hn Hwin Hex Hx ops.
  assert (∃ op, op ∈ ops ∧ sequence op = n ∧ request op = r) as (op & Hop & Hseq & Hreq).
  { apply Forall_exists_Forall2_l in Hends as [eps Heps]. assert (req_type r ≠ PBFT_REQ_NEW_CONFIG) as Hr by done.
    assert (well_formed r = true) as Hwr by (unfold r, client_request, well_formed, wf_pbft_request; simpl; by rewrite Hwf).
    destruct (reachable_settled bootstrap faulty state_hash eps n r Heps Hr w p Hw Hp) as [Hh _].
    destruct (all_execute bootstrap faulty state_hash eps n r Heps Hr Hwr w sched Hw Hsched Hn) with (p := p) (x := x)
      as (op & Hop%elem_applied & ?); try done; [intros u Hu; by apply Hwin..| | |by exists op].
    - apply honest_quorum; [done..|]. intros E. by rewrite E in Hq.
    - rewrite (proj2 (play_run state_hash sched w p)). unfold sched at 1. rewrite own_cons, decide_True by done.
      pose proof (database_proposes peers eps p 1 n r Heps Hr (state_hash p) q json session db (node_of w p) Hasks eq_refl Hh eq_refl Hq Hqp) as Hs.
      simpl. destruct (pbft_props.run _ _ _) as [s es]. simpl in *. etrans; [exact Hs|]. set_solver. }
  split; [by exists op|]. intros Hst Hall.
  assert (pbft_swarm.reachable bootstrap faulty state_hash w') as Hw' by (by eapply play_reachable_scheduled).
  destruct (database_of_run bootstrap faulty state_hash alive w' x Hw' Hx Hst) as (e & Hrun & _). fold ops in Hrun.
  assert (NoDup ((sequence ∘ snd) <$> ((λ op, (alive, op)) <$> ops))) as Hnd.
  { rewrite <-list_fmap_compose. destruct (pbft_swarm.reachable_nodes_inv _ _ _ _ Hw' x Hx) as [(s0 & evs & Hnew & Hok & Er) _ _].
    destruct (run_applied (state_hash x) bootstrap x s0 evs Hnew Hok) as [Hnd _]. by rewrite Er in Hnd. }
  assert (∀ o, o ∈ ops → database_pbft_service.applied ∅ ((λ op, (alive, op)) <$> ops) !! sequence o = Some (request o)) as Happ.
  { intros o Ho. apply (database_pbft_service.applied_elem _ ∅ (alive, o)); [|done]. apply list_elem_of_fmap. by exists o. }
  eapply in_order_executor.run_inv_reaches; [done| | |].
  - destruct (Hwin x Hx) as [_ [Hopen _]]. unfold n, r in *. lia.
  - intros i (o & -> & Ho)%Hall%list_elem_of_fmap. rewrite (Happ o Ho). done.
  - rewrite <-Hseq, <-Hreq. by apply Happ.
Qed.
End Claims.

(** *** Example: four peers, one of them silent

    A client asks node b, and everything that is sent about the request arrives. *)

Module sample_exchange.
Import pbft_operation pbft pbft_progress network pbft_liveness sample_swarm.

Definition asked : Value := obj [("msg", str (SerializeAsString (BznDb order)))].
Definition rest : list (uuid_t * pbft_props.event) :=
  to_all PBFT_MSG_PREPREPARE "b" ++ (["a"; "b"; "c"] ≫= to_all PBFT_MSG_PREPARE) ++ (["c"; "b"; "a"] ≫= to_all PBFT_MSG_COMMIT).
Definition whole : list (uuid_t * pbft_props.event) := ("b", pbft_props.Database asked 1%N) :: rest.
Definition at_end : world pbft effect := play (pbft_swarm.run_event hashes) whole at_start.

Lemma whole_scheduled : scheduled (pbft_swarm.run_event hashes) (pbft_swarm.may others broken) whole at_start.
Proof.
  apply (playable_scheduled _ _ (pbft_swarm.mayb others broken)); [apply pbft_swarm.mayb_sound|vm_compute; reflexivity].
Defined.

Lemma whole_exchanged : exchanged others broken (about 1 1 request) whole at_end.
Proof. apply (exchangedb_sound others broken (about 1 1 request) whole at_end envelopes_round_trip). vm_compute. reflexivity. Defined.

(** The correct nodes are a, b and c. *)
Lemma correct_cases u : pbft_swarm.correct others broken u → u ∈ ["a"; "b"; "c"].
Proof.
  intros [Hm Hf]. change (u ∈ (list_to_set ["a"; "b"; "c"; "d"] : gset uuid_t)) in Hm. unfold broken in Hf. set_solver.
Qed.

Definition openb (s : pbft) : bool :=
  ((stable_checkpoint s).1 <? 1)%N && match accepted_preprepares s !! (1%N, 1%N) with
                                     | Some k => bool_decide (k = key 1 1 request) | None => true end.
Lemma openb_sound s : openb s = true → open 1 1 request s.
Proof.
  intros [Hs%N.ltb_lt Ha]%andb_prop. split; [done|]. intros k Hk. rewrite Hk in Ha. by apply bool_decide_eq_true in Ha.
Qed.

Lemma first_number : next_issued_sequence_number (node_of at_start "b") = 1%N.
Proof. vm_compute. reflexivity. Defined.

Lemma asked_order : asks asked order.
Proof.
  exists (str (SerializeAsString (BznDb order))), (SerializeAsString (BznDb order)), (BznDb order).
  split; [vm_compute; reflexivity|]. split; [vm_compute; reflexivity|]. split; [vm_compute; reflexivity|].
  split; [|reflexivity]. vm_compute. reflexivity.
Defined.

Lemma endpoints_ok (l : list peer_address_t) :
  forallb (λ q, match make_endpoint q with Ok _ => true | _ => false end) l = true → Forall (λ q, ∃ ep, make_endpoint q = Ok ep) l.
Proof.
  intros H. apply Forall_forall. intros q Hq%list_elem_of_In. rewrite forallb_forall in H. specialize (H q Hq).
  destruct (make_endpoint q) as [ep| |]; [by exists ep|done..].
Qed.

Lemma still_open u :
  pbft_swarm.correct others broken u →
  (1 ≤ (stable_checkpoint (node_of at_start u)).1 + HIGH_WATER_INTERVAL)%N ∧ open 1 1 request (node_of at_end u).
Proof.
  intros Hu%correct_cases. split.
  - assert (forallb (λ u, (1 <=? (stable_checkpoint (node_of at_start u)).1 + HIGH_WATER_INTERVAL)%N) ["a"; "b"; "c"] = true) as H
      by (vm_compute; reflexivity).
    rewrite forallb_forall in H. apply N.leb_le, H, list_elem_of_In, Hu.
  - apply openb_sound. assert (forallb (λ u, openb (node_of at_end u)) ["a"; "b"; "c"] = true) as H by (vm_compute; reflexivity).
    rewrite forallb_forall in H. apply H, list_elem_of_In, Hu.
Defined.
End sample_exchange.

Import sample_swarm sample_exchange.

Example pbft_orders_requests_witness :
  (∃ op, op ∈ applied_operations (network.calls_of at_end "c") ∧ pbft_operation.sequence op = 1%N ∧
     pbft_operation.request op = request) ∧
  database_pbft_service.executed (database_of (λ _, true) at_end "c").2 !! 0 = Some (request, 1%N).
Proof.
  pose proof (pbft_orders_requests others broken hashes at_start rest "b" "c" (Peer "127.0.0.1" 2 12 "b" "b") asked 1%N order (λ _, true)) as H.
  cbv zeta in H. rewrite first_number in H. change (client_request order) with request in H.
  change (network.play (pbft_swarm.run_event hashes) (("b", pbft_props.Database asked 1%N) :: rest) at_start) with at_end in H.
  change (("b", pbft_props.Database asked 1%N) :: rest) with whole in H.
  destruct H as [Hin Hdb]; [..|split; [exact Hin|]].
  - apply endpoints_ok. vm_compute. reflexivity.
  - vm_compute. reflexivity.
  - vm_compute. discriminate.
  - apply at_start_reachable.
  - apply whole_scheduled.
  - apply members_correct. vm_compute. reflexivity.
  - vm_compute. reflexivity.
  - reflexivity.
  - apply asked_order.
  - vm_compute. reflexivity.
  - vm_compute. reflexivity.
  - apply still_open.
  - apply whole_exchanged.
  - apply members_correct. vm_compute. reflexivity.
  - apply Hdb; [apply all_storable; vm_compute; reflexivity|]. intros i Hi. exfalso. clear Hin Hdb. lia.
Defined.
