(* ===== verification/RaftSwarm.v ===== *)
(** * A swarm of Raft nodes

    Nodes of [Raft] over a network that loses, repeats, delays and reorders
    messages: the logs match, and what the nodes commit agrees. *)

From S2P Require Import Prelude Messages Json Storage RaftLog Raft RaftProps Replication RaftCrud RaftEvents Network.
Import raft_log raft_state raft_base raft raft_props raft_events raft_table raft_sent network.

(** ** Logs that agree *)
Module log_matching.
Section Logs.
Context {JS : Jsoncpp} {JL : JsoncppLaws}.

(** The same term and a message that reads the same. *)
Definition same_text : relation log_entry := λ e e', term e = term e' ∧ reads_as (entry_msg e) (entry_msg e').

#[export] Instance same_text_equivalence : Equivalence same_text.
Proof.
  split.
  - intros e. by split.
  - intros e e' [? ?]. by split.
  - intros e1 e2 e3 [? ?] [? ?]. split; etrans; done.
Qed.

(** Both logs reach index [i] and are the same up to it. *)
Definition agree (i : nat) : relation (list log_entry) := λ l l',
  ∀ j, j ≤ i → ∃ e e', l !! j = Some e ∧ l' !! j = Some e' ∧ same_text e e'.

#[export] Instance agree_symmetric i : Symmetric (agree i).
Proof. intros l l' H j Hj. destruct (H j Hj) as (e & e' & ? & ? & ?). by exists e', e. Qed.
#[export] Instance agree_transitive i : Transitive (agree i).
Proof.
  intros l1 l2 l3 H12 H23 j Hj. destruct (H12 j Hj) as (e1 & e2 & ? & ? & ?). destruct (H23 j Hj) as (e2' & e3 & ? & ? & ?).
  exists e1, e3. split_and!; [done..|]. simplify_eq. by etrans.
Qed.

Lemma agree_refl i l : i < length l → agree i l l.
Proof using JL. intros Hi j Hj. destruct (lookup_lt_is_Some_2 l j) as [e He]; [lia|]. by exists e, e. Qed.

Lemma agree_prefix i l1 l2 l1' l2' : l1 `prefix_of` l1' → l2 `prefix_of` l2' → agree i l1 l2 → agree i l1' l2'.
Proof using.
  intros H1 H2 H j Hj. destruct (H j Hj) as (e & e' & He & He' & ?). exists e, e'.
  split_and!; [by eapply prefix_lookup_Some..|done].
Qed.

(** Logs that agree up to [i] and have the same entry behind it. *)
Lemma agree_next i l l' e e' :
  (∀ j, i = S j → agree j l l') → l !! i = Some e → l' !! i = Some e' → same_text e e' → agree i l l'.
Proof using.
  intros H He He' Hs j Hj. destruct (decide (j = i)) as [->|]; [by exists e, e'|].
  destruct i as [|i]; [lia|]. apply (H i); [done|lia].
Qed.

(** Entries of one index and term are the same, and so is what is before them. *)
Definition matching (l l' : list log_entry) : Prop :=
  ∀ i e e', l !! i = Some e → l' !! i = Some e' → term e = term e' → agree i l l'.

Lemma matching_refl l : matching l l.
Proof using JL. intros i e e' He _ _. apply agree_refl. by eapply lookup_lt_Some. Qed.

#[export] Instance matching_symmetric : Symmetric matching.
Proof. intros l l' H i e e' He He' Ht. symmetry. by eapply H. Qed.

(** A log that grows goes on matching when its new entries do. *)
Lemma matching_grow l1 l1' l2 :
  l1 `prefix_of` l1' → matching l1 l2 →
  (∀ i e e', length l1 ≤ i → l1' !! i = Some e → l2 !! i = Some e' → term e = term e' → agree i l1' l2) →
  matching l1' l2.
Proof using.
  intros Hp Hm Hn i e e' He He' Ht. destruct (decide (length l1 ≤ i)) as [Hi|Hi]; [by eapply Hn|].
  apply (agree_prefix i l1 l2); [done|done|]. eapply Hm; [|exact He'|exact Ht].
  destruct Hp as [k ->]. rewrite lookup_app_l in He; [done|lia].
Qed.
End Logs.
End log_matching.

(** ** The swarm *)
Module raft_swarm.
Import log_matching.
Section Swarm.
Context {JS : Jsoncpp} {JL : JsoncppLaws} {BO : Boost} {BL : Base64Laws}.
Context {SE : Security} {MA : Message audit_message} {MB : Message bzn_msg}.
Abbreviation entries s := (log_entries (log s)).
Abbreviation swarm := (world raft effect).

(** The nodes and the peers they are started with, and how each enumerates a set
    of peers; [lead t] is the node that may lead in term [t]. *)
Context (members : gset uuid_t) (peers : list peer_address_t).
Context (iteration : uuid_t → list peer_address_t → list peer_address_t) (lead : N → uuid_t).

Definition run_event (u : uuid_t) (ev : event) : M raft effect unit := handle_event (iteration u) ev.

(** A message that reads as one that a node sent. *)
Definition sent (w : swarm) (msg : Value) : Prop :=
  ∃ u e r, u ∈ members ∧ e ∈ calls_of w u ∧ reads_as r msg ∧
    match e with SendMessage _ x | SessionSend _ x _ => x = r | _ => False end.

(** The network delivers to Raft what is addressed to it, and [AppendEntries]
    requests only when a node has sent them; other messages can be anything. *)
Definition admissible (w : swarm) (ev : event) : Prop :=
  match ev with
  | Receive _ msg _ => raft_api msg ∧ (commands msg "AppendEntries" → sent w msg)
  | _ => True
  end.

(** The numbers of a node fit in its variables. *)
Definition fits (s : raft) : Prop :=
  (size (log s) + 1 < 2 ^ 32)%N ∧ Forall (λ e, (term e < 2 ^ 32)%N) (entries s).

(** Elections are safe: a node that leads in a term is the one that may. *)
Definition orderly (u : uuid_t) (s : raft) : Prop :=
  current_state s = raft_state.leader → lead (current_term s) = u.

Definition may (w : swarm) (u : uuid_t) (ev : event) : Prop :=
  let s' := post (run_event u ev) (node_of w u) in
  u ∈ members ∧ admissible w ev ∧ fits s' ∧ orderly u s'.

(** Every node starts afresh. *)
Definition initial (w : swarm) : Prop :=
  ∀ u, u ∈ members → calls_of w u = [] ∧
    ∃ mx validation key env d, file d = None ∧ new peers u mx validation key env d = Ok (node_of w u).

Definition reachable : swarm → Prop := network.reachable run_event may initial.
Abbreviation handle := (network.handle run_event).

(** *** The first log *)

Definition first_log : list log_entry :=
  let text := print_entry (first_entry peers) in
  match read_entries (String.length text) text with Ok es => es | _ => [] end.

Lemma first_log_one : ∃ e, first_log = [e] ∧ term e = 0%N.
Proof using JL BL.
  destruct (read_print_entries [first_entry peers] (String.length (print_entry (first_entry peers))))
    as (es & Hes & Hall).
  - by repeat constructor.
  - unfold print_entry. simpl. lia.
  - assert (print_entries [first_entry peers] = print_entry (first_entry peers)) as E by apply string_app_nil_r.
    rewrite E in Hes. unfold first_log. rewrite Hes.
    inversion Hall as [|? e ? es' (_ & _ & Ht & _) Hnil]; subst. inversion Hnil; subst. by exists e.
Qed.

Lemma new_first u mx validation key env d s :
  file d = None → new peers u mx validation key env d = Ok s →
  entries s = first_log ∧ current_state s = follower ∧ commit_index s = 1%N.
Proof using.
  intros Hd Hn. destruct (raft_new_inv _ _ _ _ _ _ _ _ Hn) as [_ Hc]. revert Hn. unfold new, first_log.
  destruct peers as [|p ps]; [done|]. rewrite Hd. unfold create_dat_file.
  destruct (_ || _); [|done]. unfold raft_log.new. cbn [file].
  destruct (read_entries _ _) as [[|e es]| |]; [done| |done..].
  destruct (res _ _); [|done..]. intros [= <-]. done.
Qed.

(** *** The invariant *)

(** The entry at [i] is of the first log, or the leader of its term has one of
    that term there. *)
Definition rooted (w : swarm) (i : nat) (e : log_entry) : Prop :=
  i < length first_log ∨
  (lead (term e) ∈ members ∧ ∃ e', entries (node_of w (lead (term e))) !! i = Some e' ∧ term e' = term e).

Record node_inv (w : swarm) (u : uuid_t) : Prop := {
  node_fits : fits (node_of w u);
  node_orderly : orderly u (node_of w u);
  node_bounds : (1 ≤ commit_index (node_of w u))%N ∧ inv (node_of w u);
  node_commits : commits (calls_of w u) = entry_msg <$> slice 1 (commit_index (node_of w u)) (entries (node_of w u));
  node_first : first_log `prefix_of` entries (node_of w u);
  node_rooted i e : entries (node_of w u) !! i = Some e → rooted w i e;
  node_calls : Forall (sound_call (node_of w u)) (calls_of w u)
}.

Record swarm_inv (w : swarm) : Prop := {
  inv_nodes u : u ∈ members → node_inv w u;
  inv_matching u v : u ∈ members → v ∈ members → matching (entries (node_of w u)) (entries (node_of w v))
}.

Lemma initial_swarm_inv w : initial w → swarm_inv w.
Proof using JL BL.
  intros Hw. assert (∀ u, u ∈ members → entries (node_of w u) = first_log ∧ current_state (node_of w u) = follower ∧
    commit_index (node_of w u) = 1%N ∧ calls_of w u = []) as H.
  { intros u Hu. destruct (Hw u Hu) as (Hc & mx & va & key & env & d & Hd & Hn).
    destruct (new_first _ _ _ _ _ _ _ Hd Hn) as (He & Hs & Hi). done. }
  destruct first_log_one as (e & Hfirst & Ht). split.
  - intros u Hu. destruct (H u Hu) as (He & Hs & Hc & Hcalls).
    assert (size (log (node_of w u)) = 1%N) as Hsz by (unfold size; by rewrite He, Hfirst).
    split.
    + split; [rewrite Hsz; lia|]. rewrite He, Hfirst. constructor; [lia|constructor].
    + intros Hl. congruence.
    + rewrite Hc. split; [lia|]. unfold inv. by rewrite Hc, Hsz.
    + rewrite Hcalls, Hc. unfold slice. by rewrite Nat.sub_diag.
    + by rewrite He.
    + intros i e' Hi%lookup_lt_Some. left. by rewrite <-He.
    + rewrite Hcalls. constructor.
  - intros u v Hu Hv. rewrite (proj1 (H u Hu)), (proj1 (H v Hv)). apply matching_refl.
Qed.

(** *** The request behind an accepted message *)

Lemma requested w msg s :
  swarm_inv w → raft_api msg → commands msg "AppendEntries" → sent w msg →
  ∃ a pi prev et c m, a ∈ members ∧
    entries (node_of w a) !! N.to_nat pi = Some prev ∧ (c ≤ commit_index (node_of w a))%N ∧
    res (get_uint ["data"; "prevIndex"]%string msg) s = Ok pi ∧
    res (get_uint ["data"; "prevTerm"]%string msg) s = Ok (term prev) ∧
    res (get_uint ["data"; "commitIndex"]%string msg) s = Ok c ∧
    res (path ["data"; "entries"]%string msg) s = Ok m ∧
    (empty m = true ∨ ∃ e, entries (node_of w a) !! N.to_nat (u32 (pi + 1)) = Some e ∧
       res (get_uint ["data"; "entryTerm"]%string msg) s = Ok et ∧ et = term e ∧ reads_as (entry_msg e) m).
Proof using JL.
  intros Hi Hapi Hcmd (a & c & r & Ha & Hin & Hrd & Hr). pose proof (inv_nodes _ Hi a Ha) as Hna.
  pose proof (proj1 (Forall_forall _ _) (node_calls _ _ Hna) c Hin) as Hs.
  assert (request_of (node_of w a) r) as (u & t & ci & pi & et & m & prev & -> & Hpi & Hci & Hprev & Hm).
  { destruct c; simpl in Hs; try done; subst; destruct Hs as [Hs|Hs]; [|done| |].
    1,2: by destruct (Hs msg Hrd) as [[] _]. by destruct (reply_is_no_request _ _ _ Hs Hrd). }
  destruct (node_fits _ _ Hna) as [Hsz Hterms]. rewrite Forall_lookup in Hterms.
  destruct (node_bounds _ _ Hna) as [_ Hb]. unfold inv in Hb.
  unfold create_append_entries_request in Hrd. set (data := [_; _; _; _; _; _; _]) in Hrd.
  assert (NoDup data.*1) as Hnd by (apply (bool_decide_unpack _); by vm_compute).
  destruct (replication.data_member _ data msg "entries" m s Hrd Hnd) as (m' & Hm' & Hrm); [by repeat constructor|].
  exists a, pi, prev, et, ci, m'. split_and!; [done..| | | |done|].
  - eapply replication.data_uint; [done|done|by repeat constructor|done].
  - eapply replication.data_uint; [done|done|by repeat constructor|by eapply Hterms].
  - eapply replication.data_uint; [done|done|by repeat constructor|lia].
  - destruct Hm as [->|(e & He & -> & ->)]; [left; by rewrite (reads_as_empty _ _ Hrm), empty_null|right].
    exists e. split_and!; [done| |done|done].
    eapply replication.data_uint; [done|done|by repeat constructor|by eapply Hterms].
Qed.

(** *** One event *)

Lemma accepted_last pi pt (s : raft) :
  (size (log s) < 2 ^ 32)%N → entry_accepted pi pt (log s) = Ok true →
  ∃ last, entries s !! N.to_nat pi = Some last ∧ term last = pt ∧ length (entries s) = S (N.to_nat pi).
Proof using.
  intros Hlt. unfold entry_accepted. destruct (N.ltb_spec pi (sub64 (lengthN (entries s)) 1)) as [|Hge]; [done|].
  destruct (entries s !! N.to_nat pi) as [last|] eqn:Hl; [|done]. intros [= Ht%N.eqb_eq]. exists last.
  apply lookup_lt_Some in Hl. unfold size, lengthN in *. rewrite sub64_small in Hge by lia. split_and!; [done..|lia].
Qed.

Section Event.
Context (w : swarm) (u : uuid_t) (ev : event).
Hypothesis (Hinv : swarm_inv w) (Hmay : may w u ev).
Let s := node_of w u.
Let s' := post (run_event u ev) s.

Lemma event_node : node_inv w u.
Proof using Hinv Hmay. apply inv_nodes, Hmay. done. Qed.

Lemma event_step : raft_props.step s s' (out (run_event u ev) s) ∧ (size (log s') < 2 ^ 32)%N ∧ (size (log s) + 1 < 2 ^ 32)%N.
Proof using Hinv Hmay.
  destruct Hmay as (_ & _ & [H' _] & _). destruct (node_fits _ _ event_node) as [H _].
  fold s in H. change (post (run_event u ev) (node_of w u)) with s' in H'.
  split; [apply (keeps_handle_event_at (iteration u) ev s); lia|]. split; [lia|done].
Qed.

Lemma event_grows :
  entries s `prefix_of` entries s' ∧ inv s' ∧ (commit_index s ≤ commit_index s')%N ∧
  commits (out (run_event u ev) s) = entry_msg <$> slice (commit_index s) (commit_index s') (entries s').
Proof using Hinv Hmay.
  destruct event_step as (Hs & Hlt & _). destruct (Hs Hlt) as [Hp Hc]. split; [done|].
  apply Hc, (node_bounds _ _ event_node).
Qed.

(** Where a new entry comes from. *)
Lemma new_entry_origin i e :
  length (entries s) ≤ i → entries s' !! i = Some e →
  lead (term e) = u ∨
  ∃ a e0, a ∈ members ∧ entries (node_of w a) !! i = Some e0 ∧ term e0 = term e ∧
    agree i (entries s') (entries (node_of w a)).
Proof using Hinv Hmay JL.
  intros Hi He. destruct event_step as (_ & _ & Hlt).
  assert (entries s' ≠ entries s) as Hnew.
  { intros E. rewrite E in He. apply lookup_lt_Some in He. lia. }
  destruct (event_changes (iteration u) ev s Hlt) as [[E _]|[(_ & _ & (new & E & Hnews) & Hnl) _]|pick msg session Hev Hcmd Hf].
  { destruct Hnew. exact (f_equal log_entries E). }
  { destruct (decide (current_state s = raft_state.leader)) as [Hs|Hs].
    2: { destruct Hnew. exact (f_equal log_entries (Hnl Hs)). }
    left. unfold s', run_event in He. rewrite E, lookup_app_r in He by done.
    rewrite (proj1 (Forall_lookup _ _) Hnews _ _ He). by apply (node_orderly _ _ event_node). }
  destruct (follows_log _ _ _ Hf) as [|(pi & pt & et & m & t & Hpi & Hpt & Het & Hm & Hem & Hacc & Hlog)]; [done|].
  fold (run_event u ev) in Hlog. fold s' in Hlog.
  destruct Hmay as (Hu & Hadm & _). rewrite Hev in Hadm. destruct Hadm as [Hapi Hsent].
  destruct (requested w msg s Hinv Hapi Hcmd (Hsent Hcmd))
    as (a & pi' & prev & et' & c & m' & Ha & Hprev & _ & Hpi' & Hpt' & _ & Hm' & Hentry).
  assert (pi' = pi) as -> by congruence. assert (m' = m) as -> by congruence.
  destruct Hentry as [|(e0 & He0 & Het' & -> & Hrm)]; [congruence|].
  destruct (accepted_last pi pt s) as (last & Hlast & Hlt' & Hlen); [lia|done|].
  replace (N.to_nat (u32 (pi + 1))) with (length (entries s)) in He0.
  2: { rewrite u32_small; unfold size, lengthN in Hlt; lia. }
  assert (i = length (entries s)) as ->.
  { rewrite Hlog, lookup_app_r in He by done. apply list_lookup_singleton_Some in He as [? _]. lia. }
  assert (same_text e e0) as Hsame.
  { rewrite Hlog, list_lookup_middle in He by done. injection He as <-. split; simpl; [congruence|by symmetry]. }
  right. exists a, e0. split_and!; [done..|symmetry; apply Hsame|].
  eapply agree_next; [|done..]. intros j Hj. apply (agree_prefix j (entries s) (entries (node_of w a))); [apply event_grows|done|].
  replace j with (N.to_nat pi) by lia. eapply (inv_matching _ Hinv); [done..|congruence].
Qed.

Lemma event_matching v : v ∈ members → v ≠ u → matching (entries s') (entries (node_of w v)).
Proof using Hinv Hmay JL.
  intros Hv Hne. eapply matching_grow; [apply event_grows|apply (inv_matching _ Hinv); [apply Hmay|done]|].
  intros i e e' Hi He He' Ht. destruct (new_entry_origin i e Hi He) as [Hl|(a & e0 & Ha & He0 & Ht0 & Hag)].
  - exfalso. destruct (node_rooted _ _ (inv_nodes _ Hinv v Hv) i e' He') as [Hf|(_ & x & Hx & _)].
    + pose proof (prefix_length _ _ (node_first _ _ event_node)) as Hlen. fold s in Hlen. lia.
    + rewrite <-Ht, Hl in Hx. apply lookup_lt_Some in Hx. fold s in Hx. lia.
  - etrans; [done|]. eapply (inv_matching _ Hinv); [done..|congruence].
Qed.

Lemma node_log_grows v : entries (node_of w v) `prefix_of` entries (node_of (handle u ev w) v).
Proof using Hinv Hmay.
  destruct (decide (u = v)) as [<-|Hne]; [|by rewrite network.node_of_handle_ne].
  rewrite network.node_of_handle. apply event_grows.
Qed.

Lemma rooted_mono i e : rooted w i e → rooted (handle u ev w) i e.
Proof using Hinv Hmay.
  intros [|(Hl & e' & He' & Ht)]; [by left|right]. split; [done|]. exists e'. split; [|done].
  by eapply prefix_lookup_Some, node_log_grows.
Qed.

Lemma event_rooted i e : entries s' !! i = Some e → rooted (handle u ev w) i e.
Proof using Hinv Hmay JL.
  intros He. destruct (decide (length (entries s) ≤ i)) as [Hi|Hi].
  - destruct (new_entry_origin i e Hi He) as [Hl|(a & e0 & Ha & He0 & Ht0 & _)].
    + right. rewrite Hl. split; [apply Hmay|]. exists e. rewrite network.node_of_handle. done.
    + apply rooted_mono. pose proof (node_rooted _ _ (inv_nodes _ Hinv a Ha) i e0 He0) as Hr.
      unfold rooted in *. by rewrite Ht0 in Hr.
  - apply rooted_mono, (node_rooted _ _ event_node). destruct event_grows as [[k Hk] _].
    rewrite Hk, lookup_app_l in He by lia. done.
Qed.

Lemma event_inv : swarm_inv (handle u ev w).
Proof using Hinv Hmay JL.
  destruct event_grows as (Hp & Hb' & Hle & Hcm). pose proof event_node as Hn.
  destruct (node_bounds _ _ Hn) as [H1 Hb]. fold s in H1, Hb. destruct event_step as (_ & _ & Hlt). split.
  - intros v Hv. destruct (decide (u = v)) as [<-|Hne].
    + split; rewrite ?network.node_of_handle, ?network.calls_of_handle; fold s s'.
      * apply Hmay.
      * apply Hmay.
      * split; [lia|done].
      * rewrite commits_app, Hcm, (node_commits _ _ Hn). fold s.
        by rewrite <-(slice_prefix 1 (commit_index s) (entries s) (entries s')), <-fmap_app, <-slice_app.
      * etrans; [apply (node_first _ _ Hn)|done].
      * apply event_rooted.
      * assert (∀ c, sound_call s c → sound_call s' c) as Hmono.
        { intros c. apply sound_call_mono; [apply (event_counts (iteration u) ev s)|done..]. }
        assert (size (log s) < 2 ^ 32)%N as Hlt2 by lia. apply Forall_app. split.
        -- exact (Forall_impl _ _ _ (node_calls _ _ Hn) Hmono).
        -- exact (event_calls_sound (iteration u) ev s Hlt2).
    + destruct (inv_nodes _ Hinv v Hv) as [? ? ? ? ? Hr ?].
      split; rewrite ?network.node_of_handle_ne, ?network.calls_of_handle_ne by done; try done.
      intros i e He. by apply rooted_mono, Hr.
  - intros v1 v2 Hv1 Hv2. destruct (decide (u = v1)) as [<-|Hne1], (decide (u = v2)) as [<-|Hne2];
      rewrite ?network.node_of_handle, ?network.node_of_handle_ne by done.
    + apply matching_refl.
    + by apply event_matching.
    + symmetry. by apply event_matching.
    + by apply (inv_matching _ Hinv).
Qed.
End Event.

Lemma reachable_swarm_inv w : reachable w → swarm_inv w.
Proof using JL BL.
  apply network.reachable_invariant; [apply initial_swarm_inv|]. intros w' u ev Hm Hi. by apply event_inv.
Qed.

(** *** What is committed *)

Lemma slice_reads_as i j l l' :
  (i ≤ j)%N → N.to_nat j ≤ length l → N.to_nat j ≤ length l' →
  (∀ k e, k < N.to_nat j → l !! k = Some e → ∃ e', l' !! k = Some e' ∧ same_text e e') →
  Forall2 reads_as (entry_msg <$> slice i j l) (entry_msg <$> slice i j l').
Proof using.
  intros Hij Hl Hl' H. unfold slice. rewrite !take_drop_commute.
  replace (N.to_nat i + (N.to_nat j - N.to_nat i)) with (N.to_nat j) by lia. rewrite !fmap_drop. apply Forall2_drop.
  apply Forall2_fmap_2, Forall2_same_length_lookup_2; [rewrite !length_take; lia|].
  intros k e e' [He Hk]%lookup_take_Some [He' _]%lookup_take_Some.
  destruct (H k e Hk He) as (e'' & He'' & Ht & Hr). by simplify_eq.
Qed.

(** The leader commits first. *)
Definition leader_commits_first (l : uuid_t) (w : swarm) : Prop :=
  ∀ u, u ∈ members → (commit_index (node_of w u) ≤ commit_index (node_of w l))%N.

Lemma event_commits_first w u ev l :
  swarm_inv w → may w u ev → (∀ t, lead t = l) → leader_commits_first l w → leader_commits_first l (handle u ev w).
Proof using JL.
  intros Hinv Hmay Hlead Hfirst. pose proof (event_grows w u ev Hinv Hmay) as (_ & _ & Hle & _).
  destruct (event_step w u ev Hinv Hmay) as (_ & _ & Hlt).
  assert ((commit_index (node_of w l) ≤ commit_index (node_of (handle u ev w) l))%N) as Hl.
  { destruct (decide (u = l)) as [<-|Hne]; [by rewrite network.node_of_handle|by rewrite network.node_of_handle_ne]. }
  intros v Hv. destruct (decide (u = v)) as [<-|Hne].
  2: { rewrite network.node_of_handle_ne by done. etrans; [by apply Hfirst|done]. }
  destruct (decide (u = l)) as [->|Hul]; [done|]. etrans; [|exact Hl].
  rewrite network.node_of_handle. unfold run_event.
  destruct (event_changes (iteration u) ev (node_of w u) Hlt) as [[_ E]|[_ E]|pick msg session Hev Hcmd Hf].
  - rewrite E. by apply Hfirst.
  - rewrite E; [by apply Hfirst|]. intros Hs. apply (node_orderly _ _ (event_node w u ev Hinv Hmay)) in Hs. by rewrite Hlead in Hs.
  - destruct (follows_commit _ _ _ Hf) as [E|(c & Hc & E)]; [etrans; [exact E|by apply Hfirst]|].
    destruct Hmay as (_ & Hadm & _). rewrite Hev in Hadm. destruct Hadm as [Hapi Hsent].
    destruct (requested w msg (node_of w u) Hinv Hapi Hcmd (Hsent Hcmd)) as (a & pi & prev & et & c' & m & Ha & _ & Hca & _ & _ & Hc' & _).
    assert (c' = c) as -> by congruence. etrans; [exact E|]. etrans; [exact Hca|by apply Hfirst].
Qed.

Lemma reachable_commits_first w l : reachable w → l ∈ members → (∀ t, lead t = l) → leader_commits_first l w.
Proof using JL BL.
  intros Hr Hl Hlead. enough (swarm_inv w ∧ leader_commits_first l w) by tauto. revert w Hr.
  apply network.reachable_invariant.
  - intros w Hw. split; [by apply initial_swarm_inv|]. intros u Hu.
    assert (∀ v, v ∈ members → commit_index (node_of w v) = 1%N) as H.
    { intros v Hv. destruct (Hw v Hv) as (_ & mx & va & key & env & d & Hd & Hn). by apply (new_first _ _ _ _ _ _ _ Hd Hn). }
    by rewrite !H.
  - intros w u ev Hm [Hi Hf]. split; [by apply event_inv|by apply event_commits_first].
Qed.

(** With one leader every log is the beginning of the leader's. *)
Lemma leader_has_all w l u i e :
  swarm_inv w → l ∈ members → (∀ t, lead t = l) → u ∈ members → entries (node_of w u) !! i = Some e →
  ∃ e', entries (node_of w l) !! i = Some e' ∧ same_text e e'.
Proof using JL.
  intros Hi Hl Hlead Hu He.
  assert (∃ e', entries (node_of w l) !! i = Some e' ∧ term e' = term e) as (e' & He' & Ht).
  { destruct (node_rooted _ _ (inv_nodes _ Hi u Hu) i e He) as [Hf|[_ H]]; [|by rewrite Hlead in H].
    destruct (node_first _ _ (inv_nodes _ Hi u Hu)) as [k Hk]. destruct (node_first _ _ (inv_nodes _ Hi l Hl)) as [k' Hk'].
    exists e. rewrite Hk, lookup_app_l in He by done. by rewrite Hk', lookup_app_l. }
  destruct (inv_matching _ Hi u l Hu Hl i e e' He He' ltac:(done) i ltac:(done)) as (x & y & ? & ? & ?).
  simplify_eq. by exists e'.
Qed.

(** What a node has committed reads as the first of what the leader has. *)
Lemma commits_agree w l u :
  reachable w → l ∈ members → (∀ t, lead t = l) → u ∈ members →
  ∃ first rest, commits (calls_of w l) = first ++ rest ∧ Forall2 reads_as (commits (calls_of w u)) first.
Proof using JL BL.
  intros Hr Hl Hlead Hu. pose proof (reachable_swarm_inv w Hr) as Hi.
  pose proof (λ i e, leader_has_all w l u i e Hi Hl Hlead Hu) as Hall.
  pose proof (reachable_commits_first w l Hr Hl Hlead u Hu) as Hle.
  pose proof (inv_nodes _ Hi u Hu) as Hnu. pose proof (inv_nodes _ Hi l Hl) as Hnl.
  destruct (node_bounds _ _ Hnu) as [Hu1 Hub]. destruct (node_bounds _ _ Hnl) as [_ Hlb]. unfold inv, size, lengthN in Hub, Hlb.
  eexists _, _. split.
  - by rewrite (node_commits _ _ Hnl), (slice_app 1 (commit_index (node_of w u)) _ _ Hu1 Hle), fmap_app.
  - rewrite (node_commits _ _ Hnu). apply slice_reads_as; [done|lia|lia|]. intros k e _. apply Hall.
Qed.

End Swarm.

(** *** What is applied to the stores *)
Section Applied.
Context {JS : Jsoncpp} {JL : JsoncppLaws} {BO : Boost} {MB : Message bzn_msg}.
Context {S : Type} {ST : storage_base.Storage S}.

Lemma readable_reads_as vs vs' :
  Forall2 reads_as vs vs' → Forall raft_crud_props.readable vs' → Forall raft_crud_props.readable vs.
Proof using JL.
  intros Hall. induction Hall as [|v v' vs vs' Hv _ IH]; [constructor|]. intros [[x Hx] Hvs]%Forall_cons.
  apply Forall_cons. split; [|by apply IH]. symmetry in Hv. destruct (reads_as_member _ _ _ _ Hv Hx) as (y & ? & _). by exists y.
Qed.

Lemma apply_reads_as vs vs' (st : S) :
  Forall2 reads_as vs vs' → Forall raft_crud_props.readable vs →
  foldl raft_crud_props.apply_entry st vs = foldl raft_crud_props.apply_entry st vs'.
Proof using JL.
  intros Hall. revert st. induction Hall as [|v v' vs vs' Hv _ IH]; intros st; [done|]. intros [[x Hx] Hvs]%Forall_cons.
  cbn [foldl]. rewrite IH by done. f_equal. unfold raft_crud_props.apply_entry, raft_crud_props.logged_request.
  destruct (reads_as_member _ _ _ _ Hv Hx) as (y & Hy & Hxy).
  by rewrite Hx, Hy, (reads_as_isString _ _ Hxy), (reads_as_asString _ _ Hxy).
Qed.
End Applied.
End raft_swarm.

(** ** Claims *)
Section Claims.
Context {JS : Jsoncpp} {JL : JsoncppLaws} {BO : Boost} {BL : Base64Laws}.
Context {SE : Security} {MA : Message audit_message} {MB : Message bzn_msg}.
Context (members : gset uuid_t) (peers : list peer_address_t) (iteration : uuid_t → list peer_address_t → list peer_address_t).
Import log_matching raft_swarm.

(** C12: log matching.  In a swarm of Raft nodes that start afresh with the same
    peers, over a network that may lose, repeat, delay and reorder messages and
    makes up any but [AppendEntries], and as long as elections are safe (a node
    that leads in term [t] is [lead t]; the code alone does not see to that):
    when the logs of two nodes have entries of the same term at some index, they
    have the same terms and the same messages up to there. *)
Theorem raft_log_matching (lead : N → uuid_t) (w : world raft effect) (u v : uuid_t) (i : nat) (e e' : log_entry) :
  reachable members peers iteration lead w → u ∈ members → v ∈ members →
  log_entries (log (node_of w u)) !! i = Some e → log_entries (log (node_of w v)) !! i = Some e' → term e = term e' →
  ∀ j, j ≤ i → ∃ x y, log_entries (log (node_of w u)) !! j = Some x ∧ log_entries (log (node_of w v)) !! j = Some y ∧
    term x = term y ∧ reads_as (entry_msg x) (entry_msg y).
Proof using JL BL.
  intros Hr Hu Hv. exact (inv_matching _ _ _ _ (reachable_swarm_inv _ _ _ _ w Hr) u v Hu Hv i e e').
Qed.

(** The store of node [u], when a module of [raft_crud] that starts as [fresh]
    gets the calls that the node has made. *)
Definition store_of {S : Type} {ST : storage_base.Storage S} (alive : session_id → bool) (fresh : raft_crud.raft_crud (S := S))
    (w : world raft effect) (u : uuid_t) : S :=
  raft_crud.storage (post (raft_crud.deliver alive (calls_of w u)) fresh).

(** C13: the databases agree.  Under the same conditions, while one node [l]
    leads: the messages that a node hands to its commit handler read as the first
    of those that [l] hands to its own, in the same order; every entry of the
    node's log is at its place in the log of [l]; and, when all of them can be
    read, the store of [l] is what applying the rest makes of the node's. *)
Theorem raft_databases_agree {S : Type} {ST : storage_base.Storage S} (alive : uuid_t → session_id → bool)
    (fresh : raft_crud.raft_crud (S := S)) (l : uuid_t) (w : world raft effect) (u : uuid_t) :
  reachable members peers iteration (λ _, l) w → l ∈ members → u ∈ members →
  (∀ i e, log_entries (log (node_of w u)) !! i = Some e →
    ∃ e', log_entries (log (node_of w l)) !! i = Some e' ∧ term e = term e' ∧ reads_as (entry_msg e) (entry_msg e')) ∧
  ∃ first rest, commits (calls_of w l) = first ++ rest ∧ Forall2 reads_as (commits (calls_of w u)) first ∧
    (Forall raft_crud_props.readable (commits (calls_of w l)) →
     store_of (alive l) fresh w l = foldl raft_crud_props.apply_entry (store_of (alive u) fresh w u) rest).
Proof using JL BL.
  intros Hr Hl Hu. pose proof (reachable_swarm_inv _ _ _ _ w Hr) as Hi. split.
  { intros i e. exact (leader_has_all members peers (λ _, l) w l u i e Hi Hl (λ _, eq_refl) Hu). }
  destruct (commits_agree _ _ _ _ w l u Hr Hl (λ _, eq_refl) Hu) as (first & rest & Hc & Hall).
  exists first, rest. split; [done|]. split; [done|]. intros Hread. rewrite Hc in Hread.
  apply Forall_app in Hread as [Hfirst Hrest]. pose proof (readable_reads_as _ _ Hall Hfirst) as Hown.
  unfold store_of. rewrite !raft_crud_props.deliver_applies, Hc, foldl_app by (rewrite ?Hc; try apply Forall_app; done).
  by rewrite (apply_reads_as _ _ _ Hall Hown).
Qed.
End Claims.

(** *** Examples: three nodes, one elected, replicate and commit an entry *)

Module sample_raft_swarm.
Import json_tree letters RaftProps.sample_swarm raft_swarm.
#[local] Existing Instances tree_json tree_json_laws letters_boost security no_audit.

Definition nodes : gset uuid_t := list_to_set ["a"; "b"; "c"].
Definition all_peers : list peer_address_t := [peer "a"; peer "b"; peer "c"].
Definition in_listed_order (u : uuid_t) (l : list peer_address_t) : list peer_address_t := l.

Abbreviation swarm := (world raft effect).

Definition text_at (v : tree) (k : string) : string :=
  match member v k with Ok x => match asString x with Ok s => s | _ => "" end | _ => "" end.
Definition carried (e : effect) : option tree :=
  match e with SendMessage _ r | SessionSend _ r _ => Some r | _ => None end.
Definition sentb (w : swarm) (msg : tree) : bool :=
  existsb (λ u, existsb (λ e, match carried e with Some r => String.eqb (print r) (print msg) | None => false end) (calls_of w u))
    (base.elements nodes).
Definition admissibleb (w : swarm) (ev : event) : bool :=
  match ev with
  | Receive _ msg _ =>
      match isMember msg "bzn-api" with Ok true => true | _ => false end && String.eqb (text_at msg "bzn-api") "raft" &&
      (negb (String.eqb (text_at msg "cmd") "AppendEntries") || sentb w msg)
  | _ => true
  end.
Definition mayb (w : swarm) (u : uuid_t) (ev : event) : bool :=
  let s' := post (run_event in_listed_order u ev) (node_of w u) in
  bool_decide (u ∈ nodes) && admissibleb w ev && (size (log s') + 1 <? 2 ^ 32)%N &&
  forallb (λ e, term e <? 2 ^ 32)%N (log_entries (log s')) &&
  (negb (bool_decide (current_state s' = raft_state.leader)) || String.eqb "a" u).

Lemma text_at_spec v k s : text_at v k = s → s ≠ ""%string → ∃ x, member v k = Ok x ∧ asString x = Ok s.
Proof.
  unfold text_at. destruct (member _ k) as [x| |]; [|congruence..]. destruct (asString _) as [s'| |] eqn:E; [|congruence..].
  intros -> _. by exists x.
Qed.
Lemma text_at_commands (v : tree) s : commands (JS := tree_json) v s → text_at v "cmd" = s.
Proof. intros (x & Hx & Hs). unfold text_at. by rewrite Hx, Hs. Qed.

Lemma print_inj v v' : print v = print v' → v = v'.
Proof. intros E. pose proof (read_print v) as H. rewrite E, read_print in H. by injection H. Qed.

Lemma sentb_sound w msg : sentb w msg = true → sent nodes w msg.
Proof.
  intros (u & Hu & (e & He & Hc)%existsb_exists)%existsb_exists.
  apply list_elem_of_In in He. apply list_elem_of_In, elem_of_elements in Hu.
  destruct (carried e) as [r|] eqn:Er; [|discriminate]. apply String.eqb_eq, print_inj in Hc as ->.
  exists u, e, msg. split; [exact Hu|]. split; [exact He|]. split; [reflexivity|].
  destruct e; try discriminate; by injection Er.
Qed.

Lemma raft_admissibleb_sound w ev : admissibleb w ev = true → admissible nodes w ev.
Proof.
  destruct ev as [pick msg session| | | | | |]; try exact (λ _, I).
  unfold admissibleb, admissible. intros [[Ha Hb]%andb_prop Hc]%andb_prop. split.
  - split; [by destruct (isMember _ "bzn-api") as [[]| |]|]. by apply text_at_spec; [apply String.eqb_eq|].
  - intros Hcmd%text_at_commands. rewrite Hcmd in Hc. by apply sentb_sound.
Qed.

Lemma raft_mayb_sound w u ev : mayb w u ev = true → may nodes in_listed_order (λ _, "a"%string) w u ev.
Proof.
  unfold mayb, may. cbv zeta. set (s' := post _ _). clearbody s'.
  intros [[[[Hu Ha]%andb_prop Hs]%andb_prop Ht]%andb_prop Ho]%andb_prop.
  split; [by eapply bool_decide_eq_true|]. split; [by apply raft_admissibleb_sound|]. split; [split|].
  - by apply N.ltb_lt.
  - apply Forall_forall. intros e He%list_elem_of_In. rewrite forallb_forall in Ht. by apply N.ltb_lt, Ht.
  - intros Hl. rewrite (bool_decide_true _ Hl) in Ho. by apply String.eqb_eq.
Qed.

Definition at_start : swarm := World node (λ _, []).

Lemma node_new_of u :
  returns (new all_peers u 10000 false "" None (Disk None true true)) = true →
  new all_peers u 10000 false "" None (Disk None true true) = Ok (node u).
Proof. unfold node, all_peers. by destruct (new _ _ _ _ _ _ _). Qed.

Lemma at_start_initial : initial nodes all_peers at_start.
Proof.
  intros u Hu. split; [reflexivity|].
  exists 10000%N, false, ""%string, None, (Disk None true true). split; [reflexivity|]. apply node_new_of.
  apply elem_of_list_to_set in Hu. revert u Hu. apply Forall_forall.
  repeat constructor; vm_compute; reflexivity.
Qed.
Lemma raft_start_reachable : reachable nodes all_peers in_listed_order (λ _, "a"%string) at_start.
Proof. exists at_start. split; [exact at_start_initial|reflexivity]. Qed.

Definition appending (c pi pt et : N) (m : tree) : event :=
  Receive 0 (create_append_entries_request "a" 1 c pi pt et m) 9.
Definition schedule : list (uuid_t * event) :=
  [("a", RegisterCommitHandler); ("b", RegisterCommitHandler);
   ("a", ElectionTimeout 0 false); ("a", Receive 0 (create_request_vote_response "b" 1 true) 7);
   ("b", appending 1 0 0 0 Null);
   ("a", AppendLog entry database); ("a", HeartbeatTimeout false); ("b", appending 1 0 0 1 entry);
   ("a", Receive 0 (create_append_entries_response "b" 1 true 2) 8); ("a", HeartbeatTimeout false);
   ("b", appending 2 1 1 0 Null)]%string.

Definition replicated : swarm := network.play (run_event in_listed_order) schedule at_start.

Lemma replicated_reachable : reachable nodes all_peers in_listed_order (λ _, "a"%string) replicated.
Proof.
  apply (network.play_reachable _ _ _ mayb); [exact raft_mayb_sound|exact raft_start_reachable|vm_compute; reflexivity].
Qed.
End sample_raft_swarm.
Import json_tree RaftProps.sample_swarm sample_raft_swarm.

Abbreviation replicated_log u := (log_entries (log (node_of replicated u))).
Definition replicated_entry (u : uuid_t) : log_entry :=
  default (LogEntry undefined_entry 0 0 Null) (replicated_log u !! 1).
Lemma replicated_entry_there u : (1 <? length (replicated_log u)) = true → replicated_log u !! 1 = Some (replicated_entry u).
Proof.
  intros H%Nat.ltb_lt. unfold replicated_entry. destruct (lookup_lt_is_Some_2 _ _ H) as [e ->]. reflexivity.
Qed.

Lemma in_nodes u : bool_decide (u ∈ nodes) = true → u ∈ nodes.
Proof. exact (proj1 (bool_decide_eq_true _)). Qed.

Example raft_log_matching_witness :
  print (entry_msg (replicated_entry "a")) = print entry ∧ print (entry_msg (replicated_entry "b")) = print entry ∧
  ∃ x y, replicated_log "a" !! 0 = Some x ∧ replicated_log "b" !! 0 = Some y ∧ term x = term y ∧ entry_msg x = entry_msg y.
Proof.
  assert ((1 <? length (replicated_log "a")) = true) as a_reaches by (vm_compute; reflexivity).
  assert ((1 <? length (replicated_log "b")) = true) as b_reaches by (vm_compute; reflexivity).
  split; [vm_compute; reflexivity|]. split; [vm_compute; reflexivity|].
  refine (raft_log_matching nodes all_peers in_listed_order (λ _, "a"%string) replicated "a" "b" 1
    (replicated_entry "a") (replicated_entry "b") replicated_reachable _ _ _ _ _ 0 _).
  1-2: apply in_nodes; vm_compute; reflexivity.
  - exact (replicated_entry_there "a" a_reaches).
  - exact (replicated_entry_there "b" b_reaches).
  - vm_compute. reflexivity.
  - apply Nat.leb_le. reflexivity.
Defined.

Example raft_databases_agree_witness :
  print <$> commits (calls_of replicated "a") = [print entry] ∧ print <$> commits (calls_of replicated "b") = [print entry] ∧
  commits (calls_of replicated "c") = [] ∧
  ∃ first rest, commits (calls_of replicated "a") = first ++ rest ∧ Forall2 eq (commits (calls_of replicated "b")) first.
Proof.
  split; [vm_compute; reflexivity|]. split; [vm_compute; reflexivity|]. split; [vm_compute; reflexivity|].
  destruct (raft_databases_agree nodes all_peers in_listed_order (λ _ _, true) RaftCrud.sample_node.start_node "a" replicated "b"
    replicated_reachable (in_nodes "a" ltac:(vm_compute; reflexivity)) (in_nodes "b" ltac:(vm_compute; reflexivity)))
    as [_ (first & rest & Hc & Hall & _)].
  exists first, rest. split; [exact Hc|exact Hall].
Defined.

(** *** Elections are not safe

    Three nodes and a network that delivers only what was sent, but may delay it. *)

Module sample_split.
Import json_tree letters RaftProps.sample_swarm raft_swarm sample_raft_swarm.
#[local] Existing Instances tree_json tree_json_laws letters_boost security no_audit.

(** Every message that is delivered was sent; nothing is asked of the elections. *)
Definition delivered (w : swarm) (u : uuid_t) (ev : event) : Prop :=
  u ∈ nodes ∧ fits (post (run_event in_listed_order u ev) (node_of w u)) ∧
  match ev with Receive _ msg _ => raft_api msg ∧ sent nodes w msg | _ => True end.

Definition deliveredb (w : swarm) (u : uuid_t) (ev : event) : bool :=
  let s' := post (run_event in_listed_order u ev) (node_of w u) in
  bool_decide (u ∈ nodes) && (size (log s') + 1 <? 2 ^ 32)%N && forallb (λ e, term e <? 2 ^ 32)%N (log_entries (log s')) &&
  admissibleb w ev && match ev with Receive _ msg _ => sentb w msg | _ => true end.

Lemma deliveredb_sound w u ev : deliveredb w u ev = true → delivered w u ev.
Proof.
  unfold deliveredb, delivered. cbv zeta. set (s' := post _ _). clearbody s'.
  intros [[[[Hu Hs]%andb_prop Ht]%andb_prop Ha]%andb_prop Hm]%andb_prop.
  split; [by eapply bool_decide_eq_true|]. split; [split|].
  - by apply N.ltb_lt.
  - apply Forall_forall. intros e He%list_elem_of_In. rewrite forallb_forall in Ht. by apply N.ltb_lt, Ht.
  - apply raft_admissibleb_sound in Ha. destruct ev; try exact I. split; [apply Ha|]. by apply sentb_sound.
Qed.

Definition reachable_by_delivery : swarm → Prop :=
  network.reachable (run_event in_listed_order) delivered (initial nodes all_peers).

Definition other : Value := Obj [("msg", Str "y")]%string.
Definition asks (u : string) (t : N) : event := Receive 0 (create_request_vote_request u t 1 0) 1.
Definition grants (u : string) (t : N) : event := Receive 0 (create_request_vote_response u t true) 2.
Definition appending (c pi pt et : N) (m : tree) : event :=
  Receive 0 (create_append_entries_request "a" 2 c pi pt et m) 3.
Definition replies (u : string) (success : bool) : event :=
  Receive 0 (create_append_entries_response u 2 success 2) 4.

(** [b] votes for [a] in term 2, a late message takes it back to term 1, and it
    votes for [c] in term 2; each of the two leaders appends an entry; [b] takes
    that of [a], who commits it; [c] refuses it, but in a way that makes [a] send
    it the new commit index. *)
Definition schedule : list (uuid_t * event) :=
  [("a", RegisterCommitHandler); ("b", RegisterCommitHandler); ("c", RegisterCommitHandler);
   ("a", ElectionTimeout 0 false); ("a", ElectionTimeout 0 false);
   ("c", ElectionTimeout 0 false); ("c", ElectionTimeout 0 false);
   ("b", asks "a" 2); ("b", asks "a" 1); ("b", asks "c" 2);
   ("a", grants "b" 2); ("c", grants "b" 2);
   ("a", AppendLog entry database); ("c", AppendLog other database);
   ("a", HeartbeatTimeout false);
   ("b", appending 1 0 0 2 entry); ("a", replies "b" true);
   ("c", appending 1 0 0 2 entry); ("c", appending 1 0 0 2 entry); ("a", replies "c" false);
   ("a", HeartbeatTimeout false); ("c", appending 2 1 2 0 Null)]%string.

Definition split : swarm := network.play (run_event in_listed_order) schedule at_start.
(** After the votes. *)
Definition elected : swarm := network.play (run_event in_listed_order) (take 12 schedule) at_start.

Lemma split_reachable : reachable_by_delivery split.
Proof.
  apply (network.play_reachable _ _ _ deliveredb); [exact deliveredb_sound| |vm_compute; reflexivity].
  exists at_start. split; [exact at_start_initial|reflexivity].
Qed.
End sample_split.

(** A finding: nodes that receive nothing but what was sent can disagree.  In the
    schedule two nodes come to lead in term 2, and in the end the commit handlers of
    two nodes have been given different messages first. *)
Theorem raft_nodes_disagree :
  sample_split.reachable_by_delivery sample_split.split ∧
  (current_state (node_of sample_split.elected "a") = raft_state.leader ∧
   current_state (node_of sample_split.elected "c") = raft_state.leader ∧
   current_term (node_of sample_split.elected "a") = 2%N ∧ current_term (node_of sample_split.elected "c") = 2%N) ∧
  print <$> commits (calls_of sample_split.split "a") = [print entry] ∧
  print <$> commits (calls_of sample_split.split "c") = [print sample_split.other] ∧
  print entry ≠ print sample_split.other.
Proof.
  split; [exact sample_split.split_reachable|].
  split; [split_and!; vm_compute; reflexivity|].
  split; [vm_compute; reflexivity|]. split; [vm_compute; reflexivity|]. vm_compute. discriminate.
Qed.
