(* ===== verification/RaftCommits.v ===== *)
(** * What a majority of the Raft nodes has

    When the leader of a swarm commits an entry, the logs of more than half of every
    quorum that it counts reach that entry: the table of indices from which the
    leader takes the median never runs ahead of the logs themselves. *)

From S2P Require Import Prelude Messages Json Storage RaftLog Raft RaftProps Replication RaftEvents Network RaftSwarm.
Import raft_log raft_state raft_base raft raft_props raft_events raft_table raft_sent network log_matching.

Module raft_commits.
Section Commits.
Context {JS : Jsoncpp} {JL : JsoncppLaws} {BO : Boost} {BL : Base64Laws}.
Context {SE : Security} {MA : Message audit_message} {MB : Message bzn_msg}.
Abbreviation entries s := (log_entries (log s)).
Abbreviation swarm := (world raft effect).
Context (members : gset uuid_t) (peers : list peer_address_t).
Context (iteration : uuid_t → list peer_address_t → list peer_address_t) (lead : N → uuid_t).
Abbreviation run_event := (raft_swarm.run_event iteration).
Abbreviation handle := (network.handle run_event).

(** A reply to [AppendEntries] reaches node [u] only when another node has sent it;
    for the rest the network is that of [raft_swarm]. *)
Definition replied (w : swarm) (u : uuid_t) (msg : Value) : Prop :=
  ∃ v e r, v ∈ members ∧ v ≠ u ∧ e ∈ calls_of w v ∧ reads_as r msg ∧
    match e with SendMessage _ x | SessionSend _ x _ => x = r | _ => False end.

Definition may (w : swarm) (u : uuid_t) (ev : event) : Prop :=
  raft_swarm.may members iteration lead w u ev ∧
  match ev with Receive _ msg _ => commands msg "AppendEntriesReply" → replied w u msg | _ => True end.

Definition reachable : swarm → Prop := network.reachable run_event may (raft_swarm.initial members peers).

(** ** The reply that a node sent *)

Lemma replied_bound w u msg s :
  raft_swarm.swarm_inv members peers lead w → raft_api msg → commands msg "AppendEntriesReply" → replied w u msg →
  ∃ v m, v ∈ members ∧ v ≠ u ∧
    res (get_string ["data"; "from"]%string msg) s = Ok (uuid (node_of w v)) ∧
    res (get_uint ["data"; "matchIndex"]%string msg) s = Ok m ∧ (m ≤ size (log (node_of w v)))%N.
Proof using JL.
  intros Hi Hapi Hcmd (v & e & r & Hv & Hne & Hin & Hrd & Hr).
  pose proof (raft_swarm.inv_nodes _ _ _ _ Hi v Hv) as Hnv.
  pose proof (proj1 (Forall_forall _ _) (raft_swarm.node_calls _ _ _ _ _ Hnv) e Hin) as Hs.
  assert (reply_of (node_of w v) r) as (t & accepted & m & -> & Hm).
  { destruct e; simpl in Hs; try done; subst; destruct Hs as [Hs|Hs]; [| | |done].
    1,3: by destruct (Hs msg Hrd) as [_ []]. by destruct (request_is_no_reply _ _ _ Hs Hrd). }
  destruct (raft_swarm.node_fits _ _ _ _ _ Hnv) as [Hsz _].
  unfold create_append_entries_response in Hrd. set (data := [_; _; _; _]) in Hrd.
  assert (NoDup data.*1) as Hnd by (apply (bool_decide_unpack _); by vm_compute).
  exists v, m. split_and!; [done..| | |done].
  - eapply replication.data_string; [done|done|by repeat constructor].
  - eapply replication.data_uint; [done|done|by repeat constructor|lia].
Qed.

(** ** The table of the leader *)

Definition backed (w : swarm) (u : uuid_t) : Prop :=
  current_state (node_of w u) = raft_state.leader → ∀ v,
  (matched (node_of w u) v ≤ 1)%N ∨
  v ∈ members ∧ v ≠ u ∧ (matched (node_of w u) v ≤ size (log (node_of w v)))%N.

Record counts_inv (w : swarm) : Prop := {
  counts_name u : u ∈ members → uuid (node_of w u) = u;
  counts_backed u : u ∈ members → backed w u
}.

Lemma new_name u mx validation key env d s : new peers u mx validation key env d = Ok s → uuid s = u.
Proof using.
  unfold new. destruct peers; [done|]. set (created := match file d with Some _ => _ | None => _ end).
  destruct created as [d'| |]; [|done..]. destruct (raft_log.new _ _); [|done..]. destruct (res _ _); [|done..].
  by intros [= <-].
Qed.

Lemma initial_counts_inv w : raft_swarm.initial members peers w → counts_inv w.
Proof using.
  intros Hw. split; intros u Hu; destruct (Hw u Hu) as (_ & mx & va & key & env & d & Hd & Hn).
  - by eapply new_name.
  - destruct (raft_swarm.new_first _ _ _ _ _ _ _ _ Hd Hn) as (_ & Hs & _). intros Hl. congruence.
Qed.

Section Event.
Context (w : swarm) (u : uuid_t) (ev : event).
Hypothesis (Hinv : raft_swarm.swarm_inv members peers lead w) (Hcounts : counts_inv w) (Hmay : may w u ev).
Let s := node_of w u.
Let s' := post (run_event u ev) s.

Lemma log_grows v : (size (log (node_of w v)) ≤ size (log (node_of (handle u ev w) v)))%N.
Proof using Hinv Hmay. apply size_prefix. eapply raft_swarm.node_log_grows; [done|apply Hmay]. Qed.

Lemma event_counted : uuid s' = uuid s ∧ counts (iteration u) ev s s'.
Proof using. exact (event_counts (iteration u) ev s). Qed.

(** The author of a reply and the index in it. *)
Lemma reply_bound pick msg session :
  ev = Receive pick msg session → commands msg "AppendEntriesReply" →
  ∃ v m, v ∈ members ∧ v ≠ u ∧ res (get_string ["data"; "from"]%string msg) s = Ok v ∧
    res (get_uint ["data"; "matchIndex"]%string msg) s = Ok m ∧ (m ≤ size (log (node_of w v)))%N.
Proof using Hinv Hcounts Hmay JL.
  intros Hev Hcmd. destruct Hmay as [(_ & Hadm & _) Hrep]. rewrite Hev in Hadm, Hrep. destruct Hadm as [Hapi _].
  destruct (replied_bound w u msg s Hinv Hapi Hcmd (Hrep Hcmd)) as (v & m & Hv & Hne & Hfrom & Hm & Hle).
  rewrite (counts_name _ Hcounts v Hv) in Hfrom. by exists v, m.
Qed.

Lemma event_backed : backed (handle u ev w) u.
Proof using Hinv Hcounts Hmay JL.
  assert (u ∈ members) as Hu by apply Hmay. unfold backed. rewrite network.node_of_handle. fold s s'.
  intros Hl v. pose proof (counts_backed _ Hcounts u Hu) as Hb. unfold backed in Hb. fold s in Hb. pose proof (log_grows v) as Hg.
  assert (current_state s = raft_state.leader → (matched s' v ≤ matched s v)%N → (matched s' v ≤ 1)%N ∨
    v ∈ members ∧ v ≠ u ∧ (matched s' v ≤ size (log (node_of (handle u ev w) v)))%N) as Hkeep.
  { intros Hs Hle. destruct (Hb Hs v) as [|(? & ? & ?)]; [left; lia|right]. split_and!; [done..|lia]. }
  destruct event_counted as [_ [Hc _|pick msg session Hev Hcmd Hpost]].
  { destruct (Hc Hl v) as [|[]]; auto. }
  assert (current_state s = raft_state.leader) as Hs by (rewrite Hpost in Hl; by apply no_crown_append_response in Hl).
  destruct (reply_bound pick msg session Hev Hcmd) as (from & m & Hf & Hne & Hfrom & Hm & Hle).
  destruct (append_response_table (iteration u) msg s) as [Ht|(from' & m' & Hfrom' & Hm' & Ht)]; rewrite <-Hpost in Ht.
  { apply Hkeep; [done|]. by rewrite Ht. }
  assert (from' = from) as -> by congruence. assert (m' = m) as -> by congruence.
  specialize (Ht v). destruct (decide (v = from)) as [->|]; [|apply Hkeep; [done|by rewrite Ht]].
  right. split_and!; [done..|]. rewrite Ht. lia.
Qed.

Lemma event_counts_inv : counts_inv (handle u ev w).
Proof using Hinv Hcounts Hmay JL.
  split; intros v Hv.
  - destruct (decide (u = v)) as [<-|Hne]; [|rewrite network.node_of_handle_ne by done; by apply Hcounts].
    rewrite network.node_of_handle. destruct (event_counts (iteration u) ev (node_of w u)) as [Hn _].
    etrans; [exact Hn|by apply Hcounts].
  - destruct (decide (u = v)) as [<-|Hne]; [apply event_backed|]. unfold backed.
    rewrite (network.node_of_handle_ne _ u v) by done. intros Hl x.
    destruct (counts_backed _ Hcounts v Hv Hl x) as [|(? & ? & ?)]; [by left|right]. split_and!; [done..|].
    pose proof (log_grows x). lia.
Qed.

(** A commit of the leader follows a reply, and the logs that are counted reach it. *)
Lemma leader_commit_reaches qs q :
  current_state s = raft_state.leader → (commit_index s < commit_index s')%N →
  res get_active_quorum s = Ok qs → q ∈ qs → u ∈ q →
  ∃ h : gset uuid_t, h ⊆ q ∧ base.size q < 2 * base.size h ∧
    ∀ v, v ∈ h → v ∈ members ∧ (commit_index s' ≤ size (log (node_of (handle u ev w) v)))%N.
Proof using Hinv Hcounts Hmay JL BL.
  intros Hs Hlt Hqs Hq Huq. assert (u ∈ members) as Hu by apply Hmay.
  pose proof (counts_name _ Hcounts u Hu) as Hname. fold s in Hname.
  destruct (raft_swarm.node_bounds _ _ _ _ _ (raft_swarm.inv_nodes _ _ _ _ Hinv u Hu)) as [H1 _]. fold s in H1.
  destruct (raft_swarm.event_grows members peers iteration lead w u ev Hinv (proj1 Hmay)) as (_ & Hb' & _).
  fold s in Hb'. fold s' in Hb'. pose proof event_backed as Hb. unfold backed in Hb. rewrite network.node_of_handle in Hb.
  fold s in Hb. fold s' in Hb.
  destruct event_counted as [_ [_ Hc|pick msg session Hev Hcmd Hpost]]; [rewrite (Hc Hs) in Hlt; lia|].
  exists (filter (λ v, v = uuid s ∨ (commit_index s' ≤ matched s' v)%N) q). split_and!; [set_solver| |].
  - destruct (reply_bound pick msg session Hev Hcmd) as (from & m & Hf & Hne & Hfrom & _).
    rewrite Hpost in *. eapply (commit_majority (iteration u) msg s qs); [done..| | |done|done|by rewrite Hname].
    + destruct (counts_backed _ Hcounts u Hu Hs u) as [Hle|(_ & [] & _)]; [by rewrite Hname|done].
    + rewrite Hfrom, Hname. congruence.
  - intros v [Hv _]%elem_of_filter. rewrite Hname in Hv. destruct (decide (v = u)) as [->|Hne].
    { split; [done|]. rewrite network.node_of_handle. exact Hb'. }
    destruct Hv as [|Hv]; [done|].
    assert (current_state s' = raft_state.leader) as Hl.
    { rewrite Hpost, <-Hs. apply (appends_append_response (iteration u) msg s). }
    destruct (Hb Hl v) as [|(? & ? & ?)]; [lia|]. split; [done|lia].
Qed.
End Event.

Lemma reachable_counts_inv w : reachable w → raft_swarm.swarm_inv members peers lead w ∧ counts_inv w.
Proof using JL BL.
  revert w. apply network.reachable_invariant.
  - intros w' Hw. split; [by apply raft_swarm.initial_swarm_inv|by apply initial_counts_inv].
  - intros w' u ev Hm [Hi Hc]. split; [by apply raft_swarm.event_inv; [|apply Hm]|by apply event_counts_inv].
Qed.
End Commits.
End raft_commits.

(** ** Claims *)
Section Claims.
Context {JS : Jsoncpp} {JL : JsoncppLaws} {BO : Boost} {BL : Base64Laws}.
Context {SE : Security} {MA : Message audit_message} {MB : Message bzn_msg}.
Context (members : gset uuid_t) (peers : list peer_address_t) (iteration : uuid_t → list peer_address_t → list peer_address_t).
Import raft_commits.

(** C16: A leader commits what a majority has.  In a swarm of Raft nodes as for log
    matching, in which a reply to [AppendEntries] reaches a node only when another
    node has sent it: when an event makes the commit index of a leader [u] grow, then
    for every quorum that its log has in force and that it belongs to, there are
    nodes that make up more than half of that quorum and whose own logs reach the new
    commit index; and, as long as [u] is the only leader, up to there those logs have
    the same terms and messages as the log of [u]. *)
Theorem raft_commits_on_majority (lead : N → uuid_t) (w : world raft effect) (u : uuid_t) (ev : event)
    (qs : list (gset uuid_t)) :
  reachable members peers iteration lead w → may members iteration lead w u ev →
  let w' := network.handle (raft_swarm.run_event iteration) u ev w in
  current_state (node_of w u) = raft_state.leader →
  (commit_index (node_of w u) < commit_index (node_of w' u))%N →
  res get_active_quorum (node_of w u) = Ok qs →
  ∀ q, q ∈ qs → u ∈ q →
  ∃ h : gset uuid_t, h ⊆ q ∧ base.size q < 2 * base.size h ∧ ∀ v, v ∈ h →
    v ∈ members ∧ (commit_index (node_of w' u) ≤ size (log (node_of w' v)))%N ∧
    ((∀ t, lead t = u) → ∀ i, i < N.to_nat (commit_index (node_of w' u)) →
     ∃ x y, log_entries (log (node_of w' v)) !! i = Some x ∧ log_entries (log (node_of w' u)) !! i = Some y ∧
       term x = term y ∧ reads_as (entry_msg x) (entry_msg y)).
Proof using JL BL.
  intros Hr Hm w' Hs Hlt Hqs q Hq Hu. destruct (reachable_counts_inv _ _ _ _ w Hr) as [Hi Hc].
  unfold w' in *. rewrite network.node_of_handle in Hlt |- *.
  destruct (leader_commit_reaches members peers iteration lead w u ev Hi Hc Hm qs q Hs Hlt Hqs Hq Hu) as (h & Hsub & Hsize & Hall).
  exists h. split_and!; [done..|]. intros v Hv. destruct (Hall v Hv) as [Hvm Hle]. split_and!; [done..|].
  intros Hlead i Hlti. unfold size, lengthN in Hle.
  destruct (lookup_lt_is_Some_2 (log_entries (log (node_of (network.handle (raft_swarm.run_event iteration) u ev w) v))) i)
    as [x Hx]; [lia|].
  assert (raft_swarm.swarm_inv members peers lead (network.handle (raft_swarm.run_event iteration) u ev w)) as Hi'
    by (apply raft_swarm.event_inv; [done|apply Hm]).
  destruct (raft_swarm.leader_has_all _ _ _ _ u v i x Hi' ltac:(apply Hm) Hlead Hvm Hx) as (y & Hy & Ht & Hrd).
  exists x, y. rewrite network.node_of_handle in Hy. done.
Qed.
End Claims.

(** *** Example: the first commit of the leader of three nodes *)

Module sample_commit.
Import json_tree letters RaftProps.sample_swarm RaftSwarm.sample_raft_swarm raft_commits.
#[local] Existing Instances tree_json tree_json_laws letters_boost security no_audit.

Definition repliedb (w : swarm) (u : uuid_t) (msg : tree) : bool :=
  existsb (λ v, negb (String.eqb v u) &&
    existsb (λ e, match carried e with Some r => String.eqb (print r) (print msg) | None => false end) (calls_of w v))
    (base.elements nodes).
Definition mayb (w : swarm) (u : uuid_t) (ev : event) : bool :=
  RaftSwarm.sample_raft_swarm.mayb w u ev &&
  match ev with
  | Receive _ msg _ => negb (String.eqb (text_at msg "cmd") "AppendEntriesReply") || repliedb w u msg
  | _ => true
  end.

Lemma repliedb_sound w u msg : repliedb w u msg = true → replied nodes w u msg.
Proof.
  intros (v & Hv & [Hne (e & He & Hc)%existsb_exists]%andb_prop)%existsb_exists.
  apply list_elem_of_In in He. apply list_elem_of_In, elem_of_elements in Hv. apply negb_true_iff, String.eqb_neq in Hne.
  destruct (carried e) as [r|] eqn:Er; [|discriminate]. apply String.eqb_eq, print_inj in Hc as ->.
  exists v, e, msg. split; [exact Hv|]. split; [exact Hne|]. split; [exact He|]. split; [reflexivity|].
  destruct e; try discriminate; by injection Er.
Qed.

Lemma commit_mayb_sound w u ev : mayb w u ev = true → may nodes in_listed_order (λ _, "a"%string) w u ev.
Proof.
  intros [Hm Hr]%andb_prop. split; [by apply raft_mayb_sound|]. destruct ev; try exact I.
  intros Hcmd%text_at_commands. rewrite Hcmd in Hr. by apply repliedb_sound.
Qed.

(** Everything before the reply of [b], and the reply. *)
Definition before : swarm := network.play (raft_swarm.run_event in_listed_order) (take 8 schedule) at_start.
Definition reply_of_b : event := Receive 0 (create_append_entries_response "b" 1 true 2) 8.
Definition after : swarm := network.handle (raft_swarm.run_event in_listed_order) "a" reply_of_b before.

Lemma before_reachable : reachable nodes all_peers in_listed_order (λ _, "a"%string) before.
Proof.
  apply (network.play_reachable _ _ _ mayb); [exact commit_mayb_sound| |vm_compute; reflexivity].
  exists at_start. split; [exact at_start_initial|reflexivity].
Qed.

Definition quorums_before : list (gset uuid_t) :=
  match res get_active_quorum (node_of before "a") with Ok qs => qs | _ => [] end.
Lemma quorums_of_before : res get_active_quorum (node_of before "a") = Ok quorums_before.
Proof.
  assert (returns (res get_active_quorum (node_of before "a")) = true) as H by (vm_compute; reflexivity).
  unfold quorums_before. by destruct (res get_active_quorum (node_of before "a")).
Qed.
End sample_commit.
Import RaftSwarm.sample_raft_swarm sample_commit.

Example raft_commits_on_majority_witness :
  commit_index (node_of after "a") = 2%N ∧ (base.elements <$> quorums_before) = [["c"; "a"; "b"]]%string ∧
  ∀ q, q ∈ quorums_before → "a"%string ∈ q →
  ∃ h : gset uuid_t, h ⊆ q ∧ base.size q < 2 * base.size h ∧
    ∀ v, v ∈ h → (2 ≤ size (log (node_of after v)))%N.
Proof.
  assert (commit_index (node_of after "a") = 2%N) as Hc by (vm_compute; reflexivity). split; [exact Hc|].
  split; [vm_compute; reflexivity|]. intros q Hq Ha.
  assert (mayb before "a" reply_of_b = true) as Hm by (vm_compute; reflexivity). apply commit_mayb_sound in Hm.
  assert (current_state (node_of before "a") = raft_state.leader) as Hl by (vm_compute; reflexivity).
  assert (commit_index (node_of before "a") < commit_index (node_of after "a"))%N as Hlt
    by (rewrite Hc; apply N.ltb_lt; vm_compute; reflexivity).
  destruct (raft_commits_on_majority nodes all_peers in_listed_order (λ _, "a"%string) before "a" reply_of_b quorums_before
    before_reachable Hm Hl Hlt quorums_of_before q Hq Ha) as (h & Hsub & Hsize & Hall).
  exists h. split; [exact Hsub|]. split; [exact Hsize|]. intros v Hv. destruct (Hall v Hv) as (_ & Hle & _).
  rewrite <-Hc. exact Hle.
Defined.
