(* ===== verification/Bootstrap.v ===== *)
(** * The list of peers a node starts with

    [bootstrap/bootstrap_peers.cpp] reads it from a file and from a URL;
    [utils/blacklist.cpp] asks a contract whether a peer is banned. *)

From S2P Require Import Prelude Messages Json RaftLog Raft.

(** ** The black list *)
Module blacklist.
Section Blacklist.
Context {JS : Jsoncpp}.
(** The reply to a POST with these fields, none when the transfer failed, and
    the text of the failure. *)
Context (perform : string → option string) (failure : string).

Definition QUOTE : string := String "034" "".

(** [ROPSTEN_DATA % uuid]. *)
Definition post_fields (u : string) : string :=
  let q s := (QUOTE ++ s ++ QUOTE)%string in
  ("{" ++ q "jsonrpc" ++ ":" ++ q "2.0" ++ "," ++ q "method" ++ ":" ++ q "eth_call" ++ "," ++ q "params" ++ ":[{" ++
  q "to" ++ ":" ++ q "0x58261EEc3fCD83DACB5E0532277c27f1cA58270E" ++ "," ++ q "data" ++ ": " ++ q ("0x3a4e44a0" ++ u) ++
  " }," ++ q "latest" ++ "]," ++ q "id" ++ ":1}")%string.

(** [std::copy_if(... c != '-')]. *)
Fixpoint remove_dashes (s : string) : string :=
  match s with
  | EmptyString => ""
  | String c s => if bool_decide (c = "-"%char) then remove_dashes s else String c (remove_dashes s)
  end.

Definition hex_value (c : ascii) : option N :=
  let n := N_of_ascii c in
  if ((48 <=? n) && (n <=? 57))%N then Some (n - 48)%N
  else if ((65 <=? n) && (n <=? 70))%N then Some (n - 55)%N
  else if ((97 <=? n) && (n <=? 102))%N then Some (n - 87)%N
  else None.

Definition is_hex (c : ascii) : bool := bool_decide (is_Some (hex_value c)).

Fixpoint hex_digits (acc : N) (s : string) : N :=
  match s with
  | String c s => match hex_value c with Some d => hex_digits (16 * acc + d)%N s | None => acc end
  | EmptyString => acc
  end.

(** [std::stoul(s, nullptr, 16)]: white space, a sign, [0x] before a digit, and
    digits; what follows is ignored. *)
Definition stoul16 (s : string) : option N :=
  let '(neg, s) := istream.get_sign (istream.skip_ws s) in
  let s := match s with
           | String "0" (String x (String c r)) =>
               if (bool_decide (x = "x"%char) || bool_decide (x = "X"%char)) && is_hex c then String c r else s
           | _ => s
           end in
  match istream.span is_hex s with
  | (EmptyString, _) => None
  | (digits, _) => let n := hex_digits 0 digits in
                   if (n <? 2 ^ 64)%N then Some (if neg : bool then sub64 0 n else n) else None
  end.

(** The [assert] on the length of the uuid is for debug builds. *)
Definition is_blacklisted (raw_uuid : uuid_t) : result bool :=
  match perform (post_fields (remove_dashes raw_uuid)) with
  | None => Throw ("curl_easy_perform() failed in whitelist: " ++ failure)
  | Some text =>
      match parse text with
      | None => Ok false
      | Some response =>
          match member response "result" with
          | Ok v => match asString v with
                    | Ok s => Ok (match stoul16 s with Some n => (n =? 1)%N | None => false end)
                    | _ => Ok false
                    end
          | _ => Ok false
          end
      end
  end.

End Blacklist.
End blacklist.

(** ** The peers *)
Module bootstrap_peers.
Section Peers.
Context {JS : Jsoncpp}.
(** [stream >> root]: none when it throws. *)
Context (read_stream : string → option Value) (is_blacklisted : uuid_t → result bool).

Record bootstrap_peers := BootstrapPeers {
  peer_addresses : list peer_address_t;        (* an unordered_set *)
  peer_validation_enabled : bool
}.

Definition get_peers (s : bootstrap_peers) : list peer_address_t := peer_addresses s.
Definition is_peer_validation_enabled (s : bootstrap_peers) : bool := peer_validation_enabled s.

Definition new (validation : bool) : bootstrap_peers := BootstrapPeers [] validation.

Abbreviation peersM := (M bootstrap_peers unit).

(** [v[k].asString()] and [v[k].asUInt()]. *)
Definition string_at (k : string) (v : Value) : result string :=
  match member v k with Ok x => asString x | Throw w => Throw w | Undefined => Undefined end.
Definition uint_at (k : string) (v : Value) : result N :=
  match member v k with Ok x => asUInt x | Throw w => Throw w | Undefined => Undefined end.
Definition string_or_unknown (k : string) (v : Value) : result string :=
  match isMember v k with
  | Ok true => string_at k v
  | Ok false => Ok "unknown"%string
  | Throw w => Throw w
  | Undefined => Undefined
  end.

(** The body of the [try], and the ports before they are cut to 16 bits. *)
Definition read_peer (v : Value) : option (peer_address_t * N * N) :=
  match string_at "host" v, uint_at "port" v, uint_at "http_port" v, string_or_unknown "uuid" v, string_or_unknown "name" v with
  | Ok host, Ok port, Ok http_port, Ok u, Ok n => Some (Peer host (u16 port) (u16 http_port) n u, port, http_port)
  | _, _, _, _, _ => None
  end.

(** The peer that an element of the list specifies, if it is accepted. *)
Definition specified (v : Value) : option peer_address_t :=
  '(p, port_, http_port_) ← read_peer v;
  if negb (port_ =? port p)%N then None
  else if negb (http_port_ =? http_port p)%N then None
  else if bool_decide (host p = ""%string) || (port p =? 0)%N || (http_port p =? 0)%N then None
  else Some p.

(** One turn of the loop: whether the peer was counted. *)
Definition read_one (v : Value) : peersM bool :=
  match specified v with
  | None => mret false
  | Some p =>
      validation ← gets is_peer_validation_enabled;
      banned ← (if (validation : bool) then lift (is_blacklisted (uuid p)) else mret false);
      if (banned : bool) then mret false
      else
        modify (λ s, BootstrapPeers (set_insert p (peer_addresses s)) (peer_validation_enabled s));;
        mret true
  end.

Fixpoint initialize_peer_list (vs : list Value) (valid_addresses_read : N) : peersM N :=
  match vs with
  | [] => mret valid_addresses_read
  | v :: vs =>
      counted ← read_one v;
      initialize_peer_list vs (if (counted : bool) then add64 valid_addresses_read 1 else valid_addresses_read)
  end.

(** The number of duplicates is what the log reports. *)
Definition duplicate_addresses (new_addresses valid_addresses_read : N) : N := sub64 new_addresses valid_addresses_read.

Definition ingest_json (text : string) : peersM bool :=
  addresses_before ← gets (λ s, lengthN (peer_addresses s));
  match read_stream text with
  | None => mret false
  | Some root =>
      initialize_peer_list (elements root) 0;;
      addresses_after ← gets (λ s, lengthN (peer_addresses s));
      let new_addresses := sub64 addresses_after addresses_before in
      mret (0 <? new_addresses)%N
  end.

(** [None]: the file cannot be read. *)
Definition fetch_peers_from_file (file : option string) : peersM bool :=
  match file with
  | None => mret false
  | Some text => ingest_json text
  end.

Definition fetch_peers_from_url (peers : string) : peersM bool := ingest_json peers.

End Peers.
End bootstrap_peers.

(** ** Properties *)
Module bootstrap_props.
Import bootstrap_peers.

Section Props.
Context {JS : Jsoncpp}.
Context (read_stream : string → option Value) (is_blacklisted : uuid_t → result bool).

(** No two elements are equal for [operator==]. *)
Fixpoint distinct (ps : list peer_address_t) : bool :=
  match ps with [] => true | p :: ps => negb (set_contains p ps) && distinct ps end.

(** A peer the node can connect to. *)
Definition usable (p : peer_address_t) : Prop :=
  host p ≠ ""%string ∧ (0 < port p < 2 ^ 16)%N ∧ (0 < http_port p < 2 ^ 16)%N.

Definition admitted (s : bootstrap_peers) : Prop :=
  distinct (peer_addresses s) = true ∧ Forall usable (peer_addresses s) ∧
  (peer_validation_enabled s = true → Forall (λ p, is_blacklisted (uuid p) = Ok false) (peer_addresses s)).

Lemma specified_usable v p : specified v = Some p → usable p.
Proof using.
  unfold specified, read_peer. intros Hs.
  destruct (string_at "host" v) as [h| |]; [|done..]. destruct (uint_at "port" v) as [po| |]; [|done..].
  destruct (uint_at "http_port" v) as [hp| |]; [|done..]. destruct (string_or_unknown "uuid" v) as [u| |]; [|done..].
  destruct (string_or_unknown "name" v) as [n| |]; [|done..]. simpl in Hs.
  destruct (negb _); [done|]. destruct (negb _); [done|]. case_bool_decide as Hh; [done|].
  destruct (N.eqb_spec (u16 po) 0); [done|]. destruct (N.eqb_spec (u16 hp) 0); [done|]. injection Hs as <-.
  pose proof (u16_bound po). pose proof (u16_bound hp). unfold usable. simpl. split_and!; [done|lia..].
Qed.

Lemma distinct_snoc ps p : distinct (ps ++ [p]) = distinct ps && negb (set_contains p ps).
Proof using.
  induction ps as [|q ps IH]; [done|]. cbn [app distinct]. rewrite IH. unfold set_contains. rewrite existsb_app.
  cbn [existsb]. rewrite (peer_eqb_sym q p). destruct (existsb _ ps), (peer_eqb p q), (distinct ps); simpl;
    rewrite ?orb_true_r, ?orb_false_r, ?andb_false_r; done.
Qed.

Lemma read_one_admitted v s : admitted s → admitted (post (read_one is_blacklisted v) s).
Proof using.
  intros Hs. pose proof Hs as (Hd & Hu & Hb). unfold read_one. destruct (specified v) as [p|] eqn:Hp; [|done].
  rewrite post_bind, res_gets, post_gets. unfold is_peer_validation_enabled.
  assert (∀ b, (peer_validation_enabled s = true → is_blacklisted (uuid p) = Ok b) →
    admitted (post (if b then mret false
      else modify (λ s, BootstrapPeers (set_insert p (peer_addresses s)) (peer_validation_enabled s));;
        mret true : M bootstrap_peers unit bool) s)) as Hput.
  { intros [] Hbl; [done|]. change (admitted (BootstrapPeers (set_insert p (peer_addresses s)) (peer_validation_enabled s))).
    unfold set_insert. destruct (set_contains p (peer_addresses s)) eqn:Hc; [done|]. split_and!; simpl.
    - rewrite distinct_snoc, Hd. by rewrite Hc.
    - apply Forall_app. split; [done|]. apply Forall_singleton. by eapply specified_usable.
    - intros Hv. apply Forall_app. split; [auto|]. apply Forall_singleton. auto. }
  rewrite post_bind. destruct (peer_validation_enabled s) eqn:Hv.
  - rewrite res_lift, post_lift. destruct (is_blacklisted (uuid p)) as [b| |] eqn:Hbl; [|done..]. apply Hput. by intros _.
  - rewrite res_ret, post_ret. by apply (Hput false).
Qed.

Lemma initialize_admitted vs n s : admitted s → admitted (post (initialize_peer_list is_blacklisted vs n) s).
Proof using.
  revert n s. induction vs as [|v vs IH]; intros n s Hs; [done|]. cbn [initialize_peer_list].
  rewrite post_bind. apply (read_one_admitted v) in Hs. destruct (res (read_one _ v) s); [by apply IH|done..].
Qed.

Lemma ingest_admitted text s : admitted s → admitted (post (ingest_json read_stream is_blacklisted text) s).
Proof using.
  intros Hs. unfold ingest_json. rewrite post_bind, res_gets, post_gets. destruct (read_stream text) as [root|]; [|done].
  rewrite post_bind. apply (initialize_admitted (elements root) 0) in Hs.
  by destruct (res (initialize_peer_list _ _ _) s).
Qed.

(** *** Sequences of fetches *)
Inductive fetch := FromFile (file : option string) | FromUrl (peers : string).

Definition perform (f : fetch) : M bootstrap_peers unit bool :=
  match f with
  | FromFile file => fetch_peers_from_file read_stream is_blacklisted file
  | FromUrl peers => fetch_peers_from_url read_stream is_blacklisted peers
  end.

Fixpoint run (fs : list fetch) (s : bootstrap_peers) : bootstrap_peers :=
  match fs with [] => s | f :: fs => run fs (post (perform f) s) end.

Definition same_validation : relation bootstrap_peers := λ s s', peer_validation_enabled s' = peer_validation_enabled s.

#[local] Instance same_validation_preorder : PreOrder same_validation.
Proof. split; unfold same_validation; [done|]. intros ??? H1 H2. by rewrite H2. Qed.

Lemma initialize_validation vs n : respects same_validation (initialize_peer_list is_blacklisted vs n).
Proof using.
  revert n. induction vs as [|v vs IH]; intros n; cbn [initialize_peer_list]; unfold read_one;
    repeat first [apply IH|respects_step]; done.
Qed.

Lemma ingest_validation text s :
  peer_validation_enabled (post (ingest_json read_stream is_blacklisted text) s) = peer_validation_enabled s.
Proof using.
  assert (respects same_validation (ingest_json read_stream is_blacklisted text)) as H; [|exact (H s)].
  unfold ingest_json. repeat first [apply initialize_validation|respects_step].
Qed.

Lemma run_admitted fs s : admitted s → admitted (run fs s).
Proof using.
  revert s. induction fs as [|f fs IH]; intros s Hs; [done|]. apply IH. destruct f as [[text|]|text]; [by apply ingest_admitted|done|].
  by apply ingest_admitted.
Qed.

End Props.

Section RoundTrip.
Context {JS : Jsoncpp} {JL : JsoncppLaws}.
Context (read_stream : string → option Value) (is_blacklisted : uuid_t → result bool).

(** The list of peers as [create_dat_file] writes it. *)
Definition peers_json (ps : list peer_address_t) : Value := foldl append null (raft.peer_to_json <$> ps).

Lemma reads_string kvs k s v : NoDup kvs.*1 → (k, str s) ∈ kvs → reads_as (obj kvs) v → string_at k v = Ok s.
Proof using.
  intros Hn Hin Hr. destruct (reads_as_member _ _ _ _ Hr (member_obj _ _ _ Hn Hin)) as (x & Hx & Hrx).
  unfold string_at. by rewrite Hx, (reads_as_asString _ _ Hrx), asString_str.
Qed.

Lemma reads_uint kvs k n v : (n < 2 ^ 32)%N → NoDup kvs.*1 → (k, uint n) ∈ kvs → reads_as (obj kvs) v → uint_at k v = Ok n.
Proof using.
  intros Hlt Hn Hin Hr. destruct (reads_as_member _ _ _ _ Hr (member_obj _ _ _ Hn Hin)) as (x & Hx & Hrx).
  unfold uint_at. by rewrite Hx, (reads_as_asUInt _ _ Hrx), asUInt_uint.
Qed.

Lemma specified_json p v : usable p → reads_as (raft.peer_to_json p) v → specified v = Some p.
Proof using JL.
  intros (Hh & Hp & Hhp) Hr. unfold raft.peer_to_json in Hr.
  match type of Hr with reads_as (obj ?l) _ => set (kvs := l) in * end.
  assert (NoDup kvs.*1) as Hn.
  { change (NoDup ["host"; "port"; "http_port"; "name"; "uuid"]%string). apply (bool_decide_eq_true_1 (NoDup _)). reflexivity. }
  assert (∀ k s, (k, str s) ∈ kvs → string_or_unknown k v = Ok s) as Hs.
  { intros k s Hin. unfold string_or_unknown. rewrite (reads_as_isMember _ _ _ Hr), isMember_obj.
    rewrite bool_decide_true by (apply list_elem_of_fmap; by exists (k, str s)). by eapply reads_string. }
  unfold specified, read_peer.
  rewrite (reads_string kvs "host" (host p) v Hn) by (done || (unfold kvs; set_solver +)).
  rewrite (reads_uint kvs "port" (port p) v) by (done || lia || (unfold kvs; set_solver +)).
  rewrite (reads_uint kvs "http_port" (http_port p) v) by (done || lia || (unfold kvs; set_solver +)).
  rewrite (Hs "uuid" (uuid p)), (Hs "name" (name p)) by (unfold kvs; set_solver +).
  simpl. rewrite !u16_small, !N.eqb_refl by lia. cbn [negb]. rewrite bool_decide_false by done.
  rewrite (proj2 (N.eqb_neq _ _)), (proj2 (N.eqb_neq _ _)) by lia. by destruct p.
Qed.

Lemma specified_all ps vs :
  Forall2 (λ p v, reads_as (raft.peer_to_json p) v) ps vs → Forall usable ps → Forall2 (λ p v, specified v = Some p) ps vs.
Proof using JL.
  intros Hr Hu. induction Hr as [|p v ps vs Hp _ IH]; [constructor|]. apply Forall_cons in Hu as [Hu Hus].
  constructor; [by apply specified_json|by apply IH].
Qed.

Lemma initialize_reads ps vs n s :
  Forall2 (λ p v, specified v = Some p) ps vs → Forall (λ p, is_blacklisted (uuid p) = Ok false) ps →
  post (initialize_peer_list is_blacklisted vs n) s =
    BootstrapPeers (foldl (λ l p, set_insert p l) (peer_addresses s) ps) (peer_validation_enabled s) ∧
  ∃ m, res (initialize_peer_list is_blacklisted vs n) s = Ok m.
Proof using.
  intros Hv. revert n s. induction Hv as [|p v ps vs Hp _ IH]; intros n s Hb.
  { split; [by destruct s|]. by eexists. }
  apply Forall_cons in Hb as [Hb Hbs]. cbn [initialize_peer_list].
  assert (read_one is_blacklisted v s =
    (Ok true, BootstrapPeers (set_insert p (peer_addresses s)) (peer_validation_enabled s), [])) as Hone.
  { unfold read_one. rewrite Hp, run_gets. unfold is_peer_validation_enabled.
    destruct (peer_validation_enabled s) eqn:E; [rewrite Hb, run_lift|rewrite (run_bind _ _ _ false s) by done];
      by rewrite run_modify, E. }
  rewrite (run_state _ _ _ _ _ Hone). setoid_rewrite (run_result _ _ _ _ _ Hone).
  exact (IH _ (BootstrapPeers (set_insert p (peer_addresses s)) (peer_validation_enabled s)) Hbs).
Qed.

Lemma insert_distinct ps l : distinct (l ++ ps) = true → foldl (λ l p, set_insert p l) l ps = l ++ ps.
Proof using.
  revert l. induction ps as [|p ps IH]; intros l Hd; [by rewrite app_nil_r|]. cbn [foldl].
  replace (l ++ p :: ps) with ((l ++ [p]) ++ ps) in * by by rewrite <-app_assoc.
  assert (distinct (l ++ [p]) = true) as Hp.
  { clear IH. induction ps as [|q ps IH] using rev_ind; [by rewrite app_nil_r in Hd|].
    rewrite app_assoc, distinct_snoc in Hd. apply andb_true_iff in Hd as [? _]. by apply IH. }
  rewrite distinct_snoc in Hp. apply andb_true_iff in Hp as [_ Hp%negb_true_iff].
  unfold set_insert at 2. rewrite Hp. by apply IH.
Qed.
End RoundTrip.
End bootstrap_props.

(** ** Claims *)

Section Claims.
Import bootstrap_peers bootstrap_props.
Context {JS : Jsoncpp} {JL : JsoncppLaws}.
Context (read_stream : string → option Value) (is_blacklisted : uuid_t → result bool).

(** Whatever files and URLs it has read, in whatever state an exception has
    left it, the list holds only peers that can be connected to: a host and two
    ports that fit 16 bits and are not zero, no peer twice, and, when peers are
    validated, none that the black list bans. *)
Theorem bootstrap_peers_are_usable (validation : bool) (fs : list fetch) :
  let s := bootstrap_props.run read_stream is_blacklisted fs (new validation) in
  distinct (get_peers s) = true ∧ Forall usable (get_peers s) ∧
  (peer_validation_enabled s = true → Forall (λ p, is_blacklisted (uuid p) = Ok false) (get_peers s)).
Proof. apply run_admitted. split_and!; [done|constructor|by constructor]. Qed.

(** A list of peers is read back as it was written: from a document that
    reads as the array [create_dat_file] makes of distinct usable peers, a fresh
    list gets exactly these peers, in this order, and the fetch succeeds. *)
Theorem bootstrap_peers_round_trip (validation : bool) (ps : list peer_address_t) (text : string) (v : Value) :
  distinct ps = true → Forall usable ps → Forall (λ p, is_blacklisted (uuid p) = Ok false) ps →
  ps ≠ [] → (lengthN ps < 2 ^ 64)%N →
  read_stream text = Some v → reads_as (peers_json ps) v →
  let fetch := fetch_peers_from_file read_stream is_blacklisted (Some text) in
  res fetch (new validation) = Ok true ∧ get_peers (post fetch (new validation)) = ps.
Proof.
  intros Hd Hu Hb Hne Hlt Hread Hr fetch.
  assert (Forall2 (λ p v, specified v = Some p) ps (elements v)) as Hs.
  { pose proof (reads_as_elements _ _ Hr) as He. unfold peers_json in He. rewrite (proj1 (appends_spec _)) in He.
    exact (specified_all ps _ (proj1 (Forall2_fmap_l (A := peer_address_t) raft.peer_to_json reads_as ps _) He) Hu). }
  destruct (initialize_reads is_blacklisted ps (elements v) 0 (new validation) Hs Hb) as [Hpost [m Hres]].
  rewrite insert_distinct in Hpost by done. cbn [app new peer_addresses peer_validation_enabled] in Hpost.
  unfold fetch, fetch_peers_from_file, ingest_json. rewrite res_bind, post_bind, res_gets, post_gets, Hread.
  rewrite res_bind, post_bind, Hres, Hpost, res_bind, post_bind, res_gets, post_gets. split; [|done].
  rewrite res_ret. f_equal. apply N.ltb_lt. cbn [peer_addresses new]. unfold lengthN in *. cbn [length].
  rewrite sub64_small by lia. destruct ps; [done|]. cbn [length]. lia.
Qed.
End Claims.

Module sample_peers.
Import json_tree.
Definition peers : list peer_address_t := [Peer "127.0.0.1" 51010 8080 "peer1" "a"; Peer "127.0.0.1" 51011 8081 "peer2" "b"].
Definition banned (u : uuid_t) : result bool := Ok (bool_decide (u = "c"%string)).
End sample_peers.

Example bootstrap_peers_round_trip_witness :
  bootstrap_peers.get_peers
    (post (bootstrap_peers.fetch_peers_from_file (JS := json_tree.tree_json) parse sample_peers.banned
             (Some (json_tree.print (bootstrap_props.peers_json (JS := json_tree.tree_json) sample_peers.peers)))) (bootstrap_peers.new true)) =
  sample_peers.peers.
Proof.
  apply (bootstrap_peers_round_trip (JS := json_tree.tree_json) parse sample_peers.banned true sample_peers.peers
    (json_tree.print (bootstrap_props.peers_json (JS := json_tree.tree_json) sample_peers.peers)) (bootstrap_props.peers_json (JS := json_tree.tree_json) sample_peers.peers)).
  - reflexivity.
  - repeat constructor; try discriminate; reflexivity.
  - repeat constructor.
  - discriminate.
  - reflexivity.
  - apply json_tree.read_print.
  - reflexivity.
Defined.
