(* ===== verification/Security.v ===== *)
(** * The Bluzelle key and signatures of peers

    [utils/crypto.cpp]: the public key is read from a contract in chunks of hex
    digits, signatures are decoded from base64 and checked with OpenSSL.  With
    [utils/blacklist.cpp] this is what [Raft] asks of [Security]. *)

From S2P Require Import Prelude Messages Json RaftLog Raft RaftProps Bootstrap RaftErrors.

(** OpenSSL.  [bio_read]: the bytes that a base64 filter reads from a text, none
    when it fails.  The three calls return the status they return in C. *)
Class RsaVerifier := {
  RSA : Type;
  PEM_read_bio_RSA_PUBKEY : string → option RSA;
  bio_read : string → option string;
  EVP_DigestVerifyInit : RSA → Z;
  EVP_DigestVerifyUpdate : RSA → string → Z;
  EVP_DigestVerifyFinal : RSA → string → string → Z;
  (** [fopen] and [PEM_read]: no file, no PEM data, or the type and the data *)
  PEM_file : string → option (option (string * string))
}.

Module crypto_utils.

(** ** Hexadecimal digits *)

Definition hex_digit (n : N) : ascii := ascii_of_N (if (n <? 10)%N then 48 + n else 87 + n)%N.

(** The last [w] digits of [n]. *)
Fixpoint hex_digits (w : nat) (n : N) : string :=
  match w with
  | O => ""
  | S w => hex_digits w (n / 16)%N ++ String (hex_digit (n mod 16)%N) ""
  end.

(** [setfill('0')] and [setw(64)]: a [size_t] has fewer digits. *)
Definition integer_to_32_byte_hex (index : N) : string := hex_digits 64 index.

(** [std::strtoul(s, nullptr, 16)] for a text that is too short to overflow. *)
Definition strtoul16 (s : string) : N := default 0%N (blacklist.stoul16 s).

Fixpoint break_lines (line_length i : N) (s : string) : string :=
  match s with
  | EmptyString => ""
  | String c s =>
      let r := String c (break_lines line_length (i + 1) s) in
      if (i mod line_length =? 0)%N then String "010" r else r
  end.

Definition insert_line_breaks (s : string) (line_length : N) : string := break_lines line_length 0 s.

(** [substr(i, 2)] for every other [i]; the last may be one digit. *)
Fixpoint decode_hex (s : string) : string :=
  match s with
  | EmptyString => ""
  | String a EmptyString => String (ascii_of_N (strtoul16 (String a "") mod 256)) ""
  | String a (String b s) => String (ascii_of_N (strtoul16 (String a (String b "")) mod 256)) (decode_hex s)
  end.

Definition hex_string_to_string (hex_string : string) : string := insert_line_breaks (decode_hex hex_string) 64.

(** ** The contract *)
Section Contract.
Context {JS : Jsoncpp} {W : Type}.
(** One POST changes the world; what is in the buffer afterwards, whether or not
    the transfer failed.  [rejected]: what a failed parse leaves in the value. *)
Context (perform : string → W → string * W) (rejected : string → Value).

Abbreviation contractM := (M W string).

Definition GET_KEY_SIZE : string := "0xcf5d53f1".
Definition GET_KEY_CHUNK : string := "0x96ce93e2".

(** [REQUEST_BASE % function_call]. *)
Definition post_fields (function_call : string) : string :=
  let q s := (blacklist.QUOTE ++ s ++ blacklist.QUOTE)%string in
  ("{" ++ q "jsonrpc" ++ ":" ++ q "2.0" ++ "," ++ q "method" ++ ":" ++ q "eth_call" ++ "," ++ q "params" ++ ":[{" ++
  q "to" ++ ":" ++ q "0x492CCD1eAeCDA0262e3AAeF8445F3F731a30AfbB" ++ "," ++ q "data" ++ ": " ++ q function_call ++
  " }," ++ q "latest" ++ "]," ++ q "id" ++ ":1}")%string.

(** The POST fields are recorded as an effect. *)
Definition get_curl_response (function_call : string) : contractM Value :=
  emit (post_fields function_call);;
  w ← gets id;
  let '(readBuffer, w') := perform (post_fields function_call) w in
  modify (λ _, w');;
  mret (match parse readBuffer with Some v => v | None => rejected readBuffer end).

Definition result_text (response : Value) : result string :=
  match member response "result" with Ok x => asString x | Throw e => Throw e | Undefined => Undefined end.

Definition get_public_pem_size : contractM N :=
  response ← get_curl_response GET_KEY_SIZE;
  match result_text response with
  | Ok s => mret (default 0%N (blacklist.stoul16 s))
  | Throw _ => mret 0%N
  | Undefined => undefined
  end.

(** [substr(2)]. *)
Definition drop2 (s : string) : result string :=
  match s with String _ (String _ s) => Ok s | _ => Throw "basic_string::substr" end.

Definition get_public_pem_chunk (index : N) : contractM string :=
  response ← get_curl_response (GET_KEY_CHUNK ++ integer_to_32_byte_hex index)%string;
  s ← lift (result_text response);
  lift (drop2 s).

(** The size is asked for on every turn, so only a contract that stops growing
    ends the loop. *)
Fixpoint read_chunks (fuel : nat) (index : N) (public_key_hex : string) : contractM string :=
  n ← get_public_pem_size;
  if (index <? n)%N then
    match fuel with
    | O => undefined
    | S fuel => line ← get_public_pem_chunk index; read_chunks fuel (add64 index 1) (public_key_hex ++ line)
    end
  else mret public_key_hex.

Definition BEGIN_PUBLIC_KEY : string := "-----BEGIN PUBLIC KEY-----".
Definition END_PUBLIC_KEY : string := String "010" "-----END PUBLIC KEY-----".

Definition retrieve_bluzelle_public_key_from_contract (fuel : nat) : contractM string :=
  public_key_hex ← read_chunks fuel 0 "";
  mret (BEGIN_PUBLIC_KEY ++ hex_string_to_string public_key_hex ++ END_PUBLIC_KEY)%string.

End Contract.

(** ** Signatures *)
Section Signatures.
Context {RV : RsaVerifier}.

(** [base64_input[i]]; past the terminating null character is undefined. *)
Definition char_at (s : string) (i : N) : result ascii :=
  if (i <=? strlen s)%N then Ok (default "000"%char (String.get (N.to_nat i) s)) else Undefined.

Definition calculate_decode_length (base64_input : string) : result N :=
  if bool_decide (base64_input = ""%string) then Ok 0%N
  else
    let len := strlen base64_input in
    match char_at base64_input (sub64 len 1) with
    | Ok c =>
        let length padding := sub64 (mul64 len 3 / 4) padding in
        if bool_decide (c = "="%char) then
          match char_at base64_input (sub64 len 2) with
          | Ok c' => Ok (length (if bool_decide (c' = "="%char) then 2 else 1)%N)
          | Throw e => Throw e
          | Undefined => Undefined
          end
        else Ok (length 1%N)
    | Throw e => Throw e
    | Undefined => Undefined
    end.

Fixpoint zeros (n : nat) : string := match n with O => "" | S n => String "000" (zeros n) end.

(** The status and the vector.  [resize] throws for more than [max_size];
    [BIO_read] may write as many bytes as the text has characters. *)
Definition base64_decode (base64_message : string) : result (N * string) :=
  if bool_decide (base64_message = ""%string) then Ok (1%N, ""%string)
  else
    match calculate_decode_length base64_message with
    | Ok decoded_length =>
        if (2 ^ 63 - 1 <? decoded_length)%N then Throw "vector::_M_default_append"
        else
          match bio_read base64_message with
          | None => Ok (1%N, zeros (N.to_nat decoded_length))
          | Some bytes =>
              if (decoded_length <? strlen bytes)%N then Undefined
              else Ok (if (strlen bytes =? decoded_length)%N then 0%N else 1%N,
                       (bytes ++ zeros (N.to_nat (decoded_length - strlen bytes)))%string)
          end
    | Throw e => Throw e
    | Undefined => Undefined
    end.

(** Whether the validation succeeded, and [is_authentic]. *)
Definition RSA_verify_signature (rsa : RSA) (signature : string) (u : string) : bool * bool :=
  if negb (EVP_DigestVerifyInit rsa =? 1)%Z then (false, false)
  else if negb (EVP_DigestVerifyUpdate rsa u =? 1)%Z then (false, false)
  else
    let auth_status := EVP_DigestVerifyFinal rsa u signature in
    if (auth_status =? 0)%Z || (auth_status =? 1)%Z then (true, (auth_status =? 1)%Z) else (false, false).

(** The status of [base64_decode] is ignored. *)
Definition verify_signature (public_key signature u : string) : result bool :=
  if bool_decide (public_key = ""%string) || bool_decide (signature = ""%string) || bool_decide (u = ""%string) then Ok false
  else match PEM_read_bio_RSA_PUBKEY public_key with
       | None => Ok false
       | Some public_rsa =>
           match base64_decode signature with
           | Ok (_, binary_signature) =>
               let '(ret_val, authentic) := RSA_verify_signature public_rsa binary_signature u in Ok (ret_val && authentic)
           | Throw e => Throw e
           | Undefined => Undefined
           end
       end.

(** [PEM_read] leaves the name uninitialized when it fails. *)
Definition read_pem_file (filename expected_type : string) : result string :=
  match PEM_file filename with
  | None => Throw ("Failed to read pem file: " ++ filename)
  | Some None => Undefined
  | Some (Some (name, data)) =>
      if negb (bool_decide (name = expected_type)) then
        Throw ("Expected to find a " ++ expected_type ++ " in " ++ filename ++ ", but found a " ++ name)
      else Ok data
  end.

End Signatures.
End crypto_utils.

(** ** What Raft is given *)

(** [w]: the world when a message is handled. *)
Definition contract_security {JS : Jsoncpp} {RV : RsaVerifier} {W : Type} (perform : string → W → string * W)
    (rejected : string → Value) (ask : string → option string) (failure : string) (fuel : nat) (w : W) : Security := {|
  retrieve_bluzelle_public_key_from_contract :=
    res (crypto_utils.retrieve_bluzelle_public_key_from_contract perform rejected fuel) w;
  verify_signature := crypto_utils.verify_signature;
  is_blacklisted := blacklist.is_blacklisted ask failure
|}.

(** ** Properties *)
Module crypto_utils_props.
Import crypto_utils.

(** *** The digits of a text *)

Fixpoint hex_of (s : string) : string :=
  match s with
  | EmptyString => ""
  | String c s => String (hex_digit (N_of_ascii c / 16)) (String (hex_digit (N_of_ascii c mod 16)) (hex_of s))
  end.

Lemma byte_hex c :
  strtoul16 (String (hex_digit (N_of_ascii c / 16)) (String (hex_digit (N_of_ascii c mod 16)) "")) = N_of_ascii c.
Proof. by destruct c as [[] [] [] [] [] [] [] []]. Qed.

Lemma decode_hex_of s t : decode_hex (hex_of s ++ t) = (s ++ decode_hex t)%string.
Proof.
  induction s as [|c s IH]; [done|]. cbn [hex_of]. change (String ?a (String ?b ?r) ++ t)%string with (String a (String b (r ++ t))).
  cbn [decode_hex]. rewrite byte_hex, N.mod_small by apply N_ascii_bounded. rewrite ascii_N_embedding. cbn. by rewrite IH.
Qed.

(** *** Lines *)

Definition NEWLINE : ascii := "010".

Fixpoint lines (s : string) : list string :=
  match s with
  | EmptyString => [""%string]
  | String c s =>
      if bool_decide (c = NEWLINE) then ""%string :: lines s
      else match lines s with [] => [String c ""] | l :: ls => String c l :: ls end
  end.

Fixpoint remove_breaks (s : string) : string :=
  match s with
  | EmptyString => ""
  | String c s => if bool_decide (c = NEWLINE) then remove_breaks s else String c (remove_breaks s)
  end.

Lemma remove_break_lines n i s : remove_breaks (break_lines n i s) = remove_breaks s.
Proof.
  revert i. induction s as [|c s IH]; intros i; [done|]. cbn [break_lines].
  destruct (i mod n =? 0)%N; cbn [remove_breaks]; case_bool_decide; by rewrite ?IH.
Qed.

(** The room that is left on the line before the character at [i]. *)
Definition room (n i : N) : N := if (i mod n =? 0)%N then 0%N else (n - i mod n)%N.

Lemma room_succ n i : (0 < n)%N → (room n (i + 1) + 1 = if i mod n =? 0 then n else room n i)%N.
Proof.
  intros Hn. unfold room. pose proof (N.mod_lt i n ltac:(lia)) as H.
  rewrite <-(N.Div0.add_mod_idemp_l i 1 n).
  destruct (N.eqb_spec (i mod n) 0) as [->|Hi].
  - destruct (N.eq_dec n 1) as [->|]; [done|]. rewrite N.mod_small by lia.
    replace (0 + 1 =? 0)%N with false by done. lia.
  - destruct (N.eq_dec (i mod n + 1) n) as [E|n0].
    + rewrite E, N.Div0.mod_same. replace (0 =? 0)%N with true by done. lia.
    + rewrite (N.mod_small (i mod n + 1)) by lia. revert H Hi n0. generalize (i mod n)%N as r. intros r ???.
      destruct (N.eqb_spec (r + 1) 0); lia.
Qed.

Lemma room_le n i : (room n i ≤ n)%N.
Proof. unfold room. generalize (i mod n)%N as r. intros r. destruct (r =? 0)%N; lia. Qed.

Lemma lines_break s : lines (String NEWLINE s) = ""%string :: lines s.
Proof. done. Qed.

Lemma lines_cons c s : c ≠ NEWLINE → ∃ l ls, lines s = l :: ls ∧ lines (String c s) = String c l :: ls.
Proof.
  intros Hc. assert (∃ l ls, lines s = l :: ls) as (l & ls & E).
  { destruct s as [|c' s]; cbn [lines]; [eauto|]. case_bool_decide; [eauto|]. destruct (lines s); eauto. }
  exists l, ls. split; [done|]. cbn [lines]. rewrite bool_decide_false by done. by rewrite E.
Qed.

Lemma break_lines_width n i s :
  (0 < n)%N →
  ∃ l ls, lines (break_lines n i s) = l :: ls ∧ (strlen l ≤ room n i)%N ∧ Forall (λ l, strlen l ≤ n)%N ls.
Proof.
  intros Hn. revert i. induction s as [|c s IH]; intros i; cbn [break_lines].
  { exists ""%string, []. split_and!; [done|apply N.le_0_l|by constructor]. }
  destruct (IH (i + 1)%N) as (l & ls & Hl & Hw & Hall). pose proof (room_succ n i Hn) as Hr.
  assert (∃ l ls, lines (String c (break_lines n (i + 1) s)) = l :: ls ∧
            (strlen l ≤ room n (i + 1) + 1)%N ∧ Forall (λ l, strlen l ≤ n)%N ls) as (l' & ls' & Hl' & Hw' & Hall').
  { destruct (decide (c = NEWLINE)) as [->|Hc].
    - exists ""%string, (l :: ls). cbn [lines]. rewrite bool_decide_true, Hl by done.
      pose proof (room_le n (i + 1)).
      split_and!; [done|apply N.le_0_l|constructor; [lia|done]].
    - destruct (lines_cons c (break_lines n (i + 1) s) Hc) as (l' & ls' & E & ->). rewrite Hl in E. simplify_eq.
      eexists _, _. split_and!; [done|unfold strlen in *; cbn [String.length]; lia|done]. }
  unfold room in Hr |- *. destruct (i mod n =? 0)%N eqn:E; cbn zeta.
  - exists ""%string, (l' :: ls'). rewrite (lines_break (String c _)), Hl'.
    split_and!; [done..|]. constructor; [|done]. by rewrite <-Hr.
  - exists l', ls'. split_and!; [done| |done]. by rewrite <-Hr.
Qed.

Definition concat_strings (cs : list string) : string := foldr String.append ""%string cs.

(** *** A contract that holds the chunks of a key *)
Section Contract.
Context {JS : Jsoncpp} {W : Type}.
Context (perform : string → W → string * W) (rejected : string → Value).

Abbreviation contractM := (M W string).

(** The reply to a call has the member ["result"] with this text. *)
Definition replies (w : W) (function_call : string) (t : string) : Prop :=
  ∃ v, parse (perform (post_fields function_call) w).1 = Some v ∧ result_text v = Ok t.

(** In the worlds [I], which calls do not leave. *)
Record holds_key (I : W → Prop) (chunks : list string) : Prop := {
  holds_size w : I w → ∃ t, replies w GET_KEY_SIZE t ∧ blacklist.stoul16 t = Some (lengthN chunks);
  holds_chunk w i c : I w → chunks !! N.to_nat i = Some c →
    replies w (GET_KEY_CHUNK ++ integer_to_32_byte_hex i)%string ("0x" ++ hex_of c);
  holds_on w request : I w → I (perform request w).2
}.

Context (I : W → Prop) (chunks : list string) (HI : holds_key I chunks).

Lemma response_replies w call t :
  I w → replies w call t →
  ∃ v w', res (get_curl_response perform rejected call) w = Ok v ∧ post (get_curl_response perform rejected call) w = w' ∧
          result_text v = Ok t ∧ I w'.
Proof using HI.
  intros Hw (v & Hv & Ht). exists v, (perform (post_fields call) w).2. unfold get_curl_response.
  rewrite res_bind, post_bind, res_emit, post_emit, res_bind, post_bind, res_gets, post_gets. cbn [id].
  destruct (perform (post_fields call) w) as [text w'] eqn:E. cbn [fst snd] in *. rewrite Hv.
  rewrite res_bind, post_bind, res_modify, post_modify, res_ret, post_ret. split_and!; [done..|].
  replace w' with (perform (post_fields call) w).2 by by rewrite E. by eapply holds_on.
Qed.

Lemma size_replies w :
  I w → ∃ w', res (get_public_pem_size perform rejected) w = Ok (lengthN chunks) ∧
              post (get_public_pem_size perform rejected) w = w' ∧ I w'.
Proof using HI.
  intros Hw. destruct (holds_size _ _ HI w Hw) as (t & Ht & Hn).
  destruct (response_replies w GET_KEY_SIZE t Hw Ht) as (v & w' & Hr & Hp & Hv & Hw').
  exists w'. unfold get_public_pem_size. rewrite res_bind, post_bind, Hr, Hp, Hv, Hn. done.
Qed.

Lemma chunk_replies w i c :
  I w → chunks !! N.to_nat i = Some c →
  ∃ w', res (get_public_pem_chunk perform rejected i) w = Ok (hex_of c) ∧
        post (get_public_pem_chunk perform rejected i) w = w' ∧ I w'.
Proof using HI.
  intros Hw Hc. pose proof (holds_chunk _ _ HI w i c Hw Hc) as Ht.
  destruct (response_replies w _ _ Hw Ht) as (v & w' & Hr & Hp & Hv & Hw').
  exists w'. unfold get_public_pem_chunk. rewrite res_bind, post_bind, Hr, Hp, res_bind, post_bind, Hv, res_lift, post_lift.
  by rewrite res_lift, post_lift.
Qed.

Lemma chunks_read fuel w i hex :
  (lengthN chunks < 2 ^ 64)%N → I w → length chunks ≤ N.to_nat i + fuel → (i ≤ lengthN chunks)%N →
  res (read_chunks perform rejected fuel i hex) w = Ok (hex ++ concat_strings (hex_of <$> drop (N.to_nat i) chunks))%string.
Proof using HI.
  intros Hlt. revert w i hex. induction fuel as [|fuel IH]; intros w i hex Hw Hf Hi; cbn [read_chunks];
    destruct (size_replies w Hw) as (w1 & Hr1 & Hp1 & Hw1); rewrite res_bind, Hr1, Hp1.
  1: assert (i = lengthN chunks) as -> by (unfold lengthN in *; lia).
  2: destruct (decide (i = lengthN chunks)) as [->|Hne].
  1-2: rewrite N.ltb_irrefl; unfold lengthN; rewrite Nat2N.id, drop_all; cbn; by rewrite string_app_nil_r.
  rewrite (proj2 (N.ltb_lt i (lengthN chunks))) by lia.
  destruct (lookup_lt_is_Some_2 chunks (N.to_nat i)) as [c Hc]; [unfold lengthN in *; lia|].
  destruct (chunk_replies w1 i c Hw1 Hc) as (w2 & Hr2 & Hp2 & Hw2). rewrite res_bind, Hr2, Hp2.
  rewrite add64_small by lia. rewrite IH; [|done|lia|lia]. f_equal. rewrite (drop_S chunks c (N.to_nat i)) by done.
  replace (N.to_nat (i + 1)) with (S (N.to_nat i)) by lia. cbn. by rewrite string_app_assoc.
Qed.

Lemma decode_chunks cs : decode_hex (concat_strings (hex_of <$> cs)) = concat_strings cs.
Proof.
  induction cs as [|c cs IH]; [done|].
  change (decode_hex (hex_of c ++ concat_strings (hex_of <$> cs)) = (c ++ concat_strings cs)%string).
  by rewrite decode_hex_of, IH.
Qed.

End Contract.

(** *** The buffer for base64 *)
Section Buffer.
Context {RV : RsaVerifier}.

(** The number of padding characters at the end. *)
Definition padding (text : string) : N :=
  let ends i := bool_decide (String.get (String.length text - i) text = Some "="%char) in
  if ends 1 then if ends 2 then 2%N else 1%N else 0%N.

Lemma padding_bound text : (padding text ≤ 2)%N.
Proof. unfold padding. by repeat case_match. Qed.

Lemma get_lt s n : n < String.length s → ∃ c, String.get n s = Some c.
Proof.
  revert n. induction s as [|c s IH]; intros n Hn; cbn in Hn; [lia|].
  destruct n as [|n]; cbn; [eauto|]. apply IH. lia.
Qed.

Lemma char_from_end text i :
  (0 < i)%N → (i ≤ strlen text < 2 ^ 64)%N →
  ∃ c, char_at text (sub64 (strlen text) i) = Ok c ∧ String.get (String.length text - N.to_nat i) text = Some c.
Proof.
  intros Hi Hlen. unfold char_at. rewrite sub64_small, (proj2 (N.leb_le _ _)) by lia.
  replace (N.to_nat (strlen text - i)) with (String.length text - N.to_nat i) by (unfold strlen; lia).
  assert (String.length text - N.to_nat i < String.length text) as H by (unfold strlen in *; lia).
  destruct (get_lt text _ H) as [c E]. exists c. by rewrite E.
Qed.

Lemma decode_length_groups text k :
  (0 < k < 2 ^ 60)%N → strlen text = (4 * k)%N →
  calculate_decode_length text = Ok (3 * k - N.max 1 (padding text))%N.
Proof.
  intros Hk Hlen. unfold calculate_decode_length.
  rewrite bool_decide_false by (intros ->; unfold strlen in Hlen; cbn in Hlen; lia).
  destruct (char_from_end text 1) as (c1 & E1 & G1); [lia..|].
  destruct (char_from_end text 2) as (c2 & E2 & G2); [lia..|].
  unfold padding. rewrite E1, E2. cbv zeta. change (N.to_nat 1) with 1 in G1. change (N.to_nat 2) with 2 in G2. rewrite G1, G2.
  unfold mul64. rewrite Hlen, u64_small by lia. replace (4 * k * 3 / 4)%N with (3 * k)%N
    by (replace (4 * k * 3)%N with (3 * k * 4)%N by lia; by rewrite N.div_mul).
  assert (∀ c, bool_decide (Some c = Some "="%char) = bool_decide (c = "="%char)) as Hsome
    by (intros c; apply bool_decide_ext; naive_solver).
  rewrite !Hsome. repeat case_bool_decide; by rewrite sub64_small by lia.
Qed.

Lemma decode_one_character c : c ≠ "="%char → base64_decode (String c "") = Throw "vector::_M_default_append".
Proof.
  by destruct c as [[] [] [] [] [] [] [] []].
Qed.

(** What a signature that was accepted went through. *)
Lemma verified_signature pk sig u :
  verify_signature pk sig u = Ok true →
  ∃ rsa status bytes, PEM_read_bio_RSA_PUBKEY pk = Some rsa ∧ base64_decode sig = Ok (status, bytes) ∧
                      EVP_DigestVerifyFinal rsa u bytes = 1%Z.
Proof.
  unfold verify_signature, RSA_verify_signature. destruct (_ || _ || _); [done|].
  destruct (PEM_read_bio_RSA_PUBKEY pk) as [rsa|]; [|done]. destruct (base64_decode sig) as [[status bytes]| |]; [|done..].
  intros H. exists rsa, status, bytes. split_and!; [done..|]. revert H.
  destruct (negb (_ =? 1)%Z); [done|]. destruct (negb (_ =? 1)%Z); [done|].
  destruct (Z.eqb_spec (EVP_DigestVerifyFinal rsa u bytes) 1); [done|]. by destruct (_ || _).
Qed.

(** A padded text of whole groups, of which the filter reads no more than they hold. *)
Definition fits_buffer (text : string) : Prop :=
  ∃ k, (0 < k < 2 ^ 60)%N ∧ strlen text = (4 * k)%N ∧ padding text ≠ 0%N ∧
       ∀ bytes, bio_read text = Some bytes → (strlen bytes ≤ 3 * k - padding text)%N.

Lemma decode_fits text : fits_buffer text → ∃ r, base64_decode text = Ok r.
Proof.
  intros (k & Hk & Hlen & Hpad & Hread). unfold base64_decode.
  rewrite bool_decide_false by (intros ->; unfold strlen in Hlen; cbn in Hlen; lia).
  rewrite (decode_length_groups text k) by done. pose proof (padding_bound text).
  rewrite (proj2 (N.ltb_ge _ _)) by lia. destruct (bio_read text) as [bytes|]; [|by eexists].
  specialize (Hread bytes eq_refl). rewrite (proj2 (N.ltb_ge _ _)) by lia. by eexists.
Qed.

Lemma verify_fits key sig u : fits_buffer sig → ∃ b, verify_signature key sig u = Ok b.
Proof.
  intros [[status bytes] Hd]%decode_fits. unfold verify_signature. destruct (_ || _ || _); [by eexists|].
  destruct (PEM_read_bio_RSA_PUBKEY key) as [rsa|]; [|by eexists]. rewrite Hd.
  destruct (RSA_verify_signature rsa bytes u). by eexists.
Qed.

End Buffer.

(** The checks give Raft what it relies on, when the contract holds a key. *)
Section Throws.
Context {JS : Jsoncpp} {RV : RsaVerifier} {W : Type}.
Context (perform : string → W → string * W) (rejected : string → Value) (ask : string → option string) (failure : string).
Context (I : W → Prop) (chunks : list string) (fuel : nat) (w : W).
Hypotheses (HI : holds_key perform I chunks) (Hw : I w) (Hn : (lengthN chunks < 2 ^ 64)%N) (Hf : length chunks ≤ fuel).

#[refine] Definition contract_throws : SecurityThrows (SE := contract_security perform rejected ask failure fuel w) := {|
  security_error e := e = ("curl_easy_perform() failed in whitelist: " ++ failure)%string;
  checkable := fits_buffer
|}.
Proof using HI Hw Hn Hf.
  - cbn. unfold crypto_utils.retrieve_bluzelle_public_key_from_contract. rewrite res_bind.
    by rewrite (chunks_read perform rejected I chunks HI) by (done || lia).
  - intros key sig u [b Hb]%(verify_fits key sig u). cbn. by rewrite Hb.
  - intros u. cbn. unfold blacklist.is_blacklisted. repeat case_match; done.
Defined.
End Throws.
End crypto_utils_props.

(** ** Peers that join *)
Module admission.
Import raft raft_props.

Section Admission.
Context {JS : Jsoncpp} {BO : Boost} {SE : Security} {MA : Message audit_message}.
Context (iteration : list peer_address_t → list peer_address_t).

(** The uuid of the peer is signed under the key, and this node is not banned. *)
Definition vouched (peer : Value) (s : raft) : Prop :=
  ∃ u sig pk, res (get_string ["uuid"%string] peer) s = Ok u ∧ retrieve_bluzelle_public_key_from_contract = Ok pk ∧
              verify_signature pk sig (u ++ String "010" "") = Ok true ∧ is_blacklisted (uuid s) = Ok false.

Lemma has_peer_pure ps u : pure_method (has_peer ps u : M raft effect bool).
Proof.
  induction ps as [|p ps IH]; cbn [has_peer]; [unfold pure_method; respects_steps|].
  apply pure_bind; [apply pure_get_string|]. intros x. by destruct (decide (x = u)).
Qed.

Lemma pure_validate session peer : pure_method (validate_new_peer session peer).
Proof.
  unfold validate_new_peer, send_session_error_message, pure_method.
  repeat first [apply pure_get_string|respects_step].
Qed.

Lemma validate_vouched session peer s : res (validate_new_peer session peer) s = Ok true → vouched peer s.
Proof.
  assert (∀ A (r : result A), pure_method (lift r : M raft effect A)) as Hlift by (intros A r; by apply respects_lift, _).
  unfold validate_new_peer, send_session_error_message.
  intros (u & Hu & H)%returned_bind; [|apply pure_get_string]. revert H.
  intros (b & _ & H)%returned_bind; [|done]. revert H.
  intros (sig & _ & H)%returned_bind; [|destruct b; [apply pure_get_string|by apply respects_ret, _]]. revert H.
  destruct (negb b || _); [by run_simpl|].
  intros (pk & Hpk & H)%returned_bind; [|done]. revert H.
  intros (v & Hv & H)%returned_bind; [|done]. revert H. destruct v; cbn [negb]; [|by run_simpl].
  intros (me & Hme & H)%returned_bind; [|by apply respects_gets, _]. revert H.
  intros (banned & Hb & H)%returned_bind; [|done]. revert H. destruct banned; [by run_simpl|]. intros _.
  rewrite res_gets in Hme. rewrite res_lift in Hpk. rewrite res_lift in Hv. rewrite res_lift in Hb. simplify_eq.
  by exists u, sig, pk.
Qed.

(** The log grows only behind the validation. *)
Lemma add_peer_vouched session peer s :
  enable_peer_validation s = true → log (post (handle_add_peer session peer) s) ≠ log s → vouched peer s.
Proof.
  intros Hon. unfold handle_add_peer, send_session_error_message.
  assert (∀ A (m : M raft effect A), pure_method m → log (post m s) = log s) as Hpure by (intros A m Hm; by rewrite <-Hm).
  intros (st & _ & H)%changed_bind; [|by apply respects_gets, _]. revert H.
  destruct (negb _); [by rewrite Hpure by (apply respects_emit, _)|].
  intros (e & _ & H)%changed_bind; [|unfold last_quorum, pure_method; respects_steps]. revert H.
  destruct (decide _); [by rewrite Hpure by (apply respects_emit, _)|].
  intros (ps & _ & H)%changed_bind; [|apply pure_path]. revert H.
  intros (u & _ & H)%changed_bind; [|destruct (elements ps); [by apply respects_ret, _|apply pure_get_string]]. revert H.
  intros (known & _ & H)%changed_bind; [|apply has_peer_pure]. revert H.
  destruct known; [by rewrite Hpure by (apply respects_emit, _)|].
  intros (b & _ & H)%changed_bind; [|by apply respects_lift, _]. revert H.
  intros (u' & _ & H)%changed_bind; [|destruct b; [apply pure_get_string|by apply respects_ret, _]]. revert H.
  destruct (negb b || _); [by rewrite Hpure by (apply respects_emit, _)|].
  intros (v & Hv & H)%changed_bind; [|by apply respects_gets, _]. revert H.
  rewrite res_gets in Hv. simplify_eq. rewrite Hon.
  intros (v & Hv & H)%changed_bind; [|apply pure_validate]. revert H.
  destruct v; [by intros _; eapply validate_vouched|done].
Qed.

End Admission.
End admission.

(** ** Claims *)

Section Claims.
Import crypto_utils crypto_utils_props.

(** Whatever world the call starts in, as long as the contract holds the key
    (it replies with the number of chunks and with each chunk as hex digits), the
    loop over the chunks ends, and the key that is returned is the text of the
    chunks in order between the PEM lines: without line breaks it is that text,
    and no line of it is longer than 64 characters. *)
Theorem public_key_round_trip {JS : Jsoncpp} {W : Type} (perform : string → W → string * W) (rejected : string → Value)
    (I : W → Prop) (chunks : list string) (w : W) (fuel : nat) :
  holds_key perform I chunks → I w → (lengthN chunks < 2 ^ 64)%N → length chunks ≤ fuel →
  ∃ body,
    res (crypto_utils.retrieve_bluzelle_public_key_from_contract perform rejected fuel) w =
      Ok (BEGIN_PUBLIC_KEY ++ body ++ END_PUBLIC_KEY)%string ∧
    remove_breaks body = remove_breaks (concat_strings chunks) ∧ Forall (λ l, strlen l ≤ 64)%N (lines body).
Proof.
  intros HI Hw Hlt Hf. exists (insert_line_breaks (concat_strings chunks) 64). split_and!.
  - unfold crypto_utils.retrieve_bluzelle_public_key_from_contract.
    rewrite res_bind, (chunks_read perform rejected I chunks HI) by (done || lia).
    rewrite res_ret. change (N.to_nat 0) with 0%nat. rewrite drop_0. unfold hex_string_to_string.
    change ("" ++ ?x)%string with x. by rewrite decode_chunks.
  - apply remove_break_lines.
  - destruct (break_lines_width 64 0 (concat_strings chunks)) as (l & ls & Hl & Hw0 & Hall); [done|].
    unfold insert_line_breaks. rewrite Hl. constructor; [|done]. change (room 64 0) with 0%N in Hw0. lia.
Qed.

(** C40: The buffer that [base64_decode] allocates: for a text of whole groups of
    four characters, of which the filter reads three bytes each, less one for each
    padding character, the bytes fit exactly when the text is padded and are
    returned with the status 0; without padding one byte is written past the
    buffer.  A single character makes the size wrap around, and the call throws. *)
Theorem base64_decode_bounds {RV : RsaVerifier} :
  (∀ text bytes k,
     (0 < k < 2 ^ 60)%N → strlen text = (4 * k)%N →
     bio_read text = Some bytes → strlen bytes = (3 * k - padding text)%N →
     crypto_utils.base64_decode text = if (padding text =? 0)%N then Undefined else Ok (0%N, bytes)) ∧
  (∀ c, c ≠ "="%char → crypto_utils.base64_decode (String c "") = Throw "vector::_M_default_append").
Proof.
  split; [|intros c Hc; apply decode_one_character, Hc].
  intros text bytes k Hk Hlen Hread Hbytes. unfold crypto_utils.base64_decode.
  rewrite bool_decide_false by (intros ->; unfold strlen in Hlen; cbn in Hlen; lia).
  rewrite (decode_length_groups text k) by done. pose proof (padding_bound text) as Hp.
  rewrite (proj2 (N.ltb_ge _ _)) by lia. rewrite Hread, Hbytes.
  destruct (N.eqb_spec (padding text) 0) as [->|Hpad].
  - rewrite (proj2 (N.ltb_lt _ _)) by lia. done.
  - rewrite (proj2 (N.ltb_ge _ _)), (proj2 (N.eqb_eq _ _)) by lia. f_equal. f_equal.
    replace (N.to_nat _) with 0%nat by lia. apply string_app_nil_r.
Qed.

(** C25: With peer validation on, a leader extends its log for a new peer only when
    the key of the contract and the PEM reader give an RSA key under which OpenSSL
    accepts a signature of the peer's uuid and a line break, and this node itself
    is not on the black list. *)
Theorem raft_admits_signed_peers {JS : Jsoncpp} {BO : Boost} {MA : Message audit_message} {RV : RsaVerifier} {W : Type}
    (iteration : list peer_address_t → list peer_address_t) (perform : string → W → string * W)
    (rejected : string → Value) (ask : string → option string) (failure : string) (fuel : nat) (w : W)
    (session : session_id) (peer : Value) (s : raft.raft) :
  let SE := contract_security perform rejected ask failure fuel w in
  raft.enable_peer_validation s = true →
  raft.log (post (raft.handle_add_peer session peer) s) ≠ raft.log s →
  ∃ u pk rsa signature status bytes,
    res (raft.get_string ["uuid"%string] peer) s = Ok u ∧
    res (crypto_utils.retrieve_bluzelle_public_key_from_contract perform rejected fuel) w = Ok pk ∧
    PEM_read_bio_RSA_PUBKEY pk = Some rsa ∧ crypto_utils.base64_decode signature = Ok (status, bytes) ∧
    EVP_DigestVerifyFinal rsa (u ++ String "010" "") bytes = 1%Z ∧
    blacklist.is_blacklisted ask failure (raft.uuid s) = Ok false.
Proof.
  intros SE Hon Hlog. destruct (admission.add_peer_vouched (SE := SE) session peer s Hon Hlog) as (u & sig & pk & Hu & Hpk & Hv & Hb).
  destruct (verified_signature pk sig _ Hv) as (rsa & status & bytes & Hrsa & Hdec & Hfinal).
  by exists u, pk, rsa, sig, status, bytes.
Qed.
End Claims.

(** *** Examples: a contract with the key "abcd", and a verifier that accepts "ok" *)
Module sample_contract.
Import json_tree letters raft_log raft raft_props sample_swarm crypto_utils crypto_utils_props.

Definition reply (t : string) : string := print (Obj [("result"%string, Str t)]).

Definition chunks : list string := ["ab"; "cd"]%string.

Definition perform (request : string) (w : unit) : string * unit :=
  (if bool_decide (request = post_fields GET_KEY_SIZE) then reply "0x2"
   else if bool_decide (request = post_fields (GET_KEY_CHUNK ++ integer_to_32_byte_hex 0)) then reply ("0x" ++ hex_of "ab")
   else reply ("0x" ++ hex_of "cd"), w).

#[export] Instance verifier : RsaVerifier := {|
  RSA := string;
  PEM_read_bio_RSA_PUBKEY := Some;
  bio_read t :=
    if bool_decide (t = "b2s="%string) then Some "ok"%string
    else if bool_decide (t = "b2tvaw=="%string) then Some "okok"%string
    else if bool_decide (t = "b2tv"%string) then Some "oko"%string else None;
  EVP_DigestVerifyInit _ := 1%Z;
  EVP_DigestVerifyUpdate _ _ := 1%Z;
  EVP_DigestVerifyFinal _ _ bytes := if bool_decide (bytes = "ok"%string) then 1%Z else 0%Z;
  PEM_file _ := None
|}.

Lemma replies_text f t (w : unit) :
  (perform (post_fields f) w).1 = reply t → replies (JS := tree_json) perform w f t.
Proof. intros H. unfold replies. rewrite H. exists (Obj [("result"%string, Str t)]). split; [apply read_print|done]. Qed.

Lemma holds : holds_key (JS := tree_json) perform (λ _, True) chunks.
Proof.
  split; [|intros w i c _|done].
  - intros w _. exists "0x2"%string. split; [by apply replies_text|done].
  - intros Hc. apply replies_text. assert (i = 0 ∨ i = 1)%N as [-> | ->]; [|injection Hc as <-; vm_compute; reflexivity..].
    apply lookup_lt_Some in Hc. cbn in Hc. lia.
Qed.

Definition ask (request : string) : option string := Some (reply "0x0").

Definition security : Security :=
  contract_security (JS := tree_json) perform (λ _, Null) ask "" 2 tt.

(** A leader that validates peers. *)
Definition guarded_node : raft :=
  match new [peer "a"; peer "b"; peer "c"] "a" 10000 true "" None (Disk None true true) with
  | Ok s => (run (BO := letters_boost) (SE := security) (MA := no_audit) id election s).1
  | _ => node "a"
  end.

Definition joining : Value :=
  Obj [("host", Str "4"); ("port", UInt 80); ("http_port", UInt 81); ("name", Str "d"); ("uuid", Str "d");
       ("signature", Str "b2s=")]%string.

Lemma joining_uuid s : res (get_string (JS := tree_json) ["uuid"%string] joining) s = Ok "d"%string.
Proof. done. Qed.

Definition grows : bool :=
  enable_peer_validation guarded_node &&
  negb (Nat.eqb
    (length (log_entries (log
      (post (handle_add_peer (BO := letters_boost) (SE := security) 1 joining) guarded_node))))
    (length (log_entries (log guarded_node)))).

Lemma sample_grows : grows = true.
Proof. vm_compute. reflexivity. Qed.

Lemma longer_log (l l' : raft_log) : negb (Nat.eqb (length (log_entries l)) (length (log_entries l'))) = true → l ≠ l'.
Proof. intros H ->. by rewrite Nat.eqb_refl in H. Qed.

Lemma grows_spec :
  grows = true → enable_peer_validation guarded_node = true ∧
  log (post (handle_add_peer (BO := letters_boost) (SE := security) 1 joining) guarded_node) ≠ log guarded_node.
Proof.
  unfold grows. intros [Hon Hn]%andb_true_iff. exact (conj Hon (longer_log _ _ Hn)).
Qed.
End sample_contract.

Example public_key_round_trip_witness :
  ∃ body,
    res (crypto_utils.retrieve_bluzelle_public_key_from_contract (JS := json_tree.tree_json) sample_contract.perform
           (λ _, json_tree.Null) 2) tt =
      Ok (crypto_utils.BEGIN_PUBLIC_KEY ++ body ++ crypto_utils.END_PUBLIC_KEY)%string ∧
    crypto_utils_props.remove_breaks body = "abcd"%string ∧
    Forall (λ l, strlen l ≤ 64)%N (crypto_utils_props.lines body).
Proof.
  apply (public_key_round_trip (JS := json_tree.tree_json) sample_contract.perform (λ _, json_tree.Null) (λ _, True)
    sample_contract.chunks tt 2).
  - apply sample_contract.holds.
  - done.
  - reflexivity.
  - cbn. lia.
Defined.

Example base64_decode_bounds_witness :
  crypto_utils.base64_decode (RV := sample_contract.verifier) "b2s=" = Ok (0%N, "ok"%string) ∧
  crypto_utils.base64_decode (RV := sample_contract.verifier) "b2tvaw==" = Ok (0%N, "okok"%string) ∧
  crypto_utils.base64_decode (RV := sample_contract.verifier) "b2tv" = Undefined ∧
  crypto_utils.base64_decode (RV := sample_contract.verifier) "b" = Throw "vector::_M_default_append".
Proof.
  destruct (base64_decode_bounds (RV := sample_contract.verifier)) as [Hgroups Hone]. split_and!.
  - by rewrite (Hgroups "b2s="%string "ok"%string 1%N) by done.
  - by rewrite (Hgroups "b2tvaw=="%string "okok"%string 2%N) by done.
  - by rewrite (Hgroups "b2tv"%string "oko"%string 1%N) by done.
  - by apply Hone.
Defined.

Example raft_admits_signed_peers_witness :
  ∃ pk rsa signature status bytes,
    res (crypto_utils.retrieve_bluzelle_public_key_from_contract (JS := json_tree.tree_json) sample_contract.perform
           (λ _, json_tree.Null) 2) tt = Ok pk ∧
    PEM_read_bio_RSA_PUBKEY (RsaVerifier := sample_contract.verifier) pk = Some rsa ∧
    crypto_utils.base64_decode (RV := sample_contract.verifier) signature = Ok (status, bytes) ∧
    EVP_DigestVerifyFinal (RsaVerifier := sample_contract.verifier) rsa
      (String "d" (String "010" "")) bytes = 1%Z.
Proof.
  destruct (sample_contract.grows_spec sample_contract.sample_grows) as [Hon Hlog].
  destruct (raft_admits_signed_peers (JS := json_tree.tree_json) (BO := letters.letters_boost) (MA := sample_swarm.no_audit)
    (RV := sample_contract.verifier) id sample_contract.perform (λ _, json_tree.Null) sample_contract.ask "" 2 tt 1
    sample_contract.joining sample_contract.guarded_node Hon Hlog) as (u & pk & rsa & sig & status & bytes & Hu & Hpk & Hrsa & Hd & Hf & _).
  rewrite sample_contract.joining_uuid in Hu. injection Hu as <-.
  exists pk, rsa, sig, status, bytes. exact (conj Hpk (conj Hrsa (conj Hd Hf))).
Defined.
