(* ===== verification/Options.v ===== *)
(** * Options

    [options/simple_options.cpp] declares the options, reads them from the
    configuration file that the command line names, and validates them;
    [options/options.cpp] has a getter for each.  boost::program_options is a
    parameter with its documented behaviour ([ProgramOptions]). *)

From S2P Require Import Prelude Messages Json RaftLog Bootstrap Security.
From Stdlib Require Import QArith.
#[local] Close Scope Q_scope.
#[local] Open Scope stdpp_scope.

(** ** Typed values *)

(** [T] of [po::value<T>] and of [get<T>]. *)
Inductive value_type := t_string | t_uint16 | t_uint | t_uint64 | t_size | t_bool | t_double.

#[export] Instance value_type_eq_dec : EqDecision value_type.
Proof. solve_decision. Defined.

Definition denote (t : value_type) : Type :=
  match t with
  | t_string => string
  | t_uint16 | t_uint | t_uint64 | t_size => N
  | t_bool => bool
  | t_double => Q
  end.

(** [boost::any]. *)
Record any := Any { any_type : value_type; any_value : denote any_type }.

Definition any_cast (t : value_type) (a : any) : result (denote t) :=
  match decide (any_type a = t) with
  | left e => Ok (eq_rect _ denote (any_value a) t e)
  | right _ => Throw "boost::bad_any_cast: failed conversion using boost::any_cast"
  end.

(** [T()]. *)
Definition zero (t : value_type) : denote t :=
  match t with
  | t_string => ""%string
  | t_uint16 | t_uint | t_uint64 | t_size => 0%N
  | t_bool => false
  | t_double => 0%Q
  end.

Lemma any_cast_same (t : value_type) (a : any) : any_type a = t → ∃ x, any_cast t a = Ok x.
Proof. intros <-. unfold any_cast. destruct (decide _) as [e|]; [eauto|done]. Qed.

(** One line of [add_options()]. *)
Record option_description := OptionDescription {
  long_name : string;
  semantic : value_type;
  default_value : option (denote semantic);
  required : bool
}.

(** ** boost::program_options *)

(** [lookup vm name]: the value and [defaulted()], none when [count] is 0.
    [find_nothrow] throws when the name is ambiguous. *)
Class ProgramOptions := {
  variables_map : Type;
  no_variables : variables_map;
  lookup_variable : string → variables_map → option (any * bool);
  erase_variable : string → variables_map → variables_map;
  find_nothrow : list option_description → string → result bool;
  store : list option_description → list (string * string) → variables_map → result variables_map;
  notify : list option_description → variables_map → result unit
}.

(** What is in the map was put there by [store], which converts a value to the
    type of an option with its name and adds the defaults; [notify] throws when a
    required option is missing. *)
Class ProgramOptionsLaws `{!ProgramOptions} : Prop := {
  no_variable name : lookup_variable name no_variables = None;
  store_typed ds os vm vm' name a d :
    store ds os vm = Ok vm' → lookup_variable name vm' = Some (a, d) →
    lookup_variable name vm = Some (a, d) ∨ ∃ o, o ∈ ds ∧ long_name o = name ∧ any_type a = semantic o;
  store_defaults ds os vm vm' o :
    store ds os vm = Ok vm' → o ∈ ds → default_value o ≠ None → is_Some (lookup_variable (long_name o) vm');
  notify_required ds vm o :
    notify ds vm = Ok tt → o ∈ ds → required o = true → is_Some (lookup_variable (long_name o) vm)
}.

(** Two more members of [Json::Value]. *)
Class JsonMembers {JS : Jsoncpp} := {
  isObject : Value → bool;
  getMemberNames : Value → list string
}.

(** ** The names *)
Module option_names.
Definition AUDIT_MEM_SIZE : string := "audit_mem_size".
Definition AUDIT_ENABLED : string := "audit_enabled".
Definition BOOTSTRAP_PEERS_FILE : string := "bootstrap_file".
Definition BOOTSTRAP_PEERS_URL : string := "bootstrap_url".
Definition DEBUG_LOGGING : string := "debug_logging".
Definition ETHERERUM_IO_API_TOKEN : string := "ethereum_io_api_token".
Definition ETHERERUM : string := "ethereum".
Definition HTTP_PORT : string := "http_port".
Definition LISTENER_ADDRESS : string := "listener_address".
Definition LISTENER_PORT : string := "listener_port".
Definition LOG_TO_STDOUT : string := "log_to_stdout".
Definition LOGFILE_DIR : string := "logfile_dir".
Definition LOGFILE_MAX_SIZE : string := "logfile_max_size".
Definition LOGFILE_ROTATION_SIZE : string := "logfile_rotation_size".
Definition MAX_STORAGE : string := "max_storage".
Definition MEM_STORAGE : string := "mem_storage".
Definition MONITOR_ADDRESS : string := "monitor_address".
Definition MONITOR_PORT : string := "monitor_port".
Definition NODE_UUID : string := "uuid".
Definition NODE_PUBKEY_FILE : string := "public_key_file".
Definition NODE_PRIVATEKEY_FILE : string := "private_key_file".
Definition PBFT_ENABLED : string := "use_pbft".
Definition STATE_DIR : string := "state_dir".
Definition WS_IDLE_TIMEOUT : string := "ws_idle_timeout".
Definition PEER_VALIDATION_ENABLED : string := "peer_validation_enabled".
Definition SIGNED_KEY : string := "signed_key".
Definition CHAOS_ENABLED : string := "chaos_testing_enabled".
Definition CHAOS_NODE_FAILURE_SHAPE : string := "chaos_node_failure_shape".
Definition CHAOS_NODE_FAILURE_SCALE : string := "chaos_node_failure_scale_hours".
Definition CHAOS_MESSAGE_DROP_CHANCE : string := "chaos_message_drop_chance".
Definition CHAOS_MESSAGE_DELAY_CHANCE : string := "chaos_message_delay_chance".
Definition CHAOS_MESSAGE_DELAY_TIME : string := "chaos_message_delay_time_milliseconds".
Definition CRYPTO_ENABLED_OUTGOING : string := "crypto_enabled_outgoing".
Definition CRYPTO_ENABLED_INCOMING : string := "crypto_enabled_incoming".
End option_names.

(** ** The simple options *)
Module simple_options.
Import option_names.

Definition DEFAULT_CONFIG_FILE : string := "bluzelle.json".

Definition optional (name : string) (t : value_type) : option_description := OptionDescription name t None false.
Definition mandatory (name : string) (t : value_type) : option_description := OptionDescription name t None true.
Definition defaulting (name : string) (t : value_type) (x : denote t) : option_description :=
  OptionDescription name t (Some x) false.

(** [options_root], the groups in the order they are added.  The fractions are the
    doubles nearest to 0.1 and 0.025. *)
Definition options_root : list option_description := [
  optional BOOTSTRAP_PEERS_FILE t_string;
  optional BOOTSTRAP_PEERS_URL t_string;
  mandatory ETHERERUM_IO_API_TOKEN t_string;
  mandatory ETHERERUM t_string;
  defaulting HTTP_PORT t_uint16 8080%N;
  mandatory LISTENER_ADDRESS t_string;
  mandatory LISTENER_PORT t_uint16;
  defaulting MAX_STORAGE t_string "2G"%string;
  defaulting MEM_STORAGE t_bool true;
  optional NODE_UUID t_string;
  defaulting STATE_DIR t_string "./.state/"%string;
  optional WS_IDLE_TIMEOUT t_uint64;
  defaulting LOG_TO_STDOUT t_bool false;
  defaulting LOGFILE_DIR t_string "logs/"%string;
  defaulting LOGFILE_MAX_SIZE t_string "512K"%string;
  defaulting LOGFILE_ROTATION_SIZE t_string "64K"%string;
  defaulting DEBUG_LOGGING t_bool false;
  defaulting AUDIT_ENABLED t_bool false;
  defaulting AUDIT_MEM_SIZE t_size 10000%N;
  optional MONITOR_ADDRESS t_string;
  optional MONITOR_PORT t_uint16;
  defaulting AUDIT_MEM_SIZE t_size 10000%N;
  defaulting PBFT_ENABLED t_bool false;
  defaulting PEER_VALIDATION_ENABLED t_bool false;
  optional SIGNED_KEY t_string;
  defaulting NODE_PUBKEY_FILE t_string ".state/public-key.pem"%string;
  defaulting NODE_PRIVATEKEY_FILE t_string ".state/private-key.pem"%string;
  defaulting CRYPTO_ENABLED_INCOMING t_bool false;
  defaulting CRYPTO_ENABLED_OUTGOING t_bool true;
  defaulting CHAOS_ENABLED t_bool false;
  defaulting CHAOS_NODE_FAILURE_SHAPE t_double (1 # 2)%Q;
  defaulting CHAOS_NODE_FAILURE_SCALE t_double (10 # 1)%Q;
  defaulting CHAOS_MESSAGE_DELAY_CHANCE t_double (3602879701896397 # 36028797018963968)%Q;
  defaulting CHAOS_MESSAGE_DELAY_TIME t_uint 2500%N;
  defaulting CHAOS_MESSAGE_DROP_CHANCE t_double (3602879701896397 # 144115188075855872)%Q
].

(** [s.find_first_not_of("0123456789abcdefABCDEF", 2) == npos]. *)
Fixpoint all_hex (s : string) : bool :=
  match s with
  | EmptyString => true
  | String c s => blacklist.is_hex c && all_hex s
  end.

Definition is_hex_notation (s : string) : bool :=
  match s with
  | String "0" (String "x" (String c s)) => all_hex (String c s)
  | _ => false
  end.

Section SimpleOptions.
Context {JS : Jsoncpp} {JM : JsonMembers} {PO : ProgramOptions}.

(** What the parser of the command line finds. *)
Record command_line := CommandLine { cl_version : bool; cl_help : bool; cl_config : option string }.

(** [parse_command_line]: of boost.  [read_file]: none when the file cannot be
    read.  [strerror]: the text for [errno]. *)
Context (parse_command_line : list string → result command_line) (read_file : string → option string) (strerror : string).

Record simple_options := SimpleOptions { config_file : string; vm : variables_map }.

Abbreviation optionsM := (M simple_options unit).

Definition new : simple_options := SimpleOptions "" no_variables.

Definition has (name : string) (s : simple_options) : bool := bool_decide (is_Some (lookup_variable name (vm s))).

Definition get (t : value_type) (name : string) (s : simple_options) : result (denote t) :=
  match lookup_variable name (vm s) with
  | Some (a, _) => any_cast t a
  | None => Ok (zero t)
  end.

(** [vm[name].defaulted()]; a variable that is not there is not defaulted. *)
Definition defaulted (name : string) (s : simple_options) : bool :=
  match lookup_variable name (vm s) with Some (_, d) => d | None => false end.

Definition set (name value : string) : optionsM unit :=
  s ← gets id;
  modify (λ s, SimpleOptions (config_file s) (erase_variable name (vm s)));;
  s ← gets id;
  vm' ← lift (store options_root [(name, value)] (vm s));
  modify (λ s, SimpleOptions (config_file s) vm').

Definition validate_options : optionsM bool :=
  s ← gets id;
  port ← lift (get t_uint16 LISTENER_PORT s);
  eth_address ← lift (get t_string ETHERERUM s);
  let errors := [
    (port <=? 1024)%N;
    negb (is_hex_notation eth_address);
    negb (has BOOTSTRAP_PEERS_FILE s || has BOOTSTRAP_PEERS_URL s);
    negb (defaulted NODE_PUBKEY_FILE s) && has NODE_UUID s ]
  in mret (negb (existsb id errors)).

(** [boost::trim]. *)
Fixpoint trim_right (s : string) : string :=
  match s with
  | EmptyString => ""
  | String c s =>
      match trim_right s with
      | EmptyString => if istream.is_space c then "" else String c ""
      | t => String c t
      end
  end.
Definition trim (s : string) : string := trim_right (istream.skip_ws s).

Definition option_text (v : Value) : result string :=
  if isString v then asString v else Ok (trim (toStyledString v)).

(** The known options of the file. *)
Fixpoint parsed_options (json : Value) (names : list string) : optionsM (list (string * string)) :=
  match names with
  | [] => mret []
  | name :: names =>
      json_val ← lift (member json name);
      known ← lift (find_nothrow options_root name);
      if negb known then parsed_options json names
      else
        t ← lift (option_text json_val);
        rest ← parsed_options json names;
        mret ((name, t) :: rest)
  end.

Definition handle_config_file_options : optionsM bool :=
  file ← gets config_file;
  match (text ← read_file file; parse text) with
  | None => throw ("Failed to load: " ++ file ++ " : " ++ strerror)
  | Some json =>
      if negb (isObject json) then throw "Config file should be an object"
      else
        parsed ← parsed_options json (getMemberNames json);
        s ← gets id;
        vm' ← lift (store options_root parsed (vm s));
        modify (λ s, SimpleOptions (config_file s) vm');;
        lift (notify options_root vm');;
        mret true
  end.

(** Every exception is reported as [false]. *)
Definition handle_command_line_options (argv : list string) : optionsM bool :=
  match parse_command_line argv with
  | Ok cl =>
      if cl_version cl then mret false
      else match cl_help cl, cl_config cl with
           | false, Some file => modify (λ s, SimpleOptions file (vm s));; mret true
           | _, _ => mret false
           end
  | Throw _ => mret false
  | Undefined => undefined
  end.

Definition parse (argv : list string) : optionsM bool :=
  ok ← handle_command_line_options argv;
  if negb ok then mret false
  else
    ok ← handle_config_file_options;
    if negb ok then mret false else validate_options.

End SimpleOptions.
End simple_options.

(** ** The options *)
Module options.
Import option_names simple_options.

(** The characters of [BYTE_SUFFIXES]. *)
Definition BYTE_SUFFIXES (c : ascii) : option N :=
  match c with
  | "B" => Some 1
  | "K" => Some 1024
  | "M" => Some 1048576
  | "G" => Some 1073741824
  | "T" => Some 1099511627776
  | _ => None
  end%char%N.

(** ["[K,M,G,T]?[B]?"]: the comma is one of the characters. *)
Definition is_unit (c : ascii) : bool := bool_decide (c ∈ ["K"; ","; "M"; "G"; "T"]%char).

Definition is_suffix (s : string) : bool :=
  match s with
  | EmptyString => true
  | String c EmptyString => is_unit c || bool_decide (c = "B"%char)
  | String c (String d EmptyString) => is_unit c && bool_decide (d = "B"%char)
  | _ => false
  end.

(** [regex_match] against ["(\\d+)([K,M,G,T]?[B]?)"]: the two groups. *)
Definition size_groups (s : string) : option (string * string) :=
  match istream.span istream.is_digit s with
  | (EmptyString, _) => None
  | (digits, suffix) => if is_suffix suffix then Some (digits, suffix) else None
  end.

Definition parse_size (max_value : string) : result N :=
  match size_groups max_value with
  | None => Throw (String "010" ("Unable to parse size value from options: " ++ max_value))
  | Some (digits, suffix) =>
      match lexical_cast_u64 digits with
      | None => Throw "bad lexical cast: source type value could not be interpreted as target"
      | Some n =>
          match BYTE_SUFFIXES (match suffix with EmptyString => "B"%char | String c _ => c end) with
          | Some factor => Ok (mul64 n factor)
          | None => Throw "map::at"
          end
      end
  end.

Section Options.
Context {JS : Jsoncpp} {JM : JsonMembers} {PO : ProgramOptions} {RV : RsaVerifier} {BO : Boost}.
Context (parse_command_line : list string → result command_line) (read_file : string → option string) (strerror : string).
(** [address::from_string], and the first endpoint a resolver finds. *)
Context {address : Type} (address_from_string : string → result address) (resolve : string → string → result endpoint).

(** [raw_opts] is all the state. *)
Definition parse_command_line_ (argv : list string) : M simple_options unit bool :=
  simple_options.parse parse_command_line read_file strerror argv.

(** [try ... catch(std::exception& ex)]: the text is prepended. *)
Definition rethrow {A} (what : string) (r : result A) : result A :=
  match r with Throw w => Throw (String "010" (what ++ w)) | r => r end.

Definition get_listener (s : simple_options) : result (address * N) :=
  rethrow "Could not create listener: "
    match get t_string LISTENER_ADDRESS s with
    | Ok a => match address_from_string a with
              | Ok a => match get t_uint16 LISTENER_PORT s with Ok p => Ok (a, p) | Throw w => Throw w | Undefined => Undefined end
              | Throw w => Throw w
              | Undefined => Undefined
              end
    | Throw w => Throw w
    | Undefined => Undefined
    end.

Definition get_monitor_endpoint (s : simple_options) : result (option endpoint) :=
  if has MONITOR_PORT s && has MONITOR_ADDRESS s then
    rethrow "Could not create monitor endpoint: "
      match get t_string MONITOR_ADDRESS s, get t_uint16 MONITOR_PORT s with
      | Ok a, Ok p => match resolve a (to_string p) with
                      | Ok ep => Ok (Some ep)
                      | Throw w => Throw w
                      | Undefined => Undefined
                      end
      | Throw w, _ | _, Throw w => Throw w
      | _, _ => Undefined
      end
  else Ok None.

Definition pbft_enabled (s : simple_options) : result bool := get t_bool PBFT_ENABLED s.
Definition get_ethererum_address (s : simple_options) : result string := get t_string ETHERERUM s.
Definition get_ethererum_io_api_token (s : simple_options) : result string := get t_string ETHERERUM_IO_API_TOKEN s.
Definition get_bootstrap_peers_file (s : simple_options) : result string := get t_string BOOTSTRAP_PEERS_FILE s.
Definition get_bootstrap_peers_url (s : simple_options) : result string := get t_string BOOTSTRAP_PEERS_URL s.

(** The uuid is configured, or it is the public key. *)
Definition get_uuid (s : simple_options) : result uuid_t :=
  if has NODE_UUID s then get t_string NODE_UUID s
  else
    match get t_string NODE_PUBKEY_FILE s with
    | Ok file =>
        match crypto_utils.read_pem_file file "PUBLIC KEY" with
        | Ok pubkey_raw => Ok (base64_encode pubkey_raw)
        | Throw w => Throw w
        | Undefined => Undefined
        end
    | Throw w => Throw w
    | Undefined => Undefined
    end.

Definition get_debug_logging (s : simple_options) : result bool := get t_bool DEBUG_LOGGING s.
Definition get_log_to_stdout (s : simple_options) : result bool := get t_bool LOG_TO_STDOUT s.
(** Seconds. *)
Definition get_ws_idle_timeout (s : simple_options) : result N := get t_uint64 WS_IDLE_TIMEOUT s.
Definition get_audit_mem_size (s : simple_options) : result N := get t_size AUDIT_MEM_SIZE s.
Definition get_state_dir (s : simple_options) : result string := get t_string STATE_DIR s.
Definition get_logfile_dir (s : simple_options) : result string := get t_string LOGFILE_DIR s.

Definition size_option (name : string) (s : simple_options) : result N :=
  match get t_string name s with Ok t => parse_size t | Throw w => Throw w | Undefined => Undefined end.

Definition get_max_storage (s : simple_options) : result N := size_option MAX_STORAGE s.
Definition get_mem_storage (s : simple_options) : result bool := get t_bool MEM_STORAGE s.
Definition get_logfile_rotation_size (s : simple_options) : result N := size_option LOGFILE_ROTATION_SIZE s.
Definition get_logfile_max_size (s : simple_options) : result N := size_option LOGFILE_MAX_SIZE s.
Definition get_http_port (s : simple_options) : result N := get t_uint16 HTTP_PORT s.
Definition peer_validation_enabled (s : simple_options) : result bool := get t_bool PEER_VALIDATION_ENABLED s.
Definition get_signed_key (s : simple_options) : result string := get t_string SIGNED_KEY s.

End Options.
End options.

(** ** Properties *)
Module options_props.
Import option_names simple_options options.

Section Typed.
Context {JS : Jsoncpp} {JM : JsonMembers} {PO : ProgramOptions} {PL : ProgramOptionsLaws}.
Context (parse_command_line : list string → result command_line) (read_file : string → option string) (strerror : string).

(** The names an option is declared with decide its type. *)
Definition type_of (name : string) : option value_type :=
  semantic <$> List.find (λ o, bool_decide (long_name o = name)) options_root.

Lemma declared_once o : o ∈ options_root → type_of (long_name o) = Some (semantic o).
Proof.
  intros Ho. assert (forallb (λ o, bool_decide (type_of (long_name o) = Some (semantic o))) options_root = true) as H by done.
  rewrite forallb_forall in H. specialize (H o (proj1 (list_elem_of_In _ _) Ho)). by apply bool_decide_eq_true in H.
Qed.

(** Every value has the type its option was declared with. *)
Definition well_typed (s : simple_options) : Prop :=
  ∀ name a d, lookup_variable name (vm s) = Some (a, d) → type_of name = Some (any_type a).

Lemma new_typed : well_typed new.
Proof using PL. intros name a d. unfold new. cbn. by rewrite no_variable. Qed.

Lemma store_keeps_typed s os vm' :
  well_typed s → store options_root os (vm s) = Ok vm' → well_typed (SimpleOptions (config_file s) vm').
Proof using PL.
  intros Hs Hstore name a d Hl. destruct (store_typed _ _ _ _ _ _ _ Hstore Hl) as [Hold|(o & Ho & <- & ->)]; [by eapply Hs|].
  by apply declared_once.
Qed.

Lemma get_typed s name t : well_typed s → type_of name = Some t → ∃ x, get t name s = Ok x.
Proof using.
  intros Hs Ht. unfold get. destruct (lookup_variable name (vm s)) as [[a d]|] eqn:E; [|eauto].
  apply any_cast_same. apply Hs in E. by simplify_eq.
Qed.

(** *** What a successful parse leaves *)

Lemma parsed_options_pure json names : pure_method (parsed_options json names : M simple_options unit _).
Proof.
  induction names as [|name names IH]; cbn [parsed_options]; unfold pure_method in *; [respects_steps|].
  repeat first [exact IH|respects_step].
Qed.

Lemma validate_pure : pure_method validate_options.
Proof. unfold validate_options, pure_method. cbv zeta. respects_steps. Qed.

(** The variables were stored and checked, and the constraints hold. *)
Lemma parse_succeeds argv s :
  let s' := post (simple_options.parse parse_command_line read_file strerror argv) s in
  res (simple_options.parse parse_command_line read_file strerror argv) s = Ok true →
  ∃ os, store options_root os (vm s) = Ok (vm s') ∧ notify options_root (vm s') = Ok tt ∧
        res validate_options s' = Ok true.
Proof.
  cbn zeta. unfold simple_options.parse.
  intros (ok & Hc & H & ->)%finished_bind. revert H. destruct ok; [|by run_simpl]. cbn [negb].
  intros (ok & Hf & H & ->)%finished_bind. revert H. destruct ok; [|by run_simpl]. cbn [negb]. intros Hv.
  rewrite <-(validate_pure _).
  assert (vm (post (handle_command_line_options parse_command_line argv) s) = vm s) as Hvm.
  { revert Hc. unfold handle_command_line_options. destruct (parse_command_line argv) as [cl| |]; [|done..].
    destruct (cl_version cl); [done|]. by destruct (cl_help cl), (cl_config cl). }
  revert Hf Hv. rewrite <-Hvm. generalize (post (handle_command_line_options parse_command_line argv) s) as s1. clear.
  intros s1. unfold handle_config_file_options. intros (file & Hfile & H & ->)%finished_bind. revert H.
  rewrite post_gets. destruct (_ ≫= _) as [json|]; [|done]. destruct (negb (isObject json)); [done|].
  intros (os & _ & H & ->)%finished_bind. revert H. rewrite <-(parsed_options_pure _ _ s1).
  intros (s2 & Hs2 & H & ->)%finished_bind. revert H. rewrite res_gets in Hs2. rewrite post_gets. simplify_eq.
  intros (vm' & Hstore & H & ->)%finished_bind. revert H. rewrite res_lift in Hstore. rewrite post_lift.
  intros ([] & _ & H & ->)%finished_bind. revert H. rewrite post_modify.
  intros ([] & Hn & H & ->)%finished_bind. rewrite res_lift in Hn. rewrite post_lift, post_ret. cbn. eauto.
Qed.

Lemma parse_typed argv s :
  well_typed s → res (simple_options.parse parse_command_line read_file strerror argv) s = Ok true →
  well_typed (post (simple_options.parse parse_command_line read_file strerror argv) s).
Proof using PL.
  intros Hs (os & Hstore & _ & _)%parse_succeeds. exact (store_keeps_typed s os _ Hs Hstore).
Qed.

End Typed.

(** *** Sizes *)

(** The suffixes that have a factor. *)
Definition units : list (string * N) :=
  [("", 1); ("B", 1); ("K", 1024); ("KB", 1024); ("M", 1048576); ("MB", 1048576); ("G", 1073741824); ("GB", 1073741824);
   ("T", 1099511627776); ("TB", 1099511627776)]%string%N.

Definition suffix_unit (suffix : string) : ascii := match suffix with EmptyString => "B"%char | String c _ => c end.

Lemma units_spec suffix f : (suffix, f) ∈ units ↔ is_suffix suffix = true ∧ BYTE_SUFFIXES (suffix_unit suffix) = Some f.
Proof.
  split.
  - intros H. assert (forallb (λ x, is_suffix x.1 && bool_decide (BYTE_SUFFIXES (suffix_unit x.1) = Some x.2)) units = true) as Hall
      by done.
    rewrite forallb_forall in Hall. specialize (Hall _ (proj1 (list_elem_of_In _ _) H)).
    apply andb_true_iff in Hall as [? ?%bool_decide_eq_true]. done.
  - intros [Hs Hf]. destruct suffix as [|c [|d [|]]]; cbn in Hs, Hf; [|apply orb_true_iff in Hs as [Hs|Hs]| |done].
    + simplify_eq. left.
    + apply bool_decide_eq_true in Hs. set_unfold. destruct_or!; subst c; cbn in Hf; simplify_eq; naive_solver.
    + apply bool_decide_eq_true in Hs as ->. cbn in Hf. simplify_eq. set_solver.
    + apply andb_true_iff in Hs as [Hs ->%bool_decide_eq_true]. apply bool_decide_eq_true in Hs.
      set_unfold. destruct_or!; subst c; cbn in Hf; simplify_eq; naive_solver.
Qed.

Lemma span_split p s : let '(t, r) := istream.span p s in s = (t ++ r)%string.
Proof.
  induction s as [|c s IH]; cbn [istream.span]; [done|]. destruct (p c); [|done].
  destruct (istream.span p s) as [t r]. by rewrite IH.
Qed.

Lemma span_digits digits n suffix acc :
  digits_value acc digits = Some n → istream.span istream.is_digit suffix = (""%string, suffix) →
  istream.span istream.is_digit (digits ++ suffix) = (digits, suffix).
Proof.
  intros Hd Hs. revert acc Hd. induction digits as [|c digits IH]; intros acc Hd; [done|].
  cbn in Hd. destruct (digit_value c) as [d|] eqn:Hc; [|done].
  change (String c digits ++ suffix)%string with (String c (digits ++ suffix)). cbn [istream.span].
  unfold istream.is_digit at 1. rewrite bool_decide_true by by rewrite Hc. by rewrite (IH _ Hd).
Qed.

Lemma span_units suffix f : (suffix, f) ∈ units → istream.span istream.is_digit suffix = (""%string, suffix).
Proof.
  assert (Forall (λ x, istream.span istream.is_digit x.1 = (""%string, x.1)) units) as H by by repeat constructor.
  rewrite Forall_forall in H. intros Hs. apply (H _ Hs).
Qed.

Lemma lexical_digits digits n : lexical_cast_u64 digits = Some n → digits ≠ ""%string ∧ digits_value 0 digits = Some n ∧ (n < 2 ^ 64)%N.
Proof.
  unfold lexical_cast_u64. destruct digits as [|c digits]; [done|]. destruct (digits_value 0 _) as [m|]; [|done]. cbn.
  destruct (N.ltb_spec m (2 ^ 64)); [|done]. intros. by simplify_eq.
Qed.

Lemma parse_size_spec text v :
  parse_size text = Ok v ↔
  ∃ digits suffix n f, text = (digits ++ suffix)%string ∧ lexical_cast_u64 digits = Some n ∧ (suffix, f) ∈ units ∧ v = mul64 n f.
Proof.
  unfold parse_size, size_groups. split.
  - pose proof (span_split istream.is_digit text) as Ht. destruct (istream.span _ text) as [digits suffix].
    destruct digits as [|c digits]; [done|]. destruct (is_suffix suffix) eqn:Hs; [|done].
    destruct (lexical_cast_u64 _) as [n|] eqn:Hn; [|done].
    destruct (BYTE_SUFFIXES _) as [f|] eqn:Hf; [|done]. intros ?. simplify_eq.
    exists (String c digits), suffix, n, f. split_and!; [done..|by apply units_spec|done].
  - intros (digits & suffix & n & f & -> & Hn & Hu & ->). destruct (lexical_digits _ _ Hn) as (Hne & Hd & _).
    rewrite (span_digits _ _ _ _ Hd (span_units _ _ Hu)). apply units_spec in Hu as [Hs Hf]. destruct digits as [|c digits]; [done|].
    rewrite Hs, Hn. unfold suffix_unit in Hf. by rewrite Hf.
Qed.

Lemma parse_size_comma n : (n < 2 ^ 64)%N → parse_size (to_string n ++ ",") = Throw "map::at".
Proof.
  intros Hn. pose proof (lexical_cast_to_string n Hn) as Hl. destruct (lexical_digits _ _ Hl) as (Hne & Hd & _).
  unfold parse_size, size_groups. rewrite (span_digits _ _ "," _ Hd) by done.
  destruct (to_string n) as [|c digits]; [done|].
  replace (is_suffix ",") with true by done. by rewrite Hl.
Qed.

(** *** Constraints *)

Section Valid.
Context {JS : Jsoncpp} {JM : JsonMembers} {PO : ProgramOptions} {PL : ProgramOptionsLaws}.

Definition valid (s : simple_options) : Prop :=
  (∃ port, get t_uint16 LISTENER_PORT s = Ok port ∧ 1024 < port)%N ∧
  (∃ eth_address, get t_string ETHERERUM s = Ok eth_address ∧ is_hex_notation eth_address = true) ∧
  (has BOOTSTRAP_PEERS_FILE s = true ∨ has BOOTSTRAP_PEERS_URL s = true) ∧
  (has NODE_UUID s = true → defaulted NODE_PUBKEY_FILE s = true).

Lemma validate_valid s : res validate_options s = Ok true → valid s.
Proof using.
  unfold validate_options. cbv zeta. intros (s1 & Hs1 & H)%returned_bind; [|by apply respects_gets, _]. revert H.
  rewrite res_gets in Hs1. simplify_eq. cbn [id].
  intros (port & Hport & H)%returned_bind; [|by apply respects_lift, _]. revert H.
  intros (eth & Heth & H)%returned_bind; [|by apply respects_lift, _].
  rewrite res_lift in Hport. rewrite res_lift in Heth. rewrite res_ret in H. injection H as H.
  apply negb_true_iff in H. cbn in H. repeat apply orb_false_iff in H as [? H].
  unfold valid. split_and!.
  - exists port. split; [done|]. by apply N.leb_gt.
  - exists eth. split; [done|]. by apply negb_false_iff.
  - by apply orb_true_iff, negb_false_iff.
  - intros Hu. rewrite Hu, andb_true_r in *. by apply negb_false_iff.
Qed.

Definition is_ok {A} (r : result A) : bool := match r with Ok _ => true | _ => false end.

(** What the program asks the options for. *)
Definition getters (s : simple_options) : list bool := [
  is_ok (pbft_enabled s); is_ok (get_ethererum_address s); is_ok (get_ethererum_io_api_token s);
  is_ok (get_bootstrap_peers_file s); is_ok (get_bootstrap_peers_url s); is_ok (get_debug_logging s);
  is_ok (get_log_to_stdout s); is_ok (get_ws_idle_timeout s); is_ok (get_audit_mem_size s); is_ok (get_state_dir s);
  is_ok (get_logfile_dir s); is_ok (get_mem_storage s); is_ok (get_http_port s); is_ok (peer_validation_enabled s);
  is_ok (get_signed_key s);
  is_ok (get t_string LISTENER_ADDRESS s); is_ok (get t_uint16 LISTENER_PORT s);
  is_ok (get t_string MONITOR_ADDRESS s); is_ok (get t_uint16 MONITOR_PORT s);
  is_ok (get t_string MAX_STORAGE s); is_ok (get t_string LOGFILE_ROTATION_SIZE s); is_ok (get t_string LOGFILE_MAX_SIZE s);
  is_ok (get t_string NODE_UUID s); is_ok (get t_string NODE_PUBKEY_FILE s); is_ok (get t_string NODE_PRIVATEKEY_FILE s);
  is_ok (get t_bool CRYPTO_ENABLED_INCOMING s); is_ok (get t_bool CRYPTO_ENABLED_OUTGOING s);
  is_ok (get t_bool AUDIT_ENABLED s); is_ok (get t_bool CHAOS_ENABLED s);
  is_ok (get t_double CHAOS_NODE_FAILURE_SHAPE s); is_ok (get t_double CHAOS_NODE_FAILURE_SCALE s);
  is_ok (get t_double CHAOS_MESSAGE_DELAY_CHANCE s); is_ok (get t_uint CHAOS_MESSAGE_DELAY_TIME s);
  is_ok (get t_double CHAOS_MESSAGE_DROP_CHANCE s) ].

Lemma get_is_ok s name t : well_typed s → type_of name = Some t → is_ok (get t name s) = true.
Proof using. intros Hs Ht. by destruct (get_typed s name t Hs Ht) as [x ->]. Qed.

Lemma getters_ok s : well_typed s → Forall (λ b, b = true) (getters s).
Proof using.
  intros Hs. unfold getters, pbft_enabled, get_ethererum_address, get_ethererum_io_api_token, get_bootstrap_peers_file,
    get_bootstrap_peers_url, get_debug_logging, get_log_to_stdout, get_ws_idle_timeout, get_audit_mem_size, get_state_dir,
    get_logfile_dir, get_mem_storage, get_http_port, peer_validation_enabled, get_signed_key.
  repeat (apply Forall_cons_2;
    [match goal with |- is_ok (get ?t ?name s) = true => exact (get_is_ok s name t Hs eq_refl) end|]). apply Forall_nil_2.
Qed.

End Valid.
End options_props.

(** ** Claims *)

Section Claims.
Import simple_options options options_props.

(** C28: When the command line and the configuration file were accepted, every
    call that asks for an option asks for the type it was declared with, so none
    of them throws; the required options and those with a default are present, the
    port of the listener is above 1024, the Ethereum address is a hex number,
    there is a source of peers, and a uuid is configured only without a public
    key. *)
Theorem options_are_typed {JS : Jsoncpp} {JM : JsonMembers} {PO : ProgramOptions} {PL : ProgramOptionsLaws}
    (parse_command_line : list string → result command_line) (read_file : string → option string) (strerror : string)
    (argv : list string) :
  let s := post (parse_command_line_ parse_command_line read_file strerror argv) new in
  res (parse_command_line_ parse_command_line read_file strerror argv) new = Ok true →
  Forall (λ b, b = true) (getters s) ∧
  Forall (λ o, required o = true ∨ is_Some (default_value o) → has (long_name o) s = true) options_root ∧ valid s.
Proof.
  unfold parse_command_line_. cbn zeta. intros H. split_and!.
  - apply getters_ok, parse_typed; [apply new_typed|done].
  - apply parse_succeeds in H as (os & Hstore & Hn & _). apply Forall_forall. intros o Ho Hd.
    apply bool_decide_eq_true. destruct Hd as [Hd|[x Hx]]; [by eapply notify_required|].
    eapply store_defaults; [done..|by rewrite Hx].
  - apply parse_succeeds in H as (os & _ & _ & Hv). by apply validate_valid.
Qed.

(** A size is read exactly when it is a number that fits 64 bits and one of the
    suffixes, and its value is the product modulo 2^64; what [to_string] prints is
    read back with every suffix.  The comma that the regular expression lets
    through has no factor. *)
Theorem parse_size_reads :
  (∀ text v, parse_size text = Ok v ↔
     ∃ digits suffix n f, text = (digits ++ suffix)%string ∧ lexical_cast_u64 digits = Some n ∧ (suffix, f) ∈ units ∧
                          v = mul64 n f) ∧
  (∀ n suffix f, (n < 2 ^ 64)%N → (suffix, f) ∈ units → parse_size (to_string n ++ suffix) = Ok (mul64 n f)) ∧
  (∀ n, (n < 2 ^ 64)%N → parse_size (to_string n ++ ",") = Throw "map::at").
Proof.
  split_and!; [apply parse_size_spec| |apply parse_size_comma].
  intros n suffix f Hn Hs. apply parse_size_spec. exists (to_string n), suffix, n, f.
  split_and!; [done|by apply lexical_cast_to_string|done..].
Qed.
End Claims.

(** *** Examples: variables in a finite map *)
Module sample_options.
Import json_tree option_names simple_options options options_props.

Definition convert (t : value_type) (s : string) : option any :=
  match t with
  | t_string => Some (Any t_string s)
  | t_uint16 => n ← lexical_cast_u64 s; if (n <? 2 ^ 16)%N then Some (Any t_uint16 n) else None
  | t_uint => n ← lexical_cast_u64 s; if (n <? 2 ^ 32)%N then Some (Any t_uint n) else None
  | t_uint64 => Any t_uint64 <$> lexical_cast_u64 s
  | t_size => Any t_size <$> lexical_cast_u64 s
  | t_bool => if bool_decide (s = "true"%string) then Some (Any t_bool true)
              else if bool_decide (s = "false"%string) then Some (Any t_bool false) else None
  | t_double => (λ n, Any t_double (inject_Z (Z.of_N n))) <$> lexical_cast_u64 s
  end.

Lemma convert_type t s a : convert t s = Some a → any_type a = t.
Proof.
  destruct t; cbn; intros H; repeat first [case_match; simplify_eq|progress simplify_eq/=]; try done;
    destruct (lexical_cast_u64 s); simplify_eq/=; try done; by case_match; simplify_eq/=.
Qed.

Abbreviation variables := (gmap string (any * bool)).

Definition named (name : string) (o : option_description) : bool := bool_decide (long_name o = name).

Fixpoint store_all (ds : list option_description) (os : list (string * string)) (m : variables) : result variables :=
  match os with
  | [] => Ok m
  | (name, t) :: os =>
      match List.find (named name) ds with
      | None => Throw "unrecognised option"
      | Some o => match convert (semantic o) t with
                  | None => Throw "invalid option value"
                  | Some a => store_all ds os (match m !! name with Some (_, false) => m | _ => <[name := (a, false)]> m end)
                  end
      end
  end.

Definition store_default (o : option_description) (m : variables) : variables :=
  match default_value o, m !! long_name o with
  | Some x, None => <[long_name o := (Any (semantic o) x, true)]> m
  | _, _ => m
  end.

#[export] Instance map_options : ProgramOptions := {|
  variables_map := variables;
  no_variables := ∅;
  lookup_variable name m := m !! name;
  erase_variable name m := delete name m;
  find_nothrow ds name :=
    match List.filter (named name) ds with [] => Ok false | [_] => Ok true | _ => Throw "ambiguous option" end;
  store ds os m := match store_all ds os m with Ok m => Ok (foldr store_default m ds) | Throw w => Throw w | Undefined => Undefined end;
  notify ds m :=
    if forallb (λ o, negb (required o) || bool_decide (is_Some (m !! long_name o))) ds then Ok tt
    else Throw "the option is required but missing"
|}.

(** What a new value comes from. *)
Definition from (ds : list option_description) (m : variables) (name : string) (x : any * bool) : Prop :=
  m !! name = Some x ∨ ∃ o, o ∈ ds ∧ long_name o = name ∧ any_type x.1 = semantic o.

Lemma store_all_from ds os m m' name x : store_all ds os m = Ok m' → m' !! name = Some x → from ds m name x.
Proof.
  revert m. induction os as [|[k t] os IH]; intros m; cbn; [intros ?; simplify_eq; by left|].
  destruct (List.find (named k) ds) as [o|] eqn:Ho; [|done]. apply List.find_some in Ho as [Ho Hk%bool_decide_eq_true].
  apply list_elem_of_In in Ho. destruct (convert (semantic o) t) as [a|] eqn:Ha; [|done]. intros Hs Hx.
  destruct (IH _ Hs Hx) as [Hm|?]; [|by right].
  assert (m !! name = Some x ∨ name = k ∧ x = (a, false)) as [|[-> ->]]; [|by left|].
  { destruct (m !! k) as [[b []]|]; [| by left |]; (destruct (decide (name = k)) as [->|];
      [rewrite lookup_insert_eq in Hm; simplify_eq; by right|rewrite lookup_insert_ne in Hm by done; by left]). }
  right. exists o. split_and!; [done..|]. by eapply convert_type.
Qed.

Lemma defaults_from ds ds' m name x : ds ⊆ ds' → foldr store_default m ds !! name = Some x → from ds' m name x.
Proof.
  intros Hsub. induction ds as [|o ds IH]; [by left|]. cbn. assert (o ∈ ds' ∧ ds ⊆ ds') as [Ho Hds] by set_solver.
  unfold store_default at 1. destruct (default_value o) as [v|]; [|by apply IH].
  destruct (foldr _ _ _ !! long_name o) eqn:E; [by apply IH|].
  destruct (decide (name = long_name o)) as [->|]; [|rewrite lookup_insert_ne by done; by apply IH].
  rewrite lookup_insert_eq. intros ?. simplify_eq. right. by exists o.
Qed.

Lemma defaults_there o ds m :
  o ∈ ds → default_value o ≠ None → is_Some (foldr store_default m ds !! long_name o).
Proof.
  assert (∀ o' m name, is_Some (m !! name) → is_Some (store_default o' m !! name)) as Hmono.
  { intros o' m' name H. unfold store_default. repeat case_match; [done| |done].
    destruct (decide (name = long_name o')) as [->|]; [by rewrite lookup_insert_eq|by rewrite lookup_insert_ne]. }
  intros Ho Hd. induction ds as [|o' ds IH]; [by apply not_elem_of_nil in Ho|]. cbn.
  apply elem_of_cons in Ho as [<-|Ho]; [|by apply Hmono, IH].
  unfold store_default at 1. destruct (default_value o) as [x|]; [|done].
  destruct (foldr _ _ _ !! _) eqn:E; [by rewrite E|by rewrite lookup_insert_eq].
Qed.

#[export] Instance map_options_laws : ProgramOptionsLaws.
Proof.
  split; cbn.
  - intros name. apply lookup_empty.
  - intros ds os m m' name a d. destruct (store_all ds os m) as [m1| |] eqn:E; [|done..]. intros ? Hl. simplify_eq.
    destruct (defaults_from ds ds m1 name (a, d) (reflexivity ds) Hl) as [H|H]; [|by right]. by eapply store_all_from in H.
  - intros ds os m m' o. destruct (store_all ds os m) as [m1| |]; [|done..]. intros ? Ho Hd. simplify_eq.
    by apply defaults_there.
  - intros ds m o. destruct (forallb _ ds) eqn:E; [|done]. intros _ Ho Hr.
    rewrite forallb_forall in E. specialize (E o (proj1 (list_elem_of_In _ _) Ho)). rewrite Hr in E. cbn in E.
    by apply bool_decide_eq_true in E.
Qed.

#[export] Instance tree_members : JsonMembers (JS := tree_json) := {|
  isObject v := match v with Obj _ => true | _ => false end;
  getMemberNames v := match v with Obj kvs => kvs.*1 | _ => [] end
|}.

Definition config : tree :=
  Obj [("listener_address", Str "127.0.0.1"); ("listener_port", Str "51010"); ("ethereum", Str "0x00");
       ("ethereum_io_api_token", Str "x"); ("bootstrap_file", Str "peers.json"); ("uuid", Str "a"); ("unknown", Null)]%string.

Definition argv (args : list string) : result command_line := Ok (CommandLine false false (Some "bluzelle.json"%string)).
Definition files (name : string) : option string := Some (print config).

Definition accepted : bool :=
  match res (parse_command_line_ (JS := tree_json) argv files "" []) new with Ok b => b | _ => false end.

Lemma sample_accepted : accepted = true.
Proof. vm_compute. reflexivity. Qed.

Lemma accepted_spec : accepted = true → res (parse_command_line_ (JS := tree_json) argv files "" []) new = Ok true.
Proof. unfold accepted. by destruct (res _ _) as [[]| |]. Qed.
End sample_options.

Example options_are_typed_witness :
  let s := post (options.parse_command_line_ (JS := json_tree.tree_json) (JM := sample_options.tree_members)
                   (PO := sample_options.map_options) sample_options.argv sample_options.files "" [])
             (simple_options.new (PO := sample_options.map_options)) in
  Forall (λ b, b = true) (options_props.getters (PO := sample_options.map_options) s) ∧
  options_props.valid (PO := sample_options.map_options) s.
Proof.
  cbv zeta.
  destruct (options_are_typed (JS := json_tree.tree_json) (JM := sample_options.tree_members)
    (PO := sample_options.map_options) (PL := sample_options.map_options_laws) sample_options.argv sample_options.files "" []
    (sample_options.accepted_spec sample_options.sample_accepted)) as (Hg & _ & Hv).
  exact (conj Hg Hv).
Defined.

Example parse_size_reads_witness :
  options.parse_size "2G" = Ok 2147483648%N ∧ options.parse_size "16777216TB" = Ok 0%N ∧
  options.parse_size "1," = Throw "map::at".
Proof.
  destruct parse_size_reads as (_ & Hread & Hcomma). split_and!.
  - exact (Hread 2%N "G"%string _ eq_refl ltac:(repeat first [left; reflexivity|right])).
  - exact (Hread 16777216%N "TB"%string _ eq_refl ltac:(repeat first [left; reflexivity|right])).
  - exact (Hcomma 1%N eq_refl).
Defined.
