(* ===== verification/Status.v ===== *)
(** * The status of a node

    [status/status.cpp]: version, uptime and the status of the modules, as JSON
    and as a protobuf message, on a node of [Node]. *)

From S2P Require Import Prelude Messages Json Node.

(** [v[k] = x]: throws on a value that is neither null nor an object. *)
Class JsonAssign {JS : Jsoncpp} := {
  assign : Value → string → Value → result Value
}.

Class JsonAssignLaws `{JA : JsonAssign} : Prop := {
  assign_object v k : isMember v k = Ok true → ∀ k' x, ∃ v', assign v k' x = Ok v' ∧ isMember v' k' = Ok true;
  member_assign v v' k x : assign v k x = Ok v' → member v' k = Ok x;
  member_assign_ne v v' k k' x : k ≠ k' → assign v k x = Ok v' → member v' k' = member v k'
}.

(** [proto/status.proto]. *)
Record status_response := StatusResponse {
  swarm_version : string;
  swarm_git_commit : string;
  uptime : string;
  module_status_json : string;
  sr_pbft_enabled : bool
}.

#[export] Instance wf_status_response : WellFormed status_response := λ r,
  utf8 (swarm_version r) && utf8 (swarm_git_commit r) && utf8 (uptime r) && utf8 (module_status_json r).

Module status.

Definition NAME_KEY : string := "name".
Definition STATUS_KEY : string := "status".
Definition STATUS_MSG : string := "status".
Definition VERSION_KEY : string := "version".
Definition MODULE_KEY : string := "module".
Definition UPTIME_KEY : string := "uptime".
Definition COMMIT_KEY : string := "commit".
Definition PBFT_ENABLED_KEY : string := "pbft_enabled".

(** Times are nanoseconds of the steady clock. *)
Definition get_uptime (start_time now : N) : string :=
  let uptime := ((now - start_time) / 1000000000)%N in
  let d := (uptime / (3600 * 24))%N in
  let uptime := (uptime - d * (3600 * 24))%N in
  let h := (uptime / 3600)%N in
  let uptime := (uptime - h * 3600)%N in
  let m := (uptime / 60)%N in
  to_string d ++ " days, " ++ to_string h ++ " hours, " ++ to_string m ++ " minutes".

(** The two handlers. *)
Inductive handler := HandleWsStatusMessages | HandleStatusRequestMessage.

Section Status.
Context {JS : Jsoncpp} {JA : JsonAssign} {SSL : OpenSSL} {MR : Message status_response}.
(** [SWARM_VERSION] and [SWARM_GIT_COMMIT], which the build generates. *)
Context (SWARM_VERSION SWARM_GIT_COMMIT : string).

Record status := Status {
  start_once : bool;
  start_time : N;
  pbft_enabled : bool;
  node : node.node (H := handler)
}.

Inductive effect :=
| NodeEffect (e : node.effect (H := handler))
| SendJson (session : session_id) (msg : Value) (end_session : bool)
| SendBytes (session : session_id) (msg : string) (end_session : bool).

Abbreviation statusM := (M status effect).

Definition new (now : N) (pbft : bool) (n : node.node (H := handler)) : status := Status false now pbft n.

Definition node_call {A} (m : M (node.node (H := handler)) (node.effect (H := handler)) A) : statusM A := λ s,
  (res m (node s), Status (start_once s) (start_time s) (pbft_enabled s) (post m (node s)), NodeEffect <$> out m (node s)).

(** The body of [call_once] that throws leaves the flag as it was. *)
Definition start : statusM unit :=
  started ← gets start_once;
  if (started : bool) then mret tt
  else
    ok ← node_call (node.register_for_message STATUS_MSG (Some HandleWsStatusMessages));
    if negb ok then throw "Unable to register for STATUS messages!"
    else
      ok ← node_call (node.register_for_payload kStatusRequest (Some HandleStatusRequestMessage));
      if negb ok then throw "Unable to register for STATUS REQUEST messages!"
      else modify (λ s, Status true (start_time s) (pbft_enabled s) (node s)).

(** A provider that is still there has a name and a status. *)
Definition provider : Type := option (string * Value).

Definition query_modules (status_providers : list provider) : Value :=
  foldl (λ module_status p,
    match p with
    | Some (name, st) => append module_status (obj [(NAME_KEY, str name); (STATUS_KEY, st)])
    | None => module_status
    end) null status_providers.

(** The members are assigned one after the other. *)
Fixpoint assign_all (kvs : list (string * Value)) (v : Value) : result Value :=
  match kvs with
  | [] => Ok v
  | (k, x) :: kvs => match assign v k x with Ok v => assign_all kvs v | Throw w => Throw w | Undefined => Undefined end
  end.

Definition handle_ws_status_messages (now : N) (status_providers : list provider) (ws_msg : Value) (session : session_id) :
    statusM unit :=
  s ← gets id;
  response_msg ← lift (assign_all
    [(VERSION_KEY, str SWARM_VERSION); (COMMIT_KEY, str SWARM_GIT_COMMIT);
     (UPTIME_KEY, str (get_uptime (start_time s) now)); (MODULE_KEY, query_modules status_providers);
     (PBFT_ENABLED_KEY, boolean (pbft_enabled s))] ws_msg);
  emit (SendJson session response_msg false).

Definition handle_status_request_message (now : N) (status_providers : list provider) (msg : bzn_envelope)
    (session : session_id) : statusM unit :=
  s ← gets id;
  let srm := StatusResponse SWARM_VERSION SWARM_GIT_COMMIT (get_uptime (start_time s) now)
               (toStyledString (obj [(MODULE_KEY, query_modules status_providers)])) (pbft_enabled s) in
  emit (SendBytes session (SerializeAsString srm) false).

(** The node calls the handler it was given. *)
Definition run_handler (now : N) (status_providers : list provider) (e : node.effect (H := handler)) : statusM unit :=
  match e with
  | node.CallMessageHandler HandleWsStatusMessages msg session => handle_ws_status_messages now status_providers msg session
  | node.CallProtobufHandler HandleStatusRequestMessage msg session =>
      handle_status_request_message now status_providers msg session
  | _ => mret tt
  end.

End Status.
End status.

(** ** Properties *)
Module status_props.
Import status.

Section Props.
Context {JS : Jsoncpp} {JL : JsoncppLaws} {JA : JsonAssign} {SSL : OpenSSL} {MR : Message status_response}.
Context (SWARM_VERSION SWARM_GIT_COMMIT : string).

(** *** Uptime *)

Lemma uptime_text start_time now :
  (start_time ≤ now)%N →
  ∃ d h m s ns, (now - start_time = (((d * 24 + h) * 60 + m) * 60 + s) * 1000000000 + ns)%N ∧
    (h < 24 ∧ m < 60 ∧ s < 60 ∧ ns < 1000000000)%N ∧
    get_uptime start_time now = (to_string d ++ " days, " ++ to_string h ++ " hours, " ++ to_string m ++ " minutes")%string.
Proof.
  intros Hle. unfold get_uptime. cbv zeta. generalize (now - start_time)%N as u. intros u.
  assert (∀ a b, (0 < b → ∃ q r, a = q * b + r ∧ r < b ∧ a / b = q ∧ a - q * b = r)%N) as Hdiv.
  { intros a b Hb. exists (a / b)%N, (a mod b)%N. assert (a = a / b * b + a mod b)%N as E by (rewrite N.mul_comm; apply N.div_mod; lia).
    split_and!; [done|apply N.mod_lt; lia|done|]. revert E. generalize (a / b * b)%N (a mod b)%N. lia. }
  destruct (Hdiv u 1000000000%N) as (t & ns & Hu & Hns & -> & _); [lia|].
  destruct (Hdiv t (3600 * 24)%N) as (d & r1 & Ht & Hr1 & -> & ->); [lia|].
  destruct (Hdiv r1 3600%N) as (h & r2 & Hh & Hr2 & -> & ->); [lia|].
  destruct (Hdiv r2 60%N) as (m & s & Hm & Hs & -> & _); [lia|].
  exists d, h, m, s, ns. split_and!; [lia..|done].
Qed.

(** *** The modules *)

Definition entry (p : string * Value) : Value := obj [(NAME_KEY, str p.1); (STATUS_KEY, p.2)].

Lemma query_modules_appends ps : query_modules ps = foldl append null (entry <$> omap id ps).
Proof using.
  unfold query_modules. generalize null as acc. induction ps as [|[[n st]|] ps IH]; intros acc; [done| |]; cbn; by rewrite IH.
Qed.

(** [v] reads as the entry of a provider. *)
Definition shows (p : string * Value) (v : Value) : Prop :=
  (∃ x, member v NAME_KEY = Ok x ∧ asString x = Ok p.1) ∧ (∃ x, member v STATUS_KEY = Ok x ∧ reads_as p.2 x).

Lemma shows_entry p v : reads_as (entry p) v → shows p v.
Proof.
  intros Hr. assert (∀ k x, (k, x) ∈ [(NAME_KEY, str p.1); (STATUS_KEY, p.2)] → ∃ x', member v k = Ok x' ∧ reads_as x x') as Hm.
  { intros k x Hin. apply (reads_as_member (entry p)); [done|]. apply member_obj; [|done].
    cbn. repeat constructor; set_solver. }
  split.
  - destruct (Hm NAME_KEY (str p.1)) as (x & Hx & Hs); [by left|]. exists x. split; [done|].
    by rewrite (reads_as_asString _ _ Hs), asString_str.
  - apply Hm. right. by left.
Qed.

Lemma modules_document ps :
  ∃ doc entries, parse (toStyledString (obj [(MODULE_KEY, query_modules ps)])) = Some doc ∧
    member doc MODULE_KEY = Ok entries ∧ Forall2 shows (omap id ps) (elements entries).
Proof.
  destruct (parse_toStyledString (obj [(MODULE_KEY, query_modules ps)])) as (doc & Hd & Hr). exists doc.
  destruct (reads_as_member _ _ MODULE_KEY (query_modules ps) Hr) as (entries & He & Hre).
  { apply member_obj; [repeat constructor; set_solver|by left]. }
  exists entries. split_and!; [done..|]. apply reads_as_elements in Hre.
  rewrite query_modules_appends, (proj1 (appends_spec _)) in Hre.
  apply (proj1 (Forall2_fmap_l (A := string * Value) entry reads_as _ _)) in Hre.
  eapply Forall2_impl; [exact Hre|]. intros p v Hpv. by apply shows_entry.
Qed.

(** *** Registration *)

Definition unclaimed (n : node.node (H := handler)) : Prop :=
  node.message_map n !! STATUS_MSG = None ∧ node.protobuf_map n !! kStatusRequest = None.

Lemma register_message_new t (h : handler) n :
  node.message_map n !! t = None →
  node.register_for_message t (Some h) n = (Ok true, node.set_maps (<[t := h]> (node.message_map n)) (node.protobuf_map n) n, []).
Proof using. intros Ht. unfold node.register_for_message. by rewrite run_gets, Ht. Qed.

Lemma register_payload_new t (h : handler) n :
  node.protobuf_map n !! t = None →
  node.register_for_payload t (Some h) n = (Ok true, node.set_maps (node.message_map n) (<[t := h]> (node.protobuf_map n)) n, []).
Proof using. intros Ht. unfold node.register_for_payload. by rewrite run_gets, Ht. Qed.

Lemma run_node_call {A B} (m : M (node.node (H := handler)) (node.effect (H := handler)) A) (k : A → M status effect B) s a n' :
  m (node s) = (Ok a, n', []) →
  (node_call m ≫= k) s = k a (Status (start_once s) (start_time s) (pbft_enabled s) n').
Proof using. intros Hm. apply run_bind. unfold node_call, res, post, out. by rewrite Hm. Qed.

(** The node with the two handlers. *)
Definition served (n : node.node (H := handler)) : node.node :=
  node.set_maps (<[STATUS_MSG := HandleWsStatusMessages]> (node.message_map n))
    (<[kStatusRequest := HandleStatusRequestMessage]> (node.protobuf_map n)) n.

Lemma served_request n : node.protobuf_map (served n) !! kStatusRequest = Some HandleStatusRequestMessage.
Proof using. apply lookup_insert_eq. Qed.

Lemma start_registers now pbft n :
  unclaimed n → start (new now pbft n) = (Ok tt, Status true now pbft (served n), []).
Proof using.
  intros [Hm Hp]. unfold start. rewrite run_gets. cbn [start_once new].
  rewrite (run_node_call _ _ (new now pbft n) _ _ (register_message_new _ _ n Hm)). cbn [negb].
  by rewrite (run_node_call _ _ _ true (served n)) by by apply register_payload_new.
Qed.

(** A name that is taken makes [start] throw. *)
Lemma start_refused now pbft n h :
  node.message_map n !! STATUS_MSG = Some h →
  start (new now pbft n) = (Throw "Unable to register for STATUS messages!", new now pbft n, []).
Proof using.
  intros Hm. unfold start. rewrite run_gets. cbn [start_once new].
  rewrite (run_node_call _ _ (new now pbft n) false n); [done|].
  unfold node.register_for_message. cbn [node new]. by rewrite run_gets, Hm.
Qed.

(** *** The reply to a JSON request *)

Context {AL : JsonAssignLaws}.

Lemma assign_all_spec kvs v k0 :
  NoDup kvs.*1 → isMember v k0 = Ok true →
  ∃ v', assign_all kvs v = Ok v' ∧ (∀ k x, (k, x) ∈ kvs → member v' k = Ok x) ∧
        (∀ k, k ∉ kvs.*1 → member v' k = member v k).
Proof using AL.
  revert v k0. induction kvs as [|[k x] kvs IH]; intros v k0 Hd Hv; cbn.
  { exists v. split_and!; [done|by intros ?? ?%not_elem_of_nil|done]. }
  cbn in Hd. apply NoDup_cons in Hd as [Hk Hd]. destruct (assign_object v k0 Hv k x) as (v1 & Hv1 & Hm1). rewrite Hv1.
  destruct (IH v1 k Hd Hm1) as (v' & Hall & Hin & Hout). exists v'. split_and!; [done| |].
  - intros k' x' [[= -> ->]|?]%elem_of_cons; [|by apply Hin]. rewrite Hout by done. by eapply member_assign.
  - intros k' [Hne Hni]%not_elem_of_cons. rewrite Hout by done. by eapply member_assign_ne.
Qed.

(** The reply is the request with the status; its other members are kept. *)
Lemma ws_status_reply now ps ws_msg session s :
  isMember ws_msg "bzn-api" = Ok true →
  ∃ reply, handle_ws_status_messages SWARM_VERSION SWARM_GIT_COMMIT now ps ws_msg session s =
             (Ok tt, s, [SendJson session reply false]) ∧
    member reply VERSION_KEY = Ok (str SWARM_VERSION) ∧ member reply MODULE_KEY = Ok (query_modules ps) ∧
    member reply PBFT_ENABLED_KEY = Ok (boolean (pbft_enabled s)) ∧
    member reply UPTIME_KEY = Ok (str (get_uptime (start_time s) now)) ∧
    member reply "bzn-api" = member ws_msg "bzn-api".
Proof using AL.
  intros Hm. unfold handle_ws_status_messages. rewrite run_gets. cbn [id].
  set (kvs := [(VERSION_KEY, _); _; _; _; _]). destruct (assign_all_spec kvs ws_msg "bzn-api") as (v & Hv & Hin & Hout); [|done|].
  { unfold kvs. cbn. repeat (apply NoDup_cons; split; [set_solver|]). apply NoDup_nil_2. }
  exists v. rewrite Hv, run_lift. split; [done|]. unfold kvs in *.
  split_and!; [apply Hin; set_solver..|]. apply Hout. cbn. set_solver.
Qed.

End Props.
End status_props.

(** ** Claims *)

Section Claims.
Import status status_props.

(** Once the status module has started on a node that has no handler of its
    name, a status request that the node accepts reaches it and is answered by
    one message, which is decoded to the version, the uptime in days, hours and
    minutes, and a document that lists the name and the status of exactly the
    providers that are still there, in order; provided the texts are UTF-8. *)
Theorem status_request_is_answered {JS : Jsoncpp} {JL : JsoncppLaws} {JA : JsonAssign} {SSL : OpenSSL}
    {MR : Message status_response} {ML : MessageLaws status_response} (version commit : string)
    (started now : N) (pbft : bool) (n : node.node (H := handler)) (ps : list provider) (msg : bzn_envelope)
    (session : session_id) :
  unclaimed n → (started ≤ now)%N →
  well_formed (StatusResponse version commit (get_uptime started now)
    (toStyledString (obj [(MODULE_KEY, query_modules ps)])) pbft) = true →
  let s := post start (new started pbft n) in
  node_props.accepts (node s) msg → env_case msg = kStatusRequest →
  res start (new started pbft n) = Ok tt ∧
  ∃ e bytes srm doc entries,
    node.priv_protobuf_handler msg session (node s) = (Ok tt, node s, [e]) ∧
    out (run_handler version commit now ps e) s = [SendBytes session bytes false] ∧
    ParseFromString bytes = Some srm ∧
    swarm_version srm = version ∧ swarm_git_commit srm = commit ∧ sr_pbft_enabled srm = pbft ∧
    (∃ d h m sec ns, (now - started = (((d * 24 + h) * 60 + m) * 60 + sec) * 1000000000 + ns)%N ∧
       (h < 24 ∧ m < 60 ∧ sec < 60 ∧ ns < 1000000000)%N ∧
       uptime srm = (to_string d ++ " days, " ++ to_string h ++ " hours, " ++ to_string m ++ " minutes")%string) ∧
    parse (module_status_json srm) = Some doc ∧ member doc MODULE_KEY = Ok entries ∧
    Forall2 shows (omap id ps) (elements entries).
Proof.
  intros Hn Hle Hwf s. assert (start (new started pbft n) = (Ok tt, s, []) ∧ s = Status true started pbft (served n)) as [Hst Es].
  { unfold s, post. by rewrite (start_registers _ _ _ Hn). }
  intros Ha Hc. split; [unfold res; by rewrite Hst|].
  destruct (modules_document ps) as (doc & entries & Hd & He & Hall). rewrite Es.
  set (srm := StatusResponse version commit (get_uptime started now)
                (toStyledString (obj [(MODULE_KEY, query_modules ps)])) pbft).
  exists (node.CallProtobufHandler HandleStatusRequestMessage msg session), (SerializeAsString srm), srm, doc, entries.
  split_and!; [|reflexivity|by apply parse_serialize|done..|by apply uptime_text|exact Hd|done|done].
  rewrite <-Es, node_props.dispatch_accepted by done. rewrite Es, Hc. cbn [node]. by rewrite served_request.
Qed.

(** A status request that is signed is an error: a node that checks signatures
    throws on it, for every name that stands for a key, whatever the signature. *)
Theorem signed_status_request_throws {JS : Jsoncpp} {SSL : OpenSSL} {H : Type} (msg : bzn_envelope) (session : session_id)
    (n : node.node (H := H)) (key : public_key) :
  node.crypto_enabled_incoming n = true → sender msg ≠ ""%string →
  read_public_key (crypto.PEM_PREFIX ++ sender msg ++ crypto.PEM_SUFFIX) = Some key → env_case msg = kStatusRequest →
  node.priv_protobuf_handler msg session n = (Throw "Crypto does not know how to handle a message with type 9", n, []).
Proof.
  intros Hin Hs Hkey Hc. unfold node.priv_protobuf_handler. rewrite run_gets, Hin, bool_decide_false by done. cbn [andb negb].
  unfold crypto.verify. rewrite bool_decide_false by done. rewrite Hkey. unfold crypto.extract_payload. by rewrite Hc.
Qed.
End Claims.

(** *** Examples: a node that nobody has registered with *)
Module sample_status.
Import json_tree.

#[export] Instance tree_assign : JsonAssign (JS := tree_json) := {|
  assign v k x := match v with
    | Null => Ok (Obj [(k, x)])
    | Obj kvs => Ok (Obj ((k, x) :: kvs))
    | _ => Throw "LogicError" end
|}.

#[export] Instance tree_assign_laws : JsonAssignLaws (JA := tree_assign).
Proof.
  split; cbn.
  - intros [] k Hk; try done. intros k' x. eexists. split; [done|]. cbn. by rewrite bool_decide_true by set_solver.
  - intros [] v' k x H; simplify_eq; cbn; by rewrite bool_decide_true.
  - intros [] v' k k' x Hne H; simplify_eq; cbn; by rewrite bool_decide_false.
Qed.

#[export] Instance status_response_eq_dec : EqDecision status_response.
Proof. solve_decision. Defined.

#[export] Instance status_response_countable : Countable status_response.
Proof.
  refine (inj_countable' (λ r, (swarm_version r, swarm_git_commit r, uptime r, module_status_json r, sr_pbft_enabled r))
    (λ x, StatusResponse x.1.1.1.1 x.1.1.1.2 x.1.1.2 x.1.2 x.2) _).
  by intros [].
Defined.

#[export] Instance response_codec : Message status_response := countable_message status_response.
#[export] Instance response_codec_laws : MessageLaws status_response := countable_message_laws status_response.

Definition node0 : node.node (SSL := sample_keys.names) (H := status.handler) :=
  node.Node ∅ ∅ true 0 true false (crypto.Crypto None "a") sample_keys.no_chaos.

Definition request : bzn_envelope := Envelope "" "" kStatusRequest "".
Definition providers : list (status.provider (JS := tree_json)) := [None; Some ("raft", Str "x")]%string.
End sample_status.

Example status_request_is_answered_witness :
  ∃ e bytes srm,
    out (status.run_handler (JS := json_tree.tree_json) (JA := sample_status.tree_assign) (MR := sample_status.response_codec)
           "1" "2" 90061000000000 sample_status.providers e)
        (post status.start (status.new 0 true sample_status.node0)) = [status.SendBytes 3 bytes false] ∧
    ParseFromString (Message := sample_status.response_codec) bytes = Some srm ∧
    swarm_version srm = "1"%string ∧ sr_pbft_enabled srm = true.
Proof.
  destruct (status_request_is_answered (JS := json_tree.tree_json) (JA := sample_status.tree_assign) (SSL := sample_keys.names)
    (MR := sample_status.response_codec) (ML := sample_status.response_codec_laws)
    "1" "2" 0 90061000000000 true sample_status.node0 sample_status.providers sample_status.request 3)
    as (_ & e & bytes & srm & _ & _ & _ & Hout & Hp & Hv & _ & Hb & _).
  - split; reflexivity.
  - lia.
  - vm_compute. reflexivity.
  - intros _. left. reflexivity.
  - reflexivity.
  - exists e, bytes, srm. exact (conj Hout (conj Hp (conj Hv Hb))).
Defined.

Example signed_status_request_throws_witness :
  node.priv_protobuf_handler (JS := json_tree.tree_json) (Envelope "a" "" kStatusRequest "") 3 sample_status.node0 =
    (Throw "Crypto does not know how to handle a message with type 9", sample_status.node0, []).
Proof.
  apply (signed_status_request_throws (JS := json_tree.tree_json) (SSL := sample_keys.names) (Envelope "a" "" kStatusRequest "") 3 sample_status.node0 "a"%string);
    [reflexivity|discriminate|reflexivity|reflexivity].
Defined.
