(* ===== verification/Swarm.v ===== *)
(** * The program

    [utils/http_get.cpp], [ethereum/ethereum.cpp] and [swarm/main.cpp]: how a
    node is put together from its options, and what has to hold before it runs.
    The calls of Boost.Asio, Boost.Log and the file system are effects or
    arguments. *)

From S2P Require Import Prelude Messages Json Storage Crud Subscriptions PbftConfig Pbft RaftLog Raft RaftCrud RaftRecovery.
From S2P Require Import Node Bootstrap Security Options.
From Stdlib Require Import SpecFloat.

(** ** HTTP requests *)
Module http_get.

(** [.] of a regular expression does not match a line terminator. *)
Fixpoint one_line (s : string) : bool :=
  match s with
  | EmptyString => true
  | String c s => negb (bool_decide (c = "010"%char)) && negb (bool_decide (c = "013"%char)) && one_line s
  end.

(** The two groups behind the optional prefixes, against the whole text: a host
    with a dot that is not its first or last character, and a target. *)
Definition host_target (s : string) : option (string * string) :=
  match istream.span (λ c, negb (bool_decide (c = "/"%char)) && negb (bool_decide (c = "."%char))) s with
  | (EmptyString, _) => None
  | (a, String "." s) =>
      match istream.span (λ c, negb (bool_decide (c = "/"%char))) s with
      | (EmptyString, _) => None
      | (b, target) => if one_line target then Some ((a ++ "." ++ b)%string, target) else None
      end
  | _ => None
  end.

(** The text behind a literal prefix. *)
Fixpoint strip_prefix (p s : string) : option string :=
  match p, s with
  | EmptyString, _ => Some s
  | String c p, String d s => if bool_decide (c = d) then strip_prefix p s else None
  | _, _ => None
  end.

(** The optional prefixes are greedy: a match with them is tried first. *)
Definition optional_group {A} (p : string) (rest : string → option A) (s : string) : option A :=
  match (s ← strip_prefix p s; rest s) with
  | Some x => Some x
  | None => rest s
  end.

Definition url_regex (url : string) : option (string * string) :=
  optional_group "http://" (optional_group "www." host_target) url.

Section Get.
(** One GET of a target at a host, on port 80. *)
Context (request : string → string → result string).

Definition sync_get (url : string) : result string :=
  match url_regex url with
  | None => Throw ("could not parse url " ++ url)
  | Some (host, target) => request host target
  end.
End Get.
End http_get.

(** ** The balance of an account *)
Module ethereum.
Section Ethereum.
Context {JS : Jsoncpp}.
Context (request : string → string → result string).
(** [boost::lexical_cast<double>]: none when it throws. *)
Context (lexical_cast_double : string → option spec_float).

Definition GET_ETHER_BALANCE_API (address apikey : string) : string :=
  "http://api.etherscan.io/api?module=account&action=balance&address=" ++ address ++ "&tag=latest&apikey=" ++ apikey.

(** [1e18] as a double. *)
Definition wei : spec_float := S754_finite false 7812500000000000 7.

Definition double_zero : spec_float := S754_zero false.

(** IEEE 754 binary64. *)
Definition get_ether_balance (address api_key : string) : result spec_float :=
  match http_get.sync_get request (GET_ETHER_BALANCE_API address api_key) with
  | Ok response =>
      match parse response with
      | None => Ok double_zero
      | Some msg =>
          match member msg "result" with
          | Ok v => match asString v with
                    | Ok s => match lexical_cast_double s with
                              | Some balance => Ok (SFdiv 53 1024 balance wei)
                              | None => Throw "bad lexical cast: source type value could not be interpreted as target"
                              end
                    | Throw w => Throw w
                    | Undefined => Undefined
                    end
          | Throw w => Throw w
          | Undefined => Undefined
          end
      end
  | Throw w => Throw w
  | Undefined => Undefined
  end.
End Ethereum.
End ethereum.

(** ** [main] *)
Module swarm.
Import option_names simple_options storage_base.

Section Main.
Context {JS : Jsoncpp} {JM : JsonMembers} {PO : ProgramOptions} {RV : RsaVerifier} {BO : Boost} {SSL : OpenSSL} {HS : StdHash}
  {MB : Message bzn_msg}.
Context {S : Type} {ST : Storage S} {H address : Type}.

(** What [main] finds outside: the command line parser and files, addresses and
    names, the network, the parser of a peers file, the environment, the disk of
    the log, and the stores it can open ([true]: in memory). *)
Record environment := Environment {
  parse_command_line : list string → result command_line;
  read_file : string → option string;
  strerror : string;
  address_from_string : string → result address;
  resolve : string → string → result endpoint;
  request : string → string → result string;
  lexical_cast_double : string → option spec_float;
  read_stream : string → option Value;
  is_banned : uuid_t → result bool;
  raft_timeout_scale : option string;
  log_disk : raft_log.disk;
  open_storage : bool → result S;
  state_file_size : string → option N;
  hardware_concurrency : N
}.
Context (env : environment).

(** The consensus, as it is when its [start] is called. *)
Inductive consensus :=
| RunsPbft (p : pbft.pbft)
| RunsRaft (s : raft_crud.raft_crud (S := S)).

Record system := System {
  sys_node : node.node (H := H);
  sys_consensus : consensus
}.

Inductive effect :=
| InitLogging (dir : string) (rotation max_size : N) (to_stdout debug : bool)
| AwaitSignals
| MakeAudit (monitor : option endpoint) (u : uuid_t) (mem_size : N) (use_pbft : bool)
| StartNode
| StartChaos
| StartAudit
| StartHttpServer (a : address) (port : N)
| StartCrud
| StartConsensus
| StartStatus (pbft_enabled : bool)
| PrintBanner (u eth_address : string) (listener : address * N) (http_port : N) (balance : spec_float) (max_storage used : N)
| RunWorkers (n : N)
| LogFatal (what : string).

(** [None] until the components are made. *)
Abbreviation mainM := (M (option system) effect).

(** A call of the list of peers. *)
Definition peers_call (m : M bootstrap_peers.bootstrap_peers unit bool) (s : bootstrap_peers.bootstrap_peers) :
    mainM bootstrap_peers.bootstrap_peers :=
  lift (res m s);; mret (post m s).

Definition init_logging (o : simple_options) : mainM unit :=
  dir ← lift (options.get_logfile_dir o);
  rotation ← lift (options.get_logfile_rotation_size o);
  to_stdout ← lift (options.get_log_to_stdout o);
  max_size ← lift (options.get_logfile_max_size o);
  debug ← lift (options.get_debug_logging o);
  emit (InitLogging dir rotation max_size to_stdout debug).

(** Whether peers were found, and the peers. *)
Definition init_peers (peers : bootstrap_peers.bootstrap_peers) (peers_file peers_url : string) :
    mainM (bool * bootstrap_peers.bootstrap_peers) :=
  if bool_decide (peers_file = ""%string) && bool_decide (peers_url = ""%string) then mret (false, peers)
  else
    peers ← (if negb (bool_decide (peers_file = ""%string)) then
               peers_call (bootstrap_peers.fetch_peers_from_file (read_stream env) (is_banned env) (read_file env peers_file)) peers
             else mret peers);
    peers ← (if negb (bool_decide (peers_url = ""%string)) then
               text ← lift (http_get.sync_get (request env) peers_url);
               peers_call (bootstrap_peers.fetch_peers_from_url (read_stream env) (is_banned env) text) peers
             else mret peers);
    match bootstrap_peers.get_peers peers with
    | [] => mret (false, peers)
    | _ => mret (true, peers)
    end.

Definition get_state_file_size (o : simple_options) : mainM N :=
  dir ← lift (options.get_state_dir o);
  u ← lift (options.get_uuid o);
  mret (default 0%N (state_file_size env (dir ++ "/" ++ u ++ ".dat"))).

Definition print_banner (o : simple_options) (eth_balance : spec_float) : mainM unit :=
  u ← lift (options.get_uuid o);
  eth ← lift (options.get_ethererum_address o);
  listener ← lift (options.get_listener (address_from_string env) o);
  http_port ← lift (options.get_http_port o);
  max_storage ← lift (options.get_max_storage o);
  used ← get_state_file_size o;
  emit (PrintBanner u eth listener http_port eth_balance max_storage used).

Definition start_worker_threads_and_wait : mainM unit := emit (RunWorkers (hardware_concurrency env)).

(** The options that [chaos] reads. *)
Definition chaos_options (o : simple_options) : result chaos.options :=
  match get t_bool CHAOS_ENABLED o, get t_double CHAOS_NODE_FAILURE_SHAPE o, get t_double CHAOS_NODE_FAILURE_SCALE o,
        get t_double CHAOS_MESSAGE_DELAY_CHANCE o, get t_uint CHAOS_MESSAGE_DELAY_TIME o, get t_double CHAOS_MESSAGE_DROP_CHANCE o with
  | Ok on, Ok shape, Ok scale, Ok delay, Ok time, Ok drop => Ok (chaos.Options on shape scale delay time drop)
  | _, _, _, _, _, _ => Throw "boost::bad_any_cast: failed conversion using boost::any_cast"
  end.

(** The node with its signatures and faults. *)
Definition make_node (o : simple_options) : mainM (node.node (H := H)) :=
  outgoing ← lift (get t_bool CRYPTO_ENABLED_OUTGOING o);
  incoming ← lift (get t_bool CRYPTO_ENABLED_INCOMING o);
  private_key_file ← lift (get t_string NODE_PRIVATEKEY_FILE o);
  u ← lift (options.get_uuid o);
  c ← lift (chaos_options o);
  mret (node.Node ∅ ∅ false 0 incoming outgoing (crypto.new outgoing private_key_file u) c).

Definition start_pbft (o : simple_options) (n : node.node (H := H)) (peers : list peer_address_t) : mainM unit :=
  u ← lift (options.get_uuid o);
  p ← lift (pbft.new peers u);
  audit_enabled ← lift (get t_bool AUDIT_ENABLED o);
  modify (λ _, Some (System n (RunsPbft (post (pbft.set_audit_enabled audit_enabled) p))));;
  emit StartCrud;;
  emit StartConsensus;;
  emit (StartStatus true).

Definition start_raft (o : simple_options) (n : node.node (H := H)) (peers : list peer_address_t) : mainM unit :=
  listener ← lift (options.get_listener (address_from_string env) o);
  http_port ← lift (options.get_http_port o);
  u ← lift (options.get_uuid o);
  max_storage ← lift (options.get_max_storage o);
  validation ← lift (options.peer_validation_enabled o);
  signed_key ← lift (options.get_signed_key o);
  r ← lift (raft.new peers u max_storage validation signed_key (raft_timeout_scale env) (log_disk env));
  mem_storage ← lift (options.get_mem_storage o);
  storage ← lift (open_storage env mem_storage);
  audit_enabled ← lift (get t_bool AUDIT_ENABLED o);
  s ← lift (recovery.boot (post (raft.set_audit_enabled audit_enabled) r) storage);
  modify (λ _, Some (System n (RunsRaft s)));;
  emit (StartHttpServer listener.1 http_port);;
  emit StartCrud;;
  emit StartConsensus;;
  emit (StartStatus false).

(** The body of the [try]. *)
Definition run (argv : list string) : mainM N :=
  let parse := options.parse_command_line_ (parse_command_line env) (read_file env) (strerror env) argv in
  ok ← lift (res parse new);
  let o := post parse new in
  if negb ok then mret 1%N
  else
    init_logging o;;
    eth ← lift (options.get_ethererum_address o);
    token ← lift (options.get_ethererum_io_api_token o);
    eth_balance ← lift (ethereum.get_ether_balance (request env) (lexical_cast_double env) eth token);
    if SFeqb eth_balance ethereum.double_zero then mret 0%N
    else
      validation ← lift (options.peer_validation_enabled o);
      peers_file ← lift (options.get_bootstrap_peers_file o);
      peers_url ← lift (options.get_bootstrap_peers_url o);
      '(found, peers) ← init_peers (bootstrap_peers.new validation) peers_file peers_url;
      if negb found then throw "Bootstrap peers initialization failed."
      else
        emit AwaitSignals;;
        n ← make_node o;
        lift (options.get_listener (address_from_string env) o);;
        monitor ← lift (options.get_monitor_endpoint (resolve env) o);
        u ← lift (options.get_uuid o);
        mem_size ← lift (options.get_audit_mem_size o);
        use_pbft ← lift (options.pbft_enabled o);
        emit (MakeAudit monitor u mem_size use_pbft);;
        emit StartNode;;
        emit StartChaos;;
        audit_enabled ← lift (get t_bool AUDIT_ENABLED o);
        when audit_enabled (emit StartAudit);;
        (if (use_pbft : bool) then start_pbft o n (bootstrap_peers.get_peers peers)
         else start_raft o n (bootstrap_peers.get_peers peers));;
        print_banner o eth_balance;;
        start_worker_threads_and_wait;;
        mret 0%N.

(** An exception ends the program with the status 1. *)
Definition main (argv : list string) : mainM N := λ s,
  match run argv s with
  | (Throw what, s', es) => (Ok 1%N, s', es ++ [LogFatal what])
  | r => r
  end.

End Main.
End swarm.

(** ** Properties *)
Module swarm_props.
Import option_names simple_options storage_base swarm.

Section Props.
Context {JS : Jsoncpp} {JM : JsonMembers} {PO : ProgramOptions} {RV : RsaVerifier} {BO : Boost} {SSL : OpenSSL} {HS : StdHash}
  {MB : Message bzn_msg}.
Context {S : Type} {ST : Storage S} {H address : Type}.
Context (env : environment (S := S) (address := address)).

Abbreviation mainM := (M (option (system (S := S) (H := H))) (effect (address := address))).

(** *** What does not make components *)

Lemma pure_init_logging o : pure_method (init_logging o : mainM unit).
Proof. unfold init_logging, pure_method. respects_steps. Qed.

Lemma pure_peers_call m s : pure_method (peers_call m s : mainM _).
Proof. unfold peers_call, pure_method. respects_steps. Qed.

Lemma pure_init_peers peers file url : pure_method (init_peers env peers file url : mainM _).
Proof.
  unfold init_peers, pure_method. repeat first [apply pure_peers_call|respects_step].
Qed.

Lemma pure_make_node o : pure_method (make_node o : mainM _).
Proof. unfold make_node, pure_method. respects_steps. Qed.

Lemma pure_print_banner o b : pure_method (print_banner env o b : mainM _).
Proof. unfold print_banner, get_state_file_size, pure_method. respects_steps. Qed.

(** *** The peers *)

Abbreviation admitted := (bootstrap_props.admitted (is_banned env)).

Lemma peers_call_result m (s s' : bootstrap_peers.bootstrap_peers) (x : option system) :
  res (peers_call m s : mainM _) x = Ok s' → s' = post m s.
Proof. unfold peers_call. rewrite res_bind, res_lift. destruct (res m s); [|done..]. rewrite res_ret. by intros [= <-]. Qed.

(** The flag is kept, too. *)
Definition admitted_with (validation : bool) (s : bootstrap_peers.bootstrap_peers) : Prop :=
  admitted s ∧ bootstrap_peers.peer_validation_enabled s = validation.

Lemma ingest_admitted_with validation text s :
  admitted_with validation s →
  admitted_with validation (post (bootstrap_peers.ingest_json (read_stream env) (is_banned env) text) s).
Proof.
  intros [Ha Hv]. split; [by apply bootstrap_props.ingest_admitted|]. by rewrite bootstrap_props.ingest_validation.
Qed.

Lemma init_peers_admitted validation file url found peers (x : option system) :
  res (init_peers env (bootstrap_peers.new validation) file url : mainM _) x = Ok (found, peers) →
  admitted_with validation peers ∧ (found = true → bootstrap_peers.get_peers peers ≠ []).
Proof.
  unfold init_peers.
  assert (admitted_with validation (bootstrap_peers.new validation)) as H0
    by (split; [split_and!; [done|constructor|by constructor]|done]).
  revert H0. generalize (bootstrap_peers.new validation) as s0. intros s0 H0.
  destruct (bool_decide (file = _) && _); [rewrite res_ret; by intros [= <- <-]|].
  intros (s1 & H1 & Hk)%returned_bind; [|unfold pure_method; repeat first [apply pure_peers_call|respects_step]]. revert Hk.
  assert (admitted_with validation s1) as Ha1.
  { destruct (negb _); [|rewrite res_ret in H1; by simplify_eq]. apply peers_call_result in H1 as ->.
    unfold bootstrap_peers.fetch_peers_from_file. destruct (read_file env file); [by apply ingest_admitted_with|done]. }
  intros (s2 & H2 & Hk)%returned_bind; [|unfold pure_method; repeat first [apply pure_peers_call|respects_step]]. revert Hk.
  assert (admitted_with validation s2) as Ha2.
  { clear H1. destruct (negb _); [|rewrite res_ret in H2; by simplify_eq].
    apply returned_bind in H2 as (text & _ & H2); [|by apply respects_lift, _]. apply peers_call_result in H2 as ->.
    by apply ingest_admitted_with. }
  destruct (bootstrap_peers.get_peers s2) eqn:E; rewrite res_ret; intros [= <- <-]; (split; [done|]); [done|by rewrite E].
Qed.

(** *** What [main] makes *)

(** The consensus that options and peers stand for. *)
Definition consensus_of (o : simple_options) (peers : list peer_address_t) (c : consensus (S := S)) : Prop :=
  ∃ u audit_enabled, options.get_uuid o = Ok u ∧ get t_bool AUDIT_ENABLED o = Ok audit_enabled ∧
  match c with
  | RunsPbft p => options.pbft_enabled o = Ok true ∧
      ∃ p0, pbft.new peers u = Ok p0 ∧ p = post (pbft.set_audit_enabled audit_enabled) p0
  | RunsRaft s => options.pbft_enabled o = Ok false ∧
      ∃ max_storage validation key r in_memory store,
        options.get_max_storage o = Ok max_storage ∧ options.peer_validation_enabled o = Ok validation ∧
        options.get_signed_key o = Ok key ∧ options.get_mem_storage o = Ok in_memory ∧ open_storage env in_memory = Ok store ∧
        raft.new peers u max_storage validation key (raft_timeout_scale env) (log_disk env) = Ok r ∧
        recovery.boot (post (raft.set_audit_enabled audit_enabled) r) store = Ok s
  end.

(** A method that made the components ran through what comes first. *)
Lemma made_behind {A B} (m : mainM A) (k : A → mainM B) sys :
  pure_method m → post (m ≫= k) None = Some sys → ∃ a, res m None = Ok a ∧ post (k a) None = Some sys.
Proof using.
  intros Hm Hs. destruct (changed_bind id m k None Hm) as (a & Ha & _); [by rewrite Hs|].
  exists a. split; [done|]. rewrite post_bind, <-(Hm None), Ha in Hs. done.
Qed.

Lemma made_lift {A B} (r : result A) (k : A → mainM B) sys :
  post (lift r ≫= k) None = Some sys → ∃ a, r = Ok a ∧ post (k a) None = Some sys.
Proof using. intros (a & Ha & Hk)%made_behind; [|by apply respects_lift, _]. exists a. by rewrite res_lift in Ha. Qed.

Lemma made_emit {B} e (k : unit → mainM B) sys : post (emit e ≫= k) None = Some sys → post (k tt) None = Some sys.
Proof using. by intros ([] & _ & Hk)%made_behind; [|by apply respects_emit, _]. Qed.

Lemma made_modify {B} x (k : unit → mainM B) sys :
  (∀ a, pure_method (k a)) → post (modify (λ _, Some x) ≫= k) None = Some sys → sys = x.
Proof using. intros Hk. rewrite post_bind_pure, post_modify by done. by intros [= ->]. Qed.

Lemma start_pbft_makes o n peers sys :
  options.pbft_enabled o = Ok true → post (start_pbft o n peers : mainM unit) None = Some sys →
  sys_node sys = n ∧ consensus_of o peers (sys_consensus sys).
Proof.
  intros Hp. unfold start_pbft. intros (u & Hu & Hs)%made_lift. revert Hs. intros (p & Hnew & Hs)%made_lift. revert Hs.
  intros (b & Hb & Hs)%made_lift. assert (sys = _) as -> by (eapply made_modify; [|exact Hs]; intros []; unfold pure_method; respects_steps).
  split; [done|]. exists u, b. split; [done|]. split; [done|]. cbn [sys_consensus]. split; [done|]. by exists p.
Qed.

Lemma start_raft_makes o n peers sys :
  options.pbft_enabled o = Ok false → post (start_raft env o n peers : mainM unit) None = Some sys →
  sys_node sys = n ∧ consensus_of o peers (sys_consensus sys).
Proof.
  intros Hp. unfold start_raft. intros (l & _ & Hs)%made_lift. revert Hs. intros (hp & _ & Hs)%made_lift. revert Hs.
  intros (u & Hu & Hs)%made_lift. revert Hs. intros (mx & Hmx & Hs)%made_lift. revert Hs.
  intros (v & Hv & Hs)%made_lift. revert Hs. intros (key & Hkey & Hs)%made_lift. revert Hs.
  intros (r & Hr & Hs)%made_lift. revert Hs. intros (mem & Hmem & Hs)%made_lift. revert Hs.
  intros (st & Hst & Hs)%made_lift. revert Hs. intros (b & Hb & Hs)%made_lift. revert Hs.
  intros (s & Hboot & Hs)%made_lift. assert (sys = _) as -> by (eapply made_modify; [|exact Hs]; intros []; unfold pure_method; respects_steps).
  split; [done|]. exists u, b. split; [done|]. split; [done|]. cbn [sys_consensus]. split; [done|].
  by exists mx, v, key, r, mem, st.
Qed.

(** Everything that [main] checks before it makes the components. *)
Definition checked (argv : list string) (sys : system (S := S) (H := H)) : Prop :=
  ∃ o validation peers address_ token balance,
    res (options.parse_command_line_ (parse_command_line env) (read_file env) (strerror env) argv) new = Ok true ∧
    o = post (options.parse_command_line_ (parse_command_line env) (read_file env) (strerror env) argv) new ∧
    options.get_ethererum_address o = Ok address_ ∧ options.get_ethererum_io_api_token o = Ok token ∧
    ethereum.get_ether_balance (request env) (lexical_cast_double env) address_ token = Ok balance ∧
    SFeqb balance ethereum.double_zero = false ∧
    options.peer_validation_enabled o = Ok validation ∧ admitted_with validation peers ∧ bootstrap_peers.get_peers peers ≠ [] ∧
    res (make_node o : mainM _) None = Ok (sys_node sys) ∧
    consensus_of o (bootstrap_peers.get_peers peers) (sys_consensus sys).

Lemma run_checked argv sys : post (run env argv : mainM N) None = Some sys → checked argv sys.
Proof.
  unfold run. cbv zeta. intros (ok & Hok & Hs)%made_lift. revert Hs. destruct ok; cbn [negb]; [|by rewrite post_ret].
  set (o := post _ new) in *.
  intros ([] & _ & Hs)%made_behind; [|apply pure_init_logging]. revert Hs.
  intros (eth & Heth & Hs)%made_lift. revert Hs. intros (token & Htoken & Hs)%made_lift. revert Hs.
  intros (balance & Hbal & Hs)%made_lift. revert Hs.
  destruct (SFeqb balance ethereum.double_zero) eqn:Hz; [by rewrite post_ret|].
  intros (v & Hv & Hs)%made_lift. revert Hs. intros (file & Hfile & Hs)%made_lift. revert Hs.
  intros (url & Hurl & Hs)%made_lift. revert Hs.
  intros ([found peers] & Hpeers & Hs)%made_behind; [|apply pure_init_peers]. revert Hs.
  apply init_peers_admitted in Hpeers as [Ha Hne]. destruct found; cbn [negb]; [|by rewrite post_throw].
  intros Hs%made_emit. revert Hs. intros (n & Hn & Hs)%made_behind; [|apply pure_make_node]. revert Hs.
  intros (l & _ & Hs)%made_lift. revert Hs. intros (mon & _ & Hs)%made_lift. revert Hs.
  intros (u & _ & Hs)%made_lift. revert Hs. intros (mem & _ & Hs)%made_lift. revert Hs.
  intros (pb & Hpb & Hs)%made_lift. revert Hs. do 3 (intros Hs%made_emit; revert Hs).
  intros (b & _ & Hs)%made_lift. revert Hs.
  intros ([] & _ & Hs)%made_behind; [|unfold pure_method; respects_steps]. revert Hs.
  rewrite post_bind_pure
    by (intros []; unfold start_worker_threads_and_wait, pure_method; repeat first [apply pure_print_banner|respects_step]).
  intros Hs. exists o, v, peers, eth, token, balance.
  assert (sys_node sys = n ∧ consensus_of o (bootstrap_peers.get_peers peers) (sys_consensus sys)) as [<- Hc].
  { destruct pb; [by apply start_pbft_makes|by apply start_raft_makes]. }
  split_and!; try done. by apply Hne.
Qed.

(** *** When the workers run *)

Definition idle {A} (m : mainM A) : Prop := ∀ x, Forall (λ e, ∀ n, e ≠ RunWorkers n) (out m x).

Lemma idle_query {A} (m : mainM A) : query m → idle m.
Proof using. intros Hm x. unfold out. rewrite (Hm x). constructor. Qed.

Lemma idle_emit e : match e with RunWorkers _ => False | _ => True end → idle (emit e).
Proof using. intros He x. rewrite out_emit. constructor; [|constructor]. by intros n ->. Qed.

Lemma idle_modify f : idle (modify f).
Proof using. intros x. rewrite out_modify. constructor. Qed.

Lemma idle_bind {A B} (m : mainM A) (k : A → mainM B) : idle m → (∀ a, idle (k a)) → idle (m ≫= k).
Proof using.
  intros Hm Hk x. rewrite out_bind. apply Forall_app. split; [apply Hm|].
  destruct (res m x) as [a| |]; [apply Hk|constructor..].
Qed.

Ltac idle_steps := repeat (cbv beta; first
  [ apply idle_bind; [|intros ?] | apply idle_emit; exact I | apply idle_modify
  | lazymatch goal with |- idle (match ?x with _ => _ end) => destruct x end
  | apply idle_query; solve [eauto with query] ]).

Lemma idle_peers_call m s : idle (peers_call m s : mainM _).
Proof using. unfold peers_call. idle_steps. Qed.

Lemma idle_init_peers peers file url : idle (init_peers env peers file url : mainM _).
Proof using. unfold init_peers. repeat first [apply idle_peers_call|progress idle_steps]. Qed.

Lemma idle_start_pbft o n peers : idle (start_pbft o n peers : mainM unit).
Proof using. unfold start_pbft. idle_steps. Qed.

Lemma idle_start_raft o n peers : idle (start_raft env o n peers : mainM unit).
Proof using. unfold start_raft. idle_steps. Qed.

Lemma idle_init_logging o : idle (init_logging o : mainM unit).
Proof using. unfold init_logging. idle_steps. Qed.

Lemma idle_make_node o : idle (make_node o : mainM _).
Proof using. unfold make_node. idle_steps. Qed.

(** When the workers run, the components are there. *)
Definition started {A} (m : mainM A) : Prop := ∀ n, RunWorkers n ∈ out m None → is_Some (post m None).

Lemma started_idle {A} (m : mainM A) : idle m → started m.
Proof using. intros Hm n Hin. pose proof (Hm None) as Hall. rewrite Forall_forall in Hall. by destruct (Hall _ Hin n). Qed.

Lemma started_behind {A B} (m : mainM A) (k : A → mainM B) :
  idle m → pure_method m → (∀ a, started (k a)) → started (m ≫= k).
Proof using.
  intros Hi Hp Hk n. rewrite out_bind, post_bind, <-(Hp None), elem_of_app. intros [Hin|Hin].
  - pose proof (Hi None) as Hall. rewrite Forall_forall in Hall. by destruct (Hall _ Hin n).
  - destruct (res m None) as [a| |]; [by apply (Hk a n)|by apply not_elem_of_nil in Hin..].
Qed.

Lemma started_lift {A B} (r : result A) (k : A → mainM B) : (∀ a, started (k a)) → started (lift r ≫= k).
Proof using. apply started_behind; [apply idle_query; auto with query|by apply respects_lift, _]. Qed.

Lemma started_emit {B} e (k : unit → mainM B) :
  match e with RunWorkers _ => False | _ => True end → (∀ a, started (k a)) → started (emit e ≫= k).
Proof using. intros He. apply started_behind; [by apply idle_emit|by apply respects_emit, _]. Qed.

(** A start that returns has made them. *)
Lemma started_after {B} (m : mainM unit) (k : unit → mainM B) :
  idle m → (res m None = Ok tt → is_Some (post m None)) → (∀ a, pure_method (k a)) → started (m ≫= k).
Proof using.
  intros Hi Hm Hk n. rewrite post_bind_pure, out_bind, elem_of_app by done. intros [Hin|Hin].
  - pose proof (Hi None) as Hall. rewrite Forall_forall in Hall. by destruct (Hall _ Hin n).
  - destruct (res m None) as [[]| |]; [by apply Hm|by apply not_elem_of_nil in Hin..].
Qed.

(** A method that returns has run its last change. *)
Lemma made_finished {A B} (m : mainM A) (k : A → mainM B) :
  pure_method m → (∀ a, ∀ b, res (k a) None = Ok b → is_Some (post (k a) None)) →
  ∀ b, res (m ≫= k) None = Ok b → is_Some (post (m ≫= k) None).
Proof using. intros Hp Hk b (a & _ & Hr & ->)%finished_bind. rewrite <-(Hp None) in *. by eapply Hk. Qed.

Ltac made_steps := repeat (apply made_finished; [by apply respects_lift, _|intros ?]).

Lemma start_pbft_returns o n peers :
  res (start_pbft o n peers : mainM unit) None = Ok tt → is_Some (post (start_pbft o n peers : mainM unit) None).
Proof using.
  generalize tt. unfold start_pbft. made_steps. intros b _. rewrite post_bind_pure, post_modify; [done|].
  intros []. unfold pure_method. respects_steps.
Qed.

Lemma start_raft_returns o n peers :
  res (start_raft env o n peers : mainM unit) None = Ok tt → is_Some (post (start_raft env o n peers : mainM unit) None).
Proof using.
  generalize tt. unfold start_raft. made_steps. intros b _. rewrite post_bind_pure, post_modify; [done|].
  intros []. unfold pure_method. respects_steps.
Qed.

Ltac started_step :=
  cbv beta;
  lazymatch goal with
  | |- started (lift _ ≫= _) => apply started_lift; intros ?
  | |- started (emit _ ≫= _) => apply started_emit; [exact I|intros ?]
  | |- started (mret _) => apply started_idle, idle_query; auto with query
  | |- started (throw _) => apply started_idle, idle_query; auto with query
  | |- started (init_logging _ ≫= _) => apply started_behind; [apply idle_init_logging|apply pure_init_logging|intros ?]
  | |- started (init_peers _ _ _ _ ≫= _) => apply started_behind; [apply idle_init_peers|apply pure_init_peers|intros ?]
  | |- started (make_node _ ≫= _) => apply started_behind; [apply idle_make_node|apply pure_make_node|intros ?]
  | |- started (when _ (emit StartAudit) ≫= _) =>
      apply started_behind; [unfold when; idle_steps|unfold pure_method; respects_steps|intros ?]
  | |- started (match ?x with _ => _ end) => destruct x
  end.

Lemma run_started argv : started (run env argv).
Proof.
  unfold run. cbv zeta. repeat started_step.
  apply started_after.
  - case_match; [apply idle_start_pbft|apply idle_start_raft].
  - case_match; [apply start_pbft_returns|apply start_raft_returns].
  - intros []; unfold start_worker_threads_and_wait, pure_method; repeat first [apply pure_print_banner|respects_step].
Qed.

Lemma post_main argv x : post (main env argv : mainM N) x = post (run env argv) x.
Proof using. unfold post, main. by destruct (run env argv x) as [[[]?]?]. Qed.

Lemma main_never_throws argv x what : res (main env argv : mainM N) x ≠ Throw what.
Proof using. unfold res, main. by destruct (run env argv x) as [[[]?]?]. Qed.

Lemma out_main argv x n : RunWorkers n ∈ out (main env argv : mainM N) x → RunWorkers n ∈ out (run env argv) x.
Proof using.
  unfold out, main. destruct (run env argv x) as [[[]?] es]; cbn; try done.
  intros [?|Hin]%elem_of_app; [done|]. by apply list_elem_of_singleton in Hin.
Qed.

End Props.
End swarm_props.

(** ** Claims *)

Section Claims.
Import swarm swarm_props.

(** C24: Whatever the files, the network and the contracts answer, [main] lets no
    exception out; the components it makes belong to options that were accepted,
    an account whose balance is not zero, and a list of peers that is not empty,
    has no peer twice and only peers that can be connected to (and, with
    validation, that are not banned): the consensus is PBFT or Raft as the options
    say, built from these peers, with the store replayed from the log on disk
    before Raft starts; and the workers run only when the components are there. *)
Theorem main_runs_checked_swarm {JS : Jsoncpp} {JM : JsonMembers} {PO : ProgramOptions} {RV : RsaVerifier} {BO : Boost}
    {SSL : OpenSSL} {HS : StdHash} {MB : Message bzn_msg}
    {S : Type} {ST : storage_base.Storage S} {H address : Type}
    (env : environment (S := S) (address := address)) (argv : list string) :
  let m := main (H := H) env argv in
  (∀ what, res m None ≠ Throw what) ∧
  (∀ sys, post m None = Some sys → checked env argv sys) ∧
  (∀ n, RunWorkers n ∈ out m None → ∃ sys, post m None = Some sys).
Proof.
  cbv zeta. split_and!.
  - intros what. apply main_never_throws.
  - intros sys. rewrite post_main. apply run_checked.
  - intros n Hin. rewrite post_main. by eapply run_started, out_main.
Qed.
End Claims.

(** *** Examples: a node of a swarm of two that runs Raft *)
Module sample_main.
Import json_tree letters storage_base swarm swarm_props.

Definition peers_file : string :=
  print (bootstrap_props.peers_json (JS := tree_json) sample_peers.peers).

Definition files (name : string) : option string :=
  if bool_decide (name = "bluzelle.json"%string) then Some (print sample_options.config) else Some peers_file.

Definition env : environment (JS := tree_json) (S := mem_storage.mem_storage) (address := string) := {|
  parse_command_line := sample_options.argv;
  read_file := files;
  strerror := "";
  address_from_string := Ok;
  resolve _ _ := Throw "host not found";
  request _ _ := Ok (print (Obj [("result", Str "1")]%string));
  lexical_cast_double _ := Some (S754_finite false 4503599627370496 0);
  read_stream := json_tree.read;
  is_banned _ := Ok false;
  raft_timeout_scale := None;
  log_disk := raft_log.Disk None true true;
  open_storage _ := Ok mem_storage.empty;
  state_file_size _ := None;
  hardware_concurrency := 4
|}.

Definition start : M (option (system (JS := tree_json) (SSL := sample_keys.names) (S := mem_storage.mem_storage) (H := nat)))
    (effect (address := string)) N :=
  main (JM := sample_options.tree_members) (PO := sample_options.map_options) (RV := sample_contract.verifier)
    (BO := letters_boost) (HS := tree_hash) (MB := sample_node.codec) env [].

Definition works : bool :=
  existsb (λ e, match e with RunWorkers n => (n =? 4)%N | _ => false end) (out start None).

Lemma sample_works : works = true.
Proof. vm_compute. reflexivity. Qed.

Lemma works_spec (es : list (effect (address := string))) :
  existsb (λ e, match e with RunWorkers n => (n =? 4)%N | _ => false end) es = true → RunWorkers 4 ∈ es.
Proof.
  intros (e & Hin & He)%existsb_exists. apply list_elem_of_In in Hin. destruct e; try done. by apply N.eqb_eq in He as ->.
Qed.
End sample_main.

Example main_runs_checked_swarm_witness :
  ∃ sys, post sample_main.start None = Some sys ∧
    swarm_props.checked (JM := sample_options.tree_members) (PO := sample_options.map_options) (RV := sample_contract.verifier)
      (BO := letters.letters_boost) (MB := sample_node.codec)
      sample_main.env [] sys.
Proof.
  destruct (main_runs_checked_swarm (H := nat) (JM := sample_options.tree_members) (PO := sample_options.map_options)
    (SSL := sample_keys.names) (RV := sample_contract.verifier) (BO := letters.letters_boost) (HS := json_tree.tree_hash)
    (MB := sample_node.codec) sample_main.env []) as (_ & Hc & Hw).
  destruct (Hw 4%N (sample_main.works_spec _ sample_main.sample_works)) as [sys Hsys].
  exists sys. exact (conj Hsys (Hc sys Hsys)).
Defined.
